(* ===== verification/_CoqProject ===== *)
-Q . S2P
Prelude.v
Float64.v
FloatDiv.v
GoHeap.v
GoStrings.v
Web.v
Records.v
Graph.v
EdgeStats.v
Telemetry.v
Probing.v
EtcdSync.v
KShortest.v
KSearch.v
KYen.v
LiveNet.v
Random.v
OneWAN.v
Carousel.v
CarouselSearch.v
CarouselRun.v
CarouselMulti.v
LastMile.v
Lyapunov.v
Routing.v
ControlApi.v
EdgeReport.v
Net.v
Collector.v
Packet.v
Tunnel.v
Aggregator.v
Batching.v
Eviction.v
AggPool.v
AggregatorV2.v
Dispatch.v
Proxy.v
Disagg.v
Server.v
BackSource.v
KeepAlive.v
ServerRun.v
Listeners.v
RateLimit.v
UdpLimit.v
Config.v
IpService.v
Startup.v
TunnelMgr.v
QuicListen.v
EndToEnd.v
ConnPool.v
ProxyStart.v
Util.v
