(* ===== verification/Prelude.v ===== *)
(** * SkyAccel: a verification of its routing and tunnelling code

    SkyAccel accelerates traffic over an overlay of nodes.  It is written in Go
    and has three programs, under [src/]:
    - [control-plane]: keeps a graph of the nodes and links from the telemetry
      they report through etcd, and answers routing requests with one of several
      algorithms;
    - [data-proxy]: accepts client connections, batches their requests into
      tunnel packets, forwards the packets hop by hop over QUIC, performs the
      request at the exit node and returns the answer the same way;
    - [data-plane]: measures CPU, links and clients and reports them.

    ** How the code is modelled

    Go functions are Rocq functions on the same data: structs are records, maps
    are [gmap]s, slices are lists, [error] results are sums.  What can panic at
    run time (indices, nil pointers, sends on closed channels) returns [go A].
    Machine integers are [Z] with their wrap-around written out, float64 is the
    [spec_float] of the Standard Library at 53 bits.  Locks delimit atomic
    steps: operations of concurrent goroutines are sequences of such steps, and
    where the code releases a lock in the middle the model has two steps.
    The order in which Go ranges over a map is an interface ([RangeOrder]), as
    are random draws ([RandSource]), [sort.Slice] ([SliceSort]) and the
    functions of package [math] ([MathLib]); the theorems hold for every
    instance.  JSON, HTTP, clocks and sockets are arguments.  Log calls are left
    out.

    ** Files

    - [Prelude] (this file): outcomes of Go calls, orders and sorts, map ranges,
      machine integers, shared list lemmas.  [Float64], [FloatDiv]: float64
      arithmetic and its order, rounding, quotients and sums.  [GoHeap]:
      [container/heap].  [GoStrings]: [strings.Split], [Join], [strconv].
      [Random]: the random sources and shuffles.  [Records]: the structs that
      the planes exchange.  [Web]: the routes of the three programs, the
      requests between them and the queries of [net/url].  [Util]: the small
      utilities ([util.go], [safe-map.go], [tcp_rtt_linux.go]).
    - [Graph]: [control-plane/routing/graph] and the etcd watch of the nodes.
      [EdgeStats]: [control-plane/aggregator/edge.go], the latency reports of
      the edge nodes, their aggregation and watch.  [Telemetry]:
      [control-plane/aggregator/node.go], the statistics of
      [data-plane/edge-domain/telemetry.go] and the sampler of
      [data-plane/collector/cpu.go].  [EtcdSync]: [sync/etcd_client] and how
      [control-plane/main.go] loads and follows the store.
    - [Probing]: [data-plane/probing] and [collector/links.go].  [Collector]:
      the other files of [data-plane/collector], up to the report.
      [EdgeReport]: [data-plane/edge-domain], from the access log to the report,
      with the address library of [data-plane/util].
    - [KShortest], [KSearch], [KYen]: [core-domain/k-shortest.go] - the
      definitions, the single-pair search, and Yen's algorithm with the entry
      point.  [LiveNet]: [core-domain/livenet.go].  [OneWAN]:
      [core-domain/onewan-multi.go].  [Carousel], [CarouselSearch],
      [CarouselRun], [CarouselMulti]: [core-domain/carousel-greed.go] - the
      definitions, the depth-first search, the book-keeping of a run, and the
      results.
    - [LastMile]: [edge-domain/joint-cpu-latency.go], [p2c.go] and
      [ewma-based.go].  [Lyapunov]: [edge-domain/lyapunov-opt.go] and its
      configuration.
    - [Routing]: [control-plane/routing/routing.go], the dispatch over all of
      these through the solver interfaces.  [ControlApi]: the HTTP handlers of
      [control-plane/api].
    - [Net]: addresses and request ids.  [Packet]: [tunnel-packet.go].
      [Tunnel]: [tunnel-handler.go].  [Disagg]: [disaggregator.go].
    - [Aggregator], [Batching], [Eviction]: a worker of
      [aggregator/aggregator.go] - definitions, delivery, eviction.  [AggPool]:
      the workers behind their channel, over an interface that both versions of
      the aggregator implement.  [AggregatorV2], [Dispatch]:
      [aggregator/aggregator_v2.go] - the shards, and the senders with [Stop].
    - [Proxy], [Server], [ServerRun], [KeepAlive]: the client connections of
      [server/tcp-server.go] and [udp-server.go] - building a message, the
      parts of the handlers, all requests of a proxy as interleaved steps, and
      the loop of a keep-alive connection.
      [Listeners]: [server-manager.go] and the listeners.  [RateLimit]:
      [rate-limiter.go].  [UdpLimit]: the proxy behind the limiter.  [Config]:
      the configuration files of the three programs.
    - [BackSource]: the workers of [backsourcer/backsourcer.go].  [ConnPool]:
      [backsourcer/tcp_pool.go].  [TunnelMgr], [QuicListen]: [tunnel-manager] -
      the tunnels of the senders, and the goroutines of the listener.
    - [IpService]: the start of the node program ([data-plane/main.go]), its
      address service and the client of it in the control plane.  [Startup]:
      [control-plane/main.go] and the embedded etcd server.  [ProxyStart]:
      [data-proxy/main.go].
    - [EndToEnd]: a client's request through control plane and proxies.

    ** What the theorems show

    - Routing core: the searches end and return exactly simple paths of the
      graph, in order, distinct, and complete where the code is complete
      ([findShortestPath_correct], [yensAlgorithm_correct] and [_exhaustive],
      [Computing_correct], [LiveStyle_Computing_correct],
      [ONEWAN_ComputingMulti_correct], [findFeasiblePathWithLatency_correct],
      [Flow_ComputingMulti_correct]); the carousel solver keeps its flow
      accounts ([carousel_books]).
    - Routing edge: every last-mile router answers with one path per node, with
      its score or share ([Joint_], [P2C_], [EWMA_], [Lyapunov_Computing_correct]).
    - Composition in the control plane: the graph follows the store, but for what
      changes between the load and the begin of the watch
      ([graph_follows_store]); on every graph the watch can produce
      ([graph_reachable_wf]) the entry points answer with paths of that graph or
      the stated error ([MiddleRouting_correct], [LastRouting_correct],
      [MiddleRoutingMulti_correct]); an accepted report reaches the graph, as the
      telemetry of its node and the risk of its edges
      ([accepted_report_reaches_graph]); the statistics have the counts, sums,
      averages and percentiles of their samples ([rebuildAggregate_spec],
      [calculateLastCongestion_correct]); the location of a client is the one of
      the node's address library ([location_reaches_routing]).
    - Measurements: a probe round ends with one result per target
      ([probe_round_correct]), what was measured is what the graph gets
      ([measurements_reach_graph]), the CPU time is parsed and accounted
      ([readProcStat_line], [getProcessCPU_correct]), and the response times of
      the access log reach the routers' statistics ([latencies_reach_statistics]).
    - Tunnel: the packet format round-trips ([Parse_SerializeHead],
      [stream_carries_packet], also for streams that are cut or reset), the
      handler's panics are characterised
      ([HandleQUICPacket_panics_iff]), there is one open tunnel per address
      ([tunnels_one_open]), and the listener hands every packet to the handler
      once, within its limit and without a deadlock ([quic_listener_correct]).
    - Aggregation: the aggregator delivers every accepted message exactly once
      but for what an eviction drops ([aggregator_pool_delivers]); its second
      version delivers what a shard takes for itself, less what evictions drop
      ([aggregatorV2_delivers]).  Both hold for the interleavings of the critical
      sections in which an eviction does not overlap a message or a check of its
      worker; the races that the code allows beyond these panic or lose a message
      ([evict_in_check_panics], [evict_handling_loses]).  The second version sends
      each route in order ([senders_in_order]), but does not stop
      ([Stop_never_ends]).
    - Requests: a client whose request and answer are too short to be batched is
      served end to end ([client_served]; batches share a port,
      [batch_shares_port]), and a client never gets
      another client's answer ([server_isolation]), also on a connection kept
      alive ([keepalive_serves]); routes of the control plane
      are safe ([control_routes_safe]), crashes and progress of the handling of
      requests are characterised ([server_crashes], [server_progress]); the exit
      node carries out every task, in every schedule that gives its workers their
      turns ([backsourcer_answers_all]); pool, limiters and listeners keep their
      contracts ([pool_refines_life], [rate_limiter_refines],
      [limiter_guards_proxy], [listeners_typed]); the configuration is the one
      of the files ([ReadYamlConfig_correct]).
    - Start: for every environment it is said whether the control plane serves,
      and in which state, waits, returns or panics ([control_main_correct]); its servers form one etcd
      cluster ([etcd_cluster_consistent]); the configured ports of the proxy come
      up ([proxy_comes_up]); the programs agree on their HTTP interfaces
      ([services_agree]).
    - Behaviour that differs from the intention is stated as theorems too, for
      instance [findShortestPath_not_shortest], [carousel_invents_link],
      [long_path_misdirected], [failed_refresh_erases_route],
      [oversized_panics], [silent_peer_stops_tunnels] and
      [shared_port_crashes].

    ** Fuel and bounds

    Loops that are not structural have fuel and return [None] without it; the
    theorems show that the given fuel suffices: the number of nodes and pushes
    for the single-pair search, [k+1] rounds for Yen's loop, the hop limits (15
    and 30) for the depth-first searches, [flowsPerDest * 10 + 1] attempts for
    the initial paths, the length of the heap for the timeouts.  Loops of
    goroutines are steps of a run; that they come to an end is shown with a
    measure.  Sizes are bounded by [2^53] where they are converted to float64, and
    the number of records by [2^47], for which the index of the percentile is
    exact.

    ** Not modelled

    Sockets, the QUIC and HTTP libraries, the router, the etcd cluster and its
    embedded server, file systems, JSON and YAML and the operating system's
    counters are arguments of the modelled code, with their documented behaviour
    as laws where a theorem needs it.  Left out are the log handlers (and the log
    files of the two data programs) and the profiling server in the [main]
    functions, and the
    certificate of the QUIC listener ([GenerateTLSConfig]): calls of libraries
    that neither read nor write state of the programs. *)

From stdpp Require Export base list gmap strings sorting.
From Stdlib Require Export ZArith Lia Sorting.Permutation.


(** ** Outcomes of Go calls

    A Go function that returns [(T, error)] is modelled with [T + error];
    one that can panic at run time (an index out of range, a send on a closed
    channel, a nil dereference) with [go T]. *)
Inductive go (A : Type) : Type :=
| Ret (a : A)
| Panic (why : string).
Arguments Ret {A} a.
Arguments Panic {A} why.

Definition go_bind {A B} (m : go A) (k : A → go B) : go B :=
  match m with
  | Ret a => k a
  | Panic w => Panic w
  end.

Declare Scope go_scope.
Delimit Scope go_scope with go.
Notation "'let!' x ':=' m 'in' k" := (go_bind m (λ x, k))
  (at level 10, x pattern, m at level 100, k at level 200) : go_scope.

(** Reading [s[i]] of a slice or an array: the run time checks the index. *)
Definition index {A} (l : list A) (i : nat) : go A :=
  match l !! i with
  | Some x => Ret x
  | None => Panic "index out of range"
  end.

Lemma index_lt {A} (l : list A) i :
  i < length l → ∃ x, l !! i = Some x ∧ index l i = Ret x.
Proof.
  intros [x Hx]%lookup_lt_is_Some. exists x. unfold index. by rewrite Hx.
Qed.

(** ** Hint databases of the development *)
Create HintDb sky.

Ltac bool_simp :=
  repeat match goal with
  | H : _ && _ = true |- _ => apply andb_true_iff in H as [? ?]
  | H : _ || _ = false |- _ => apply orb_false_iff in H as [? ?]
  | H : negb _ = true |- _ => apply negb_true_iff in H
  | H : negb _ = false |- _ => apply negb_false_iff in H
  | H : bool_decide _ = true |- _ => apply bool_decide_eq_true in H
  | H : bool_decide _ = false |- _ => apply bool_decide_eq_false in H
  end.

(** Case analysis on the scrutinee of a [match] or [if] of the goal. *)
Ltac case_match_goal :=
  match goal with
  | |- context [ match ?x with _ => _ end ] => destruct x eqn:?
  end.

(** ** Weak orders

    [less] is a strict weak order on the values satisfying [P]: this is what
    a comparison on floats gives once NaN is excluded. *)
Class WeakOrder {A} (P : A → Prop) (less : A → A → bool) : Prop := {
  wo_asym x y : P x → P y → less x y = true → less y x = false;
  wo_negtrans x y z : P x → P y → P z →
    less y x = false → less z y = false → less z x = false;
}.

(** Comparing through a projection keeps the weak order. *)
#[export] Instance weak_order_on {A B} (f : B → A) (P : A → Prop) less
  `{!WeakOrder P less} :
  WeakOrder (λ b, P (f b)) (λ x y, less (f x) (f y)).
Proof.
  split.
  - intros x y Hx Hy. by apply wo_asym.
  - intros x y z Hx Hy Hz. by apply wo_negtrans.
Qed.

Lemma wo_irrefl {A} (P : A → Prop) less `{!WeakOrder P less} x :
  P x → less x x = false.
Proof.
  intros Hx. destruct (less x x) eqn:E; [|done].
  by rewrite (wo_asym x x) in E.
Qed.

Definition sorted_by {A} (less : A → A → bool) : list A → Prop :=
  StronglySorted (λ a b, less b a = false).

Lemma sorted_by_app {A} (less : A → A → bool) l1 l2 :
  sorted_by less (l1 ++ l2) →
  sorted_by less l1 ∧ sorted_by less l2 ∧
  ∀ x y, x ∈ l1 → y ∈ l2 → less y x = false.
Proof.
  unfold sorted_by. induction l1 as [|a l1 IH]; simpl.
  { intros H. split; [constructor|]. split; [done|]. by intros x y ?%not_elem_of_nil. }
  intros [H1 H2]%StronglySorted_inv. destruct (IH H1) as (S1 & S2 & S3).
  apply Forall_app in H2 as [F1 F2]. split; [by constructor|]. split; [done|].
  intros x y [->|Hx]%elem_of_cons Hy; [|by apply S3]. by eapply Forall_forall in F2.
Qed.

Lemma sorted_by_fmap {A B} (f : A → B) less1 less2 l :
  (∀ x y, less2 (f x) (f y) = less1 x y) → sorted_by less1 l → sorted_by less2 (f <$> l).
Proof.
  intros Hf. induction 1 as [|x l Hl IH Hall]; simpl; [constructor|].
  constructor; [done|]. apply Forall_fmap. eapply Forall_impl; [done|].
  intros y Hy. simpl. by rewrite Hf.
Qed.

(** ** The in-place exchange sort

    The code base never calls [sort] on paths or scores that live in a slice
    of structs: it writes out
    [for i := 0; i < len(s)-1; i++ { for j := i+1; j < len(s); j++ {
       if less(s[j], s[i]) { s[i], s[j] = s[j], s[i] } } }].
    [exchange_sort] is that loop nest on indices; [selection] is the
    structural version the proofs use. *)
Section ExchangeSort.
Context {A : Type} (less : A → A → bool).

Definition swap (l : list A) (i j : nat) : list A :=
  match l !! i, l !! j with
  | Some x, Some y => <[i := y]> (<[j := x]> l)
  | _, _ => l
  end.

Definition less_at (l : list A) (j i : nat) : bool :=
  match l !! j, l !! i with
  | Some y, Some x => less y x
  | _, _ => false
  end.

Definition exchange_inner (i : nat) (l : list A) : list A :=
  foldl (λ l j, if less_at l j i then swap l i j else l) l
    (seq (S i) (length l - S i)).

Definition exchange_sort (l : list A) : list A :=
  foldl (λ l i, exchange_inner i l) l (seq 0 (length l - 1)).

Fixpoint sel_min (x : A) (l : list A) : A * list A :=
  match l with
  | [] => (x, [])
  | y :: l' =>
      if less y x
      then let '(m, r) := sel_min y l' in (m, x :: r)
      else let '(m, r) := sel_min x l' in (m, y :: r)
  end.

Fixpoint selection (n : nat) (l : list A) : list A :=
  match n, l with
  | S n', x :: l' => let '(m, r) := sel_min x l' in m :: selection n' r
  | _, _ => l
  end.

Lemma sel_min_perm x l : (sel_min x l).1 :: (sel_min x l).2 ≡ₚ x :: l.
Proof.
  revert x; induction l as [|y l IH]; intros x; simpl; [done|].
  destruct (less y x).
  - specialize (IH y). destruct (sel_min y l) as [m r]. simpl in *.
    rewrite (Permutation_swap x m r), IH. done.
  - specialize (IH x). destruct (sel_min x l) as [m r]. simpl in *.
    rewrite (Permutation_swap y m r), IH. apply Permutation_swap.
Qed.

Lemma sel_min_length x l : length (sel_min x l).2 = length l.
Proof.
  pose proof (Permutation_length (sel_min_perm x l)) as H. simpl in H. lia.
Qed.

Lemma selection_perm n l : selection n l ≡ₚ l.
Proof.
  revert l; induction n as [|n IH]; intros [|x l]; simpl; try done.
  pose proof (sel_min_perm x l) as H. destruct (sel_min x l) as [m r].
  simpl in H. by rewrite IH.
Qed.

(** *** The loops compute the structural version *)
Lemma swap_split pre x mid y suf :
  swap (pre ++ x :: mid ++ y :: suf) (length pre) (length pre + S (length mid)) =
  pre ++ y :: mid ++ x :: suf.
Proof.
  unfold swap. rewrite (list_lookup_middle pre _ _ (length pre)) by done.
  assert ((pre ++ x :: mid ++ y :: suf) !! (length pre + S (length mid)) = Some y) as ->.
  { rewrite lookup_app_r by lia.
    replace (length pre + S (length mid) - length pre) with (S (length mid)) by lia.
    simpl. by rewrite list_lookup_middle. }
  rewrite insert_app_r. simpl.
  replace (length mid) with (length mid + 0) by lia. rewrite insert_app_r. simpl.
  replace (length pre) with (length pre + 0) by lia. rewrite insert_app_r. done.
Qed.

Lemma exchange_inner_go pre x done_ todo :
  foldl (λ l j, if less_at l j (length pre) then swap l (length pre) j else l)
    (pre ++ x :: done_ ++ todo)
    (seq (length pre + S (length done_)) (length todo)) =
  pre ++ (sel_min x todo).1 :: done_ ++ (sel_min x todo).2.
Proof.
  revert x done_. induction todo as [|y todo IH]; intros x done_; [done|].
  simpl.
  assert (less_at (pre ++ x :: done_ ++ y :: todo)
            (length pre + S (length done_)) (length pre) = less y x) as ->.
  { unfold less_at. rewrite (list_lookup_middle pre _ _ (length pre)) by done.
    rewrite lookup_app_r by lia.
    replace (length pre + S (length done_) - length pre)
      with (S (length done_)) by lia.
    simpl. by rewrite list_lookup_middle. }
  replace (S (length pre + S (length done_)))
    with (length pre + S (length (done_ ++ [y])))
    by (rewrite length_app; simpl; lia).
  destruct (less y x).
  - rewrite swap_split.
    replace (length (done_ ++ [y])) with (length (done_ ++ [x]))
      by (rewrite !length_app; done).
    specialize (IH y (done_ ++ [x])). rewrite <-app_assoc in IH. simpl in IH.
    rewrite IH. destruct (sel_min y todo). simpl. by rewrite <-app_assoc.
  - specialize (IH x (done_ ++ [y])). rewrite <-app_assoc in IH. simpl in IH.
    rewrite IH. destruct (sel_min x todo). simpl. by rewrite <-app_assoc.
Qed.

Lemma exchange_inner_spec pre x suf :
  exchange_inner (length pre) (pre ++ x :: suf) =
  pre ++ (sel_min x suf).1 :: (sel_min x suf).2.
Proof.
  unfold exchange_inner. rewrite length_app. simpl.
  replace (length pre + S (length suf) - S (length pre)) with (length suf) by lia.
  pose proof (exchange_inner_go pre x [] suf) as H. simpl in H.
  by rewrite Nat.add_1_r in H.
Qed.

Lemma exchange_sort_go pre l n :
  n = length l - 1 →
  foldl (λ l i, exchange_inner i l) (pre ++ l) (seq (length pre) n) =
  pre ++ selection n l.
Proof.
  revert pre l. induction n as [|n IH]; intros pre l Hn; [done|].
  destruct l as [|x l]; simpl in *; [lia|].
  rewrite exchange_inner_spec. pose proof (sel_min_length x l) as Hl.
  destruct (sel_min x l) as [m r]. simpl in *.
  specialize (IH (pre ++ [m]) r). rewrite <-app_assoc in IH. simpl in IH.
  rewrite length_app in IH. simpl in IH. rewrite Nat.add_1_r in IH.
  rewrite IH by lia. by rewrite <-app_assoc.
Qed.

Lemma exchange_sort_selection l : exchange_sort l = selection (length l - 1) l.
Proof. apply (exchange_sort_go [] l). done. Qed.

Lemma exchange_sort_perm l : exchange_sort l ≡ₚ l.
Proof. rewrite exchange_sort_selection. apply selection_perm. Qed.

Lemma exchange_sort_length l : length (exchange_sort l) = length l.
Proof. apply Permutation_length, exchange_sort_perm. Qed.

(** *** Sortedness *)
Context (P : A → Prop) `{!WeakOrder P less}.

Lemma sel_min_least x l :
  Forall P (x :: l) →
  P (sel_min x l).1 ∧
  Forall (λ y, less y (sel_min x l).1 = false) (x :: (sel_min x l).2).
Proof.
  revert x; induction l as [|y l IH]; intros x [Hx Hl]%Forall_cons; simpl.
  { split; [done|]. constructor; [by eapply wo_irrefl|constructor]. }
  apply Forall_cons in Hl as [Hy Hl].
  destruct (less y x) eqn:E.
  - destruct (IH y) as [Hm Hall]; [by constructor|].
    destruct (sel_min y l) as [m r]. simpl in *.
    apply Forall_cons in Hall as [Hym Hr]. split; [done|].
    assert (less x m = false) as Hxm
      by (apply (wo_negtrans m y x); try done; by apply wo_asym).
    by repeat constructor.
  - destruct (IH x) as [Hm Hall]; [by constructor|].
    destruct (sel_min x l) as [m r]. simpl in *.
    apply Forall_cons in Hall as [Hxm Hr]. split; [done|].
    repeat constructor; [done| |done].
    by apply (wo_negtrans m x y).
Qed.

Lemma selection_sorted n l :
  length l - 1 ≤ n → Forall P l → sorted_by less (selection n l).
Proof.
  revert l; induction n as [|n IH]; intros l Hn Hl.
  - destruct l as [|x [|y l]]; simpl in *; try lia; repeat constructor.
  - destruct l as [|x l]; simpl; [constructor|].
    destruct (sel_min_least x l Hl) as [Hm Hall].
    pose proof (sel_min_perm x l) as Hp.
    pose proof (sel_min_length x l) as Hlen.
    destruct (sel_min x l) as [m r]. simpl in *.
    rewrite <-Hp in Hl. apply Forall_cons in Hl as [_ Hr].
    apply Forall_cons in Hall as [_ Hall].
    constructor; [apply IH; [lia|done]|].
    by rewrite (selection_perm n r).
Qed.

Lemma exchange_sort_sorted l :
  Forall P l → sorted_by less (exchange_sort l).
Proof. rewrite exchange_sort_selection. by apply selection_sorted. Qed.
End ExchangeSort.

#[export] Hint Resolve exchange_sort_perm : sky.

(** ** Generic list facts *)
Lemma sorted_by_take {A} (less : A → A → bool) n l :
  sorted_by less l → sorted_by less (take n l).
Proof.
  revert l; induction n as [|n IH]; intros [|x l] H; simpl; try by constructor.
  inversion H; subst. constructor; [by apply IH|by apply Forall_take].
Qed.

Lemma list_filter_none {A} (P : A → Prop) `{!∀ x, Decision (P x)} (l : list A) :
  Forall (λ x, ¬ P x) l → filter P l = [].
Proof. induction 1 as [|x l Hx _ IH]; [done|]. by rewrite filter_cons_False. Qed.

Lemma last_snoc_inv {A} (l : list A) x :
  last l = Some x → ∃ l', l = l' ++ [x].
Proof.
  intros H. destruct l as [|y l'] using rev_ind; [done|].
  rewrite last_snoc in H. injection H as ->. eauto.
Qed.

Lemma mjoin_cons {A} (l : list A) (ls : list (list A)) : mjoin (l :: ls) = l ++ mjoin ls.
Proof. done. Qed.

(** ** Ranging over a Go map

    The order in which [for k, v := range m] visits the entries of a map is
    unspecified and may differ from one loop to the next.  [RangeOrder] is a
    choice of such orders, one per loop [site]; the development is
    parametric in it. *)
Class RangeOrder := {
  range_map {A : Type} (site : nat) (m : gmap string A) : list (string * A);
  range_map_perm {A : Type} site (m : gmap string A) :
    range_map site m ≡ₚ map_to_list m;
}.

#[export] Program Instance list_order : RangeOrder | 100 :=
  {| range_map A _ m := map_to_list m |}.
Next Obligation. done. Qed.

Lemma range_map_elem `{RangeOrder} {A} site (m : gmap string A) k v :
  (k, v) ∈ range_map site m ↔ m !! k = Some v.
Proof. rewrite range_map_perm. apply elem_of_map_to_list. Qed.

Lemma range_map_NoDup `{RangeOrder} {A} site (m : gmap string A) :
  NoDup (range_map site m).*1.
Proof. rewrite range_map_perm. apply NoDup_fst_map_to_list. Qed.

Lemma range_map_split `{RangeOrder} {A} site (m : gmap string A) k v :
  m !! k = Some v →
  ∃ l1 l2, range_map site m = l1 ++ (k, v) :: l2 ∧
    ∀ k' v', (k', v') ∈ l1 ++ l2 → k' ≠ k ∧ m !! k' = Some v'.
Proof.
  intros Hk. apply (range_map_elem site), list_elem_of_split in Hk as (l1 & l2 & Hl).
  exists l1, l2. split; [done|]. intros k' v' Hin. split.
  - intros ->. pose proof (range_map_NoDup site m) as Hnd.
    rewrite Hl, fmap_app in Hnd. simpl in Hnd.
    rewrite <-Permutation_middle in Hnd. apply NoDup_cons in Hnd as [Hnd _].
    apply Hnd. rewrite <-fmap_app. by apply (list_elem_of_fmap_2 fst _ (k, v')).
  - apply (range_map_elem site). rewrite Hl.
    apply elem_of_app in Hin as [?|?]; apply elem_of_app; [by left|].
    right. by right.
Qed.

(** Inserting entries one by one. *)
Lemma insert_all_outside {A} (kvs : list (string * A)) (m : gmap string A) k : k ∉ kvs.*1 →
  foldl (λ m kv, <[kv.1 := kv.2]> m) m kvs !! k = m !! k.
Proof.
  revert m. induction kvs as [|[a b] kvs IH]; intros m Hn; [done|]. rewrite fmap_cons, not_elem_of_cons in Hn.
  destruct Hn as [Hn1 Hn2]. simpl. rewrite IH by done. by rewrite lookup_insert_ne by (simpl in *; congruence).
Qed.

Lemma insert_all_lookup {A} (kvs : list (string * A)) (m : gmap string A) k v :
  NoDup kvs.*1 → (k, v) ∈ kvs → foldl (λ m kv, <[kv.1 := kv.2]> m) m kvs !! k = Some v.
Proof.
  revert m. induction kvs as [|[k' v'] kvs IH]; intros m Hnd; [by intros ?%not_elem_of_nil|].
  rewrite fmap_cons in Hnd. apply NoDup_cons in Hnd as [Hk Hnd].
  intros [[= -> ->]|H]%elem_of_cons; [|by apply IH]. simpl.
  rewrite insert_all_outside by done. apply lookup_insert_eq.
Qed.

(** A loop that copies a map. *)
Lemma range_map_copy `{RangeOrder} {A} site (m : gmap string A) :
  foldl (λ m kv, <[kv.1 := kv.2]> m) ∅ (range_map site m) = m.
Proof.
  apply map_eq. intros k. destruct (m !! k) as [v|] eqn:Hk.
  - apply insert_all_lookup; [apply range_map_NoDup|by apply range_map_elem].
  - rewrite insert_all_outside; [apply lookup_empty|].
    intros ([k' v] & -> & Hin%range_map_elem)%list_elem_of_fmap. simpl in Hk. congruence.
Qed.

Lemma filter_all {A} (P : A → Prop) `{∀ x, Decision (P x)} l : Forall P l → filter P l = l.
Proof.
  induction 1 as [|x l Hx Hl IH]; [done|]. rewrite filter_cons_True by done. by rewrite IH.
Qed.

(** ** Machine integers *)
Definition uint8 (z : Z) : Z := z `mod` 2 ^ 8.
Definition uint16 (z : Z) : Z := z `mod` 2 ^ 16.
Definition uint32 (z : Z) : Z := z `mod` 2 ^ 32.
Definition uint64 (z : Z) : Z := z `mod` 2 ^ 64.
Definition int64 (z : Z) : Z := (z + 2 ^ 63) `mod` 2 ^ 64 - 2 ^ 63.

Lemma int64_id z : (- 2 ^ 63 ≤ z < 2 ^ 63)%Z → int64 z = z.
Proof. intros H. unfold int64. rewrite Z.mod_small; lia. Qed.
