(* ===== verification/Float64.v ===== *)
(** * IEEE-754 binary64: Go's [float64]

    The costs, latencies, loads and probabilities of the program are
    [float64]s.  They are modelled bit for bit by the Standard Library's
    executable specification of binary64 arithmetic ([SpecFloat] at precision
    53 and maximal exponent 1024), so NaN, signed zeros, infinities, rounding
    and overflow behave as they do in the program.  The file gives the
    operations the sources use, the order of the numbers that are not NaN, and
    the one fact about rounding the path searches rely on: adding a
    non-negative number never decreases a sum. *)
From Stdlib Require Export Floats.SpecFloat.
From S2P Require Import Prelude.
Local Open Scope Z_scope.

Abbreviation float64 := spec_float.

#[export] Instance float64_eq_dec : EqDecision float64.
Proof. solve_decision. Defined.

Definition fadd : float64 → float64 → float64 := SFadd 53 1024.
Definition fsub : float64 → float64 → float64 := SFsub 53 1024.
Definition fmul : float64 → float64 → float64 := SFmul 53 1024.
Definition fdiv : float64 → float64 → float64 := SFdiv 53 1024.
Definition fneg : float64 → float64 := SFopp.
Definition fabs : float64 → float64 := SFabs.
Definition flt : float64 → float64 → bool := SFltb.
Definition fle : float64 → float64 → bool := SFleb.
Definition feq : float64 → float64 → bool := SFeqb.
Definition f64_valid : float64 → bool := valid_binary 53 1024.

(** [float64(n)]: the nearest binary64 number. *)
Definition f_of_Z (n : Z) : float64 := binary_normalize 53 1024 n 0 false.
Definition f_of_nat (n : nat) : float64 := f_of_Z (Z.of_nat n).

(** A decimal constant [n/d] of the source: both integers are exact and the
    division rounds once, as the compiler rounds the literal. *)
Definition f_of_frac (n d : Z) : float64 := fdiv (f_of_Z n) (f_of_Z d).

Definition f0 : float64 := S754_zero false.
Definition f1 : float64 := f_of_Z 1.
Definition f_inf : float64 := S754_infinity false.
(** [math.MaxFloat64] *)
Definition f_max : float64 := SFmax_float 53 1024.

(** [int(x)] truncates towards zero; a NaN or an out-of-range value converts
    to the minimal [int], as on amd64. *)
Definition f_trunc (x : float64) : Z :=
  match x with
  | S754_zero _ => 0
  | S754_finite s m e =>
      let q := if 0 <=? e then Z.pos m * 2 ^ e else Z.pos m / 2 ^ (- e) in
      let v := if s then - q else q in
      if (- 2 ^ 63 <=? v) && (v <? 2 ^ 63) then v else - 2 ^ 63
  | _ => - 2 ^ 63
  end.

Definition is_num (x : float64) : bool :=
  match x with S754_nan => false | _ => true end.

Definition fsum : list float64 → float64 := foldl fadd f0.

(** ** The order of the numbers *)
Definition fkey (x : float64) : Z * Z * Z :=
  match x with
  | S754_infinity true => (-2, 0, 0)
  | S754_finite true m e => (-1, - e, - Z.pos m)
  | S754_zero _ => (0, 0, 0)
  | S754_finite false m e => (1, e, Z.pos m)
  | S754_infinity false => (2, 0, 0)
  | S754_nan => (3, 0, 0)
  end.

Definition klt (a b : Z * Z * Z) : Prop :=
  let '(a1, a2, a3) := a in let '(b1, b2, b3) := b in
  a1 < b1 ∨ (a1 = b1 ∧ (a2 < b2 ∨ (a2 = b2 ∧ a3 < b3))).

Lemma pos_compare_cont_eq m n : Pos.compare_cont Eq m n = (m ?= n)%positive.
Proof. done. Qed.

Lemma SFcompare_key x y :
  is_num x = true → is_num y = true →
  SFcompare x y = Some Lt ∧ klt (fkey x) (fkey y) ∨
  SFcompare x y = Some Gt ∧ klt (fkey y) (fkey x) ∨
  SFcompare x y = Some Eq ∧ fkey x = fkey y.
Proof.
  intros Hx Hy.
  destruct x as [[]|[]| |[] m e], y as [[]|[]| |[] m' e']; try done; simpl;
    rewrite ?pos_compare_cont_eq;
    repeat match goal with
    | |- context [Z.compare ?a ?b] => destruct (Z.compare_spec a b); subst
    | |- context [Pos.compare ?a ?b] => destruct (Pos.compare_spec a b); subst
    end; simpl;
    first [ left; split; [done|lia] | right; left; split; [done|lia]
          | right; right; split; done ].
Qed.

Lemma flt_key x y : is_num x = true → is_num y = true →
  flt x y = true ↔ klt (fkey x) (fkey y).
Proof.
  intros Hx Hy. unfold flt, SFltb.
  destruct (SFcompare_key x y Hx Hy) as [[-> H]|[[-> H]|[-> H]]];
    destruct (fkey x) as [[a b] c], (fkey y) as [[a' b'] c'];
    simplify_eq/=; intuition (try done; lia).
Qed.

Lemma fle_key x y : is_num x = true → is_num y = true →
  fle x y = true ↔ ¬ klt (fkey y) (fkey x).
Proof.
  intros Hx Hy. unfold fle, SFleb.
  destruct (SFcompare_key x y Hx Hy) as [[-> H]|[[-> H]|[-> H]]];
    destruct (fkey x) as [[a b] c], (fkey y) as [[a' b'] c'];
    simplify_eq/=; intuition (try done; lia).
Qed.

Lemma flt_num x y : flt x y = true → is_num x = true ∧ is_num y = true.
Proof. destruct x, y; done. Qed.

Lemma fle_num x y : fle x y = true → is_num x = true ∧ is_num y = true.
Proof. destruct x, y; done. Qed.

(** Turns every comparison between numbers into arithmetic on keys. *)
Ltac fnum_saturate :=
  repeat match goal with
  | H : flt ?x ?y = true |- _ =>
      lazymatch goal with
      | _ : is_num x = true, _ : is_num y = true |- _ => fail
      | _ => destruct (flt_num _ _ H)
      end
  | H : fle ?x ?y = true |- _ =>
      lazymatch goal with
      | _ : is_num x = true, _ : is_num y = true |- _ => fail
      | _ => destruct (fle_num _ _ H)
      end
  end.
Ltac fkeys :=
  fnum_saturate;
  rewrite <-?not_true_iff_false in *;
  repeat match goal with
  | H : context [flt ?x ?y = true] |- _ => rewrite (flt_key x y) in H by done
  | H : context [fle ?x ?y = true] |- _ => rewrite (fle_key x y) in H by done
  | |- context [flt ?x ?y = true] => rewrite (flt_key x y) by done
  | |- context [fle ?x ?y = true] => rewrite (fle_key x y) by done
  end;
  repeat match goal with
  | H : context [fkey ?x] |- _ =>
      let a := fresh in destruct (fkey x) as [[a ?] ?]
  | |- context [fkey ?x] => let a := fresh in destruct (fkey x) as [[a ?] ?]
  end; simpl in *; simplify_eq; try lia.

#[export] Instance flt_weak_order : WeakOrder (λ x, is_num x = true) flt.
Proof.
  split; [intros x y Hx Hy H | intros x y z Hx Hy Hz H1 H2]; fkeys.
Qed.

Lemma fle_flt x y : is_num x = true → is_num y = true →
  fle x y = negb (flt y x).
Proof.
  intros Hx Hy. destruct (flt y x) eqn:E, (fle x y) eqn:F; try done; fkeys.
Qed.

Lemma fle_refl x : is_num x = true → fle x x = true.
Proof. intros. fkeys. Qed.

Lemma fle_trans x y z : fle x y = true → fle y z = true → fle x z = true.
Proof. intros. fkeys. Qed.

Lemma flt_le x y : flt x y = true → fle x y = true.
Proof. intros. fkeys. Qed.

Lemma fle_lt_trans x y z : fle x y = true → flt y z = true → flt x z = true.
Proof. intros. fkeys. Qed.

Lemma flt_le_trans x y z : flt x y = true → fle y z = true → flt x z = true.
Proof. intros. fkeys. Qed.

Lemma flt_irrefl x : flt x x = false.
Proof. destruct (flt x x) eqn:E; [|done]. fkeys. Qed.

Lemma flt_not_le x y : flt x y = true → fle y x = false.
Proof. intros. destruct (fle y x) eqn:E; [fkeys|done]. Qed.

Lemma fnot_lt_le x y : is_num x = true → is_num y = true →
  flt x y = false → fle y x = true.
Proof. intros Hx Hy H. by rewrite fle_flt, H. Qed.

#[export] Hint Resolve flt_le flt_irrefl : sky.

(** ** Rounding: adding a non-negative number does not decrease a sum *)
Definition f_nonneg (x : float64) : bool := fle f0 x && f64_valid x.

Lemma digits2_pos_log2 p : Z.pos (digits2_pos p) = Z.log2 (Z.pos p) + 1.
Proof.
  induction p as [p IH|p IH|]; simpl digits2_pos; [| |done].
  - rewrite Pos2Z.inj_succ, IH. rewrite (Pos2Z.inj_xI p).
    rewrite (Z.log2_succ_double (Z.pos p)) by lia. lia.
  - rewrite Pos2Z.inj_succ, IH. rewrite (Pos2Z.inj_xO p).
    rewrite (Z.log2_double (Z.pos p)) by lia. lia.
Qed.

Lemma shr_1_div r : 0 ≤ shr_m r → shr_m (shr_1 r) = shr_m r / 2.
Proof.
  destruct r as [[|[p|p|]|p] ? ?]; simpl; intros ?; try done; try lia.
  - rewrite (Pos2Z.inj_xI p). apply (Z.div_unique _ _ _ 1); lia.
  - rewrite (Pos2Z.inj_xO p). apply (Z.div_unique _ _ _ 0); lia.
Qed.

Lemma iter_shr_div p r :
  0 ≤ shr_m r → shr_m (SpecFloat.iter_pos shr_1 p r) = shr_m r / 2 ^ Z.pos p.
Proof.
  revert r. induction p as [p IH|p IH|]; intros r Hr; simpl SpecFloat.iter_pos.
  - assert (0 ≤ shr_m (shr_1 r)) by (rewrite shr_1_div by done; apply Z.div_pos; lia).
    assert (0 ≤ shr_m (SpecFloat.iter_pos shr_1 p (shr_1 r)))
      by (rewrite IH by done; apply Z.div_pos; lia).
    rewrite !IH by done. rewrite shr_1_div by done.
    rewrite !Z.div_div by lia. f_equal. rewrite (Pos2Z.inj_xI p).
    replace (2 * Z.pos p + 1) with (1 + Z.pos p + Z.pos p) by lia.
    rewrite !Z.pow_add_r by lia. lia.
  - assert (0 ≤ shr_m (SpecFloat.iter_pos shr_1 p r))
      by (rewrite IH by done; apply Z.div_pos; lia).
    rewrite !IH by done. rewrite !Z.div_div by lia. f_equal.
    rewrite <-Z.pow_add_r by lia. f_equal. lia.
  - rewrite shr_1_div by done. done.
Qed.

Lemma iter_xO_mul (m d : positive) : Z.pos (Pos.iter xO m d) = Z.pos m * 2 ^ Z.pos d.
Proof.
  induction d as [|d IH] using Pos.peano_ind.
  - simpl. lia.
  - rewrite Pos.iter_succ. rewrite (Pos2Z.inj_xO (Pos.iter _ _ _)), IH.
    rewrite Pos2Z.inj_succ, Z.pow_succ_r by lia. lia.
Qed.

Lemma shl_align_mul m e e' :
  e' ≤ e → Z.pos (fst (shl_align m e e')) = Z.pos m * 2 ^ (e - e').
Proof.
  intros H. unfold shl_align. destruct (e' - e) eqn:E; simpl.
  - replace (e - e') with 0 by lia. lia.
  - lia.
  - rewrite iter_xO_mul. do 2 f_equal. lia.
Qed.

Local Abbreviation fexp64 := (fexp 53 1024).

Lemma fexp_unfold x : fexp64 x = Z.max (x - 53) (-1074).
Proof. done. Qed.

(** The two roundings of [binary_round] on a mantissa that needs no left
    shift: the result is canonical and not below the truncated mantissa. *)
Lemma round_ne_cases mx l :
  round_nearest_even mx l = mx ∨ round_nearest_even mx l = mx + 1.
Proof.
  destruct l as [|[]]; simpl; try destruct (Z.even mx); auto.
Qed.

Lemma shr_fexp_exact m e :
  0 < m → ∃ r, shr_fexp 53 1024 m e loc_Exact =
    (r, Z.max e (fexp64 (Z.log2 m + 1 + e))) ∧
    shr_m r = m / 2 ^ (Z.max 0 (fexp64 (Z.log2 m + 1 + e) - e)).
Proof.
  intros Hm. unfold shr_fexp.
  assert (Zdigits2 m = Z.log2 m + 1) as ->.
  { destruct m; try lia. apply digits2_pos_log2. }
  destruct (fexp64 (Z.log2 m + 1 + e) - e) as [|p|p] eqn:E; simpl.
  - exists (Build_shr_record m false false). split; [f_equal; lia|].
    simpl. by rewrite Z.div_1_r.
  - exists (SpecFloat.iter_pos shr_1 p (Build_shr_record m false false)).
    split; [f_equal; lia|]. rewrite iter_shr_div by (simpl; lia).
    done.
  - exists (Build_shr_record m false false). split; [f_equal; lia|].
    simpl. by rewrite Z.div_1_r.
Qed.

Lemma log2_round m1 m2 : 0 < m1 → m2 = m1 ∨ m2 = m1 + 1 →
  Z.log2 m2 = Z.log2 m1 ∨ (Z.log2 m2 = Z.log2 m1 + 1 ∧ m2 = 2 ^ (Z.log2 m1 + 1)).
Proof.
  intros Hm1 [->| ->]; [by left|].
  pose proof (Z.log2_spec m1 Hm1) as [Hs1 Hs2].
  destruct (decide (m1 + 1 = 2 ^ (Z.log2 m1 + 1))) as [Heq|Hne].
  - right. rewrite Heq at 1. rewrite Z.log2_pow2; [lia|].
    pose proof (Z.log2_nonneg m1). lia.
  - left. apply Z.log2_unique; [apply Z.log2_nonneg|].
    rewrite <-Z.add_1_r in Hs2 |- *. lia.
Qed.

Lemma log2_div_pow2 m k : 0 ≤ k ≤ Z.log2 (Z.pos m) →
  0 < Z.pos m / 2 ^ k ∧ Z.log2 (Z.pos m / 2 ^ k) = Z.log2 (Z.pos m) - k.
Proof.
  intros Hk. split.
  - apply Z.div_str_pos. pose proof (Z.log2_spec (Z.pos m) ltac:(lia)) as [Hs _].
    split; [apply Z.pow_pos_nonneg; lia|]. etransitivity; [|exact Hs]. apply Z.pow_le_mono_r; lia.
  - rewrite <-Z.shiftr_div_pow2 by lia. rewrite Z.log2_shiftr by lia. lia.
Qed.

Lemma binary_round_spec m e :
  -1074 ≤ e →
  e ≤ fexp64 (Z.log2 (Z.pos m) + 1 + e) →
  let e' := fexp64 (Z.log2 (Z.pos m) + 1 + e) in
  ∃ m3 e3,
    binary_round 53 1024 false m e =
      (if e3 <=? 971 then S754_finite false m3 e3 else S754_infinity false) ∧
    fexp64 (Z.log2 (Z.pos m3) + 1 + e3) = e3 ∧
    (e' < e3 ∨ (e3 = e' ∧ Z.pos m / 2 ^ (e' - e) ≤ Z.pos m3)).
Proof.
  intros He Hle e'.
  assert (binary_round 53 1024 false m e =
          binary_round_aux 53 1024 false (Z.pos m) e loc_Exact) as ->.
  { unfold binary_round. rewrite digits2_pos_log2. fold e'.
    unfold shl_align. destruct (e' - e) eqn:E; [done|done|lia]. }
  unfold binary_round_aux.
  destruct (shr_fexp_exact (Z.pos m) e) as (r1 & -> & Hr1); [lia|].
  fold e' in Hr1 |- *. replace (Z.max e e') with e' by lia.
  replace (Z.max 0 (e' - e)) with (e' - e) in Hr1 by lia.
  set (d := Z.log2 (Z.pos m)) in *.
  assert (0 ≤ d) by apply Z.log2_nonneg.
  set (m1 := Z.pos m / 2 ^ (e' - e)) in *.
  assert (e' - e ≤ d) as Hsh by (unfold e' in *; rewrite fexp_unfold in *; lia).
  destruct (log2_div_pow2 m (e' - e)) as [Hm1 Hlog]; [fold d; lia|]. fold m1 d in Hm1, Hlog.
  rewrite Hr1.
  assert (∃ m2, round_nearest_even m1 (loc_of_shr_record r1) = m2 ∧
            (m2 = m1 ∨ m2 = m1 + 1)) as (m2 & -> & Hm2).
  { eexists. split; [done|]. apply round_ne_cases. }
  destruct (shr_fexp_exact m2 e') as (r2 & -> & Hr2); [lia|].
  pose proof (log2_round m1 m2 Hm1 Hm2) as Hlog2.
  assert (e' = Z.max (d + 1 + e - 53) (-1074)) as He' by done.
  destruct Hlog2 as [Hl|[Hl Hpow]].
  - assert (fexp64 (Z.log2 m2 + 1 + e') = e') as Hf.
    { rewrite fexp_unfold, Hl, Hlog. lia. }
    rewrite Hf in Hr2 |- *. rewrite Z.sub_diag in Hr2.
    simpl in Hr2. rewrite Z.div_1_r in Hr2. rewrite Hr2.
    replace (Z.max e' e') with e' by lia.
    destruct m2 as [|m2|m2]; try lia.
    exists m2, e'. split; [done|]. split; [done|]. right. lia.
  - destruct (decide (fexp64 (Z.log2 m2 + 1 + e') = e')) as [Hf|Hf].
    + rewrite Hf in Hr2 |- *. rewrite Z.sub_diag in Hr2.
      simpl in Hr2. rewrite Z.div_1_r in Hr2. rewrite Hr2.
      replace (Z.max e' e') with e' by lia.
      destruct m2 as [|m2|m2]; try lia.
      exists m2, e'. split; [done|]. split; [done|]. right. lia.
    + assert (Z.log2 m1 = 52 ∧ fexp64 (Z.log2 m2 + 1 + e') = e' + 1) as [H52 Hf1].
      { rewrite fexp_unfold in Hf |- *. lia. }
      rewrite Hf1 in Hr2 |- *. replace (Z.max e' (e' + 1)) with (e' + 1) by lia.
      replace (e' + 1 - e') with 1 in Hr2 by lia.
      rewrite Hpow, H52 in Hr2. change (shr_m r2 = Z.pos (2 ^ 52)) in Hr2.
      rewrite Hr2.
      exists (2 ^ 52)%positive, (e' + 1). split; [done|]. split; [|lia].
      change (Z.log2 (Z.pos (2 ^ 52))) with 52. rewrite fexp_unfold. lia.
Qed.

Lemma valid_finite s m e :
  f64_valid (S754_finite s m e) = true ↔
  fexp64 (Z.log2 (Z.pos m) + 1 + e) = e ∧ e ≤ 971.
Proof.
  unfold f64_valid, valid_binary, bounded, canonical_mantissa.
  rewrite digits2_pos_log2, andb_true_iff, Z.eqb_eq, Z.leb_le. done.
Qed.

Lemma fadd_finite mx ex my ey :
  f64_valid (S754_finite false mx ex) = true →
  f64_valid (S754_finite false my ey) = true →
  f64_valid (fadd (S754_finite false mx ex) (S754_finite false my ey)) = true ∧
  fle (S754_finite false mx ex)
    (fadd (S754_finite false mx ex) (S754_finite false my ey)) = true.
Proof.
  intros [Hx Hx']%valid_finite [Hy Hy']%valid_finite.
  unfold fadd, SFadd. cbn [cond_Zopp]. set (ez := Z.min ex ey).
  set (zx := fst (shl_align mx ex ez)). set (zy := fst (shl_align my ey ez)).
  change (binary_normalize 53 1024 (Z.pos zx + Z.pos zy) ez false)
    with (binary_round 53 1024 false (zx + zy) ez).
  assert (Z.pos zx = Z.pos mx * 2 ^ (ex - ez)) as Hzx
    by (apply shl_align_mul; lia).
  set (z := (zx + zy)%positive).
  assert (Z.pos mx * 2 ^ (ex - ez) ≤ Z.pos z) as Hz by (unfold z; lia).
  assert (Z.log2 (Z.pos mx) + (ex - ez) ≤ Z.log2 (Z.pos z)) as Hlog.
  { rewrite Z.add_comm, <-Z.log2_mul_pow2 by lia. by apply Z.log2_le_mono. }
  assert (-1074 ≤ ez) as Hez.
  { unfold ez. rewrite fexp_unfold in Hx, Hy. lia. }
  assert (ex ≤ fexp64 (Z.log2 (Z.pos z) + 1 + ez)) as Hex.
  { rewrite <-Hx at 1. rewrite !fexp_unfold. lia. }
  destruct (binary_round_spec z ez) as (m3 & e3 & -> & Hc & Hge); [lia|lia|].
  assert (e3 = ex → Z.pos mx ≤ Z.pos m3) as Hm3.
  { intros ->. destruct Hge as [?|[Heq Hge]]; [lia|]. rewrite <-Heq in Hge.
    etransitivity; [|exact Hge]. apply Z.div_le_lower_bound; [|lia].
    apply Z.pow_pos_nonneg; lia. }
  destruct (Z.leb_spec e3 971) as [H3|H3]; [|done].
  split; [by apply valid_finite|].
  apply fle_key; [done..|]. simpl. lia.
Qed.

Lemma f_nonneg_cases x : f_nonneg x = true →
  (∃ s, x = S754_zero s) ∨ x = f_inf ∨
  ∃ m e, x = S754_finite false m e ∧ f64_valid x = true.
Proof.
  unfold f_nonneg. intros [H1 H2]%andb_true_iff.
  destruct x as [s|[]| |[] m e]; try done; eauto 10.
Qed.

Lemma f_nonneg_num x : f_nonneg x = true → is_num x = true.
Proof. by intros [[s ->]|[->|(m & e & -> & _)]]%f_nonneg_cases. Qed.

Lemma f_nonneg_ge0 x : f_nonneg x = true → fle f0 x = true.
Proof. unfold f_nonneg. by intros [? _]%andb_true_iff. Qed.

(** Monotonicity of sums of non-negative costs, overflow to [+Inf] included. *)
Theorem fadd_nonneg x y :
  f_nonneg x = true → f_nonneg y = true →
  f_nonneg (fadd x y) = true ∧ fle x (fadd x y) = true.
Proof.
  intros Hx Hy.
  destruct (f_nonneg_cases x Hx) as [[s ->]|[->|(mx & ex & -> & Vx)]],
    (f_nonneg_cases y Hy) as [[s' ->]|[->|(my & ey & -> & Vy)]];
    try (destruct s); try (destruct s'); try done;
    try (split; [done|by apply fle_refl]).
  destruct (fadd_finite mx ex my ey Vx Vy) as [Hv Hle].
  split; [|done]. unfold f_nonneg. rewrite Hv, andb_true_r.
  eapply fle_trans; [|exact Hle]. done.
Qed.

Lemma fadd_nonneg_l x y :
  f_nonneg x = true → f_nonneg y = true → fle x (fadd x y) = true.
Proof. intros Hx Hy. by apply fadd_nonneg. Qed.

Lemma fadd_nonneg_closed x y :
  f_nonneg x = true → f_nonneg y = true → f_nonneg (fadd x y) = true.
Proof. intros Hx Hy. by apply fadd_nonneg. Qed.

#[export] Hint Resolve f_nonneg_num f_nonneg_ge0 fadd_nonneg_l
  fadd_nonneg_closed : sky.
