(* ===== verification/FloatDiv.v ===== *)
(** * Rounding of products and quotients

    The routers turn scores into probabilities with [float64] divisions.  This
    file shows that quotients and products of non-negative numbers are
    non-negative numbers, that sums dominate each of their terms, and that the
    share [w / total] of a non-negative weight is a number between 0 and 1. *)
From S2P Require Import Prelude Float64.
Local Open Scope Z_scope.

Local Abbreviation fexp64 := (fexp 53 1024).

(** ** The result of rounding a non-negative mantissa *)
Lemma Zdigits2_log2 m : 0 < m → Zdigits2 m = Z.log2 m + 1.
Proof. destruct m; try lia. intros _. apply digits2_pos_log2. Qed.

Lemma shr_m_record m l : shr_m (shr_record_of_loc m l) = m.
Proof. by destruct l as [|[]]. Qed.

Lemma shr_fexp_m m e l :
  0 ≤ m → e ≤ fexp64 (Zdigits2 m + e) →
  ∃ r, shr_fexp 53 1024 m e l = (r, fexp64 (Zdigits2 m + e)) ∧
    shr_m r = m / 2 ^ (fexp64 (Zdigits2 m + e) - e) ∧
    (e = fexp64 (Zdigits2 m + e) → r = shr_record_of_loc m l).
Proof.
  intros Hm He. unfold shr_fexp.
  destruct (fexp64 (Zdigits2 m + e) - e) as [|p|p] eqn:E; simpl; [| |lia].
  - eexists. split; [f_equal; lia|]. split; [|done]. by rewrite shr_m_record, Z.div_1_r.
  - eexists. split; [f_equal; lia|]. split; [|lia].
    rewrite iter_shr_div by (by rewrite shr_m_record). by rewrite shr_m_record.
Qed.

(** The float with mantissa [m] (up to [2^53]) at exponent [e]. *)
Definition f_at (m e : Z) : float64 :=
  if m =? 0 then S754_zero false
  else if m =? 2 ^ 53 then
    (if e + 1 <=? 971 then S754_finite false (2 ^ 52)%positive (e + 1) else S754_infinity false)
  else if e <=? 971 then S754_finite false (Z.to_pos m) e else S754_infinity false.

Lemma round_second m e :
  0 ≤ m ≤ 2 ^ 53 → -1074 ≤ e →
  (let '(r, e') := shr_fexp 53 1024 m e loc_Exact in
   match shr_m r with
   | Z0 => S754_zero false
   | Zpos p => if e' <=? 971 then S754_finite false p e' else S754_infinity false
   | _ => S754_nan
   end) = f_at m e.
Proof.
  intros Hm He. unfold f_at.
  destruct (Z.eqb_spec m 0) as [->|H0].
  { unfold shr_fexp. cbn [Zdigits2]. rewrite fexp_unfold.
    destruct (Z.max (0 + e - 53) (-1074) - e) eqn:E; [done|lia|done]. }
  destruct (shr_fexp_exact m e) as (r & -> & ->); [lia|]. rewrite fexp_unfold.
  pose proof (Z.log2_nonneg m).
  destruct (Z.eqb_spec m (2 ^ 53)) as [->|H53].
  - change (Z.log2 (2 ^ 53)) with 53.
    replace (Z.max e (Z.max (53 + 1 + e - 53) (-1074))) with (e + 1) by lia.
    replace (Z.max 0 (Z.max (53 + 1 + e - 53) (-1074) - e)) with 1 by lia. done.
  - assert (Z.log2 m < 53) by (apply Z.log2_lt_pow2; lia).
    replace (Z.max e _) with e by lia. replace (Z.max 0 _) with 0 by lia.
    rewrite Z.div_1_r. destruct m; try lia. done.
Qed.

Lemma round_aux_pos m e l :
  0 ≤ m → e ≤ fexp64 (Zdigits2 m + e) →
  let e' := fexp64 (Zdigits2 m + e) in
  ∃ m2, binary_round_aux 53 1024 false m e l = f_at m2 e' ∧
    (m2 = m / 2 ^ (e' - e) ∨ m2 = m / 2 ^ (e' - e) + 1) ∧
    0 ≤ m2 ≤ 2 ^ 53 ∧ f64_valid (f_at m2 e') = true ∧
    (e = e' → l = loc_Exact → m2 = m).
Proof.
  intros Hm He e'.
  destruct (shr_fexp_m m e l Hm He) as (r & Hr & Hrm & Hex). fold e' in Hr, Hrm, Hex.
  assert (0 ≤ shr_m r < 2 ^ 53 ∧ (-1074 < e' → 2 ^ 52 ≤ shr_m r ∨ m = 0)) as [Hb Hbig].
  { rewrite Hrm. split; [split; [apply Z.div_pos; lia|]|].
    - apply Z.div_lt_upper_bound; [apply Z.pow_pos_nonneg; lia|].
      rewrite <-Z.pow_add_r by lia.
      destruct (Z.eq_dec m 0) as [->|?]; [apply Z.pow_pos_nonneg; lia|].
      apply Z.log2_lt_pow2; [lia|]. unfold e' in *.
      rewrite Zdigits2_log2 in * by lia. rewrite fexp_unfold in *. lia.
    - destruct (Z.eq_dec m 0) as [->|?]; [by right|]. intros Hlt. left.
      apply Z.div_le_lower_bound; [apply Z.pow_pos_nonneg; lia|].
      rewrite <-Z.pow_add_r by lia. unfold e' in *. rewrite Zdigits2_log2 in * by lia.
      rewrite fexp_unfold in *. etransitivity; [|by apply Z.log2_spec; lia].
      apply Z.pow_le_mono_r; lia. }
  assert (-1074 ≤ e') as He' by (unfold e'; rewrite fexp_unfold; lia).
  exists (round_nearest_even (shr_m r) (loc_of_shr_record r)).
  pose proof (round_ne_cases (shr_m r) (loc_of_shr_record r)) as Hcases.
  split; [unfold binary_round_aux; rewrite Hr; apply round_second; lia|].
  split; [by rewrite <-Hrm|]. split; [lia|]. split.
  2: { intros Heq ->. rewrite (Hex Heq). done. }
  set (m2 := round_nearest_even (shr_m r) (loc_of_shr_record r)) in *.
  unfold f_at. destruct (Z.eqb_spec m2 0) as [?|N0]; [done|].
  destruct (Z.eqb_spec m2 (2 ^ 53)) as [?|N53].
  { destruct (Z.leb_spec (e' + 1) 971); [|done]. apply valid_finite.
    change (Z.log2 (Z.pos (2 ^ 52))) with 52. rewrite fexp_unfold. lia. }
  destruct (Z.leb_spec e' 971); [|done]. apply valid_finite.
  rewrite Z2Pos.id by lia. split; [|done]. rewrite fexp_unfold.
  assert (Z.log2 m2 < 53) by (apply Z.log2_lt_pow2; lia).
  pose proof (Z.log2_nonneg m2).
  destruct (Z.eq_dec e' (-1074)) as [->|?]; [lia|].
  destruct (Hbig ltac:(lia)) as [Hge|Hz].
  - assert (52 ≤ Z.log2 m2) by (apply Z.log2_le_pow2; lia). lia.
  - exfalso. unfold e' in *. subst m. cbn [Zdigits2] in *. rewrite fexp_unfold in *. lia.
Qed.

Lemma f_at_nonneg m e : 0 ≤ m → f64_valid (f_at m e) = true → f_nonneg (f_at m e) = true.
Proof.
  intros Hm Hv. unfold f_nonneg. rewrite Hv, andb_true_r. unfold f_at.
  destruct (m =? 0); [done|]. destruct (m =? 2 ^ 53); by destruct (_ <=? 971).
Qed.

(** ** Quotients *)
Lemma fexp_mono a b : a ≤ b → fexp64 a ≤ fexp64 b.
Proof. rewrite !fexp_unfold. lia. Qed.

Lemma div_core mx ex my ey :
  ∃ q e' l s, SFdiv_core_binary 53 1024 (Z.pos mx) ex (Z.pos my) ey = (q, e', l) ∧
    0 ≤ s ∧ s = ex - ey - e' ∧ q = Z.pos mx * 2 ^ s / Z.pos my ∧
    l = new_location (Z.pos my) (Z.pos mx * 2 ^ s mod Z.pos my) ∧
    e' ≤ fexp64 (Zdigits2 q + e') ∧
    e' = Z.min (fexp64 (Zdigits2 (Z.pos mx) + ex - (Zdigits2 (Z.pos my) + ey))) (ex - ey).
Proof.
  unfold SFdiv_core_binary.
  set (e' := Z.min _ _). set (s := ex - ey - e').
  assert (0 ≤ s) as Hs by (unfold s, e'; lia).
  assert (match s with Z0 => Z.pos mx | Zpos _ => Z.shiftl (Z.pos mx) s | Zneg _ => 0 end
          = Z.pos mx * 2 ^ s) as ->.
  { rewrite <-Z.shiftl_mul_pow2 by done. clearbody s. destruct s; [done|done|lia]. }
  pose proof (Z_div_mod (Z.pos mx * 2 ^ s) (Z.pos my)) as Hdm.
  destruct (Z.div_eucl (Z.pos mx * 2 ^ s) (Z.pos my)) as [q r].
  destruct Hdm as [Hq Hr]; [lia|].
  exists q, e', (new_location (Z.pos my) r), s.
  split; [done|]. split; [done|]. split; [done|].
  split; [by apply (Z.div_unique _ _ _ r); [left|]|].
  split; [f_equal; by apply (Z.mod_unique _ _ q); [left|]|].
  split; [|done].
  assert (Z.log2 (Z.pos mx) + s - Z.log2 (Z.pos my) ≤ Zdigits2 q) as Hd.
  { destruct (Z.le_gt_cases (Z.log2 (Z.pos mx) + s - Z.log2 (Z.pos my)) 0) as [?|Hpos].
    { destruct q as [|q|q]; cbn [Zdigits2]; lia. }
    assert (2 ^ (Z.log2 (Z.pos mx) + s - Z.log2 (Z.pos my) - 1) ≤ q) as Hge.
    { pose proof (Z.log2_spec (Z.pos mx) ltac:(lia)) as [Hx _].
      pose proof (Z.log2_spec (Z.pos my) ltac:(lia)) as [_ Hy].
      pose proof (Z.log2_nonneg (Z.pos mx)). pose proof (Z.log2_nonneg (Z.pos my)).
      assert (2 ^ (Z.log2 (Z.pos mx) + s) ≤ Z.pos mx * 2 ^ s) as H1.
      { rewrite Z.pow_add_r by lia. apply Z.mul_le_mono_nonneg_r; [|done].
        apply Z.pow_nonneg. lia. }
      set (k := Z.log2 (Z.pos mx) + s - Z.log2 (Z.pos my) - 1) in *.
      assert (0 ≤ k) by lia.
      assert (2 ^ (Z.log2 (Z.pos mx) + s) = 2 ^ Z.succ (Z.log2 (Z.pos my)) * 2 ^ k) as Hk2.
      { rewrite <-Z.pow_add_r by lia. f_equal. lia. }
      assert (0 < 2 ^ k) by (apply Z.pow_pos_nonneg; lia). nia. }
    assert (0 < q). { eapply Z.lt_le_trans; [|exact Hge]. apply Z.pow_pos_nonneg; lia. }
    rewrite Zdigits2_log2 by done. apply Z.log2_le_pow2 in Hge; lia. }
  etransitivity; [apply Z.le_min_l|]. apply fexp_mono.
  rewrite !Zdigits2_log2 by lia. lia.
Qed.

Lemma fdiv_finite mx ex my ey : ∃ q e' l s,
  SFdiv_core_binary 53 1024 (Z.pos mx) ex (Z.pos my) ey = (q, e', l) ∧
  fdiv (S754_finite false mx ex) (S754_finite false my ey) = binary_round_aux 53 1024 false q e' l ∧
  0 ≤ s ∧ s = ex - ey - e' ∧ 0 ≤ q ∧ q = Z.pos mx * 2 ^ s / Z.pos my ∧
  l = new_location (Z.pos my) (Z.pos mx * 2 ^ s mod Z.pos my) ∧
  e' ≤ fexp64 (Zdigits2 q + e') ∧
  e' = Z.min (fexp64 (Zdigits2 (Z.pos mx) + ex - (Zdigits2 (Z.pos my) + ey))) (ex - ey).
Proof.
  destruct (div_core mx ex my ey) as (q & e' & l & s & Hc & Hs & Hs' & Hq & Hl & Hf & He').
  exists q, e', l, s. split; [done|]. split; [unfold fdiv, SFdiv; by rewrite Hc|].
  split; [done|]. split; [done|]. split; [|done]. rewrite Hq.
  apply Z.div_pos; [|lia]. apply Z.mul_nonneg_nonneg; [lia|]. by apply Z.pow_nonneg.
Qed.

(** A quotient of non-negative numbers is one, but for [0/0] and [inf/inf]. *)
Lemma fdiv_nonneg x y :
  fle f0 x = true → flt f0 y = true → (x = f_inf → y ≠ f_inf) → f_nonneg (fdiv x y) = true.
Proof.
  intros Hx Hy Hi.
  destruct y as [sy|[]| |[] my ey]; try done; destruct x as [sx|[]| |[] mx ex]; try done;
    try (by destruct sx).
  { by exfalso; apply Hi. }
  destruct (fdiv_finite mx ex my ey) as (q & e' & l & s & _ & -> & _ & _ & Hq & _ & _ & Hf & _).
  destruct (round_aux_pos q e' l Hq Hf) as (m2 & -> & _ & Hm2 & Hv & _).
  apply f_at_nonneg; [lia|done].
Qed.

Lemma f_at_le_1 m e : 0 ≤ m ≤ 2 ^ 53 → e ≤ -53 ∨ (e = -52 ∧ m ≤ 2 ^ 52) → fle (f_at m e) f1 = true.
Proof.
  intros Hm He. unfold f_at. destruct (Z.eqb_spec m 0); [done|].
  destruct (Z.eqb_spec m (2 ^ 53)) as [?|?].
  - destruct (Z.leb_spec (e + 1) 971); [|lia]. apply fle_key; [done..|]. change (fkey f1) with (1, -52, 4503599627370496).
    change (2 ^ 52)%positive with 4503599627370496%positive. simpl. lia.
  - destruct (Z.leb_spec e 971); [|lia]. apply fle_key; [done..|].
    change (fkey f1) with (1, -52, 4503599627370496). simpl. lia.
Qed.

(** The order of canonical floats is the order of their values. *)
Lemma valid_lt_value mx ex my ey t :
  f64_valid (S754_finite false mx ex) = true → f64_valid (S754_finite false my ey) = true →
  ex < ey ∨ (ex = ey ∧ Z.pos mx < Z.pos my) → 0 ≤ t + ex - ey →
  Z.pos mx * 2 ^ (t + ex - ey) < Z.pos my * 2 ^ t.
Proof.
  intros [Vx _]%valid_finite [Vy _]%valid_finite Hlt Ht.
  destruct Hlt as [Hlt|[-> Hlt]].
  - rewrite fexp_unfold in Vx, Vy.
    pose proof (Z.log2_spec (Z.pos mx) ltac:(lia)) as [_ Hx].
    pose proof (Z.log2_spec (Z.pos my) ltac:(lia)) as [Hy _].
    pose proof (Z.log2_nonneg (Z.pos mx)). pose proof (Z.log2_nonneg (Z.pos my)).
    assert (2 ^ Z.succ (Z.log2 (Z.pos mx)) ≤ 2 ^ (Z.log2 (Z.pos my) + (ey - ex))) as H1
      by (apply Z.pow_le_mono_r; lia).
    rewrite Z.pow_add_r in H1 by lia.
    assert (2 ^ t = 2 ^ (ey - ex) * 2 ^ (t + ex - ey)) as ->.
    { rewrite <-Z.pow_add_r by lia. f_equal. lia. }
    assert (0 < 2 ^ (t + ex - ey)) by (apply Z.pow_pos_nonneg; lia).
    assert (0 < 2 ^ (ey - ex)) by (apply Z.pow_pos_nonneg; lia).
    assert (Z.pos mx < Z.pos my * 2 ^ (ey - ex)) by nia. nia.
  - replace (t + ey - ey) with t by lia.
    apply Z.mul_lt_mono_pos_r; [|done]. apply Z.pow_pos_nonneg; lia.
Qed.

Lemma fdiv_lt_1 mx ex my ey :
  f64_valid (S754_finite false mx ex) = true → f64_valid (S754_finite false my ey) = true →
  ex < ey ∨ (ex = ey ∧ Z.pos mx < Z.pos my) →
  fle (fdiv (S754_finite false mx ex) (S754_finite false my ey)) f1 = true.
Proof.
  intros Vx Vy Hlt.
  destruct (fdiv_finite mx ex my ey)
    as (q & e' & l & s & _ & -> & Hs & Hs' & Hq0 & Hq & _ & Hf & _).
  destruct (round_aux_pos q e' l Hq0 Hf) as (m2 & -> & _ & Hm2 & _ & _).
  apply f_at_le_1; [done|]. left.
  pose proof (valid_lt_value mx ex my ey (- e') Vx Vy Hlt ltac:(lia)) as Hval.
  replace (- e' + ex - ey) with s in Hval by lia.
  assert (q < 2 ^ (- e')) as Hlt' by (rewrite Hq; apply Z.div_lt_upper_bound; lia).
  change (-53) with (fexp64 0). apply fexp_mono.
  destruct (Z.eq_dec q 0) as [->|?]; [simpl; lia|].
  rewrite Zdigits2_log2 by lia. apply Z.log2_lt_pow2 in Hlt'; lia.
Qed.

Lemma fdiv_same mx ex :
  fdiv (S754_finite false mx ex) (S754_finite false mx ex) = f1.
Proof.
  unfold fdiv, SFdiv, SFdiv_core_binary. rewrite !Z.sub_diag.
  change (Z.min (fexp64 0) 0) with (-53). change (0 - -53) with 53. cbn [xorb].
  cbv beta iota zeta. rewrite Z.shiftl_mul_pow2 by lia.
  pose proof (Z_div_mod (Z.pos mx * 2 ^ 53) (Z.pos mx)) as Hdm.
  destruct (Z.div_eucl _ _) as [q r]. destruct Hdm as [Hq Hr]; [lia|].
  assert (q = 2 ^ 53) as ->.
  { rewrite (Z.div_unique (Z.pos mx * 2 ^ 53) (Z.pos mx) q r) by (auto || done).
    rewrite Z.mul_comm. by apply Z.div_mul. }
  assert (r = 0) as -> by lia.
  replace (new_location (Z.pos mx) 0) with loc_Exact; [reflexivity|].
  unfold new_location. by destruct (Z.even _).
Qed.

(** The share of a weight in a total that dominates it. *)
Lemma fdiv_share x y :
  f_nonneg x = true → f_nonneg y = true → fle x y = true → flt f0 y = true → flt y f_inf = true →
  fle f0 (fdiv x y) = true ∧ fle (fdiv x y) f1 = true.
Proof.
  intros Hx Hy Hxy Hpos Hfin. split.
  { apply f_nonneg_ge0, fdiv_nonneg; [by apply f_nonneg_ge0|done|]. by intros _ ->. }
  destruct (f_nonneg_cases x Hx) as [[s ->]|[->|(mx & ex & -> & Vx)]],
    (f_nonneg_cases y Hy) as [[s' ->]|[->|(my & ey & -> & Vy)]];
    try done; try (by destruct s).
  destruct (Z.lt_trichotomy ex ey) as [?|[->|?]]; [by apply fdiv_lt_1; auto| |].
  - destruct (Z.lt_trichotomy (Z.pos mx) (Z.pos my)) as [?|[[= ->]|?]];
      [by apply fdiv_lt_1; auto|by rewrite fdiv_same|].
    exfalso. apply fle_key in Hxy; [|done..]. simpl in Hxy. lia.
  - exfalso. apply fle_key in Hxy; [|done..]. simpl in Hxy. lia.
Qed.

(** ** Sums *)
Lemma fadd_comm_nonneg x y : f_nonneg x = true → f_nonneg y = true →
  fadd x y = fadd y x ∨ (∃ s s', x = S754_zero s ∧ y = S754_zero s').
Proof.
  intros Hx Hy.
  destruct (f_nonneg_cases x Hx) as [[s ->]|[->|(mx & ex & -> & Vx)]],
    (f_nonneg_cases y Hy) as [[s' ->]|[->|(my & ey & -> & Vy)]];
    try (by left); try (right; by eauto).
  left. unfold fadd, SFadd. by rewrite Z.min_comm, Z.add_comm.
Qed.

Lemma fadd_nonneg_r x y :
  f_nonneg x = true → f_nonneg y = true → fle y (fadd x y) = true.
Proof.
  intros Hx Hy. destruct (fadd_comm_nonneg x y Hx Hy) as [->|(s & s' & -> & ->)].
  - by apply fadd_nonneg_l.
  - by destruct s, s'.
Qed.

Lemma fsum_from_nonneg acc l :
  f_nonneg acc = true → Forall (λ x, f_nonneg x = true) l →
  f_nonneg (foldl fadd acc l) = true ∧ fle acc (foldl fadd acc l) = true ∧
  Forall (λ x, fle x (foldl fadd acc l) = true) l.
Proof.
  revert acc. induction l as [|x l IH]; intros acc Hacc Hl; simpl.
  { split; [done|]. split; [by apply fle_refl, f_nonneg_num|constructor]. }
  apply Forall_cons in Hl as [Hx Hl].
  destruct (IH (fadd acc x)) as (H1 & H2 & H3); [by apply fadd_nonneg_closed|done|].
  split; [done|]. split; [eapply fle_trans; [by apply (fadd_nonneg_l acc x)|done]|].
  constructor; [|done]. eapply fle_trans; [by apply (fadd_nonneg_r acc x)|done].
Qed.

(** A sum of non-negative numbers is one and dominates each of its terms. *)
Lemma fsum_nonneg l : Forall (λ x, f_nonneg x = true) l →
  f_nonneg (fsum l) = true ∧ Forall (λ x, fle x (fsum l) = true) l.
Proof.
  intros Hl. destruct (fsum_from_nonneg f0 l eq_refl Hl) as (H1 & _ & H2). exact (conj H1 H2).
Qed.

(** Shares of a positive finite total lie between 0 and 1. *)
Lemma shares_unit l :
  Forall (λ x, f_nonneg x = true) l → flt f0 (fsum l) = true → flt (fsum l) f_inf = true →
  Forall (λ x, fle f0 (fdiv x (fsum l)) = true ∧ fle (fdiv x (fsum l)) f1 = true) l.
Proof.
  intros Hl Hp Hf. destruct (fsum_nonneg l Hl) as [Hs Hle].
  apply Forall_forall. intros x Hx. apply fdiv_share; [|done| |done|done].
  - by eapply Forall_forall in Hl.
  - by eapply Forall_forall in Hle.
Qed.

(** ** Products *)
Lemma fmul_finite mx ex my ey :
  f64_valid (S754_finite false mx ex) = true → f64_valid (S754_finite false my ey) = true →
  f_nonneg (fmul (S754_finite false mx ex) (S754_finite false my ey)) = true.
Proof.
  intros [Vx _]%valid_finite [Vy _]%valid_finite.
  change (f_nonneg (binary_round_aux 53 1024 false (Z.pos (mx * my)) (ex + ey) loc_Exact) = true).
  destruct (round_aux_pos (Z.pos (mx * my)) (ex + ey) loc_Exact) as (m2 & -> & _ & Hm & Hv & _);
    [done| |by apply f_at_nonneg; [lia|]].
  rewrite Zdigits2_log2 by lia. rewrite Pos2Z.inj_mul.
  pose proof (Z.log2_mul_below (Z.pos mx) (Z.pos my) ltac:(lia) ltac:(lia)).
  pose proof (Z.log2_nonneg (Z.pos mx)). pose proof (Z.log2_nonneg (Z.pos my)).
  rewrite fexp_unfold in *. lia.
Qed.

Lemma fmul_nonneg x y :
  f_nonneg x = true → f_nonneg y = true → is_num (fmul x y) = true →
  f_nonneg (fmul x y) = true.
Proof.
  intros Hx Hy Hnum.
  destruct (f_nonneg_cases x Hx) as [[s ->]|[->|(mx & ex & -> & Vx)]],
    (f_nonneg_cases y Hy) as [[s' ->]|[->|(my & ey & -> & Vy)]];
    try (by destruct s); try (by destruct s'); try done.
  by apply fmul_finite.
Qed.

#[export] Hint Resolve fdiv_nonneg fadd_nonneg_r : sky.

(** ** Finite numbers: what decoding JSON can give *)
Definition f_finite (x : float64) : bool :=
  match x with
  | S754_zero _ => true
  | S754_finite _ _ _ => f64_valid x
  | _ => false
  end.

Definition f_fin (x : float64) : bool := f_finite x && fle f0 x.

Lemma f_fin_nonneg x : f_fin x = true → f_nonneg x = true.
Proof.
  unfold f_fin, f_nonneg. intros [H1 H2]%andb_true_iff. rewrite H2. by destruct x.
Qed.

Lemma f_finite_num x : f_finite x = true → is_num x = true.
Proof. by destruct x. Qed.

Lemma f_finite_not_lt x c : f_finite x = true → f_fin c = true →
  f_fin (if flt x f0 then c else x) = true.
Proof.
  intros Hx Hc. destruct (flt x f0) eqn:E; [done|]. unfold f_fin. rewrite Hx. simpl.
  apply fnot_lt_le; [by apply f_finite_num|done|done].
Qed.

Lemma f_finite_not_le x c : f_finite x = true → f_fin c = true →
  f_fin (if fle x f0 then c else x) = true.
Proof.
  intros Hx Hc. destruct (fle x f0) eqn:E; [done|]. unfold f_fin. rewrite Hx. simpl.
  rewrite fle_flt in E by (done || by apply f_finite_num).
  by apply flt_le, negb_false_iff.
Qed.

Lemma fmul_fin x y : f_fin x = true → f_fin y = true → f_nonneg (fmul x y) = true.
Proof.
  unfold f_fin. intros [Hx Px]%andb_true_iff [Hy Py]%andb_true_iff.
  destruct x as [sx| | |[] mx ex], y as [sy| | |[] my ey]; try done;
    try (by destruct sx, sy); try (by destruct sx); try (by destruct sy).
  by apply fmul_finite.
Qed.

(** ** Operations that do not produce NaN *)
Lemma shr_fexp_nonneg m e l : 0 ≤ m → 0 ≤ shr_m (shr_fexp 53 1024 m e l).1.
Proof.
  intros Hm. unfold shr_fexp, shr. destruct (_ - e) as [|p|p]; simpl;
    rewrite ?shr_m_record; try done.
  rewrite iter_shr_div by (by rewrite shr_m_record). rewrite shr_m_record.
  by apply Z.div_pos; [|apply Z.pow_pos_nonneg].
Qed.

Lemma round_aux_num s m e l : 0 ≤ m → is_num (binary_round_aux 53 1024 s m e l) = true.
Proof.
  intros Hm. unfold binary_round_aux.
  pose proof (shr_fexp_nonneg m e l Hm) as H1. destruct (shr_fexp _ _ m e l) as [r e'].
  simpl in H1. set (m2 := round_nearest_even _ _).
  assert (0 ≤ m2) as Hm2.
  { destruct (round_ne_cases (shr_m r) (loc_of_shr_record r)) as [E|E]; unfold m2; lia. }
  pose proof (shr_fexp_nonneg m2 e' loc_Exact Hm2) as H2.
  destruct (shr_fexp _ _ m2 e' loc_Exact) as [r' e'']. simpl in H2.
  destruct (shr_m r') as [|p|p]; [done| |lia]. by destruct (_ <=? _).
Qed.

Lemma normalize_num m e s : is_num (binary_normalize 53 1024 m e s) = true.
Proof.
  destruct m as [|p|p]; [done|..]; cbn [binary_normalize]; unfold binary_round;
    destruct (shl_align _ _ _); by apply round_aux_num.
Qed.

(** A number other than zero and the infinities. *)
Definition f_nonzero (x : float64) : bool := match x with S754_finite _ _ _ => true | _ => false end.

Lemma fsub_num x y : is_num x = true → f_nonzero y = true → is_num (fsub x y) = true.
Proof. destruct x, y; intros; try done. apply normalize_num. Qed.

Lemma fmul_num x y : f_nonzero x = true → is_num y = true → is_num (fmul x y) = true.
Proof. destruct x, y; intros; try done. by apply round_aux_num. Qed.

Lemma fdiv_num x y : is_num x = true → f_nonzero y = true → is_num (fdiv x y) = true.
Proof.
  destruct x as [| | |s m e], y as [| | |s' m' e']; intros; try done.
  unfold fdiv, SFdiv. destruct (div_core m e m' e') as (q & e1 & l & sh & -> & Hs & _ & -> & _).
  apply round_aux_num. apply Z.div_pos; [|lia].
  apply Z.mul_nonneg_nonneg; [lia|]. by apply Z.pow_nonneg.
Qed.

Lemma fneg_num x : is_num x = true → is_num (fneg x) = true.
Proof. by destruct x. Qed.

Lemma fabs_nonneg x : f_finite x = true → f_nonneg (fabs x) = true.
Proof. destruct x; intros; try done. Qed.

(** ** Small integers are exact *)
Lemma shr_exact_pos p m b : 0 ≤ m →
  SpecFloat.iter_pos shr_1 p (Build_shr_record (m * 2 ^ Z.pos p) false b) = Build_shr_record m false b.
Proof.
  assert (∀ m b, 0 ≤ m → shr_1 (Build_shr_record (2 * m) false b) = Build_shr_record m false b) as H1.
  { intros [|q|q] b' ?; [done|done|lia]. }
  revert m. induction p as [p IH|p IH|]; intros m Hm; cbn [SpecFloat.iter_pos].
  - replace (m * 2 ^ Z.pos p~1) with (2 * (m * 2 ^ Z.pos p * 2 ^ Z.pos p)).
    2: { replace (Z.pos p~1) with (1 + Z.pos p + Z.pos p) by lia.
         rewrite !Z.pow_add_r by lia. lia. }
    rewrite H1. 2: { apply Z.mul_nonneg_nonneg; [apply Z.mul_nonneg_nonneg|]; lia. }
    rewrite IH by lia. by apply IH.
  - replace (m * 2 ^ Z.pos p~0) with (m * 2 ^ Z.pos p * 2 ^ Z.pos p).
    2: { replace (Z.pos p~0) with (Z.pos p + Z.pos p) by lia. rewrite !Z.pow_add_r by lia. lia. }
    rewrite IH by lia. by apply IH.
  - rewrite Z.mul_comm. by apply H1.
Qed.

(** The float of an integer below [2^53]: its mantissa has 53 digits. *)
Definition f_int (k : positive) : float64 :=
  S754_finite false (Z.to_pos (Z.pos k * 2 ^ (52 - Z.log2 (Z.pos k)))) (Z.log2 (Z.pos k) - 52).

(** Rounding [k * 2^j] at exponent [-j] is exact, whatever [j]. *)
Lemma round_int k j :
  Z.pos k < 2 ^ 53 → 0 ≤ j → ∀ p, Z.pos p = Z.pos k * 2 ^ j →
  binary_round 53 1024 false p (- j) = f_int k.
Proof.
  intros Hk Hj p Hp. set (d := Z.log2 (Z.pos k)).
  assert (0 ≤ d) by apply Z.log2_nonneg.
  assert (d < 53) as Hd by (apply Z.log2_lt_pow2; lia).
  assert (Z.log2 (Z.pos p) = d + j) as Hlp by (rewrite Hp; rewrite Z.log2_mul_pow2; lia).
  assert (fexp64 (Z.pos (digits2_pos p) + - j) = d - 52) as Hf.
  { rewrite digits2_pos_log2, Hlp, fexp_unfold. lia. }
  unfold binary_round. rewrite Hf.
  assert (∃ m e, shl_align p (- j) (d - 52) = (m, e) ∧ e = Z.min (- j) (d - 52) ∧
    Z.pos m = Z.pos k * 2 ^ (- e)) as (m & e & -> & He & Hm).
  { unfold shl_align. destruct (d - 52 - - j) as [|q|q] eqn:E.
    - exists p, (- j). split; [done|]. split; [lia|]. by rewrite Z.opp_involutive.
    - exists p, (- j). split; [done|]. split; [lia|]. by rewrite Z.opp_involutive.
    - eexists _, (d - 52). split; [done|]. split; [lia|]. rewrite iter_xO_mul, Hp.
      rewrite <-Z.mul_assoc, <-Z.pow_add_r by lia. do 2 f_equal. lia. }
  assert (0 < 2 ^ (52 - d)) by (apply Z.pow_pos_nonneg; lia).
  assert (Z.pos k * 2 ^ (52 - d) < 2 ^ 53) as Hb.
  { replace (2 ^ 53) with (2 ^ Z.succ d * 2 ^ (52 - d)) by (rewrite <-Z.pow_add_r by lia; f_equal; lia).
    apply Z.mul_lt_mono_pos_r; [done|]. apply Z.log2_spec. lia. }
  assert (Z.log2 (Z.pos k * 2 ^ (52 - d)) = 52) as Hl by (rewrite Z.log2_mul_pow2; lia).
  assert (Zdigits2 (Z.pos m) + e = d + 1) as Hdm.
  { rewrite Zdigits2_log2, Hm, Z.log2_mul_pow2 by lia. lia. }
  unfold binary_round_aux.
  assert (shr_fexp 53 1024 (Z.pos m) e loc_Exact =
    (Build_shr_record (Z.pos k * 2 ^ (52 - d)) false false, d - 52)) as ->.
  { unfold shr_fexp. rewrite Hdm, fexp_unfold.
    replace (Z.max (d + 1 - 53) (-1074)) with (d - 52) by lia.
    destruct (d - 52 - e) as [|q|q] eqn:E; simpl; [| |lia].
    - rewrite Hm. f_equal; [do 3 f_equal; lia|lia].
    - rewrite <-(shr_exact_pos q (Z.pos k * 2 ^ (52 - d)) false) by lia.
      f_equal; [|lia]. do 2 f_equal. rewrite Hm, <-Z.mul_assoc, <-Z.pow_add_r by lia.
      do 2 f_equal. lia. }
  cbn [loc_of_shr_record round_nearest_even shr_m].
  destruct (shr_fexp_exact (Z.pos k * 2 ^ (52 - d)) (d - 52)) as (r & -> & ->); [lia|].
  rewrite Hl, fexp_unfold. replace (Z.max 0 _) with 0 by lia. rewrite Z.div_1_r.
  replace (Z.max (d - 52) _) with (d - 52) by lia.
  unfold f_int. fold d. destruct (Z.pos k * 2 ^ (52 - d)) eqn:E; [lia| |lia].
  destruct (Z.leb_spec (d - 52) (1024 - 53)); [done|lia].
Qed.

Lemma f_of_Z_pos k : Z.pos k < 2 ^ 53 → f_of_Z (Z.pos k) = f_int k.
Proof. intros Hk. apply (round_int k 0); lia. Qed.

Lemma f_int_align k : Z.pos k < 2 ^ 53 →
  Z.pos (fst (shl_align (Z.to_pos (Z.pos k * 2 ^ (52 - Z.log2 (Z.pos k)))) (Z.log2 (Z.pos k) - 52) (-52)))
  = Z.pos k * 2 ^ 52.
Proof.
  intros Hk. set (d := Z.log2 (Z.pos k)). assert (0 ≤ d) by apply Z.log2_nonneg.
  assert (d < 53) as Hd by (apply Z.log2_lt_pow2; lia).
  assert (0 < 2 ^ (52 - d)) by (apply Z.pow_pos_nonneg; lia).
  rewrite shl_align_mul by lia. rewrite Z2Pos.id by lia.
  rewrite <-Z.mul_assoc, <-Z.pow_add_r by lia. do 2 f_equal. lia.
Qed.

Lemma f_int_min k : Z.min (Z.log2 (Z.pos k) - 52) (Z.log2 1 - 52) = -52.
Proof. pose proof (Z.log2_nonneg (Z.pos k)). change (Z.log2 1) with 0. lia. Qed.

Lemma fadd_int k : Z.pos k < 2 ^ 53 →
  fadd (f_int k) (f_int 1) = binary_normalize 53 1024 (Z.pos k * 2 ^ 52 + 1 * 2 ^ 52) (-52) false.
Proof.
  intros Hk. unfold f_int at 1. unfold fadd, SFadd. unfold f_int. cbv beta iota zeta.
  rewrite f_int_min. cbn [cond_Zopp]. by rewrite f_int_align, (f_int_align 1) by lia.
Qed.

Lemma fsub_int k : Z.pos k < 2 ^ 53 →
  fsub (f_int k) (f_int 1) = binary_normalize 53 1024 (Z.pos k * 2 ^ 52 - 1 * 2 ^ 52) (-52) false.
Proof.
  intros Hk. unfold f_int at 1. unfold fsub, SFsub. unfold f_int. cbv beta iota zeta.
  rewrite f_int_min. cbn [cond_Zopp]. by rewrite f_int_align, (f_int_align 1) by lia.
Qed.

Lemma normalize_int k : Z.pos k < 2 ^ 53 →
  binary_normalize 53 1024 (Z.pos k * 2 ^ 52) (-52) false = f_int k.
Proof.
  intros Hk. destruct (Z.pos k * 2 ^ 52) as [|p|p] eqn:E; [lia| |lia].
  apply (round_int k 52); lia.
Qed.

(** Counting in floats is exact. *)
Lemma f_succ n : 0 ≤ n < 2 ^ 53 - 1 → fadd (f_of_Z n) f1 = f_of_Z (n + 1).
Proof.
  intros Hn. destruct n as [|k|k]; [done| |lia].
  change (Z.pos k + 1) with (Z.pos (k + 1)). rewrite !f_of_Z_pos by lia.
  change f1 with (f_int 1). rewrite fadd_int by lia. rewrite <-normalize_int by lia.
  f_equal. lia.
Qed.

Lemma f_pred n : 0 ≤ n < 2 ^ 53 - 1 → fsub (f_of_Z (n + 1)) f1 = f_of_Z n.
Proof.
  intros Hn. destruct n as [|k|k]; [done| |lia].
  change (Z.pos k + 1) with (Z.pos (k + 1)). rewrite !f_of_Z_pos by lia.
  change f1 with (f_int 1). rewrite fsub_int by lia. rewrite <-normalize_int by lia.
  f_equal. lia.
Qed.

Lemma f_of_Z_not_neg n : 0 ≤ n < 2 ^ 53 → flt (f_of_Z n) f0 = false.
Proof. intros Hn. destruct n as [|k|k]; [done| |lia]. by rewrite f_of_Z_pos by lia. Qed.

(** ** Scaling down *)
Lemma valid_log2 s m e : f64_valid (S754_finite s m e) = true →
  Z.log2 (Z.pos m) < 53 ∧ -1074 ≤ e ≤ 971 ∧ (-1074 < e → 2 ^ 52 ≤ Z.pos m).
Proof.
  intros [Hv He]%valid_finite. rewrite fexp_unfold in Hv. split; [lia|]. split; [lia|].
  intros Hgt. apply Z.log2_le_pow2; lia.
Qed.

Lemma below_one m e : f64_valid (S754_finite false m e) = true →
  flt (S754_finite false m e) f1 = true → e < 0 ∧ Z.pos m < 2 ^ (- e).
Proof.
  intros Hv Hlt. apply flt_key in Hlt; [|done..]. change (fkey f1) with (1, -52, 4503599627370496) in Hlt.
  simpl in Hlt. destruct (valid_log2 _ _ _ Hv) as (Hl & _ & _).
  destruct Hlt as [?|[_ [He|[-> Hm]]]]; [lia| |split; lia].
  split; [lia|]. apply Z.log2_lt_cancel. rewrite Z.log2_pow2 by lia. lia.
Qed.

(** Multiplying by a number below 1 does not increase a non-negative number. *)
Lemma fmul_below_one x y :
  f_fin x = true → flt x f1 = true → f_fin y = true → fle (fmul x y) y = true.
Proof.
  unfold f_fin. intros [Hx Px]%andb_true_iff Hlt [Hy Py]%andb_true_iff.
  destruct x as [sx| | |[] mx ex], y as [sy| | |[] my ey]; try done;
    try (by destruct sx, sy); try (by destruct sx); try (by destruct sy).
  change (f64_valid (S754_finite false mx ex) = true) in Hx.
  change (f64_valid (S754_finite false my ey) = true) in Hy.
  destruct (below_one mx ex Hx Hlt) as [Hex Hmx].
  destruct (valid_log2 _ _ _ Hx) as (Lx & Ex & _). destruct (valid_log2 _ _ _ Hy) as (Ly & Ey & By).
  pose proof Hy as [Vy _]%valid_finite.
  change (fle (binary_round_aux 53 1024 false (Z.pos (mx * my)) (ex + ey) loc_Exact)
    (S754_finite false my ey) = true).
  assert (Z.pos (mx * my) < Z.pos my * 2 ^ (- ex)) as Hm by (rewrite Pos2Z.inj_mul; nia).
  assert (Z.log2 (Z.pos (mx * my)) ≤ Z.log2 (Z.pos my) - ex) as Hlog.
  { replace (Z.log2 (Z.pos my) - ex) with (Z.log2 (Z.pos my * 2 ^ (- ex)))
      by (rewrite Z.log2_mul_pow2; lia). apply Z.log2_le_mono. lia. }
  assert (ex + ey ≤ fexp64 (Zdigits2 (Z.pos (mx * my)) + (ex + ey))) as Hcan.
  { rewrite Zdigits2_log2 by lia. rewrite Pos2Z.inj_mul.
    pose proof (Z.log2_mul_below (Z.pos mx) (Z.pos my) ltac:(lia) ltac:(lia)).
    pose proof (Z.log2_nonneg (Z.pos mx)). pose proof (Z.log2_nonneg (Z.pos my)).
    apply valid_finite in Hx as [Vx _]. rewrite fexp_unfold in *. lia. }
  destruct (round_aux_pos (Z.pos (mx * my)) (ex + ey) loc_Exact) as (m2 & -> & Hq & Hm2 & _ & _);
    [done|done|].
  set (e' := fexp64 (Zdigits2 (Z.pos (mx * my)) + (ex + ey))) in *.
  assert (e' ≤ ey) as He'.
  { rewrite <-Vy. unfold e'. apply fexp_mono. rewrite Zdigits2_log2 by lia. lia. }
  assert (-1074 ≤ e') as Hlow by (unfold e'; rewrite fexp_unfold; lia).
  assert (Z.pos my < 2 ^ 53) as Hmy by (apply Z.log2_lt_cancel; rewrite Z.log2_pow2; lia).
  unfold f_at. destruct (Z.eqb_spec m2 0); [done|].
  destruct (Z.eq_dec e' ey) as [Heq|Hne].
  - assert (m2 ≤ Z.pos my) as Hle.
    { rewrite Heq in Hq. replace (ey - (ex + ey)) with (- ex) in Hq by lia.
      assert (Z.pos (mx * my) / 2 ^ (- ex) < Z.pos my); [|lia].
      apply Z.div_lt_upper_bound; [apply Z.pow_pos_nonneg; lia|lia]. }
    destruct (Z.eqb_spec m2 (2 ^ 53)); [lia|]. rewrite Heq.
    destruct (Z.leb_spec ey 971); [|lia]. apply fle_key; [done..|]. simpl. lia.
  - destruct (Z.eqb_spec m2 (2 ^ 53)).
    + destruct (Z.leb_spec (e' + 1) 971); [|lia]. apply fle_key; [done..|].
      change (2 ^ 52)%positive with 4503599627370496%positive. simpl. lia.
    + destruct (Z.leb_spec e' 971); [|lia]. apply fle_key; [done..|]. simpl. lia.
Qed.

Lemma f_int_valid k : Z.pos k < 2 ^ 53 → f_fin (f_int k) = true.
Proof.
  intros Hk. unfold f_fin. change (fle f0 (f_int k)) with true. rewrite andb_true_r.
  apply valid_finite.
  set (dd := Z.log2 (Z.pos k)). assert (0 ≤ dd) by apply Z.log2_nonneg.
  assert (dd < 53) by (apply Z.log2_lt_pow2; lia).
  assert (0 < 2 ^ (52 - dd)) by (apply Z.pow_pos_nonneg; lia).
  rewrite Z2Pos.id by lia. rewrite Z.log2_mul_pow2 by lia. fold dd. rewrite fexp_unfold. lia.
Qed.

Lemma f_of_Z_fin n : 0 ≤ n < 2 ^ 53 → f_fin (f_of_Z n) = true.
Proof.
  intros Hn. destruct n as [|k|k]; [done| |lia]. rewrite f_of_Z_pos by lia. apply f_int_valid. lia.
Qed.

Lemma fmul_comm x y : fmul x y = fmul y x.
Proof.
  unfold fmul, SFmul. destruct x as [sx|sx| |sx mx ex], y as [sy|sy| |sy my ey];
    rewrite ?(xorb_comm sx sy); try done. by rewrite Pos.mul_comm, Z.add_comm.
Qed.

(** Truncating a non-negative number that is at most an integer below [2^53]. *)
Lemma f_trunc_range x n : 0 ≤ n < 2 ^ 53 → f_nonneg x = true → fle x (f_of_Z n) = true →
  0 ≤ f_trunc x.
Proof.
  intros Hn Hx Hle. destruct (f_nonneg_cases x Hx) as [[s ->]|[->|(m & e & -> & Hv)]]; [done| |].
  { destruct n as [|k|k]; [done| |lia]. by rewrite f_of_Z_pos in Hle by lia. }
  destruct n as [|k|k]; [done| |lia]. rewrite f_of_Z_pos in Hle by lia.
  apply fle_key in Hle; [|done..]. unfold f_int in Hle. cbn [fkey klt] in Hle.
  assert (Z.log2 (Z.pos k) < 53) by (apply Z.log2_lt_pow2; lia).
  assert (e ≤ 0) as He by lia.
  destruct (valid_log2 _ _ _ Hv) as (Hl & _ & _).
  assert (Z.pos m < 2 ^ 53) by (apply Z.log2_lt_cancel; rewrite Z.log2_pow2; lia).
  unfold f_trunc. set (q := if 0 <=? e then Z.pos m * 2 ^ e else Z.pos m / 2 ^ (- e)).
  assert (0 ≤ q < 2 ^ 53) as Hq.
  { unfold q. destruct (Z.leb_spec 0 e) as [?|?].
    - replace e with 0 by lia. lia.
    - assert (0 < 2 ^ (- e)) by (apply Z.pow_pos_nonneg; lia). split; [apply Z.div_pos; lia|].
      apply Z.div_lt_upper_bound; nia. }
  replace ((- 2 ^ 63 <=? q) && (q <? 2 ^ 63)) with true; [lia|].
  symmetry. apply andb_true_iff. rewrite Z.leb_le, Z.ltb_lt. lia.
Qed.

(** ** Dividing by one

    Rounding an exact value at or one below its own exponent gives it back. *)
Lemma round_aux_exact mx ex j : f64_valid (S754_finite false mx ex) = true → 0 ≤ j →
  binary_round_aux 53 1024 false (Z.pos mx * 2 ^ j) (ex - j) loc_Exact = S754_finite false mx ex.
Proof.
  intros Hv Hj. apply valid_finite in Hv as Hv'. destruct Hv' as [Hf He].
  pose proof (valid_log2 _ _ _ Hv) as (Hl & _ & _).
  assert (0 < 2 ^ j) by (apply Z.pow_pos_nonneg; lia).
  unfold binary_round_aux.
  assert (shr_fexp 53 1024 (Z.pos mx * 2 ^ j) (ex - j) loc_Exact =
    (Build_shr_record (Z.pos mx) false false, ex)) as ->.
  { unfold shr_fexp. rewrite Zdigits2_log2 by lia. rewrite Z.log2_mul_pow2 by lia.
    replace (j + Z.log2 (Z.pos mx) + 1 + (ex - j)) with (Z.log2 (Z.pos mx) + 1 + ex) by lia.
    rewrite Hf. replace (ex - (ex - j)) with j by lia.
    destruct j as [|q|q]; [simpl; f_equal; [by rewrite Z.mul_1_r|lia]| |lia].
    cbn [shr shr_record_of_loc]. rewrite shr_exact_pos by lia. f_equal. lia. }
  cbn [loc_of_shr_record round_nearest_even shr_m].
  destruct (shr_fexp_exact (Z.pos mx) ex) as (r & -> & ->); [lia|].
  rewrite Hf, Z.sub_diag. change (Z.max 0 0) with 0. rewrite Z.div_1_r, Z.max_id.
  by destruct (Z.leb_spec ex (1024 - 53)); [|lia].
Qed.

Lemma fdiv_1_r x : f_nonneg x = true → x ≠ f_inf → fdiv x f1 = x.
Proof.
  intros Hx Hi. destruct (f_nonneg_cases x Hx) as [[s ->]|[->|(mx & ex & -> & Vx)]]; [by destruct s|done|].
  apply valid_finite in Vx as Hv. destruct Hv as [Hf He].
  change f1 with (S754_finite false 4503599627370496 (-52)).
  unfold fdiv, SFdiv, SFdiv_core_binary. cbn [xorb].
  replace (Z.min _ _) with (Z.max (Z.log2 (Z.pos mx) + 1 + ex - 54) (-1074)).
  2: { rewrite !Zdigits2_log2 by lia. change (Z.log2 4503599627370496) with 52.
       rewrite fexp_unfold in *. lia. }
  set (e' := Z.max _ _). set (j := ex - e').
  assert (0 ≤ j) as Hj by (rewrite fexp_unfold in Hf; lia).
  replace (ex - -52 - e') with (52 + j) by lia. cbv beta iota zeta.
  replace (match 52 + j with Zpos _ => _ | _ => _ end) with (Z.pos mx * 2 ^ j * 2 ^ 52).
  2: { destruct (52 + j) eqn:E; [lia| |lia]. rewrite <-E, Z.shiftl_mul_pow2, Z.pow_add_r by lia. lia. }
  pose proof (Z_div_mod (Z.pos mx * 2 ^ j * 2 ^ 52) 4503599627370496) as Hdm.
  destruct (Z.div_eucl _ _) as [q r]. destruct Hdm as [Hq Hr]; [lia|].
  assert (q = Z.pos mx * 2 ^ j ∧ r = 0) as [-> ->] by (change (2 ^ 52) with 4503599627370496 in Hq; lia).
  cbn [new_location]. replace e' with (ex - j) by lia. by apply round_aux_exact.
Qed.

(** A positive integer, however large, is a positive float. *)
Lemma f_of_Z_pos_cases k : f_of_Z (Z.pos k) = f_inf ∨ ∃ m e, f_of_Z (Z.pos k) = S754_finite false m e.
Proof.
  destruct (decide (Z.pos k < 2 ^ 53)) as [Hk|Hk].
  - right. rewrite f_of_Z_pos by done. unfold f_int. eauto.
  - unfold f_of_Z, binary_normalize. destruct (binary_round_spec k 0) as (m & e & -> & _).
    + lia.
    + rewrite fexp_unfold. assert (53 ≤ Z.log2 (Z.pos k)) by (apply Z.log2_le_pow2; lia). lia.
    + destruct (e <=? 971); [right|by left]. eauto.
Qed.

Lemma fdiv_zero_pos s k : fdiv (S754_zero s) (f_of_Z (Z.pos k)) = S754_zero s.
Proof. destruct (f_of_Z_pos_cases k) as [->|(m & e & ->)]; by destruct s. Qed.

(** ** Truncated products

    The integer part of the product of an integer and a float below one with 53
    fractional bits: at least the integer part of the exact product, and at most
    that of the product rounded up. *)
Lemma f_trunc_at m e : 0 ≤ m ≤ 2 ^ 53 → -1000 ≤ e < -1 → f_trunc (f_at m e) = m / 2 ^ (- e).
Proof.
  intros Hm He. assert (0 < 2 ^ (- e)) by (apply Z.pow_pos_nonneg; lia).
  assert (0 ≤ m / 2 ^ (- e) ≤ 2 ^ 53) as Hq.
  { split; [apply Z.div_pos; lia|]. etransitivity; [apply Z.div_le_upper_bound with (q := m); nia|lia]. }
  assert ((- 2 ^ 63 <=? m / 2 ^ (- e)) && (m / 2 ^ (- e) <? 2 ^ 63) = true) as Hr
    by (apply andb_true_iff; rewrite Z.leb_le, Z.ltb_lt; lia).
  unfold f_at. destruct (Z.eqb_spec m 0) as [->|H0]; [by rewrite Z.div_0_l by lia|].
  destruct (Z.eqb_spec m (2 ^ 53)) as [->|H53].
  - destruct (Z.leb_spec (e + 1) 971); [|lia]. unfold f_trunc. destruct (Z.leb_spec 0 (e + 1)); [lia|].
    assert (Z.pos (2 ^ 52) / 2 ^ (- (e + 1)) = 2 ^ 53 / 2 ^ (- e)) as ->; [|by rewrite Hr].
    replace (- e) with (- (e + 1) + 1) by lia. change (2 ^ 53) with (Z.pos (2 ^ 52) * 2 ^ 1).
    rewrite Z.pow_add_r by lia. rewrite Z.div_mul_cancel_r; [done| |done].
    assert (0 < 2 ^ (- (e + 1))) by (apply Z.pow_pos_nonneg; lia). lia.
  - destruct (Z.leb_spec e 971); [|lia]. unfold f_trunc. destruct (Z.leb_spec 0 e); [lia|].
    rewrite Z2Pos.id by lia. by rewrite Hr.
Qed.

Lemma trunc_fmul_int k M : 0 < Z.pos k < 2 ^ 47 → 2 ^ 52 ≤ Z.pos M < 2 ^ 53 →
  let t := f_trunc (fmul (f_of_Z (Z.pos k)) (S754_finite false M (-53))) in
  ∃ r s, 5 < s ∧ 0 ≤ r ∧ Z.pos k * Z.pos M / 2 ^ 53 ≤ t ∧
    t * 2 ^ (s + r) ≤ Z.pos k * Z.pos M * 2 ^ (s + r - 53) + 2 ^ r ∧ 53 ≤ s + r.
Proof.
  intros Hk HM t. set (d := Z.log2 (Z.pos k)). assert (0 ≤ d) by apply Z.log2_nonneg.
  assert (d < 47) as Hd by (apply Z.log2_lt_pow2; lia).
  assert (0 < 2 ^ (52 - d)) as H2 by (apply Z.pow_pos_nonneg; lia).
  assert (Z.log2 (Z.pos M) = 52) as HlM by (apply Z.log2_unique; lia).
  unfold t. rewrite f_of_Z_pos by lia. unfold f_int. fold d.
  set (mx := Z.to_pos (Z.pos k * 2 ^ (52 - d))).
  assert (Z.pos mx = Z.pos k * 2 ^ (52 - d)) as Hmx by (unfold mx; rewrite Z2Pos.id; nia).
  assert (Z.log2 (Z.pos mx) = 52) as Hlx by (rewrite Hmx, Z.log2_mul_pow2 by lia; fold d; lia).
  change (fmul (S754_finite false mx (d - 52)) (S754_finite false M (-53))) with
    (binary_round_aux 53 1024 false (Z.pos (mx * M)) (d - 52 + -53) loc_Exact).
  set (A := Z.pos (mx * M)). assert (A = Z.pos k * Z.pos M * 2 ^ (52 - d)) as HA.
  { unfold A. rewrite Pos2Z.inj_mul, Hmx. lia. }
  pose proof (Z.log2_mul_below (Z.pos mx) (Z.pos M) ltac:(lia) ltac:(lia)) as L1.
  pose proof (Z.log2_mul_above (Z.pos mx) (Z.pos M) ltac:(lia) ltac:(lia)) as L2.
  rewrite <-Pos2Z.inj_mul, Hlx, HlM in L1, L2. fold A in L1, L2.
  destruct (round_aux_pos A (d - 52 + -53) loc_Exact) as (m2 & -> & Hq & Hm2 & _);
    [done|rewrite Zdigits2_log2, fexp_unfold by done; lia|].
  set (e' := fexp64 (Zdigits2 A + (d - 52 + -53))) in *.
  assert (e' = Z.log2 A + 1 + (d - 105) - 53) as He'.
  { unfold e'. rewrite Zdigits2_log2, fexp_unfold by done. lia. }
  rewrite f_trunc_at by lia. exists (e' - (d - 105)), (- e').
  replace (d - 52 + -53) with (d - 105) in Hq by lia.
  set (r := e' - (d - 105)) in *. set (s := - e') in *. assert (s + r = 105 - d) as Hsr by lia.
  assert (0 < 2 ^ s) by (apply Z.pow_pos_nonneg; lia). assert (0 < 2 ^ r) by (apply Z.pow_pos_nonneg; lia).
  split; [lia|]. split; [lia|]. split; [|split; [|lia]].
  - transitivity (A / 2 ^ r / 2 ^ s); [|apply Z.div_le_mono; lia].
    rewrite Z.div_div by lia. rewrite <-Z.pow_add_r by lia. replace (r + s) with (53 + (52 - d)) by lia.
    rewrite HA, Z.pow_add_r, Z.div_mul_cancel_r by lia. done.
  - rewrite Hsr. replace (105 - d - 53) with (52 - d) by lia. rewrite <-HA, <-Hsr, Z.pow_add_r, Z.mul_assoc by lia.
    pose proof (Z.mul_div_le m2 (2 ^ s)). pose proof (Z.mul_div_le A (2 ^ r)). nia.
Qed.

(** 95 percent of an integer, truncated: at most the exact share, and more than
    the exact share less one. *)
Lemma trunc_95 n : 0 < n < 2 ^ 47 →
  let t := f_trunc (fmul (f_of_Z n) (f_of_frac 95 100)) in
  100 * t ≤ 95 * n ∧ 95 * n ≤ 100 * (t + 1) ∧ 0 ≤ t.
Proof.
  intros Hn t. destruct n as [|k|k]; [lia| |lia].
  change (f_of_frac 95 100) with (S754_finite false 8556839292003942 (-53)) in t.
  destruct (trunc_fmul_int k 8556839292003942) as (r & s & Hs & Hr & Hlow & Hup & Hsr); [lia|lia|].
  fold t in Hlow, Hup. clearbody t.
  assert (0 < 2 ^ r) by (apply Z.pow_pos_nonneg; lia).
  assert (0 < 2 ^ (s + r - 53)) by (apply Z.pow_pos_nonneg; lia).
  assert (2 ^ (s + r) = 2 ^ 53 * 2 ^ (s + r - 53)) as E1 by (rewrite <-Z.pow_add_r by lia; f_equal; lia).
  assert (64 * 2 ^ r ≤ 2 ^ (s + r)) as E2.
  { change 64 with (2 ^ 6). rewrite <-Z.pow_add_r by lia. apply Z.pow_le_mono_r; lia. }
  pose proof (Z.mul_succ_div_gt (Z.pos k * 8556839292003942) (2 ^ 53) ltac:(lia)) as Hd.
  split; [|split].
  - enough (20 * t < 19 * Z.pos k + 1) by lia. change (2 ^ 53) with 9007199254740992 in *. nia.
  - enough (19 * Z.pos k < 20 * (t + 1) + 1) by lia. change (2 ^ 53) with 9007199254740992 in *. nia.
  - etransitivity; [|exact Hlow]. apply Z.div_pos; lia.
Qed.

(** ** Fractions of small integers *)
Lemma f_of_Z_mono k n : 0 ≤ k ≤ n → n < 2 ^ 53 → fle (f_of_Z k) (f_of_Z n) = true.
Proof.
  intros Hk Hn. destruct k as [|k|k]; [|rewrite f_of_Z_pos by lia|lia].
  { destruct n as [|n|n]; [done|by rewrite f_of_Z_pos by lia|lia]. }
  destruct n as [|n|n]; [lia|rewrite f_of_Z_pos by lia|lia].
  apply fle_key; [done..|]. unfold f_int. cbn [fkey klt]. intros [?|[_ Hlt]]; [lia|].
  pose proof (Z.log2_le_mono (Z.pos k) (Z.pos n) ltac:(lia)) as Hl.
  assert (Z.log2 (Z.pos n) < 53) by (apply Z.log2_lt_pow2; lia).
  destruct Hlt as [?|[E Hm]]; [lia|]. assert (Z.log2 (Z.pos n) = Z.log2 (Z.pos k)) as El by lia. rewrite El in *.
  assert (0 < 2 ^ (52 - Z.log2 (Z.pos k))) by (apply Z.pow_pos_nonneg; pose proof (Z.log2_nonneg (Z.pos k)); lia).
  rewrite !Z2Pos.id in Hm by lia. nia.
Qed.

Lemma f_of_Z_positive n : 0 < n < 2 ^ 53 → flt f0 (f_of_Z n) = true ∧ flt (f_of_Z n) f_inf = true.
Proof. intros Hn. destruct n as [|n|n]; [lia|by rewrite f_of_Z_pos by lia|lia]. Qed.

Lemma f_ratio_unit k n : 0 ≤ k ≤ n → 0 < n < 2 ^ 53 →
  fle f0 (fdiv (f_of_Z k) (f_of_Z n)) = true ∧ fle (fdiv (f_of_Z k) (f_of_Z n)) f1 = true.
Proof.
  intros Hk Hn. destruct (f_of_Z_positive n Hn).
  apply fdiv_share; [apply f_fin_nonneg, f_of_Z_fin; lia..|apply f_of_Z_mono; lia|done|done].
Qed.

Lemma f_ratio_zero k n : 0 ≤ k < 2 ^ 53 → 0 < n < 2 ^ 53 → fdiv (f_of_Z k) (f_of_Z n) ≠ S754_zero true.
Proof.
  intros Hk Hn. destruct n as [|n|n]; [lia|rewrite (f_of_Z_pos n) by lia|lia].
  destruct k as [|k|k]; [done|rewrite f_of_Z_pos by lia|lia]. unfold f_int.
  match goal with |- fdiv (S754_finite _ ?mx ?ex) (S754_finite _ ?my ?ey) ≠ _ =>
    destruct (fdiv_finite mx ex my ey) as (q & e' & l & s & _ & -> & _ & _ & Hq & _ & _ & Hf & _) end.
  destruct (round_aux_pos q e' l Hq Hf) as (m2 & -> & _). unfold f_at. by repeat case_match.
Qed.
