(* ===== verification/GoHeap.v ===== *)
(** * Go's [container/heap]

    The priority queues of the program ([PriorityQueue] of the path search,
    [MinHeap] and [MinHeapV2] of the packet aggregators) implement Go's
    [heap.Interface] and are driven by [heap.Push], [heap.Pop] and
    [heap.Remove].  [HeapInterface] is that interface, [HeapLaws] what an
    implementation promises, and the functions below are the algorithms of the
    [container/heap] package, proved once against the interface: they keep the
    heap order and the multiset of elements, and [Pop] returns a minimum. *)
From S2P Require Import Prelude.

Class HeapInterface (H B : Type) := {
  hLen : H → nat;
  hLess : H → nat → nat → bool;
  hSwap : H → nat → nat → H;
  hPush : H → B → H;
  hPop : H → option (B * H);
}.

Class HeapLaws (H B : Type) `{HeapInterface H B} (less : B → B → bool) := {
  hvals : H → list B;
  hvals_len h : hLen h = length (hvals h);
  hvals_less h i j : hLess h i j = less_at less (hvals h) i j;
  hvals_swap h i j : i < hLen h → j < hLen h →
    hvals (hSwap h i j) = swap (hvals h) i j;
  hvals_push h x : hvals (hPush h x) = hvals h ++ [x];
  hvals_pop h l x : hvals h = l ++ [x] →
    ∃ h', hPop h = Some (x, h') ∧ hvals h' = l;
}.

(** The parent of index [j]: Go's [(j-1)/2], which is [0] for [j = 0]. *)
Definition parent (j : nat) : nat := (j - 1) / 2.

Lemma parent_lt j : 0 < j → parent j < j.
Proof. intros. unfold parent. apply Nat.Div0.div_lt_upper_bound. lia. Qed.

Lemma parent_children i k : 0 < k → parent k = i ↔ k = 2 * i + 1 ∨ k = 2 * i + 2.
Proof.
  intros. unfold parent.
  pose proof (Nat.div_mod_eq (k - 1) 2). pose proof (Nat.mod_upper_bound (k - 1) 2). lia.
Qed.

Section Algorithms.
Context {H B : Type} `{HeapInterface H B}.

Fixpoint up (fuel : nat) (h : H) (j : nat) : H :=
  match fuel with
  | 0 => h
  | S fuel =>
      let i := parent j in
      if bool_decide (i = j) || negb (hLess h j i) then h
      else up fuel (hSwap h i j) i
  end.

Fixpoint down_go (fuel : nat) (h : H) (i n : nat) : H * nat :=
  match fuel with
  | 0 => (h, i)
  | S fuel =>
      let j1 := 2 * i + 1 in
      if bool_decide (n ≤ j1) then (h, i)
      else
        let j2 := j1 + 1 in
        let j := if bool_decide (j2 < n) && hLess h j2 j1 then j2 else j1 in
        if negb (hLess h j i) then (h, i)
        else down_go fuel (hSwap h i j) j n
  end.

Definition down (h : H) (i0 n : nat) : H * bool :=
  let '(h', i) := down_go n h i0 n in (h', bool_decide (i0 < i)).

Definition heap_Push (h : H) (x : B) : H :=
  let h' := hPush h x in up (hLen h') h' (hLen h' - 1).

(** [None] is the panic of [heap.Pop] on an empty heap. *)
Definition heap_Pop (h : H) : option (B * H) :=
  match hLen h with
  | 0 => None
  | S n => hPop (down (hSwap h 0 n) 0 n).1
  end.

(** [None] is the panic of [heap.Remove] on an index out of range. *)
Definition heap_Remove (h : H) (i : nat) : option (B * H) :=
  if bool_decide (hLen h ≤ i) then None
  else
    let n := hLen h - 1 in
    if bool_decide (n = i) then hPop h
    else
      let '(h1, moved) := down (hSwap h i n) i n in
      hPop (if moved then h1 else up (hLen h1) h1 i).
End Algorithms.

(** ** Swapping *)
Section Swap.
Context {B : Type} `{!Inhabited B} (less : B → B → bool).
Implicit Types l : list B.

Lemma swap_length l i j : length (swap l i j) = length l.
Proof.
  unfold swap. destruct (l !! i), (l !! j); rewrite ?length_insert; done.
Qed.

Lemma swap_self l i : swap l i i = l.
Proof.
  unfold swap. destruct (l !! i) as [x|] eqn:E; [|done].
  rewrite list_insert_insert_eq. by apply list_insert_id.
Qed.

Lemma lookup_swap l i j k : i < length l → j < length l →
  swap l i j !! k =
  (if decide (k = i) then l !! j else if decide (k = j) then l !! i else l !! k).
Proof.
  intros Hi Hj. unfold swap.
  destruct (lookup_lt_is_Some_2 l i Hi) as [x Hx].
  destruct (lookup_lt_is_Some_2 l j Hj) as [y Hy].
  rewrite Hx, Hy. destruct (decide (k = i)) as [->|].
  - rewrite list_lookup_insert_eq; [done|]. by rewrite length_insert.
  - rewrite list_lookup_insert_ne by done.
    destruct (decide (k = j)) as [->|]; [by rewrite list_lookup_insert_eq|].
    by rewrite list_lookup_insert_ne.
Qed.

Lemma swap_perm_lt l i j : i < j → j < length l → swap l i j ≡ₚ l.
Proof.
  intros Hij Hj.
  destruct (lookup_lt_is_Some_2 l i) as [x Hx]; [lia|].
  destruct (lookup_lt_is_Some_2 l j) as [y Hy]; [lia|].
  apply list_elem_of_split_length in Hx as (pre & suf & -> & Hpre). subst i.
  rewrite lookup_app_r in Hy by lia.
  destruct (j - length pre) as [|j'] eqn:Ej; [lia|]. simpl in Hy.
  apply list_elem_of_split_length in Hy as (mid & post & -> & Hmid). subst j'.
  replace j with (length pre + S (length mid)) by lia.
  rewrite swap_split. apply Permutation_app_head.
  rewrite <-!Permutation_middle. apply Permutation_swap.
Qed.

Lemma swap_comm l i j : i < length l → j < length l → swap l i j = swap l j i.
Proof.
  intros Hi Hj. apply list_eq. intros k. rewrite !lookup_swap by done.
  repeat case_decide; congruence.
Qed.

Lemma swap_perm l i j : i < length l → j < length l → swap l i j ≡ₚ l.
Proof.
  intros Hi Hj. destruct (lt_eq_lt_dec i j) as [[?| ->]|?].
  - by apply swap_perm_lt.
  - by rewrite swap_self.
  - rewrite swap_comm by done. by apply swap_perm_lt.
Qed.

Lemma lookup_total_swap l i j k : i < length l → j < length l →
  swap l i j !!! k =
  (if decide (k = i) then l !!! j else if decide (k = j) then l !!! i else l !!! k).
Proof.
  intros Hi Hj. rewrite !list_lookup_total_alt, lookup_swap by done.
  by repeat case_decide.
Qed.

Lemma less_at_total l i j : i < length l → j < length l →
  less_at less l i j = less (l !!! i) (l !!! j).
Proof.
  intros Hi Hj. unfold less_at.
  by rewrite !list_lookup_lookup_total_lt by done.
Qed.
End Swap.

(** ** Heap order *)
Section HeapOrder.
Context {H B : Type} `{HI : HeapInterface H B} `{!Inhabited B}
  (less : B → B → bool) `{HL : !HeapLaws H B less}
  (P : B → Prop) `{HW : !WeakOrder P less}.
Implicit Types (l : list B) (h : H).

(** [ge l a b]: the element at [a] is not smaller than the one at [b]. *)
Definition ge l (a b : nat) : Prop := less (l !!! a) (l !!! b) = false.

(** The first [n] elements are in heap order. *)
Definition heap_prefix (n : nat) l : Prop := ∀ k, 0 < k < n → ge l k (parent k).
Definition heap_ok h : Prop := heap_prefix (hLen h) (hvals h) ∧ Forall P (hvals h).

Lemma P_total l k : Forall P l → k < length l → P (l !!! k).
Proof.
  intros HP Hk. eapply Forall_forall; [exact HP|].
  by apply list_elem_of_lookup_total_2.
Qed.

Lemma ge_trans l a b c : Forall P l →
  a < length l → b < length l → c < length l → ge l a b → ge l b c → ge l a c.
Proof.
  intros HP ? ? ? H1 H2. unfold ge in *.
  apply (wo_negtrans (l !!! c) (l !!! b) (l !!! a)); auto using P_total.
Qed.

Lemma lt_ge l a b : Forall P l → a < length l → b < length l →
  less (l !!! a) (l !!! b) = true → ge l b a.
Proof. intros HP ? ? ?. apply wo_asym; auto using P_total. Qed.

Lemma heap_root_min n l k :
  Forall P l → n ≤ length l → heap_prefix n l → k < n → ge l k 0.
Proof.
  intros HP Hn Hh. induction k as [k IH] using lt_wf_ind. intros Hk.
  destruct (decide (k = 0)) as [->|Hk0].
  { apply (wo_irrefl P less). apply P_total; [done|lia]. }
  pose proof (parent_lt k ltac:(lia)).
  apply (ge_trans l k (parent k) 0); try (done || lia).
  - apply Hh. lia.
  - apply IH; lia.
Qed.

(** *** Sifting up *)
Definition up_inv (n j : nat) l : Prop :=
  (∀ k, 0 < k < n → k ≠ j → ge l k (parent k)) ∧
  (∀ k, 0 < k < n → parent k = j → 0 < j → ge l k (parent j)).

Lemma up_inv_swap n j l :
  Forall P l → n ≤ length l → j < n → parent j ≠ j →
  less (l !!! j) (l !!! parent j) = true →
  up_inv n j l → up_inv n (parent j) (swap l (parent j) j).
Proof.
  intros HP Hn Hj Hne Hlt [I1 I2].
  assert (0 < j) as Hj0 by (destruct j; [done|lia]).
  pose proof (parent_lt j Hj0) as Hp.
  assert (ge l (parent j) j) as Hasym by (apply lt_ge; (done || lia)).
  split; intros k Hk Hkj.
  - pose proof (parent_lt k ltac:(lia)).
    unfold ge. rewrite !lookup_total_swap by lia.
    destruct (decide (k = parent j)); [done|].
    destruct (decide (k = j)) as [->|Hk'].
    { rewrite decide_True by done. exact Hasym. }
    destruct (decide (parent k = parent j)) as [Hpk|].
    { apply (ge_trans l k (parent j) j); try (done || lia).
      rewrite <-Hpk. by apply I1. }
    destruct (decide (parent k = j)) as [Hpk|]; [by apply I2|by apply I1].
  - intros Hp0. pose proof (parent_lt (parent j) Hp0).
    unfold ge. rewrite !lookup_total_swap by lia.
    rewrite (decide_False (P := parent (parent j) = parent j)) by lia.
    rewrite (decide_False (P := parent (parent j) = j)) by lia.
    destruct (decide (k = parent j)) as [->|]; [lia|].
    destruct (decide (k = j)) as [->|]; [apply I1; lia|].
    apply (ge_trans l k (parent j) (parent (parent j))); try (done || lia).
    + rewrite <-Hkj. apply I1; lia.
    + apply I1; lia.
Qed.

Lemma up_spec fuel h n j :
  j ≤ fuel → j < n → n ≤ hLen h → Forall P (hvals h) → up_inv n j (hvals h) →
  heap_prefix n (hvals (up fuel h j)) ∧
  hvals (up fuel h j) ≡ₚ hvals h ∧
  (∀ k, n ≤ k → hvals (up fuel h j) !! k = hvals h !! k).
Proof.
  revert h j. induction fuel as [|fuel IH]; intros h j Hf Hj Hn HP Hinv; simpl.
  { replace j with 0 in * by lia. split; [|done].
    intros k Hk. apply Hinv; lia. }
  rewrite hvals_len in Hn.
  destruct (decide (parent j = j)) as [He|He].
  { rewrite bool_decide_eq_true_2 by done. simpl. split; [|done].
    assert (j = 0) as -> by (destruct j; [done|]; pose proof (parent_lt (S j)); lia).
    intros k Hk. apply Hinv; lia. }
  rewrite bool_decide_eq_false_2 by done. simpl.
  assert (parent j < j) as Hpj by (apply parent_lt; destruct j; [done|lia]).
  rewrite (hvals_less (less := less)), less_at_total by lia.
  destruct (less _ _) eqn:E; simpl.
  - pose proof (up_inv_swap n j _ HP Hn Hj He E Hinv) as Hinv'.
    assert (hvals (hSwap h (parent j) j) = swap (hvals h) (parent j) j) as Hs
      by (apply hvals_swap; rewrite hvals_len; lia).
    destruct (IH (hSwap h (parent j) j) (parent j)) as (R1 & R2 & R3);
      rewrite ?hvals_len, ?Hs, ?swap_length; try (done || lia).
    { rewrite swap_perm by lia. done. }
    rewrite Hs in R2, R3.
    split; [done|]. split; [rewrite R2; apply swap_perm; lia|].
    intros k Hk. rewrite R3 by done. rewrite lookup_swap by lia.
    rewrite !decide_False by lia. done.
  - split; [|done]. intros k Hk. destruct (decide (k = j)) as [->|]; [done|].
    by apply Hinv.
Qed.

(** *** Sifting down *)
Definition down_inv (n i : nat) l : Prop :=
  (∀ k, 0 < k < n → parent k ≠ i → ge l k (parent k)) ∧
  (∀ k, 0 < k < n → parent k = i → 0 < i → ge l k (parent i)).

(** [j] is the child of [i] the loop of [down] selects. *)
Definition small_child n i l (j : nat) : Prop :=
  j < n ∧ 0 < j ∧ parent j = i ∧ ∀ k, 0 < k < n → parent k = i → ge l k j.

Lemma down_select n i h :
  2 * i + 1 < n → n ≤ hLen h → Forall P (hvals h) →
  small_child n i (hvals h)
    (if bool_decide (2 * i + 1 + 1 < n) && hLess h (2 * i + 1 + 1) (2 * i + 1)
     then 2 * i + 1 + 1 else 2 * i + 1).
Proof.
  intros Hi Hn HP. rewrite hvals_len in Hn.
  assert (∀ a, a < length (hvals h) → ge (hvals h) a a) as Hrefl.
  { intros a Ha. apply (wo_irrefl P less), P_total; done. }
  destruct (bool_decide_reflect (2 * i + 1 + 1 < n)) as [Hlt|Hlt]; simpl;
    [rewrite (hvals_less (less := less)), less_at_total by lia; destruct (less _ _) eqn:E|];
    (split; [lia|]; split; [lia|]; split; [apply parent_children; lia|]);
    intros k Hk [Hk'|Hk']%parent_children; try lia; subst k; try (apply Hrefl; lia).
  - apply lt_ge; (done || lia).
  - replace (2 * i + 2) with (2 * i + 1 + 1) by lia. apply Hrefl. lia.
  - unfold ge. by replace (2 * i + 2) with (2 * i + 1 + 1) by lia.
Qed.

Lemma down_inv_swap n i j l :
  Forall P l → n ≤ length l → small_child n i l j →
  less (l !!! j) (l !!! i) = true → down_inv n i l →
  down_inv n j (swap l i j).
Proof.
  intros HP Hn (Hj & Hj0 & Hpj & Hsm) Hlt [I1 I2].
  pose proof (parent_lt j Hj0) as Hij. rewrite Hpj in Hij.
  split; intros k Hk Hpk; pose proof (parent_lt k ltac:(lia)) as Hplt;
    [|intros _]; unfold ge; rewrite !lookup_total_swap by lia.
  - destruct (decide (k = i)) as [->|Hki].
    { rewrite (decide_False (P := parent i = i)) by lia.
      rewrite (decide_False (P := parent i = j)) by lia.
      apply I2; (done || lia). }
    destruct (decide (k = j)) as [->|Hkj].
    { rewrite decide_True by done. apply lt_ge; (done || lia). }
    destruct (decide (parent k = i)); [by apply Hsm|].
    rewrite decide_False by done. by apply I1.
  - rewrite (decide_False (P := k = i)) by lia.
    rewrite (decide_False (P := k = j)) by lia.
    rewrite (decide_True (P := parent j = i)) by done.
    rewrite <-Hpk. apply I1; lia.
Qed.

Lemma down_go_spec fuel h i n :
  n ≤ fuel + i → i < n → n ≤ hLen h → Forall P (hvals h) →
  down_inv n i (hvals h) →
  heap_prefix n (hvals (down_go fuel h i n).1) ∧
  hvals (down_go fuel h i n).1 ≡ₚ hvals h ∧
  (∀ k, n ≤ k → hvals (down_go fuel h i n).1 !! k = hvals h !! k) ∧
  (i ≤ (down_go fuel h i n).2).
Proof.
  revert h i. induction fuel as [|fuel IH]; intros h i Hf Hi Hn HP Hinv; [lia|].
  cbn [down_go].
  destruct (bool_decide_reflect (n ≤ 2 * i + 1)) as [Hlt|Hlt].
  { split; [|done]. intros k Hk. apply Hinv; [done|].
    intros Hp%parent_children; lia. }
  pose proof (down_select n i h ltac:(lia) Hn HP) as Hsm.
  cbv zeta.
  generalize dependent (if bool_decide (2 * i + 1 + 1 < n) &&
      hLess h (2 * i + 1 + 1) (2 * i + 1) then 2 * i + 1 + 1 else 2 * i + 1).
  intros j Hsm. pose proof Hsm as (Hj & Hj0 & Hpj & Hmin).
  pose proof (parent_lt j Hj0) as Hij. rewrite Hpj in Hij.
  rewrite hvals_len in Hn.
  rewrite (hvals_less (less := less)), less_at_total by lia.
  destruct (less _ _) eqn:E; simpl.
  - pose proof (down_inv_swap n i j _ HP Hn Hsm E Hinv) as Hinv'.
    assert (hvals (hSwap h i j) = swap (hvals h) i j) as Hs
      by (apply hvals_swap; rewrite hvals_len; lia).
    destruct (IH (hSwap h i j) j) as (R1 & R2 & R3 & R4);
      rewrite ?hvals_len, ?Hs, ?swap_length; try (done || lia).
    { rewrite swap_perm by lia. done. }
    rewrite Hs in R2, R3. split; [done|].
    split; [rewrite R2; apply swap_perm; lia|]. split; [|lia].
    intros k Hk. rewrite R3 by done. rewrite lookup_swap by lia.
    rewrite !decide_False by lia. done.
  - split; [|done]. intros k Hk. destruct (decide (parent k = i)) as [Hp|Hp].
    + unfold ge. rewrite Hp. apply (ge_trans _ k j i); try (done || lia).
      by apply Hmin.
    + by apply Hinv.
Qed.

(** *** The exported operations *)
Lemma hvals_snoc h n : hLen h = S n → ∃ l x, hvals h = l ++ [x] ∧ length l = n.
Proof.
  rewrite hvals_len. intros Hl.
  destruct (hvals h) as [|x l _] using rev_ind; [done|].
  rewrite length_app in Hl. simpl in Hl. exists l, x. split; [done|lia].
Qed.

(** Removing the last element of a heap whose prefix is in order. *)
Lemma pop_last h n x :
  hLen h = S n → heap_prefix n (hvals h) → Forall P (hvals h) →
  hvals h !! n = Some x →
  ∃ h', hPop h = Some (x, h') ∧ heap_ok h' ∧ x :: hvals h' ≡ₚ hvals h.
Proof.
  intros Hn Hh HP Hx. destruct (hvals_snoc h n Hn) as (l & y & Hv & Hl).
  rewrite Hv in Hx. rewrite list_lookup_middle in Hx by done. simplify_eq.
  destruct (hvals_pop (less := less) h l x Hv) as (h' & -> & Hv').
  exists h'. split; [done|]. unfold heap_ok. rewrite hvals_len, Hv', Hv.
  rewrite Hv in Hh, HP. split.
  - apply Forall_app in HP as [HP _]. split; [|done].
    intros k Hk. pose proof (parent_lt k ltac:(lia)).
    specialize (Hh k Hk). unfold ge in Hh.
    by rewrite !lookup_total_app_l in Hh by lia.
  - apply Permutation_cons_append.
Qed.

Lemma heap_Push_spec h x :
  heap_ok h → P x →
  heap_ok (heap_Push h x) ∧ hvals (heap_Push h x) ≡ₚ x :: hvals h.
Proof.
  intros [Hh HP] Hx. unfold heap_Push. set (h1 := hPush h x).
  assert (hvals h1 = hvals h ++ [x]) as Hv by apply hvals_push.
  assert (hLen h1 = S (hLen h)) as Hl
    by (rewrite !hvals_len, Hv, length_app; simpl; lia).
  assert (Forall P (hvals h1)) as HP1.
  { rewrite Hv. apply Forall_app. split; [done|]. by constructor. }
  rewrite hvals_len in Hh.
  destruct (up_spec (hLen h1) h1 (hLen h1) (hLen h1 - 1)) as (R1 & R2 & _);
    [lia|lia|lia|done| |].
  { rewrite Hl, (hvals_len h). simpl. split.
    - intros k Hk Hne. pose proof (parent_lt k ltac:(lia)). unfold ge.
      rewrite Hv, !lookup_total_app_l by lia. apply Hh. lia.
    - intros k Hk Hpk. pose proof (parent_lt k ltac:(lia)). lia. }
  assert (hvals (up (hLen h1) h1 (hLen h1 - 1)) ≡ₚ x :: hvals h) as Hp.
  { rewrite R2, Hv. symmetry. apply Permutation_cons_append. }
  split; [|done]. split.
  - rewrite hvals_len, (Permutation_length R2), <-hvals_len. done.
  - rewrite Hp. by constructor.
Qed.

Lemma heap_Pop_spec h :
  heap_ok h → hvals h ≠ [] →
  ∃ x h', heap_Pop h = Some (x, h') ∧ heap_ok h' ∧
    hvals h !! 0 = Some x ∧ x :: hvals h' ≡ₚ hvals h ∧
    Forall (λ y, less y x = false) (hvals h).
Proof.
  intros [Hh HP] Hne. unfold heap_Pop.
  destruct (hLen h) as [|n] eqn:Hn.
  { rewrite hvals_len in Hn. by apply nil_length_inv in Hn. }
  assert (length (hvals h) = S n) as Hlen by (by rewrite <-hvals_len).
  assert (hvals (hSwap h 0 n) = swap (hvals h) 0 n) as Hs
    by (apply hvals_swap; lia).
  assert (swap (hvals h) 0 n ≡ₚ hvals h) as Hsp by (apply swap_perm; lia).
  set (x := hvals h !!! 0).
  assert (hvals h !! 0 = Some x) as Hx by (apply list_lookup_lookup_total_lt; lia).
  assert (heap_prefix n (hvals (down (hSwap h 0 n) 0 n).1) ∧
    hvals (down (hSwap h 0 n) 0 n).1 ≡ₚ hvals h ∧
    hvals (down (hSwap h 0 n) 0 n).1 !! n = Some x) as (R1 & R2 & R3).
  { unfold down. destruct (decide (n = 0)) as [->|Hn0].
    - simpl. rewrite Hs. split; [intros k Hk; lia|]. split; [done|].
      rewrite lookup_swap by lia. by rewrite decide_True.
    - destruct (down_go_spec n (hSwap h 0 n) 0 n) as (R1 & R2 & R3 & _);
        rewrite ?hvals_len, ?Hs, ?swap_length; try lia.
      + by rewrite Hsp.
      + split; [|intros; lia]. intros k Hk Hpk.
        pose proof (parent_lt k ltac:(lia)). unfold ge.
        rewrite !lookup_total_swap by lia.
        rewrite !decide_False by lia. apply Hh. lia.
      + destruct (down_go _ _ _ _) as [h1 i1]. simpl in *.
        split; [done|]. split; [by rewrite R2, Hs|].
        rewrite R3, Hs by lia. rewrite lookup_swap by lia.
        rewrite decide_False by lia. by rewrite decide_True. }
  destruct (pop_last (down (hSwap h 0 n) 0 n).1 n x) as (h' & -> & Hok & Hp).
  { by rewrite hvals_len, (Permutation_length R2). } { done. } { by rewrite R2. } { done. }
  exists x, h'. split; [done|]. split; [done|]. split; [done|].
  split; [by rewrite Hp, R2|].
  apply Forall_lookup. intros k y Hk.
  apply list_lookup_total_correct in Hk as Hky. subst y.
  apply lookup_lt_Some in Hk.
  by apply (heap_root_min (S n)); [done|lia| |lia].
Qed.

(** After the element at [i] was replaced by an arbitrary one, sifting it
    down and, if it did not move, up, restores the order. *)
Lemma fix_spec h n i :
  i < n → hLen h = S n → Forall P (hvals h) →
  (∀ k, 0 < k < n → k ≠ i → parent k ≠ i → ge (hvals h) k (parent k)) →
  (∀ k, 0 < k < n → parent k = i → 0 < i → ge (hvals h) k (parent i)) →
  let '(h1, moved) := down h i n in
  let h2 := if moved then h1 else up (hLen h1) h1 i in
  heap_prefix n (hvals h2) ∧ hvals h2 ≡ₚ hvals h ∧ hvals h2 !! n = hvals h !! n.
Proof.
  intros Hi Hn HP I1 I2. assert (length (hvals h) = S n) as Hl by (by rewrite <-hvals_len).
  destruct (decide (0 < i ∧ less (hvals h !!! i) (hvals h !!! parent i) = true))
    as [[Hi0 Hlt]|Hge].
  - (* smaller than its parent: the sift-down stops at once *)
    pose proof (parent_lt i Hi0) as Hpi.
    assert (∀ k, 0 < k < n → parent k = i → ge (hvals h) k i) as Hch.
    { intros k Hk Hp. apply (ge_trans _ k (parent i) i); try (done || lia).
      - by apply I2.
      - apply lt_ge; (done || lia). }
    assert (down h i n = (h, false)) as ->.
    { unfold down. destruct n as [|n']; [lia|]. cbn [down_go].
      destruct (bool_decide_reflect (S n' ≤ 2 * i + 1)) as [|Hlt'].
      { by rewrite bool_decide_eq_false_2 by lia. }
      pose proof (down_select (S n') i h ltac:(lia) ltac:(lia) HP) as Hsm.
      cbv zeta.
      generalize dependent (if bool_decide (2 * i + 1 + 1 < S n') &&
        hLess h (2 * i + 1 + 1) (2 * i + 1) then 2 * i + 1 + 1 else 2 * i + 1).
      intros j (Hj & Hj0 & Hpj & _).
      rewrite (hvals_less (less := less)), less_at_total by lia.
      rewrite (Hch j) by (done || lia). simpl.
      by rewrite bool_decide_eq_false_2 by lia. }
    destruct (up_spec (hLen h) h n i) as (R1 & R2 & R3); try (done || lia); [|auto].
    split; [|done]. intros k Hk Hne.
    destruct (decide (parent k = i)) as [Hp|]; [|by apply I1].
    unfold ge. rewrite Hp. by apply Hch.
  - assert (down_inv n i (hvals h)) as Hinv.
    { split; [|done]. intros k Hk Hp. destruct (decide (k = i)) as [->|]; [|by apply I1].
      unfold ge. apply not_true_iff_false. intros E. apply Hge. split; [lia|done]. }
    destruct (down_go_spec n h i n) as (R1 & R2 & R3 & R4); try (done || lia).
    unfold down. destruct (down_go n h i n) as [h1 i1]. simpl in *.
    destruct (bool_decide_reflect (i < i1)); [auto|].
    assert (hLen h1 = S n) as Hn1 by (by rewrite hvals_len, (Permutation_length R2)).
    destruct (up_spec (hLen h1) h1 n i) as (S1 & S2 & S3); try (done || lia).
    { by rewrite R2. }
    { split; [intros; by apply R1|]. intros k Hk Hp Hi0.
      pose proof (parent_lt i Hi0). rewrite hvals_len in Hn1.
      apply (ge_trans _ k i (parent i)); [by rewrite R2|lia..| |].
      - rewrite <-Hp. by apply R1.
      - apply R1. lia. }
    split; [done|]. split; [by rewrite S2|]. by rewrite S3, R3.
Qed.

Lemma heap_Remove_spec h i x :
  heap_ok h → hvals h !! i = Some x →
  ∃ h', heap_Remove h i = Some (x, h') ∧ heap_ok h' ∧ x :: hvals h' ≡ₚ hvals h.
Proof.
  intros [Hh HP] Hx. assert (Hi := lookup_lt_Some _ _ _ Hx).
  assert (length (hvals h) = hLen h) as Hlen by (by rewrite <-hvals_len).
  unfold heap_Remove. rewrite bool_decide_eq_false_2 by lia.
  destruct (hLen h) as [|n] eqn:Hn; [lia|]. replace (S n - 1) with n by lia.
  destruct (bool_decide_reflect (n = i)) as [->|Hne].
  { apply (pop_last h i x); try done. intros k Hk. apply Hh. lia. }
  assert (hvals (hSwap h i n) = swap (hvals h) i n) as Hs by (apply hvals_swap; lia).
  assert (swap (hvals h) i n ≡ₚ hvals h) as Hsp by (apply swap_perm; lia).
  pose proof (fix_spec (hSwap h i n) n i) as Hfix.
  destruct (down (hSwap h i n) i n) as [h1 moved].
  destruct Hfix as (R1 & R2 & R3).
  { lia. }
  { rewrite hvals_len, Hs, swap_length. done. }
  { by rewrite Hs, Hsp. }
  { intros k Hk Hki Hp. rewrite Hs. pose proof (parent_lt k ltac:(lia)).
    unfold ge. rewrite !lookup_total_swap by lia.
    rewrite !decide_False by lia. apply Hh. lia. }
  { intros k Hk Hp Hi0. rewrite Hs. pose proof (parent_lt k ltac:(lia)).
    pose proof (parent_lt i Hi0). unfold ge. rewrite !lookup_total_swap by lia.
    rewrite !decide_False by lia.
    apply (ge_trans _ k i (parent i)); try (done || lia).
    - rewrite <-Hp. apply Hh. lia.
    - apply Hh. lia. }
  rewrite Hs in R2, R3. rewrite lookup_swap in R3 by lia.
  rewrite decide_False, decide_True, Hx in R3 by lia.
  edestruct (pop_last (if moved then h1 else up (hLen h1) h1 i) n x)
    as (h' & Hp & Hok & Hperm); [|exact R1| |exact R3|].
  { by rewrite hvals_len, (Permutation_length R2), swap_length. }
  { by rewrite R2, Hsp. }
  exists h'. split; [exact Hp|]. split; [done|]. by rewrite Hperm, R2, Hsp.
Qed.
End HeapOrder.

(** ** Properties that the interface's operations keep

    Used for the [index] fields of the queue items. *)
Section Preserve.
Context {H B : Type} `{HeapInterface H B} (Q : H → Prop).
Hypothesis Q_swap : ∀ h i j, Q h → Q (hSwap h i j).
Hypothesis Q_push : ∀ h x, Q h → Q (hPush h x).
Hypothesis Q_pop : ∀ h x h', Q h → hPop h = Some (x, h') → Q h'.

Lemma up_preserves fuel h j : Q h → Q (up fuel h j).
Proof.
  revert h j. induction fuel as [|fuel IH]; intros h j Hq; simpl; [done|].
  destruct (_ || _); auto.
Qed.

Lemma down_preserves h i n : Q h → Q (down h i n).1.
Proof.
  intros Hq. unfold down.
  assert (∀ fuel h i, Q h → Q (down_go fuel h i n).1) as Hgo.
  { clear h i Hq. induction fuel as [|fuel IH]; intros h i Hq; simpl; [done|].
    destruct (bool_decide _); [done|]. destruct (negb _); auto. }
  specialize (Hgo n h i Hq). by destruct (down_go n h i n).
Qed.

Lemma heap_Push_preserves h x : Q h → Q (heap_Push h x).
Proof. intros Hq. apply up_preserves. auto. Qed.

Lemma heap_Pop_preserves h x h' : Q h → heap_Pop h = Some (x, h') → Q h'.
Proof.
  unfold heap_Pop. destruct (hLen h); [done|]. intros Hq. apply Q_pop. apply down_preserves. auto.
Qed.

Lemma heap_Remove_preserves h i x h' : Q h → heap_Remove h i = Some (x, h') → Q h'.
Proof.
  unfold heap_Remove. intros Hq. destruct (bool_decide _); [done|].
  destruct (bool_decide _); [by apply Q_pop|].
  pose proof (down_preserves (hSwap h i (hLen h - 1)) i (hLen h - 1) (Q_swap _ _ _ Hq)) as Hd.
  destruct (down _ _ _) as [h1 moved]. apply Q_pop. destruct moved; [done|]. by apply up_preserves.
Qed.
End Preserve.
