(* ===== verification/GoStrings.v ===== *)
(** * Go strings

    The functions of packages [strings] and [strconv] the program calls:
    [Join], [Split], [Contains], [Itoa].  Paths travel through the candidate
    queue of the path search as strings joined with ["->"], so the round trip
    of [Split] and [Join] matters: it holds for hop names that do not contain
    the separator. *)
From stdpp Require Export pretty.
From S2P Require Import Prelude.
Local Open Scope string_scope.

Fixpoint Join (l : list string) (sep : string) : string :=
  match l with
  | [] => ""
  | [x] => x
  | x :: l' => x ++ sep ++ Join l' sep
  end.

(** [Split] scans for the separator from the left; [skip] characters of a
    matched separator are still to be consumed. *)
Fixpoint split_go (sep : string) (skip : nat) (cur s : string) : list string :=
  match s with
  | EmptyString => [cur]
  | String c s' =>
      match skip with
      | S k => split_go sep k cur s'
      | 0 =>
          if String.prefix sep s
          then cur :: split_go sep (String.length sep - 1) "" s'
          else split_go sep 0 (cur ++ String c "") s'
      end
  end.

(** [strings.Split(s, sep)] for a non-empty separator. *)
Definition Split (s sep : string) : list string := split_go sep 0 "" s.

Fixpoint Contains (s sub : string) : bool :=
  String.prefix sub s ||
  match s with
  | EmptyString => false
  | String _ s' => Contains s' sub
  end.

Definition Itoa (n : Z) : string := pretty n.

Lemma string_app_assoc (a b c : string) : a ++ b ++ c = (a ++ b) ++ c.
Proof. induction a as [|x a IH]; [done|]. exact (f_equal (String x) IH). Qed.

Lemma string_app_nil_r (a : string) : a ++ "" = a.
Proof. induction a as [|x a IH]; [done|]. exact (f_equal (String x) IH). Qed.

Definition arrow_free (s : string) : bool := negb (Contains s "->").

Lemma arrow_free_cons c s :
  arrow_free (String c s) = true →
  arrow_free s = true ∧ String.prefix "->" (String c s) = false.
Proof.
  unfold arrow_free. cbn [Contains].
  rewrite negb_true_iff, orb_false_iff. intros [H1 H2]. by rewrite H2.
Qed.

Lemma prefix_arrow_app c s rest :
  String.prefix "->" (String c s) = false →
  String.prefix "->" (String c (s ++ "->" ++ rest)) = false.
Proof.
  cbn [String.prefix]. destruct (Ascii.ascii_dec _ c); [|done].
  destruct s as [|d s]; [done|].
  change (String d s ++ "->" ++ rest) with (String d (s ++ "->" ++ rest)).
  cbn [String.prefix]. destruct (Ascii.ascii_dec _ d); [by destruct s|done].
Qed.

Lemma split_go_arrow cur s rest :
  arrow_free s = true →
  split_go "->" 0 cur (s ++ "->" ++ rest) = (cur ++ s) :: split_go "->" 0 "" rest.
Proof.
  revert cur. induction s as [|c s IH]; intros cur Hs.
  { rewrite string_app_nil_r. by destruct rest. }
  apply arrow_free_cons in Hs as [Hs Hp].
  change (String c s ++ "->" ++ rest) with (String c (s ++ "->" ++ rest)).
  cbn [split_go]. rewrite prefix_arrow_app by done.
  rewrite IH by done. by rewrite <-string_app_assoc.
Qed.

Lemma split_go_last cur s :
  arrow_free s = true → split_go "->" 0 cur s = [cur ++ s].
Proof.
  revert cur. induction s as [|c s IH]; intros cur Hs.
  { simpl. by rewrite string_app_nil_r. }
  apply arrow_free_cons in Hs as [Hs Hp].
  cbn [split_go]. rewrite Hp, IH by done. by rewrite <-string_app_assoc.
Qed.

Lemma Split_Join_arrow l :
  l ≠ [] → Forall (λ s, arrow_free s = true) l → Split (Join l "->") "->" = l.
Proof.
  intros Hne Hl. unfold Split. induction l as [|x l IH]; [done|].
  apply Forall_cons in Hl as [Hx Hl]. destruct l as [|y l].
  { simpl. by apply split_go_last. }
  change (Join (x :: y :: l) "->") with (x ++ "->" ++ Join (y :: l) "->").
  rewrite split_go_arrow by done. simpl. f_equal. by apply IH.
Qed.

(** Distinct paths have distinct keys. *)
Lemma Join_arrow_inj l1 l2 :
  l1 ≠ [] → l2 ≠ [] →
  Forall (λ s, arrow_free s = true) l1 → Forall (λ s, arrow_free s = true) l2 →
  Join l1 "->" = Join l2 "->" → l1 = l2.
Proof.
  intros N1 N2 F1 F2 E. rewrite <-(Split_Join_arrow l1), E by done.
  by apply Split_Join_arrow.
Qed.

(** ** Characters *)
Fixpoint all_chars (P : Ascii.ascii → bool) (s : string) : bool :=
  match s with EmptyString => true | String c s => P c && all_chars P s end.

Lemma all_chars_app P a b : all_chars P (a +:+ b) = all_chars P a && all_chars P b.
Proof. induction a as [|c a IH]; simpl; [done|]. by rewrite IH, andb_assoc. Qed.

Lemma all_chars_impl (P Q : Ascii.ascii → bool) s : (∀ c, P c = true → Q c = true) →
  all_chars P s = true → all_chars Q s = true.
Proof. intros H. induction s as [|c s IH]; [done|]. cbn [all_chars]. intros [? ?]%andb_true_iff. apply andb_true_iff. auto. Qed.
