(* ===== verification/Web.v ===== *)
(** * The HTTP interfaces of the three programs

    Each program serves a few routes with gin: the control plane
    ([control-plane/api] and [main.go]), the node ([data-plane/main.go]) and the
    proxy ([data-proxy/main.go], [server/server-manager.go]).  The router is a
    library: [Gin] states what the programs rely on, and the theorems hold for
    any router with these laws.  The query part of a URL is the one of
    [net/url]. *)
From Stdlib Require Import Ascii.
From S2P Require Import Prelude GoStrings.
Local Open Scope Z_scope.
Local Open Scope go_scope.

(** ** [net/url]: queries *)
Definition between (lo hi : N) (c : ascii) : bool :=
  bool_decide (lo ≤ N_of_ascii c)%N && bool_decide (N_of_ascii c ≤ hi)%N.

(** [shouldEscape] in the mode [encodeQueryComponent], negated. *)
Definition unreserved (c : ascii) : bool :=
  between 97 122 c || between 65 90 c || between 48 57 c ||
  bool_decide (c ∈ ["-"; "_"; "."; "~"]%char).

Definition upperhex (n : N) : ascii := ascii_of_N (if bool_decide (n < 10)%N then 48 + n else 55 + n).

Definition unhex (c : ascii) : option N :=
  if between 48 57 c then Some (N_of_ascii c - 48)%N
  else if between 97 102 c then Some (N_of_ascii c - 87)%N
  else if between 65 70 c then Some (N_of_ascii c - 55)%N
  else None.

Fixpoint QueryEscape (s : string) : string :=
  match s with
  | EmptyString => ""
  | String c s' =>
      if unreserved c then String c (QueryEscape s')
      else if bool_decide (c = " "%char) then String "+" (QueryEscape s')
      else String "%" (String (upperhex (N_of_ascii c / 16)) (String (upperhex (N_of_ascii c mod 16)) (QueryEscape s')))
  end.

(** [None] is an [EscapeError]. *)
Fixpoint QueryUnescape (s : string) : option string :=
  match s with
  | EmptyString => Some ""
  | String c s' =>
      if bool_decide (c = "%"%char) then
        match s' with
        | String h (String l s'') =>
            match unhex h, unhex l with
            | Some h, Some l => String (ascii_of_N (h * 16 + l)) <$> QueryUnescape s''
            | _, _ => None
            end
        | _ => None
        end
      else String (if bool_decide (c = "+"%char) then " "%char else c) <$> QueryUnescape s'
  end.

(** [strings.Cut]; without the separator all is before it. *)
Fixpoint Cut (sep : ascii) (s : string) : string * string :=
  match s with
  | EmptyString => ("", "")
  | String c s' =>
      if bool_decide (c = sep) then ("", s')
      else let '(before, after) := Cut sep s' in (String c before, after)
  end.

Fixpoint pieces (sep : ascii) (s : string) : list string :=
  match s with
  | EmptyString => [""]
  | String c s' =>
      if bool_decide (c = sep) then "" :: pieces sep s'
      else match pieces sep s' with [] => [String c ""] | p :: ps => String c p :: ps end
  end.

(** One turn of the loop of [url.ParseQuery]; a pair that is refused is left
    out, and the router ignores the error. *)
Definition parse_pair (piece : string) : option (string * string) :=
  if negb (all_chars (λ c, negb (bool_decide (c = ";"%char))) piece) then None
  else if bool_decide (piece = "") then None
  else
    let '(key, value) := Cut "=" piece in
    key ← QueryUnescape key;
    value ← QueryUnescape value;
    Some (key, value).

Definition ParseQuery (query : string) : list (string * string) := omap parse_pair (pieces "&" query).

(** [c.Query(key)]: the first value, or the empty string. *)
Definition Query (query key : string) : string :=
  from_option snd "" (List.find (λ kv, bool_decide (kv.1 = key)) (ParseQuery query)).

(** ** The round trip *)
Definition query_safe (c : ascii) : bool := unreserved c || bool_decide (c ∈ ["%"; "+"]%char).

Definition escape_ok (n : nat) : bool :=
  let c := ascii_of_N (N.of_nat n) in
  let h := upperhex (N_of_ascii c / 16) in
  let l := upperhex (N_of_ascii c mod 16) in
  unreserved h && unreserved l &&
  (if unreserved c then negb (bool_decide (c = "%"%char)) && negb (bool_decide (c = "+"%char))
   else bool_decide (unhex h = Some (N_of_ascii c / 16)%N) && bool_decide (unhex l = Some (N_of_ascii c mod 16)%N)) &&
  bool_decide (N_of_ascii c / 16 * 16 + N_of_ascii c mod 16 = N_of_ascii c)%N.

Lemma escapes_ok : forallb escape_ok (seq 0 256) = true.
Proof. vm_compute. reflexivity. Qed.

Lemma char_escape_ok c : escape_ok (N.to_nat (N_of_ascii c)) = true.
Proof.
  pose proof escapes_ok as H. rewrite forallb_forall in H. apply H, in_seq.
  pose proof (N_ascii_bounded c). lia.
Qed.

Lemma char_escape c :
  unreserved (upperhex (N_of_ascii c / 16)) = true ∧ unreserved (upperhex (N_of_ascii c mod 16)) = true ∧
  (unreserved c = true → c ≠ "%"%char ∧ c ≠ "+"%char) ∧
  (unreserved c = false → unhex (upperhex (N_of_ascii c / 16)) = Some (N_of_ascii c / 16)%N ∧
     unhex (upperhex (N_of_ascii c mod 16)) = Some (N_of_ascii c mod 16)%N) ∧
  ascii_of_N (N_of_ascii c / 16 * 16 + N_of_ascii c mod 16) = c.
Proof.
  pose proof (char_escape_ok c) as H. unfold escape_ok in H. rewrite N2Nat.id, ascii_N_embedding in H.
  cbv zeta in H. bool_simp. split_and!; [done|done| | |].
  - intros E. rewrite E in *. bool_simp. done.
  - intros E. rewrite E in *. bool_simp. done.
  - match goal with E : (_ * 16 + _ = _)%N |- _ => rewrite E end. apply ascii_N_embedding.
Qed.

Lemma unreserved_safe c : unreserved c = true → query_safe c = true.
Proof. unfold query_safe. by intros ->. Qed.

Lemma QueryEscape_safe s : all_chars query_safe (QueryEscape s) = true.
Proof.
  induction s as [|c s IH]; [done|]. destruct (char_escape c) as (H1%unreserved_safe & H2%unreserved_safe & _).
  cbn [QueryEscape]. destruct (unreserved c) eqn:Hc; [|case_bool_decide]; cbn [all_chars].
  - by rewrite (unreserved_safe c Hc), IH.
  - by rewrite IH.
  - by rewrite H1, H2, IH.
Qed.

Lemma Unescape_Escape s : QueryUnescape (QueryEscape s) = Some s.
Proof.
  induction s as [|c s IH]; [done|]. destruct (char_escape c) as (_ & _ & H3 & H4 & H5).
  cbn [QueryEscape]. destruct (unreserved c) eqn:Hc; [|case_bool_decide as Hs].
  - destruct (H3 eq_refl). cbn [QueryUnescape]. by rewrite !bool_decide_eq_false_2, IH.
  - subst c. cbn [QueryUnescape]. rewrite bool_decide_eq_false_2 by done.
    by rewrite bool_decide_eq_true_2, IH.
  - destruct (H4 eq_refl) as [Hh Hl]. cbn [QueryUnescape]. rewrite bool_decide_eq_true_2 by done.
    by rewrite Hh, Hl, H5, IH.
Qed.

Definition without (sep c : ascii) : bool := negb (bool_decide (c = sep)).

Lemma pieces_one sep s : all_chars (without sep) s = true → pieces sep s = [s].
Proof.
  induction s as [|c s IH]; [done|]. cbn [all_chars pieces]. intros [Hc Hs]%andb_true_iff.
  unfold without in Hc. bool_simp. by rewrite bool_decide_eq_false_2, IH.
Qed.

Lemma pieces_app sep a b : all_chars (without sep) a = true → pieces sep (a +:+ String sep b) = a :: pieces sep b.
Proof.
  induction a as [|c a IH]; [intros _; change ("" +:+ String sep b) with (String sep b)
    |change (String c a +:+ String sep b) with (String c (a +:+ String sep b))];
    cbn [pieces]; [by rewrite bool_decide_eq_true_2|].
  cbn [all_chars]. intros [Hc Hs]%andb_true_iff. unfold without in Hc. bool_simp.
  by rewrite bool_decide_eq_false_2, IH.
Qed.

Lemma Cut_app sep a b : all_chars (without sep) a = true → Cut sep (a +:+ String sep b) = (a, b).
Proof.
  induction a as [|c a IH]; [intros _; change ("" +:+ String sep b) with (String sep b)
    |change (String c a +:+ String sep b) with (String c (a +:+ String sep b))];
    cbn [Cut]; [by rewrite bool_decide_eq_true_2|].
  cbn [all_chars]. intros [Hc Hs]%andb_true_iff. unfold without in Hc. bool_simp.
  by rewrite bool_decide_eq_false_2, IH.
Qed.

Lemma safe_without sep s : query_safe sep = false → all_chars query_safe s = true →
  all_chars (without sep) s = true.
Proof.
  intros Hsep. apply all_chars_impl. intros c Hc. unfold without. rewrite bool_decide_eq_false_2; [done|].
  intros ->. congruence.
Qed.

Lemma Unescape_unreserved s : all_chars unreserved s = true → QueryUnescape s = Some s.
Proof.
  induction s as [|c s IH]; [done|]. cbn [all_chars QueryUnescape]. intros [Hc Hs]%andb_true_iff.
  destruct (char_escape c) as (_ & _ & H & _). destruct (H Hc). by rewrite !bool_decide_eq_false_2, IH.
Qed.

(** The value of a parameter arrives as it was, whatever it consists of. *)
Lemma Query_QueryEscape key value : key ≠ "" → all_chars unreserved key = true →
  Query (key +:+ "=" +:+ QueryEscape value) key = value.
Proof.
  intros Hne Hk. assert (all_chars query_safe key = true) as Hks by (revert Hk; apply all_chars_impl, unreserved_safe).
  pose proof (QueryEscape_safe value) as Hv.
  assert (∀ sep, query_safe sep = false → without sep "="%char = true →
    all_chars (without sep) (key +:+ "=" +:+ QueryEscape value) = true) as Hw.
  { intros sep Hsep He. rewrite !all_chars_app, (safe_without sep key), (safe_without sep (QueryEscape _)) by done.
    cbn [all_chars]. by rewrite He. }
  unfold Query, ParseQuery. rewrite pieces_one by by apply Hw. cbn [omap list_omap].
  unfold parse_pair. change (λ c, negb (bool_decide (c = ";"%char))) with (without ";"%char).
  rewrite Hw by done. cbn [negb]. rewrite bool_decide_eq_false_2 by by destruct key.
  change ("=" +:+ QueryEscape value) with (String "=" (QueryEscape value)).
  rewrite Cut_app by by apply safe_without.
  rewrite (Unescape_unreserved key), Unescape_Escape by done. cbn. by rewrite bool_decide_eq_true_2.
Qed.

Lemma QueryEscape_unreserved s : all_chars unreserved s = true → QueryEscape s = s.
Proof.
  induction s as [|c s IH]; [done|]. cbn [all_chars QueryEscape]. intros [Hc Hs]%andb_true_iff.
  by rewrite Hc, IH.
Qed.

(** ** The router

    [gin_handle method path h] is [router.GET(path, h)] and the like;
    [gin_serve] is the handler a request is given to, if any. *)
Class Gin (H : Type) := {
  gin_engine : Type;
  gin_default : gin_engine;
  gin_handle : string → string → H → gin_engine → go gin_engine;
  gin_serve : gin_engine → string → string → option H;
}.

(** A path without parameters and wildcards. *)
Definition static_path (p : string) : bool := all_chars (λ c, negb (bool_decide (c ∈ [":"; "*"]%char))) p.

(** What the documentation promises: a new static route is accepted, requests
    for it reach its handler, and the other routes stay as they are. *)
Class GinLaws (H : Type) `{Gin H} : Prop := {
  gin_serve_default m p : gin_serve gin_default m p = None;
  gin_serve_handle m p h e : static_path p = true → gin_serve e m p = None →
    ∃ e', gin_handle m p h e = Ret e' ∧ gin_serve e' m p = Some h ∧
      ∀ m' p', (m', p') ≠ (m, p) → gin_serve e' m' p' = gin_serve e m' p';
}.

(** [router.Group] *)
Definition Group (base relative : string) : string := base +:+ relative.

Definition table (H : Type) : Type := list (string * string * H).

Definition find_route {H} (t : table H) (m p : string) : option H :=
  snd <$> List.find (λ r, bool_decide (r.1 = (m, p))) t.

Section Tables.
Context {H : Type} `{GL : GinLaws H}.

Definition serves (e : gin_engine) (t : table H) : Prop := ∀ m p, gin_serve e m p = find_route t m p.

Lemma serves_default : serves gin_default [].
Proof. intros m p. apply gin_serve_default. Qed.

Lemma find_route_snoc (t : table H) m p h m' p' :
  find_route (t ++ [(m, p, h)]) m' p' =
    match find_route t m' p' with
    | Some h' => Some h'
    | None => if bool_decide ((m, p) = (m', p')) then Some h else None
    end.
Proof.
  unfold find_route. induction t as [|r t IH]; [cbn; by case_bool_decide|].
  cbn [app List.find]. destruct (bool_decide (r.1 = _)); [done|exact IH].
Qed.

(** One more route. *)
Lemma serves_handle e t m p h : serves e t → static_path p = true → find_route t m p = None →
  ∃ e', gin_handle m p h e = Ret e' ∧ serves e' (t ++ [(m, p, h)]).
Proof.
  intros Hs Hp Hn. destruct (gin_serve_handle m p h e Hp) as (e' & E & Hnew & Hold); [by rewrite Hs|].
  exists e'. split; [done|]. intros m' p'. rewrite find_route_snoc. case_bool_decide as Hmp.
  - injection Hmp as -> ->. by rewrite Hn, Hnew.
  - rewrite Hold, Hs by congruence. by destruct (find_route t m' p').
Qed.
End Tables.

(** ** The control plane *)
Inductive control_handler :=
| ControlHealth | GetProbeTasks_ | PostVMReceive_ | PostLastReceive_
| GetMiddleRoute_ | GetMiddleRouteMulti_ | GetLastRoute_.

Section Control.
Context `{G : Gin control_handler}.

Definition InitNodeProbeRouter (router : gin_engine) : go gin_engine :=
  let apiV1 := Group "" "/api/v1" in
  let probeGroup := Group apiV1 "/probe" in
  gin_handle "GET" (Group probeGroup "/tasks") GetProbeTasks_ router.

Definition InitVmReceiveAPIRouter (router : gin_engine) : go gin_engine :=
  let apiV1 := Group "" "/api/v1" in
  let vmGroup := Group apiV1 "/vm" in
  gin_handle "POST" (Group vmGroup "/receive") PostVMReceive_ router.

Definition InitLastReceiveAPIRouter (router : gin_engine) : go gin_engine :=
  let apiV1 := Group "" "/api/v1" in
  gin_handle "POST" (Group apiV1 "/last/receive") PostLastReceive_ router.

Definition InitUserRoutingRouter (router : gin_engine) : go gin_engine :=
  let apiV1 := Group "" "/api/v1" in
  let routingGroup := Group apiV1 "/routing" in
  let! router := gin_handle "POST" (Group routingGroup "/middle") GetMiddleRoute_ router in
  let! router := gin_handle "POST" (Group routingGroup "/middle/multi") GetMiddleRouteMulti_ router in
  gin_handle "POST" (Group routingGroup "/last") GetLastRoute_ router.

(** The routers in the order of [main]. *)
Definition control_router : go gin_engine :=
  let! router := gin_handle "GET" "/health" ControlHealth gin_default in
  let! router := InitNodeProbeRouter router in
  let! router := InitVmReceiveAPIRouter router in
  let! router := InitLastReceiveAPIRouter router in
  InitUserRoutingRouter router.
End Control.

Definition control_table : table control_handler :=
  [("GET", "/health", ControlHealth); ("GET", "/api/v1/probe/tasks", GetProbeTasks_);
   ("POST", "/api/v1/vm/receive", PostVMReceive_); ("POST", "/api/v1/last/receive", PostLastReceive_);
   ("POST", "/api/v1/routing/middle", GetMiddleRoute_);
   ("POST", "/api/v1/routing/middle/multi", GetMiddleRouteMulti_);
   ("POST", "/api/v1/routing/last", GetLastRoute_)].

(** ** The node *)
Inductive node_handler := NodeHealth | IPInfo_.

Definition node_router `{Gin node_handler} : go gin_engine :=
  let! router := gin_handle "GET" "/health" NodeHealth gin_default in
  let ipGroup := Group "" "/ip" in
  gin_handle "GET" (Group ipGroup "/info") IPInfo_ router.

Definition node_table : table node_handler := [("GET", "/health", NodeHealth); ("GET", "/ip/info", IPInfo_)].

(** ** The proxy *)
Inductive proxy_handler := ProxyHealth | StartServer_ | ListServers_ | StopServer_.

Section Proxy.
Context `{G : Gin proxy_handler}.

Definition ServerManager (r : gin_engine) : go gin_engine :=
  let! r := gin_handle "POST" "/tcp/start" StartServer_ r in
  let! r := gin_handle "GET" "/tcp/list" ListServers_ r in
  gin_handle "DELETE" "/tcp/stop" StopServer_ r.

Definition proxy_router : go gin_engine :=
  let! router := gin_handle "GET" "/health" ProxyHealth gin_default in
  ServerManager router.
End Proxy.

Definition proxy_table : table proxy_handler :=
  [("GET", "/health", ProxyHealth); ("POST", "/tcp/start", StartServer_); ("GET", "/tcp/list", ListServers_);
   ("DELETE", "/tcp/stop", StopServer_)].

(** Register the next route of a router. *)
Ltac next_route Hs :=
  match type of Hs with
  | serves ?e ?t =>
      match goal with
      | |- context [gin_handle ?m ?p ?h e] =>
          let e' := fresh "e" in let E' := fresh "E" in
          destruct (serves_handle e t m p h Hs) as (e' & E' & Hs');
            [vm_compute; reflexivity|vm_compute; reflexivity|]; rewrite E'; cbn [go_bind];
          clear Hs; rename Hs' into Hs
      end
  end.

Lemma control_router_serves `{GL : GinLaws control_handler} :
  ∃ e, control_router = Ret e ∧ serves e control_table.
Proof.
  pose proof serves_default as Hs.
  unfold control_router, InitNodeProbeRouter, InitVmReceiveAPIRouter, InitLastReceiveAPIRouter, InitUserRoutingRouter.
  do 7 next_route Hs. eexists. split; [reflexivity|exact Hs].
Qed.

Lemma node_router_serves `{GL : GinLaws node_handler} : ∃ e, node_router = Ret e ∧ serves e node_table.
Proof.
  pose proof serves_default as Hs. unfold node_router. do 2 next_route Hs. eexists. split; [reflexivity|exact Hs].
Qed.

Lemma proxy_router_serves `{GL : GinLaws proxy_handler} : ∃ e, proxy_router = Ret e ∧ serves e proxy_table.
Proof.
  pose proof serves_default as Hs. unfold proxy_router, ServerManager.
  do 4 next_route Hs. eexists. split; [reflexivity|exact Hs].
Qed.

(** ** The requests of the programs *)
Definition middleRoutingURL : string := "/api/v1/routing/middle".
Definition TaskURL : string := "/api/v1/probe/tasks".
Definition ReportURL : string := "/api/v1/vm/receive".
Definition lastReceiveURL : string := "/api/v1/last/receive".

(** [fmt.Sprintf("%s?ip=%s", host+url, ip)] *)
Definition request_url (host url ip : string) : string := (host +:+ url) +:+ "?ip=" +:+ ip.

Definition task_url (controlHost : string) : string := controlHost +:+ TaskURL.

(** The address service: [util.GetIPInfo] of the control plane. *)
Definition ip_info_url (ipLib ip : string) : string := ipLib +:+ "/ip/info?ip=" +:+ QueryEscape ip.

(** What arrives at the server of [host]: the path and the query. *)
Fixpoint after_prefix (pre s : string) : option string :=
  match pre, s with
  | EmptyString, _ => Some s
  | String a pre', String b s' => if bool_decide (a = b) then after_prefix pre' s' else None
  | _, _ => None
  end.

Definition url_target (host url : string) : option (string * string) := Cut "?" <$> after_prefix host url.

(** The handler that a request reaches, with the address it sees in the query. *)
Definition request_to {H} `{Gin H} (e : gin_engine) (host method url : string) : option (H * string) :=
  t ← url_target host url;
  h ← gin_serve e method t.1;
  Some (h, Query t.2 "ip").

Lemma after_prefix_app a b : after_prefix a (a +:+ b) = Some b.
Proof.
  induction a as [|c a IH]; [done|]. change (String c a +:+ b) with (String c (a +:+ b)).
  cbn [after_prefix]. by rewrite bool_decide_eq_true_2.
Qed.

Lemma url_target_query host path query : all_chars (without "?"%char) path = true →
  url_target host (host +:+ path +:+ "?" +:+ query) = Some (path, query).
Proof. intros Hp. unfold url_target. rewrite after_prefix_app. cbn [fmap option_fmap option_map].
  f_equal. exact (Cut_app "?" path query Hp).
Qed.

Lemma request_routed {H} `{GL : GinLaws H} e t host m path h ip : serves e t →
  all_chars (without "?"%char) path = true → find_route t m path = Some h →
  request_to e host m (host +:+ path +:+ "?" +:+ "ip" +:+ "=" +:+ QueryEscape ip) = Some (h, ip).
Proof.
  intros Hs Hp Hf. unfold request_to. rewrite url_target_query by done. cbn [mbind option_bind fst snd].
  rewrite Hs, Hf. cbn [mbind option_bind]. by rewrite Query_QueryEscape.
Qed.

(** The three programs agree on their interfaces. With any router that keeps its
    documented promises, registering the routes does not panic, and what each
    program serves is exactly its table; the requests that the proxy and the
    node send to the control plane reach the handlers they are meant for with
    the address of the sender, for every address without special characters;
    and a look-up of the control plane reaches the address service of the node
    with the very address that was asked for, whatever it consists of. *)
Theorem services_agree `{GC : GinLaws control_handler} `{GN : GinLaws node_handler}
    `{GP : GinLaws proxy_handler} :
  ∃ ec en ep, control_router = Ret ec ∧ node_router = Ret en ∧ proxy_router = Ret ep ∧
    serves ec control_table ∧ serves en node_table ∧ serves ep proxy_table ∧
    ∀ host ip,
      (all_chars unreserved ip = true →
         request_to ec host "POST" (request_url host middleRoutingURL ip) = Some (GetMiddleRoute_, ip) ∧
         request_to ec host "POST" (request_url host ReportURL ip) = Some (PostVMReceive_, ip) ∧
         request_to ec host "POST" (request_url host lastReceiveURL ip) = Some (PostLastReceive_, ip)) ∧
      request_to ec host "GET" (task_url host) = Some (GetProbeTasks_, "") ∧
      request_to en host "GET" (ip_info_url host ip) = Some (IPInfo_, ip).
Proof.
  destruct control_router_serves as (ec & Ec & Hc), node_router_serves as (en & En & Hn),
    proxy_router_serves as (ep & Ep & Hp).
  exists ec, en, ep. split_and!; [done..|]. intros host ip. split_and!.
  - intros Hip. rewrite <-(QueryEscape_unreserved ip Hip) at 1 3 5. unfold request_url.
    rewrite <-!string_app_assoc. split_and!; by eapply request_routed.
  - unfold request_to, task_url, url_target. rewrite after_prefix_app. cbn [fmap option_fmap option_map].
    change (Cut "?" TaskURL) with (TaskURL, ""). cbn [mbind option_bind fst snd]. by rewrite Hc.
  - by eapply (request_routed en node_table host "GET" "/ip/info").
Qed.

(** ** Instances of the theorems

    A router that keeps its routes in a list. *)
#[export] Instance list_gin H : Gin H := {|
  gin_engine := table H;
  gin_default := [];
  gin_handle m p h e :=
    match find_route e m p with
    | Some _ => Panic "handlers are already registered for path"
    | None => Ret (e ++ [(m, p, h)])
    end;
  gin_serve := find_route;
|}.

#[export] Instance list_gin_laws H : @GinLaws H (list_gin H).
Proof.
  split; [done|]. intros m p h e _ Hn. cbn in *. rewrite Hn. eexists. split; [done|]. split.
  - rewrite find_route_snoc, Hn. by rewrite bool_decide_eq_true_2.
  - intros m' p' Hne. rewrite find_route_snoc. rewrite bool_decide_eq_false_2 by congruence.
    by destruct (find_route e m' p').
Qed.

Lemma services_agree_witness :
  request_to (control_table : @gin_engine control_handler _) "http://127.0.0.1:7081" "POST"
    (request_url "http://127.0.0.1:7081" middleRoutingURL "10.0.0.7") = Some (GetMiddleRoute_, "10.0.0.7").
Proof.
  destruct (services_agree (GC := list_gin_laws _) (GN := list_gin_laws _) (GP := list_gin_laws _))
    as (ec & en & ep & Ec & _ & _ & _ & _ & _ & H).
  vm_compute in Ec. injection Ec as <-.
  apply (H "http://127.0.0.1:7081" "10.0.0.7"). vm_compute. reflexivity.
Defined.
