(* ===== verification/Records.v ===== *)
(** * Records exchanged between the planes

    The structs of [control-plane/receive-info], [control-plane/aggregator]
    and [control-plane/routing/routing] that the routing code reads. *)
From S2P Require Import Prelude Float64.

(** [receive_info.ProbeTask] *)
Record ProbeTask := {
  TargetType : string;
  pt_Provider : string;
  pt_IP : string;
  pt_Port : Z;
  Region : string;
  pt_ID : string;
}.

(** [receive_info.CPUInfo] *)
Record CPUInfo := {
  PhysicalCore : Z;
  LogicalCore : Z;
  Usage : float64;
  Load1Min : float64;
  LoadDelta : float64;
}.

(** [aggregator.LinkCongestion] (and [receive_info.LinkCongestion]) *)
Record LinkCongestion := {
  lk_TargetIP : string;
  lk_Target : ProbeTask;
  PacketLoss : float64;
  AverageLatency : float64;
}.

(** [aggregator.NodeTelemetry] *)
Record NodeTelemetry := {
  PublicIP : string;
  nt_Provider : string;
  nt_Continent : string;
  nt_Country : string;
  nt_City : string;
  CpuPressure : float64;
  Cpu : CPUInfo;
  LinksCongestion : gmap string LinkCongestion;
}.

(** [receive_info.LastCongestion] *)
Record LastCongestion := {
  Count : Z;
  SumRT : float64;
  AvgRT : float64;
  P95RT : Z;
}.

(** The zero value [LastCongestion{}]. *)
Definition zero_LastCongestion : LastCongestion :=
  {| Count := 0; SumRT := f0; AvgRT := f0; P95RT := 0 |}.

(** [receive_info.LastTelemetry]: the map holds pointers, and a JSON [null]
    decodes to a nil one. *)
Record LastTelemetry := {
  LastsCongestion : gmap string (option LastCongestion);
  lt_IP : string;
  lt_Continent : string;
  lt_Country : string;
  lt_City : string;
}.

(** [routing.PathInfo] *)
Record PathInfo := {
  Hops : list string;
  Rtt : float64;
  RawRTT : float64;
}.

(** [routing.RoutingInfo] and its zero value *)
Record RoutingInfo := { Routing_ : list PathInfo }.
Definition no_routing : RoutingInfo := {| Routing_ := [] |}.

(** [routing.EndPoint] *)
Record EndPoint := {
  ep_IP : string;
  ep_Port : Z;
  ep_Provider : string;
  ep_Continent : string;
  ep_Country : string;
  ep_City : string;
}.

(** [routing.EndPoints] *)
Record EndPoints := {
  Source : EndPoint;
  Dest : EndPoint;
}.

(** [receive_info.MemoryInfo], [DiskInfo], [NetworkInfo], [OSInfo],
    [ProcessDetail] and [ProcessInfo] *)
Record MemoryInfo := {
  mem_Total : Z;
  mem_Used : Z;
  mem_Free : Z;
  mem_Usage : float64;
}.

Record DiskInfo := {
  disk_Total : Z;
  disk_Used : Z;
  disk_Free : Z;
  disk_Usage : float64;
  disk_Path : string;
}.

Record NetworkInfo := {
  net_PublicIP : string;
  net_PrivateIP : string;
  PortCount : Z;
  TrafficIn : Z;
  TrafficOut : Z;
}.

Record OSInfo := {
  OSName : string;
  KernelVer : string;
  Hostname : string;
  BootTime : Z;
}.

Record ProcessDetail := {
  PID : Z;
  pd_Name : string;
  pd_Usage : float64;
}.

Record ProcessInfo := {
  ActiveCount : Z;
  TopCPU : list ProcessDetail;
  TopMem : list ProcessDetail;
}.

(** [receive_info.VMReport]; [CollectTime] is [None] for the zero time. *)
Record VMReport := {
  VMID : string;
  CollectTime : option Z;
  ReportID : string;
  vm_CPU : CPUInfo;
  vm_Memory : MemoryInfo;
  vm_Disk : DiskInfo;
  vm_Network : NetworkInfo;
  vm_OS : OSInfo;
  vm_Process : ProcessInfo;
  vm_LinksCongestion : list LinkCongestion;
}.

(** [graph.Edge] (its mutex left out: every access is under a lock) *)
Record Edge := {
  SourceIp : string;
  DestinationIp : string;
  EdgeWeight : float64;
  Load : float64;
  Latency : float64;
  Loss : float64;
}.

(** Zero values. *)
Definition zero_ProbeTask : ProbeTask :=
  {| TargetType := ""; pt_Provider := ""; pt_IP := ""; pt_Port := 0;
     Region := ""; pt_ID := "" |}.
Definition zero_CPUInfo : CPUInfo :=
  {| PhysicalCore := 0; LogicalCore := 0; Usage := f0; Load1Min := f0; LoadDelta := f0 |}.
Definition zero_NodeTelemetry : NodeTelemetry :=
  {| PublicIP := ""; nt_Provider := ""; nt_Continent := ""; nt_Country := "";
     nt_City := ""; CpuPressure := f0; Cpu := zero_CPUInfo; LinksCongestion := ∅ |}.
Definition zero_LastTelemetry : LastTelemetry :=
  {| LastsCongestion := ∅; lt_IP := ""; lt_Continent := ""; lt_Country := "";
     lt_City := "" |}.
Definition zero_MemoryInfo : MemoryInfo :=
  {| mem_Total := 0; mem_Used := 0; mem_Free := 0; mem_Usage := f0 |}.
Definition zero_DiskInfo : DiskInfo :=
  {| disk_Total := 0; disk_Used := 0; disk_Free := 0; disk_Usage := f0; disk_Path := "" |}.
Definition zero_NetworkInfo : NetworkInfo :=
  {| net_PublicIP := ""; net_PrivateIP := ""; PortCount := 0; TrafficIn := 0; TrafficOut := 0 |}.
Definition zero_OSInfo : OSInfo :=
  {| OSName := ""; KernelVer := ""; Hostname := ""; BootTime := 0 |}.
Definition zero_ProcessInfo : ProcessInfo :=
  {| ActiveCount := 0; TopCPU := []; TopMem := [] |}.
Definition zero_VMReport : VMReport :=
  {| VMID := ""; CollectTime := None; ReportID := ""; vm_CPU := zero_CPUInfo;
     vm_Memory := zero_MemoryInfo; vm_Disk := zero_DiskInfo; vm_Network := zero_NetworkInfo;
     vm_OS := zero_OSInfo; vm_Process := zero_ProcessInfo; vm_LinksCongestion := [] |}.
