(* ===== verification/Graph.v ===== *)
(** * The network graph of the control plane

    [control-plane/routing/graph/update-graph.go]: [EdgeRisk], and
    [GraphManager] with its operations under its lock; the watch handler of
    [control-plane/main.go] that drives it from etcd events. *)
From S2P Require Import Prelude Float64 GoStrings Records.

(** ** Package [math]

    [math.Exp] and [math.Pow] are assembly or library code: a parameter. *)
Class MathLib := {
  math_Exp : float64 → float64;
  math_Pow : float64 → float64 → float64;
}.

(** The behaviour of [math.Exp] the routers rely on: it never returns a
    negative number or a NaN on a number. *)
Class ExpNonneg `{MathLib} : Prop :=
  exp_nonneg x : is_num x = true → f_nonneg (math_Exp x) = true.

Section Graph.
Context `{ML : MathLib} `{RO : RangeOrder}.

Definition EdgeRisk (cpuPressure loss latency : float64) : float64 :=
  let cpuMax := f_of_Z 60 in
  let cpuPower := f_of_Z 2 in
  let lossInflection := f_of_frac 5 100 in
  let lossSharpness := f_of_Z 40 in
  let latencyMax := f_of_Z 150 in
  let latPower := f_of_frac 15 10 in
  let wCPU := f_of_frac 5 10 in
  let wLoss := f0 in
  let wLat := f_of_frac 5 10 in
  let cpuRisk :=
    if flt cpuPressure (f_of_Z 50) then f0
    else math_Pow (fdiv cpuPressure cpuMax) cpuPower in
  let lossRisk :=
    if fle f1 loss then f1
    else if fle loss f0 then f0
    else fdiv f1 (fadd f1 (math_Exp (fmul (fneg lossSharpness) (fsub loss lossInflection)))) in
  let latRatio := fdiv latency latencyMax in
  let latRatio := if flt latRatio f0 then f0 else latRatio in
  let latRisk := math_Pow latRatio latPower in
  fadd (fadd (fmul wCPU cpuRisk) (fmul wLoss lossRisk)) (fmul wLat latRisk).

Record GraphManager := {
  edges : gmap string Edge;
  nodes : gmap string NodeTelemetry;
}.

Definition NewGraphManager : GraphManager := {| edges := ∅; nodes := ∅ |}.

Definition GetNode (g : GraphManager) (id : string) : option NodeTelemetry := nodes g !! id.
Definition GetNodes (g : GraphManager) : gmap string NodeTelemetry := nodes g.
Definition GetEdge (g : GraphManager) (edgeID : string) : option Edge := edges g !! edgeID.

(** The slice is filled by ranging over the map. *)
Definition GetEdges (site : nat) (g : GraphManager) : list Edge :=
  (range_map site (edges g)).*2.

Definition RemoveNode (id : string) (g : GraphManager) : GraphManager :=
  {| edges := filter (λ '(_, e), ¬ (SourceIp e = id ∨ DestinationIp e = id)) (edges g);
     nodes := delete id (nodes g) |}.

(** The end points and the name of the edge of a probed link. *)
Definition link_out (v : LinkCongestion) : string :=
  if bool_decide (TargetType (lk_Target v) = "source")
  then (pt_IP (lk_Target v) +:+ ":" +:+ Itoa (pt_Port (lk_Target v)))
  else pt_IP (lk_Target v).

Definition link_line (node : NodeTelemetry) (v : LinkCongestion) : string :=
  PublicIP node +:+ "->" +:+ link_out v.

Definition set_weight (r : float64) (e : Edge) : Edge :=
  {| SourceIp := SourceIp e; DestinationIp := DestinationIp e; EdgeWeight := r;
     Load := Load e; Latency := Latency e; Loss := Loss e |}.

(** [Edge.UpdateWeight] *)
Definition UpdateWeight (e : Edge) (newWeight : float64) : Edge := set_weight newWeight e.

(** One iteration of the loop of [AddNode]. *)
Definition add_link (node : NodeTelemetry) (g : GraphManager) (v : LinkCongestion)
    : GraphManager :=
  let newLine := link_line node v in
  let put r load :=
    let e := match edges g !! newLine with
             | Some old => set_weight r old
             | None =>
                 {| SourceIp := PublicIP node; DestinationIp := link_out v;
                    EdgeWeight := r; Load := load; Latency := AverageLatency v;
                    Loss := f0 |}
             end in
    {| edges := <[newLine := e]> (edges g); nodes := nodes g |} in
  if bool_decide (TargetType (lk_Target v) = "source") then
    put (EdgeRisk f0 (PacketLoss v) (AverageLatency v)) f0
  else
    match nodes g !! pt_IP (lk_Target v) with
    | None => g
    | Some outNode =>
        put (EdgeRisk (CpuPressure outNode) (PacketLoss v) (AverageLatency v))
          (CpuPressure outNode)
    end.

Definition AddNode (node : NodeTelemetry) (g : GraphManager) : GraphManager :=
  foldl (add_link node)
    {| edges := edges g; nodes := <[PublicIP node := node]> (nodes g) |}
    (range_map 0 (LinksCongestion node)).*2.

(** ** The etcd watch: [HandleRoutingWatchEvent]

    [decode] stands for [json.Unmarshal] into a [NodeTelemetry]. *)
Definition HandleRoutingWatchEvent (decode : string → option NodeTelemetry)
    (eventType val : string) (g : GraphManager) : GraphManager :=
  let run tel :=
    if bool_decide (eventType = "CREATE") || bool_decide (eventType = "UPDATE")
    then AddNode tel g
    else if bool_decide (eventType = "DELETE") then RemoveNode (PublicIP tel) g
    else g in
  if bool_decide (val = "") then run zero_NodeTelemetry
  else match decode val with
       | None => g
       | Some tel => run tel
       end.

(** ** Well-formedness

    The state is reached by the two writers, in any order. *)
Inductive graph_step : relation GraphManager :=
| step_add node g : graph_step g (AddNode node g)
| step_remove id g : graph_step g (RemoveNode id g).

(** The end point of an edge is a known node or an origin [ip:port]. *)
Definition known_end (g : GraphManager) (d : string) : Prop :=
  d ∈ dom (nodes g) ∨ ∃ ip port, d = ip +:+ ":" +:+ Itoa port.

Record graph_wf (g : GraphManager) : Prop := {
  wf_key k e : edges g !! k = Some e → k = SourceIp e +:+ "->" +:+ DestinationIp e;
  wf_src k e : edges g !! k = Some e → SourceIp e ∈ dom (nodes g);
  wf_dst k e : edges g !! k = Some e → known_end g (DestinationIp e);
  wf_node k n : nodes g !! k = Some n → PublicIP n = k;
}.

Lemma known_end_link g v :
  is_Some (nodes g !! pt_IP (lk_Target v)) ∨ TargetType (lk_Target v) = "source" →
  known_end g (link_out v).
Proof.
  unfold link_out. intros Hv. destruct (bool_decide_reflect (TargetType (lk_Target v) = "source")).
  - right. eauto.
  - destruct Hv as [Hv|?]; [|done]. left. by apply elem_of_dom.
Qed.

(** [add_link] either leaves the graph alone or writes the link's line. *)
Lemma add_link_cases node g v :
  (add_link node g v = g ∧ TargetType (lk_Target v) ≠ "source" ∧
     nodes g !! pt_IP (lk_Target v) = None) ∨
  ∃ e, add_link node g v = {| edges := <[link_line node v := e]> (edges g); nodes := nodes g |} ∧
    known_end g (link_out v) ∧
    match edges g !! link_line node v with
    | Some old => SourceIp e = SourceIp old ∧ DestinationIp e = DestinationIp old ∧
        Latency e = Latency old ∧ Load e = Load old
    | None => SourceIp e = PublicIP node ∧ DestinationIp e = link_out v ∧
        Latency e = AverageLatency v
    end.
Proof.
  unfold add_link. destruct (bool_decide_reflect (TargetType (lk_Target v) = "source")) as [Hs|Hs].
  - right. eexists. split; [done|]. split; [apply known_end_link; auto|].
    by destruct (edges g !! link_line node v).
  - destruct (nodes g !! pt_IP (lk_Target v)) as [out|] eqn:E; [|auto].
    right. eexists. split; [done|]. split; [apply known_end_link; eauto|].
    by destruct (edges g !! link_line node v).
Qed.

Lemma add_link_nodes node g v : nodes (add_link node g v) = nodes g.
Proof. by destruct (add_link_cases node g v) as [(-> & _)|(e & -> & _)]. Qed.

Lemma add_link_wf node g v :
  nodes g !! PublicIP node = Some node → graph_wf g → graph_wf (add_link node g v).
Proof.
  intros Hn Hwf.
  destruct (add_link_cases node g v) as [(-> & _)|(e & -> & Hk & He)]; [done|].
  split; simpl; [| | |apply Hwf].
  - intros k e' [[<- <-]|[Hne H]]%lookup_insert_Some; [|by apply Hwf].
    destruct (edges g !! link_line node v) as [old|] eqn:E.
    + destruct He as (-> & -> & _). by apply Hwf.
    + destruct He as (-> & -> & _). done.
  - intros k e' [[<- <-]|[Hne H]]%lookup_insert_Some; [|by apply (wf_src g Hwf k)].
    destruct (edges g !! link_line node v) as [old|] eqn:E; destruct He as (-> & _).
    + by apply (wf_src g Hwf _ _ E).
    + apply elem_of_dom. eauto.
  - intros k e' [[<- <-]|[Hne H]]%lookup_insert_Some; [|by apply (wf_dst g Hwf k)].
    destruct (edges g !! link_line node v) as [old|] eqn:E; destruct He as (_ & -> & _).
    + by apply (wf_dst g Hwf _ _ E).
    + done.
Qed.

Lemma add_links_nodes node g l : nodes (foldl (add_link node) g l) = nodes g.
Proof.
  revert g. induction l as [|v l IH]; intros g; simpl; [done|].
  by rewrite IH, add_link_nodes.
Qed.

Lemma add_links_wf node g l :
  nodes g !! PublicIP node = Some node → graph_wf g → graph_wf (foldl (add_link node) g l).
Proof.
  revert g. induction l as [|v l IH]; intros g Hn Hwf; simpl; [done|].
  apply IH; [by rewrite add_link_nodes|by apply add_link_wf].
Qed.

Lemma AddNode_wf node g : graph_wf g → graph_wf (AddNode node g).
Proof.
  intros Hwf. unfold AddNode. apply add_links_wf; simpl; [by rewrite lookup_insert_eq|].
  split; simpl.
  - apply Hwf.
  - intros k e H. rewrite dom_insert. apply elem_of_union_r. by eapply wf_src.
  - intros k e H. destruct (wf_dst g Hwf k e H) as [Hd|Hd]; [left|by right].
    simpl. rewrite dom_insert. by apply elem_of_union_r.
  - intros k n [[<- <-]|[Hne H]]%lookup_insert_Some; [done|by apply Hwf].
Qed.

Lemma RemoveNode_edges id g k e :
  edges (RemoveNode id g) !! k = Some e ↔
  edges g !! k = Some e ∧ SourceIp e ≠ id ∧ DestinationIp e ≠ id.
Proof. simpl. rewrite map_lookup_filter_Some. tauto. Qed.

Lemma RemoveNode_wf id g : graph_wf g → graph_wf (RemoveNode id g).
Proof.
  intros Hwf. split.
  - intros k e [H _]%RemoveNode_edges. by apply Hwf.
  - intros k e (H & Hs & Hd)%RemoveNode_edges. simpl. rewrite dom_delete.
    apply wf_src in H; [|done]. by apply elem_of_difference; rewrite elem_of_singleton.
  - intros k e (H & Hs & Hd)%RemoveNode_edges.
    destruct (wf_dst g Hwf k e H) as [Hin|Hin]; [left|by right].
    simpl. rewrite dom_delete. by apply elem_of_difference; rewrite elem_of_singleton.
  - simpl. intros k n [_ H]%lookup_delete_Some. by apply Hwf.
Qed.

Lemma graph_wf_new : graph_wf NewGraphManager.
Proof. by split; intros k e H; simpl in H; apply lookup_empty_Some in H. Qed.

Lemma steps_wf g0 g : rtc graph_step g0 g → graph_wf g0 → graph_wf g.
Proof.
  intros Hr. induction Hr as [|g0 g1 g2 Hs _ IH]; [done|]. intros Hwf.
  apply IH. destruct Hs; [by apply AddNode_wf|by apply RemoveNode_wf].
Qed.

(** Every state the two writers of the graph can produce, in any order, is
    well formed: an edge is stored under [source->destination], its source is
    a node of the graph, its destination is a node or an origin [ip:port], and
    a node is stored under its public IP. *)
Theorem graph_reachable_wf g : rtc graph_step NewGraphManager g → graph_wf g.
Proof. intros Hr. by eapply steps_wf, graph_wf_new. Qed.

(** [RemoveNode] cuts the node off: afterwards the graph has neither the
    node nor an edge that starts or ends there, and every other node and edge
    is kept unchanged. *)
Theorem RemoveNode_isolates id g :
  nodes (RemoveNode id g) !! id = None ∧
  (∀ k e, edges (RemoveNode id g) !! k = Some e →
     SourceIp e ≠ id ∧ DestinationIp e ≠ id) ∧
  (∀ k e, edges g !! k = Some e → SourceIp e ≠ id → DestinationIp e ≠ id →
     edges (RemoveNode id g) !! k = Some e) ∧
  (∀ k, k ≠ id → nodes (RemoveNode id g) !! k = nodes g !! k).
Proof.
  split; [apply lookup_delete_eq|]. split; [|split].
  - intros k e H%RemoveNode_edges. tauto.
  - intros k e H1 H2 H3. by apply RemoveNode_edges.
  - intros k Hk. simpl. by rewrite lookup_delete_ne.
Qed.

(** The line of a link as [AddNode] leaves it. *)
Definition link_risk (ns : gmap string NodeTelemetry) (v : LinkCongestion) : float64 :=
  if bool_decide (TargetType (lk_Target v) = "source")
  then EdgeRisk f0 (PacketLoss v) (AverageLatency v)
  else EdgeRisk (default f0 (CpuPressure <$> ns !! pt_IP (lk_Target v)))
         (PacketLoss v) (AverageLatency v).

Lemma add_link_other node g v k :
  k ≠ link_line node v → edges (add_link node g v) !! k = edges g !! k.
Proof.
  intros Hk. destruct (add_link_cases node g v) as [(-> & _)|(e & -> & _)]; [done|].
  simpl. by rewrite lookup_insert_ne.
Qed.

Lemma add_links_other node g l k :
  Forall (λ v, k ≠ link_line node v) l →
  edges (foldl (add_link node) g l) !! k = edges g !! k.
Proof.
  intros Hl. revert g. induction Hl as [|v l Hv _ IH]; intros g; simpl; [done|].
  by rewrite IH, add_link_other.
Qed.

Lemma add_link_eq node g v :
  known_end g (link_out v) →
  (TargetType (lk_Target v) = "source" ∨ is_Some (nodes g !! pt_IP (lk_Target v))) →
  ∃ e, edges (add_link node g v) !! link_line node v = Some e ∧
    EdgeWeight e = link_risk (nodes g) v ∧
    match edges g !! link_line node v with
    | Some old => Latency e = Latency old ∧ Load e = Load old ∧ Loss e = Loss old
    | None => Latency e = AverageLatency v ∧ Loss e = f0
    end.
Proof.
  intros _ Hv. unfold add_link, link_risk.
  destruct (bool_decide_reflect (TargetType (lk_Target v) = "source")) as [Hs|Hs].
  - simpl. rewrite lookup_insert_eq. eexists. split; [done|].
    by destruct (edges g !! link_line node v).
  - destruct Hv as [?|[out Hout]]; [done|]. rewrite Hout. simpl.
    rewrite lookup_insert_eq. eexists. split; [done|].
    by destruct (edges g !! link_line node v).
Qed.

(** What a telemetry report does to one of its links: the link's edge gets
    the freshly computed risk as its weight, but an edge that already existed
    keeps the latency and the load of its first report; only a new edge takes
    the measured latency. *)
Theorem AddNode_refreshes_weight_only node g key v :
  LinksCongestion node !! key = Some v →
  (∀ key' v', LinksCongestion node !! key' = Some v' →
     link_out v' = link_out v → key' = key) →
  TargetType (lk_Target v) = "source" ∨
    pt_IP (lk_Target v) = PublicIP node ∨ is_Some (nodes g !! pt_IP (lk_Target v)) →
  ∃ e, edges (AddNode node g) !! link_line node v = Some e ∧
    EdgeWeight e = link_risk (<[PublicIP node := node]> (nodes g)) v ∧
    match edges g !! link_line node v with
    | Some old => Latency e = Latency old ∧ Load e = Load old ∧ Loss e = Loss old
    | None => Latency e = AverageLatency v ∧ Loss e = f0
    end.
Proof.
  intros Hv Huniq Hend. unfold AddNode.
  set (g1 := {| edges := edges g; nodes := <[PublicIP node := node]> (nodes g) |}).
  destruct (range_map_split 0 _ _ _ Hv) as (l1 & l2 & Hl & Hrest).
  assert (∀ p, p ∈ l1 ++ l2 → link_line node v ≠ link_line node p.2) as Hother.
  { intros [k' v'] [Hk' Hv']%Hrest Heq. apply Hk', (Huniq k' v'); [done|].
    unfold link_line in Heq.
    by apply (inj (String.append (PublicIP node))), (inj (String.append "->")) in Heq. }
  rewrite Hl, fmap_app, foldl_app. simpl.
  rewrite add_links_other.
  2: { apply Forall_fmap, Forall_forall. intros p Hp. apply Hother, elem_of_app. auto. }
  set (g2 := foldl _ g1 _).
  assert (nodes g2 = nodes g1) as Hn2 by apply add_links_nodes.
  assert (edges g2 !! link_line node v = edges g !! link_line node v) as He2.
  { change (edges g) with (edges g1). apply add_links_other. apply Forall_fmap, Forall_forall.
    intros p Hp. apply Hother, elem_of_app. auto. }
  destruct (add_link_eq node g2 v) as (e & H1 & H2 & H3).
  - apply known_end_link. rewrite Hn2. simpl.
    destruct Hend as [?|[->|?]]; [by right| |].
    + left. rewrite lookup_insert_eq. eauto.
    + left. by rewrite lookup_insert_is_Some'; right.
  - rewrite Hn2. simpl. destruct Hend as [?|[->|?]]; [by left| |]; right.
    + rewrite lookup_insert_eq. eauto.
    + by rewrite lookup_insert_is_Some'; right.
  - exists e. rewrite H1. split; [done|]. rewrite Hn2 in H2. rewrite He2 in H3. done.
Qed.

(** The watch never removes a dead node: etcd delivers a DELETE event
    without a value, the handler then asks for the removal of the node named
    by the empty string, and a graph without such a node is unchanged. *)
Theorem delete_event_keeps_graph decode g :
  nodes g !! "" = None →
  (∀ k e, edges g !! k = Some e → SourceIp e ≠ "" ∧ DestinationIp e ≠ "") →
  HandleRoutingWatchEvent decode "DELETE" "" g = g.
Proof.
  intros Hn He. unfold HandleRoutingWatchEvent. simpl.
  destruct g as [es ns]. unfold RemoveNode. simpl in *. f_equal.
  - apply map_filter_id. intros k e Hk. specialize (He k e Hk). tauto.
  - by apply delete_id.
Qed.
End Graph.

(** ** Instances of the theorems *)
Definition flat_math : MathLib := {| math_Exp := λ _, f1; math_Pow := λ _ _, f1 |}.

Definition sample_link : LinkCongestion :=
  {| lk_TargetIP := "9.9.9.9";
     lk_Target := {| TargetType := "source"; pt_Provider := ""; pt_IP := "9.9.9.9";
                     pt_Port := 443; Region := ""; pt_ID := "" |};
     PacketLoss := f0; AverageLatency := f_of_Z 20 |}.

Definition sample_node : NodeTelemetry :=
  {| PublicIP := "1.1.1.1"; nt_Provider := ""; nt_Continent := ""; nt_Country := "";
     nt_City := ""; CpuPressure := f_of_Z 10; Cpu := zero_CPUInfo;
     LinksCongestion := {[ "9.9.9.9:443" := sample_link ]} |}.

Definition sample_graph : GraphManager :=
  @AddNode flat_math list_order sample_node NewGraphManager.

Lemma sample_graph_edges : edges sample_graph =
  {[ "1.1.1.1->9.9.9.9:443" :=
     {| SourceIp := "1.1.1.1"; DestinationIp := "9.9.9.9:443";
        EdgeWeight := f_of_frac 1 2; Load := f0; Latency := f_of_Z 20; Loss := f0 |} ]}.
Proof. vm_compute. reflexivity. Qed.

Lemma graph_reachable_wf_witness :
  graph_wf (RemoveNode "2.2.2.2" sample_graph).
Proof.
  apply (@graph_reachable_wf flat_math list_order).
  eapply rtc_l; [apply (@step_add flat_math list_order sample_node)|].
  eapply rtc_l; [apply (@step_remove flat_math list_order "2.2.2.2")|]. apply rtc_refl.
Defined.

Lemma AddNode_refreshes_weight_only_witness :
  ∃ e, edges (@AddNode flat_math list_order sample_node sample_graph) !! "1.1.1.1->9.9.9.9:443"
         = Some e ∧ Latency e = f_of_Z 20.
Proof.
  destruct (@AddNode_refreshes_weight_only flat_math list_order sample_node sample_graph
              "9.9.9.9:443" sample_link) as (e & He & _ & Hl).
  - apply lookup_singleton_eq.
  - intros key' v' Hk _. simpl in Hk. by apply lookup_singleton_Some in Hk as [<- _].
  - by left.
  - exists e. split; [exact He|]. revert Hl.
    rewrite sample_graph_edges. intros [-> _]. reflexivity.
Defined.

Lemma delete_event_keeps_graph_witness :
  @HandleRoutingWatchEvent flat_math list_order (λ _, None) "DELETE" "" sample_graph = sample_graph.
Proof.
  apply (@delete_event_keeps_graph flat_math list_order).
  - reflexivity.
  - intros k e. rewrite sample_graph_edges. intros [_ <-]%lookup_singleton_Some. done.
Defined.
