(* ===== verification/EdgeStats.v ===== *)
(** * Last-mile statistics of the control plane

    [control-plane/aggregator/edge.go]: [GlobalStats], the latest report of
    every edge node and the aggregate per (user city, node) the last-mile
    routers read; [HandleLastWatchEvent] of [control-plane/main.go], which
    drives it and rebuilds the aggregate in a goroutine of its own. *)
From Stdlib Require Import Ascii.
From S2P Require Import Prelude Float64 GoStrings Records.
Local Open Scope go_scope.

Record GlobalStats := {
  nodeLast : gmap string LastTelemetry;
  edgeAgg : gmap string LastCongestion;
}.

Definition NewGlobalStats : GlobalStats := {| nodeLast := ∅; edgeAgg := ∅ |}.

Definition AddOrUpdateNode (node : LastTelemetry) (g : GlobalStats) : GlobalStats :=
  if bool_decide (lt_IP node = "") then g
  else {| nodeLast := <[lt_IP node := node]> (nodeLast g); edgeAgg := edgeAgg g |}.

Definition DelNode (nodeIP : string) (g : GlobalStats) : GlobalStats :=
  {| nodeLast := delete nodeIP (nodeLast g); edgeAgg := edgeAgg g |}.

Definition GetAggValue (key : string) (g : GlobalStats) : LastCongestion :=
  default zero_LastCongestion (edgeAgg g !! key).

Section Rebuild.
Context `{RO : RangeOrder}.

(** A copy of the aggregate, entry by entry. *)
Definition GetAggMap (g : GlobalStats) : gmap string LastCongestion :=
  foldl (λ result p, <[p.1 := p.2]> result) ∅ (range_map 20 (edgeAgg g)).

(** [rebuildAggregate] takes a snapshot of the reports under the read lock,
    computes without a lock, and publishes under the write lock. *)
Definition snapshot (g : GlobalStats) : list LastTelemetry := (range_map 21 (nodeLast g)).*2.

Definition agg_key (userKey ip : string) : string := userKey +:+ "-" +:+ ip.

(** The body of the inner loop; [val] is a pointer. *)
Definition add_sample (newAgg : go (gmap string LastCongestion))
    (item : string * option LastCongestion) : go (gmap string LastCongestion) :=
  let '(key, val) := item in
  let! newAgg := newAgg in
  let s := default zero_LastCongestion (newAgg !! key) in
  match val with
  | None => Panic "nil pointer dereference"
  | Some val =>
      Ret (<[key :=
        {| Count := int64 (Count s + Count val);
           SumRT := fadd (SumRT s) (fmul (AvgRT val) (f_of_Z (Count val)));
           AvgRT := AvgRT s; P95RT := P95RT s |}]> newAgg)
  end.

Definition add_report (newAgg : go (gmap string LastCongestion)) (node : LastTelemetry)
    : go (gmap string LastCongestion) :=
  foldl (λ a p, add_sample a (agg_key p.1 (lt_IP node), p.2)) newAgg
    (range_map 22 (LastsCongestion node)).

Definition set_avg (s : LastCongestion) : LastCongestion :=
  if bool_decide (0 < Count s)%Z then
    {| Count := Count s; SumRT := SumRT s; AvgRT := fdiv (SumRT s) (f_of_Z (Count s));
       P95RT := P95RT s |}
  else s.

Definition aggregate (nodeList : list LastTelemetry) : go (gmap string LastCongestion) :=
  let! newAgg := foldl add_report (Ret ∅) nodeList in
  Ret (set_avg <$> newAgg).

Definition publish (newAgg : gmap string LastCongestion) (g : GlobalStats) : GlobalStats :=
  {| nodeLast := nodeLast g; edgeAgg := newAgg |}.

(** The three phases without interruption. *)
Definition rebuildAggregate (g : GlobalStats) : go GlobalStats :=
  let! newAgg := aggregate (snapshot g) in
  Ret (publish newAgg g).

(** The watch handler: the new state and whether a rebuild is started. *)
Definition HandleLastWatchEvent (decode : string → option LastTelemetry)
    (eventType val : string) (g : GlobalStats) : GlobalStats * bool :=
  let run lastStats :=
    if bool_decide (eventType = "CREATE") || bool_decide (eventType = "UPDATE")
    then (AddOrUpdateNode lastStats g, true)
    else if bool_decide (eventType = "DELETE") then (DelNode (lt_IP lastStats) g, true)
    else (g, false) in
  if bool_decide (val = "") then run zero_LastTelemetry
  else match decode val with
       | None => (g, false)
       | Some lastStats => run lastStats
       end.

Lemma GetAggMap_copy g : GetAggMap g = edgeAgg g.
Proof. apply range_map_copy. Qed.

(** ** The aggregate of a set of reports *)

(** The samples of a list of reports, with the keys they go under. *)
Definition report_samples (node : LastTelemetry) : list (string * option LastCongestion) :=
  (λ p, (agg_key p.1 (lt_IP node), p.2)) <$> range_map 22 (LastsCongestion node).

Definition samples (nodeList : list LastTelemetry) : list (string * option LastCongestion) :=
  nodeList ≫= report_samples.

Lemma foldl_reports acc nodeList :
  foldl add_report acc nodeList = foldl add_sample acc (samples nodeList).
Proof.
  revert acc. induction nodeList as [|n l IH]; intros acc; [done|].
  change (samples (n :: l)) with (report_samples n ++ samples l). rewrite foldl_app. simpl.
  rewrite IH. f_equal. unfold add_report, report_samples. by rewrite foldl_fmap.
Qed.

(** What one sample alone gives. *)
Definition sample_sum (v : LastCongestion) : LastCongestion :=
  {| Count := int64 (Count v); SumRT := fadd f0 (fmul (AvgRT v) (f_of_Z (Count v)));
     AvgRT := f0; P95RT := 0 |}.

Lemma samples_panic w items : foldl add_sample (Panic w) items = Panic w.
Proof. induction items as [|[k v] items IH]; [done|]. exact IH. Qed.

Lemma samples_ok items (m : gmap string LastCongestion) :
  NoDup items.*1 → (∀ k, k ∈ items.*1 → m !! k = None) → Forall (λ p, is_Some p.2) items →
  ∃ m', foldl add_sample (Ret m) items = Ret m' ∧
    (∀ k v, (k, Some v) ∈ items → m' !! k = Some (sample_sum v)) ∧
    (∀ k, k ∉ items.*1 → m' !! k = m !! k).
Proof.
  revert m. induction items as [|[k [v|]] items IH]; intros m Hnd Hf Hs.
  - exists m. split; [done|]. split; [|done]. by intros k v ?%not_elem_of_nil.
  - apply NoDup_cons in Hnd as [Hk Hnd]. apply Forall_cons in Hs as [_ Hs].
    cbn [foldl add_sample go_bind]. rewrite (Hf k) by left. cbn [default].
    match goal with |- context [<[k := ?s]> m] => change s with (sample_sum v) end.
    destruct (IH (<[k := sample_sum v]> m)) as (m' & E & I1 & I2); [done| |done|].
    { intros k' Hk'. rewrite lookup_insert_ne by (by intros ->). apply Hf. by right. }
    exists m'. split; [exact E|]. split.
    + intros k' v' [[= -> ->]|Hin]%elem_of_cons; [|by apply I1].
      rewrite I2 by done. apply lookup_insert_eq.
    + intros k' Hk'. cbn in Hk'. apply not_elem_of_cons in Hk' as [Hne Hin].
      rewrite I2 by done. by apply lookup_insert_ne.
  - apply Forall_cons in Hs as [[? [=]] _].
Qed.

Lemma samples_nil k items m : (k, None) ∈ items → ∃ w, foldl add_sample (Ret m) items = Panic w.
Proof.
  revert m. induction items as [|[k' [v|]] items IH]; intros m Hin.
  - by apply not_elem_of_nil in Hin.
  - apply elem_of_cons in Hin as [[=]|Hin]. by apply IH.
  - eexists. apply samples_panic.
Qed.

(** ** Keys

    A key determines the user city and the node, as node addresses contain no
    dash. *)
Fixpoint dash_free (s : string) : bool :=
  match s with
  | EmptyString => true
  | String c s' => negb (Ascii.eqb c "-"%char) && dash_free s'
  end.

Lemma dash_free_app a b : dash_free (a +:+ "-" +:+ b) = false.
Proof.
  induction a as [|c a IH]; [done|].
  change (negb (Ascii.eqb c "-"%char) && dash_free (a +:+ "-" +:+ b) = false).
  by rewrite IH, andb_false_r.
Qed.

Lemma agg_key_inj u1 ip1 u2 ip2 : dash_free ip1 = true → dash_free ip2 = true →
  agg_key u1 ip1 = agg_key u2 ip2 → u1 = u2 ∧ ip1 = ip2.
Proof.
  unfold agg_key. intros F1 F2. revert u2. induction u1 as [|c u1 IH]; intros [|c' u2] E.
  - by injection E.
  - exfalso. change (String "-" ip1 = String c' (u2 +:+ "-" +:+ ip2)) in E.
    injection E as _ E. rewrite E in F1. by rewrite dash_free_app in F1.
  - exfalso. change (String c (u1 +:+ "-" +:+ ip1) = String "-" ip2) in E.
    injection E as _ E. rewrite <-E in F2. by rewrite dash_free_app in F2.
  - change (String c (u1 +:+ "-" +:+ ip1) = String c' (u2 +:+ "-" +:+ ip2)) in E.
    injection E as -> E. by destruct (IH u2 E) as [-> ->].
Qed.

(** The invariant of the reports: each is stored under its own address, which
    is a non-empty string. *)
Record stats_wf (g : GlobalStats) : Prop := {
  sw_key ip n : nodeLast g !! ip = Some n → lt_IP n = ip ∧ ip ≠ "";
}.

(** Every address is free of dashes (IPv4 and IPv6 literals are). *)
Definition addresses_ok (g : GlobalStats) : Prop := ∀ ip, ip ∈ dom (nodeLast g) → dash_free ip = true.

Lemma snapshot_elem g n : stats_wf g → n ∈ snapshot g ↔ nodeLast g !! lt_IP n = Some n.
Proof.
  intros Hwf. unfold snapshot. rewrite list_elem_of_fmap. split.
  - intros ([ip n'] & -> & Hin%range_map_elem). simpl. by destruct (sw_key g Hwf _ _ Hin) as [-> _].
  - intros H. exists (lt_IP n, n). split; [done|]. by apply range_map_elem.
Qed.

Lemma snapshot_NoDup g : stats_wf g → NoDup (lt_IP <$> snapshot g).
Proof.
  intros Hwf. unfold snapshot. rewrite <-list_fmap_compose.
  rewrite (list_fmap_ext _ fst (range_map 21 (nodeLast g))); [apply range_map_NoDup|].
  intros i [ip n] Hi%list_elem_of_lookup_2%range_map_elem. simpl.
  by apply (sw_key g Hwf).
Qed.

Lemma samples_elem l k v :
  (k, v) ∈ samples l ↔ ∃ n u, n ∈ l ∧ LastsCongestion n !! u = Some v ∧ k = agg_key u (lt_IP n).
Proof.
  unfold samples. rewrite list_elem_of_bind. unfold report_samples.
  setoid_rewrite list_elem_of_fmap. split.
  - intros (n & ([u v'] & [= -> ->] & Hin%range_map_elem) & Hn). eauto.
  - intros (n & u & Hn & Hu & ->). exists n. split; [|done]. exists (u, v).
    split; [done|]. by apply range_map_elem.
Qed.

Lemma samples_NoDup l :
  NoDup (lt_IP <$> l) → (∀ n, n ∈ l → dash_free (lt_IP n) = true) → NoDup (samples l).*1.
Proof.
  induction l as [|n l IH]; intros Hnd Hf; [constructor|].
  apply NoDup_cons in Hnd as [Hn Hnd].
  change (samples (n :: l)) with (report_samples n ++ samples l). rewrite fmap_app.
  apply NoDup_app. split; [|split; [|apply IH; [done|]; intros n' Hn'; apply Hf; by right]].
  - unfold report_samples. rewrite <-list_fmap_compose.
    assert (∀ q : list (string * option LastCongestion), NoDup q.*1 →
      NoDup ((fst ∘ (λ p, (agg_key p.1 (lt_IP n), p.2))) <$> q)) as Hq.
    { induction q as [|[u v] q IHq]; intros Hq; [constructor|]. apply NoDup_cons in Hq as [Hu Hq].
      apply NoDup_cons. split; [|by apply IHq].
      intros ([u' v'] & E & Hin)%list_elem_of_fmap. simpl in E.
      apply agg_key_inj in E as [-> _]; [|apply Hf; left..].
      apply Hu. by apply (list_elem_of_fmap_2 fst _ (u', v')). }
    apply Hq, range_map_NoDup.
  - intros k ([k1 v1] & E1 & H1)%list_elem_of_fmap ([k2 v2] & E2 & H2)%list_elem_of_fmap.
    simpl in *. subst. apply samples_elem in H2 as (n2 & u2 & Hn2 & _ & E).
    assert ((k2, v1) ∈ samples [n]) as (n1 & u1 & Hn1 & _ & E')%samples_elem.
    { change (samples [n]) with (report_samples n ++ []). by rewrite app_nil_r. }
    apply list_elem_of_singleton in Hn1 as ->. rewrite E in E'.
    apply agg_key_inj in E' as [_ E']; [|apply Hf; by right|apply Hf; left].
    apply Hn. rewrite <-E'. by apply list_elem_of_fmap_2.
Qed.

(** Some report holds a nil entry. *)
Definition nil_sample (g : GlobalStats) : Prop :=
  ∃ ip n u, nodeLast g !! ip = Some n ∧ LastsCongestion n !! u = Some None.

Lemma nil_sample_elem g : stats_wf g →
  nil_sample g ↔ ∃ k, (k, None) ∈ samples (snapshot g).
Proof.
  intros Hwf. setoid_rewrite samples_elem. unfold nil_sample. split.
  - intros (ip & n & u & Hn & Hu). destruct (sw_key g Hwf _ _ Hn) as [<- _].
    eexists _, n, u. split; [by apply snapshot_elem|done].
  - intros (k & n & u & Hn%snapshot_elem & Hu & _); [|done]. by exists (lt_IP n), n, u.
Qed.

Lemma samples_decide (items : list (string * option LastCongestion)) :
  (∃ k, (k, None) ∈ items) ∨ Forall (λ p, is_Some p.2) items.
Proof.
  destruct (decide (Exists (λ p, p.2 = None) items)) as [He|He].
  - left. apply Exists_exists in He as ([k v] & Hin & Hv). simpl in Hv. subst. eauto.
  - right. apply not_Exists_Forall in He; [|apply _]. eapply Forall_impl; [exact He|].
    intros [k [v|]] Hp; [by eexists|by destruct Hp].
Qed.

Lemma rebuild_reference g :
  stats_wf g → addresses_ok g →
  (nil_sample g ∧ ∃ w, rebuildAggregate g = Panic w) ∨
  (¬ nil_sample g ∧ ∃ g', rebuildAggregate g = Ret g' ∧ nodeLast g' = nodeLast g ∧
     ∀ key s, edgeAgg g' !! key = Some s ↔
       ∃ ip n u v, nodeLast g !! ip = Some n ∧ LastsCongestion n !! u = Some (Some v) ∧
         key = agg_key u ip ∧ s = set_avg (sample_sum v)).
Proof.
  intros Hwf Hf. unfold rebuildAggregate, aggregate. rewrite foldl_reports.
  destruct (samples_decide (samples (snapshot g))) as [Hn|Hs].
  { left. split; [by apply nil_sample_elem|]. destruct Hn as [k Hk].
    destruct (samples_nil _ _ ∅ Hk) as [w ->]. by exists w. }
  right. split.
  { rewrite nil_sample_elem by done. intros [k Hk]. eapply Forall_forall in Hs; [|exact Hk].
    by destruct Hs as [? [=]]. }
  destruct (samples_ok (samples (snapshot g)) ∅) as (m & -> & I1 & I2); [| |done|].
  { apply samples_NoDup; [by apply snapshot_NoDup|]. intros n Hn%snapshot_elem; [|done].
    apply Hf. by apply elem_of_dom_2 in Hn. }
  { intros k _. apply lookup_empty. }
  eexists. split; [done|]. split; [done|]. intros key s. simpl. rewrite lookup_fmap. split.
  - intros (s0 & Hs0 & ->)%fmap_Some.
    destruct (decide (key ∈ (samples (snapshot g)).*1)) as [Hin|Hin].
    2: { rewrite I2, lookup_empty in Hs0 by done. done. }
    apply list_elem_of_fmap in Hin as ([k [v|]] & -> & Hin); simpl in *.
    2: { eapply Forall_forall in Hs; [|exact Hin]. by destruct Hs as [? [=]]. }
    rewrite (I1 _ _ Hin) in Hs0. injection Hs0 as <-.
    apply samples_elem in Hin as (n & u & Hn%snapshot_elem & Hu & ->); [|done].
    by exists (lt_IP n), n, u, v.
  - intros (ip & n & u & v & Hn & Hu & -> & ->). rewrite (I1 _ v); [done|].
    apply samples_elem. destruct (sw_key g Hwf _ _ Hn) as [<- _].
    exists n, u. split; [by apply snapshot_elem|done].
Qed.

(** The entry of a reported sample [v]: its count, the sum that its average
    stands for, and, for a positive count, the quotient of the two. *)
Record entry_of (v s : LastCongestion) : Prop := {
  en_count : Count s = int64 (Count v);
  en_sum : SumRT s = fadd f0 (fmul (AvgRT v) (f_of_Z (Count v)));
  en_avg : AvgRT s = if bool_decide (0 < Count s)%Z then fdiv (SumRT s) (f_of_Z (Count s)) else f0;
  en_p95 : P95RT s = 0%Z;
}.

Lemma entry_of_sample v s : s = set_avg (sample_sum v) ↔ entry_of v s.
Proof.
  unfold set_avg. split.
  - intros ->. case_bool_decide as Hc; split; try done; [by rewrite bool_decide_true|].
    by rewrite bool_decide_false.
  - intros [H1 H2 H3 H4]. destruct s as [sc ss sa sp]. simpl in *. subst sc ss sp.
    change (Count (sample_sum v)) with (int64 (Count v)). by case_bool_decide; subst sa.
Qed.

(** C35: [rebuildAggregate], with reports that are stored under their own
    addresses (as [AddOrUpdateNode] does), which are not empty and have no dash (as
    IP addresses), crashes exactly when some report holds a nil entry. Otherwise, whatever the order in which the maps are visited, the new
    aggregate has exactly one entry per report and user city, under
    [city-address]: its count is that of the report, its sum the reported
    average times the count, and its average the sum divided by the count (0
    when the count is not positive), from that report alone; the reports are
    unchanged. *)
Theorem rebuildAggregate_spec g :
  stats_wf g → addresses_ok g →
  (nil_sample g ∧ ∃ w, rebuildAggregate g = Panic w) ∨
  (¬ nil_sample g ∧ ∃ g', rebuildAggregate g = Ret g' ∧ nodeLast g' = nodeLast g ∧
     ∀ key s, edgeAgg g' !! key = Some s ↔
       ∃ ip n u v, nodeLast g !! ip = Some n ∧ LastsCongestion n !! u = Some (Some v) ∧
         key = u +:+ "-" +:+ ip ∧ entry_of v s).
Proof.
  intros Hwf Ha. destruct (rebuild_reference g Hwf Ha) as [H|(Hn & g' & E & H1 & H2)]; [by left|right].
  split; [done|]. exists g'. split; [done|]. split; [done|]. intros key s. rewrite H2.
  by setoid_rewrite entry_of_sample.
Qed.

(** ** Invariant *)
Lemma stats_wf_new : stats_wf NewGlobalStats.
Proof. split. intros ip n H. simpl in H. by rewrite lookup_empty in H. Qed.

Lemma AddOrUpdateNode_wf n g : stats_wf g → stats_wf (AddOrUpdateNode n g).
Proof.
  intros Hwf. unfold AddOrUpdateNode. case_bool_decide as Hn; [done|]. split. simpl.
  intros ip n' [[<- <-]|[Hne H]]%lookup_insert_Some; [done|by apply Hwf].
Qed.

Lemma DelNode_wf ip g : stats_wf g → stats_wf (DelNode ip g).
Proof. intros Hwf. split. simpl. intros ip' n [_ H]%lookup_delete_Some. by apply Hwf. Qed.

Lemma HandleLastWatchEvent_wf decode ty val g :
  stats_wf g → stats_wf (HandleLastWatchEvent decode ty val g).1.
Proof.
  intros Hwf. unfold HandleLastWatchEvent. repeat case_match; simpl;
    auto using AddOrUpdateNode_wf, DelNode_wf.
Qed.

(** ** Rebuilds run concurrently

    Every event starts a goroutine that takes a snapshot, computes, and
    publishes its result later.  [ordered] restricts the runs to those in
    which results are published in the order of their snapshots. *)
Section Concurrent.
Variable decode : string → option LastTelemetry.

Record system := {
  stats : GlobalStats;
  spawned : nat;
  pending : list (gmap string LastCongestion);
}.

Inductive sys_step (ordered : bool) : relation system :=
| step_event ty val s g' start :
    HandleLastWatchEvent decode ty val (stats s) = (g', start) →
    sys_step ordered s
      {| stats := g'; spawned := (if start then 1 else 0) + spawned s; pending := pending s |}
| step_snapshot s n newAgg :
    spawned s = S n → aggregate (snapshot (stats s)) = Ret newAgg →
    sys_step ordered s {| stats := stats s; spawned := n; pending := pending s ++ [newAgg] |}
| step_publish s l1 newAgg l2 :
    pending s = l1 ++ newAgg :: l2 → (ordered = true → l1 = []) →
    sys_step ordered s
      {| stats := publish newAgg (stats s); spawned := spawned s; pending := l1 ++ l2 |}.

Definition quiescent (s : system) : Prop := spawned s = 0 ∧ pending s = [].

(** The aggregate is the one of the current reports. *)
Definition up_to_date (g : GlobalStats) : Prop := aggregate (snapshot g) = Ret (edgeAgg g).

Definition sys_inv (s : system) : Prop :=
  spawned s = 0 →
  match last (pending s) with
  | Some newAgg => aggregate (snapshot (stats s)) = Ret newAgg
  | None => up_to_date (stats s)
  end.

Lemma event_no_rebuild ty val g g' :
  HandleLastWatchEvent decode ty val g = (g', false) → g' = g.
Proof. unfold HandleLastWatchEvent. intros H. repeat case_match; by simplify_eq. Qed.

Lemma sys_inv_step s s' : sys_step true s s' → sys_inv s → sys_inv s'.
Proof.
  intros Hs Hi. destruct Hs as [ty val s g' start E|s n newAgg Hn Ha|s l1 newAgg l2 Hp Ho].
  - destruct start; [intros ?; done|]. intros Hz. simpl in *. apply event_no_rebuild in E as ->. by apply Hi.
  - intros _. simpl. by rewrite last_snoc.
  - rewrite (Ho eq_refl) in *. intros Hz. specialize (Hi Hz). rewrite Hp in Hi.
    change ([] ++ newAgg :: l2) with (newAgg :: l2) in Hi. rewrite last_cons in Hi. simpl.
    destruct (last l2) as [a|] eqn:El; [done|]. exact Hi.
Qed.

(** As long as results are published in the order in which their snapshots
    were taken, the aggregate is that of the latest reports whenever no
    rebuild is under way, after any sequence of events. *)
Theorem in_order_up_to_date g s :
  up_to_date g →
  rtc (sys_step true) {| stats := g; spawned := 0; pending := [] |} s →
  quiescent s → up_to_date (stats s).
Proof.
  intros Hg Hr [Hz Hp].
  assert (sys_inv s) as Hi; [|specialize (Hi Hz); by rewrite Hp in Hi].
  remember {| stats := g; spawned := 0; pending := [] |} as s0 eqn:E.
  assert (sys_inv s0) as H0 by (by subst; intros _). clear E.
  induction Hr as [|s1 s2 s3 Hs _ IH]; [done|]. apply IH; [done..|]. by eapply sys_inv_step.
Qed.
End Concurrent.
End Rebuild.

(** ** Instances of the theorems *)
Definition sample_report (ip : string) (rt : Z) : LastTelemetry :=
  {| LastsCongestion :=
       {[ "Paris" := Some {| Count := 2; SumRT := f0; AvgRT := f_of_Z rt; P95RT := 0 |} ]};
     lt_IP := ip; lt_Continent := ""; lt_Country := ""; lt_City := "" |}.

Definition sample_stats : GlobalStats :=
  {| nodeLast := {[ "1.1.1.1" := sample_report "1.1.1.1" 30 ]}; edgeAgg := ∅ |}.

Lemma rebuildAggregate_spec_witness : ∃ g',
  @rebuildAggregate list_order sample_stats = Ret g' ∧
  edgeAgg g' !! "Paris-1.1.1.1" =
    Some {| Count := 2; SumRT := f_of_Z 60; AvgRT := f_of_Z 30; P95RT := 0 |}.
Proof.
  destruct (@rebuildAggregate_spec list_order sample_stats) as [[_ [w Hw]]|(_ & g' & Hg & _ & Hs)].
  - split. intros ip n Hn. cbn in Hn. apply lookup_singleton_Some in Hn as [<- <-]. split; [reflexivity|discriminate].
  - intros ip Hip. apply elem_of_dom in Hip as [n Hn]. cbn in Hn.
    apply lookup_singleton_Some in Hn as [<- _]. reflexivity.
  - vm_compute in Hw. discriminate.
  - exists g'. split; [exact Hg|]. apply Hs.
    exists "1.1.1.1", (sample_report "1.1.1.1" 30), "Paris". eexists.
    split; [apply lookup_singleton_eq|]. split; [apply lookup_singleton_eq|].
    split; [reflexivity|]. split; vm_compute; reflexivity.
Defined.

(** The decoding of two reports of one node, as the watch delivers them. *)
Definition sample_decode (val : string) : option LastTelemetry :=
  if bool_decide (val = "old") then Some (sample_report "1.1.1.1" 30)
  else if bool_decide (val = "new") then Some (sample_report "1.1.1.1" 90)
  else None.

Definition start_system : system := {| stats := NewGlobalStats; spawned := 0; pending := [] |}.

Definition report_agg (rt : Z) : gmap string LastCongestion :=
  {[ "Paris-1.1.1.1" :=
     {| Count := 2; SumRT := f_of_Z (2 * rt); AvgRT := f_of_Z rt; P95RT := 0 |} ]}.

(** Both events, each followed by its snapshot. *)
Lemma two_events (ordered : bool) : rtc (@sys_step list_order sample_decode ordered) start_system
  {| stats := {| nodeLast := {[ "1.1.1.1" := sample_report "1.1.1.1" 90 ]}; edgeAgg := ∅ |};
     spawned := 0; pending := [report_agg 30; report_agg 90] |}.
Proof.
  eapply rtc_l; [by apply (step_event _ _ "CREATE" "old")|].
  eapply rtc_l; [eapply step_snapshot; [done|vm_compute; reflexivity]|].
  eapply rtc_l; [by apply (step_event _ _ "UPDATE" "new")|].
  eapply rtc_once. 
  match goal with |- sys_step _ _ ?s _ => 
    eapply (step_snapshot _ _ s 0 (report_agg 90)); [done|vm_compute; reflexivity] end.
Qed.

Lemma publish_last (ordered : bool) g newAgg : @sys_step list_order sample_decode ordered
  {| stats := g; spawned := 0; pending := [newAgg] |}
  {| stats := publish newAgg g; spawned := 0; pending := [] |}.
Proof. exact (step_publish _ ordered {| stats := g; spawned := 0; pending := [newAgg] |} [] newAgg [] eq_refl (λ _, eq_refl)). Qed.

Lemma in_order_up_to_date_witness :
  up_to_date (stats {| stats := {| nodeLast := {[ "1.1.1.1" := sample_report "1.1.1.1" 90 ]};
    edgeAgg := report_agg 90 |}; spawned := 0; pending := [] |}).
Proof.
  apply (@in_order_up_to_date list_order sample_decode NewGlobalStats).
  - vm_compute. reflexivity.
  - etransitivity; [apply (two_events true)|].
    eapply rtc_l; [apply (step_publish _ _ _ [] (report_agg 30) [report_agg 90]); reflexivity|].
    apply rtc_once. exact (publish_last true _ (report_agg 90)).
  - split; reflexivity.
Defined.

(** Rebuilds that publish out of order leave a stale aggregate: after two
    reports of a node, with every goroutine finished, the routers still see the
    latency of the first report, and will until the next event. *)
Theorem stale_rebuild_overwrites : ∃ decode s,
  rtc (@sys_step list_order decode false) start_system s ∧ quiescent s ∧
  ¬ @up_to_date list_order (stats s) ∧
  AvgRT (GetAggValue "Paris-1.1.1.1" (stats s)) = f_of_Z 30 ∧
  nodeLast (stats s) !! "1.1.1.1" = Some (sample_report "1.1.1.1" 90).
Proof.
  exists sample_decode.
  exists {| stats := {| nodeLast := {[ "1.1.1.1" := sample_report "1.1.1.1" 90 ]};
                        edgeAgg := report_agg 30 |}; spawned := 0; pending := [] |}.
  split; [|split; [done|split; [|split; [reflexivity|reflexivity]]]].
  - etransitivity; [apply (two_events false)|].
    eapply rtc_l; [by apply (step_publish _ _ _ [report_agg 30] (report_agg 90) [])|].
    apply rtc_once. exact (publish_last false _ (report_agg 30)).
  - intros H. vm_compute in H. discriminate.
Qed.
