(* ===== verification/Telemetry.v ===== *)
(** * Telemetry

    What the nodes measure and report: the averages over the probes of a link
    ([control-plane/aggregator/node.go]), the latency of the clients of a city
    ([data-plane/edge-domain/telemetry.go]) and the CPU samples
    ([data-plane/collector/cpu.go]). *)
From S2P Require Import Prelude Float64 FloatDiv GoHeap Records Graph.
Open Scope go_scope.

(** ** [DoClusterWeightedAvg] *)
Section Cluster.
(** The node's own entry of the configuration, [util.Config_.Node]. *)
Record NodeConfig := {
  nc_Provider : string;
  nc_Continent : string;
  nc_Country : string;
  nc_City : string;
  nc_Private : string;
  nc_Public : string;
}.

Record linksCongestion := {
  lc_TargetIP : string;
  PacketLosses : list float64;
  AverageLatencies : list float64;
  lc_ProbeTask : ProbeTask;
}.

(** The samples of each target, in the order of the report. *)
Definition add_probe (total : gmap string linksCongestion) (v : LinkCongestion)
    : gmap string linksCongestion :=
  let t := default {| lc_TargetIP := lk_TargetIP v; PacketLosses := []; AverageLatencies := [];
                      lc_ProbeTask := lk_Target v |} (total !! lk_TargetIP v) in
  <[lk_TargetIP v := {| lc_TargetIP := lc_TargetIP t;
                        PacketLosses := PacketLosses t ++ [PacketLoss v];
                        AverageLatencies := AverageLatencies t ++ [AverageLatency v];
                        lc_ProbeTask := lc_ProbeTask t |}]> total.

(** The sum, divided by the number of samples unless it is zero. *)
Definition average (l : list float64) : float64 :=
  let s := fsum l in
  if negb (feq s f0) && bool_decide (0 < length l) then fdiv s (f_of_nat (length l)) else s.

(** The loop over the targets writes each key once, in whatever order. *)
Definition link_averages (total : gmap string linksCongestion) : gmap string LinkCongestion :=
  map_imap (λ k vs, Some {| lk_TargetIP := k; lk_Target := lc_ProbeTask vs;
                            PacketLoss := average (PacketLosses vs);
                            AverageLatency := average (AverageLatencies vs) |}) total.

Definition cluster_telemetry (c : NodeConfig) (report : VMReport) : NodeTelemetry :=
  {| PublicIP := nc_Public c; nt_Provider := nc_Provider c; nt_Continent := nc_Continent c;
     nt_Country := nc_Country c; nt_City := nc_City c;
     CpuPressure := Usage (vm_CPU report); Cpu := vm_CPU report;
     LinksCongestion := link_averages (foldl add_probe ∅ (vm_LinksCongestion report)) |}.

(** [encode] stands for [json.MarshalIndent]; a value it cannot encode (JSON
    has no infinities) is not sent.  The result is the key and the value that
    are put into etcd. *)
Definition DoClusterWeightedAvg (encode : NodeTelemetry → option string) (c : NodeConfig)
    (report : VMReport) : option (string * string) :=
  match encode (cluster_telemetry c report) with
  | None => None
  | Some jsonData => Some ("/routing-middle/" +:+ nc_Public c, jsonData)
  end.

(** *** The reference: the averages of a target's probes *)
Definition probes_of (ip : string) (links : list LinkCongestion) : list LinkCongestion :=
  filter (λ v, lk_TargetIP v = ip) links.

(** The arithmetic mean: the sum over the number of values. *)
Definition mean (l : list float64) : float64 := fdiv (foldl fadd f0 l) (f_of_Z (Z.of_nat (length l))).

(** A sum that is zero stays zero when it is divided. *)
Lemma average_mean l : l ≠ [] → average l = mean l.
Proof.
  intros Hl. unfold average, mean, fsum, f_of_nat. destruct l as [|x l]; [done|].
  set (s := foldl fadd f0 (x :: l)). clearbody s. rewrite bool_decide_true by (simpl; lia). rewrite andb_true_r.
  destruct (feq s f0) eqn:Hs; [|done]. simpl negb. cbv iota.
  assert (∃ b, s = S754_zero b) as [b ->].
  { unfold feq, f0, SFeqb, SFcompare in Hs. destruct s as [b|[]| |[] m e]; try done. eauto. }
  rewrite (eq_refl : Z.of_nat (length (x :: l)) = Z.pos (Pos.of_succ_nat (length l))).
  by rewrite fdiv_zero_pos.
Qed.

(** What a report says of a target: the means over its probes. *)
Definition target_average (ip : string) (links : list LinkCongestion) : option LinkCongestion :=
  match probes_of ip links with
  | [] => None
  | v :: vs => Some {| lk_TargetIP := ip; lk_Target := lk_Target v;
                       PacketLoss := mean (PacketLoss <$> v :: vs);
                       AverageLatency := mean (AverageLatency <$> v :: vs) |}
  end.

Lemma add_probes_lookup links total ip : foldl add_probe total links !! ip =
  match total !! ip, probes_of ip links with
  | None, [] => None
  | Some t, vs => Some {| lc_TargetIP := lc_TargetIP t;
                          PacketLosses := PacketLosses t ++ (PacketLoss <$> vs);
                          AverageLatencies := AverageLatencies t ++ (AverageLatency <$> vs);
                          lc_ProbeTask := lc_ProbeTask t |}
  | None, (v :: _) as vs => Some {| lc_TargetIP := ip; PacketLosses := PacketLoss <$> vs;
                                    AverageLatencies := AverageLatency <$> vs;
                                    lc_ProbeTask := lk_Target v |}
  end.
Proof.
  revert total. induction links as [|v links IH]; intros total; simpl.
  { destruct (total !! ip) as [[]|]; simpl; by rewrite ?app_nil_r. }
  rewrite IH. unfold add_probe, probes_of. rewrite filter_cons.
  destruct (decide (lk_TargetIP v = ip)) as [<-|Hne].
  - rewrite lookup_insert_eq. destruct (total !! lk_TargetIP v) as [t|]; simpl; [|done].
    by rewrite <-!app_assoc.
  - by rewrite lookup_insert_ne by done.
Qed.

Lemma cluster_links c report ip :
  LinksCongestion (cluster_telemetry c report) !! ip = target_average ip (vm_LinksCongestion report).
Proof.
  simpl. unfold link_averages. rewrite map_lookup_imap, add_probes_lookup, lookup_empty.
  unfold target_average. destruct (probes_of ip _) as [|v vs]; [done|]. simpl.
  by rewrite !average_mean by done.
Qed.
End Cluster.

(** ** Client latencies: [calculateLastCongestion] *)
Section Clients.

(** The fields of [Record] that are read. *)
Record log_record := {
  Ts : Z;
  ConnRT : Z;
  rec_City : string;
}.

(** [10 * time.Second], in nanoseconds. *)
Definition window : Z := 10000000000.

(** The records of the window, or all of them when the window is empty; they
    also replace the stored records. *)
Definition valid_records (now : Z) (records : list log_record) : list log_record :=
  let valid := filter (λ r, now - Ts r ≤ window)%Z records in
  if bool_decide (length valid = 0) && bool_decide (0 < length records) then records else valid.

Definition city_stats : Type := gmap string LastCongestion * gmap string (list Z).

Definition add_record (st : city_stats) (r : log_record) : city_stats :=
  let '(agg, rts) := st in
  let key := rec_City r in
  let s := default zero_LastCongestion (agg !! key) in
  (<[key := {| Count := (Count s + 1)%Z; SumRT := fadd (SumRT s) (f_of_Z (ConnRT r));
               AvgRT := AvgRT s; P95RT := P95RT s |}]> agg,
   <[key := default [] (rts !! key) ++ [ConnRT r]]> rts).

(** [int(float64(n) * 0.95)], at most the last index. *)
Definition p95_index (n : nat) : nat :=
  let p95Idx := f_trunc (fmul (f_of_nat n) (f_of_frac 95 100)) in
  Z.to_nat (if bool_decide (Z.of_nat n ≤ p95Idx)%Z then Z.of_nat n - 1 else p95Idx)%Z.

(** [sort.Ints] sorts in increasing order, which has one result. *)
Definition sort_ints (l : list Z) : list Z := merge_sort Z.le l.

Definition finish_city (s : LastCongestion) (rtList : list Z) : go LastCongestion :=
  let avg := fdiv (SumRT s) (f_of_Z (Count s)) in
  let avg := if fle avg f0 then f1 else avg in
  if bool_decide (length rtList = 0) then
    Ret {| Count := Count s; SumRT := SumRT s; AvgRT := avg; P95RT := P95RT s |}
  else
    let! p95 := index (sort_ints rtList) (p95_index (length rtList)) in
    Ret {| Count := Count s; SumRT := SumRT s; AvgRT := avg;
           P95RT := if bool_decide (p95 ≤ 0)%Z then 1 else p95 |}.

Context `{RO : RangeOrder}.

Definition calculateLastCongestion (now : Z) (records : list log_record)
    : go (gmap string LastCongestion * list log_record) :=
  let valid := valid_records now records in
  let '(agg, rts) := foldl add_record (∅, ∅) valid in
  let! agg := foldl (λ acc '(k, s),
    let! m := acc in
    let! s := finish_city s (default [] (rts !! k)) in
    Ret (<[k := s]> m)) (Ret agg) (range_map 50 agg) in
  Ret (agg, valid).

(** *** The reference: the samples of one city *)
Definition samples (city : string) (valid : list log_record) : list Z :=
  ConnRT <$> filter (λ r, rec_City r = city) valid.

Definition raw_stats (l : list Z) : LastCongestion :=
  {| Count := Z.of_nat (length l); SumRT := fsum (f_of_Z <$> l); AvgRT := f0; P95RT := 0 |}.

Lemma fsum_app l x : fsum (l ++ [x]) = fadd (fsum l) x.
Proof. unfold fsum. by rewrite foldl_app. Qed.

Lemma samples_app city valid r : samples city (valid ++ [r]) =
  samples city valid ++ (if decide (rec_City r = city) then [ConnRT r] else []).
Proof.
  unfold samples. rewrite filter_app, fmap_app, filter_cons. by case_decide.
Qed.

Lemma add_records_lookup valid city :
  let '(agg, rts) := foldl add_record (∅, ∅) valid in
  agg !! city = (if decide (samples city valid = []) then None else Some (raw_stats (samples city valid))) ∧
  default [] (rts !! city) = samples city valid.
Proof.
  induction valid as [|r valid IH] using rev_ind; [simpl; by rewrite !lookup_empty|].
  rewrite foldl_app. simpl. destruct (foldl add_record (∅, ∅) valid) as [agg rts].
  destruct IH as [I1 I2]. unfold add_record. rewrite samples_app.
  destruct (decide (rec_City r = city)) as [<-|Hne].
  - rewrite !lookup_insert_eq, I1, I2. rewrite (decide_False (P := _ ++ _ = [])) by (by intros [_ ?]%app_nil).
    split; [|done]. f_equal. unfold raw_stats.
    destruct (decide (samples (rec_City r) valid = [])) as [->|Hs]; simpl; [done|].
    rewrite length_app, fmap_app. cbn [fmap list_fmap length]. rewrite fsum_app. f_equal. lia.
  - by rewrite !lookup_insert_ne, app_nil_r.
Qed.

(** The index is in range, at most 95 percent of the samples stand before it,
    and with the sample there it is at least 95 percent. *)
Lemma p95_index_spec n : 0 < n → (Z.of_nat n < 2 ^ 47)%Z →
  p95_index n < n ∧ 100 * p95_index n ≤ 95 * n ∧ 95 * n ≤ 100 * (p95_index n + 1).
Proof.
  intros Hn Hb. unfold p95_index. change (f_of_nat n) with (f_of_Z (Z.of_nat n)).
  destruct (trunc_95 (Z.of_nat n) ltac:(lia)) as (H1 & H2 & H3).
  set (t := f_trunc _) in *. clearbody t. rewrite bool_decide_false by lia. lia.
Qed.

Lemma sorted_below (l : list Z) i x : StronglySorted Z.le l → l !! i = Some x →
  i < length (filter (λ y, y ≤ x)%Z l) ∧ length l - i ≤ length (filter (λ y, x ≤ y)%Z l).
Proof.
  intros Hs. revert i. induction Hs as [|a l Hs IH Ha]; intros i Hi; [done|]. rewrite Forall_forall in Ha.
  destruct i as [|i]; simpl in Hi.
  - injection Hi as ->. rewrite !filter_cons, !decide_True by done. simpl. split; [lia|].
    rewrite filter_all; [lia|]. by apply Forall_forall.
  - destruct (IH i Hi) as [I1 I2]. apply list_elem_of_lookup_2, Ha in Hi. rewrite !filter_cons.
    rewrite (decide_True (P := a ≤ x)%Z) by done. split; [simpl; lia|].
    case_decide; simpl; lia.
Qed.

(** [x] is a 95th percentile of [l]: it is one of the samples, at least 95
    percent of them are at most [x], and at least 5 percent are at least [x]. *)
Definition is_p95 (l : list Z) (x : Z) : Prop :=
  x ∈ l ∧ 95 * length l ≤ 100 * length (filter (λ y, y ≤ x)%Z l) ∧
  5 * length l ≤ 100 * length (filter (λ y, x ≤ y)%Z l).

Lemma sort_ints_p95 l x : (Z.of_nat (length l) < 2 ^ 47)%Z →
  sort_ints l !! p95_index (length l) = Some x → is_p95 l x.
Proof.
  intros Hb Hx. pose proof (merge_sort_Permutation Z.le l) as Hp. fold (sort_ints l) in Hp.
  destruct (sorted_below (sort_ints l) _ x (StronglySorted_merge_sort _ l) Hx) as [H1 H2].
  rewrite Hp in H1, H2. split; [rewrite <-Hp; by eapply list_elem_of_lookup_2|].
  assert (0 < length l) as Hl.
  { apply lookup_lt_Some in Hx. apply Permutation_length in Hp. lia. }
  destruct (p95_index_spec (length l) Hl Hb) as (I1 & I2 & I3). lia.
Qed.

(** What is reported for the samples [l] of a city. *)
Definition city_ok (l : list Z) (s : LastCongestion) : Prop :=
  l ≠ [] ∧ Count s = Z.of_nat (length l) ∧ SumRT s = fsum (f_of_Z <$> l) ∧
  AvgRT s = (let avg := fdiv (SumRT s) (f_of_Z (Count s)) in if fle avg f0 then f1 else avg) ∧
  ∃ x, is_p95 l x ∧ P95RT s = Z.max 1 x.

Lemma finish_city_ok l : l ≠ [] → (Z.of_nat (length l) < 2 ^ 47)%Z →
  ∃ s, finish_city (raw_stats l) l = Ret s ∧ city_ok l s.
Proof.
  intros Hne Hb. unfold finish_city.
  assert (0 < length l) as Hpos by (destruct l; [done|simpl; lia]).
  rewrite bool_decide_false by lia.
  destruct (index_lt (sort_ints l) (p95_index (length l))) as (x & Hx & ->).
  { unfold sort_ints. rewrite merge_sort_Permutation. by apply p95_index_spec. }
  cbn [go_bind]. eexists. split; [done|]. split; [done|]. split; [done|]. split; [done|].
  split; [done|]. exists x. split; [by apply sort_ints_p95|]. simpl. case_bool_decide; lia.
Qed.

Lemma fold_cities (f : string → LastCongestion → go LastCongestion) kvs (m : gmap string LastCongestion) :
  (∀ k s, (k, s) ∈ kvs → ∃ s', f k s = Ret s') → NoDup kvs.*1 →
  ∃ m', foldl (λ acc '(k, s), let! m := acc in let! s := f k s in Ret (<[k := s]> m)) (Ret m) kvs = Ret m' ∧
    (∀ k s, (k, s) ∈ kvs → ∃ s', f k s = Ret s' ∧ m' !! k = Some s') ∧
    (∀ k, (k ∉ kvs.*1) → m' !! k = m !! k).
Proof.
  revert m. induction kvs as [|[k s] kvs IH]; intros m Hf Hnd.
  { exists m. split; [done|]. split; [|done]. by intros k s ?%not_elem_of_nil. }
  cbn [fmap list_fmap fst] in Hnd. apply NoDup_cons in Hnd as [Hk Hnd].
  destruct (Hf k s) as [s' Hs]; [left|]. simpl. rewrite Hs. simpl.
  destruct (IH (<[k := s']> m)) as (m' & E & H1 & H2);
    [intros k0 s0 H0; apply (Hf k0 s0); by right|done|].
  exists m'. split; [done|]. split.
  - intros k0 s0 [[= -> ->]|H0]%elem_of_cons; [|by apply H1]. exists s'. split; [done|].
    by rewrite H2, lookup_insert_eq.
  - intros k0 [Hne Hk0]%not_elem_of_cons. rewrite H2 by done. by rewrite lookup_insert_ne.
Qed.

Lemma calculate_statistics now records :
  (Z.of_nat (length records) < 2 ^ 47)%Z →
  ∃ agg, calculateLastCongestion now records = Ret (agg, valid_records now records) ∧
    ∀ city, let l := samples city (valid_records now records) in
      match agg !! city with
      | None => l = []
      | Some s => city_ok l s ∧ fle (AvgRT s) f0 = false
      end.
Proof.
  intros Hb. unfold calculateLastCongestion. set (valid := valid_records now records).
  assert (∀ city, Z.of_nat (length (samples city valid)) < 2 ^ 47)%Z as Hlen.
  { intros city. unfold samples. rewrite length_fmap.
    pose proof (length_filter (λ r, rec_City r = city) valid).
    assert (length valid ≤ length records); [|lia]. unfold valid, valid_records.
    case_match; [done|apply length_filter]. }
  pose proof (add_records_lookup valid) as Hl. destruct (foldl add_record (∅, ∅) valid) as [agg rts].
  assert (∀ k s, (k, s) ∈ range_map 50 agg → samples k valid ≠ [] ∧ s = raw_stats (samples k valid)) as Hs.
  { intros k s. rewrite range_map_elem. destruct (Hl k) as [-> _]. case_decide; [done|]. by intros [= <-]. }
  destruct (fold_cities (λ k s, finish_city s (default [] (rts !! k))) (range_map 50 agg) agg)
    as (agg' & E & H1 & H2); [|apply range_map_NoDup|].
  { intros k s [Hne ->]%Hs. destruct (Hl k) as [_ ->].
    destruct (finish_city_ok (samples k valid) Hne (Hlen k)) as (s' & ? & _). eauto. }
  rewrite E. cbn [go_bind]. exists agg'. split; [done|]. intros city. set (l := samples city valid).
  destruct (agg !! city) as [s|] eqn:Ea.
  - apply (range_map_elem 50) in Ea. destruct (Hs _ _ Ea) as [Hne ->].
    destruct (H1 _ _ Ea) as (s' & Hf & ->). destruct (Hl city) as [_ Hr]. rewrite Hr in Hf.
    destruct (finish_city_ok l Hne (Hlen city)) as (s'' & Hf' & Hok).
    change (finish_city (raw_stats l) l = Ret s') in Hf. rewrite Hf in Hf'. injection Hf' as <-. split; [done|].
    destruct Hok as (_ & _ & _ & -> & _). cbv zeta.
    set (avg := fdiv (SumRT s') _). by destruct (fle avg f0) eqn:Ef.
  - rewrite H2.
    + rewrite Ea. destruct (Hl city) as [Hn _]. rewrite Ea in Hn. by case_decide.
    + intros ([k s] & -> & Hin)%list_elem_of_fmap. apply range_map_elem in Hin. simpl in Ea. congruence.
Qed.

(** The records that are used and kept, [window] and fallback spelled out. *)
Lemma valid_records_spec now records :
  let kept := valid_records now records in
  (kept = filter (λ r, now - Ts r ≤ 10000000000)%Z records ∧ kept ≠ []) ∨
  (kept = records ∧ Forall (λ r, 10000000000 < now - Ts r)%Z records).
Proof.
  unfold valid_records, window. set (f := filter _ records). destruct (decide (f = [])) as [Hf|Hf].
  - right. assert (Forall (λ r, 10000000000 < now - Ts r)%Z records) as Hall.
    { apply Forall_forall. intros r Hr. destruct (decide (now - Ts r ≤ 10000000000)%Z) as [Hle|?]; [|lia].
      exfalso. apply (not_elem_of_nil r). rewrite <-Hf. by apply list_elem_of_filter. }
    split; [|done]. rewrite Hf. simpl. destruct records; [done|]. by rewrite bool_decide_true by (simpl; lia).
  - left. assert (length f ≠ 0) by (by destruct f). rewrite bool_decide_false by done. done.
Qed.

(** C37: [calculateLastCongestion] never panics (for fewer than 2^47 records): the
    index of the percentile is always in range.  The records used, and kept, are
    those of the last ten seconds, or all of them when none is that recent.  A
    city is reported exactly when it has one of them; its count and sum are
    those of its response times, the average is their quotient, or 1 when that
    is not above 0, and the percentile is a 95th percentile of the response
    times, raised to 1: at least 95 percent of them are at most that, and at
    least 5 percent at least that. *)
Theorem calculateLastCongestion_correct now records :
  (Z.of_nat (length records) < 2 ^ 47)%Z →
  ∃ agg kept, calculateLastCongestion now records = Ret (agg, kept) ∧
    ((kept = filter (λ r, now - Ts r ≤ 10000000000)%Z records ∧ kept ≠ []) ∨
     (kept = records ∧ Forall (λ r, 10000000000 < now - Ts r)%Z records)) ∧
    ∀ city, let l := ConnRT <$> filter (λ r, rec_City r = city) kept in
      match agg !! city with
      | None => l = []
      | Some s => city_ok l s ∧ fle (AvgRT s) f0 = false
      end.
Proof.
  intros Hb. destruct (calculate_statistics now records Hb) as (agg & E & H).
  exists agg, (valid_records now records). split; [exact E|]. split; [apply valid_records_spec|exact H].
Qed.
End Clients.

(** ** CPU samples: [sample] and [collectCPU] *)
Section Sampler.
Record sampler := {
  prevUsage : float64;
  currUsage : float64;
  maxDelta : float64;
  firstSample : bool;
}.

(** The variables when [runSampler] starts. *)
Definition new_sampler : sampler :=
  {| prevUsage := f0; currUsage := f0; maxDelta := f0; firstSample := true |}.

(** [measured] is the result of [getProcessCPU]. *)
Definition sample (st : sampler) (measured : float64 + string) : sampler :=
  match measured with
  | inr _ => st
  | inl percent =>
      let d := fabs (fsub percent (prevUsage st)) in
      {| prevUsage := percent; currUsage := percent;
         maxDelta := if negb (firstSample st) && flt (maxDelta st) d then d else maxDelta st;
         firstSample := false |}
  end.

Definition collectCPU (physicalCores logicalCores : Z) (st : sampler) : CPUInfo * sampler :=
  let usage := currUsage st in
  ({| PhysicalCore := physicalCores; LogicalCore := logicalCores;
      Usage := if fle usage f1 then f1 else usage; Load1Min := f0; LoadDelta := maxDelta st |},
   {| prevUsage := prevUsage st; currUsage := currUsage st; maxDelta := f0; firstSample := true |}).

(** The reference: the largest step between consecutive samples. *)
Definition steps_of (xs : list float64) : list float64 :=
  zip_with (λ a b, fabs (fsub b a)) xs (tail xs).

Definition largest (l : list float64) : float64 := foldl (λ m d, if flt m d then d else m) f0 l.

(** The samples that could be taken. *)
Definition taken (ms : list (float64 + string)) : list float64 :=
  omap (λ m, match m with inl x => Some x | inr _ => None end) ms.

Lemma samples_taken ms st : foldl sample st ms = foldl sample st (inl <$> taken ms).
Proof. revert st. induction ms as [|[x|e] ms IH]; intros st; simpl; [done|apply IH|apply IH]. Qed.

Lemma later_samples xs st : firstSample st = false →
  let st' := foldl sample st (inl <$> xs) in
  maxDelta st' = foldl (λ m d, if flt m d then d else m) (maxDelta st) (steps_of (prevUsage st :: xs)) ∧
  currUsage st' = default (currUsage st) (last xs).
Proof.
  revert st. induction xs as [|x xs IH]; intros st Hf; [done|].
  cbn [fmap list_fmap foldl]. destruct (IH (sample st (inl x)) eq_refl) as [-> ->].
  split; [simpl; by rewrite Hf|]. rewrite last_cons. by destruct (last xs).
Qed.

(** A report of the CPU covers exactly the samples since the last report:
    its usage is the last sample, at least 1, and its delta the largest step
    between two consecutive samples of the window, 0 when there are fewer than
    two; failed measurements count for nothing. *)
Theorem collectCPU_window pc lc pc' lc' st ms : taken ms ≠ [] →
  let xs := taken ms in
  let info := (collectCPU pc lc (foldl sample (collectCPU pc' lc' st).2 ms)).1 in
  LoadDelta info = largest (steps_of xs) ∧
  ∃ x, last xs = Some x ∧ Usage info = if fle x f1 then f1 else x.
Proof.
  intros Hne xs. rewrite samples_taken. fold xs. unfold xs in Hne |- *.
  destruct (taken ms) as [|x xs']; [done|]. cbn [fmap list_fmap foldl].
  match goal with |- context [foldl sample ?s (inl <$> xs')] =>
    destruct (later_samples xs' s eq_refl) as [H1 H2] end.
  cbn [collectCPU fst LoadDelta Usage]. rewrite H1, H2. split; [done|].
  destruct (last_is_Some (x :: xs')) as [_ [y Hy]]; [done|]. exists y. split; [done|].
  rewrite last_cons in Hy. simpl. by destruct (last xs'); simplify_eq/=.
Qed.
End Sampler.

(** ** From a report to the graph *)
Section ToGraph.
Context `{ML : MathLib} `{RO : RangeOrder}.

(** A report of a node reaches the graph.  When etcd delivers what
    [DoClusterWeightedAvg] has put, and the JSON decodes to what was encoded,
    the graph's entry of the reporting node holds its CPU figures and, for
    exactly the targets it has probed, the averages over the probes of that
    target. *)
Theorem report_reaches_graph encode decode c report event key val g :
  (∀ s, encode (cluster_telemetry c report) = Some s →
     s ≠ "" ∧ decode s = Some (cluster_telemetry c report)) →
  event = "CREATE" ∨ event = "UPDATE" →
  DoClusterWeightedAvg encode c report = Some (key, val) →
  ∃ t, GetNode (HandleRoutingWatchEvent decode event val g) (nc_Public c) = Some t ∧
    Cpu t = vm_CPU report ∧ CpuPressure t = Usage (vm_CPU report) ∧
    ∀ ip, LinksCongestion t !! ip = target_average ip (vm_LinksCongestion report).
Proof.
  intros Hj Hev. unfold DoClusterWeightedAvg.
  destruct (encode _) as [s|] eqn:E; [|done]. intros [= <- <-].
  destruct (Hj s eq_refl) as [Hs Hd]. exists (cluster_telemetry c report).
  split; [|split; [done|split; [done|apply cluster_links]]].
  unfold HandleRoutingWatchEvent. rewrite bool_decide_false, Hd by done.
  assert (bool_decide (event = "CREATE") || bool_decide (event = "UPDATE") = true) as ->
    by (by destruct Hev as [-> | ->]).
  unfold GetNode, AddNode. rewrite add_links_nodes. apply lookup_insert_eq.
Qed.
End ToGraph.

(** ** Instances of the theorems *)
Definition paris (ts rt : Z) : log_record := {| Ts := ts; ConnRT := rt; rec_City := "Paris" |}.

Lemma calculateLastCongestion_correct_witness : ∃ agg s,
  calculateLastCongestion 20000000000 [paris 0 900; paris 15000000000 30; paris 16000000000 50]
    = Ret (agg, [paris 15000000000 30; paris 16000000000 50]) ∧
  agg !! "Paris" = Some s ∧ Count s = 2%Z ∧ P95RT s = 50%Z ∧ fle (AvgRT s) f0 = false.
Proof.
  destruct (calculateLastCongestion_correct 20000000000
    [paris 0 900; paris 15000000000 30; paris 16000000000 50]) as (agg & kept & E & Hkept & H); [simpl; lia|].
  assert (kept = [paris 15000000000 30; paris 16000000000 50]) as ->.
  { destruct Hkept as [[-> _]|[_ Hold]]; [reflexivity|]. exfalso.
    apply Forall_cons in Hold as [_ [Hold _]%Forall_cons]. simpl in Hold. lia. }
  exists agg. specialize (H "Paris"). destruct (agg !! "Paris") as [s|].
  - exists s. split; [exact E|]. split; [reflexivity|].
    destruct H as [(_ & Hc & _ & _ & x & (Hx & Hlow & _) & Hp) Ha].
    split; [exact Hc|]. split; [|exact Ha]. rewrite Hp. clear E Hkept Ha.
    change (x ∈ [30; 50]%Z) in Hx.
    apply elem_of_cons in Hx as [->|[->|Hx%not_elem_of_nil]%elem_of_cons]; [|reflexivity|done].
    vm_compute in Hlow. lia.
  - vm_compute in H. discriminate H.
Defined.

Lemma collectCPU_window_witness :
  LoadDelta (collectCPU 1 2 (foldl sample (collectCPU 1 2 new_sampler).2
    [inl (f_of_Z 10); inr "no process"; inl (f_of_Z 40); inl (f_of_Z 35)])).1 = f_of_Z 30.
Proof.
  destruct (collectCPU_window 1 2 1 2 new_sampler
    [inl (f_of_Z 10); inr "no process"; inl (f_of_Z 40); inl (f_of_Z 35)]) as [H _]; [discriminate|].
  etransitivity; [exact H|]. vm_compute. reflexivity.
Defined.

Definition two_probes : VMReport :=
  let probe lat := {| lk_TargetIP := "2.2.2.2"; lk_Target := lk_Target sample_link;
                      PacketLoss := f0; AverageLatency := f_of_Z lat |} in
  {| VMID := ""; CollectTime := None; ReportID := ""; vm_CPU := zero_CPUInfo;
     vm_Memory := zero_MemoryInfo; vm_Disk := zero_DiskInfo; vm_Network := zero_NetworkInfo;
     vm_OS := zero_OSInfo; vm_Process := zero_ProcessInfo;
     vm_LinksCongestion := [probe 10%Z; probe 30%Z] |}.

Definition some_config : NodeConfig :=
  {| nc_Provider := ""; nc_Continent := ""; nc_Country := ""; nc_City := ""; nc_Private := "";
     nc_Public := "1.1.1.1" |}.

Lemma report_reaches_graph_witness : ∃ t,
  GetNode (@HandleRoutingWatchEvent flat_math list_order
    (λ _, Some (cluster_telemetry some_config two_probes)) "UPDATE" "json" NewGraphManager) "1.1.1.1"
    = Some t ∧ (AverageLatency <$> LinksCongestion t !! "2.2.2.2") = Some (f_of_Z 20).
Proof.
  destruct (@report_reaches_graph flat_math list_order (λ _, Some "json")
    (λ _, Some (cluster_telemetry some_config two_probes)) some_config two_probes "UPDATE"
    "/routing-middle/1.1.1.1" "json" NewGraphManager) as (t & Ht & _ & _ & Hl).
  - intros s [= <-]. split; [discriminate|reflexivity].
  - right. reflexivity.
  - reflexivity.
  - exists t. split; [exact Ht|]. rewrite Hl. vm_compute. reflexivity.
Defined.
