(* ===== verification/Probing.v ===== *)
(** * Probing

    [data-plane/probing]: the rounds that measure the links of a node
    ([tcpprobe.go]), the tasks it asks the control plane for ([get-task.go]),
    and the links of a report made from the results
    ([data-plane/collector/links.go]).  The outcome of each dial is an argument:
    the program cannot know it. *)
From Stdlib Require Import SpecFloat.
From S2P Require Import Prelude Float64 FloatDiv Records Telemetry.
Local Open Scope Z_scope.

(** Durations are nanoseconds, as an [int64]. *)
Record Result := {
  Target : ProbeTask;
  Attempts : Z;
  Failures : Z;
  LossRate : float64;
  AvgRTT_ns : Z;
}.

Record probe_config := {
  Concurrency : Z;
  Timeout : Z;
  Interval : Z;
  cfg_Attempts : Z;
}.

(** The defaults at the beginning of [StartProbePeriodically]. *)
Definition probe_defaults (cfg : probe_config) : probe_config :=
  {| Concurrency := if bool_decide (Concurrency cfg ≤ 0) then 4 else Concurrency cfg;
     Timeout := if bool_decide (Timeout cfg ≤ 0) then 2000000000 else Timeout cfg;
     Interval := if bool_decide (Interval cfg ≤ 0) then 5000000000 else Interval cfg;
     cfg_Attempts := if bool_decide (cfg_Attempts cfg ≤ 0) then 5 else cfg_Attempts cfg |}.

(** What a dial comes to, with the time it took: a connection, a timeout, or
    another error (a refusal, an unreachable network, a bad address). *)
Inductive dial :=
| Connected (rtt : Z)
| TimedOut
| OtherError (rtt : Z).

(** One turn of the loop over the attempts; the state is [failures],
    [totalRTT] and [successes]. *)
Definition attempt (st : Z * Z * Z) (d : dial) : Z * Z * Z :=
  let '(failures, totalRTT, successes) := st in
  match d with
  | TimedOut => (failures + 1, totalRTT, successes)
  | Connected rtt | OtherError rtt => (failures, int64 (totalRTT + rtt), successes + 1)
  end.

(** The work of a worker on one target; [dials] is the outcome of each
    attempt. *)
Definition probe_target (cfg : probe_config) (target : ProbeTask) (dials : nat → dial) : Result :=
  let '(failures, totalRTT, successes) :=
    foldl attempt (0, 0, 0) (dials <$> seq 0 (Z.to_nat (cfg_Attempts cfg))) in
  let avg := if bool_decide (0 < successes) then Z.quot totalRTT successes else 0 in
  {| Target := target; Attempts := cfg_Attempts cfg; Failures := failures;
     LossRate := fdiv (f_of_Z failures) (f_of_Z (cfg_Attempts cfg));
     AvgRTT_ns := if bool_decide (avg ≤ 0) then 1 else avg |}.

(** ** A round: [doProbeLossRTT]

    The targets go through an unbuffered channel to [Concurrency] workers; each
    worker appends its result under a lock.  [r_todo] are the jobs not yet
    taken, by their position in the list, [r_busy] those of the workers. *)
Record probe_round := {
  r_todo : list (nat * ProbeTask);
  r_busy : list (nat * ProbeTask);
  roundResults : list Result;
}.

Definition round_init (targets : list ProbeTask) : probe_round :=
  {| r_todo := imap pair targets; r_busy := []; roundResults := [] |}.

Section Round.
(** The outcome of each attempt of each job. *)
Variables (cfg : probe_config) (dials : nat → nat → dial).

Definition job_result (j : nat * ProbeTask) : Result := probe_target cfg j.2 (dials j.1).

Inductive round_step : relation probe_round :=
| rs_take s j rest :
    r_todo s = j :: rest → Z.of_nat (length (r_busy s)) < Concurrency cfg →
    round_step s {| r_todo := rest; r_busy := j :: r_busy s; roundResults := roundResults s |}
| rs_done s j b1 b2 :
    r_busy s = b1 ++ j :: b2 →
    round_step s {| r_todo := r_todo s; r_busy := b1 ++ b2;
                    roundResults := roundResults s ++ [job_result j] |}.

(** [wg.Wait()] returns: the channel is closed and every worker has left. *)
Definition round_over (s : probe_round) : Prop := r_todo s = [] ∧ r_busy s = [].

Definition round_work (s : probe_round) : nat := 2 * length (r_todo s) + length (r_busy s).

Lemma round_step_work s s' : round_step s s' → round_work s = S (round_work s').
Proof.
  unfold round_work. intros [? j rest H _|? j b1 b2 H]; rewrite H; simpl; [lia|].
  rewrite !length_app. simpl. lia.
Qed.

Lemma round_step_jobs s s' : round_step s s' →
  (job_result <$> r_todo s' ++ r_busy s') ++ roundResults s' ≡ₚ
  (job_result <$> r_todo s ++ r_busy s) ++ roundResults s.
Proof.
  intros [? j rest H _|? j b1 b2 H]; rewrite H; simpl; rewrite !fmap_app; simpl; solve_Permutation.
Qed.

Lemma round_step_busy s s' : round_step s s' → Z.of_nat (length (r_busy s)) ≤ Z.max 0 (Concurrency cfg) →
  Z.of_nat (length (r_busy s')) ≤ Z.max 0 (Concurrency cfg).
Proof.
  intros [? j rest H Hc|? j b1 b2 H]; simpl; [lia|]. rewrite H, !length_app. simpl. lia.
Qed.

Lemma round_reachable targets s : rtc round_step (round_init targets) s →
  (job_result <$> r_todo s ++ r_busy s) ++ roundResults s ≡ₚ imap (λ i t, job_result (i, t)) targets ∧
  Z.of_nat (length (r_busy s)) ≤ Z.max 0 (Concurrency cfg).
Proof.
  intros Hr. cut ((job_result <$> r_todo s ++ r_busy s) ++ roundResults s ≡ₚ
    (job_result <$> r_todo (round_init targets) ++ r_busy (round_init targets)) ++
      roundResults (round_init targets) ∧
    (Z.of_nat (length (r_busy (round_init targets))) ≤ Z.max 0 (Concurrency cfg) →
     Z.of_nat (length (r_busy s)) ≤ Z.max 0 (Concurrency cfg))).
  { intros [H1 H2]. split; [|apply H2; simpl; lia]. rewrite H1. simpl. rewrite !app_nil_r.
    apply eq_subrelation; [typeclasses eauto|]. apply list_eq. intros i.
    rewrite list_lookup_fmap, !list_lookup_imap. by destruct (targets !! i). }
  induction Hr as [s|s1 s2 s3 Hs _ [IH1 IH2]]; [done|]. split.
  - rewrite IH1. by apply round_step_jobs.
  - intros H. apply IH2. by eapply round_step_busy.
Qed.

Lemma round_not_stuck s : 0 < Concurrency cfg → ¬ round_over s → ∃ s', round_step s s'.
Proof.
  intros Hc Hn. destruct (r_busy s) as [|j b] eqn:Hb.
  - destruct (r_todo s) as [|j rest] eqn:Ht; [by exfalso; apply Hn|].
    eexists. eapply (rs_take s); [done|]. by rewrite Hb.
  - eexists. by eapply (rs_done s j [] b).
Qed.
End Round.

(** ** The latest results *)

(** The results of a round, in the order the workers finished. *)
Definition updateLatestResults (results : list Result) (latest : gmap string Result) : gmap string Result :=
  foldl (λ m r, <[pt_IP (Target r) := r]> m) latest results.

Section Latest.
Context `{RO : RangeOrder}.

Definition GetLatestResults (latest : gmap string Result) : gmap string Result :=
  foldl (λ m kv, <[kv.1 := kv.2]> m) ∅ (range_map 62 latest).

(** [time.Duration.Milliseconds] *)
Definition Milliseconds (d : Z) : Z := Z.quot d 1000000.

Definition BuildLinkCongestion (latest : gmap string Result) : list LinkCongestion :=
  (λ '(target, r), {| lk_TargetIP := target; lk_Target := Target r; PacketLoss := LossRate r;
                      AverageLatency := f_of_Z (Milliseconds (AvgRTT_ns r)) |}) <$>
  range_map 63 (GetLatestResults latest).

(** The copy is the map. *)
Lemma GetLatestResults_same latest : GetLatestResults latest = latest.
Proof. apply range_map_copy. Qed.

(** Each target has one entry in the report. *)
Lemma BuildLinkCongestion_probes latest ip :
  probes_of ip (BuildLinkCongestion latest) =
  match latest !! ip with
  | Some r => [{| lk_TargetIP := ip; lk_Target := Target r; PacketLoss := LossRate r;
                  AverageLatency := f_of_Z (Milliseconds (AvgRTT_ns r)) |}]
  | None => []
  end.
Proof.
  unfold BuildLinkCongestion, probes_of. rewrite GetLatestResults_same.
  destruct (latest !! ip) as [r|] eqn:Hip.
  - destruct (range_map_split 63 latest ip r Hip) as (l1 & l2 & -> & Hne).
    rewrite fmap_app, fmap_cons, filter_app, filter_cons_True by done.
    rewrite !list_filter_none; [done|..]; apply Forall_fmap, Forall_forall; intros [k v] Hin; simpl;
      apply (Hne k v); apply elem_of_app; auto.
  - rewrite list_filter_none; [done|]. apply Forall_fmap, Forall_forall. intros [k v] Hin. simpl.
    apply range_map_elem in Hin. congruence.
Qed.

(** ** Tasks *)

(** The answer of the control plane as the node decodes it. *)
Record tasks_response := {
  tr_Code : Z;
  tr_Data : list ProbeTask;
}.

(** [GetProbeTasks] of the node: the request, the body and the decoding may
    fail. *)
Definition fetch_tasks (answer : option (option (option tasks_response))) : list ProbeTask + string :=
  match answer with
  | None => inr "request api failed"
  | Some None => inr "read response failed"
  | Some (Some None) => inr "parse json failed"
  | Some (Some (Some r)) =>
      if bool_decide (tr_Code r = 200) then inl (tr_Data r) else inr "api returned error"
  end.

(** One turn of the loop of [StartProbePeriodically]: without tasks the results
    stay as they are, otherwise a round is run to its end. *)
Inductive probe_tick (cfg : probe_config) : relation (gmap string Result) :=
| pt_error answer err latest :
    fetch_tasks answer = inr err → probe_tick cfg latest latest
| pt_round answer targets dials s latest :
    fetch_tasks answer = inl targets →
    rtc (round_step (probe_defaults cfg) dials) (round_init targets) s → round_over s →
    probe_tick cfg latest (updateLatestResults (roundResults s) latest).
End Latest.

Lemma updateLatestResults_lookup results latest ip :
  updateLatestResults results latest !! ip =
  match last (filter (λ r, pt_IP (Target r) = ip) results) with
  | Some r => Some r
  | None => latest !! ip
  end.
Proof.
  unfold updateLatestResults. induction results as [|r results IH] using rev_ind; [done|].
  rewrite foldl_app. simpl. rewrite filter_app. destruct (decide (pt_IP (Target r) = ip)) as [<-|Hne].
  - rewrite lookup_insert_eq, filter_cons_True by done. by rewrite filter_nil, last_snoc.
  - rewrite lookup_insert_ne, filter_cons_False by done. by rewrite filter_nil, app_nil_r, IH.
Qed.

(** ** What a worker measures *)
Definition timed_out (d : dial) : bool := match d with TimedOut => true | _ => false end.
Definition rtt_of (d : dial) : option Z :=
  match d with TimedOut => None | Connected rtt | OtherError rtt => Some rtt end.

Definition timeouts (l : list dial) : Z := Z.of_nat (length (filter (λ d, timed_out d = true) l)).
Definition sum_Z (l : list Z) : Z := foldr Z.add 0 l.

Lemma timeouts_cons d l : timeouts (d :: l) = (if timed_out d then 1 else 0) + timeouts l.
Proof. unfold timeouts. rewrite filter_cons. destruct d; simpl; lia. Qed.

Lemma timeouts_range l : 0 ≤ timeouts l ≤ Z.of_nat (length l).
Proof. unfold timeouts. pose proof (length_filter (λ d, timed_out d = true) l). lia. Qed.

Lemma sum_Z_nonneg l : Forall (λ x, 0 ≤ x) l → 0 ≤ sum_Z l.
Proof. induction 1; simpl; lia. Qed.

Lemma attempts_counts l f t s : ∃ t', foldl attempt (f, t, s) l =
  (f + timeouts l, t', s + Z.of_nat (length (omap rtt_of l))).
Proof.
  revert f t s. induction l as [|d l IH]; intros f t s.
  { exists t. simpl. f_equal; [f_equal|]; unfold timeouts; simpl; lia. }
  rewrite timeouts_cons. destruct d as [rtt| |rtt]; cbn [foldl attempt omap list_omap rtt_of timed_out length];
    [destruct (IH f (int64 (t + rtt)) (s + 1)) as [t' ->]
    |destruct (IH (f + 1) t s) as [t' ->]
    |destruct (IH f (int64 (t + rtt)) (s + 1)) as [t' ->]]; exists t';
    (apply pair_equal_spec; split; [apply pair_equal_spec; split|]; cbn [length]; (lia || reflexivity)).
Qed.

Lemma attempts_total l f t s : Forall (λ x, 0 ≤ x) (omap rtt_of l) → 0 ≤ t →
  t + sum_Z (omap rtt_of l) < 2 ^ 63 → (foldl attempt (f, t, s) l).1.2 = t + sum_Z (omap rtt_of l).
Proof.
  revert f t s. induction l as [|d l IH]; intros f t s Hl Ht Hs; [simpl; lia|].
  assert (∀ rtt, omap rtt_of (d :: l) = rtt :: omap rtt_of l →
    (foldl attempt (f, int64 (t + rtt), s + 1) l).1.2 = t + sum_Z (omap rtt_of (d :: l))) as Hgo.
  { intros rtt E. rewrite E in *. apply Forall_cons in Hl as [Hr Hl]. pose proof (sum_Z_nonneg _ Hl).
    cbn [sum_Z foldr] in *. fold (sum_Z (omap rtt_of l)) in *.
    rewrite int64_id by lia. rewrite IH; [lia|done|lia|lia]. }
  destruct d as [rtt| |rtt]; [by apply Hgo|by apply IH|by apply Hgo].
Qed.

(** The measurement of a target, from the outcomes of its attempts: the
    failures are the timeouts, the loss rate is a number between 0 and 1, and
    the round-trip time is the average over all other outcomes, cut to whole
    nanoseconds and at least one. *)
Definition measured (cfg : probe_config) (dials : nat → dial) (r : Result) : Prop :=
  let ds := dials <$> seq 0 (Z.to_nat (cfg_Attempts cfg)) in
  let rtts := omap rtt_of ds in
  Attempts r = cfg_Attempts cfg ∧ Failures r = timeouts ds ∧ 0 ≤ Failures r ≤ Attempts r ∧
  LossRate r = fdiv (f_of_Z (Failures r)) (f_of_Z (Attempts r)) ∧
  fle f0 (LossRate r) = true ∧ fle (LossRate r) f1 = true ∧ 1 ≤ AvgRTT_ns r ∧
  (Forall (λ x, 0 ≤ x) rtts → sum_Z rtts < 2 ^ 63 →
   AvgRTT_ns r = Z.max 1 (sum_Z rtts / Z.of_nat (length rtts))).

Lemma probe_target_measured cfg t dials : 0 < cfg_Attempts cfg < 2 ^ 53 →
  Target (probe_target cfg t dials) = t ∧ measured cfg dials (probe_target cfg t dials).
Proof.
  intros Hn. unfold probe_target, measured.
  set (ds := dials <$> seq 0 (Z.to_nat (cfg_Attempts cfg))).
  assert (Z.of_nat (length ds) = cfg_Attempts cfg) as Hlen.
  { unfold ds. rewrite length_fmap, length_seq. lia. }
  destruct (attempts_counts ds 0 0 0) as [t' E]. rewrite E. rewrite !Z.add_0_l.
  cbn [Target Attempts Failures LossRate AvgRTT_ns].
  pose proof (timeouts_range ds) as Hr. rewrite Hlen in Hr.
  destruct (f_ratio_unit (timeouts ds) (cfg_Attempts cfg)) as [H0 H1]; [lia|lia|].
  split_and!; try done; try lia.
  - case_bool_decide; lia.
  - intros Hnn Hs. pose proof (attempts_total ds 0 0 0 Hnn) as Ht. rewrite E in Ht.
    cbn [fst snd] in Ht. rewrite Ht by lia. rewrite Z.add_0_l. pose proof (sum_Z_nonneg _ Hnn).
    destruct (decide (0 < Z.of_nat (length (omap rtt_of ds)))) as [Hp|Hp].
    + rewrite (bool_decide_true (0 < _)) by done. rewrite Z.quot_div_nonneg by lia. case_bool_decide; lia.
    + rewrite (bool_decide_false (0 < _)) by done. destruct (omap rtt_of ds); [done|simpl in Hp; lia].
Qed.

Lemma probe_defaults_ok cfg : 0 < Concurrency (probe_defaults cfg) ∧ 0 < cfg_Attempts (probe_defaults cfg).
Proof. simpl. split; case_bool_decide; lia. Qed.

Lemma round_bounded cfg dials n s s' : nsteps (round_step cfg dials) n s s' → (n ≤ round_work s)%nat.
Proof.
  induction 1 as [s|n s1 s2 s3 Hs _ IH]; [lia|]. apply round_step_work in Hs. lia.
Qed.

(** What is known of an address after a round that is over. *)
Lemma round_latest cfg dials targets s latest ip :
  0 < cfg_Attempts cfg < 2 ^ 53 → rtc (round_step cfg dials) (round_init targets) s → round_over s →
  (∃ i t r, targets !! i = Some t ∧ pt_IP t = ip ∧ r = probe_target cfg t (dials i) ∧
     updateLatestResults (roundResults s) latest !! ip = Some r) ∨
  ((∀ t, t ∈ targets → pt_IP t ≠ ip) ∧ updateLatestResults (roundResults s) latest !! ip = latest !! ip).
Proof.
  intros Hn Hr [E1 E2]. destruct (round_reachable _ _ _ _ Hr) as [Hj _].
  rewrite E1, E2 in Hj. simpl in Hj. rewrite updateLatestResults_lookup.
  destruct (last (filter _ (roundResults s))) as [r|] eqn:El.
  - left. apply last_Some in El as [l' El].
    assert (r ∈ filter (λ r, pt_IP (Target r) = ip) (roundResults s)) as Hin.
    { rewrite El. apply elem_of_app. right. by left. }
    apply list_elem_of_filter in Hin as [Hip Hin]. rewrite Hj in Hin.
    apply elem_of_lookup_imap in Hin as (i & t & -> & Ht).
    destruct (probe_target_measured cfg t (dials i)) as [HT Hm]; [lia|].
    exists i, t, (probe_target cfg t (dials i)). split_and!; try done. by rewrite <-HT.
  - right. split; [|done]. intros t [i Ht]%list_elem_of_lookup <-. apply last_None in El.
    assert (probe_target cfg t (dials i) ∈ filter (λ r, pt_IP (Target r) = pt_IP t) (roundResults s)) as Hin.
    { apply list_elem_of_filter. split; [by rewrite (proj1 (probe_target_measured cfg t (dials i) ltac:(lia)))|].
      rewrite Hj. apply elem_of_lookup_imap. eauto. }
    rewrite El in Hin. by apply not_elem_of_nil in Hin.
Qed.

(** C22: a round of probes.  Whatever the order in which the workers take and
    finish their targets: the round never blocks and ends after two steps per
    target; at most [Concurrency] targets are probed at a time; and when it is
    over there is exactly one measurement per target of the list, each target
    address has in the latest results a measurement of this round, and all
    other addresses keep what they had, for ever. *)
Theorem probe_round_correct cfg dials targets s latest :
  let cfg' := probe_defaults cfg in
  cfg_Attempts cfg' < 2 ^ 53 → rtc (round_step cfg' dials) (round_init targets) s →
  (round_over s ∨ ∃ s', round_step cfg' dials s s') ∧
  (∀ n s', nsteps (round_step cfg' dials) n (round_init targets) s' → (n ≤ 2 * length targets)%nat) ∧
  Z.of_nat (length (r_busy s)) ≤ Concurrency cfg' ∧
  (round_over s →
     roundResults s ≡ₚ imap (λ i t, probe_target cfg' t (dials i)) targets ∧
     ∀ ip, (∃ i t r, targets !! i = Some t ∧ pt_IP t = ip ∧ Target r = t ∧ measured cfg' (dials i) r ∧
              updateLatestResults (roundResults s) latest !! ip = Some r) ∨
           ((∀ t, t ∈ targets → pt_IP t ≠ ip) ∧
              updateLatestResults (roundResults s) latest !! ip = latest !! ip)).
Proof.
  intros cfg' Ha Hr. destruct (probe_defaults_ok cfg) as [Hc Hn]. fold cfg' in Hc, Hn.
  destruct (round_reachable _ _ _ _ Hr) as [Hj Hb]. split_and!.
  - destruct (decide (r_todo s = [] ∧ r_busy s = [])) as [?|Hno]; [by left|right]. by apply round_not_stuck.
  - intros n s' Hs. apply round_bounded in Hs. unfold round_work in Hs. simpl in Hs.
    rewrite length_imap in Hs. lia.
  - lia.
  - intros Ho. split; [destruct Ho as [E1 E2]; by rewrite E1, E2 in Hj|]. intros ip.
    destruct (round_latest cfg' dials targets s latest ip) as [(i & t & r & Ht & Hip & -> & E)|?];
      [lia|done|done| |by right].
    left. exists i, t, (probe_target cfg' t (dials i)).
    destruct (probe_target_measured cfg' t (dials i)) as [HT Hm]; [lia|]. done.
Qed.

(** What the latest results always satisfy. *)
Definition result_ok (ip : string) (r : Result) : Prop :=
  pt_IP (Target r) = ip ∧ f_nonneg (LossRate r) = true ∧ LossRate r ≠ S754_zero true ∧
  fle (LossRate r) f1 = true ∧ 1 ≤ AvgRTT_ns r < 2 ^ 63.

Lemma attempts_int64 l f t s : - 2 ^ 63 ≤ t < 2 ^ 63 → - 2 ^ 63 ≤ (foldl attempt (f, t, s) l).1.2 < 2 ^ 63.
Proof.
  revert f t s. induction l as [|d l IH]; intros f t s Ht; [done|].
  assert (∀ x, - 2 ^ 63 ≤ int64 x < 2 ^ 63) as Hi.
  { intros x. unfold int64. pose proof (Z.mod_pos_bound (x + 2 ^ 63) (2 ^ 64)). lia. }
  destruct d; cbn [foldl attempt]; apply IH; auto.
Qed.

Lemma probe_target_ok cfg t dials : 0 < cfg_Attempts cfg < 2 ^ 53 → result_ok (pt_IP t) (probe_target cfg t dials).
Proof.
  intros Hn. destruct (probe_target_measured cfg t dials Hn) as (HT & HA & _ & Hf & HL & H0 & H1 & Hm & _).
  unfold result_ok. rewrite HT. split_and!; [done| | |done|done|].
  - destruct (f_of_Z_positive (cfg_Attempts cfg) Hn) as [Hp Hi]. rewrite HL, HA. apply fdiv_nonneg.
    + apply f_nonneg_ge0, f_fin_nonneg, f_of_Z_fin. lia.
    + done.
    + intros _ E. by rewrite E in Hi.
  - rewrite HL, HA. apply f_ratio_zero; lia.
  - unfold probe_target. set (ds := dials <$> _). destruct (attempts_counts ds 0 0 0) as [t' E].
    pose proof (attempts_int64 ds 0 0 0 ltac:(lia)) as Ht. rewrite E in *. cbn [fst snd AvgRTT_ns] in *.
    set (k := 0 + Z.of_nat _). assert (0 ≤ k) by lia. case_bool_decide; [lia|].
    case_bool_decide; [|lia]. destruct (Z.le_gt_cases t' 0).
    + pose proof (Z.quot_le_mono t' 0 k ltac:(lia) ltac:(lia)). rewrite Z.quot_0_l in * by lia. lia.
    + pose proof (Z.quot_le_upper_bound t' k t'). nia.
Qed.

Lemma probe_ticks_ok cfg latest ip r : cfg_Attempts (probe_defaults cfg) < 2 ^ 53 →
  rtc (probe_tick cfg) ∅ latest → latest !! ip = Some r → result_ok ip r.
Proof.
  intros Ha Hr. cut (∀ ip r, latest !! ip = Some r → result_ok ip r); [by eauto|]. clear ip r.
  assert (∀ l1 l2 : gmap string Result, probe_tick cfg l1 l2 → (∀ ip r, l1 !! ip = Some r → result_ok ip r) →
    ∀ ip r, l2 !! ip = Some r → result_ok ip r) as Hstep.
  { intros l1 l2 [|? targets dials s l _ Hrs Ho] H1; [done|]. intros ip r E.
    destruct (probe_defaults_ok cfg) as [_ Hn].
    destruct (round_latest (probe_defaults cfg) dials targets s l ip) as [(i & t & r' & _ & <- & -> & E')|[_ E']];
      [lia|done|done|..]; rewrite E' in E; [|by apply H1]. injection E as <-. apply probe_target_ok. lia. }
  assert (∀ l0 : gmap string Result, rtc (probe_tick cfg) l0 latest →
    (∀ ip r, l0 !! ip = Some r → result_ok ip r) → ∀ ip r, latest !! ip = Some r → result_ok ip r) as Hall.
  { induction 1; eauto. }
  apply (Hall ∅ Hr). by intros ip r ?%lookup_empty_Some.
Qed.

(** A target that only ever answers with errors other than a timeout (its
    network is unreachable, its address is malformed) is measured as a perfect
    link. *)
Lemma errors_are_no_loss cfg t dials : 0 < cfg_Attempts cfg < 2 ^ 53 →
  (∀ a, ∃ rtt, dials a = OtherError rtt) → LossRate (probe_target cfg t dials) = f0.
Proof.
  intros Hn Hd. destruct (probe_target_measured cfg t dials Hn) as (_ & HA & HF & _ & HL & _).
  rewrite HL, HF. replace (timeouts _) with 0.
  - destruct (f_of_Z_positive _ Hn) as [Hp _]. rewrite HA. destruct (f_of_Z (cfg_Attempts cfg)) as [|[]| |[]]; done.
  - unfold timeouts. rewrite list_filter_none; [done|]. apply Forall_fmap, Forall_forall.
    intros a _. simpl. by destruct (Hd a) as [rtt ->].
Qed.

(** The results are never forgotten: a node that has left is reported with its
    last measurement as long as the process runs. *)
Lemma probe_ticks_keep cfg latest latest' ip : rtc (probe_tick cfg) latest latest' →
  is_Some (latest !! ip) → is_Some (latest' !! ip).
Proof.
  induction 1 as [?|l1 l2 l3 Hs _ IH]; [done|]. intros H. apply IH. destruct Hs as [|? ? ? ? ? _ _ _]; [done|].
  rewrite updateLatestResults_lookup. by destruct (last _).
Qed.

(** ** An instance *)
Definition one_target : ProbeTask :=
  {| TargetType := "node"; pt_Provider := ""; pt_IP := "2.2.2.2"; pt_Port := 7083; Region := ""; pt_ID := "" |}.

Definition no_probe_config : probe_config :=
  {| Concurrency := 0; Timeout := 0; Interval := 0; cfg_Attempts := 0 |}.

(** The third of five attempts times out. *)
Definition some_dials (job attempt : nat) : dial :=
  if bool_decide (attempt = 2)%nat then TimedOut else Connected (20000000 + Z.of_nat attempt).

Definition one_result : Result := probe_target (probe_defaults no_probe_config) one_target (some_dials 0).

Definition one_round : probe_round :=
  {| r_todo := []; r_busy := []; roundResults := [one_result] |}.

Lemma one_round_runs :
  rtc (round_step (probe_defaults no_probe_config) some_dials) (round_init [one_target]) one_round.
Proof.
  eapply rtc_l; [by eapply rs_take|]. eapply rtc_l; [by eapply (rs_done _ _ _ _ [] [])|]. apply rtc_refl.
Qed.

Lemma probe_round_correct_witness :
  ∃ r, updateLatestResults (roundResults one_round) ∅ !! "2.2.2.2" = Some r ∧
    Failures r = 1 ∧ AvgRTT_ns r = 20000002.
Proof.
  destruct (probe_round_correct no_probe_config some_dials [one_target] one_round ∅) as (_ & _ & _ & H).
  - vm_compute. reflexivity.
  - exact one_round_runs.
  - destruct (H (conj eq_refl eq_refl)) as [_ H']. destruct (H' "2.2.2.2") as [H1|[Hn _]].
    + destruct H1 as (i & t & r & _ & _ & _ & _ & E). exists r. split; [exact E|].
      vm_compute in E. injection E as <-. split; reflexivity.
    + exfalso. apply (Hn one_target); [|reflexivity]. apply list_elem_of_singleton. reflexivity.
Defined.
