(* ===== verification/EtcdSync.v ===== *)
(** * Synchronisation through etcd

    [control-plane/sync/etcd_client]: writing a key with a lease, reading a
    prefix, watching a prefix; and the part of [control-plane/main.go] that
    loads the nodes at the start and follows the watch.  The etcd cluster is
    outside: its answers are arguments, and the events it delivers are those of
    a history of its store. *)
From S2P Require Import Prelude Float64 GoStrings Records Graph EdgeStats.

(** ** The client *)

(** [PutKeyWithLease]: the lease that was granted and whether the put was
    accepted are the answers of the cluster; the result is the entry written,
    with its lease. *)
Definition PutKeyWithLease (grant : Z → option Z) (put : bool) (key value : string) (ttlSeconds : Z)
    : (string * string * Z) + string :=
  match grant ttlSeconds with
  | None => inr "Grant lease error"
  | Some lease => if put then inl (key, value, lease) else inr "Put error"
  end.

(** [PutKey], [DeleteKey] and [GetKey] report to the log only; the store after
    them, with what they report.  [ok]: the cluster has answered. *)
Definition PutKey (ok : bool) (key value : string) (st : gmap string string) : gmap string string * string :=
  if ok then (<[key := value]> st, "Put") else (st, "Put error").

Definition DeleteKey (ok : bool) (key : string) (st : gmap string string) : gmap string string * string :=
  if ok then (delete key st, match st !! key with Some _ => "Deleted key successfully" | None => "Key not found" end)
  else (st, "Delete error").

Definition GetKey (ok : bool) (key : string) (st : gmap string string) : list (string * string) + string :=
  if ok then inl (match st !! key with Some v => [(key, v)] | None => [] end) else inr "Get error".

Lemma key_operations key value st :
  GetKey true key (PutKey true key value st).1 = inl [(key, value)] ∧
  (DeleteKey true key (PutKey true key value st).1).2 = "Deleted key successfully" ∧
  (DeleteKey true key (DeleteKey true key st).1).2 = "Key not found" ∧
  (∀ key', key' ≠ key → GetKey true key' (PutKey true key value st).1 = GetKey true key' st ∧
     GetKey true key' (DeleteKey true key st).1 = GetKey true key' st).
Proof.
  unfold GetKey, PutKey, DeleteKey. cbn [fst snd]. rewrite lookup_insert_eq, lookup_delete_eq.
  split_and!; [done..|]. intros key' Hne. by rewrite lookup_insert_ne, lookup_delete_ne.
Qed.

(** [GetPrefixAll]; a nil map is an empty one. *)
Definition GetPrefixAll (resp : option (list (string * string))) : gmap string string + string :=
  match resp with
  | None => inr "Get prefix all error"
  | Some kvs => inl (foldl (λ m kv, <[kv.1 := kv.2]> m) ∅ kvs)
  end.

(** A watch event, and the name [WatchPrefix] gives it. *)
Record etcd_event := {
  ev_put : bool;
  ev_create : bool;
  ev_modify : bool;
  ev_key : string;
  ev_value : string;
}.

Definition event_type (ev : etcd_event) : string :=
  if ev_put ev then
    if ev_create ev then "CREATE" else if ev_modify ev then "UPDATE" else ""
  else "DELETE".

Definition WatchPrefix {S} (callback : string → string → string → S → S)
    (responses : list (list etcd_event)) (s : S) : S :=
  foldl (foldl (λ s ev, callback (event_type ev) (ev_key ev) (ev_value ev) s)) s responses.

(** ** The store behind it

    What the documentation of etcd says of a watch: every change of the store
    since the watch began is delivered, in order; a put is a creation when the
    key was absent and a modification otherwise; a deletion, also by an expired
    lease, carries the key and no value.  [WatchPrefix] asks for no revision, so
    the watch begins when it is created: [etcd_history st1 evs st] relates the
    store [st1] at that moment, which need not be the one that was read before,
    to the events delivered since and to the store now. *)
Definition put_event (st : gmap string string) (k v : string) : etcd_event :=
  {| ev_put := true; ev_create := bool_decide (st !! k = None);
     ev_modify := bool_decide (st !! k ≠ None); ev_key := k; ev_value := v |}.

Definition delete_event (k : string) : etcd_event :=
  {| ev_put := false; ev_create := false; ev_modify := false; ev_key := k; ev_value := "" |}.

Inductive etcd_history (st0 : gmap string string) : list etcd_event → gmap string string → Prop :=
| h_start : etcd_history st0 [] st0
| h_put evs st k v :
    etcd_history st0 evs st → etcd_history st0 (evs ++ [put_event st k v]) (<[k := v]> st)
| h_delete evs st k :
    etcd_history st0 evs st → is_Some (st !! k) →
    etcd_history st0 (evs ++ [delete_event k]) (delete k st).

(** ** Loading and following *)
Section Sync.
Context `{ML : MathLib} `{RO : RangeOrder}.
(** [json.Unmarshal] into a [NodeTelemetry]. *)
Variable decode : string → option NodeTelemetry.

(** The loop of [main] over the entries at the start. *)
Definition load_entry (g : GraphManager) (kv : string * string) : GraphManager :=
  match decode kv.2 with Some tel => AddNode tel g | None => g end.

Definition load_nodes (nodeMap : gmap string string) (g : GraphManager) : GraphManager :=
  foldl load_entry g (range_map 61 nodeMap).

(** The start of the control plane: load if the read succeeded, then watch. *)
Definition start_graph (resp : option (list (string * string))) : GraphManager :=
  match GetPrefixAll resp with
  | inr _ => NewGraphManager
  | inl nodeMap => load_nodes nodeMap NewGraphManager
  end.

Definition watch_graph (responses : list (list etcd_event)) (g : GraphManager) : GraphManager :=
  WatchPrefix (λ eventType _ val, HandleRoutingWatchEvent decode eventType val) responses g.

(** The same for the statistics of the edge, with a first rebuild. *)
Definition load_stat (decode_last : string → option LastTelemetry) (g : GlobalStats) (kv : string * string)
    : GlobalStats :=
  match decode_last kv.2 with Some last => AddOrUpdateNode last g | None => g end.

Definition start_stats (decode_last : string → option LastTelemetry)
    (resp : option (list (string * string))) : go GlobalStats :=
  rebuildAggregate
    (match GetPrefixAll resp with
     | inr _ => NewGlobalStats
     | inl lastMap => foldl (load_stat decode_last) NewGlobalStats (range_map 69 lastMap)
     end).

Lemma load_stats_wf decode_last kvs g : stats_wf g → stats_wf (foldl (load_stat decode_last) g kvs).
Proof.
  revert g. induction kvs as [|kv kvs IH]; intros g Hg; [done|]. apply IH. unfold load_stat.
  destruct (decode_last kv.2); [by apply AddOrUpdateNode_wf|done].
Qed.

(** The first rebuild crashes the control plane exactly when a stored report has
    a nil entry. *)
Lemma start_stats_crashes decode_last kvs :
  let lastMap := foldl (λ m kv, <[kv.1 := kv.2]> m) ∅ kvs in
  let g := foldl (load_stat decode_last) NewGlobalStats (range_map 69 lastMap) in
  addresses_ok g → (∃ w, start_stats decode_last (Some kvs) = Panic w) ↔ nil_sample g.
Proof.
  intros lastMap g Ha. unfold start_stats. cbn [GetPrefixAll]. fold lastMap. fold g.
  destruct (rebuild_reference g) as [[Hn Hp]|(Hn & g' & -> & _)];
    [by apply load_stats_wf, stats_wf_new|done|naive_solver|naive_solver].
Qed.

(** An entry that a node has written for itself. *)
Definition own_entry (k v : string) : Prop :=
  v ≠ "" ∧ ∃ tel, decode v = Some tel ∧ PublicIP tel ≠ "" ∧ k = "/routing-middle/" +:+ PublicIP tel.

Definition own_store (st : gmap string string) : Prop := ∀ k v, st !! k = Some v → own_entry k v.

(** The graph knows the node of every entry, with the telemetry of the entry. *)
Definition tracks (st : gmap string string) (g : GraphManager) : Prop :=
  ∀ k v tel, st !! k = Some v → decode v = Some tel → GetNode g (PublicIP tel) = Some tel.

Lemma AddNode_nodes tel g : nodes (AddNode tel g) = <[PublicIP tel := tel]> (nodes g).
Proof. unfold AddNode. by rewrite add_links_nodes. Qed.

Lemma tracks_put st g k v tel : own_store st → own_entry k v → tracks st g → decode v = Some tel →
  tracks (<[k := v]> st) (AddNode tel g).
Proof.
  intros Hst (_ & tel' & Hd & _ & Hk) Ht Hv. simplify_eq.
  intros k' v' t [[<- <-]|[Hne Hk']]%lookup_insert_Some Hd'; unfold GetNode; rewrite AddNode_nodes.
  - simplify_eq. apply lookup_insert_eq.
  - destruct (Hst k' v' Hk') as (_ & t' & Ht' & _ & ->). simplify_eq.
    rewrite lookup_insert_ne; [by eapply Ht|]. intros E. apply Hne. by rewrite E.
Qed.

Lemma tracks_load kvs st g : NoDup kvs.*1 → (∀ k, k ∈ kvs.*1 → st !! k = None) →
  own_store st → Forall (λ kv, own_entry kv.1 kv.2) kvs → tracks st g →
  tracks (foldl (λ m kv, <[kv.1 := kv.2]> m) st kvs) (foldl load_entry g kvs).
Proof.
  revert st g. induction kvs as [|[k v] kvs IH]; intros st g Hnd Hfr Hst Hown Ht; [done|].
  rewrite fmap_cons in Hnd. apply NoDup_cons in Hnd as [Hk Hnd].
  apply Forall_cons in Hown as [Hkv Hown]. simpl. apply IH; [done| | |done|].
  - intros k' Hk'. rewrite lookup_insert_ne by (intros ->; done). apply Hfr. by right.
  - intros k' v' [[<- <-]|[_ H]]%lookup_insert_Some; [done|]. by apply Hst.
  - unfold load_entry. simpl. simpl in Hkv. destruct (decode v) as [tel|] eqn:Hd.
    + by apply tracks_put.
    + destruct Hkv as (_ & tel & ? & _). congruence.
Qed.

Lemma load_tracks st : own_store st → tracks st (load_nodes st NewGraphManager).
Proof.
  intros Hst. unfold load_nodes.
  assert (tracks (foldl (λ m kv, <[kv.1 := kv.2]> m) ∅ (range_map 61 st))
    (foldl load_entry NewGraphManager (range_map 61 st))) as H.
  { apply tracks_load.
    - apply range_map_NoDup.
    - intros k _. apply lookup_empty.
    - by intros k v ?%lookup_empty_Some.
    - apply Forall_forall. intros [k v] Hkv%range_map_elem. by apply Hst.
    - by intros k v tel ?%lookup_empty_Some. }
  intros k v tel Hk Hd. eapply H; [|exact Hd].
  apply insert_all_lookup; [apply range_map_NoDup|by apply range_map_elem].
Qed.

Lemma watch_event_put st g k v : own_store st → own_entry k v → tracks st g →
  tracks (<[k := v]> st) (HandleRoutingWatchEvent decode (event_type (put_event st k v)) v g).
Proof.
  intros Hst Hown Ht. destruct Hown as (Hv & tel & Hd & Hip & Hk). unfold HandleRoutingWatchEvent.
  rewrite bool_decide_eq_false_2, Hd by done.
  assert (∃ e, event_type (put_event st k v) = e ∧ (e = "CREATE" ∨ e = "UPDATE")) as (e & -> & He).
  { unfold event_type, put_event. simpl. destruct (st !! k); eexists; (split; [reflexivity|]); auto. }
  assert (bool_decide (e = "CREATE") || bool_decide (e = "UPDATE") = true) as -> by (by destruct He as [-> | ->]).
  apply tracks_put; [done| |done|done]. split; [done|]. by exists tel.
Qed.

Lemma watch_event_delete g k : HandleRoutingWatchEvent decode (event_type (delete_event k)) "" g
  = RemoveNode "" g.
Proof. done. Qed.

(** The key of a node. *)
Abbreviation node_key ip := ("/routing-middle/" +:+ ip).

(** The value of the last put of [k] among the events. *)
Definition last_put (k : string) (evs : list etcd_event) : option string :=
  foldl (λ acc ev, if ev_put ev && bool_decide (ev_key ev = k) then Some (ev_value ev) else acc) None evs.

Lemma last_put_snoc k evs ev : last_put k (evs ++ [ev]) =
  if ev_put ev && bool_decide (ev_key ev = k) then Some (ev_value ev) else last_put k evs.
Proof. unfold last_put. by rewrite foldl_app. Qed.

Lemma last_put_event k evs v : last_put k evs = Some v →
  ∃ ev, ev ∈ evs ∧ ev_put ev = true ∧ ev_key ev = k ∧ ev_value ev = v.
Proof.
  induction evs as [|ev evs IH] using rev_ind; [done|]. rewrite last_put_snoc.
  destruct (ev_put ev && bool_decide (ev_key ev = k)) eqn:E.
  - apply andb_true_iff in E as [E1 E2%bool_decide_eq_true]. intros [= <-]. exists ev.
    split; [|done]. apply elem_of_app. right. by left.
  - intros (ev' & Hin & ?)%IH. exists ev'. split; [|done]. apply elem_of_app. by left.
Qed.

Lemma last_put_some k evs ev : ev ∈ evs → ev_put ev = true → ev_key ev = k → is_Some (last_put k evs).
Proof.
  intros Hin Hp Hk. induction evs as [|ev' evs IH] using rev_ind; [by apply not_elem_of_nil in Hin|].
  rewrite last_put_snoc. apply elem_of_app in Hin as [Hin|Hin%list_elem_of_singleton].
  - destruct (_ && _); [by eexists|by apply IH].
  - subst ev'. rewrite Hp, bool_decide_eq_true_2 by done. by eexists.
Qed.

(** What the load puts into the graph. *)
Lemma load_others kvs g ip : Forall (λ kv, own_entry kv.1 kv.2) kvs → (node_key ip ∉ kvs.*1) →
  GetNode (foldl load_entry g kvs) ip = GetNode g ip.
Proof.
  intros Hown. revert g. induction Hown as [|[k v] kvs (_ & tel & Hd & _ & Hk) Hown IH]; intros g Hn; [done|].
  rewrite fmap_cons, not_elem_of_cons in Hn. destruct Hn as [Hne Hn]. simpl in Hd, Hk, Hne. simpl.
  rewrite IH by done. unfold load_entry. simpl. rewrite Hd. unfold GetNode. rewrite AddNode_nodes.
  apply lookup_insert_ne. intros <-. by apply Hne.
Qed.

Lemma loaded_node st ip : own_store st →
  GetNode (load_nodes st NewGraphManager) ip = st !! node_key ip ≫= decode.
Proof.
  intros Hst. destruct (st !! node_key ip) as [v|] eqn:Hv; simpl.
  - destruct (Hst _ _ Hv) as (_ & tel & Hd & _ & Hk).
    apply (inj (String.append "/routing-middle/")) in Hk. rewrite Hd, Hk. by eapply load_tracks.
  - unfold load_nodes. rewrite load_others; [apply lookup_empty| |].
    + apply Forall_forall. intros [k v] Hkv%range_map_elem. by apply Hst.
    + intros ([k v] & E & Hin%range_map_elem)%list_elem_of_fmap. simpl in E. congruence.
Qed.

(** What the events make of it. *)
Lemma watched_node st1 evs st g ip : etcd_history st1 evs st → ip ≠ "" →
  (∀ ev, ev ∈ evs → ev_put ev = true → own_entry (ev_key ev) (ev_value ev)) →
  GetNode (watch_graph [evs] g) ip =
    match last_put (node_key ip) evs with Some v => decode v | None => GetNode g ip end.
Proof.
  intros Hh Hip Hev. unfold watch_graph, WatchPrefix. cbn [foldl].
  induction Hh as [|evs st k v Hh IH|evs st k Hh IH Hk]; [done|..];
    (assert (∀ ev, ev ∈ evs → ev_put ev = true → own_entry (ev_key ev) (ev_value ev)) as Hev'
      by (intros ev He; apply Hev; apply elem_of_app; by left));
    rewrite foldl_app, last_put_snoc; cbn [foldl ev_value ev_put ev_key put_event delete_event andb].
  - destruct (Hev (put_event st k v)) as (Hv & tel & Hd & _ & Hk);
      [apply elem_of_app; right; by left|done|]. cbn [ev_key ev_value put_event] in Hv, Hd, Hk.
    unfold HandleRoutingWatchEvent at 1. rewrite bool_decide_eq_false_2, Hd by done.
    assert (bool_decide (event_type (put_event st k v) = "CREATE") ||
      bool_decide (event_type (put_event st k v) = "UPDATE") = true) as ->
      by (unfold event_type, put_event; simpl; by destruct (st !! k)).
    unfold GetNode at 1. rewrite AddNode_nodes. destruct (decide (PublicIP tel = ip)) as [<-|Hne].
    + by rewrite lookup_insert_eq, bool_decide_eq_true_2.
    + rewrite lookup_insert_ne by done. rewrite bool_decide_eq_false_2; [by apply IH|].
      rewrite Hk. by intros ?%(inj (String.append "/routing-middle/")).
  - rewrite watch_event_delete. unfold GetNode at 1, RemoveNode. simpl. rewrite lookup_delete_ne by done.
    by apply IH.
Qed.

(** The value now in the store is the last one put, or that of a key with no
    event. *)
Lemma history_last st1 evs st k v : etcd_history st1 evs st → st !! k = Some v →
  last_put k evs = Some v ∨ (st1 !! k = Some v ∧ last_put k evs = None ∧ ∀ ev, ev ∈ evs → ev_key ev ≠ k).
Proof.
  intros Hh. induction Hh as [|evs st k' v' Hh IH|evs st k' Hh IH Hk'].
  - intros Hk. right. split; [done|]. split; [done|]. by intros ev ?%not_elem_of_nil.
  - rewrite last_put_snoc. cbn [ev_value ev_put ev_key put_event andb].
    intros [[-> ->]|[Hne Hk]]%lookup_insert_Some; [left; by rewrite bool_decide_eq_true_2|].
    rewrite bool_decide_eq_false_2 by done. destruct (IH Hk) as [?|(H1 & H2 & H3)]; [by left|right].
    split; [done|]. split; [done|]. intros ev [Hin| ->%list_elem_of_singleton]%elem_of_app; [by apply H3|done].
  - rewrite last_put_snoc. cbn [ev_put delete_event andb].
    intros [Hne Hk]%lookup_delete_Some. destruct (IH Hk) as [?|(H1 & H2 & H3)]; [by left|right].
    split; [done|]. split; [done|]. intros ev [Hin| ->%list_elem_of_singleton]%elem_of_app; [by apply H3|done].
Qed.

(** C25: the control plane follows the store.  The graph is loaded from the
    entries [st0]; the watch begins later, when the store is [st1], and its
    events lead to the store [st]; the entries are those the nodes write for
    themselves.  Then the graph has of every address the telemetry of the last
    entry put by a delivered event, or else that of the loaded entry, or else
    nothing.  So for every entry now in the store that was not changed between
    the load and the begin of the watch, or has had an event since, the graph
    has the node with exactly the telemetry of the entry; what was changed
    between the two and not since is missed.  And no node that was loaded or put
    by an event is ever removed: a deletion carries no value. *)
Theorem graph_follows_store kvs st1 evs st :
  let st0 := foldl (λ m kv, <[kv.1 := kv.2]> m) ∅ kvs in
  let g := watch_graph [evs] (start_graph (Some kvs)) in
  own_store st0 → etcd_history st1 evs st →
  (∀ ev, ev ∈ evs → ev_put ev = true → own_entry (ev_key ev) (ev_value ev)) →
  (∀ ip, ip ≠ "" → GetNode g ip =
     match last_put ("/routing-middle/" +:+ ip) evs with
     | Some v => decode v
     | None => st0 !! ("/routing-middle/" +:+ ip) ≫= decode
     end) ∧
  (∀ k v, st !! k = Some v → st1 !! k = st0 !! k ∨ (∃ ev, ev ∈ evs ∧ ev_key ev = k) →
     ∃ tel, decode v = Some tel ∧ GetNode g (PublicIP tel) = Some tel) ∧
  (∀ k v tel, decode v = Some tel →
     st0 !! k = Some v ∨ (∃ ev, ev ∈ evs ∧ ev_put ev = true ∧ ev_key ev = k ∧ ev_value ev = v) →
     is_Some (GetNode g (PublicIP tel))).
Proof.
  intros st0 g Hown Hh Hev.
  assert (∀ ip, ip ≠ "" → GetNode g ip =
    match last_put (node_key ip) evs with Some v => decode v | None => st0 !! node_key ip ≫= decode end) as Hall.
  { intros ip Hip. unfold g. rewrite (watched_node st1 evs st) by done. unfold start_graph.
    cbn [GetPrefixAll]. fold st0. by rewrite loaded_node. }
  assert (∀ k v, last_put k evs = Some v → own_entry k v) as Hput.
  { intros k v (ev & Hin & Hp & <- & <-)%last_put_event. by apply Hev. }
  split; [exact Hall|]. split.
  - intros k v Hk Hor. destruct (history_last st1 evs st k v Hh Hk) as [Hl|(H1 & Hl & Hno)].
    + destruct (Hput k v Hl) as (_ & tel & Hd & Hip & ->). exists tel. split; [done|].
      by rewrite Hall, Hl.
    + destruct Hor as [E|(ev & Hin & He)]; [|by destruct (Hno ev Hin)]. rewrite H1 in E. symmetry in E.
      destruct (Hown k v E) as (_ & tel & Hd & Hip & ->). exists tel. split; [done|].
      rewrite Hall by done. by rewrite Hl, E.
  - intros k v tel Hd Hor.
    assert (PublicIP tel ≠ "" ∧ k = node_key (PublicIP tel)) as [Hip ->].
    { destruct Hor as [Hk|(ev & Hin & Hp & <- & <-)].
      - destruct (Hown k v Hk) as (_ & t & Ht & ? & ->). by simplify_eq.
      - destruct (Hev ev Hin Hp) as (_ & t & Ht & ? & ->). by simplify_eq. }
    rewrite Hall by done. destruct (last_put (node_key (PublicIP tel)) evs) as [v'|] eqn:Hl.
    + destruct (Hput _ v' Hl) as (_ & t & -> & _). by eexists.
    + destruct Hor as [->|(ev & Hin & Hp & Hk & _)]; [simpl; rewrite Hd; by eexists|].
      destruct (last_put_some _ _ _ Hin Hp Hk) as [? ?]. congruence.
Qed.
End Sync.

(** ** Two nodes that measure each other *)
Definition mutual (me other : string) : NodeTelemetry :=
  {| PublicIP := me; nt_Provider := ""; nt_Continent := ""; nt_Country := ""; nt_City := "";
     CpuPressure := f0; Cpu := zero_CPUInfo;
     LinksCongestion := {[other := {| lk_TargetIP := other;
       lk_Target := {| TargetType := "node"; pt_Provider := ""; pt_IP := other; pt_Port := 7083;
                       Region := ""; pt_ID := "" |};
       PacketLoss := f0; AverageLatency := f_of_Z 20 |}]} |}.

Definition mutual_decode (val : string) : option NodeTelemetry :=
  if bool_decide (val = "a") then Some (mutual "1.1.1.1" "2.2.2.2")
  else Some (mutual "2.2.2.2" "1.1.1.1").

Lemma mutual_decode_a : mutual_decode "a" = Some (mutual "1.1.1.1" "2.2.2.2").
Proof. unfold mutual_decode. by rewrite bool_decide_eq_true_2. Qed.

Lemma mutual_decode_b : mutual_decode "b" = Some (mutual "2.2.2.2" "1.1.1.1").
Proof. unfold mutual_decode. by rewrite bool_decide_eq_false_2. Qed.

Definition mutual_store : gmap string string :=
  {["/routing-middle/1.1.1.1" := "a"; "/routing-middle/2.2.2.2" := "b"]}.

Section LoadOrder.
Context `{ML : MathLib} `{RO : RangeOrder}.

Lemma AddNode_mutual me other g : AddNode (mutual me other) g =
  add_link (mutual me other) {| edges := edges g; nodes := <[me := mutual me other]> (nodes g) |}
    {| lk_TargetIP := other;
       lk_Target := {| TargetType := "node"; pt_Provider := ""; pt_IP := other; pt_Port := 7083;
                       Region := ""; pt_ID := "" |};
       PacketLoss := f0; AverageLatency := f_of_Z 20 |}.
Proof.
  unfold AddNode. cbn [PublicIP mutual LinksCongestion].
  pose proof (range_map_perm 0 (LinksCongestion (mutual me other))) as Hp.
  cbn [LinksCongestion mutual] in Hp.
  rewrite map_to_list_singleton in Hp. apply Permutation_singleton_r in Hp. by rewrite Hp.
Qed.

Lemma mutual_missing me other g : me ≠ other → nodes g !! other = None →
  AddNode (mutual me other) g = {| edges := edges g; nodes := <[me := mutual me other]> (nodes g) |}.
Proof.
  intros Hne Hn. rewrite AddNode_mutual. unfold add_link.
  rewrite bool_decide_eq_false_2 by done. cbn [nodes lk_Target pt_IP].
  by rewrite lookup_insert_ne, Hn by done.
Qed.

Lemma mutual_known me other g n : me ≠ other → nodes g !! other = Some n →
  edges g !! (me +:+ "->" +:+ other) = None →
  ∃ e, edges (AddNode (mutual me other) g) = <[me +:+ "->" +:+ other := e]> (edges g).
Proof.
  intros Hne Hn He. rewrite AddNode_mutual. unfold add_link.
  rewrite bool_decide_eq_false_2 by done. cbn [nodes lk_Target pt_IP].
  rewrite lookup_insert_ne, Hn by done. cbn [edges]. by eexists.
Qed.

(** Loading [x] and then [y] into the empty graph. *)
Lemma load_two x y : x ≠ y → ∃ e,
  edges (AddNode (mutual y x) (AddNode (mutual x y) NewGraphManager)) = {[y +:+ "->" +:+ x := e]}.
Proof.
  intros Hne. rewrite (mutual_missing x y) by (done || apply lookup_empty).
  destruct (mutual_known y x {| edges := ∅; nodes := <[x := mutual x y]> ∅ |} (mutual x y)) as [e He].
  - done.
  - apply lookup_insert_eq.
  - apply lookup_empty.
  - exists e. exact He.
Qed.

(** The links of a restarted control plane depend on the order in which it
    loads the nodes.  [AddNode] drops a link to a node that is not yet in the
    graph, so of two nodes that measure each other only the second one loaded
    keeps its link, whatever the order of the map, until the first reports
    again. *)
Theorem load_drops_link :
  let g := load_nodes mutual_decode mutual_store NewGraphManager in
  (GetEdge g "1.1.1.1->2.2.2.2" = None ∧ is_Some (GetEdge g "2.2.2.2->1.1.1.1")) ∨
  (GetEdge g "2.2.2.2->1.1.1.1" = None ∧ is_Some (GetEdge g "1.1.1.1->2.2.2.2")).
Proof.
  cbv zeta. unfold load_nodes. pose proof (range_map_perm 61 mutual_store) as Hp.
  assert (map_to_list mutual_store ≡ₚ [("/routing-middle/1.1.1.1", "a"); ("/routing-middle/2.2.2.2", "b")]) as Hm.
  { unfold mutual_store. rewrite map_to_list_insert by (by apply lookup_singleton_ne).
    by rewrite map_to_list_singleton. }
  rewrite Hm in Hp. symmetry in Hp. apply Permutation_length_2_inv in Hp as [-> | ->]; cbn [foldl];
    unfold load_entry; cbn [snd]; rewrite mutual_decode_a, mutual_decode_b; unfold GetEdge;
    [destruct (load_two "1.1.1.1" "2.2.2.2") as [e ->]; [done|left]
    |destruct (load_two "2.2.2.2" "1.1.1.1") as [e ->]; [done|right]];
    (split; [by apply lookup_singleton_ne|rewrite lookup_singleton_eq; by eexists]).
Qed.
End LoadOrder.

(** ** Instances of the theorems *)
Definition lone (ip : string) : NodeTelemetry :=
  {| PublicIP := ip; nt_Provider := ""; nt_Continent := ""; nt_Country := ""; nt_City := "";
     CpuPressure := f0; Cpu := zero_CPUInfo; LinksCongestion := ∅ |}.

#[local] Existing Instance flat_math.

(** An entry for "c" is written after the load and before the watch begins. *)
Lemma graph_follows_store_witness :
  let g := watch_graph (λ v, Some (lone v))
    [[put_event {["/routing-middle/a" := "a"; "/routing-middle/c" := "c"]} "/routing-middle/b" "b";
      delete_event "/routing-middle/a"]]
    (start_graph (λ v, Some (lone v)) (Some [("/routing-middle/a", "a")])) in
  GetNode g "b" = Some (lone "b") ∧ is_Some (GetNode g "a") ∧ GetNode g "c" = None.
Proof.
  pose proof (graph_follows_store (λ v, Some (lone v)) [("/routing-middle/a", "a")]
    {["/routing-middle/a" := "a"; "/routing-middle/c" := "c"]}
    [put_event {["/routing-middle/a" := "a"; "/routing-middle/c" := "c"]} "/routing-middle/b" "b";
     delete_event "/routing-middle/a"]
    (delete "/routing-middle/a" (<["/routing-middle/b" := "b"]>
       {["/routing-middle/a" := "a"; "/routing-middle/c" := "c"]}))) as H.
  destruct H as (H0 & H1 & H2).
  - intros k v. cbn [foldl fst snd]. intros [[<- <-]|[_ ?%lookup_empty_Some]]%lookup_insert_Some; [|done].
    split; [done|]. by exists (lone "a").
  - apply (h_delete _ [_]); [apply (h_put _ []); apply h_start|].
    rewrite lookup_insert_ne, lookup_insert_eq by done. by eexists.
  - intros ev [-> | [-> | ?%not_elem_of_nil]%elem_of_cons]%elem_of_cons; [|done|done].
    intros _. split; [done|]. by exists (lone "b").
  - split; [|split].
    + destruct (H1 "/routing-middle/b" "b") as (tel & Ht & Hg); [| |by injection Ht as <-].
      * rewrite lookup_delete_ne by done. apply lookup_insert_eq.
      * right. eexists. split; [left|reflexivity].
    + apply (H2 "/routing-middle/a" "a" (lone "a")); [reflexivity|]. left. apply lookup_insert_eq.
    + rewrite H0 by done. reflexivity.
Defined.
