(* ===== verification/KShortest.v ===== *)
(** * K-shortest paths

    [control-plane/routing/core-domain/k-shortest.go]: the priority queue, the
    single-pair search [findShortestPath], Yen's loop [yensAlgorithm] and the
    solver's entry point [Computing]. *)
From S2P Require Import Prelude Float64 GoHeap GoStrings Records.

(** A graph is a map from a node to the slice of its outgoing edges; reading
    an absent key gives the nil slice. *)
Abbreviation adjacency := (gmap string (list Edge)).
Definition out_edges (g : adjacency) (u : string) : list Edge := default [] (g !! u).

(** Reading an absent key of a [map[string]float64] gives the zero value. *)
Definition getf (m : gmap string float64) (k : string) : float64 := default f0 (m !! k).

Record KShortestSolver := {
  ks_edges : list Edge;
  alpha : float64;
  k : Z;
  useLatency : bool;
}.

Definition NewKShortestSolverWithLatency (edges : list Edge) (k : Z) (useLatency : bool)
    : KShortestSolver :=
  {| ks_edges := edges; alpha := f1; k := if bool_decide (k ≤ 0)%Z then 5 else k;
     useLatency := useLatency |}.

Definition NewKShortestSolver (edges : list Edge) (k : Z) : KShortestSolver :=
  NewKShortestSolverWithLatency edges k false.

Record Path := {
  hops : list string;
  cost : float64;
  rawRTT : float64;
}.

(** ** The priority queue

    A queue holds the nodes with their [index] field, which [Swap] and [Push]
    maintain. *)
Record PQNode := {
  pq_node : string;
  pq_cost : float64;
  pq_rawRTT : float64;
}.

#[export] Instance PQNode_inhabited : Inhabited PQNode :=
  populate {| pq_node := ""; pq_cost := f0; pq_rawRTT := f0 |}.

Abbreviation PriorityQueue := (list (PQNode * Z)).

Definition pq_Less (pq : PriorityQueue) (i j : nat) : bool :=
  match pq !! i, pq !! j with
  | Some x, Some y => flt (pq_cost x.1) (pq_cost y.1)
  | _, _ => false
  end.

Definition pq_Swap (pq : PriorityQueue) (i j : nat) : PriorityQueue :=
  match pq !! i, pq !! j with
  | Some x, Some y => <[j := (x.1, Z.of_nat j)]> (<[i := (y.1, Z.of_nat i)]> pq)
  | _, _ => pq
  end.

Definition pq_Push (pq : PriorityQueue) (x : PQNode) : PriorityQueue :=
  pq ++ [(x, Z.of_nat (length pq))].

Definition pq_Pop (pq : PriorityQueue) : option (PQNode * PriorityQueue) :=
  match last pq with
  | Some x => Some (x.1, removelast pq)
  | None => None
  end.

#[export] Instance PriorityQueue_interface : HeapInterface PriorityQueue PQNode :=
  {| hLen := length; hLess := pq_Less; hSwap := pq_Swap; hPush := pq_Push; hPop := pq_Pop |}.

(** ** Helpers of the solver *)
Definition isInPath (node : string) (path : list string) : bool :=
  bool_decide (node ∈ path).

Fixpoint hasDup_go (seen : gset string) (hops : list string) : bool :=
  match hops with
  | [] => false
  | hop :: hops' => if bool_decide (hop ∈ seen) then true else hasDup_go ({[hop]} ∪ seen) hops'
  end.

Definition hasDuplicateNodes (hops : list string) : bool := hasDup_go ∅ hops.

Fixpoint dedup_from (x : string) (hops : list string) : list string :=
  match hops with
  | [] => []
  | y :: hops' => if bool_decide (y ≠ x) then y :: dedup_from y hops' else dedup_from y hops'
  end.

Definition removeConsecutiveDuplicates (hops : list string) : list string :=
  match hops with
  | [] => []
  | x :: hops' => x :: dedup_from x hops'
  end.

Definition hasConsecutiveDup (path : list string) : bool :=
  existsb (λ p, bool_decide (p.1 = p.2)) (zip path (tail path)).

(** The longer list is scanned against the shorter one. *)
Definition pathsSharePrefix (path1 path2 : list string) : bool :=
  let '(path1, path2) :=
    if bool_decide (length path1 < length path2) then (path2, path1) else (path1, path2) in
  forallb (λ p, bool_decide (p.1 = p.2)) (zip path1 path2).

Definition isPathInQueue (path : Path) (pq : PriorityQueue) : bool :=
  let pathStr := Join (hops path) "->" in
  existsb (λ item, bool_decide (pq_node item.1 = pathStr)) pq.

Definition isPathInList (path : Path) (l : list Path) : bool :=
  let pathStr := Join (hops path) "->" in
  existsb (λ p, bool_decide (Join (hops p) "->" = pathStr)) l.

Section Solver.
Variable ks : KShortestSolver.

(** The cost of an edge: its latency or its weight, times [alpha]. *)
Definition edge_cost (e : Edge) : float64 :=
  if useLatency ks then fmul (Latency e) (alpha ks) else fmul (EdgeWeight e) (alpha ks).

(** The first edge from [source] to [dest], as the two loops with [break] find it. *)
Definition first_edge (g : adjacency) (source dest : string) : option Edge :=
  List.find (λ e, bool_decide (DestinationIp e = dest)) (out_edges g source).

Definition sum_edges (f : Edge → float64) (path : list string) (g : adjacency) : float64 :=
  foldl (λ acc p, match first_edge g p.1 p.2 with
                  | Some e => fadd acc (f e)
                  | None => acc
                  end) f0 (zip path (tail path)).

Definition calculatePathCost (path : list string) (g : adjacency) : float64 :=
  sum_edges edge_cost path g.

Definition calculatePathRTT (path : list string) (g : adjacency) : float64 :=
  sum_edges Latency path g.

(** ** [findShortestPath] *)
Record search := {
  dist : gmap string float64;
  prev : gmap string string;
  raw : gmap string float64;
  pq : PriorityQueue;
}.

(** Every node of the graph: the keys and the destinations. *)
Definition all_nodes (g : adjacency) : list string :=
  (map_to_list g).*1 ++ mjoin ((λ p : string * list Edge, DestinationIp <$> p.2) <$> map_to_list g).

Definition inf_map (g : adjacency) : gmap string float64 :=
  foldr (λ n m, <[n := f_inf]> m) ∅ (all_nodes g).

Definition search_init (start : string) (g : adjacency) : search :=
  {| dist := <[start := f0]> (inf_map g); prev := ∅;
     raw := <[start := f0]> (inf_map g);
     pq := heap_Push [] {| pq_node := start; pq_cost := f0; pq_rawRTT := f0 |} |}.

Definition relax (forbiddenNodes forbiddenEdges : gset string) (currNode : string)
    (currCost : float64) (s : search) (e : Edge) : search :=
  if bool_decide (DestinationIp e ∈ forbiddenNodes) then s
  else if bool_decide (currNode +:+ "->" +:+ DestinationIp e ∈ forbiddenEdges) then s
  else
    let nextNode := DestinationIp e in
    let newCost := fadd currCost (edge_cost e) in
    let newRTT := fadd (getf (raw s) currNode) (Latency e) in
    if flt newCost (getf (dist s) nextNode) then
      {| dist := <[nextNode := newCost]> (dist s);
         prev := <[nextNode := currNode]> (prev s);
         raw := <[nextNode := newRTT]> (raw s);
         pq := heap_Push (pq s) {| pq_node := nextNode; pq_cost := newCost; pq_rawRTT := f0 |} |}
    else s.

(** The loop [for node := end; node != ""; node = prev[node]]; [None] when
    [fuel] steps are not enough. *)
Fixpoint build_path (fuel : nat) (prev : gmap string string) (node : string)
    (path : list string) : option (list string) :=
  match fuel with
  | 0 => None
  | S fuel =>
      if bool_decide (node = "") then Some path
      else build_path fuel prev (default "" (prev !! node)) (node :: path)
  end.

(** One turn of the search loop for a popped [u]. *)
Inductive turn := Next (s : search) | Finish (r : option Path).

Definition visit (end_ : string) (g : adjacency) (forbiddenNodes forbiddenEdges : gset string)
    (s : search) (u : PQNode) : turn :=
  let currNode := pq_node u in
  let currCost := pq_cost u in
  if flt (getf (dist s) currNode) currCost then Next s
  else if bool_decide (currNode = end_) then
    Finish
      (match build_path (size (prev s) + 2) (prev s) end_ [] with
       | None => None
       | Some path =>
           let path := if hasConsecutiveDup path then removeConsecutiveDuplicates path else path in
           Some {| hops := path; cost := currCost; rawRTT := getf (raw s) end_ |}
       end)
  else if negb (feq (getf (dist s) end_) f_inf) then Next s
  else Next (foldl (relax forbiddenNodes forbiddenEdges currNode currCost) s (out_edges g currNode)).

Fixpoint search_loop (fuel : nat) (end_ : string) (g : adjacency)
    (forbiddenNodes forbiddenEdges : gset string) (s : search) : option (Path + string) :=
  match fuel with
  | 0 => None
  | S fuel =>
      match heap_Pop (pq s) with
      | None => Some (inr "no path found")
      | Some (u, pq') =>
          match visit end_ g forbiddenNodes forbiddenEdges
                  {| dist := dist s; prev := prev s; raw := raw s; pq := pq' |} u with
          | Next s' => search_loop fuel end_ g forbiddenNodes forbiddenEdges s'
          | Finish None => None
          | Finish (Some p) => Some (inl p)
          end
      end
  end.

Definition edge_count (g : adjacency) : nat := sum_list ((λ p : string * list Edge, length p.2) <$> map_to_list g).

(** [inl path] or [inr error]; [None] would be a run that does not end. *)
Definition findShortestPath (start end_ : string) (g : adjacency)
    (forbiddenNodes forbiddenEdges : gset string) : option (Path + string) :=
  search_loop (edge_count g + 2) end_ g forbiddenNodes forbiddenEdges (search_init start g).

(** ** Yen's algorithm *)

(** Removing, for every accepted path with the same root, its next edge. *)
Definition remove_used (A : list Path) (j : nat) (rootPath : list string) (es : list Edge)
    : list Edge :=
  foldl (λ es path,
    if bool_decide (j < length (hops path)) && pathsSharePrefix (hops path) rootPath then
      match hops path !! (j + 1) with
      | Some target => filter (λ e, DestinationIp e ≠ target) es
      | None => es
      end
    else es) es A.

(** One spur: the body of the inner loop.  The early [continue] on a spur path
    with duplicates leaves [graphCopy] without its removed edges. *)
Definition spur (end_ : string) (A : list Path) (prevHops : list string) (j : nat)
    (st : adjacency * PriorityQueue) : option (adjacency * PriorityQueue) :=
  let '(graphCopy, B) := st in
  match prevHops !! j with
  | None => None
  | Some spurNode =>
      let rootPath := take (j + 1) prevHops in
      match graphCopy !! spurNode with
      | None => Some st
      | Some originalEdges =>
          let forbidden : gset string := list_to_set (removelast rootPath) in
          let removedEdges :=
            filter (λ e, isInPath (DestinationIp e) rootPath = false) originalEdges in
          let graph1 := <[spurNode := remove_used A j rootPath removedEdges]> graphCopy in
          let restored B := Some (<[spurNode := originalEdges]> graph1, B) in
          if bool_decide (spurNode = end_) then restored B
          else if isInPath end_ rootPath then restored B
          else
            match findShortestPath spurNode end_ graph1 forbidden ∅ with
            | None => None
            | Some (inr _) => restored B
            | Some (inl spurPath) =>
                if hasDuplicateNodes (hops spurPath) then Some (graph1, B)
                else
                  let rootCost := calculatePathCost rootPath graph1 in
                  let rootRTT := calculatePathRTT rootPath graph1 in
                  let mergedHops := removelast rootPath ++ hops spurPath in
                  let completePath :=
                    {| hops := removeConsecutiveDuplicates mergedHops;
                       cost := fadd rootCost (cost spurPath);
                       rawRTT := fadd rootRTT (rawRTT spurPath) |} in
                  restored
                    (if hasDuplicateNodes (hops completePath) then B
                     else if isPathInList completePath A || isPathInQueue completePath B then B
                     else heap_Push B
                            {| pq_node := Join (hops completePath) "->";
                               pq_cost := cost completePath;
                               pq_rawRTT := rawRTT completePath |})
            end
      end
  end.

(** [for _, prevPath := range A { for j := 0; j < len(prevPath.hops)-1; j++ ... } }] *)
Definition spur_sites (A : list Path) : list (list string * nat) :=
  mjoin ((λ p, (λ j, (hops p, j)) <$> seq 0 (length (hops p) - 1)) <$> A).

Definition spurs (end_ : string) (A : list Path) (st : adjacency * PriorityQueue)
    : option (adjacency * PriorityQueue) :=
  foldl (λ acc site, st ← acc; spur end_ A site.1 site.2 st) (Some st) (spur_sites A).

Fixpoint yen_loop (fuel : nat) (end_ : string) (A : list Path)
    (st : adjacency * PriorityQueue) : option (list Path) :=
  match fuel with
  | 0 => None
  | S fuel =>
      if bool_decide (Z.of_nat (length A) < k ks)%Z then
        '(graphCopy, B) ← spurs end_ A st;
        match heap_Pop B with
        | None => Some A
        | Some (shortest, B') =>
            let newPath :=
              {| hops := removeConsecutiveDuplicates (Split (pq_node shortest) "->");
                 cost := pq_cost shortest; rawRTT := pq_rawRTT shortest |} in
            yen_loop fuel end_ (if isPathInList newPath A then A else A ++ [newPath])
              (graphCopy, B')
        end
      else Some A
  end.

(** [A[j].cost < A[i].cost] in the final exchange sort. *)
Definition path_less (p q : Path) : bool := flt (cost p) (cost q).

Definition dedup_path (p : Path) : Path :=
  {| hops := removeConsecutiveDuplicates (hops p); cost := cost p; rawRTT := rawRTT p |}.

Definition yensAlgorithm (start end_ : string) (graph_ : adjacency)
    : option (list Path + string) :=
  match findShortestPath start end_ graph_ ∅ ∅ with
  | None => None
  | Some (inr err) => Some (inr err)
  | Some (inl firstPath) =>
      A ← yen_loop (S (Z.to_nat (k ks))) end_ [dedup_path firstPath] (graph_, []);
      Some (inl (dedup_path <$> exchange_sort path_less A))
  end.

(** [graph_[e.SourceIp] = append(graph_[e.SourceIp], e)] over the edges. *)
Definition build_graph (edges : list Edge) : adjacency :=
  foldl (λ g e, <[SourceIp e := out_edges g (SourceIp e) ++ [e]]> g) ∅ edges.

Definition build_nodes (edges : list Edge) : gset string :=
  foldl (λ s e, {[DestinationIp e]} ∪ ({[SourceIp e]} ∪ s)) ∅ edges.

(** [Rtt] is the path's cost; [RawRTT] keeps its zero value. *)
Definition Computing (start end_ : string) : option (list PathInfo + string) :=
  let graph_ := build_graph (ks_edges ks) in
  let nodes := build_nodes (ks_edges ks) in
  if negb (bool_decide (start ∈ nodes)) then Some (inr "start node not found")
  else if negb (bool_decide (end_ ∈ nodes)) then Some (inr "end node not found")
  else
    match yensAlgorithm start end_ graph_ with
    | None => None
    | Some (inr err) => Some (inr err)
    | Some (inl paths) =>
        Some (inl ((λ p, {| Hops := hops p; Rtt := cost p; RawRTT := f0 |}) <$> paths))
    end.

(** [selectTopPaths]: at most four hops first, each group by real latency. *)
Definition selectTopPaths (paths : list Path) (count : nat) : list Path :=
  if bool_decide (length paths ≤ count) then paths
  else
    let shortPaths := filter (λ p, length (hops p) ≤ 4) paths in
    let longPaths := filter (λ p, ¬ length (hops p) ≤ 4) paths in
    let by_rtt := exchange_sort (λ p q, flt (rawRTT p) (rawRTT q)) in
    let result := take count (by_rtt shortPaths) in
    result ++ take (count - length result) (by_rtt longPaths).
End Solver.

(** ** A small network *)
Definition mk_edge (s d : string) (w l : Z) : Edge :=
  {| SourceIp := s; DestinationIp := d; EdgeWeight := f_of_Z w; Load := f0;
     Latency := f_of_Z l; Loss := f0 |}.

Example small_ksp :
  (λ r, match r with Some (inl ps) => Hops <$> ps | _ => [] end)
    (Computing (NewKShortestSolver
       [mk_edge "a" "b" 1 1; mk_edge "b" "d" 1 1; mk_edge "a" "c" 2 2; mk_edge "c" "d" 2 2] 3) "a" "d")
  = [["a"; "b"; "d"]; ["a"; "c"; "d"]].
Proof. vm_compute. reflexivity. Qed.
