(* ===== verification/KSearch.v ===== *)
(** * Correctness of the single-pair search

    [findShortestPath] of [k-shortest.go] on a graph with non-negative costs:
    it ends, what it returns is a simple path of the graph with its cost and
    its latency added up from the source, and when it returns an error the end
    node is cut off.  The file also shows that the path is not always a
    shortest one. *)
From S2P Require Import Prelude Float64 GoHeap GoStrings Records KShortest.

(** ** The queue implements the heap interface *)
Definition pq_less (x y : PQNode) : bool := flt (pq_cost x) (pq_cost y).

Definition queued (q : PriorityQueue) : list PQNode := q.*1.

Lemma pq_Swap_vals q i j :
  i < length q → j < length q → (pq_Swap q i j).*1 = swap (q.*1) i j.
Proof.
  intros Hi Hj. unfold pq_Swap, swap. rewrite !list_lookup_fmap.
  destruct (lookup_lt_is_Some_2 q i Hi) as [x Hx].
  destruct (lookup_lt_is_Some_2 q j Hj) as [y Hy].
  rewrite Hx, Hy. simpl. rewrite !list_fmap_insert. simpl.
  destruct (decide (i = j)) as [->|Hne].
  - rewrite !list_insert_insert_eq. congruence.
  - by apply list_insert_insert_ne.
Qed.

#[export, refine] Instance PriorityQueue_laws : HeapLaws PriorityQueue PQNode pq_less :=
  {| hvals := queued |}.
Proof.
  - intros h. unfold queued. by rewrite length_fmap.
  - intros h i j. unfold less_at, queued. rewrite !list_lookup_fmap. simpl. unfold pq_Less.
    by destruct (h !! i), (h !! j).
  - intros h i j Hi Hj. by apply pq_Swap_vals.
  - intros h x. unfold queued. simpl. unfold pq_Push. by rewrite fmap_app.
  - intros h l x Hv. unfold queued in *.
    destruct h as [|e h _] using rev_ind; [by destruct l|].
    rewrite fmap_app in Hv. apply app_inj_2 in Hv as [<- [= <-]]; [|done].
    simpl. unfold pq_Pop. rewrite last_snoc, removelast_last. eauto.
Defined.

Definition pq_num (q : PQNode) : Prop := is_num (pq_cost q) = true.

#[export] Instance pq_less_weak : WeakOrder pq_num pq_less.
Proof. apply (weak_order_on pq_cost (λ x, is_num x = true) flt). Qed.

Definition pq_ok : PriorityQueue → Prop := heap_ok pq_less pq_num.

Lemma pq_ok_nil : pq_ok [].
Proof. split; [|constructor]. intros i Hi. simpl in Hi. lia. Qed.

Lemma pq_push_ok q x : pq_ok q → pq_num x →
  pq_ok (heap_Push q x) ∧ queued (heap_Push q x) ≡ₚ x :: queued q.
Proof. intros H0 H1. exact (heap_Push_spec pq_less pq_num q x H0 H1). Qed.

Lemma pq_pop_ok q : pq_ok q → queued q ≠ [] →
  ∃ x q', heap_Pop q = Some (x, q') ∧ pq_ok q' ∧ x :: queued q' ≡ₚ queued q ∧
    Forall (λ y, pq_less y x = false) (queued q).
Proof.
  intros Hq Hne.
  destruct (heap_Pop_spec pq_less pq_num q Hq Hne) as (x & q' & H1 & H2 & _ & H3 & H4).
  eauto 10.
Qed.

Lemma pq_pop_none q : heap_Pop q = None → pq_ok q → queued q = [].
Proof.
  intros Hp Hq. destruct (queued q) eqn:E; [done|].
  destruct (pq_pop_ok q Hq) as (x & q' & Hx & _); congruence.
Qed.

(** ** Paths of a graph *)
Section Paths.
Context (ks : KShortestSolver) (g : adjacency) (forb : gset string).

(** [gpath start p v c r]: [p] is a simple path from [start] to [v] that enters
    no forbidden node; [c] and [r] are its cost and its latency, summed from
    the source in float arithmetic. *)
Inductive gpath (start : string) : list string → string → float64 → float64 → Prop :=
| gpath_start : gpath start [start] start f0 f0
| gpath_snoc p u c r e :
    gpath start p u c r → e ∈ out_edges g u →
    DestinationIp e ∉ p → DestinationIp e ∉ forb →
    gpath start (p ++ [DestinationIp e]) (DestinationIp e)
      (fadd c (edge_cost ks e)) (fadd r (Latency e)).

Lemma gpath_ends start p v c r :
  gpath start p v c r → head p = Some start ∧ last p = Some v ∧ NoDup p.
Proof.
  induction 1 as [|p u c r e Hp (IH1 & IH2 & IH3) He Hn Hf].
  - split; [done|]. split; [done|]. apply NoDup_singleton.
  - destruct p as [|x p]; [done|]. split; [done|]. split; [apply last_snoc|].
    apply NoDup_app. split; [done|]. split; [|apply NoDup_singleton].
    intros y Hy ->%list_elem_of_singleton. done.
Qed.

Lemma gpath_avoids start p v c r x :
  gpath start p v c r → x ∈ p → x = start ∨ x ∉ forb.
Proof.
  induction 1 as [|p u c r e Hp IH He Hn Hf].
  - intros ->%list_elem_of_singleton. by left.
  - intros [?| ->%list_elem_of_singleton]%elem_of_app; auto.
Qed.

(** Consecutive nodes of a list are joined by an edge. *)
Definition linked (p : list string) : Prop :=
  ∀ i x y, p !! i = Some x → p !! S i = Some y →
    ∃ e, e ∈ out_edges g x ∧ DestinationIp e = y.

Lemma gpath_linked start p v c r : gpath start p v c r → linked p.
Proof.
  induction 1 as [|p u c r e Hp IH He Hn Hf]; intros i x y Hx Hy.
  - apply lookup_lt_Some in Hy. simpl in Hy. lia.
  - pose proof (gpath_ends _ _ _ _ _ Hp) as (_ & Hl & _).
    destruct (decide (S i < length p)) as [Hlt|Hge].
    { rewrite lookup_app_l in Hx, Hy by lia. eauto. }
    assert (Hy' := lookup_lt_Some _ _ _ Hy). rewrite length_app in Hy'. simpl in Hy'.
    rewrite last_lookup in Hl.
    assert (i = pred (length p)) as -> by lia.
    rewrite lookup_app_l in Hx by lia. rewrite Hl in Hx. simplify_eq.
    rewrite list_lookup_middle in Hy by lia. simplify_eq. eauto.
Qed.
End Paths.

(** ** What the search needs of a graph *)
Record search_ok (ks : KShortestSolver) (g : adjacency) : Prop := {
  so_cost u e : e ∈ out_edges g u → f_nonneg (edge_cost ks e) = true;
  so_name u e : e ∈ out_edges g u → DestinationIp e ≠ "";
}.

Section Search.
Context (ks : KShortestSolver) (g : adjacency) (forb : gset string) (start end_ : string).
Hypothesis Hok : search_ok ks g.
Hypothesis Hstart : start ≠ "".

Implicit Types (s : search) (S : gset string).

(** The tree of [prev] pointers: [tpath S s p v] says that following [prev]
    from [v] gives the path [p], whose inner nodes are all expanded. *)
Inductive tpath S s : list string → string → Prop :=
| tpath_start :
    getf (dist s) start = f0 → getf (raw s) start = f0 → prev s !! start = None →
    tpath S s [start] start
| tpath_snoc p u e :
    tpath S s p u → u ∈ S → e ∈ out_edges g u →
    DestinationIp e ∉ p → DestinationIp e ∉ forb →
    prev s !! DestinationIp e = Some u →
    getf (dist s) (DestinationIp e) = fadd (getf (dist s) u) (edge_cost ks e) →
    getf (raw s) (DestinationIp e) = fadd (getf (raw s) u) (Latency e) →
    tpath S s (p ++ [DestinationIp e]) (DestinationIp e).

Lemma tpath_gpath S s p v :
  tpath S s p v → gpath ks g forb start p v (getf (dist s) v) (getf (raw s) v).
Proof.
  induction 1 as [Hd Hr _|p u e Hp IH HuS He Hnp Hf Hprev Hd Hr].
  - rewrite Hd, Hr. constructor.
  - rewrite Hd, Hr. by eapply gpath_snoc.
Qed.

Lemma tpath_inner S s p v x : tpath S s p v → x ∈ p → x = v ∨ x ∈ S.
Proof.
  induction 1 as [|p u e Hp IH HuS He Hnp Hf Hprev Hd Hr].
  - intros ->%list_elem_of_singleton. by left.
  - intros [Hx| ->%list_elem_of_singleton]%elem_of_app; [|by left].
    right. by destruct (IH Hx) as [->|].
Qed.

Lemma tpath_nonneg S s p v : tpath S s p v → f_nonneg (getf (dist s) v) = true.
Proof.
  induction 1 as [Hd _ _|p u e Hp IH HuS He Hnp Hf Hprev Hd Hr].
  - by rewrite Hd.
  - rewrite Hd. apply fadd_nonneg_closed; [done|]. by eapply so_cost.
Qed.

Lemma tpath_last S s p v : tpath S s p v → v ∈ p.
Proof.
  destruct 1 as [|p u e]; [by apply list_elem_of_singleton|].
  apply elem_of_app. right. by apply list_elem_of_singleton.
Qed.

Lemma tpath_mono S S' s p v : S ⊆ S' → tpath S s p v → tpath S' s p v.
Proof.
  intros HS. induction 1 as [|p u e Hp IH HuS]; [by constructor|].
  eapply (tpath_snoc S' s p u e); auto.
Qed.

(** Writing the entries of a node outside of the path changes nothing. *)
Lemma tpath_frame S s s' p v w :
  (∀ x, x ≠ w → prev s' !! x = prev s !! x ∧ getf (dist s') x = getf (dist s) x ∧
     getf (raw s') x = getf (raw s) x) →
  w ∉ p → tpath S s p v → tpath S s' p v.
Proof.
  intros Hs Hw Hp. induction Hp as [Hd Hr Hn|p u e Hp IH HuS He Hnp Hf Hprev Hd Hr].
  - destruct (Hs start) as (E1 & E2 & E3).
    { intros ->. apply Hw. by apply list_elem_of_singleton. }
    constructor; congruence.
  - rewrite elem_of_app, list_elem_of_singleton in Hw.
    destruct (Hs (DestinationIp e)) as (E1 & E2 & E3); [intros <-; tauto|].
    destruct (Hs u) as (E4 & E5 & E6).
    { intros <-. apply tpath_last in Hp. tauto. }
    eapply (tpath_snoc S s' p u e); try done; [apply IH; tauto|congruence..].
Qed.

(** Following [prev] rebuilds the path. *)
Lemma build_path_tpath S s p v acc fuel :
  tpath S s p v → length p < fuel → build_path fuel (prev s) v acc = Some (p ++ acc).
Proof.
  intros Hp. revert acc fuel.
  induction Hp as [Hd Hr Hn|p u e Hp IH HuS He Hnp Hf Hprev Hd Hr]; intros acc fuel Hfuel.
  - simpl in Hfuel. destruct fuel as [|[|fuel]]; try lia. simpl.
    rewrite bool_decide_eq_false_2 by done. by rewrite Hn.
  - rewrite length_app in Hfuel. simpl in Hfuel. destruct fuel as [|fuel]; [lia|]. simpl.
    rewrite bool_decide_eq_false_2 by (by eapply so_name).
    rewrite Hprev. simpl. rewrite IH by lia. by rewrite <-app_assoc.
Qed.

Lemma tpath_prev S s p v x :
  tpath S s p v → x ∈ p → x = start ∨ x ∈ dom (prev s).
Proof.
  induction 1 as [|p u e Hp IH HuS He Hnp Hf Hprev Hd Hr].
  - intros ->%list_elem_of_singleton. by left.
  - intros [Hx| ->%list_elem_of_singleton]%elem_of_app; [auto|].
    right. apply elem_of_dom. eauto.
Qed.

Lemma tpath_length S s p v : tpath S s p v → length p ≤ size (prev s) + 1.
Proof.
  intros Hp. destruct (gpath_ends _ _ _ _ _ _ _ _ (tpath_gpath _ _ _ _ Hp)) as (_ & _ & Hnd).
  assert (p ⊆ start :: elements (dom (prev s))) as Hsub.
  { intros x Hx. apply elem_of_cons. destruct (tpath_prev _ _ _ _ _ Hp Hx) as [->|Hx'].
    - by left.
    - right. by apply elem_of_elements. }
  pose proof (submseteq_length _ _ (NoDup_submseteq _ _ Hnd Hsub)) as Hl. simpl in Hl.
  change (length (elements (dom (prev s)))) with (size (dom (prev s))) in Hl.
  rewrite size_dom in Hl. lia.
Qed.

(** ** The invariant of the loop

    [S] is the set of expanded nodes and [cur] the cost popped last. *)
Definition reached S s (v : string) : Prop := ∃ p, tpath S s p v.

Lemma tpath_reached S s p v x : tpath S s p v → x ∈ p → reached S s x.
Proof.
  induction 1 as [|p u e Hp IH HuS He Hnp Hf Hprev Hd Hr].
  - intros ->%list_elem_of_singleton. exists [start]. by constructor.
  - intros [?| ->%list_elem_of_singleton]%elem_of_app; [by apply IH|].
    exists (p ++ [DestinationIp e]). by eapply tpath_snoc.
Qed.

(** The queue entry [q] carries the current distance of its node. *)
Definition current s (q : PQNode) : Prop := pq_cost q = getf (dist s) (pq_node q).
#[local] Instance current_dec s q : Decision (current s q).
Proof. unfold current. apply _. Defined.

Definition count_current s (v : string) : nat :=
  length (filter (λ q, pq_node q = v ∧ current s q) (queued (pq s))).

Record inv S (cur : float64) s : Prop := {
  i_heap : pq_ok (pq s);
  i_queue q : q ∈ queued (pq s) →
    reached S s (pq_node q) ∧ f_nonneg (pq_cost q) = true ∧ fle cur (pq_cost q) = true ∧
    (current s q ∨ flt (getf (dist s) (pq_node q)) (pq_cost q) = true);
  i_expanded u : u ∈ S → reached S s u ∧ fle (getf (dist s) u) cur = true;
  i_count v : count_current s v ≤ (if decide (v ∈ S) then 0 else 1);
}.

Lemma getf_insert m (v w : string) d :
  getf (<[v := d]> m) w = if decide (v = w) then d else getf m w.
Proof. unfold getf. rewrite lookup_insert. by case_decide. Qed.

(** *** Relaxing an edge out of the node being expanded *)
Section Relax.
Context S (cur : float64) s (u : string) (e : Edge).
Hypothesis Hinv : inv S cur s.
Hypothesis HuS : u ∈ S.
Hypothesis Hcur : getf (dist s) u = cur.
Hypothesis He : e ∈ out_edges g u.
Let v := DestinationIp e.
Let newCost := fadd cur (edge_cost ks e).
Hypothesis Hforb : v ∉ forb.
Hypothesis Hlt : flt newCost (getf (dist s) v) = true.
Let x : PQNode := {| pq_node := v; pq_cost := newCost; pq_rawRTT := f0 |}.
Let s' : search :=
  {| dist := <[v := newCost]> (dist s); prev := <[v := u]> (prev s);
     raw := <[v := fadd (getf (raw s) u) (Latency e)]> (raw s);
     pq := heap_Push (pq s) x |}.

Lemma cur_nonneg : f_nonneg cur = true.
Proof.
  destruct (i_expanded _ _ _ Hinv u HuS) as [[p Hp] _].
  rewrite <-Hcur. by eapply tpath_nonneg.
Qed.

Lemma newCost_nonneg : f_nonneg newCost = true ∧ fle cur newCost = true.
Proof. apply fadd_nonneg; [apply cur_nonneg|]. by eapply so_cost. Qed.

Lemma relax_fresh : v ∉ S.
Proof.
  intros HvS. destruct (i_expanded _ _ _ Hinv v HvS) as [_ Hle].
  destruct newCost_nonneg as [_ Hge].
  pose proof (flt_le_trans _ _ _ Hlt (fle_trans _ _ _ Hle Hge)) as Habs.
  by rewrite flt_irrefl in Habs.
Qed.

Lemma relax_off w : w ≠ v →
  prev s' !! w = prev s !! w ∧ getf (dist s') w = getf (dist s) w ∧
  getf (raw s') w = getf (raw s) w.
Proof.
  intros Hw. simpl. rewrite lookup_insert_ne, !getf_insert by done.
  by rewrite !decide_False by done.
Qed.

Lemma relax_reached_v : reached S s' v.
Proof.
  destruct (i_expanded _ _ _ Hinv u HuS) as [[p Hp] _].
  assert (v ∉ p) as Hvp.
  { intros Hin. apply relax_fresh. by destruct (tpath_inner _ _ _ _ _ Hp Hin) as [->|]. }
  assert (u ≠ v) as Huv by (intros E; apply relax_fresh; by rewrite <-E).
  exists (p ++ [v]). apply (tpath_snoc S s' p u e); try done.
  - by apply (tpath_frame S s s' p u v relax_off).
  - simpl. by rewrite lookup_insert_eq.
  - destruct (relax_off u Huv) as (_ & -> & _). simpl. rewrite getf_insert.
    fold v. rewrite decide_True by done. unfold newCost. by rewrite Hcur.
  - destruct (relax_off u Huv) as (_ & _ & ->). simpl. rewrite getf_insert.
    fold v. by rewrite decide_True by done.
Qed.

Lemma relax_reached w : reached S s w → reached S s' w.
Proof.
  intros [p Hp]. destruct (decide (w = v)) as [->|Hw]; [apply relax_reached_v|].
  exists p. apply (tpath_frame S s s' p w v relax_off); [|done].
  intros Hin. destruct (tpath_inner _ _ _ _ _ Hp Hin) as [->|Hv]; [done|].
  by apply relax_fresh.
Qed.

Lemma relax_queued : pq_ok (pq s') ∧ queued (pq s') ≡ₚ x :: queued (pq s).
Proof.
  apply pq_push_ok; [apply Hinv|]. apply f_nonneg_num, newCost_nonneg.
Qed.

Lemma relax_stale q :
  q ∈ queued (pq s) → pq_node q = v → flt newCost (pq_cost q) = true.
Proof.
  intros Hq Hv. destruct (i_queue _ _ _ Hinv q Hq) as (_ & _ & _ & Hc).
  unfold current in Hc. rewrite Hv in Hc.
  destruct Hc as [->|Hc]; [done|]. by eapply flt_le_trans, flt_le.
Qed.

Lemma relax_current q : pq_node q ≠ v → current s' q ↔ current s q.
Proof. intros Hq. unfold current. by destruct (relax_off _ Hq) as (_ & -> & _). Qed.

Lemma relax_count w : count_current s' w ≤ (if decide (w ∈ S) then 0 else 1).
Proof.
  unfold count_current. rewrite (proj2 relax_queued).
  destruct (decide (w = v)) as [->|Hw].
  - rewrite decide_False by apply relax_fresh. rewrite filter_cons_True.
    2: { split; [done|]. unfold current. simpl. by rewrite getf_insert, decide_True. }
    assert (filter (λ q, pq_node q = v ∧ current s' q) (queued (pq s)) = []) as ->; [|done].
    apply list_filter_none, Forall_forall. intros q Hq [Hv Hc].
    pose proof (relax_stale q Hq Hv) as Hst. unfold current in Hc.
    rewrite Hc, Hv in Hst. simpl in Hst. rewrite getf_insert, decide_True in Hst by done.
    by rewrite flt_irrefl in Hst.
  - rewrite filter_cons_False by (intros [? _]; by apply Hw).
    etransitivity; [|apply (i_count _ _ _ Hinv w)]. unfold count_current.
    apply reflexive_eq. f_equal. apply list_filter_iff. intros q.
    split; intros [<- Hc]; (split; [done|]); by apply relax_current.
Qed.

Lemma relax_inv : inv S cur s'.
Proof.
  split.
  - apply relax_queued.
  - intros q Hq. rewrite (proj2 relax_queued) in Hq. apply elem_of_cons in Hq as [->|Hq].
    { split; [apply relax_reached_v|]. split; [apply newCost_nonneg|].
      split; [apply newCost_nonneg|]. left. unfold current. simpl.
      by rewrite getf_insert, decide_True. }
    destruct (i_queue _ _ _ Hinv q Hq) as (H1 & H2 & H3 & H4).
    split; [by apply relax_reached|]. split; [done|]. split; [done|].
    destruct (decide (pq_node q = v)) as [Hv|Hv].
    + right. rewrite Hv. simpl. rewrite getf_insert, decide_True by done.
      by apply relax_stale.
    + rewrite relax_current by done. by destruct (relax_off _ Hv) as (_ & -> & _).
  - intros w Hw. destruct (i_expanded _ _ _ Hinv w Hw) as [H1 H2].
    split; [by apply relax_reached|].
    destruct (relax_off w) as (_ & -> & _); [|done]. intros E. apply relax_fresh. by rewrite <-E.
  - apply relax_count.
Qed.

End Relax.

(** *** The search stops relaxing once the end node has a distance *)
Definition cut s : Prop := feq (getf (dist s) end_) f_inf = false.

Definition known s (v : string) : Prop := ∃ d, dist s !! v = Some d ∧ d ≠ f_inf.

(** A node with a distance is expanded, or waits in the queue, or was dropped
    after the end node got its distance. *)
Definition pending S s : Prop := ∀ v, known s v →
  v ∈ S ∨ (∃ q, q ∈ queued (pq s) ∧ pq_node q = v ∧ current s q) ∨ (v ≠ end_ ∧ cut s).

(** The edge would extend a path beyond the range of floats. *)
Definition overflows (e : Edge) : Prop :=
  ∃ p u c r, gpath ks g forb start p u c r ∧ e ∈ out_edges g u ∧
    (DestinationIp e ∉ p) ∧ (DestinationIp e ∉ forb) ∧
    flt (fadd c (edge_cost ks e)) f_inf = false.

Definition closed_edge S s (e : Edge) : Prop :=
  DestinationIp e ∈ forb ∨ DestinationIp e ∈ S ∨ known s (DestinationIp e) ∨ overflows e.

Lemma feq_inf_lt x y : flt x y = true → feq x f_inf = false ∧ x ≠ f_inf.
Proof. destruct x as [| [] | |]; try done. by destruct y as [| [] | |]. Qed.

Lemma relax_step S cur s u e :
  inv S cur s → u ∈ S → getf (dist s) u = cur → e ∈ out_edges g u →
  let s' := relax ks forb ∅ u cur s e in
  inv S cur s' ∧ getf (dist s') u = cur ∧
  length (queued (pq s')) ≤ length (queued (pq s)) + 1 ∧
  dom (dist s) ⊆ dom (dist s') ∧
  (∀ w, known s w → known s' w) ∧
  (pending S s → pending S s') ∧
  (DestinationIp e ∈ dom (dist s) → closed_edge S s' e).
Proof.
  intros Hinv HuS Hcur He. unfold relax.
  destruct (bool_decide_reflect (DestinationIp e ∈ forb)) as [Hf|Hf].
  { split; [done|]. split; [done|]. split; [lia|]. split; [done|]. split; [done|].
    split; [done|]. intros _. by left. }
  rewrite bool_decide_eq_false_2 by apply not_elem_of_empty.
  destruct (flt _ _) eqn:Hlt.
  - pose proof (relax_inv S cur s u e Hinv HuS Hcur He Hf Hlt) as Hinv'.
    pose proof (relax_queued S cur s u e Hinv HuS Hcur He) as [_ Hq].
    pose proof (relax_fresh S cur s u e Hinv HuS Hcur He Hlt) as Hfresh.
    simpl in Hq. match goal with |- inv S cur ?s0 ∧ _ => set (s' := s0) in * end.
    set (x := {| pq_node := DestinationIp e; pq_cost := fadd cur (edge_cost ks e);
                 pq_rawRTT := f0 |}) in *.
    split; [done|]. split.
    { simpl. rewrite getf_insert, decide_False; [done|]. intros E. by rewrite E in Hfresh. }
    split; [unfold s'; simpl; rewrite (Permutation_length Hq); simpl; lia|].
    split; [unfold s'; simpl; rewrite dom_insert; apply union_subseteq_r|].
    destruct (feq_inf_lt _ _ Hlt) as [Hcut' Hinf].
    assert (∀ w, known s w → known s' w) as Hknown.
    { intros w (d & Hd & Hne). destruct (decide (w = DestinationIp e)) as [->|Hw].
      - eexists. split; [simpl; apply lookup_insert_eq|done].
      - exists d. split; [simpl; by rewrite lookup_insert_ne|done]. }
    assert (current s' x) as Hcx.
    { unfold current. simpl. by rewrite getf_insert, decide_True. }
    split; [done|]. split.
    2: { intros _. do 2 right. left. eexists. split; [simpl; apply lookup_insert_eq|done]. }
    intros Hpend w (d & Hd & Hne). simpl in Hd.
    destruct (decide (w = DestinationIp e)) as [->|Hw].
    { right. left. exists x. split; [simpl; rewrite Hq; left|done]. }
    rewrite lookup_insert_ne in Hd by done.
    destruct (Hpend w) as [?|[(q & Hq1 & <- & Hq3)|[Hne' Hcut]]]; [by exists d|by left|..].
    + right. left. exists q. split; [simpl; rewrite Hq; by right|]. split; [done|].
      by apply (relax_current cur s u e).
    + right. right. split; [done|]. unfold cut. simpl. rewrite getf_insert.
      by case_decide.
  - split; [done|]. split; [done|]. split; [lia|]. split; [done|]. split; [done|].
    split; [done|]. intros [d Hd]%elem_of_dom. right.
    destruct (decide (d = f_inf)) as [->|Hne]; [|right; left; by exists d].
    destruct (i_expanded _ _ _ Hinv u HuS) as [[p Hp] _].
    destruct (decide (DestinationIp e ∈ p)) as [Hin|Hin].
    { left. by destruct (tpath_inner _ _ _ _ _ Hp Hin) as [->|]. }
    do 2 right. exists p, u, (getf (dist s) u), (getf (raw s) u).
    split; [by eapply tpath_gpath|]. do 3 (split; [done|]).
    unfold getf in Hlt at 1. rewrite Hd in Hlt. by rewrite Hcur.
Qed.

Lemma relax_all S cur s u l :
  inv S cur s → u ∈ S → getf (dist s) u = cur → (∀ e, e ∈ l → e ∈ out_edges g u) →
  (∀ e, e ∈ l → DestinationIp e ∈ dom (dist s)) →
  let s' := foldl (relax ks forb ∅ u cur) s l in
  inv S cur s' ∧
  length (queued (pq s')) ≤ length (queued (pq s)) + length l ∧
  dom (dist s) ⊆ dom (dist s') ∧
  (∀ w, known s w → known s' w) ∧
  (pending S s → pending S s') ∧
  (∀ e, e ∈ l → closed_edge S s' e).
Proof.
  revert s. induction l as [|e l IH]; intros s Hinv HuS Hcur Hl Hdom; simpl.
  { split; [done|]. split; [lia|]. repeat split; try done. by intros e ?%not_elem_of_nil. }
  destruct (relax_step S cur s u e) as (R1 & R2 & R3 & R4 & R5 & R6 & R7);
    [done..|apply Hl; left|].
  destruct (IH (relax ks forb ∅ u cur s e)) as (T1 & T2 & T3 & T4 & T5 & T6);
    [done..|intros; apply Hl; by right| |].
  { intros e' He'. apply R4, Hdom. by right. }
  split; [done|]. split; [lia|]. split; [by etransitivity|]. split; [auto|]. split; [auto|].
  intros e' [->|He']%elem_of_cons; [|auto].
  destruct (R7 (Hdom e ltac:(left))) as [?|[?|[?|?]]]; unfold closed_edge; auto.
Qed.
(** ** The loop *)

(** What still can be pushed: the edges out of the nodes not yet expanded. *)
Definition unexpanded S : nat := edge_count (filter (λ p, p.1 ∉ S) g).

Lemma edge_count_delete (m : adjacency) u es :
  m !! u = Some es → edge_count m = length es + edge_count (delete u m).
Proof.
  intros Hm. unfold edge_count.
  rewrite <-(map_to_list_delete m u es Hm). done.
Qed.

Lemma unexpanded_step S u : u ∉ S →
  unexpanded ({[u]} ∪ S) + length (out_edges g u) ≤ unexpanded S.
Proof.
  intros Hu. unfold unexpanded, out_edges.
  assert (filter (λ p : string * list Edge, p.1 ∉ {[u]} ∪ S) g =
          delete u (filter (λ p : string * list Edge, p.1 ∉ S) g)) as ->.
  { apply map_eq. intros i. apply option_eq. intros es.
    rewrite lookup_delete_Some, !map_lookup_filter_Some. simpl.
    rewrite not_elem_of_union, not_elem_of_singleton. intuition congruence. }
  destruct (g !! u) as [es|] eqn:Hg; simpl.
  - rewrite (edge_count_delete (filter (λ p : string * list Edge, p.1 ∉ S) g) u es); [lia|]. by apply map_lookup_filter_Some.
  - rewrite delete_id; [lia|]. apply map_lookup_filter_None. by left.
Qed.

Record loop_inv S (cur : float64) s : Prop := {
  l_inv : inv S cur s;
  l_pending : pending S s;
  l_end : end_ ∉ S;
  l_start : known s start;
  l_closed u e : u ∈ S → e ∈ out_edges g u → closed_edge S s e;
  l_dom u e : e ∈ out_edges g u → DestinationIp e ∈ dom (dist s);
}.

Definition set_pq s (q : PriorityQueue) : search :=
  {| dist := dist s; prev := prev s; raw := raw s; pq := q |}.

Lemma tpath_set_pq S s q p v : tpath S s p v ↔ tpath S (set_pq s q) p v.
Proof. split; (induction 1; [by constructor|by eapply tpath_snoc]). Qed.

Lemma reached_set_pq S s q v : reached S s v ↔ reached S (set_pq s q) v.
Proof. unfold reached. setoid_rewrite (tpath_set_pq S s q). done. Qed.

Lemma reached_mono S S' s v : S ⊆ S' → reached S s v → reached S' s v.
Proof. intros HS [p Hp]. exists p. by eapply tpath_mono. Qed.

(** *** Popping the closest entry *)
Section Popped.
Context S (cur : float64) s (x : PQNode) (q' : PriorityQueue).
Hypothesis Hinv : loop_inv S cur s.
Hypothesis Hq' : pq_ok q'.
Hypothesis Hperm : x :: queued q' ≡ₚ queued (pq s).
Hypothesis Hmin : Forall (λ y, pq_less y x = false) (queued (pq s)).
Let s0 := set_pq s q'.

Lemma popped_entry :
  reached S s (pq_node x) ∧ f_nonneg (pq_cost x) = true ∧ fle cur (pq_cost x) = true ∧
  (current s x ∨ flt (getf (dist s) (pq_node x)) (pq_cost x) = true).
Proof. apply (l_inv _ _ _ Hinv). rewrite <-Hperm. left. Qed.

Lemma count_popped v :
  count_current s v =
    (if decide (pq_node x = v ∧ current s x) then 1 else 0) + count_current s0 v.
Proof.
  unfold count_current. rewrite <-Hperm. rewrite filter_cons.
  by destruct (decide (pq_node x = v ∧ current s x)).
Qed.

Lemma popped_inv : inv S cur s0.
Proof.
  destruct (l_inv _ _ _ Hinv) as [H1 H2 H3 H4]. split.
  - done.
  - intros q Hq. destruct (H2 q) as (A1 & A2 & A3 & A4); [rewrite <-Hperm; by right|].
    split; [by apply reached_set_pq|]. done.
  - intros u Hu. destruct (H3 u Hu). split; [by apply reached_set_pq|done].
  - intros v. rewrite <-(H4 v), count_popped. lia.
Qed.

(** An entry that is not expanded may be dropped when it is stale, or when
    the end node already has its distance. *)
Lemma popped_drop : (current s x → pq_node x ≠ end_ ∧ cut s) → loop_inv S cur s0.
Proof.
  intros Hdrop. destruct Hinv as [H1 H2 H3 H4 H5 H6]. split; try done.
  - apply popped_inv.
  - intros v Hv.
    destruct (H2 v Hv) as [?|[(q & Hq1 & <- & Hq3)|[Hne Hcut]]]; [by left|..|by right; right].
    rewrite <-Hperm in Hq1. apply elem_of_cons in Hq1 as [->|Hq1].
    + right. right. auto.
    + right. left. by exists q.
Qed.

(** The entry that is expanded. *)
Hypothesis Hcurrent : current s x.

Lemma popped_fresh : pq_node x ∉ S.
Proof.
  intros Hx. pose proof (i_count _ _ _ (l_inv _ _ _ Hinv) (pq_node x)) as Hc.
  rewrite count_popped, decide_True in Hc by done. rewrite decide_True in Hc by done. lia.
Qed.

Lemma expand_inv : inv ({[pq_node x]} ∪ S) (pq_cost x) s0.
Proof.
  destruct popped_entry as (Ex1 & Ex2 & Ex3 & _).
  pose proof (union_subseteq_r {[pq_node x]} S) as Hsub.
  destruct popped_inv as [H1 H2 H3 H4]. split.
  - done.
  - intros q Hq. destruct (H2 q Hq) as (A1 & A2 & A3 & A4).
    split; [by apply (reached_mono S)|]. split; [done|]. split; [|done].
    rewrite Forall_forall in Hmin. specialize (Hmin q). unfold pq_less in Hmin.
    apply fnot_lt_le; [by apply f_nonneg_num..|]. apply Hmin. rewrite <-Hperm. by right.
  - intros u [->%elem_of_singleton|Hu]%elem_of_union.
    + split; [apply (reached_mono S); [done|]; by apply reached_set_pq|].
      simpl. rewrite <-Hcurrent. by apply fle_refl, f_nonneg_num.
    + destruct (H3 u Hu) as [B1 B2]. split; [by apply (reached_mono S)|].
      by eapply fle_trans.
  - intros v. pose proof (i_count _ _ _ (l_inv _ _ _ Hinv) v) as Hc. rewrite count_popped in Hc.
    destruct (decide (pq_node x = v)) as [<-|Hne].
    + rewrite decide_True in Hc by done. rewrite decide_False in Hc by apply popped_fresh.
      rewrite decide_True; [lia|]. by apply elem_of_union_l, elem_of_singleton.
    + destruct (decide (v ∈ S)) as [Hv|Hv]; [rewrite decide_True by (by apply elem_of_union_r)|
        rewrite decide_False]; try lia.
      rewrite elem_of_union, elem_of_singleton. intros [->|]; [|done]. done.
Qed.
Lemma expand_pending : pending ({[pq_node x]} ∪ S) s0.
Proof.
  intros v Hv.
  destruct (l_pending _ _ _ Hinv v Hv) as [?|[(q & Hq1 & <- & Hq3)|[Hne Hcut]]].
  - left. by apply elem_of_union_r.
  - rewrite <-Hperm in Hq1. apply elem_of_cons in Hq1 as [->|Hq1].
    + left. by apply elem_of_union_l, elem_of_singleton.
    + right. left. by exists q.
  - by right; right.
Qed.

Lemma expand_loop : pq_node x ≠ end_ →
  let s' := foldl (relax ks forb ∅ (pq_node x) (pq_cost x)) s0 (out_edges g (pq_node x)) in
  loop_inv ({[pq_node x]} ∪ S) (pq_cost x) s' ∧
  length (queued (pq s')) ≤ length (queued q') + length (out_edges g (pq_node x)).
Proof.
  intros Hne. pose proof expand_pending as Hpend.
  destruct (relax_all ({[pq_node x]} ∪ S) (pq_cost x) s0 (pq_node x)
              (out_edges g (pq_node x))) as (T1 & T2 & T3 & T4 & T5 & T6).
  - apply expand_inv.
  - by apply elem_of_union_l, elem_of_singleton.
  - by rewrite Hcurrent.
  - done.
  - intros e He. by apply (l_dom _ _ _ Hinv (pq_node x)).
  - split; [|done]. destruct Hinv as [H1 H2 H3 H4 H5 H6]. split; auto.
    + rewrite elem_of_union, elem_of_singleton. intros [?|?]; [congruence|done].
    + intros u e [->%elem_of_singleton|Hu]%elem_of_union He; [by apply T6|].
      destruct (H5 u e Hu He) as [?|[?|[?|?]]]; unfold closed_edge.
      * by left.
      * right. left. by apply elem_of_union_r.
      * right. right. left. by apply T4.
      * by do 3 right.
    + intros u e He. apply T3, (H6 u e He).
Qed.
End Popped.

Definition found (p : Path) : Prop :=
  gpath ks g forb start (hops p) end_ (cost p) (rawRTT p).

(** The end node is cut off: a set of nodes that holds the start and not the
    end, and that no edge leaves but to a forbidden node or past the range of
    floats. *)
Definition separated : Prop := ∃ S, start ∈ S ∧ (end_ ∉ S) ∧
  ∀ u e, u ∈ S → e ∈ out_edges g u →
    DestinationIp e ∈ forb ∨ DestinationIp e ∈ S ∨ overflows e.

Lemma drained S cur s : loop_inv S cur s → queued (pq s) = [] → end_ ∈ dom (dist s) → separated.
Proof.
  intros [H1 H2 H3 H4 H5 H6] Hq [d Hd]%elem_of_dom.
  assert (∀ v, known s v → v ∈ S ∨ (v ≠ end_ ∧ cut s)) as Hk.
  { intros v Hv. destruct (H2 v Hv) as [?|[(q & Hin & _)|?]]; [by left| |by right].
    rewrite Hq in Hin. by apply not_elem_of_nil in Hin. }
  assert (d = f_inf) as ->.
  { destruct (decide (d = f_inf)) as [|Hne]; [done|].
    destruct (Hk end_) as [?|[? _]]; [by exists d|done..]. }
  assert (¬ cut s) as Hcut by (unfold cut, getf; by rewrite Hd).
  exists S. split; [by destruct (Hk start H4) as [?|[_ ?]]|]. split; [done|].
  intros u e Hu He. destruct (H5 u e Hu He) as [?|[?|[Hv|?]]]; auto.
  destruct (Hk _ Hv) as [?|[_ ?]]; [auto|done].
Qed.

Lemma NoDup_no_consecutive p : NoDup p → hasConsecutiveDup p = false.
Proof.
  unfold hasConsecutiveDup. induction 1 as [|x p Hx Hp IH]; [done|].
  destruct p as [|y p]; [done|]. simpl in *. rewrite IH, orb_false_r.
  apply bool_decide_eq_false. simpl. intros ->. apply Hx. left.
Qed.

Lemma dist_relax_dom s l u c : dom (dist s) ⊆ dom (dist (foldl (relax ks forb ∅ u c) s l)).
Proof.
  revert s. induction l as [|e l IH]; intros s; [done|]. simpl.
  etransitivity; [|apply IH]. unfold relax.
  destruct (bool_decide _); [done|]. destruct (bool_decide _); [done|].
  destruct (flt _ _); [|done]. simpl. rewrite dom_insert. apply union_subseteq_r.
Qed.

(** Enough fuel: the loop returns a path or shows that the end is cut off. *)
Lemma search_loop_ok fuel S cur s :
  loop_inv S cur s → length (queued (pq s)) + unexpanded S < fuel →
  (∃ p, search_loop ks fuel end_ g forb ∅ s = Some (inl p) ∧ found p) ∨
  (∃ err, search_loop ks fuel end_ g forb ∅ s = Some (inr err) ∧
     (end_ ∈ dom (dist s) → separated)).
Proof.
  revert S cur s. induction fuel as [|fuel IH]; intros S cur s Hinv Hfuel; [lia|]. simpl.
  destruct (heap_Pop (pq s)) as [[x q']|] eqn:Hpop.
  2: { right. eexists. split; [done|]. eapply drained; [done|].
       eapply pq_pop_none, Hinv. done. }
  destruct (decide (queued (pq s) = [])) as [Hnil|Hne].
  { exfalso. revert Hpop. unfold queued in Hnil. apply fmap_nil_inv in Hnil. by rewrite Hnil. }
  destruct (pq_pop_ok (pq s) (i_heap _ _ _ (l_inv _ _ _ Hinv)) Hne)
    as (x1 & q1 & Hpop1 & Hq1 & Hperm & Hmin).
  rewrite Hpop in Hpop1. injection Hpop1 as <- <-.
  assert (length (queued (pq s)) = 1 + length (queued q')) as Hlen
    by by rewrite <-(Permutation_length Hperm).
  destruct (popped_entry _ _ _ _ _ Hinv Hperm) as (Hreach & Hnn & _ & Hcur).
  unfold visit. simpl.
  destruct (flt (getf (dist s) (pq_node x)) (pq_cost x)) eqn:Hstale.
  { apply (IH S cur (set_pq s q')); [|simpl; lia].
    eapply popped_drop; [done..|]. intros Hc. unfold current in Hc.
    rewrite <-Hc, flt_irrefl in Hstale. done. }
  destruct Hcur as [Hcur|]; [|done].
  destruct (bool_decide_reflect (pq_node x = end_)) as [Hx|Hx].
  { left. destruct Hreach as [p Hp]. rewrite Hx in Hp.
    pose proof (tpath_gpath _ _ _ _ Hp) as Hg.
    rewrite (build_path_tpath S s p end_ []); [|done|apply tpath_length in Hp; lia].
    rewrite app_nil_r, NoDup_no_consecutive by (by eapply gpath_ends).
    eexists. split; [done|]. unfold found. simpl. by rewrite Hcur, Hx. }
  destruct (feq (getf (dist s) end_) f_inf) eqn:Hcut; simpl.
  - pose proof (unexpanded_step S (pq_node x) (popped_fresh _ _ _ _ _ Hinv Hperm Hcur)).
    destruct (expand_loop _ _ _ _ _ Hinv Hq1 Hperm Hmin Hcur Hx) as [Hinv' Hlen'].
    destruct (IH _ _ _ Hinv') as [?|(err & Herr & Hsep)]; [unfold set_pq in *; lia|by left|].
    right. exists err. split; [done|]. intros Hend. by apply Hsep, dist_relax_dom.
  - apply (IH S cur (set_pq s q')); [|simpl; lia].
    eapply popped_drop; done.
Qed.
Lemma inf_map_dom : dom (inf_map g) = list_to_set (all_nodes g).
Proof.
  unfold inf_map. induction (all_nodes g) as [|n l IH]; [apply dom_empty_L|].
  simpl. by rewrite dom_insert_L, IH.
Qed.

Lemma inf_map_lookup v d : inf_map g !! v = Some d → d = f_inf.
Proof.
  unfold inf_map. induction (all_nodes g) as [|n l IH]; simpl; [by rewrite lookup_empty|].
  intros [[_ <-]|[_ ?]]%lookup_insert_Some; auto.
Qed.

Lemma all_nodes_dest u e : e ∈ out_edges g u → DestinationIp e ∈ all_nodes g.
Proof.
  unfold out_edges. destruct (g !! u) as [es|] eqn:Hu; simpl; [|by intros ?%not_elem_of_nil].
  intros He. apply elem_of_app. right. apply list_elem_of_join.
  exists (DestinationIp <$> es). split; [by apply list_elem_of_fmap_2|].
  apply list_elem_of_fmap. exists (u, es). split; [done|]. by apply elem_of_map_to_list.
Qed.

Lemma init_pq : pq_ok (pq (search_init start g)) ∧
  queued (pq (search_init start g)) = [{| pq_node := start; pq_cost := f0; pq_rawRTT := f0 |}].
Proof.
  destruct (pq_push_ok [] {| pq_node := start; pq_cost := f0; pq_rawRTT := f0 |}) as [H1 H2];
    [apply pq_ok_nil|done|].
  split; [done|]. by apply Permutation_singleton_r in H2.
Qed.

Lemma init_known v : known (search_init start g) v → v = start.
Proof.
  intros (d & Hd & Hne). simpl in Hd.
  apply lookup_insert_Some in Hd as [[<- _]|[_ Hd]]; [done|]. by apply inf_map_lookup in Hd.
Qed.

Lemma init_start : getf (dist (search_init start g)) start = f0 ∧
  getf (raw (search_init start g)) start = f0.
Proof. simpl. by rewrite getf_insert, decide_True. Qed.

Lemma search_init_inv : loop_inv ∅ f0 (search_init start g).
Proof.
  destruct init_pq as [Hpq Hq]. destruct init_start as [Hd Hr]. split.
  - split; [done|..].
    + intros q. rewrite Hq. intros ->%list_elem_of_singleton.
      split; [exists [start]; by constructor|]. split; [done|]. split; [done|]. by left.
    + intros u ?%elem_of_empty. done.
    + intros v. unfold count_current. rewrite Hq.
      rewrite decide_False by apply not_elem_of_empty. apply (length_filter _ [_]).
  - intros v ->%init_known. right. left. eexists. rewrite Hq.
    split; [left|]. by split.
  - apply not_elem_of_empty.
  - exists f0. split; [simpl; apply lookup_insert_eq|done].
  - intros u e ?%elem_of_empty. done.
  - intros u e He. simpl. rewrite dom_insert, inf_map_dom, elem_of_union, elem_of_list_to_set.
    right. by eapply all_nodes_dest.
Qed.

Lemma unexpanded_empty : unexpanded ∅ = edge_count g.
Proof.
  unfold unexpanded. f_equal. apply map_filter_id. intros i es _. apply not_elem_of_empty.
Qed.

Lemma unknown_end_separated : end_ ∉ dom (dist (search_init start g)) → separated.
Proof.
  simpl. rewrite dom_insert, inf_map_dom. intros Hend.
  exists ({[start]} ∪ list_to_set (all_nodes g)).
  split; [by apply elem_of_union_l, elem_of_singleton|]. split; [done|].
  intros u e _ He. right. left. apply elem_of_union_r, elem_of_list_to_set.
  by eapply all_nodes_dest.
Qed.

Lemma findShortestPath_cases :
  (∃ p, findShortestPath ks start end_ g forb ∅ = Some (inl p) ∧ found p) ∨
  (∃ err, findShortestPath ks start end_ g forb ∅ = Some (inr err) ∧ separated).
Proof.
  unfold findShortestPath.
  destruct (search_loop_ok (edge_count g + 2) ∅ f0 (search_init start g))
    as [?|(err & Herr & Hsep)]; [apply search_init_inv| |by left|].
  { rewrite (proj2 init_pq), unexpanded_empty. simpl. lia. }
  right. exists err. split; [done|].
  destruct (decide (end_ ∈ dom (dist (search_init start g)))); [auto|].
  by apply unknown_end_separated.
Qed.

(** No path is so long that its cost overflows to infinity. *)
Definition finite_costs : Prop :=
  ∀ p v c r, gpath ks g forb start p v c r → flt c f_inf = true.

Lemma separated_no_path p c r : finite_costs → separated → ¬ gpath ks g forb start p end_ c r.
Proof.
  intros Hfin (S & Hs & He & Hclosed) Hp.
  assert (∀ p v c r, gpath ks g forb start p v c r → v ∈ S) as Hin; [|by eapply He, Hin].
  clear p c r Hp. intros p v c r.
  induction 1 as [|p u c r e Hp IH Hedge Hnp Hf]; [done|].
  destruct (Hclosed u e IH Hedge) as [?|[?|(p' & u' & c' & r' & Hp' & He' & Hn' & Hf' & Hover)]];
    [done..|].
  rewrite (Hfin _ _ _ _ (gpath_snoc _ _ _ _ _ _ _ _ _ Hp' He' Hn' Hf')) in Hover. done.
Qed.
End Search.

(** ** The theorems *)

(** C8: on a graph with non-negative edge costs [findShortestPath] always
    ends.  A path it returns is a simple path of the graph from the start to the end that
    avoids the forbidden nodes, and its cost and RTT are the sums over its
    edges; an error means the end node is cut off from the start. *)
Theorem findShortestPath_correct ks g forb start end_ :
  search_ok ks g → start ≠ "" →
  ∃ r, findShortestPath ks start end_ g forb ∅ = Some r ∧
    match r with
    | inl p => gpath ks g forb start (hops p) end_ (cost p) (rawRTT p)
    | inr _ => separated ks g forb start end_
    end.
Proof.
  intros Hok Hs. destruct (findShortestPath_cases ks g forb start end_ Hok Hs)
    as [(p & Hp & Hf)|(err & He & Hsep)]; eexists; split; done.
Qed.

(** When no path's cost overflows, [findShortestPath] finds a path exactly
    when the graph has one that avoids the forbidden nodes. *)
Theorem findShortestPath_complete ks g forb start end_ :
  search_ok ks g → start ≠ "" → finite_costs ks g forb start →
  (∃ p, findShortestPath ks start end_ g forb ∅ = Some (inl p)) ↔
  (∃ hs c r, gpath ks g forb start hs end_ c r).
Proof.
  intros Hok Hs Hfin. destruct (findShortestPath_cases ks g forb start end_ Hok Hs)
    as [(p & Hp & Hf)|(err & He & Hsep)]; rewrite ?Hp, ?He.
  - split; intros _; [|by eexists]. exists (hops p), (cost p), (rawRTT p). done.
  - split; [by intros [? ?]|]. intros (hs & c & r & Hp).
    by apply separated_no_path in Hp.
Qed.

(** The detour costs 2, the direct link 10. *)
Definition detour_graph : adjacency :=
  {[ "a" := [mk_edge "a" "d" 10 10; mk_edge "a" "b" 1 1]; "b" := [mk_edge "b" "d" 1 1] ]}.

(** The path returned is not always a shortest one: the search stops
    relaxing edges as soon as the end node has any distance, so on
    [detour_graph] it returns the direct link of cost 10 although a path of
    cost 2 exists. *)
Theorem findShortestPath_not_shortest :
  let ks := NewKShortestSolver [] 3 in
  ∃ p, findShortestPath ks "a" "d" detour_graph ∅ ∅ = Some (inl p) ∧
    hops p = ["a"; "d"] ∧
    ∃ c r, gpath ks detour_graph ∅ "a" ["a"; "b"; "d"] "d" c r ∧ flt c (cost p) = true.
Proof.
  intros ks. eexists. split; [vm_compute; reflexivity|]. split; [done|].
  do 2 eexists. split.
  - eapply (gpath_snoc ks detour_graph ∅ "a" ["a"; "b"] "b" _ _ (mk_edge "b" "d" 1 1)).
    + eapply (gpath_snoc ks detour_graph ∅ "a" ["a"] "a" _ _ (mk_edge "a" "b" 1 1)).
      * constructor.
      * change (mk_edge "a" "b" 1 1 ∈ [mk_edge "a" "d" 10 10; mk_edge "a" "b" 1 1]).
        right. left.
      * by apply (bool_decide_unpack _).
      * by apply (bool_decide_unpack _).
    + change (mk_edge "b" "d" 1 1 ∈ [mk_edge "b" "d" 1 1]). left.
    + by apply (bool_decide_unpack _).
    + by apply (bool_decide_unpack _).
  - vm_compute. reflexivity.
Qed.
