(* ===== verification/KYen.v ===== *)
(** * Correctness of Yen's loop

    [yensAlgorithm] of [k-shortest.go]: the loop ends, the paths it returns are
    distinct simple paths of the graph in order of cost, at most [k] of them,
    and when it returns fewer than [k] it returns every simple path there is. *)
From S2P Require Import Prelude Float64 GoHeap GoStrings Records KShortest KSearch.

#[local] Arguments spur : simpl never.
#[local] Arguments spurs : simpl never.

(** ** Helpers of the solver *)
Lemma hasDup_go_spec seen hops :
  hasDup_go seen hops = false ↔ NoDup hops ∧ ∀ x, x ∈ hops → x ∉ seen.
Proof.
  revert seen. induction hops as [|h hops IH]; intros seen; simpl.
  { split; [|done]. intros _. split; [constructor|]. by intros x ?%not_elem_of_nil. }
  rewrite NoDup_cons. destruct (bool_decide_reflect (h ∈ seen)) as [Hs|Hs].
  { split; [done|]. intros [_ H0]. by destruct (H0 h ltac:(left)). }
  rewrite IH. setoid_rewrite not_elem_of_union. setoid_rewrite not_elem_of_singleton. split.
  - intros [H1 H2]. split.
    + split; [|done]. intros Hin. by destruct (H2 h Hin).
    + intros x [->|Hx]%elem_of_cons; [done|]. by destruct (H2 x Hx).
  - intros [[H1 H2] H3]. split; [done|]. intros x Hx. split; [by intros ->|].
    apply H3. by right.
Qed.

(** The duplicate test decides [NoDup]. *)
Lemma hasDuplicateNodes_spec hops : hasDuplicateNodes hops = false ↔ NoDup hops.
Proof.
  unfold hasDuplicateNodes. rewrite hasDup_go_spec. split; [tauto|]. intros H. split; [done|].
  intros x _. apply not_elem_of_empty.
Qed.

Lemma removeConsecutiveDuplicates_id hops :
  NoDup hops → removeConsecutiveDuplicates hops = hops.
Proof.
  destruct hops as [|x hops]; [done|]. simpl. intros H. f_equal.
  revert x H. induction hops as [|y hops IH]; intros x Hx; [done|]. simpl.
  apply NoDup_cons in Hx as [Hx Hy]. rewrite bool_decide_eq_true_2.
  - by rewrite IH.
  - intros ->. apply Hx. left.
Qed.

Lemma pathsSharePrefix_spec p root :
  length root ≤ length p → pathsSharePrefix p root = true ↔ take (length root) p = root.
Proof.
  intros Hl. unfold pathsSharePrefix. rewrite bool_decide_eq_false_2 by lia.
  revert p Hl. induction root as [|x root IH]; intros [|y p] Hl; simpl in *; try lia; [done..|].
  rewrite andb_true_iff, bool_decide_eq_true, IH by lia. simpl.
  split; [by intros [-> ->]|]. by intros [= -> ->].
Qed.

Lemma remove_used_spec A j root es e :
  length root = j + 1 →
  e ∈ remove_used A j root es ↔ e ∈ es ∧ ∀ p, p ∈ A → take (j + 1) (hops p) = root →
    hops p !! (j + 1) ≠ Some (DestinationIp e).
Proof.
  intros Hroot. unfold remove_used. revert es. induction A as [|a A IH]; intros es; simpl.
  { split; [|tauto]. intros He. split; [done|]. by intros p ?%not_elem_of_nil. }
  rewrite IH. clear IH.
  assert (e ∈ (if bool_decide (j < length (hops a)) && pathsSharePrefix (hops a) root
    then match hops a !! (j + 1) with
         | Some target => filter (λ e0, DestinationIp e0 ≠ target) es
         | None => es end else es) ↔
    e ∈ es ∧ (take (j + 1) (hops a) = root → hops a !! (j + 1) ≠ Some (DestinationIp e))) as ->.
  { destruct (bool_decide_reflect (j < length (hops a))) as [Hj|Hj]; simpl.
    - destruct (pathsSharePrefix (hops a) root) eqn:Hp.
      + apply pathsSharePrefix_spec in Hp; [|lia]. rewrite Hroot in Hp.
        destruct (hops a !! (j + 1)) as [t|]; [rewrite list_elem_of_filter|]; intuition congruence.
      + assert (take (j + 1) (hops a) ≠ root); [|tauto].
        rewrite <-Hroot, <-(pathsSharePrefix_spec (hops a) root) by lia. congruence.
    - rewrite lookup_ge_None_2 by lia. intuition congruence. }
  setoid_rewrite elem_of_cons. split.
  - intros [[H1 H2] H3]. split; [done|]. intros p [->|Hp]; auto.
  - intros [H1 H2]. auto.
Qed.

Lemma isPathInList_spec p l : isPathInList p l = true ↔
  Join (hops p) "->" ∈ (λ q, Join (hops q) "->") <$> l.
Proof.
  unfold isPathInList. rewrite existsb_exists, list_elem_of_fmap.
  setoid_rewrite bool_decide_eq_true. setoid_rewrite list_elem_of_In.
  split; intros (x & H1 & H2); by exists x.
Qed.

Lemma isPathInQueue_spec p q : isPathInQueue p q = true ↔
  Join (hops p) "->" ∈ pq_node <$> queued q.
Proof.
  unfold isPathInQueue, queued. rewrite existsb_exists, <-list_fmap_compose, list_elem_of_fmap.
  setoid_rewrite bool_decide_eq_true. setoid_rewrite list_elem_of_In.
  split; intros (x & H1 & H2); by exists x.
Qed.

Lemma head_app_cons {T} (r : list T) x t t' : head (r ++ x :: t) = head (r ++ x :: t').
Proof. by destruct r. Qed.

(** ** Routes: simple paths between two nodes *)
Definition route (g : adjacency) (start end_ : string) (p : list string) : Prop :=
  head p = Some start ∧ last p = Some end_ ∧ NoDup p ∧ linked g p.

Definition sub_graph (g' g : adjacency) : Prop := ∀ u e, e ∈ out_edges g' u → e ∈ out_edges g u.

Lemma linked_sub g' g p : sub_graph g' g → linked g' p → linked g p.
Proof. intros Hs Hl i x y Hx Hy. destruct (Hl i x y Hx Hy) as (e & He & <-). eauto. Qed.

Lemma gpath_sub ks g' g forb start p v c r :
  sub_graph g' g → gpath ks g' forb start p v c r → gpath ks g ∅ start p v c r.
Proof.
  intros Hs. induction 1 as [|p u c r e Hp IH He Hnp Hf]; [constructor|].
  apply (gpath_snoc ks g ∅ start p u c r e); auto. apply not_elem_of_empty.
Qed.

Lemma search_ok_sub ks g' g : sub_graph g' g → search_ok ks g → search_ok ks g'.
Proof. intros Hs [H1 H2]. split; eauto. Qed.

Lemma linked_app_l g p q : linked g (p ++ q) → linked g p.
Proof.
  intros Hl i x y Hx Hy. apply (Hl i); by apply lookup_app_l_Some.
Qed.

Lemma linked_app_r g p q : linked g (p ++ q) → linked g q.
Proof.
  intros Hl i x y Hx Hy. apply (Hl (length p + i)).
  - rewrite lookup_app_r by lia. by replace (length p + i - length p) with i by lia.
  - rewrite lookup_app_r by lia. by replace (S (length p + i) - length p) with (S i) by lia.
Qed.

Lemma linked_snoc g p u v : linked g (p ++ [u]) → (∃ e, e ∈ out_edges g u ∧ DestinationIp e = v) →
  linked g (p ++ [u] ++ [v]).
Proof.
  intros Hl Hv i x y Hx Hy. rewrite app_assoc in Hx, Hy.
  destruct (decide (S i < length (p ++ [u]))) as [Hi|Hi].
  { rewrite lookup_app_l in Hx, Hy by lia. eauto. }
  assert (Hb := lookup_lt_Some _ _ _ Hy). rewrite !length_app in Hb.
  rewrite length_app in Hi. simpl in Hb, Hi.
  assert (i = length p) as -> by lia.
  rewrite list_lookup_middle in Hy by (rewrite length_app; simpl; lia).
  rewrite <-app_assoc in Hx. simpl in Hx. rewrite list_lookup_middle in Hx by done. by simplify_eq.
Qed.

(** Gluing at the shared node [u]. *)
Lemma linked_glue g p u q : linked g (p ++ [u]) → linked g (u :: q) → linked g (p ++ u :: q).
Proof.
  revert p u. induction q as [|v q IH]; intros p u Hp Hq; [done|].
  replace (p ++ u :: v :: q) with ((p ++ [u]) ++ v :: q) by (by rewrite <-app_assoc).
  apply IH.
  - rewrite <-app_assoc. apply linked_snoc; [done|]. by apply (Hq 0).
  - by apply (linked_app_r g [u]).
Qed.

(** A route that avoids the forbidden nodes is a path the search can find. *)
Lemma route_gpath ks g forb start p v :
  head p = Some start → last p = Some v → NoDup p → linked g p →
  (∀ x, x ∈ tail p → x ∉ forb) → ∃ c r, gpath ks g forb start p v c r.
Proof.
  revert v. induction p as [|y p IH] using rev_ind; intros v Hh Hl Hnd Hlk Hf; [done|].
  rewrite last_snoc in Hl. simplify_eq.
  destruct (last p) as [u|] eqn:Hu.
  2: { apply last_None in Hu as ->. simpl in Hh. simplify_eq. do 2 eexists. constructor. }
  assert (∃ x p', p = x :: p') as (x & p' & ->) by (destruct p; [done|eauto]).
  apply NoDup_app in Hnd as (Hnd & Hdis & _).
  destruct (IH u) as (c & r & Hg); [done..|by eapply linked_app_l| |].
  { intros z Hz. apply Hf. simpl in *. apply elem_of_app. by left. }
  rewrite last_lookup in Hu.
  destruct (Hlk (pred (length (x :: p'))) u v) as (e & He & <-).
  { by apply lookup_app_l_Some. }
  { apply list_lookup_middle. simpl. lia. }
  do 2 eexists. apply (gpath_snoc ks g forb start (x :: p') u c r e); try done.
  - intros Hin. by eapply Hdis, list_elem_of_singleton.
  - apply Hf. simpl. apply elem_of_app. right. by apply list_elem_of_singleton.
Qed.

Lemma gpath_route ks g forb start p v c r : gpath ks g forb start p v c r → route g start v p.
Proof.
  intros Hg. destruct (gpath_ends _ _ _ _ _ _ _ _ Hg) as (H1 & H2 & H3).
  split; [done|]. split; [done|]. split; [done|]. by eapply gpath_linked.
Qed.

Lemma sum_edges_nonneg f p g :
  (∀ u e, e ∈ out_edges g u → f_nonneg (f e) = true) → f_nonneg (sum_edges f p g) = true.
Proof.
  intros Hf. unfold sum_edges.
  assert (f_nonneg f0 = true) as H0 by done. revert H0. generalize f0 as acc.
  induction (zip p (tail p)) as [|[u v] l IH]; intros acc Hacc; [done|]. simpl.
  destruct (first_edge g u v) as [e|] eqn:He; [|by apply IH].
  apply IH, fadd_nonneg_closed; [done|]. apply find_some in He as [He _].
  eapply Hf, list_elem_of_In, He.
Qed.

(** The latencies of the edges are non-negative numbers. *)
Definition lat_ok (g : adjacency) : Prop :=
  ∀ u e, e ∈ out_edges g u → f_nonneg (Latency e) = true.

Lemma gpath_rtt_nonneg ks g forb start p v c r :
  lat_ok g → gpath ks g forb start p v c r → f_nonneg r = true.
Proof.
  intros Hok. induction 1 as [|p u c r e Hp IH He Hnp Hf]; [done|].
  apply fadd_nonneg_closed; [done|]. by eapply Hok.
Qed.

(** ** The invariant of the outer loop *)
Section Yen.
Context (ks : KShortestSolver) (g : adjacency) (start end_ : string).
Hypothesis Hok : search_ok ks g.
Hypothesis Hstart : start ≠ "".
(** No node name contains the separator ["->"]. *)
Hypothesis Hname : arrow_free start = true.
Hypothesis Hnames : ∀ u e, e ∈ out_edges g u → arrow_free (DestinationIp e) = true.

Implicit Types (A : list Path) (B : PriorityQueue).

Record yen_inv A B : Prop := {
  y_heap : pq_ok B;
  y_A p : p ∈ A → route g start end_ (hops p) ∧ f_nonneg (cost p) = true;
  y_A_nodup : NoDup (hops <$> A);
  y_B q : q ∈ queued B → ∃ hs, pq_node q = Join hs "->" ∧ route g start end_ hs ∧
    f_nonneg (pq_cost q) = true ∧ (hs ∉ hops <$> A);
  y_B_nodup : NoDup (pq_node <$> queued B);
  y_A_rtt p : lat_ok g → p ∈ A → f_nonneg (rawRTT p) = true;
  y_B_rtt q : lat_ok g → q ∈ queued B → f_nonneg (pq_rawRTT q) = true;
}.

Lemma route_node p x : route g start end_ p → x ∈ p → x ≠ "" ∧ arrow_free x = true.
Proof.
  intros (Hh & _ & _ & Hl) [[|i] Hx]%list_elem_of_lookup.
  - rewrite head_lookup in Hh. simplify_eq. done.
  - destruct (lookup_lt_is_Some_2 p i) as [u Hu]; [apply lookup_lt_Some in Hx; lia|].
    destruct (Hl i u x Hu Hx) as (e & He & <-). split; [by eapply so_name|eauto].
Qed.

Lemma route_names p : route g start end_ p → p ≠ [] ∧ Forall (λ s, arrow_free s = true) p.
Proof.
  intros Hr. split; [by destruct Hr as (Hh & _); intros ->|].
  apply Forall_forall. intros x Hx. by eapply route_node.
Qed.

Lemma route_key p q : route g start end_ p → route g start end_ q →
  Join p "->" = Join q "->" → p = q.
Proof. intros [? ?]%route_names [? ?]%route_names. by apply Join_arrow_inj. Qed.

Lemma spur_split (prevHops : list string) j : j < length prevHops - 1 → ∃ root u nxt rest,
  prevHops = root ++ u :: nxt :: rest ∧ j = length root.
Proof.
  intros Hj.
  destruct (lookup_lt_is_Some_2 prevHops j) as [x Hx]; [lia|].
  destruct (lookup_lt_is_Some_2 prevHops (S j)) as [y Hy]; [lia|].
  apply list_elem_of_split_length in Hx as (l1 & l2 & -> & ->).
  exists l1, x. rewrite lookup_app_r in Hy by lia.
  replace (S (length l1) - length l1) with 1 in Hy by lia.
  destruct l2 as [|y' l2]; [done|]. eauto.
Qed.

(** *** One spur: the root path is [root ++ [u]] *)
Section Spur.
Context A B (root : list string) (u nxt : string) (rest : list string).
Local Abbreviation prevHops := (root ++ u :: nxt :: rest).
Local Abbreviation rootPath := (root ++ [u]).
Hypothesis Hinv : yen_inv A B.
Hypothesis Hprev : route g start end_ prevHops.

Definition spur_edges : list Edge :=
  remove_used A (length root) rootPath
    (filter (λ e, isInPath (DestinationIp e) rootPath = false) (out_edges g u)).

Definition spur_graph : adjacency := <[u := spur_edges]> g.

Lemma spur_edge : ∃ es, g !! u = Some es.
Proof.
  destruct Hprev as (_ & _ & _ & Hl).
  destruct (Hl (length root) u nxt) as (e & He & _).
  - by apply list_lookup_middle.
  - rewrite lookup_app_r by lia.
    by replace (S (length root) - length root) with 1 by lia.
  - unfold out_edges in He. destruct (g !! u); [eauto|]. by apply not_elem_of_nil in He.
Qed.

Lemma spur_edges_spec e : e ∈ spur_edges ↔
  e ∈ out_edges g u ∧ (DestinationIp e ∉ rootPath) ∧
  ∀ p, p ∈ A → take (length root + 1) (hops p) = rootPath →
    hops p !! (length root + 1) ≠ Some (DestinationIp e).
Proof.
  unfold spur_edges. rewrite remove_used_spec by (rewrite length_app; done).
  rewrite list_elem_of_filter. unfold isInPath. rewrite bool_decide_eq_false. tauto.
Qed.

Lemma out_edges_spur v : out_edges spur_graph v = if decide (u = v) then spur_edges else out_edges g v.
Proof. unfold out_edges, spur_graph. rewrite lookup_insert. by case_decide. Qed.

Lemma spur_sub : sub_graph spur_graph g.
Proof.
  intros v e. rewrite out_edges_spur. case_decide as Hv; [|done].
  rewrite spur_edges_spec. rewrite <-Hv. tauto.
Qed.

Lemma spur_restore es : g !! u = Some es → <[u := es]> spur_graph = g.
Proof. intros Hes. unfold spur_graph. rewrite insert_insert_eq. by apply insert_id. Qed.

Lemma spur_nodup : NoDup root ∧ (u ∉ root) ∧ (end_ ∉ rootPath).
Proof.
  destruct Hprev as (_ & Hl & Hnd & _).
  apply NoDup_app in Hnd as (H1 & H2 & H3). apply NoDup_cons in H3 as [H3 _].
  split; [done|]. split; [intros Hu; eapply H2; [done|left]|].
  assert (end_ ∈ nxt :: rest) as Hin.
  { rewrite last_app in Hl. change (last (u :: nxt :: rest)) with (last (nxt :: rest)) in Hl.
    destruct (last (nxt :: rest)) eqn:E; [|by apply last_None in E].
    simplify_eq. by apply last_Some_elem_of. }
  rewrite elem_of_app, list_elem_of_singleton. intros [He| ->]; [|done].
  eapply H2; [done|]. by right.
Qed.

Lemma spur_root : head (root ++ [u]) = Some start ∧ linked g (root ++ [u]).
Proof.
  destruct Hprev as (Hh & _ & _ & Hl). split.
  - by rewrite (head_app_cons _ _ _ (nxt :: rest)).
  - apply (linked_app_l g _ (nxt :: rest)). by rewrite <-app_assoc.
Qed.

(** A spur path found by the search gives a complete path. *)
Section Found.
Context (sp : Path).
Hypothesis Hsp : gpath ks spur_graph (list_to_set root) u (hops sp) end_ (cost sp) (rawRTT sp).

Lemma spur_hops : ∃ y t, hops sp = u :: y :: t.
Proof.
  destruct (gpath_ends _ _ _ _ _ _ _ _ Hsp) as (Hh & Hl & _).
  destruct (hops sp) as [|x [|y t]]; simplify_eq/=; [|eauto].
  exfalso. apply (proj2 (proj2 spur_nodup)).
  apply elem_of_app. right. by apply list_elem_of_singleton.
Qed.

Lemma merged_route : route g start end_ (root ++ hops sp).
Proof.
  destruct (gpath_route _ _ _ _ _ _ _ _ Hsp) as (_ & Hl & Hnd & Hlk).
  destruct spur_hops as (y & t & Hh). destruct spur_root as [Hr1 Hr2].
  destruct spur_nodup as (N1 & N2 & _).
  split; [rewrite Hh; by rewrite (head_app_cons _ _ _ [])|].
  split; [by rewrite last_app, Hl|]. split.
  - apply NoDup_app. split; [done|]. split; [|done]. intros x Hx Hx'.
    destruct (gpath_avoids _ _ _ _ _ _ _ _ x Hsp Hx') as [->|Hf]; [done|].
    apply Hf. by apply elem_of_list_to_set.
  - rewrite Hh in *. apply linked_glue; [done|]. by apply (linked_sub spur_graph g _ spur_sub).
Qed.

Lemma merged_fresh : root ++ hops sp ∉ hops <$> A.
Proof.
  destruct spur_hops as (y & t & Hh). rewrite Hh. intros (p & Hp & HpA)%list_elem_of_fmap.
  destruct (gpath_route _ _ _ _ _ _ _ _ Hsp) as (_ & _ & _ & Hlk).
  rewrite Hh in Hlk. destruct (Hlk 0 u y) as (e & He & Hy); [done..|].
  rewrite out_edges_spur, decide_True in He by done.
  apply spur_edges_spec in He as (_ & _ & He). apply (He p HpA); rewrite <-Hp.
  - replace (root ++ u :: y :: t) with (rootPath ++ y :: t)
      by (by rewrite <-app_assoc).
    replace (length root + 1) with (length rootPath) by (by rewrite length_app).
    by rewrite take_app_length.
  - rewrite lookup_app_r by lia. replace (length root + 1 - length root) with 1 by lia.
    by rewrite Hy.
Qed.

Lemma merged_cost :
  f_nonneg (fadd (calculatePathCost ks rootPath spur_graph) (cost sp)) = true.
Proof.
  apply fadd_nonneg_closed.
  - apply sum_edges_nonneg. intros v e He. eapply so_cost; [done|]. by apply spur_sub.
  - assert (∀ p v c r, gpath ks spur_graph (list_to_set root) u p v c r → f_nonneg c = true) as Hc;
      [|by eapply Hc].
    induction 1 as [|p v c r e Hp IH He Hnp Hf]; [done|].
    apply fadd_nonneg_closed; [done|]. eapply so_cost; [done|]. by apply spur_sub.
Qed.

Lemma merged_rtt : lat_ok g →
  f_nonneg (fadd (calculatePathRTT rootPath spur_graph) (rawRTT sp)) = true.
Proof.
  intros Hlat. apply fadd_nonneg_closed.
  - apply sum_edges_nonneg. intros v e He. eapply Hlat. by apply spur_sub.
  - eapply gpath_rtt_nonneg; [|exact Hsp]. intros v e He. eapply Hlat. by apply spur_sub.
Qed.
End Found.

Lemma key_fresh_list p : route g start end_ (hops p) → hops p ∉ hops <$> A →
  isPathInList p A = false.
Proof.
  intros Hr Hf. apply not_true_iff_false. rewrite isPathInList_spec.
  intros (q & Hq & HqA)%list_elem_of_fmap. apply Hf. apply list_elem_of_fmap. exists q.
  split; [|done]. apply route_key; [done| |done]. by apply Hinv.
Qed.

Lemma push_inv p : route g start end_ (hops p) → hops p ∉ hops <$> A →
  f_nonneg (cost p) = true → (lat_ok g → f_nonneg (rawRTT p) = true) →
  isPathInQueue p B = false →
  let B' := heap_Push B {| pq_node := Join (hops p) "->"; pq_cost := cost p; pq_rawRTT := rawRTT p |} in
  yen_inv A B' ∧ queued B' ≠ [].
Proof.
  intros Hr Hf Hc Hl Hq. destruct Hinv as [H1 H2 H3 H4 H5 H6 H7].
  destruct (pq_push_ok B {| pq_node := Join (hops p) "->"; pq_cost := cost p;
    pq_rawRTT := rawRTT p |}) as [P1 P2]; [done|by apply f_nonneg_num|].
  split; [split; try done|].
  - intros q. rewrite P2. intros [->|Hq']%elem_of_cons; [|by apply H4]. by exists (hops p).
  - rewrite P2. apply NoDup_cons. split; [|done].
    apply not_true_iff_false in Hq. by rewrite isPathInQueue_spec in Hq.
  - intros q Hlat. rewrite P2. intros [->|Hq']%elem_of_cons; [by apply Hl|by apply H7].
  - intros Hn. simpl in P2. rewrite Hn in P2. by apply Permutation_nil_cons in P2.
Qed.

Lemma spur_ok : ∃ B', spur ks end_ A prevHops (length root) (g, B) = Some (g, B') ∧
  yen_inv A B' ∧ (queued B ≠ [] → queued B' ≠ []) ∧
  ((∃ sp, findShortestPath ks u end_ spur_graph (list_to_set root) ∅ = Some (inl sp)) →
   queued B' ≠ []).
Proof.
  destruct spur_edge as [es Hes]. destruct spur_nodup as (N1 & N2 & N3).
  unfold spur. rewrite list_lookup_middle by done. simpl.
  replace (take (length root + 1) prevHops) with rootPath.
  2: { replace prevHops with (rootPath ++ nxt :: rest) by (by rewrite <-app_assoc).
       replace (length root + 1) with (length rootPath) by (by rewrite length_app).
       by rewrite take_app_length. }
  rewrite Hes, removelast_last.
  assert (<[u := remove_used A (length root) rootPath
    (filter (λ e, isInPath (DestinationIp e) rootPath = false) es)]> g = spur_graph) as ->.
  { unfold spur_graph, spur_edges, out_edges. by rewrite Hes. }
  rewrite spur_restore by done.
  rewrite bool_decide_eq_false_2.
  2: { intros <-. apply N3. apply elem_of_app. right. by apply list_elem_of_singleton. }
  unfold isInPath. rewrite bool_decide_eq_false_2 by done.
  destruct (findShortestPath_cases ks spur_graph (list_to_set root) u end_)
    as [(sp & Hsp & Hg)|(err & Herr & _)].
  { by apply (search_ok_sub ks spur_graph g spur_sub). }
  { apply (route_node prevHops u Hprev). apply elem_of_app. right. left. }
  2: { rewrite Herr. exists B. split; [done|]. split; [done|]. split; [done|]. by intros [? ?]. }
  pose proof (merged_route sp Hg) as Hmr. pose proof (proj1 (proj2 (proj2 Hmr))) as Hnd.
  rewrite Hsp. rewrite (proj2 (hasDuplicateNodes_spec _)) by (by eapply gpath_ends).
  rewrite removeConsecutiveDuplicates_id by done. simpl.
  rewrite (proj2 (hasDuplicateNodes_spec _)) by done.
  match goal with |- context [isPathInList ?p A] => set (cp := p) end.
  rewrite key_fresh_list by (done || by apply merged_fresh). simpl.
  destruct (isPathInQueue cp B) eqn:Hq.
  - exists B. split; [done|]. split; [done|]. split; [done|]. intros _ Hn.
    apply isPathInQueue_spec in Hq. rewrite Hn in Hq. by apply not_elem_of_nil in Hq.
  - destruct (push_inv cp) as [P1 P2]; [done|by apply merged_fresh|by apply merged_cost
      |by apply merged_rtt|done|].
    eexists. split; [done|]. split; [exact P1|]. done.
Qed.
End Spur.

(** *** A round of spurs *)
Definition candidate A (root : list string) (u : string) : Prop :=
  ∃ sp, findShortestPath ks u end_ (spur_graph A root u) (list_to_set root) ∅ = Some (inl sp).

Lemma spurs_go A sites B :
  (∀ site, site ∈ sites → route g start end_ site.1 ∧ site.2 < length site.1 - 1) →
  yen_inv A B →
  ∃ B', foldl (λ acc site, st ← acc; spur ks end_ A site.1 site.2 st) (Some (g, B)) sites
          = Some (g, B') ∧
    yen_inv A B' ∧ (queued B ≠ [] → queued B' ≠ []) ∧
    (∀ root u nxt rest, (root ++ u :: nxt :: rest, length root) ∈ sites →
       candidate A root u → queued B' ≠ []).
Proof.
  revert B. induction sites as [|[hs j] sites IH]; intros B Hs Hinv.
  { exists B. split; [done|]. split; [done|]. split; [done|].
    by intros root u nxt rest ?%not_elem_of_nil. }
  destruct (Hs (hs, j)) as [Hr Hj]; [left|]. simpl in Hr, Hj.
  destruct (spur_split hs j Hj) as (root & u & nxt & rest & -> & ->).
  destruct (spur_ok A B root u nxt rest Hinv Hr) as (B1 & E1 & I1 & M1 & C1).
  destruct (IH B1) as (B2 & E2 & I2 & M2 & C2); [intros; apply Hs; by right|done|].
  exists B2. simpl. rewrite E1, E2. split; [done|]. split; [done|]. split; [auto|].
  intros root' u' nxt' rest' [Heq|Hin]%elem_of_cons Hc; [|by eapply C2].
  apply M2, C1. injection Heq as Heq Hlen. by apply app_inj_1 in Heq as [-> [= -> _ _]].
Qed.

Lemma spur_sites_elem A hs j :
  (hs, j) ∈ spur_sites A ↔ hs ∈ hops <$> A ∧ j < length hs - 1.
Proof.
  unfold spur_sites. rewrite list_elem_of_join. setoid_rewrite list_elem_of_fmap. split.
  - intros (l & Hl & p & -> & Hp). apply list_elem_of_fmap in Hl as (i & [= -> ->] & Hi).
    apply elem_of_seq in Hi. split; [eauto|lia].
  - intros [(p & -> & Hp) Hj]. exists ((λ j, (hops p, j)) <$> seq 0 (length (hops p) - 1)).
    split; [|eauto]. apply list_elem_of_fmap. exists j. split; [done|]. apply elem_of_seq. lia.
Qed.

Lemma spurs_ok A B : yen_inv A B →
  ∃ B', spurs ks end_ A (g, B) = Some (g, B') ∧ yen_inv A B' ∧
    (∀ root u nxt rest, root ++ u :: nxt :: rest ∈ hops <$> A →
       candidate A root u → queued B' ≠ []).
Proof.
  intros Hinv. destruct (spurs_go A (spur_sites A) B) as (B' & E & I & _ & C).
  - intros [hs j] Hin. apply spur_sites_elem in Hin as [(p & -> & Hp)%list_elem_of_fmap Hj].
    split; [by apply Hinv|done].
  - done.
  - exists B'. split; [done|]. split; [done|]. intros root u nxt rest Hin. apply (C _ _ nxt rest).
    apply spur_sites_elem. split; [done|]. rewrite length_app. simpl. lia.
Qed.

(** Taking the cheapest candidate. *)
Lemma take_candidate A B : yen_inv A B →
  match heap_Pop B with
  | None => queued B = []
  | Some (x, B') =>
      let p := {| hops := removeConsecutiveDuplicates (Split (pq_node x) "->");
                  cost := pq_cost x; rawRTT := pq_rawRTT x |} in
      isPathInList p A = false ∧ yen_inv (A ++ [p]) B'
  end.
Proof.
  intros Hinv. destruct (heap_Pop B) as [[x B']|] eqn:Hpop.
  2: { eapply pq_pop_none; [done|]. by apply Hinv. }
  pose proof Hinv as [H1 H2 H3 H4 H5 H6 H7].
  destruct (decide (queued B = [])) as [Hnil|Hne].
  { exfalso. apply fmap_nil_inv in Hnil. by rewrite Hnil in Hpop. }
  destruct (pq_pop_ok B H1 Hne) as (x1 & B1 & Hpop1 & Hok1 & Hperm & _).
  rewrite Hpop in Hpop1. injection Hpop1 as <- <-.
  destruct (H4 x) as (hs & Hkey & Hr & Hc & Hf); [rewrite <-Hperm; left|].
  destruct (route_names hs Hr) as [Hne' Hfree].
  rewrite Hkey, Split_Join_arrow, removeConsecutiveDuplicates_id by (done || apply Hr).
  split; [by apply (key_fresh_list A B)|]. rewrite <-Hperm in H5. apply NoDup_cons in H5 as [K1 K2].
  split; [done| | | |done| |].
  - intros p [Hp| ->%list_elem_of_singleton]%elem_of_app; [by apply H2|done].
  - rewrite fmap_app. apply NoDup_app. split; [done|]. split; [|apply NoDup_singleton].
    intros y Hy ->%list_elem_of_singleton. done.
  - intros q Hq. destruct (H4 q) as (hs' & Hk' & Hr' & Hc' & Hf'); [rewrite <-Hperm; by right|].
    exists hs'. split; [done|]. split; [done|]. split; [done|].
    rewrite fmap_app, elem_of_app. intros [?|Heq%list_elem_of_singleton]; [done|].
    simpl in Heq. subst hs'. apply K1. rewrite Hkey, <-Hk'. by apply list_elem_of_fmap_2.
  - intros p Hlat [Hp| ->%list_elem_of_singleton]%elem_of_app; [by apply H6|].
    apply H7; [done|]. rewrite <-Hperm. left.
  - intros q Hlat Hq. apply H7; [done|]. rewrite <-Hperm. by right.
Qed.

(** *** The outer loop: with [k - length A] rounds left it ends *)
Lemma yen_loop_ok fuel A B :
  yen_inv A B → Z.to_nat (k ks) ≤ length A + fuel →
  ∃ A' B', yen_loop ks (S fuel) end_ A (g, B) = Some A' ∧ yen_inv A' B' ∧ (∃ l, A' = A ++ l) ∧
    length A' ≤ length A `max` Z.to_nat (k ks) ∧
    ((Z.of_nat (length A') < k ks)%Z → ∀ root u nxt rest,
       root ++ u :: nxt :: rest ∈ hops <$> A' → ¬ candidate A' root u).
Proof.
  revert A B. induction fuel as [|fuel IH]; intros A B Hinv Hfuel; cbn [yen_loop].
  all: destruct (bool_decide_reflect (Z.of_nat (length A) < k ks)%Z) as [Hk|Hk]; try lia.
  1, 3: exists A, B; split; [done|]; split; [done|]; split; [by exists []; rewrite app_nil_r|];
        split; [lia|]; intros ?; lia.
  destruct (spurs_ok A B Hinv) as (B1 & E1 & I1 & C1). rewrite E1. cbn [mbind option_bind].
  pose proof (take_candidate A B1 I1) as Ht. destruct (heap_Pop B1) as [[x B2]|].
  - destruct Ht as [Hl Hinv']. rewrite Hl.
    destruct (IH _ B2 Hinv') as (A' & B' & E' & I' & [l ->] & L' & C'); [rewrite length_app; simpl; lia|].
    exists ((A ++ [{| hops := removeConsecutiveDuplicates (Split (pq_node x) "->");
      cost := pq_cost x; rawRTT := pq_rawRTT x |}]) ++ l), B'.
    split; [done|]. split; [done|]. split; [rewrite <-app_assoc; eauto|]. split; [|done].
    rewrite (length_app A) in L'. simpl in L'. lia.
  - exists A, B1. split; [done|]. split; [done|]. split; [by exists []; rewrite app_nil_r|].
    split; [lia|]. intros _ root u nxt rest Hin Hcand. by eapply C1.
Qed.

(** *** A missing route leaves a candidate *)
Lemma longest_prefix (hss : list (list string)) P n :
  n ≤ length P → (∃ hs, hs ∈ hss ∧ take n hs = take n P) →
  (∀ hs, hs ∈ hss → take (length P) hs ≠ P) →
  ∃ m hs, n ≤ m ∧ m < length P ∧ hs ∈ hss ∧ take m hs = take m P ∧
    ∀ hs', hs' ∈ hss → take (S m) hs' ≠ take (S m) P.
Proof.
  intros Hn Hex Hall. remember (length P - n) as d eqn:Hd.
  revert n Hn Hex Hd. induction d as [|d IH]; intros n Hn (hs & Hin & Htake) Hd.
  { exfalso. apply (Hall hs Hin). replace (length P) with n by lia.
    rewrite Htake. apply take_ge. lia. }
  destruct (decide (Exists (λ hs', take (S n) hs' = take (S n) P) hss)) as [He|He].
  - apply Exists_exists in He as (hs' & Hin' & Heq).
    destruct (IH (S n)) as (m & hs'' & ? & ?); [lia|eauto|lia|]. exists m, hs''. split; [lia|done].
  - exists n, hs. split; [done|]. split; [lia|]. split; [done|]. split; [done|].
    intros hs' Hin' Heq. apply He, Exists_exists. eauto.
Qed.

Lemma route_prefix p q : route g start end_ p → route g start end_ q → take (length p) q = p → q = p.
Proof.
  intros (_ & Hl & _ & _) (_ & Hlq & Hnd & _) Hp.
  rewrite <-(take_drop (length p) q) in Hlq, Hnd |- *. rewrite Hp in *.
  destruct (drop (length p) q) as [|x l] using rev_ind; [by rewrite app_nil_r|].
  exfalso. rewrite app_assoc, last_snoc in Hlq. simplify_eq.
  apply last_snoc_inv in Hl as [p' ->]. apply NoDup_app in Hnd as (_ & Hnd & _).
  apply (Hnd end_); apply elem_of_app; right; by apply list_elem_of_singleton.
Qed.

Hypothesis Hfin : ∀ v, finite_costs ks g ∅ v.

Lemma spur_tail_linked A root u t :
  NoDup (root ++ u :: t) → linked g (root ++ u :: t) →
  (∀ p, p ∈ A → take (S (S (length root))) (hops p) ≠ take (S (S (length root))) (root ++ u :: t)) →
  linked (spur_graph A root u) (u :: t).
Proof.
  intros Hnd Hl HA i x y Hx Hy.
  destruct (linked_app_r g root _ Hl i x y Hx Hy) as (e & He & Hd). exists e. split; [|done].
  rewrite out_edges_spur. apply NoDup_app in Hnd as (_ & Hdis & Hnd).
  destruct i as [|i].
  2: { rewrite decide_False; [done|]. intros <-. simpl in Hx. apply NoDup_cons in Hnd as [Hnd _].
       apply Hnd. by eapply list_elem_of_lookup_2. }
  simpl in Hx. injection Hx as <-. rewrite decide_True by done.
  destruct t as [|y' t]; [done|]. simpl in Hy. injection Hy as ->.
  apply spur_edges_spec. split; [done|]. split.
  - rewrite Hd, elem_of_app, list_elem_of_singleton. intros [Hr| ->].
    + by eapply Hdis; [|right; left].
    + apply NoDup_cons in Hnd as [Hnd _]. apply Hnd. left.
  - rewrite Hd. intros p HpA Hp Hnext. apply (HA p HpA).
    rewrite Nat.add_1_r in Hp, Hnext. rewrite (take_S_r _ _ _ Hnext), Hp.
    rewrite take_app_ge by lia. replace (S (S (length root)) - length root) with 2 by lia. simpl.
    by rewrite <-app_assoc.
Qed.

Lemma missing_candidate A B P :
  yen_inv A B → A ≠ [] → route g start end_ P → P ∉ hops <$> A →
  ∃ root u nxt rest, root ++ u :: nxt :: rest ∈ hops <$> A ∧ candidate A root u.
Proof.
  intros Hinv Hne HP Hnot.
  assert (∀ hs, hs ∈ hops <$> A → route g start end_ hs) as HA.
  { intros hs (p & -> & Hp)%list_elem_of_fmap. by apply Hinv. }
  destruct (longest_prefix (hops <$> A) P 1) as (m & hs & Hm1 & Hm2 & Hin & Heq & Hmax).
  { destruct HP as (Hh & _). destruct P; [done|simpl; lia]. }
  { destruct A as [|a A]; [done|]. exists (hops a). split; [left|].
    destruct (HA (hops a)) as (Hh & _); [left|]. destruct HP as (Hh' & _).
    destruct (hops a), P; by simplify_eq/=. }
  { intros hs Hin Hp. apply Hnot. by rewrite <-(route_prefix P hs HP (HA _ Hin) Hp). }
  destruct m as [|j]; [lia|].
  assert (j < length P - 1) as HjP by lia.
  destruct (spur_split P j HjP) as (root & u & y & t & -> & ->).
  replace (take (S (length root)) (root ++ u :: y :: t)) with (root ++ [u]) in Heq.
  2: { rewrite take_app_ge by lia. by replace (S (length root) - length root) with 1 by lia. }
  pose proof HP as (_ & Hlast & Hnd & Hlk).
  assert (∃ nxt rest, hs = root ++ u :: nxt :: rest) as (nxt & rest & ->).
  { rewrite <-(take_drop (S (length root)) hs), Heq.
    destruct (drop (S (length root)) hs) as [|nxt rest] eqn:Hdrop.
    - exfalso. rewrite <-(take_drop (S (length root)) hs), Hdrop, app_nil_r, Heq in Hin.
      assert (root ++ u :: y :: t = root ++ [u]) as E.
      { apply route_prefix; [by apply HA|done|]. rewrite length_app. simpl.
        rewrite take_app_ge by lia. by replace (length root + 1 - length root) with 1 by lia. }
      by apply app_inv_head in E.
    - exists nxt, rest. by rewrite <-app_assoc. }
  exists root, u, nxt, rest. split; [done|].
  assert (linked (spur_graph A root u) (u :: y :: t)) as Hsl.
  { apply spur_tail_linked; [done..|]. intros p HpA. apply Hmax. by apply list_elem_of_fmap_2. }
  assert (last (u :: y :: t) = Some end_) as Hl'.
  { rewrite last_app in Hlast. by destruct (last (u :: y :: t)) eqn:E; [|apply last_None in E]. }
  apply NoDup_app in Hnd as (_ & Hdis & Hnd').
  destruct (route_gpath ks (spur_graph A root u) (list_to_set root) u (u :: y :: t) end_)
    as (c & r & Hg); [done..| |].
  { intros x Hx Hf. apply elem_of_list_to_set in Hf. by eapply Hdis; [|right]. }
  pose proof (spur_sub A root u) as Hsub.
  destruct (findShortestPath_cases ks (spur_graph A root u) (list_to_set root) u end_)
    as [(sp & Hsp & _)|(err & _ & Hsep)].
  - by apply (search_ok_sub ks _ g Hsub).
  - apply (route_node _ u HP). apply elem_of_app. right. left.
  - by exists sp.
  - exfalso. eapply separated_no_path; [|done..].
    intros p v c' r' Hp. eapply (Hfin u). by eapply gpath_sub.
Qed.
End Yen.

(** ** The theorems *)

(** What the solver needs of the network: non-negative costs and node names
    that are not empty and do not contain the separator. *)
Record network_ok (ks : KShortestSolver) (g : adjacency) (start : string) : Prop := {
  n_search : search_ok ks g;
  n_start : start ≠ "";
  n_start_name : arrow_free start = true;
  n_names u e : e ∈ out_edges g u → arrow_free (DestinationIp e) = true;
}.

Definition path_num (p : Path) : Prop := is_num (cost p) = true.

#[export] Instance path_less_weak : WeakOrder path_num path_less.
Proof. apply (weak_order_on cost (λ x, is_num x = true) flt). Qed.

Lemma dedup_path_id p : NoDup (hops p) → dedup_path p = p.
Proof.
  intros Hp. unfold dedup_path. rewrite removeConsecutiveDuplicates_id by done. by destruct p.
Qed.

Lemma gpath_cost_nonneg ks g forb start p v c r :
  search_ok ks g → gpath ks g forb start p v c r → f_nonneg c = true.
Proof.
  intros Hok. induction 1 as [|p u c r e Hp IH He Hnp Hf]; [done|].
  apply fadd_nonneg_closed; [done|]. by eapply so_cost.
Qed.

Lemma yen_init ks g start end_ p :
  search_ok ks g → gpath ks g ∅ start (hops p) end_ (cost p) (rawRTT p) →
  yen_inv g start end_ [p] [].
Proof.
  intros Hok Hg. split.
  - apply pq_ok_nil.
  - intros q ->%list_elem_of_singleton. split; [by eapply gpath_route|].
    by eapply gpath_cost_nonneg.
  - apply NoDup_singleton.
  - by intros q ?%not_elem_of_nil.
  - constructor.
  - intros q Hlat ->%list_elem_of_singleton. by eapply gpath_rtt_nonneg.
  - by intros q _ ?%not_elem_of_nil.
Qed.

Lemma final_sort g start end_ A B : yen_inv g start end_ A B →
  dedup_path <$> exchange_sort path_less A = exchange_sort path_less A.
Proof.
  intros Hinv. rewrite <-(list_fmap_id (exchange_sort path_less A)) at 2.
  apply list_fmap_ext. intros i p Hp%list_elem_of_lookup_2.
  rewrite exchange_sort_perm in Hp. apply dedup_path_id. by apply Hinv.
Qed.

(** The run of [yensAlgorithm] in terms of the invariant. *)
Lemma yens_run ks g start end_ : network_ok ks g start → (1 ≤ k ks)%Z →
  (∃ err, yensAlgorithm ks start end_ g = Some (inr err) ∧ separated ks g ∅ start end_) ∨
  (∃ A B, yensAlgorithm ks start end_ g = Some (inl (exchange_sort path_less A)) ∧
     yen_inv g start end_ A B ∧ A ≠ [] ∧ length A ≤ Z.to_nat (k ks) ∧
     ((Z.of_nat (length A) < k ks)%Z → ∀ root u nxt rest,
        root ++ u :: nxt :: rest ∈ hops <$> A → ¬ candidate ks g end_ A root u)).
Proof.
  intros [Hs Hst Hn Hns] Hk. unfold yensAlgorithm.
  destruct (findShortestPath_cases ks g ∅ start end_ Hs Hst)
    as [(p & Hp & Hg)|(err & He & Hsep)]; [right|left; rewrite He; eauto].
  rewrite Hp, dedup_path_id by (by eapply gpath_ends).
  destruct (yen_loop_ok ks g start end_ Hs Hst Hn Hns (Z.to_nat (k ks)) [p] [])
    as (A & B & -> & Hinv & [l ->] & Hlen & Hc); [by eapply yen_init|lia|].
  exists ([p] ++ l), B. cbn [mbind option_bind].
  rewrite (final_sort g start end_ _ B) by done. split; [done|]. split; [done|]. split; [done|].
  split; [|done]. simpl in *. lia.
Qed.

(** C3: on a graph with non-negative costs [yensAlgorithm] always ends.  It
    returns at least one and at most [k] paths, in order of cost, pairwise
    distinct, each a simple path of the graph from the start to the end; or an
    error, when the end is cut off from the start. *)
Theorem yensAlgorithm_correct ks g start end_ :
  network_ok ks g start → (1 ≤ k ks)%Z →
  ∃ r, yensAlgorithm ks start end_ g = Some r ∧
    match r with
    | inl ps =>
        ps ≠ [] ∧ length ps ≤ Z.to_nat (k ks) ∧ NoDup (hops <$> ps) ∧
        Forall (λ p, route g start end_ (hops p)) ps ∧ sorted_by path_less ps
    | inr _ => separated ks g ∅ start end_
    end.
Proof.
  intros Hnet Hk.
  destruct (yens_run ks g start end_ Hnet Hk) as [(err & -> & Hsep)|(A & B & -> & Hinv & Hne & Hlen & _)];
    eexists; (split; [done|]); [done|].
  pose proof (exchange_sort_perm path_less A) as Hperm.
  split; [intros E; rewrite E in Hperm; by apply Permutation_nil in Hperm|].
  split; [by rewrite exchange_sort_length|]. split; [rewrite Hperm; by apply Hinv|]. split.
  - rewrite Hperm. apply Forall_forall. intros p Hp. by apply Hinv.
  - apply exchange_sort_sorted with (P := path_num); [apply _|].
    apply Forall_forall. intros p Hp. by apply f_nonneg_num, Hinv.
Qed.

(** C7: when [yensAlgorithm] returns fewer than [k] paths it has found them
    all: every simple path of the graph from the start to the end is in the
    result (as long as no path's cost overflows). *)
Theorem yensAlgorithm_exhaustive ks g start end_ ps P :
  network_ok ks g start → (1 ≤ k ks)%Z → (∀ v, finite_costs ks g ∅ v) →
  yensAlgorithm ks start end_ g = Some (inl ps) → (Z.of_nat (length ps) < k ks)%Z →
  route g start end_ P → P ∈ hops <$> ps.
Proof.
  intros Hnet Hk Hfin Hps Hlen HP.
  destruct (yens_run ks g start end_ Hnet Hk) as [(err & E & _)|(A & B & E & Hinv & Hne & _ & Hc)];
    rewrite Hps in E; simplify_eq.
  rewrite exchange_sort_length in Hlen. rewrite exchange_sort_perm.
  destruct (decide (P ∈ hops <$> A)) as [|Hnot]; [done|]. exfalso.
  destruct Hnet as [Hs Hst Hn Hns].
  destruct (missing_candidate ks g start end_ Hs Hst Hn Hns Hfin A B P)
    as (root & u & nxt & rest & Hin & Hcand); [done..|]. by eapply Hc.
Qed.

(** ** The solver's entry point *)
Lemma build_graph_spec edges u :
  out_edges (build_graph edges) u = filter (λ e, SourceIp e = u) edges.
Proof.
  unfold build_graph.
  assert (∀ g, out_edges (foldl (λ g e, <[SourceIp e := out_edges g (SourceIp e) ++ [e]]> g) g edges) u
    = out_edges g u ++ filter (λ e, SourceIp e = u) edges) as Hgo; [|by rewrite Hgo].
  induction edges as [|e edges IH]; intros g; simpl; [by rewrite app_nil_r|].
  rewrite IH, filter_cons. unfold out_edges at 1. rewrite lookup_insert.
  destruct (decide (SourceIp e = u)) as [->|]; simpl; [by rewrite <-app_assoc|done].
Qed.

Lemma build_nodes_spec edges v :
  v ∈ build_nodes edges ↔ ∃ e, e ∈ edges ∧ (v = SourceIp e ∨ v = DestinationIp e).
Proof.
  unfold build_nodes.
  assert (∀ s : gset string, v ∈ foldl (λ s e, {[DestinationIp e]} ∪ ({[SourceIp e]} ∪ s)) s edges ↔
    v ∈ s ∨ ∃ e, e ∈ edges ∧ (v = SourceIp e ∨ v = DestinationIp e)) as Hgo.
  { induction edges as [|e edges IH]; intros s; simpl.
    - split; [by left|]. intros [?|(e & ?%not_elem_of_nil & _)]; done.
    - rewrite IH, !elem_of_union, !elem_of_singleton. setoid_rewrite elem_of_cons. split.
      + intros [[?|[?|?]]|(e' & ? & ?)]; [right; exists e; auto..|auto|].
        right. exists e'. auto.
      + intros [?|(e' & [->|?] & Hv)]; [auto|destruct Hv; auto|]. right. exists e'. auto. }
  rewrite Hgo. split; [intros [?%elem_of_empty|]; done|auto].
Qed.

(** The edges the solver is given: non-negative costs, names without the
    separator. *)
Definition good_name (s : string) : bool := negb (bool_decide (s = "")) && arrow_free s.

Definition edges_ok (ks : KShortestSolver) : bool :=
  forallb (λ e, f_nonneg (edge_cost ks e) && good_name (SourceIp e) && good_name (DestinationIp e))
    (ks_edges ks).

Lemma edges_ok_elem ks e : edges_ok ks = true → e ∈ ks_edges ks →
  f_nonneg (edge_cost ks e) = true ∧
  (SourceIp e ≠ "" ∧ arrow_free (SourceIp e) = true) ∧
  (DestinationIp e ≠ "" ∧ arrow_free (DestinationIp e) = true).
Proof.
  unfold edges_ok. rewrite forallb_forall. setoid_rewrite <-list_elem_of_In.
  intros H He. specialize (H e He). unfold good_name in H.
  rewrite !andb_true_iff, !negb_true_iff, !bool_decide_eq_false in H. tauto.
Qed.

Lemma edges_ok_network ks start : edges_ok ks = true → start ∈ build_nodes (ks_edges ks) →
  network_ok ks (build_graph (ks_edges ks)) start.
Proof.
  intros Hok (e & He & Hs)%build_nodes_spec.
  assert (∀ u e', e' ∈ out_edges (build_graph (ks_edges ks)) u → e' ∈ ks_edges ks) as Hin.
  { intros u e'. rewrite build_graph_spec. by intros [_ ?]%list_elem_of_filter. }
  destruct (edges_ok_elem ks e Hok He) as (_ & [S1 S2] & [D1 D2]).
  split.
  - split; intros u e' He'%Hin; by apply (edges_ok_elem ks e' Hok).
  - by destruct Hs as [-> | ->].
  - by destruct Hs as [-> | ->].
  - intros u e' He'%Hin. by apply (edges_ok_elem ks e' Hok).
Qed.

Definition path_info (p : Path) : PathInfo := {| Hops := hops p; Rtt := cost p; RawRTT := f0 |}.

(** The run of [Computing] in terms of the invariant. *)
Lemma Computing_run ks start end_ : edges_ok ks = true → (1 ≤ k ks)%Z →
  (∃ err, Computing ks start end_ = Some (inr err) ∧
     ((start ∉ build_nodes (ks_edges ks)) ∨ (end_ ∉ build_nodes (ks_edges ks)) ∨
      separated ks (build_graph (ks_edges ks)) ∅ start end_)) ∨
  (∃ A B, Computing ks start end_ = Some (inl (path_info <$> exchange_sort path_less A)) ∧
     yen_inv (build_graph (ks_edges ks)) start end_ A B ∧ A ≠ [] ∧ length A ≤ Z.to_nat (k ks)).
Proof.
  intros Hok Hk. unfold Computing.
  destruct (bool_decide_reflect (start ∈ build_nodes (ks_edges ks))) as [Hs|Hs]; simpl; [|by left; eauto].
  destruct (bool_decide_reflect (end_ ∈ build_nodes (ks_edges ks))) as [He|He]; simpl; [|by left; eauto].
  destruct (yens_run ks (build_graph (ks_edges ks)) start end_) as
    [(err & -> & Hsep)|(A & B & -> & Hinv & Hne & Hlen & _)];
    [by apply edges_ok_network|done|left; by eauto|right; by exists A, B].
Qed.

Lemma Computing_total ks start end_ : edges_ok ks = true → (1 ≤ k ks)%Z →
  is_Some (Computing ks start end_).
Proof.
  intros Hok Hk. destruct (Computing_run ks start end_ Hok Hk) as [(err & -> & _)|(A & B & -> & _)]; done.
Qed.

Definition info_less (p q : PathInfo) : bool := flt (Rtt p) (Rtt q).

(** A simple path over the solver's edges. *)
Definition edge_route (ks : KShortestSolver) (start end_ : string) (hs : list string) : Prop :=
  head hs = Some start ∧ last hs = Some end_ ∧ NoDup hs ∧
  ∀ i x y, hs !! i = Some x → hs !! S i = Some y →
    ∃ e, e ∈ ks_edges ks ∧ SourceIp e = x ∧ DestinationIp e = y.

Lemma route_edge_route ks start end_ hs :
  route (build_graph (ks_edges ks)) start end_ hs → edge_route ks start end_ hs.
Proof.
  intros (H1 & H2 & H3 & H4). split; [done|]. split; [done|]. split; [done|].
  intros i x y Hx Hy. destruct (H4 i x y Hx Hy) as (e & He & Hd).
  rewrite build_graph_spec in He. apply list_elem_of_filter in He as [Hs He]. eauto.
Qed.

Lemma yen_inv_infos ks start end_ A B :
  yen_inv (build_graph (ks_edges ks)) start end_ A B →
  let infos := path_info <$> exchange_sort path_less A in
  NoDup (Hops <$> infos) ∧ Forall (λ i, edge_route ks start end_ (Hops i)) infos.
Proof.
  intros Hinv. pose proof (exchange_sort_perm path_less A) as Hperm.
  split; [rewrite <-list_fmap_compose; rewrite Hperm; by apply Hinv|].
  apply Forall_fmap. rewrite Hperm. apply Forall_forall. intros p Hp.
  by apply route_edge_route, Hinv.
Qed.

(** The K-shortest solver as the router calls it.  On edges with
    non-negative costs it always answers: with one to [k] distinct simple
    paths over the given edges from the start to the end, in order of cost;
    or with an error, exactly because a node is not on any edge or the end is
    cut off from the start. *)
Theorem Computing_correct ks start end_ :
  edges_ok ks = true → (1 ≤ k ks)%Z →
  ∃ r, Computing ks start end_ = Some r ∧
    match r with
    | inl infos =>
        infos ≠ [] ∧ length infos ≤ Z.to_nat (k ks) ∧ NoDup (Hops <$> infos) ∧
        Forall (λ i, edge_route ks start end_ (Hops i)) infos ∧ sorted_by info_less infos
    | inr _ =>
        (start ∉ build_nodes (ks_edges ks)) ∨ (end_ ∉ build_nodes (ks_edges ks)) ∨
        separated ks (build_graph (ks_edges ks)) ∅ start end_
    end.
Proof.
  intros Hok Hk. destruct (Computing_run ks start end_ Hok Hk) as
    [(err & E & Hr)|(A & B & E & Hinv & Hne & Hlen)]; (eexists; split; [exact E|]); [done|].
  pose proof (exchange_sort_perm path_less A) as Hperm.
  destruct (yen_inv_infos ks start end_ A B Hinv) as [Hnd Hroutes].
  split; [intros E'; apply fmap_nil_inv in E'; rewrite E' in Hperm; by apply Permutation_nil in Hperm|].
  split; [by rewrite length_fmap, exchange_sort_length|]. split; [done|]. split; [done|].
  apply sorted_by_fmap with (less1 := path_less); [done|].
  apply exchange_sort_sorted with (P := path_num); [apply _|].
  apply Forall_forall. intros p Hp. by apply f_nonneg_num, Hinv.
Qed.

(** ** Instances of the theorems *)
Definition diamond : KShortestSolver :=
  NewKShortestSolver
    [mk_edge "a" "b" 1 1; mk_edge "b" "d" 1 1; mk_edge "a" "c" 1 1; mk_edge "c" "d" 1 1] 3.

Definition diamond_graph : adjacency := build_graph (ks_edges diamond).

Lemma diamond_edges_ok : edges_ok diamond = true.
Proof. vm_compute. reflexivity. Qed.

Lemma diamond_network : network_ok diamond diamond_graph "a".
Proof. apply edges_ok_network; [apply diamond_edges_ok|]. by apply (bool_decide_unpack _). Qed.

Lemma diamond_cost forb start p v c r : gpath diamond diamond_graph forb start p v c r →
  c = f0 ∨ ((v = "b" ∨ v = "c") ∧ c = f1) ∨ (v = "d" ∧ (c = f1 ∨ c = f_of_Z 2)).
Proof.
  induction 1 as [|p u c r e Hp IH He Hnp Hf]; [by left|].
  unfold diamond_graph in He. rewrite build_graph_spec in He.
  apply list_elem_of_filter in He as [Hs He]. simpl in He.
  rewrite !elem_of_cons, elem_of_nil in He.
  destruct He as [->|[->|[->|[->|[]]]]]; simpl in Hs; subst u;
    destruct IH as [->|[[[?|?] ->]|[? [->| ->]]]]; try discriminate; simpl; auto 6.
Qed.

Lemma diamond_finite forb start : finite_costs diamond diamond_graph forb start.
Proof.
  intros p v c r Hp. destruct (diamond_cost _ _ _ _ _ _ Hp) as [->|[[_ ->]|[_ [->| ->]]]]; reflexivity.
Qed.

Lemma findShortestPath_correct_witness :
  gpath diamond diamond_graph {[ "b" ]} "a" ["a"; "c"; "d"] "d" (f_of_Z 2) (f_of_Z 2).
Proof.
  destruct (findShortestPath_correct diamond diamond_graph {[ "b" ]} "a" "d")
    as (r & Hr & Hspec); [apply diamond_network|discriminate|].
  vm_compute in Hr. injection Hr as <-. exact Hspec.
Defined.

Lemma findShortestPath_complete_witness :
  ¬ ∃ hs c r, gpath diamond diamond_graph {[ "b"; "c" ]} "a" hs "d" c r.
Proof.
  rewrite <-(findShortestPath_complete diamond diamond_graph {[ "b"; "c" ]} "a" "d").
  - intros [p Hp]. vm_compute in Hp. discriminate.
  - apply diamond_network.
  - discriminate.
  - apply diamond_finite.
Defined.

Lemma yensAlgorithm_correct_witness : ∃ ps,
  yensAlgorithm diamond "a" "d" diamond_graph = Some (inl ps) ∧ length ps = 2 ∧
  NoDup (hops <$> ps) ∧ sorted_by path_less ps.
Proof.
  destruct (yensAlgorithm_correct diamond diamond_graph "a" "d") as (r & Hr & Hspec);
    [apply diamond_network|discriminate|].
  destruct r as [ps|err]; [|vm_compute in Hr; discriminate].
  exists ps. split; [exact Hr|]. destruct Hspec as (_ & _ & Hnd & _ & Hsort).
  split; [|exact (conj Hnd Hsort)].
  vm_compute in Hr. injection Hr as <-. reflexivity.
Defined.

Lemma diamond_route : route diamond_graph "a" "d" ["a"; "c"; "d"].
Proof.
  split; [done|]. split; [done|]. split; [by apply (bool_decide_unpack _)|].
  intros i x y Hx Hy. unfold diamond_graph. setoid_rewrite build_graph_spec.
  setoid_rewrite list_elem_of_filter. cbn [ks_edges diamond NewKShortestSolver NewKShortestSolverWithLatency].
  destruct i as [|[|i]]; simpl in Hx, Hy; [..|done]; injection Hx as <-; injection Hy as <-.
  - exists (mk_edge "a" "c" 1 1). rewrite !elem_of_cons. auto 8.
  - exists (mk_edge "c" "d" 1 1). rewrite !elem_of_cons. auto 8.
Qed.

Lemma yensAlgorithm_exhaustive_witness : ∃ ps,
  yensAlgorithm diamond "a" "d" diamond_graph = Some (inl ps) ∧ ["a"; "c"; "d"] ∈ hops <$> ps.
Proof.
  eexists. split; [vm_compute; reflexivity|].
  apply (yensAlgorithm_exhaustive diamond diamond_graph "a" "d").
  - apply diamond_network.
  - discriminate.
  - intros v. apply diamond_finite.
  - vm_compute. reflexivity.
  - reflexivity.
  - apply diamond_route.
Defined.

Lemma Computing_correct_witness : ∃ infos,
  Computing diamond "a" "d" = Some (inl infos) ∧ NoDup (Hops <$> infos) ∧
  Forall (λ i, edge_route diamond "a" "d" (Hops i)) infos.
Proof.
  destruct (Computing_correct diamond "a" "d") as (r & Hr & Hspec);
    [apply diamond_edges_ok|discriminate|].
  destruct r as [infos|err]; [|vm_compute in Hr; discriminate].
  exists infos. split; [exact Hr|]. destruct Hspec as (_ & _ & Hnd & Hroute & _).
  exact (conj Hnd Hroute).
Defined.
