(* ===== verification/LiveNet.v ===== *)
(** * The LiveNet-style solver

    [control-plane/routing/core-domain/livenet.go]: five candidates of Yen's
    algorithm, of which the [k] with the lowest real latency are kept. *)
From S2P Require Import Prelude Float64 GoHeap GoStrings Records KShortest KSearch KYen.

Record LiveStyleSolver := {
  ls_edges : list Edge;
  ls_k : Z;
}.

Definition NewLiveStyleSolver (edges : list Edge) (k : Z) : LiveStyleSolver :=
  {| ls_edges := edges; ls_k := if bool_decide (k ≤ 0)%Z then 2 else k |}.

Definition rtt_less (p q : Path) : bool := flt (rawRTT p) (rawRTT q).

(** [len(path.hops)-1 <= 10] on Go's signed integers. *)
Definition few_hops (p : Path) : Prop := (Z.of_nat (length (hops p)) - 1 ≤ 10)%Z.

#[export] Instance few_hops_dec p : Decision (few_hops p).
Proof. unfold few_hops. apply _. Defined.

(** [count] is the solver's [k], which the constructor keeps positive. *)
Definition selectTopPaths (paths : list Path) (count : Z) : list Path :=
  let validPaths := exchange_sort rtt_less (filter few_hops paths) in
  if bool_decide (count < Z.of_nat (length validPaths))%Z
  then take (Z.to_nat count) validPaths
  else validPaths.

Definition Computing (ls : LiveStyleSolver) (start end_ : string) : option (list PathInfo + string) :=
  let graph_ := build_graph (ls_edges ls) in
  let nodes := build_nodes (ls_edges ls) in
  if negb (bool_decide (start ∈ nodes)) then Some (inr "start node not found")
  else if negb (bool_decide (end_ ∈ nodes)) then Some (inr "end node not found")
  else
    match yensAlgorithm (NewKShortestSolver (ls_edges ls) 5) start end_ graph_ with
    | None => None
    | Some (inr err) => Some (inr err)
    | Some (inl paths) =>
        Some (inl ((λ p, {| Hops := hops p; Rtt := cost p; RawRTT := rawRTT p |})
                     <$> selectTopPaths paths (ls_k ls)))
    end.

(** ** What is selected *)
Definition path_rtt_num (p : Path) : Prop := is_num (rawRTT p) = true.

#[export] Instance rtt_less_weak : WeakOrder path_rtt_num rtt_less.
Proof. exact (weak_order_on rawRTT _ _). Qed.

Lemma selectTopPaths_take paths count : (0 ≤ count)%Z →
  selectTopPaths paths count = take (Z.to_nat count) (exchange_sort rtt_less (filter few_hops paths)).
Proof.
  intros Hc. unfold selectTopPaths. case_bool_decide as H; [done|].
  rewrite take_ge; [done|]. lia.
Qed.

Lemma selectTopPaths_sub paths count : (0 ≤ count)%Z →
  ∃ rest, selectTopPaths paths count ++ rest ≡ₚ filter few_hops paths.
Proof.
  intros Hc. rewrite selectTopPaths_take by done. eexists. rewrite take_drop.
  apply exchange_sort_perm.
Qed.

(** The selected paths have at most ten hops and are in order of latency, and
    no path that was left out is faster than one that was kept. *)
Lemma selectTopPaths_spec paths count :
  (0 ≤ count)%Z → Forall path_rtt_num paths →
  let sel := selectTopPaths paths count in
  length sel ≤ Z.to_nat count ∧ sorted_by rtt_less sel ∧
  (∀ p, p ∈ sel → p ∈ paths ∧ few_hops p) ∧
  (∀ p, p ∈ paths → few_hops p → p ∈ sel ∨
     length sel = Z.to_nat count ∧ ∀ q, q ∈ sel → rtt_less p q = false).
Proof.
  intros Hc Hnum sel. unfold sel. rewrite selectTopPaths_take by done.
  set (l := filter few_hops paths). pose proof (exchange_sort_perm rtt_less l) as Hperm.
  assert (sorted_by rtt_less (exchange_sort rtt_less l)) as Hsort.
  { apply exchange_sort_sorted with (P := path_rtt_num); [apply _|].
    apply Forall_forall. intros p [_ Hp]%list_elem_of_filter. by eapply Forall_forall in Hnum. }
  rewrite <-(take_drop (Z.to_nat count) (exchange_sort rtt_less l)) in Hperm, Hsort.
  apply sorted_by_app in Hsort as (S1 & _ & S3).
  split; [rewrite length_take; lia|]. split; [done|]. split.
  - intros p Hp. assert (p ∈ l) as [? ?]%list_elem_of_filter; [|done].
    rewrite <-Hperm. apply elem_of_app. by left.
  - intros p Hp Hf. assert (p ∈ l) as Hl by (by apply list_elem_of_filter).
    rewrite <-Hperm in Hl. apply elem_of_app in Hl as [Hl|Hl]; [by left|right].
    split; [|intros q Hq; by apply S3]. rewrite length_take.
    apply list_elem_of_lookup in Hl as [i Hi]. apply lookup_lt_Some in Hi.
    rewrite length_drop in Hi. lia.
Qed.

(** ** The entry point *)
Definition rtt_info_less (p q : PathInfo) : bool := flt (RawRTT p) (RawRTT q).

Definition lats_ok (edges : list Edge) : bool := forallb (λ e, f_nonneg (Latency e)) edges.

Lemma lats_ok_graph edges : lats_ok edges = true → lat_ok (build_graph edges).
Proof.
  unfold lats_ok. rewrite forallb_forall. setoid_rewrite <-list_elem_of_In.
  intros H u e. rewrite build_graph_spec. intros [_ He]%list_elem_of_filter. by apply H.
Qed.

(** What the solver relies on: the candidates it hands to [selectTopPaths]. *)
Lemma live_candidates edges start end_ :
  let ks := NewKShortestSolver edges 5 in
  edges_ok ks = true → lats_ok edges = true → start ∈ build_nodes edges →
  (∃ err, yensAlgorithm ks start end_ (build_graph edges) = Some (inr err) ∧
     separated ks (build_graph edges) ∅ start end_) ∨
  ∃ ps, yensAlgorithm ks start end_ (build_graph edges) = Some (inl ps) ∧
    Forall path_rtt_num ps ∧ NoDup (hops <$> ps) ∧
    Forall (λ p, edge_route ks start end_ (hops p)) ps.
Proof.
  intros ks Hok Hlat Hs.
  destruct (yens_run ks (build_graph edges) start end_) as
    [(err & E & Hsep)|(A & B & E & Hinv & _)]; [by apply edges_ok_network|done|by left; eauto|right].
  exists (exchange_sort path_less A). split; [done|]. rewrite !exchange_sort_perm.
  split; [|split; [by apply Hinv|]]; apply Forall_forall; intros p Hp.
  - apply f_nonneg_num. eapply y_A_rtt; [done|by apply lats_ok_graph|done].
  - by apply (route_edge_route ks), Hinv.
Qed.

Definition live_info (p : Path) : PathInfo :=
  {| Hops := hops p; Rtt := cost p; RawRTT := rawRTT p |}.

(** The run of [Computing] in terms of the candidates. *)
Lemma live_run edges k0 start end_ :
  let ls := NewLiveStyleSolver edges k0 in
  let ks := NewKShortestSolver edges 5 in
  edges_ok ks = true → lats_ok edges = true →
  (∃ err, Computing ls start end_ = Some (inr err) ∧
     ((start ∉ build_nodes edges) ∨ (end_ ∉ build_nodes edges) ∨
      separated ks (build_graph edges) ∅ start end_)) ∨
  ∃ ps, Computing ls start end_ = Some (inl (live_info <$> selectTopPaths ps (ls_k ls))) ∧
    yensAlgorithm ks start end_ (build_graph edges) = Some (inl ps) ∧
    Forall path_rtt_num ps ∧ NoDup (hops <$> ps) ∧
    Forall (λ p, edge_route ks start end_ (hops p)) ps.
Proof.
  intros ls ks Hok Hlat. unfold Computing. cbn [ls_edges ls NewLiveStyleSolver].
  destruct (bool_decide_reflect (start ∈ build_nodes edges)) as [Hs|Hs]; simpl; [|by left; eauto].
  destruct (bool_decide_reflect (end_ ∈ build_nodes edges)) as [He|He]; simpl; [|by left; eauto].
  destruct (live_candidates edges start end_ Hok Hlat Hs) as
    [(err & -> & Hsep)|(ps & E & H)]; [by left; eauto|right].
  exists ps. by rewrite E.
Qed.

Lemma live_k_nonneg edges k0 : (0 ≤ ls_k (NewLiveStyleSolver edges k0))%Z.
Proof. simpl. case_bool_decide; lia. Qed.

(** Distinct paths over the edges, of at most ten hops. *)
Lemma live_infos ks start end_ ps k0 :
  (0 ≤ k0)%Z → Forall path_rtt_num ps → NoDup (hops <$> ps) →
  Forall (λ p, edge_route ks start end_ (hops p)) ps →
  let infos := live_info <$> selectTopPaths ps k0 in
  NoDup (Hops <$> infos) ∧
  Forall (λ i, edge_route ks start end_ (Hops i) ∧ length (Hops i) ≤ 11) infos.
Proof.
  intros Hk Hnum Hnd Hroute. destruct (selectTopPaths_sub ps k0 Hk) as [rest Hsub].
  destruct (selectTopPaths_spec ps k0 Hk Hnum) as (_ & _ & I & _).
  split.
  - rewrite <-list_fmap_compose. change (NoDup (hops <$> selectTopPaths ps k0)).
    assert (NoDup (hops <$> filter few_hops ps)) as Hf.
    { eapply sublist_NoDup; [done|]. apply fmap_sublist, sublist_filter. }
    rewrite <-Hsub, fmap_app in Hf. by apply NoDup_app in Hf as [Hf _].
  - apply Forall_fmap, Forall_forall. intros p Hp. destruct (I p Hp) as [Hin Hf]. simpl.
    split; [by eapply Forall_forall in Hroute|]. unfold few_hops in Hf. lia.
Qed.

(** The LiveNet-style solver on edges with non-negative costs and
    latencies always answers: with at most [k] distinct simple paths over the
    given edges from the start to the end, of at most ten hops and in order of
    real latency, such that no candidate of Yen's algorithm with at most ten
    hops is left out while a slower one is kept; or with an error, because a
    node is not on any edge or the end is cut off from the start. *)
Theorem LiveStyle_Computing_correct edges k0 start end_ :
  let ls := NewLiveStyleSolver edges k0 in
  let ks := NewKShortestSolver edges 5 in
  edges_ok ks = true → lats_ok edges = true →
  ∃ r, Computing ls start end_ = Some r ∧
    match r with
    | inl infos =>
        length infos ≤ Z.to_nat (ls_k ls) ∧ NoDup (Hops <$> infos) ∧
        Forall (λ i, edge_route ks start end_ (Hops i) ∧ length (Hops i) ≤ 11) infos ∧
        sorted_by rtt_info_less infos ∧
        ∃ ps, yensAlgorithm ks start end_ (build_graph edges) = Some (inl ps) ∧
          ∀ p, p ∈ ps → length (hops p) ≤ 11 →
            hops p ∈ Hops <$> infos ∨
            length infos = Z.to_nat (ls_k ls) ∧
            Forall (λ i, flt (rawRTT p) (RawRTT i) = false) infos
    | inr _ =>
        (start ∉ build_nodes edges) ∨ (end_ ∉ build_nodes edges) ∨
        separated ks (build_graph edges) ∅ start end_
    end.
Proof.
  intros ls ks Hok Hlat. destruct (live_run edges k0 start end_ Hok Hlat) as
    [(err & E & Hr)|(ps & E & Ey & Hnum & Hnd & Hroute)]; (eexists; split; [exact E|]); [done|].
  pose proof (live_k_nonneg edges k0) as Hk. fold ls in Hk |- *.
  destruct (selectTopPaths_spec ps (ls_k ls) Hk Hnum) as (L & S & I & O).
  destruct (live_infos ks start end_ ps (ls_k ls) Hk Hnum Hnd Hroute) as [N R].
  split; [by rewrite length_fmap|]. split; [done|]. split; [done|].
  split; [by apply sorted_by_fmap with (less1 := rtt_less)|].
  exists ps. split; [done|]. intros p Hp Hl.
  destruct (O p Hp) as [Hin|[HL Hq]]; [unfold few_hops; lia|left|right].
  - rewrite <-list_fmap_compose. by apply (list_elem_of_fmap_2 hops).
  - split; [by rewrite length_fmap|]. apply Forall_fmap, Forall_forall. exact Hq.
Qed.

Lemma LiveStyle_Computing_correct_witness : ∃ infos,
  Computing (NewLiveStyleSolver (ks_edges diamond) 0) "a" "d" = Some (inl infos) ∧
  length infos = 2 ∧ sorted_by rtt_info_less infos.
Proof.
  destruct (LiveStyle_Computing_correct (ks_edges diamond) 0 "a" "d") as (r & Hr & Hspec);
    [vm_compute; reflexivity|vm_compute; reflexivity|].
  destruct r as [infos|err]; [|vm_compute in Hr; discriminate].
  exists infos. split; [exact Hr|]. destruct Hspec as (_ & _ & _ & Hsort & _).
  split; [|exact Hsort]. vm_compute in Hr. injection Hr as <-. reflexivity.
Defined.
