(* ===== verification/Random.v ===== *)
(** * Packages [math/rand] and [math/rand/v2]

    The multi-destination solvers draw random numbers.  [RandSource] is a
    source of them, indexed by the number of draws made so far; the solvers
    thread that number.  Its laws are the documented ranges: [Intn(n)] is below
    [n], [Float64()] is at least 0 and below 1, [Perm(n)] is a permutation of
    the integers below [n].  The development is parametric in the source, so
    its theorems hold for every outcome of the draws. *)
From S2P Require Import Prelude Float64 FloatDiv GoHeap.

Class RandSource := {
  rand_Intn : nat → nat → nat;
  rand_Float64 : nat → float64;
  rand_Perm : nat → nat → list nat;
  rand_Intn_lt pos n : 0 < n → rand_Intn pos n < n;
  rand_Float64_unit pos : f_nonneg (rand_Float64 pos) = true ∧ flt (rand_Float64 pos) f1 = true;
  rand_Perm_perm pos n : rand_Perm pos n ≡ₚ seq 0 n;
}.

(** The source that always draws the first outcome. *)
#[export] Program Instance first_source : RandSource | 100 :=
  {| rand_Intn _ _ := 0; rand_Float64 _ := f0; rand_Perm _ n := seq 0 n |}.
Solve Obligations with done.

(** ** Shuffles

    [for j := len(s)-1; j > 0; j-- { k := rand.Intn(j+1); s[j], s[k] = s[k], s[j] }],
    which is also how [Shuffle] is specified.  The result comes with the number
    of draws made. *)
Section Shuffle.
Context `{RS : RandSource} {A : Type}.

Definition shuffle (pos : nat) (l : list A) : nat * list A :=
  foldl (λ '(pos, l) j, (S pos, swap l j (rand_Intn pos (S j)))) (pos, l)
    (reverse (seq 1 (length l - 1))).

Lemma shuffle_perm pos l : (shuffle pos l).2 ≡ₚ l.
Proof.
  unfold shuffle.
  assert (∀ js p l', (∀ j, j ∈ js → j < length l) → l' ≡ₚ l →
    (foldl (λ '(pos, l) j, (S pos, swap l j (rand_Intn pos (S j)))) (p, l') js).2 ≡ₚ l) as Hgo.
  { induction js as [|j js IH]; intros p l' Hj Hl; [done|]. simpl.
    apply IH; [intros; apply Hj; by right|].
    assert (j < length l') by (rewrite Hl; apply Hj; left).
    rewrite swap_perm; [done..|]. pose proof (rand_Intn_lt p (S j)). lia. }
  apply Hgo; [|done]. intros j. rewrite elem_of_reverse, elem_of_seq. lia.
Qed.
End Shuffle.
