(* ===== verification/OneWAN.v ===== *)
(** * The ONE-WAN multi-destination solver

    [control-plane/routing/core-domain/onewan-multi.go]: candidate paths from a
    randomised depth-first search, and a stochastic selection of up to two of
    them per destination that minimises a global score. *)
From S2P Require Import Prelude Float64 FloatDiv GoHeap GoStrings Records KShortest KSearch KYen Random.

Section OneWAN.
Context `{RS : RandSource}.

Record ONEWANSolver := {
  ow_edges : list Edge;
  ow_alpha : float64;
  maxPaths : nat;
}.

Definition NewONEWANSolver (edges : list Edge) (maxPaths : nat) : ONEWANSolver :=
  {| ow_edges := edges; ow_alpha := f1; maxPaths := maxPaths |}.

(** ** One randomised search

    The variables the closure [dfs] captures, and the number of random draws. *)
Record ow_state := {
  visited : gset string;
  ow_hops : list string;
  totalLatency : float64;
  draws : nat;
}.

Definition ow_enter (node : string) (st : ow_state) : ow_state :=
  {| visited := {[node]} ∪ visited st; ow_hops := ow_hops st ++ [node];
     totalLatency := totalLatency st; draws := draws st |}.

Definition ow_leave (node : string) (st : ow_state) : ow_state :=
  {| visited := visited st ∖ {[node]}; ow_hops := removelast (ow_hops st);
     totalLatency := totalLatency st; draws := draws st |}.

Definition ow_draw (st : ow_state) : ow_state :=
  {| visited := visited st; ow_hops := ow_hops st;
     totalLatency := totalLatency st; draws := S (draws st) |}.

Definition ow_add (latency : float64) (st : ow_state) : ow_state :=
  {| visited := visited st; ow_hops := ow_hops st;
     totalLatency := fadd (totalLatency st) latency; draws := draws st |}.

(** The loop over the shuffled neighbours; [rec] is the recursive call. *)
Fixpoint ow_try (rec : string → ow_state → ow_state * bool) (node : string) (neighbors : list Edge)
    (indices : list nat) (st : ow_state) : ow_state * bool :=
  match indices with
  | [] => (ow_leave node st, false)
  | idx :: indices =>
      match neighbors !! idx with
      | None => ow_try rec node neighbors indices st
      | Some edge =>
          let next := DestinationIp edge in
          if bool_decide (next ∈ visited st) then ow_try rec node neighbors indices st
          else
            let '(st', ok) := rec next st in
            if ok then (ow_add (Latency edge) st', true)
            else ow_try rec node neighbors indices st'
      end
  end.

(** The depth grows with every call, so [maxHops + 2 - depth] is enough fuel. *)
Fixpoint ow_dfs (fuel : nat) (graph_ : adjacency) (target : string) (maxHops : nat)
    (depth : nat) (node : string) (st : ow_state) : ow_state * bool :=
  match fuel with
  | 0 => (st, false)
  | S fuel =>
      if bool_decide (maxHops < depth) then (st, false)
      else
        let st := ow_enter node st in
        if bool_decide (node = target) then (st, true)
        else
          let neighbors := out_edges graph_ node in
          if bool_decide (length neighbors = 0) then (ow_leave node st, false)
          else
            let indices := rand_Perm (draws st) (length neighbors) in
            ow_try (ow_dfs fuel graph_ target maxHops (S depth)) node neighbors indices (ow_draw st)
  end.

Definition dfsRandomPath (current target : string) (graph_ : adjacency) (maxHops pos : nat)
    : option Path * nat :=
  let '(st, ok) := ow_dfs (maxHops + 2) graph_ target maxHops 0 current
    {| visited := ∅; ow_hops := []; totalLatency := f0; draws := pos |} in
  (if ok then Some {| hops := ow_hops st; cost := totalLatency st; rawRTT := totalLatency st |}
   else None, draws st).

(** ** Candidates *)
Definition maxAttempts : nat := 100.
Definition dfsMaxHops : nat := 15.

(** The loop of [randomDFSPaths]: [n] attempts are left. *)
Fixpoint random_attempts (n : nat) (start end_ : string) (graph_ : adjacency) (maxPaths pos : nat)
    (paths : list Path) (usedPaths : gset string) : list Path * nat :=
  match n with
  | 0 => (paths, pos)
  | S n =>
      if bool_decide (length paths < maxPaths) then
        let '(path, pos) := dfsRandomPath start end_ graph_ dfsMaxHops pos in
        match path with
        | None => random_attempts n start end_ graph_ maxPaths pos paths usedPaths
        | Some p =>
            let pathStr := Join (hops p) "->" in
            if bool_decide (pathStr ∈ usedPaths)
            then random_attempts n start end_ graph_ maxPaths pos paths usedPaths
            else random_attempts n start end_ graph_ maxPaths pos (paths ++ [p])
                   ({[pathStr]} ∪ usedPaths)
        end
      else (paths, pos)
  end.

Definition randomDFSPaths (start end_ : string) (graph_ : adjacency) (maxPaths pos : nat)
    : list Path * nat :=
  let '(paths, pos) := random_attempts maxAttempts start end_ graph_ maxPaths pos [] ∅ in
  (exchange_sort path_less paths, pos).

Definition deduplicateHops (hops : list string) : list string :=
  match hops with
  | [] => []
  | x :: l => x :: dedup_from x l
  end.

Definition hop_limit : Z := 30.

Definition filterPathsByHops (paths : list PathInfo) (maxHops : Z) : list PathInfo :=
  filter (λ p, (Z.of_nat (length (Hops p)) - 1 ≤ maxHops)%Z) paths.

Record destCandidates := {
  dc_end : string;
  dc_paths : list PathInfo;
}.

(** One turn of the loop over the destinations. *)
Definition dest_candidates (os : ONEWANSolver) (start : string) (nodes : gset string)
    (graph_ : adjacency) (acc : list destCandidates * nat) (end_ : string)
    : list destCandidates * nat :=
  let '(allCandidates, pos) := acc in
  if negb (bool_decide (end_ ∈ nodes)) then acc
  else
    let '(paths, pos) := randomDFSPaths start end_ graph_ (maxPaths os) pos in
    if bool_decide (length paths = 0) then (allCandidates, pos)
    else
      let pathInfos := omap (λ path,
        let cleanHops := deduplicateHops (hops path) in
        if bool_decide (hop_limit < Z.of_nat (length cleanHops) - 1)%Z then None
        else Some {| Hops := cleanHops; Rtt := cost path; RawRTT := rawRTT path |}) paths in
      let pathInfos := filterPathsByHops pathInfos hop_limit in
      if bool_decide (length pathInfos = 0) then (allCandidates, pos)
      else
        let pathInfos := if bool_decide (maxPaths os < length pathInfos)
                         then take (maxPaths os) pathInfos else pathInfos in
        (allCandidates ++ [{| dc_end := end_; dc_paths := pathInfos |}], pos).

Definition generateCandidatePaths (os : ONEWANSolver) (start : string) (ends : list string)
    (nodes : gset string) (graph_ : adjacency) (pos : nat)
    : (list destCandidates + string) * nat :=
  let '(allCandidates, pos) := foldl (dest_candidates os start nodes graph_) ([], pos) ends in
  (if bool_decide (length allCandidates = 0) then inr "no paths found" else inl allCandidates, pos).

(** ** Selection *)
Definition path_probs (paths : list PathInfo) : list float64 :=
  let totalInverseLatency :=
    foldl (λ acc p, if flt f0 (RawRTT p) then fadd acc (fdiv f1 (RawRTT p)) else acc) f0 paths in
  (λ p, if flt f0 (RawRTT p) && flt f0 totalInverseLatency
        then fdiv (fdiv f1 (RawRTT p)) totalInverseLatency
        else fdiv f1 (f_of_nat (length paths))) <$> paths.

(** The indices not selected yet, with their probabilities, in order. *)
Definition open_probs (probs : list float64) (selected : gset nat) : list (nat * float64) :=
  filter (λ p, p.1 ∉ selected) (imap pair probs).

(** The first index whose cumulative probability reaches [r]; index 0 if none does. *)
Fixpoint pick_index (r cumulative : float64) (l : list (nat * float64)) : nat :=
  match l with
  | [] => 0
  | (pathIdx, prob) :: l =>
      let cumulative := fadd cumulative prob in
      if fle r cumulative then pathIdx else pick_index r cumulative l
  end.

(** Selecting [n] more paths of a destination. *)
Fixpoint select_paths (n : nat) (paths : list PathInfo) (probs : list float64)
    (selected : gset nat) (pos : nat) : list PathInfo * nat :=
  match n with
  | 0 => ([], pos)
  | S n =>
      let totalProb := fsum (open_probs probs selected).*2 in
      let r := fmul (rand_Float64 pos) totalProb in
      let selectedPathIdx := pick_index r f0 (open_probs probs selected) in
      let '(rest, pos') := select_paths n paths probs ({[selectedPathIdx]} ∪ selected) (S pos) in
      (match paths !! selectedPathIdx with Some p => p :: rest | None => rest end, pos')
  end.

Definition pathsPerDest : nat := 2.

Definition select_dest (acc : list PathInfo * nat) (dc : destCandidates) : list PathInfo * nat :=
  let '(selectedPaths, pos) := acc in
  let '(sel, pos) := select_paths (pathsPerDest `min` length (dc_paths dc)) (dc_paths dc)
                       (path_probs (dc_paths dc)) ∅ pos in
  (selectedPaths ++ sel, pos).

Definition path_edges (p : PathInfo) : list string :=
  (λ e, e.1 +:+ "->" +:+ e.2) <$> zip (Hops p) (tail (Hops p)).

Definition fmax (x y : float64) : float64 := if flt x y then y else x.

(** The score: latencies, and a quadratic penalty for every edge, counted at
    its first occurrence. *)
Definition solution_score (edgeLoadMap : gmap string float64) (paths : list PathInfo) : float64 :=
  let edgeUsage := foldl (λ m k, <[k := fadd (getf m k) f1]> m) ∅ (paths ≫= path_edges) in
  let edge_step '(totalScore, processed) edgeKey :=
    if bool_decide (edgeKey ∈ processed) then (totalScore, processed)
    else
      let count := getf edgeUsage edgeKey in
      let penalty := fmul (fmul (fmul count count) (fmax (getf edgeLoadMap edgeKey) f1)) (f_of_Z 5) in
      (fadd totalScore penalty, {[edgeKey]} ∪ processed) in
  (foldl (λ '(totalScore, processed) p,
     foldl edge_step (fadd totalScore (RawRTT p), processed) (path_edges p))
   (f0, (∅ : gset string)) paths).1.

Definition load_map (edges : list Edge) : gmap string float64 :=
  foldl (λ m e, <[SourceIp e +:+ "->" +:+ DestinationIp e := Load e]> m) ∅ edges.

(** The solutions of [n] iterations. *)
Fixpoint solutions (n : nat) (edgeLoadMap : gmap string float64) (allCandidates : list destCandidates)
    (pos : nat) : list (list PathInfo * float64) * nat :=
  match n with
  | 0 => ([], pos)
  | S n =>
      let '(paths, pos) := foldl select_dest ([], pos) allCandidates in
      let '(rest, pos) := solutions n edgeLoadMap allCandidates pos in
      ((paths, solution_score edgeLoadMap paths) :: rest, pos)
  end.

Definition numIterations : nat := 100.

Definition best_solution (best : list PathInfo * float64) (l : list (list PathInfo * float64)) :=
  foldl (λ best sol, if flt sol.2 best.2 then sol else best) best l.

Definition beamSearchSelection (os : ONEWANSolver) (allCandidates : list destCandidates) (pos : nat)
    : list PathInfo * nat :=
  let '(allSolutions, pos) := solutions numIterations (load_map (ow_edges os)) allCandidates pos in
  match allSolutions with
  | [] => ([], pos)
  | sol :: rest => ((best_solution sol rest).1, pos)
  end.

Definition ONEWAN_ComputingMulti (os : ONEWANSolver) (start : string) (ends : list string) (pos : nat)
    : list PathInfo + string :=
  let graph_ := build_graph (ow_edges os) in
  let nodes := build_nodes (ow_edges os) in
  if negb (bool_decide (start ∈ nodes)) then inr "start node not found"
  else
    let '(cands, pos) := generateCandidatePaths os start ends nodes graph_ pos in
    match cands with
    | inr err => inr err
    | inl allCandidates => inl (beamSearchSelection os allCandidates pos).1
    end.

(** ** The search finds a path exactly when there is one *)

(** A walk from [u] along the edges [es]. *)
Inductive chain (g : adjacency) : string → list Edge → string → Prop :=
| chain_nil u : chain g u [] u
| chain_cons u e es v :
    e ∈ out_edges g u → chain g (DestinationIp e) es v → chain g u (e :: es) v.

Definition chain_hops (u : string) (es : list Edge) : list string := u :: (DestinationIp <$> es).

Definition ow_wf (st : ow_state) : Prop :=
  (∀ x, x ∈ visited st ↔ x ∈ ow_hops st) ∧ NoDup (ow_hops st).

Section Search.
Context (g : adjacency) (target : string) (maxHops : nat).

(** What a call at [depth] on [node] from [st] must return; [enough] says that
    the fuel suffices. *)
Definition ow_result (enough : Prop) (depth : nat) (node : string) (st : ow_state)
    (r : ow_state * bool) : Prop :=
  match r with
  | (st', true) => ∃ es, chain g node es target ∧ ow_hops st' = ow_hops st ++ chain_hops node es ∧
      NoDup (ow_hops st') ∧ totalLatency st' = foldl fadd (totalLatency st) (Latency <$> reverse es) ∧
      depth + length es ≤ maxHops
  | (st', false) => ow_wf st' ∧ ow_hops st' = ow_hops st ∧ totalLatency st' = totalLatency st ∧
      (enough → ∀ es, chain g node es target → NoDup (ow_hops st ++ chain_hops node es) →
         maxHops < depth + length es)
  end.

Lemma ow_enter_wf node st : ow_wf st → node ∉ ow_hops st → ow_wf (ow_enter node st).
Proof.
  intros [H1 H2] Hn. split; simpl.
  - intros x. rewrite elem_of_union, elem_of_singleton, elem_of_app, list_elem_of_singleton, H1. tauto.
  - apply NoDup_app. split; [done|]. split; [|apply NoDup_singleton].
    by intros x Hx ->%list_elem_of_singleton.
Qed.

Lemma ow_leave_wf node st hs : ow_wf st → ow_hops st = hs ++ [node] →
  ow_wf (ow_leave node st) ∧ ow_hops (ow_leave node st) = hs.
Proof.
  intros [H1 H2] E. unfold ow_leave. simpl. rewrite E, removelast_last. split; [|done].
  rewrite E in H2. apply NoDup_app in H2 as (N1 & N2 & _). split; simpl.
  - intros x. rewrite elem_of_difference, elem_of_singleton, H1, E,
      elem_of_app, list_elem_of_singleton. split; [tauto|].
    intros Hx. split; [by left|]. intros ->. apply (N2 node Hx). by apply list_elem_of_singleton.
  - done.
Qed.

(** The loop over neighbours, when [hs] is the path before [node]. *)
Lemma ow_try_spec rec enough depth node (hs : list string) t0 indices st :
  node ≠ target →
  (∀ next st, ow_wf st → next ∉ ow_hops st → ow_result enough (S depth) next st (rec next st)) →
  ow_wf st → ow_hops st = hs ++ [node] → totalLatency st = t0 →
  match ow_try rec node (out_edges g node) indices st with
  | (st', true) => ∃ es, chain g node es target ∧ ow_hops st' = hs ++ chain_hops node es ∧
      NoDup (ow_hops st') ∧ totalLatency st' = foldl fadd t0 (Latency <$> reverse es) ∧
      depth + length es ≤ maxHops
  | (st', false) => ow_wf st' ∧ ow_hops st' = hs ∧ totalLatency st' = t0 ∧
      (enough → ∀ i e es, i ∈ indices → out_edges g node !! i = Some e →
         chain g (DestinationIp e) es target → NoDup (hs ++ chain_hops node (e :: es)) →
         maxHops < depth + S (length es))
  end.
Proof.
  intros Hne Hrec. revert st. induction indices as [|i indices IH]; intros st Hwf Hh Ht; simpl.
  { destruct (ow_leave_wf node st hs Hwf Hh) as [L1 L2]. split; [done|]. split; [done|].
    split; [done|]. by intros _ i e es ?%not_elem_of_nil. }
  destruct (out_edges g node !! i) as [e|] eqn:Hi.
  2: { specialize (IH st Hwf Hh Ht). destruct (ow_try _ _ _ indices st) as [st' []]; [done|].
       destruct IH as (I1 & I2 & I3 & I4). split_and!; [done..|].
       intros En j e es [->|Hj]%elem_of_cons; [congruence|by eapply I4]. }
  pose proof Hwf as [Hv Hnd].
  case_bool_decide as Hin.
  { specialize (IH st Hwf Hh Ht). destruct (ow_try _ _ _ indices st) as [st' []]; [done|].
    destruct IH as (I1 & I2 & I3 & I4). split_and!; [done..|].
    intros En j e' es [->|Hj]%elem_of_cons He' Hc Hn; [|by eapply I4].
    rewrite Hi in He'. injection He' as <-. exfalso. rewrite Hv, Hh in Hin.
    change (NoDup (hs ++ [node] ++ DestinationIp e :: (DestinationIp <$> es))) in Hn.
    rewrite app_assoc in Hn.
    apply NoDup_app in Hn as (_ & Hd & _). apply (Hd _ Hin). left. }
  assert (DestinationIp e ∉ ow_hops st) as Hnew by (by rewrite <-Hv).
  specialize (Hrec _ st Hwf Hnew). destruct (rec (DestinationIp e) st) as [st1 [|]].
  - destruct Hrec as (es & Hc & Hh1 & Hnd1 & Ht1 & Hlen). exists (e :: es).
    split; [constructor; [by eapply list_elem_of_lookup_2|done]|]. simpl.
    split; [rewrite Hh1, Hh; by rewrite <-app_assoc|]. split; [done|].
    split; [|lia]. rewrite reverse_cons, fmap_app, foldl_app. simpl. by rewrite Ht1, Ht.
  - destruct Hrec as (W1 & Hh1 & Ht1 & Hno). rewrite Hh in Hh1. rewrite Ht in Ht1.
    specialize (IH st1 W1 Hh1 Ht1). destruct (ow_try _ _ _ indices st1) as [st' []]; [done|].
    destruct IH as (I1 & I2 & I3 & I4). split_and!; [done..|].
    intros En j e' es [->|Hj]%elem_of_cons He' Hc Hn; [|by eapply I4].
    rewrite Hi in He'. injection He' as <-.
    rewrite Nat.add_succ_r. apply (Hno En es Hc). rewrite Hh.
    by rewrite <-app_assoc.
Qed.

Lemma ow_dfs_spec fuel depth node st :
  ow_wf st → node ∉ ow_hops st →
  ow_result (maxHops + 2 ≤ fuel + depth) depth node st (ow_dfs fuel g target maxHops depth node st).
Proof.
  revert depth node st. induction fuel as [|fuel IH]; intros depth node st Hwf Hn; cbn [ow_dfs].
  { split; [done|]. split; [done|]. split; [done|]. intros ? es _ _. lia. }
  case_bool_decide as Hd.
  { split; [done|]. split; [done|]. split; [done|]. intros _ es _ _. lia. }
  pose proof (ow_enter_wf node st Hwf Hn) as Hwf1.
  case_bool_decide as Ht.
  { subst. exists []. split; [constructor|]. split; [done|]. split; [apply Hwf1|].
    split; [done|]. simpl. lia. }
  case_bool_decide as Hl.
  { destruct (ow_leave_wf node (ow_enter node st) (ow_hops st) Hwf1 eq_refl) as [L1 L2].
    split; [done|]. split; [done|]. split; [done|]. intros _ es Hc _. exfalso.
    apply nil_length_inv in Hl. inversion Hc as [|u e es' v He]; subst; [done|].
    rewrite Hl in He. by apply not_elem_of_nil in He. }
  match goal with |- context [ow_try ?rec _ _ ?ix ?s] =>
    pose proof (ow_try_spec rec (maxHops + 2 ≤ fuel + S depth) depth node (ow_hops st)
      (totalLatency st) ix s Ht (IH (S depth)) Hwf1 eq_refl eq_refl) as Hs;
    destruct (ow_try rec _ _ ix s) as [st' [|]] end; [done|].
  destruct Hs as (S1 & S2 & S3 & S4). split; [done|]. split; [done|]. split; [done|].
  intros En es Hc Hnd. inversion Hc as [|u e es' v He Hc']; subst; [done|]. simpl.
  apply list_elem_of_lookup in He as [i Hi].
  eapply S4; [lia| |exact Hi|done|done].
  rewrite rand_Perm_perm. apply elem_of_seq. apply lookup_lt_Some in Hi. lia.
Qed.
End Search.

(** A simple walk of at most [n] edges. *)
Definition short_route (g : adjacency) (n : nat) (start end_ : string) (es : list Edge) : Prop :=
  chain g start es end_ ∧ NoDup (chain_hops start es) ∧ length es ≤ n.

Lemma dfsRandomPath_spec start end_ g n pos :
  match (dfsRandomPath start end_ g n pos).1 with
  | Some p => ∃ es, short_route g n start end_ es ∧ hops p = chain_hops start es ∧
      cost p = fsum (Latency <$> reverse es) ∧ rawRTT p = cost p
  | None => ∀ es, ¬ short_route g n start end_ es
  end.
Proof.
  unfold dfsRandomPath.
  pose proof (ow_dfs_spec g end_ n (n + 2) 0 start
    {| visited := ∅; ow_hops := []; totalLatency := f0; draws := pos |}) as H.
  destruct (ow_dfs _ _ _ _ _ _ _) as [st [|]]; simpl in *.
  - destruct H as (es & Hc & Hh & Hnd & Ht & Hl).
    { split; [|constructor]. intros x. split; [by intros ?%elem_of_empty|by intros ?%not_elem_of_nil]. }
    { apply not_elem_of_nil. }
    exists es. rewrite Hh in Hnd. done.
  - destruct H as (_ & _ & _ & H).
    { split; [|constructor]. intros x. split; [by intros ?%elem_of_empty|by intros ?%not_elem_of_nil]. }
    { apply not_elem_of_nil. }
    intros es (Hc & Hnd & Hl). specialize (H ltac:(lia) es Hc Hnd). lia.
Qed.

(** ** Candidates of a destination *)
Section Candidates.
Context (g : adjacency) (start : string).

(** A path of the search. *)
Definition found_ok (end_ : string) (p : Path) : Prop :=
  ∃ es, short_route g dfsMaxHops start end_ es ∧ hops p = chain_hops start es ∧
    cost p = fsum (Latency <$> reverse es) ∧ rawRTT p = cost p.

Definition reachable (end_ : string) : Prop := ∃ es, short_route g dfsMaxHops start end_ es.

Lemma random_attempts_spec n end_ maxPaths pos paths (used : gset string) :
  Forall (found_ok end_) paths → NoDup (hops <$> paths) →
  (∀ p, p ∈ paths → Join (hops p) "->" ∈ used) → length paths ≤ maxPaths →
  let res := (random_attempts n start end_ g maxPaths pos paths used).1 in
  Forall (found_ok end_) res ∧ NoDup (hops <$> res) ∧ length res ≤ maxPaths ∧
  (paths ≠ [] → res ≠ []).
Proof.
  revert pos paths used. induction n as [|n IH]; intros pos paths used Hok Hnd Hu Hl; cbn [random_attempts]; [done|].
  case_bool_decide as Hlen; [|done].
  pose proof (dfsRandomPath_spec start end_ g dfsMaxHops pos) as Hp.
  destruct (dfsRandomPath start end_ g dfsMaxHops pos) as [[p|] pos']; [|by apply IH].
  simpl in Hp. case_bool_decide as Hin; [by apply IH|].
  destruct (IH pos' (paths ++ [p]) ({[Join (hops p) "->"]} ∪ used)) as (I1 & I2 & I3 & I4).
  - apply Forall_app. split; [done|]. by apply Forall_singleton.
  - rewrite fmap_app. apply NoDup_app. split; [done|]. split; [|apply NoDup_singleton].
    intros x Hx ->%list_elem_of_singleton. apply list_elem_of_fmap in Hx as (q & Hq & Hqin).
    apply Hin. rewrite Hq. by apply Hu.
  - intros q [Hq| ->%list_elem_of_singleton]%elem_of_app; [apply elem_of_union_r; by apply Hu|].
    apply elem_of_union_l. by apply elem_of_singleton.
  - rewrite length_app. simpl. lia.
  - split; [done|]. split; [done|]. split; [done|]. intros _. apply I4. by destruct paths.
Qed.

Lemma random_first n end_ maxPaths pos : 0 < n → 0 < maxPaths → reachable end_ →
  (random_attempts n start end_ g maxPaths pos [] ∅).1 ≠ [].
Proof.
  intros Hn Hm [es Hes]. destruct n as [|n]; [lia|]. cbn [random_attempts].
  rewrite bool_decide_eq_true_2 by (simpl; lia).
  pose proof (dfsRandomPath_spec start end_ g dfsMaxHops pos) as Hp.
  destruct (dfsRandomPath start end_ g dfsMaxHops pos) as [[p|] pos']; simpl in Hp;
    [|by destruct (Hp es)].
  case_bool_decide as Hin; [by apply elem_of_empty in Hin|].
  apply random_attempts_spec; [by constructor|apply NoDup_singleton| |simpl; lia|done].
  intros q ->%list_elem_of_singleton. apply elem_of_union_l. by apply elem_of_singleton.
Qed.

Lemma randomDFSPaths_spec end_ maxPaths pos : 0 < maxPaths →
  let paths := (randomDFSPaths start end_ g maxPaths pos).1 in
  Forall (found_ok end_) paths ∧ NoDup (hops <$> paths) ∧ length paths ≤ maxPaths ∧
  (paths = [] ↔ ¬ reachable end_).
Proof.
  intros Hm. unfold randomDFSPaths.
  pose proof (random_attempts_spec maxAttempts end_ maxPaths pos [] ∅) as H.
  pose proof (random_first maxAttempts end_ maxPaths pos ltac:(unfold maxAttempts; lia) Hm) as Hf.
  destruct (random_attempts maxAttempts start end_ g maxPaths pos [] ∅) as [paths pos'].
  simpl in *. destruct H as (H1 & H2 & H3 & _);
    [constructor|constructor|by intros p ?%not_elem_of_nil|lia|].
  pose proof (exchange_sort_perm path_less paths) as Hp.
  rewrite exchange_sort_length. split; [by rewrite Hp|]. split; [by rewrite Hp|].
  split; [done|]. split.
  - intros E Hr. rewrite E in Hp. apply Permutation_nil in Hp. by apply (Hf Hr).
  - intros Hr. destruct paths as [|p paths]; [done|]. exfalso. apply Hr.
    apply Forall_cons in H1 as [(es & ? & _) _]. by exists es.
Qed.

(** What the solver returns as a path to [end_]. *)
Definition info_ok (end_ : string) (i : PathInfo) : Prop :=
  ∃ es, short_route g dfsMaxHops start end_ es ∧ Hops i = chain_hops start es ∧
    Rtt i = fsum (Latency <$> reverse es) ∧ RawRTT i = Rtt i.

Definition candidates_ok (dc : destCandidates) : Prop :=
  dc_paths dc ≠ [] ∧ Forall (info_ok (dc_end dc)) (dc_paths dc).

Lemma clean_infos end_ paths : Forall (found_ok end_) paths →
  filterPathsByHops (omap (λ path,
    let cleanHops := deduplicateHops (hops path) in
    if bool_decide (hop_limit < Z.of_nat (length cleanHops) - 1)%Z then None
    else Some {| Hops := cleanHops; Rtt := cost path; RawRTT := rawRTT path |}) paths) hop_limit =
  (λ p, {| Hops := hops p; Rtt := cost p; RawRTT := rawRTT p |}) <$> paths.
Proof.
  unfold filterPathsByHops.
  induction 1 as [|p paths (es & (Hc & Hnd & Hl) & Hh & _) Hps IH]; [done|]. cbn [omap list_omap].
  change (deduplicateHops (hops p)) with (removeConsecutiveDuplicates (hops p)).
  rewrite removeConsecutiveDuplicates_id by (by rewrite Hh).
  assert (length (hops p) ≤ 16) as Hlen.
  { rewrite Hh. unfold chain_hops. simpl. rewrite length_fmap. unfold dfsMaxHops in Hl. lia. }
  rewrite bool_decide_eq_false_2 by (unfold hop_limit; lia).
  rewrite filter_cons_True by (simpl; unfold hop_limit; lia). cbn [fmap list_fmap]. by f_equal.
Qed.

Lemma dest_candidates_spec os nodes acc pos end_ :
  0 < maxPaths os → start ∈ nodes → (∀ e, reachable e → e ∈ nodes) →
  let '(acc', _) := dest_candidates os start nodes g (acc, pos) end_ in
  (¬ reachable end_ ∧ acc' = acc) ∨
  ∃ dc, acc' = acc ++ [dc] ∧ dc_end dc = end_ ∧ candidates_ok dc.
Proof.
  intros Hm Hs Hn. unfold dest_candidates.
  destruct (bool_decide_reflect (end_ ∈ nodes)) as [Hin|Hin]; simpl; [|left; auto].
  pose proof (randomDFSPaths_spec end_ (maxPaths os) pos Hm) as (P1 & P2 & P3 & P4).
  destruct (randomDFSPaths start end_ g (maxPaths os) pos) as [paths pos']. simpl in *.
  case_bool_decide as Hl; [left; split; [|done]; by apply P4, nil_length_inv|].
  rewrite (clean_infos end_) by done. rewrite length_fmap.
  rewrite bool_decide_eq_false_2 by done. rewrite bool_decide_eq_false_2 by lia.
  right. eexists. split; [done|]. split; [done|]. split; simpl.
  - intros ->%fmap_nil_inv. done.
  - apply Forall_fmap. eapply Forall_impl; [exact P1|]. intros p (es & ? & ? & ? & ?).
    exists es. done.
Qed.

Lemma generate_spec os nodes ends acc pos :
  0 < maxPaths os → start ∈ nodes → (∀ e, reachable e → e ∈ nodes) →
  let '(acc', _) := foldl (dest_candidates os start nodes g) (acc, pos) ends in
  ∃ new, acc' = acc ++ new ∧ Forall candidates_ok new ∧ (dc_end <$> new) `sublist_of` ends ∧
    ∀ e, e ∈ ends → reachable e → e ∈ dc_end <$> new.
Proof.
  intros Hm Hs Hn. revert acc pos. induction ends as [|end_ ends IH]; intros acc pos; cbn [foldl].
  { exists []. rewrite app_nil_r. split_and!; [done|constructor|done|]. by intros e ?%not_elem_of_nil. }
  pose proof (dest_candidates_spec os nodes acc pos end_ Hm Hs Hn) as Hd.
  destruct (dest_candidates os start nodes g (acc, pos) end_) as [acc1 pos1].
  specialize (IH acc1 pos1). destruct (foldl _ (acc1, pos1) ends) as [acc' pos'].
  destruct IH as (new & -> & I1 & I2 & I3).
  destruct Hd as [[Hr ->]|(dc & -> & He & Hok)].
  - exists new. split_and!; [done|done|by apply sublist_cons|].
    intros e [->|Hin]%elem_of_cons ?; [done|by apply I3].
  - exists (dc :: new). rewrite <-app_assoc. split_and!; [done|by constructor| |].
    + simpl. rewrite He. by apply sublist_skip.
    + simpl. intros e [->|Hin]%elem_of_cons ?; [rewrite He; left|right; by apply I3].
Qed.
End Candidates.

(** ** Selection *)
Lemma pick_index_range r c l n :
  0 < n → (∀ i x, (i, x) ∈ l → i < n) → pick_index r c l < n.
Proof.
  intros Hn. revert c. induction l as [|[i x] l IH]; intros c Hl; simpl; [done|].
  destruct (fle r (fadd c x)); [apply (Hl i x); left|]. apply IH. intros j y Hj. apply (Hl j y). by right.
Qed.

Lemma open_probs_range probs selected i x : (i, x) ∈ open_probs probs selected → i < length probs.
Proof.
  unfold open_probs. intros [_ Hin]%list_elem_of_filter.
  apply list_elem_of_lookup in Hin as [j Hj]. rewrite list_lookup_imap in Hj.
  apply fmap_Some in Hj as (y & Hy & [= -> ->]). by eapply lookup_lt_Some.
Qed.

Lemma path_probs_length paths : length (path_probs paths) = length paths.
Proof. unfold path_probs. by rewrite length_fmap. Qed.

(** The code never indexes out of range: exactly [n] paths are selected. *)
Lemma select_paths_spec n paths selected pos : paths ≠ [] →
  let sel := (select_paths n paths (path_probs paths) selected pos).1 in
  length sel = n ∧ Forall (λ p, p ∈ paths) sel.
Proof.
  intros Hne. revert selected pos. induction n as [|n IH]; intros selected pos; cbn [select_paths].
  { split; [done|constructor]. }
  match goal with |- context [select_paths n _ _ ({[?i]} ∪ selected) _] => set (idx := i) end.
  specialize (IH ({[idx]} ∪ selected) (S pos)).
  destruct (select_paths n _ _ _ _) as [rest pos']. cbn [fst] in *. destruct IH as [I1 I2].
  assert (idx < length paths) as Hidx.
  { apply pick_index_range; [destruct paths; [done|simpl; lia]|].
    intros i x Hi. rewrite <-path_probs_length. by eapply open_probs_range. }
  apply lookup_lt_is_Some in Hidx as [p Hp]. rewrite Hp. simpl. split; [by rewrite I1|].
  constructor; [by eapply list_elem_of_lookup_2|done].
Qed.

(** A selection for a list of destinations: between one and two candidates of
    each, in order. *)
Definition dest_selection (dc : destCandidates) (sel : list PathInfo) : Prop :=
  length sel = pathsPerDest `min` length (dc_paths dc) ∧ Forall (λ p, p ∈ dc_paths dc) sel.

Definition selection (dcs : list destCandidates) (paths : list PathInfo) : Prop :=
  ∃ sels, paths = concat sels ∧ Forall2 dest_selection dcs sels.

Lemma select_dests_spec dcs acc pos : Forall (λ dc, dc_paths dc ≠ []) dcs →
  ∃ sels, (foldl select_dest (acc, pos) dcs).1 = acc ++ concat sels ∧ Forall2 dest_selection dcs sels.
Proof.
  intros Hne. revert acc pos. induction Hne as [|dc dcs Hdc Hdcs IH]; intros acc pos; cbn [foldl].
  { exists []. simpl. rewrite app_nil_r. split; [done|constructor]. }
  unfold select_dest at 2.
  pose proof (select_paths_spec (pathsPerDest `min` length (dc_paths dc)) (dc_paths dc) ∅ pos Hdc) as Hs.
  destruct (select_paths _ _ _ _ _) as [sel pos']. cbn [fst] in Hs.
  destruct (IH (acc ++ sel) pos') as (sels & -> & Hf). exists (sel :: sels).
  split; [simpl; by rewrite app_assoc|]. by constructor.
Qed.

Lemma solutions_spec n loads dcs pos : Forall (λ dc, dc_paths dc ≠ []) dcs →
  length (solutions n loads dcs pos).1 = n ∧
  Forall (λ s, selection dcs s.1 ∧ s.2 = solution_score loads s.1) (solutions n loads dcs pos).1.
Proof.
  intros Hne. revert pos. induction n as [|n IH]; intros pos; cbn [solutions]; [split; [done|constructor]|].
  destruct (select_dests_spec dcs [] pos Hne) as (sels & Hs & Hf).
  destruct (foldl select_dest ([], pos) dcs) as [paths pos1]. cbn [fst] in Hs.
  specialize (IH pos1). destruct (solutions n loads dcs pos1) as [rest pos2]. cbn [fst] in *.
  destruct IH as [I1 I2]. split; [simpl; by rewrite I1|]. constructor; [|done].
  split; [|done]. by exists sels.
Qed.

Lemma best_solution_elem best l : best_solution best l ∈ best :: l.
Proof.
  unfold best_solution. revert best. induction l as [|s l IH]; intros best; simpl; [left|].
  destruct (flt s.2 best.2).
  - right. apply IH.
  - pose proof (IH best) as [E|H]%elem_of_cons; [rewrite E; left|right; by right].
Qed.

(** The beam search returns a selection of the candidates. *)
Lemma beam_spec os dcs pos : Forall (λ dc, dc_paths dc ≠ []) dcs →
  selection dcs (beamSearchSelection os dcs pos).1.
Proof.
  intros Hne. unfold beamSearchSelection.
  destruct (solutions_spec numIterations (load_map (ow_edges os)) dcs pos Hne) as [Hl Hs].
  destruct (solutions numIterations _ dcs pos) as [[|sol rest] pos']; cbn [fst] in *; [done|].
  pose proof (best_solution_elem sol rest) as Hin. rewrite Forall_forall in Hs.
  by apply (Hs _ Hin).
Qed.

(** ** The entry point *)
Lemma chain_nodes edges u es v :
  u ∈ build_nodes edges → chain (build_graph edges) u es v → v ∈ build_nodes edges.
Proof.
  intros Hu Hc. induction Hc as [|u e es v He Hc IH]; [done|]. apply IH.
  rewrite build_graph_spec in He. apply list_elem_of_filter in He as [_ He].
  apply build_nodes_spec. eauto.
Qed.

Lemma selection_length dcs sels : Forall2 dest_selection dcs sels →
  length (concat sels) ≤ pathsPerDest * length dcs.
Proof.
  induction 1 as [|dc sel dcs sels [Hl _] _ IH]; simpl; [lia|].
  rewrite length_app. unfold pathsPerDest in *. lia.
Qed.

(** The run of [ComputingMulti] in terms of the candidates. *)
Lemma ONEWAN_run edges mp start ends pos : 0 < mp →
  let g := build_graph edges in
  match ONEWAN_ComputingMulti (NewONEWANSolver edges mp) start ends pos with
  | inl infos => start ∈ build_nodes edges ∧ ∃ dcs sels,
      infos = concat sels ∧ Forall2 dest_selection dcs sels ∧ dcs ≠ [] ∧
      Forall (candidates_ok g start) dcs ∧ sublist (dc_end <$> dcs) ends ∧
      ∀ e, e ∈ ends → reachable g start e → e ∈ dc_end <$> dcs
  | inr _ => (start ∉ build_nodes edges) ∨ ∀ e, e ∈ ends → ¬ reachable g start e
  end.
Proof.
  intros Hm g. unfold ONEWAN_ComputingMulti, generateCandidatePaths. cbn [ow_edges NewONEWANSolver].
  destruct (bool_decide_reflect (start ∈ build_nodes edges)) as [Hs|Hs]; simpl; [|by left].
  pose proof (generate_spec g start (NewONEWANSolver edges mp) (build_nodes edges) ends [] pos Hm Hs) as Hg.
  destruct (foldl _ ([], pos) ends) as [dcs pos'].
  destruct Hg as (new & E & Hok & Hsub & Hall).
  { intros e (es & Hc & _). by eapply chain_nodes. }
  simpl in E. subst new. case_bool_decide as Hl.
  { right. intros e He Hr. apply nil_length_inv in Hl. subst.
    specialize (Hall e He Hr). by apply not_elem_of_nil in Hall. }
  destruct (beam_spec (NewONEWANSolver edges mp) dcs pos') as (sels & Hb & Hf).
  { eapply Forall_impl; [exact Hok|]. by intros dc [? _]. }
  rewrite Hb. clear Hb. split; [done|]. exists dcs, sels. by destruct dcs.
Qed.

Lemma selected_infos g start ends dcs sels :
  Forall2 dest_selection dcs sels → Forall (candidates_ok g start) dcs →
  sublist (dc_end <$> dcs) ends →
  Forall (λ i, ∃ e, e ∈ ends ∧ info_ok g start e i) (concat sels).
Proof.
  intros Hf Hok Hsub. apply Forall_forall. intros i Hi.
  apply list_elem_of_In, in_concat in Hi as (sel & Hsel & Hi).
  apply list_elem_of_In in Hsel, Hi. apply list_elem_of_lookup in Hsel as [j Hj].
  destruct (Forall2_lookup_r _ _ _ _ _ Hf Hj) as (dc & Hdc & [_ Hin]).
  apply list_elem_of_lookup_2 in Hdc. rewrite Forall_forall in Hok. rewrite Forall_forall in Hin.
  destruct (Hok dc Hdc) as [_ Hinfo]. rewrite Forall_forall in Hinfo.
  exists (dc_end dc). split; [|by apply Hinfo, Hin].
  eapply (sublist_subseteq _ _ Hsub). by apply list_elem_of_fmap_2.
Qed.

(** C34: the ONE-WAN solver ends for every outcome of its random draws, and
    answers with an error exactly when the start is on no edge or no
    destination is reachable over at most 15 edges.  Otherwise every path it
    returns is a simple path over the given edges of at most 15 hops to one of
    the destinations, with the sum of its latencies; every reachable
    destination gets a path, and there are at most two per destination. *)
Theorem ONEWAN_ComputingMulti_correct edges mp start ends pos : 0 < mp →
  let g := build_graph edges in
  match ONEWAN_ComputingMulti (NewONEWANSolver edges mp) start ends pos with
  | inl infos =>
      start ∈ build_nodes edges ∧ (∃ e, e ∈ ends ∧ reachable g start e) ∧
      length infos ≤ 2 * length ends ∧
      Forall (λ i, ∃ e, e ∈ ends ∧ info_ok g start e i) infos ∧
      ∀ e, e ∈ ends → reachable g start e → ∃ i, i ∈ infos ∧ info_ok g start e i
  | inr _ => (start ∉ build_nodes edges) ∨ ∀ e, e ∈ ends → ¬ reachable g start e
  end.
Proof.
  intros Hm g. pose proof (ONEWAN_run edges mp start ends pos Hm) as Hrun.
  destruct (ONEWAN_ComputingMulti _ _ _ _) as [infos|err]; [|done].
  destruct Hrun as (Hs & dcs & sels & -> & Hf & Hne & Hok & Hsub & Hall).
  split; [done|]. split; [|split; [|split]].
  - destruct dcs as [|dc dcs]; [done|]. apply Forall_cons in Hok as [[Hp Hdc] _].
    exists (dc_end dc). split.
    + eapply (sublist_subseteq _ _ Hsub). left.
    + destruct (dc_paths dc); [done|]. apply Forall_cons in Hdc as [(es & ? & _) _]. by exists es.
  - apply selection_length in Hf. apply sublist_length in Hsub. rewrite length_fmap in Hsub.
    unfold pathsPerDest in Hf. lia.
  - by eapply selected_infos.
  - intros e He Hr. specialize (Hall e He Hr).
    apply list_elem_of_fmap in Hall as (dc & -> & Hdc). rewrite Forall_forall in Hok.
    destruct (Hok dc Hdc) as [Hp Hinfo]. apply list_elem_of_lookup in Hdc as [j Hj].
    destruct (Forall2_lookup_l _ _ _ _ _ Hf Hj) as (sel & Hsel & [Hlen Hin]).
    destruct sel as [|i sel].
    { destruct (dc_paths dc); [done|]. unfold pathsPerDest in Hlen. simpl in Hlen. lia. }
    apply Forall_cons in Hin as [Hi _]. exists i. rewrite Forall_forall in Hinfo.
    split; [|by apply Hinfo]. apply list_elem_of_In, in_concat. exists (i :: sel).
    split; [|left; done]. by apply list_elem_of_In, list_elem_of_lookup_2 with j.
Qed.
End OneWAN.

Lemma ONEWAN_ComputingMulti_correct_witness : ∃ infos,
  ONEWAN_ComputingMulti (NewONEWANSolver (ks_edges diamond) 1) "a" ["d"; "x"] 0 = inl infos ∧
  (∃ i, i ∈ infos ∧ info_ok (build_graph (ks_edges diamond)) "a" "d" i).
Proof.
  pose proof (ONEWAN_ComputingMulti_correct (ks_edges diamond) 1 "a" ["d"; "x"] 0 (le_n 1)) as H.
  assert (reachable (build_graph (ks_edges diamond)) "a" "d") as Hr.
  { exists [mk_edge "a" "b" 1 1; mk_edge "b" "d" 1 1]. split; [|split; [|simpl; unfold dfsMaxHops; lia]].
    - constructor; [rewrite build_graph_spec; apply list_elem_of_filter; split; [done|left]|].
      constructor; [rewrite build_graph_spec; apply list_elem_of_filter; split; [done|right; left]|].
      constructor.
    - by apply (bool_decide_unpack _). }
  destruct (ONEWAN_ComputingMulti _ _ _ _) as [infos|err].
  - exists infos. split; [reflexivity|]. apply H; [left|exact Hr].
  - exfalso. destruct H as [H|H]; [|exact (H "d" (list_elem_of_here _ _) Hr)].
    apply H. by apply (bool_decide_unpack _).
Defined.
