(* ===== verification/Carousel.v ===== *)
(** * The carousel-greedy flow solver

    [control-plane/routing/core-domain/carousel-greed.go]: up to two flows per
    destination on a residual graph, found by depth-first search under a
    latency bound, then improved by removing the oldest path and searching a
    replacement, with the edges of frequent paths made less attractive.

    Every loop over a Go map and every random draw is indexed by a counter of
    choices ([tick]) that the functions thread, so each may come out
    differently. *)
From S2P Require Import Prelude Float64 FloatDiv GoHeap GoStrings Records KShortest KSearch KYen Random.
Local Open Scope go_scope.

(** ** The residual graph *)
Record EdgeFlow := {
  flow : float64;
  cap : float64;
  thetaA : float64;
  effCap : float64;
  banned : bool;
  residual : float64;
}.

Abbreviation resgraph := (gmap string (gmap string EdgeFlow)).

Definition updateResidual (ef : EdgeFlow) : EdgeFlow :=
  {| flow := flow ef; cap := cap ef; thetaA := thetaA ef; effCap := effCap ef;
     banned := banned ef; residual := fsub (effCap ef) (flow ef) |}.

Definition getReverseResidual (ef : EdgeFlow) : float64 := flow ef.

Definition set_flow (f : float64) (ef : EdgeFlow) : EdgeFlow :=
  {| flow := f; cap := cap ef; thetaA := thetaA ef; effCap := effCap ef;
     banned := banned ef; residual := residual ef |}.

Definition set_banned (b : bool) (ef : EdgeFlow) : EdgeFlow :=
  {| flow := flow ef; cap := cap ef; thetaA := thetaA ef; effCap := effCap ef;
     banned := b; residual := residual ef |}.

(** [g[from][to]], with nil maps for absent keys. *)
Definition edge_at (g : resgraph) (from to : string) : option EdgeFlow :=
  m ← g !! from; m !! to.

(** Updating the object behind [g[from][to]], if there is one. *)
Definition edge_upd (f : EdgeFlow → EdgeFlow) (from to : string) (g : resgraph) : resgraph :=
  match g !! from with
  | Some m => match m !! to with
              | Some ef => <[from := <[to := f ef]> m]> g
              | None => g
              end
  | None => g
  end.

Definition path_hops (path : list string) : list (string * string) := zip path (tail path).

Record FlowOptimizationSolver := {
  fs_edges : list Edge;
  fs_nodes : gmap string bool;
  fs_alpha : float64;
  beta : float64;
  capacity : float64;
  flowsPerDest : nat;
  Tu : float64;
  Uhot : float64;
  epsilon : float64;
  thetaLMap : gmap string float64;
  kspK : Z;
  latencyMap : gmap string float64;
}.

Definition NewFlowOptimizationSolver (edges : list Edge) : FlowOptimizationSolver :=
  {| fs_edges := edges;
     fs_nodes := foldl (λ m e, <[DestinationIp e := true]> (<[SourceIp e := true]> m)) ∅ edges;
     fs_alpha := f_of_Z 2; beta := f_of_frac 5 10; capacity := f0; flowsPerDest := 2;
     Tu := f_of_Z 60; Uhot := f0; epsilon := f_of_frac 1 1000; thetaLMap := ∅; kspK := 3;
     latencyMap := foldl (λ m e, <[SourceIp e +:+ "->" +:+ DestinationIp e := Latency e]> m) ∅ edges |}.

Record PathWithInfo := {
  pw_path : list string;
  pathStr : string;
  dest : string;
  pw_latency : float64;
}.

Record PathAccumulator := {
  pa_paths : gmap string PathWithInfo;
  pa_freq : gmap string Z;
}.

Definition NewPathAccumulator : PathAccumulator := {| pa_paths := ∅; pa_freq := ∅ |}.

Definition AddPath (pi : PathWithInfo) (pa : PathAccumulator) : PathAccumulator :=
  {| pa_paths := <[pathStr pi := pi]> (pa_paths pa);
     pa_freq := <[pathStr pi := (default 0 (pa_freq pa !! pathStr pi) + 1)%Z]> (pa_freq pa) |}.

Section Solver.
Context `{RO : RangeOrder} `{RS : RandSource}.

Definition GetMostFrequent (tick : nat) (pa : PathAccumulator) : option PathWithInfo :=
  (foldl (λ '(maxCnt, bestPath) p,
     if bool_decide (maxCnt < p.2)%Z then (p.2, pa_paths pa !! p.1) else (maxCnt, bestPath))
   (0%Z, None) (range_map tick (pa_freq pa))).2.

Section Methods.
Variable d : FlowOptimizationSolver.

Definition computeThetaA (cpuLoad : float64) : float64 :=
  let numerator := fsub cpuLoad (Tu d) in
  let numerator := if flt numerator f0 then f0 else numerator in
  let denominator := fsub (Uhot d) (Tu d) in
  let denominator := if flt denominator (epsilon d) then epsilon d else denominator in
  let U_prime := fdiv numerator denominator in
  let U_prime := if flt f1 U_prime then f1 else U_prime in
  fsub f1 U_prime.

(** The new entries of [thetaLMap]; [None] would be a path search that does
    not end. *)
Definition computeThetaLForDestinations (start : string) (ends : list string)
    : option (gmap string float64) :=
  let kspSolver := NewKShortestSolverWithLatency (fs_edges d) (kspK d) true in
  foldl (λ acc end_,
    m ← acc;
    r ← Computing kspSolver start end_;
    Some (match r with
          | inl (p :: ps) =>
              let paths := p :: ps in
              let totalLatency := fsum (Rtt <$> paths) in
              let avgLatency := fdiv totalLatency (f_of_nat (length paths)) in
              <[end_ := fmul avgLatency (f_of_frac 15 10)]> m
          | _ => <[end_ := f_of_Z 100]> m
          end)) (Some (thetaLMap d)) ends.

(** [loads[i]] for a signed index. *)
Definition load_at (loads : list float64) (i : Z) : go float64 :=
  if bool_decide (0 ≤ i)%Z then index loads (Z.to_nat i) else Panic "index out of range".

Definition computePercentile (percentile : float64) : go float64 :=
  if bool_decide (length (fs_edges d) = 0) then Ret f0
  else
    let loads := exchange_sort flt (Load <$> fs_edges d) in
    let idx := fmul (fdiv percentile (f_of_Z 100)) (f_of_Z (Z.of_nat (length loads) - 1)) in
    let lowerIndex := f_trunc idx in
    let upperIndex := (lowerIndex + 1)%Z in
    if bool_decide (Z.of_nat (length loads) ≤ upperIndex)%Z
    then load_at loads (Z.of_nat (length loads) - 1)
    else
      let fraction := fsub idx (f_of_Z lowerIndex) in
      let! lower := load_at loads lowerIndex in
      let! upper := load_at loads upperIndex in
      Ret (fadd lower (fmul fraction (fsub upper lower))).

Definition buildResidualGraphWithCapacity : resgraph :=
  foldl (λ g e,
    let thetaA := computeThetaA (Load e) in
    let effCap := fmul thetaA (capacity d) in
    let ef := {| flow := f0; cap := capacity d; thetaA := thetaA; effCap := effCap;
                 banned := false; residual := effCap |} in
    <[SourceIp e := <[DestinationIp e := ef]> (default ∅ (g !! SourceIp e))]> g)
    ∅ (fs_edges d).

Definition getEdgeLatency (from to : string) : float64 :=
  default f_max (latencyMap d !! (from +:+ "->" +:+ to)).

(** ** The search *)
Record edgeInfo := {
  ei_to : string;
  ei_cost : float64;
  ei_isRev : bool;
}.

Definition bannedPenalty : float64 := f_of_Z 100.

Definition with_penalty (ef : EdgeFlow) (c : float64) : float64 :=
  if banned ef then fadd c bannedPenalty else c.

Definition edge_less (a b : edgeInfo) : bool := flt (ei_cost a) (ei_cost b).

Definition forward_edges (tick : nat) (g : resgraph) (u : string) : list edgeInfo :=
  omap (λ p : string * EdgeFlow,
    if flt f0 (residual p.2)
    then Some {| ei_to := p.1; ei_cost := with_penalty p.2 (getEdgeLatency u p.1); ei_isRev := false |}
    else None) (range_map tick (default ∅ (g !! u))).

Definition backward_edges (tick : nat) (g : resgraph) (u : string) : list edgeInfo :=
  omap (λ p : string * bool,
    if bool_decide (p.1 ≠ u) then
      match edge_at g p.1 u with
      | Some revEf =>
          if flt f0 (getReverseResidual revEf)
          then Some {| ei_to := p.1; ei_cost := with_penalty revEf f0; ei_isRev := true |}
          else None
      | None => None
      end
    else None) (range_map tick (fs_nodes d)).

Definition getSortedEdges (tick : nat) (g : resgraph) (u : string) : list edgeInfo :=
  exchange_sort edge_less (forward_edges tick g u ++ backward_edges (S tick) g u).

(** The variables captured by the closure [dfs]. *)
Record dfs_state := {
  c_visited : gset string;
  c_path : list string;
  bestPath : option (list string);
  bestLatency : float64;
  c_tick : nat;
}.

Section Dfs.
Context (g : resgraph) (t : string) (thetaL : float64) (usedPaths : gset string).
Context (optimize randomize : bool).

Definition c_enter (u : string) (st : dfs_state) : dfs_state :=
  {| c_visited := {[u]} ∪ c_visited st; c_path := c_path st ++ [u];
     bestPath := bestPath st; bestLatency := bestLatency st; c_tick := c_tick st |}.

Definition c_leave (u : string) (st : dfs_state) : dfs_state :=
  {| c_visited := c_visited st ∖ {[u]}; c_path := removelast (c_path st);
     bestPath := bestPath st; bestLatency := bestLatency st; c_tick := c_tick st |}.

Definition set_best (p : list string) (l : float64) (st : dfs_state) : dfs_state :=
  {| c_visited := c_visited st; c_path := c_path st;
     bestPath := Some p; bestLatency := l; c_tick := c_tick st |}.

Definition set_tick (n : nat) (st : dfs_state) : dfs_state :=
  {| c_visited := c_visited st; c_path := c_path st;
     bestPath := bestPath st; bestLatency := bestLatency st; c_tick := n |}.

(** Reaching the target. *)
Definition dfs_target (u : string) (currentLatency : float64) (st : dfs_state) : dfs_state * bool :=
  if fle currentLatency thetaL then
    let tempPath := c_path st ++ [u] in
    if optimize then
      (if flt currentLatency (bestLatency st) && negb (bool_decide (Join tempPath "->" ∈ usedPaths))
       then set_best tempPath currentLatency st else st, false)
    else (set_best tempPath currentLatency st, true)
  else (st, false).

(** The loop over the edges; [rec] is the recursive call. *)
Fixpoint dfs_edges (rec : string → float64 → dfs_state → dfs_state * bool)
    (currentLatency : float64) (edges : list edgeInfo) (found : bool) (st : dfs_state)
    : dfs_state * bool :=
  match edges with
  | [] => (st, found)
  | ei :: edges =>
      let next := fadd currentLatency (ei_cost ei) in
      if bool_decide (ei_to ei ∈ c_visited st) then dfs_edges rec currentLatency edges found st
      else if optimize && fle (bestLatency st) next then dfs_edges rec currentLatency edges found st
      else if flt thetaL next then dfs_edges rec currentLatency edges found st
      else
        let '(st, ok) := rec (ei_to ei) next st in
        if ok then (if optimize then dfs_edges rec currentLatency edges true st else (st, true))
        else dfs_edges rec currentLatency edges found st
  end.

Definition maxHops : nat := 30.

(** The path grows with every call, so [maxHops + 1] is enough fuel. *)
Fixpoint dfs (fuel : nat) (u : string) (currentLatency : float64) (st : dfs_state)
    : dfs_state * bool :=
  match fuel with
  | 0 => (st, false)
  | S fuel =>
      if bool_decide (maxHops ≤ length (c_path st)) then (st, false)
      else if bool_decide (u = t) then dfs_target u currentLatency st
      else
        let st := c_enter u st in
        let sortedEdges := getSortedEdges (c_tick st) g u in
        let tick := S (S (c_tick st)) in
        let '(tick, sortedEdges) :=
          if randomize then shuffle tick sortedEdges else (tick, sortedEdges) in
        let '(st, found) := dfs_edges (dfs fuel) currentLatency sortedEdges false (set_tick tick st) in
        (c_leave u st, found)
  end.

Definition dfsPathSearch (s : string) (tick : nat) : option (list string * float64) * nat :=
  let '(st, _) := dfs (S maxHops) s f0
    {| c_visited := ∅; c_path := []; bestPath := None; bestLatency := fadd thetaL f1; c_tick := tick |} in
  (match bestPath st with
   | Some p => Some (p, bestLatency st)
   | None => None
   end, c_tick st).
End Dfs.

Definition findFeasiblePathWithLatency (g : resgraph) (s t : string) (usedPaths : gset string)
    (attempt tick : nat) : option PathWithInfo * nat :=
  match g !! s with
  | None => (None, tick)
  | Some _ =>
      let thetaL := default (f_of_Z 100) (thetaLMap d !! t) in
      let '(found, tick) :=
        if bool_decide (attempt ≤ 1) then dfsPathSearch g t thetaL usedPaths true false s tick
        else dfsPathSearch g t thetaL usedPaths false true s tick in
      (match found with
       | Some (p, l) =>
           Some {| pw_path := p; pathStr := Join p "|"; dest := t; pw_latency := l |}
       | None => None
       end, tick)
  end.

(** ** Flow *)
Definition allocateFlow (path : list string) (f : float64) (g : resgraph) : resgraph :=
  foldl (λ g h, edge_upd (λ ef, updateResidual (set_flow (fadd (flow ef) f) ef)) h.1 h.2 g)
    g (path_hops path).

Definition release_edge (f : float64) (ef : EdgeFlow) : EdgeFlow :=
  let nf := fsub (flow ef) f in
  let nf := if flt nf f0 then f0 else nf in
  updateResidual (set_flow nf ef).

Definition releaseFlow (path : list string) (f : float64) (g : resgraph) : resgraph :=
  foldl (λ g h, edge_upd (release_edge f) h.1 h.2 g) g (path_hops path).

Definition banEdge (from to : string) (g : resgraph) : resgraph := edge_upd (set_banned true) from to g.

Definition banPathEdges (path : list string) (g : resgraph) : resgraph :=
  foldl (λ g h, banEdge h.1 h.2 g) g (path_hops path).

Definition unbanAllEdges (g : resgraph) : resgraph :=
  (λ m : gmap string EdgeFlow, set_banned false <$> m) <$> g.

(** ** The objective *)
Definition edge_congestion (g : resgraph) (total : float64) (h : string * string) : float64 :=
  match edge_at g h.1 h.2 with
  | Some ef =>
      if flt f0 (effCap ef) then fadd total (fsub f1 (fdiv (residual ef) (effCap ef))) else total
  | None => total
  end.

Definition objective (tick : nat) (lst : list PathWithInfo) (g : resgraph) : float64 :=
  if bool_decide (length lst = 0) then f0
  else
    let hs := lst ≫= (λ pi, path_hops (pw_path pi)) in
    let edgeUsage : gmap string Z :=
      foldl (λ m h, let k := h.1 +:+ "->" +:+ h.2 in <[k := (default 0 (m !! k) + 1)%Z]> m) ∅ hs in
    let totalLatency := fsum (pw_latency <$> lst) in
    let totalCongestion := foldl (edge_congestion g) f0 hs in
    let diversityScore :=
      foldl (λ acc p, fadd acc (fdiv f1 (f_of_Z p.2))) f0 (range_map tick edgeUsage) in
    let pathCount := f_of_nat (length lst) in
    let latencyPenalty := fmul totalLatency (f_of_frac 1 10) in
    let congestionPenalty := fmul totalCongestion f1 in
    fsub (fsub (fadd (fmul pathCount (f_of_Z 10)) (fmul diversityScore f1)) latencyPenalty)
      congestionPenalty.

Definition copyPathList (l : list PathWithInfo) : list PathWithInfo :=
  (λ pi, {| pw_path := pw_path pi; pathStr := pathStr pi; dest := dest pi;
            pw_latency := pw_latency pi |}) <$> l.

(** ** The optimisation *)
Record cg_state := {
  resGraph : resgraph;
  allPaths : list PathWithInfo;
  destFlowCount : gmap string Z;
  usedPaths : gset string;
  accumulator : PathAccumulator;
  bestPaths : list PathWithInfo;
  bestScore : float64;
  cg_tick : nat;
}.

Definition pathToString (path : list string) : string := Join path "->".
Definition flow_count (m : gmap string Z) (end_ : string) : Z := default 0%Z (m !! end_).

Definition with_tick (n : nat) (st : cg_state) : cg_state :=
  {| resGraph := resGraph st; allPaths := allPaths st; destFlowCount := destFlowCount st;
     usedPaths := usedPaths st; accumulator := accumulator st; bestPaths := bestPaths st;
     bestScore := bestScore st; cg_tick := n |}.

Definition with_graph (g : resgraph) (st : cg_state) : cg_state :=
  {| resGraph := g; allPaths := allPaths st; destFlowCount := destFlowCount st;
     usedPaths := usedPaths st; accumulator := accumulator st; bestPaths := bestPaths st;
     bestScore := bestScore st; cg_tick := cg_tick st |}.

(** A new path: appended, marked as used, counted and allocated one unit. *)
Definition add_path (end_ : string) (pi : PathWithInfo) (st : cg_state) : cg_state :=
  {| resGraph := allocateFlow (pw_path pi) f1 (resGraph st);
     allPaths := allPaths st ++ [pi];
     destFlowCount := <[end_ := (flow_count (destFlowCount st) end_ + 1)%Z]> (destFlowCount st);
     usedPaths := {[pathToString (pw_path pi)]} ∪ usedPaths st;
     accumulator := accumulator st; bestPaths := bestPaths st; bestScore := bestScore st;
     cg_tick := cg_tick st |}.

(** The oldest path: released, uncounted, unmarked and removed. *)
Definition remove_path (pi : PathWithInfo) (rest : list PathWithInfo) (st : cg_state) : cg_state :=
  {| resGraph := releaseFlow (pw_path pi) f1 (resGraph st);
     allPaths := rest;
     destFlowCount := <[dest pi := (flow_count (destFlowCount st) (dest pi) - 1)%Z]> (destFlowCount st);
     usedPaths := usedPaths st ∖ {[pathToString (pw_path pi)]};
     accumulator := accumulator st; bestPaths := bestPaths st; bestScore := bestScore st;
     cg_tick := cg_tick st |}.

(** The attempts for one destination: [i] paths found, [attemptCount] attempts
    made; [flowsPerDest * 10 + 1] turns are enough. *)
Fixpoint initial_paths (fuel : nat) (start end_ : string) (i attemptCount : nat) (st : cg_state)
    : cg_state :=
  match fuel with
  | 0 => st
  | S fuel =>
      if bool_decide (i < flowsPerDest d) then
        let attemptCount := S attemptCount in
        if bool_decide (flowsPerDest d * 10 < attemptCount) then st
        else
          let '(found, tick) := findFeasiblePathWithLatency (resGraph st) start end_ (usedPaths st)
                                  attemptCount (cg_tick st) in
          let st := with_tick tick st in
          match found with
          | None => st
          | Some pathInfo =>
              if bool_decide (pathToString (pw_path pathInfo) ∈ usedPaths st)
              then initial_paths fuel start end_ i attemptCount st
              else initial_paths fuel start end_ (S i) attemptCount (add_path end_ pathInfo st)
          end
      else st
  end.

Definition initial_search (start : string) (validEnds : list string) (st : cg_state) : cg_state :=
  foldl (λ st end_, initial_paths (S (flowsPerDest d * 10)) start end_ 0 0 st) st validEnds.

(** [n] times: remove the oldest path, while there is one. *)
Fixpoint remove_oldest (n : nat) (st : cg_state) : cg_state :=
  match n, allPaths st with
  | S n, pi :: rest => remove_oldest n (remove_path pi rest st)
  | _, _ => st
  end.

(** The search for a replacement over the shuffled destinations, in iteration
    [i] (counted from 0). *)
Fixpoint replace_path (start : string) (i : nat) (ends : list string) (st : cg_state) : cg_state :=
  match ends with
  | [] => st
  | end_ :: ends =>
      if bool_decide (Z.of_nat (flowsPerDest d) ≤ flow_count (destFlowCount st) end_)%Z
      then replace_path start i ends st
      else
        let '(found, tick) := findFeasiblePathWithLatency (resGraph st) start end_ (usedPaths st)
                                (S i) (cg_tick st) in
        let st := with_tick tick st in
        match found with
        | None => replace_path start i ends st
        | Some pi =>
            if bool_decide (pathToString (pw_path pi) ∈ usedPaths st)
            then replace_path start i ends st
            else
              let st := add_path end_ pi st in
              {| resGraph := resGraph st; allPaths := allPaths st; destFlowCount := destFlowCount st;
                 usedPaths := usedPaths st; accumulator := AddPath pi (accumulator st);
                 bestPaths := bestPaths st; bestScore := bestScore st; cg_tick := cg_tick st |}
        end
  end.

(** Banning the frequent path and the first edge of the removed one. *)
Definition ban_edges (oldest : PathWithInfo) (st : cg_state) : cg_state :=
  let g := match GetMostFrequent (cg_tick st) (accumulator st) with
           | Some freqPathInfo => banPathEdges (pw_path freqPathInfo) (resGraph st)
           | None => resGraph st
           end in
  let g := match pw_path oldest with
           | a :: b :: _ => banEdge a b g
           | _ => g
           end in
  with_tick (S (cg_tick st)) (with_graph g st).

Definition update_best (st : cg_state) : cg_state :=
  if bool_decide (0 < length (allPaths st)) then
    let currentScore := objective (cg_tick st) (allPaths st) (resGraph st) in
    let st := with_tick (S (cg_tick st)) st in
    if flt (bestScore st) currentScore then
      {| resGraph := resGraph st; allPaths := allPaths st; destFlowCount := destFlowCount st;
         usedPaths := usedPaths st; accumulator := accumulator st;
         bestPaths := copyPathList (allPaths st); bestScore := currentScore; cg_tick := cg_tick st |}
    else st
  else st.

Definition iteration (start : string) (validEnds : list string) (i : nat) (oldest : PathWithInfo)
    (rest : list PathWithInfo) (st : cg_state) : cg_state :=
  let st := remove_path oldest rest st in
  let st := ban_edges oldest st in
  let '(tick, shuffledEnds) := shuffle (cg_tick st) validEnds in
  let st := replace_path start i shuffledEnds (with_tick tick st) in
  let st := with_graph (unbanAllEdges (resGraph st)) st in
  update_best st.

(** [n] iterations are left, the next one is number [i]. *)
Fixpoint optimise (n : nat) (start : string) (validEnds : list string) (i : nat) (st : cg_state)
    : cg_state :=
  match n, allPaths st with
  | S n, oldest :: rest =>
      optimise n start validEnds (S i) (iteration start validEnds i oldest rest st)
  | _, _ => st
  end.

Definition init_state (g : resgraph) (tick : nat) : cg_state :=
  {| resGraph := g; allPaths := []; destFlowCount := ∅; usedPaths := ∅;
     accumulator := NewPathAccumulator; bestPaths := []; bestScore := f0; cg_tick := tick |}.

(** The history and the incumbent after the initial search. *)
Definition record_initial (st : cg_state) : cg_state :=
  {| resGraph := resGraph st; allPaths := allPaths st; destFlowCount := destFlowCount st;
     usedPaths := usedPaths st;
     accumulator := foldl (λ pa pi, AddPath pi pa) NewPathAccumulator (allPaths st);
     bestPaths := copyPathList (allPaths st);
     bestScore := objective (cg_tick st) (allPaths st) (resGraph st);
     cg_tick := S (cg_tick st) |}.

(** Steps 1 to 11 of [ComputingMulti], once the parameters are set. *)
Definition carousel (start : string) (validEnds : list string) (tick : nat)
    : list PathInfo + string :=
  let st := initial_search start validEnds (init_state buildResidualGraphWithCapacity tick) in
  if bool_decide (length (allPaths st) = 0) then inr "no feasible path found"
  else
    let initialSize := length (allPaths st) in
    let st := record_initial st in
    let removeNum := f_trunc (fmul (beta d) (f_of_nat initialSize)) in
    let st := remove_oldest (Z.to_nat removeNum) st in
    let maxIter := f_trunc (fmul (fs_alpha d) (f_of_nat initialSize)) in
    let st := optimise (Z.to_nat maxIter) start validEnds 0 st in
    inl ((λ pi, {| Hops := pw_path pi; Rtt := pw_latency pi; RawRTT := pw_latency pi |})
           <$> bestPaths st).
End Methods.

Definition set_params (cap uhot : float64) (theta : gmap string float64) (d : FlowOptimizationSolver)
    : FlowOptimizationSolver :=
  {| fs_edges := fs_edges d; fs_nodes := fs_nodes d; fs_alpha := fs_alpha d; beta := beta d;
     capacity := cap; flowsPerDest := flowsPerDest d; Tu := Tu d; Uhot := uhot;
     epsilon := epsilon d; thetaLMap := theta; kspK := kspK d; latencyMap := latencyMap d |}.

Definition Flow_ComputingMulti (d : FlowOptimizationSolver) (start : string) (ends : list string)
    (tick : nat) : option (go (list PathInfo + string)) :=
  if bool_decide (length ends = 0) then Some (Ret (inr "no destinations provided"))
  else
    let nodes := build_nodes (fs_edges d) in
    if negb (bool_decide (start ∈ nodes)) then Some (Ret (inr "start node not found in graph"))
    else
      let validEnds := filter (λ e, e ∈ nodes) ends in
      if bool_decide (length validEnds = 0) then Some (Ret (inr "no valid destinations found in graph"))
      else
        let cap := f_of_Z (Z.of_nat (length validEnds * flowsPerDest d)) in
        match computePercentile d (f_of_Z 90) with
        | Panic w => Some (Panic w)
        | Ret uhot =>
            theta ← computeThetaLForDestinations d start validEnds;
            Some (Ret (carousel (set_params cap uhot theta d) start validEnds tick))
        end.
End Solver.
