(* ===== verification/CarouselSearch.v ===== *)
(** * The search of the carousel solver is sound and complete

    [dfsPathSearch] returns a simple walk of the residual graph within the
    latency bound and the hop limit; it returns nothing only when there is
    none; and in its optimising mode the walk it returns is a fastest one among
    those that are not in use. *)
From S2P Require Import Prelude Float64 FloatDiv GoHeap GoStrings Records KShortest Random Carousel.

Section Search.
Context `{RO : RangeOrder} `{RS : RandSource}.
Context (d : FlowOptimizationSolver) (g : resgraph).

(** A step of the residual graph: a forward edge with residual capacity, or
    backwards over an edge that carries flow. *)
Inductive residual_step (u v : string) : float64 → Prop :=
| step_forward ef :
    edge_at g u v = Some ef → flt f0 (residual ef) = true →
    residual_step u v (with_penalty ef (getEdgeLatency d u v))
| step_backward ef :
    v ≠ u → is_Some (fs_nodes d !! v) → edge_at g v u = Some ef →
    flt f0 (flow ef) = true → residual_step u v (with_penalty ef f0).

Lemma forward_elem tick u ei : ei ∈ forward_edges d tick g u ↔
  ∃ ef, edge_at g u (ei_to ei) = Some ef ∧ flt f0 (residual ef) = true ∧
    ei = {| ei_to := ei_to ei; ei_cost := with_penalty ef (getEdgeLatency d u (ei_to ei));
            ei_isRev := false |}.
Proof.
  unfold forward_edges. rewrite list_elem_of_omap. split.
  - intros ([v ef] & Hin%range_map_elem & H). simpl in H.
    destruct (flt f0 (residual ef)) eqn:E; simplify_eq. exists ef. simpl.
    split; [|done]. unfold edge_at. destruct (g !! u); simpl in *; [done|].
    by rewrite lookup_empty in Hin.
  - intros (ef & He & Hr & E). exists (ei_to ei, ef). split.
    + apply range_map_elem. unfold edge_at in He. destruct (g !! u); [done|done].
    + simpl. by rewrite Hr, <-E.
Qed.

Lemma backward_elem tick u ei : ei ∈ backward_edges d tick g u ↔
  ∃ ef, ei_to ei ≠ u ∧ is_Some (fs_nodes d !! ei_to ei) ∧ edge_at g (ei_to ei) u = Some ef ∧
    flt f0 (flow ef) = true ∧
    ei = {| ei_to := ei_to ei; ei_cost := with_penalty ef f0; ei_isRev := true |}.
Proof.
  unfold backward_edges. rewrite list_elem_of_omap. split.
  - intros ([v b] & Hin%range_map_elem & H). simpl in H. case_bool_decide as Hne; [|done].
    destruct (edge_at g v u) as [ef|] eqn:E; [|done].
    destruct (flt f0 (getReverseResidual ef)) eqn:F; simplify_eq. exists ef. simpl. eauto 10.
  - intros (ef & Hne & [b Hb] & He & Hf & E). exists (ei_to ei, b). split; [by apply range_map_elem|].
    simpl. rewrite bool_decide_eq_true_2, He by done. unfold getReverseResidual.
    by rewrite Hf, <-E.
Qed.

(** The edges a call explores are the steps of the residual graph, in whatever
    order the maps are visited. *)
Lemma sorted_edges_step tick u ei :
  ei ∈ getSortedEdges d tick g u → residual_step u (ei_to ei) (ei_cost ei).
Proof.
  unfold getSortedEdges. rewrite exchange_sort_perm, elem_of_app.
  intros [(ef & He & Hr & ->)%forward_elem|(ef & Hne & Hn & He & Hf & ->)%backward_elem]; simpl.
  - by constructor.
  - by constructor.
Qed.

Lemma step_sorted_edges tick u v c : residual_step u v c →
  ∃ ei, ei ∈ getSortedEdges d tick g u ∧ ei_to ei = v ∧ ei_cost ei = c.
Proof.
  unfold getSortedEdges. intros [ef He Hr|ef Hne Hn He Hf].
  - exists {| ei_to := v; ei_cost := with_penalty ef (getEdgeLatency d u v); ei_isRev := false |}.
    rewrite exchange_sort_perm, elem_of_app, forward_elem. split; [|done]. left. by exists ef.
  - exists {| ei_to := v; ei_cost := with_penalty ef f0; ei_isRev := true |}.
    rewrite exchange_sort_perm, elem_of_app, backward_elem. split; [|done]. right. by exists ef.
Qed.

(** [ext u l hs v l']: the steps over the nodes [hs] lead from [u], reached at
    latency [l], to [v] at latency [l']. *)
Inductive ext : string → float64 → list string → string → float64 → Prop :=
| ext_nil u l : ext u l [] u l
| ext_cons u l v c hs w l' :
    residual_step u v c → ext v (fadd l c) hs w l' → ext u l (v :: hs) w l'.

(** A walk from [s] to [t] with its latency. *)
Definition walk (s t : string) (p : list string) (l : float64) : Prop :=
  ∃ hs, p = s :: hs ∧ ext s f0 hs t l.

Lemma ext_app u l hs v l' hs' w l'' : ext u l hs v l' → ext v l' hs' w l'' → ext u l (hs ++ hs') w l''.
Proof. induction 1; simpl; [done|]. intros. econstructor; eauto. Qed.

Lemma ext_last u l hs v l' : ext u l hs v l' → last (u :: hs) = Some v.
Proof.
  induction 1 as [|u l v c hs w l' Hs He IH]; [done|]. rewrite last_cons_cons. done.
Qed.

Context (s t : string) (thetaL : float64) (used : gset string) (optimize randomize : bool).
Local Abbreviation dfs := (dfs d g t thetaL used optimize randomize).
Local Abbreviation dfs_edges := (dfs_edges thetaL optimize).

(** The costs are non-negative numbers. *)
Hypothesis Hcost : ∀ u v c, residual_step u v c → f_nonneg c = true.

Lemma ext_le u l hs v l' : f_nonneg l = true → ext u l hs v l' → fle l l' = true.
Proof.
  intros Hl He. induction He as [|u l v c hs w l' Hs He IH]; [by apply fle_refl, f_nonneg_num|].
  eapply fle_trans; [by apply (fadd_nonneg_l l c); [|eapply Hcost]|].
  apply IH, fadd_nonneg_closed; [done|by eapply Hcost].
Qed.

(** A walk the caller can use. *)
Definition feasible (p : list string) (l : float64) : Prop :=
  NoDup p ∧ length p ≤ maxHops ∧ fle l thetaL = true ∧
  (optimize = true → Join p "->" ∉ used).

Definition best_ok (st : dfs_state) : Prop :=
  ∀ p, bestPath st = Some p → walk s t p (bestLatency st) ∧ feasible p (bestLatency st).

(** The state between calls, with [hs] the current path. *)
Definition dfs_wf (hs : list string) (st : dfs_state) : Prop :=
  c_path st = hs ∧ (∀ x, x ∈ c_visited st ↔ x ∈ hs) ∧ best_ok st.

(** When optimising, the best latency is a number (so is the initial one, but
    for a bound that is not). *)
Definition num_ok (st : dfs_state) : Prop :=
  optimize = true → is_num (bestLatency st) = true.

(** The best latency only improves. *)
Definition improves (st st' : dfs_state) : Prop :=
  optimize = true → is_num (bestLatency st) = true →
    fle (bestLatency st') (bestLatency st) = true ∧
    (bestPath st' = None → bestPath st = None ∧ bestLatency st' = bestLatency st).

(** A feasible walk is covered by the outcome of a search: it is no better
    than the best one, or (without optimising) the search succeeded. *)
Definition covered (st' : dfs_state) (found : bool) (l : float64) : Prop :=
  if optimize then fle (bestLatency st') l = true else found = true.

(** What a call on [u] with path [hs] returns. *)
Definition dfs_post (fuel : nat) (hs : list string) (u : string) (lat : float64)
    (st : dfs_state) (r : dfs_state * bool) : Prop :=
  dfs_wf hs r.1 ∧ improves st r.1 ∧ (optimize = false → r.2 = true → is_Some (bestPath r.1)) ∧
  (num_ok st → maxHops < fuel + length hs → ∀ rest l, ext u lat rest t l →
     feasible (hs ++ u :: rest) l → covered r.1 r.2 l).

Lemma improves_refl st : improves st st.
Proof. intros Ho Hn. split; [|done]. by apply fle_refl. Qed.

Lemma improves_num st st' : improves st st' → num_ok st → num_ok st'.
Proof. intros Hi Hn Ho. destruct (Hi Ho (Hn Ho)) as [H _]. by apply fle_num in H as [? _]. Qed.

Lemma improves_trans st1 st2 st3 : improves st1 st2 → improves st2 st3 → improves st1 st3.
Proof.
  intros H1 H2 Ho Hn. destruct (H1 Ho Hn) as [A1 A2].
  destruct (H2 Ho) as [B1 B2]; [by apply fle_num in A1 as [? _]|]. split.
  - by eapply fle_trans.
  - intros He. destruct (B2 He) as [C1 C2]. destruct (A2 C1) as [D1 D2]. split; [done|]. congruence.
Qed.

(** A walk leads to [u] over the current path. *)
Definition at_node (hs : list string) (u : string) (lat : float64) : Prop :=
  f_nonneg lat = true ∧ NoDup (hs ++ [u]) ∧ walk s u (hs ++ [u]) lat.

Lemma at_node_step hs u lat v c :
  at_node hs u lat → residual_step u v c → (v ∉ hs ++ [u]) →
  at_node (hs ++ [u]) v (fadd lat c).
Proof.
  intros (Hl & Hnd & ws & Hw & He) Hs Hv. split; [|split].
  - apply fadd_nonneg_closed; [done|by eapply Hcost].
  - apply NoDup_app. split; [done|]. split; [|apply NoDup_singleton].
    by intros x Hx ->%list_elem_of_singleton.
  - exists (ws ++ [v]). rewrite Hw. split; [done|].
    eapply ext_app; [exact He|]. econstructor; [done|constructor].
Qed.

(** ** Reaching the target *)
Lemma dfs_target_post fuel hs lat st :
  dfs_wf hs st → at_node hs t lat → length hs < maxHops →
  dfs_post fuel hs t lat st (dfs_target thetaL used optimize t lat st).
Proof.
  intros Hwf0 (Hl & Hnd & Hw) Hlen. pose proof Hwf0 as (Hp & Hv & Hb).
  assert (∀ rest l, ext t lat rest t l → feasible (hs ++ t :: rest) l → rest = [] ∧ l = lat) as Hend.
  { intros rest l He (Hnd' & _). destruct rest as [|x rest]; [by inversion He|]. exfalso.
    apply ext_last in He. apply NoDup_app in Hnd' as (_ & _ & Hnd').
    apply NoDup_cons in Hnd' as [Hni _]. apply Hni. rewrite last_cons_cons in He.
    by apply last_Some_elem_of in He. }
  unfold dfs_target. destruct (fle lat thetaL) eqn:Et; cycle 1.
  { split; [done|]. split; [apply improves_refl|]. split; [done|].
    intros Hn _ rest l He Hf. destruct (Hend rest l He Hf) as [-> ->].
    destruct Hf as (_ & _ & Hf & _). congruence. }
  assert (length (hs ++ [t]) ≤ maxHops) as Hlen' by (rewrite length_app; simpl; lia).
  unfold dfs_post. rewrite Hp. destruct optimize eqn:Ho.
  - destruct (flt lat (bestLatency st)) eqn:Elt; simpl; cycle 1.
    { split; [done|]. split; [apply improves_refl|]. split; [done|].
      intros Hn _ rest l He Hf. destruct (Hend rest l He Hf) as [-> ->]. unfold covered. rewrite Ho.
      apply fnot_lt_le; [by apply f_nonneg_num|by apply Hn|done]. }
    case_bool_decide as Hu; simpl.
    { split; [done|]. split; [apply improves_refl|]. split; [done|].
      intros Hn _ rest l He Hf. destruct (Hend rest l He Hf) as [-> ->].
      destruct Hf as (_ & _ & _ & Hf). by destruct Hf. }
    assert (dfs_wf hs (set_best (hs ++ [t]) lat st)) as Hwf.
    { split; [done|]. split; [done|].
      intros p [= <-]. simpl. split; [done|]. split; [done|]. split; [done|]. split; [done|]. done. }
    split; [done|]. split; [|split; [done|]].
    + intros _ _. simpl. split; [by apply flt_le|done].
    + intros Hn _ rest l He Hf. destruct (Hend rest l He Hf) as [-> ->]. unfold covered. rewrite Ho.
      simpl. by apply fle_refl, f_nonneg_num.
  - simpl. split; [|split; [by intros ?; congruence|split; [eauto|]]].
    + split; [done|]. split; [done|].
      intros p [= <-]. simpl. split; [done|]. split; [done|]. split; [done|]. split; [done|].
      intros ?; congruence.
    + intros _ _ rest l _ _. unfold covered. by rewrite Ho.
Qed.

(** ** The loop over the edges *)
Lemma covered_later st st' found found' l : improves st st' → num_ok st →
  (optimize = false → found = false) → covered st found l → covered st' found' l.
Proof.
  unfold covered. intros Hi Hn Hf. destruct optimize eqn:Ho.
  - intros Hc. destruct (Hi Ho (Hn Ho)) as [H1 _]. by eapply fle_trans.
  - intros Hc. rewrite Hf in Hc by done. discriminate.
Qed.

(** What the loop over the edges [es] of [u] returns, for a recursive call with
    [fuel]. *)
Definition edges_post (fuel : nat) (hs : list string) (lat : float64) (es : list edgeInfo)
    (st : dfs_state) (r : dfs_state * bool) : Prop :=
  dfs_wf hs r.1 ∧ improves st r.1 ∧ (optimize = false → r.2 = true → is_Some (bestPath r.1)) ∧
  (num_ok st → maxHops < fuel + length hs → ∀ ei rest l, ei ∈ es →
     ext (ei_to ei) (fadd lat (ei_cost ei)) rest t l →
     feasible (hs ++ ei_to ei :: rest) l → covered r.1 r.2 l).

(** Skipping an edge is fine when no feasible walk starts with it. *)
Lemma edges_post_skip fuel hs lat ei es st r :
  edges_post fuel hs lat es st r →
  (num_ok st → ∀ rest l, ext (ei_to ei) (fadd lat (ei_cost ei)) rest t l →
     feasible (hs ++ ei_to ei :: rest) l → covered st false l) →
  edges_post fuel hs lat (ei :: es) st r.
Proof.
  intros (I1 & I2 & I3 & I5) Hc. split; [done|]. split; [done|]. split; [done|].
  intros Hn En ei' rest l [->|Hin]%elem_of_cons He Hf; [|by eapply I5].
  eapply covered_later; [exact I2|exact Hn|reflexivity|by eapply Hc].
Qed.

(** After a recursive call on the first edge, the loop goes on from its result. *)
Lemma edges_post_next fuel hs lat ei es st st1 ok r :
  dfs_post fuel hs (ei_to ei) (fadd lat (ei_cost ei)) st (st1, ok) →
  edges_post fuel hs lat es st1 r → (optimize = false → ok = false) →
  edges_post fuel hs lat (ei :: es) st r.
Proof.
  intros (R1 & R2 & R3 & R5) (I1 & I2 & I3 & I5) Hno. simpl in *.
  split; [done|]. split; [by eapply improves_trans|]. split; [done|].
  intros Hn En ei' rest l [->|Hin]%elem_of_cons He Hf; [|eapply I5; eauto using improves_num].
  eapply covered_later; [exact I2|by eapply improves_num|exact Hno|]. by eapply R5.
Qed.

Lemma dfs_edges_post rec fuel hs u lat es found st :
  (∀ v lat' st', dfs_wf (hs ++ [u]) st' → at_node (hs ++ [u]) v lat' →
     dfs_post fuel (hs ++ [u]) v lat' st' (rec v lat' st')) →
  at_node hs u lat → (∀ ei, ei ∈ es → residual_step u (ei_to ei) (ei_cost ei)) →
  dfs_wf (hs ++ [u]) st → (optimize = false → found = false) →
  edges_post fuel (hs ++ [u]) lat es st (dfs_edges rec lat es found st).
Proof.
  intros Hrec Hat. revert found st. induction es as [|ei es IH]; intros found st Hes Hwf Hno;
    cbn [Carousel.dfs_edges].
  { split; [done|]. split; [apply improves_refl|].
    split; [intros Ho Hf; simpl in Hf; rewrite Hno in Hf by done; discriminate|].
    by intros _ _ ei rest l ?%not_elem_of_nil. }
  assert (∀ ei', ei' ∈ es → residual_step u (ei_to ei') (ei_cost ei')) as Hes' by (intros; apply Hes; by right).
  assert (residual_step u (ei_to ei) (ei_cost ei)) as Hei by (apply Hes; left).
  pose proof Hwf as (Hp & Hv & Hb). case_bool_decide as Hvis.
  { apply edges_post_skip; [by apply IH|]. intros _ rest l He (Hnd & _). exfalso.
    apply NoDup_app in Hnd as (_ & Hnd & _). apply (Hnd (ei_to ei)); [by apply Hv|left]. }
  assert (ei_to ei ∉ hs ++ [u]) as Hnew by (by rewrite <-Hv).
  pose proof (at_node_step hs u lat _ _ Hat Hei Hnew) as Hat'. pose proof Hat' as (Hnn & _ & _).
  destruct (optimize && fle (bestLatency st) (fadd lat (ei_cost ei))) eqn:Eprune.
  { apply edges_post_skip; [by apply IH|]. apply andb_true_iff in Eprune as [Ho Hle].
    intros _ rest l He Hf. unfold covered. rewrite Ho. eapply fle_trans; [exact Hle|]. by eapply ext_le. }
  destruct (flt thetaL (fadd lat (ei_cost ei))) eqn:Eth.
  { apply edges_post_skip; [by apply IH|]. intros _ rest l He (_ & _ & Hf & _). exfalso.
    assert (fle (fadd lat (ei_cost ei)) l = true) as H1 by (by eapply ext_le).
    assert (fle (fadd lat (ei_cost ei)) thetaL = true) as H2 by (by eapply fle_trans).
    by rewrite (flt_not_le _ _ Eth) in H2. }
  specialize (Hrec (ei_to ei) (fadd lat (ei_cost ei)) st Hwf Hat').
  destruct (rec (ei_to ei) (fadd lat (ei_cost ei)) st) as [st1 ok]. pose proof Hrec as (R1 & R2 & R3 & _).
  destruct ok; [destruct optimize eqn:Ho|].
  - eapply edges_post_next; [exact Hrec|apply IH; [done|done|congruence]|congruence].
  - split; [exact R1|]. split; [exact R2|]. split; [by intros _; apply R3|].
    intros _ _ ei' rest l _ _ _. unfold covered. by rewrite Ho.
  - eapply edges_post_next; [exact Hrec| |done]. by apply IH.
Qed.

(** ** The recursion *)
Lemma c_leave_wf hs u st : u ∉ hs → dfs_wf (hs ++ [u]) st → dfs_wf hs (c_leave u st).
Proof.
  intros Hu (Hp & Hv & Hb). split; [simpl; by rewrite Hp, removelast_last|].
  split; [|exact Hb]. intros x. simpl.
  rewrite elem_of_difference, elem_of_singleton, Hv, elem_of_app, list_elem_of_singleton.
  split; [tauto|]. intros Hx. split; [by left|]. by intros ->.
Qed.

Lemma explore_order tick u : ∃ es tick',
  (if randomize then shuffle (S (S tick)) (getSortedEdges d tick g u)
   else (S (S tick), getSortedEdges d tick g u)) = (tick', es) ∧
  es ≡ₚ getSortedEdges d tick g u.
Proof.
  destruct randomize; [|by eauto].
  pose proof (shuffle_perm (S (S tick)) (getSortedEdges d tick g u)) as Hp.
  destruct (shuffle _ _) as [tick' es]. eauto.
Qed.

Lemma dfs_post_ok fuel hs u lat st :
  dfs_wf hs st → at_node hs u lat → dfs_post fuel hs u lat st (dfs fuel u lat st).
Proof.
  revert hs u lat st. induction fuel as [|fuel IH]; intros hs u lat st Hwf Hat; cbn [Carousel.dfs].
  { split; [done|]. split; [apply improves_refl|]. split; [done|].
    intros _ Hlt rest l _ (_ & Hf & _). rewrite length_app in Hf. simpl in *. lia. }
  pose proof Hwf as (Hp & Hv & Hb). rewrite Hp.
  case_bool_decide as Hlen.
  { split; [done|]. split; [apply improves_refl|]. split; [done|].
    intros _ _ rest l _ (_ & Hf & _). rewrite length_app in Hf. simpl in *. lia. }
  case_bool_decide as Ht; [subst u; apply dfs_target_post; [done|done|lia]|].
  destruct (explore_order (c_tick (c_enter u st)) u) as (es & tick' & -> & Hes).
  pose proof Hat as (Hnn & Hnd & _). apply NoDup_app in Hnd as (_ & Hnd & _).
  assert (u ∉ hs) as Hu by (intros Hin; apply (Hnd u Hin); by apply list_elem_of_singleton).
  assert (dfs_wf (hs ++ [u]) (set_tick tick' (c_enter u st))) as Hwf1.
  { split; [simpl; by rewrite Hp|]. split; [|exact Hb]. intros x. simpl.
    rewrite elem_of_union, elem_of_singleton, Hv, elem_of_app, list_elem_of_singleton. tauto. }
  pose proof (dfs_edges_post (dfs fuel) fuel hs u lat es false (set_tick tick' (c_enter u st))
    (IH (hs ++ [u])) Hat) as H.
  destruct (dfs_edges (dfs fuel) lat es false (set_tick tick' (c_enter u st))) as [st1 found].
  destruct H as (I1 & I2 & I3 & I5); [|done|done|].
  { intros ei. rewrite Hes. apply sorted_edges_step. }
  simpl in *. split; [by apply c_leave_wf|]. split; [exact I2|]. split; [exact I3|].
  intros Hn En rest l He Hf. inversion He as [|? ? v c hs' w l' Hs He']; subst; [done|].
  destruct (step_sorted_edges (c_tick st) u v c Hs) as (ei & Hin & <- & <-).
  apply (I5 Hn ltac:(rewrite length_app; simpl; lia) ei hs' l); [by rewrite Hes|done|].
  by rewrite <-app_assoc.
Qed.

(** ** The search *)
Lemma dfsPathSearch_spec tick :
  match (dfsPathSearch d g t thetaL used optimize randomize s tick).1 with
  | Some (p, l) => walk s t p l ∧ feasible p l ∧
      (optimize = true → flt thetaL (fadd thetaL f1) = true →
       ∀ q l', walk s t q l' → feasible q l' → fle l l' = true)
  | None => flt thetaL (fadd thetaL f1) = true → ∀ q l', walk s t q l' → ¬ feasible q l'
  end.
Proof.
  unfold dfsPathSearch.
  set (st0 := {| c_visited := ∅; c_path := []; bestPath := None;
                 bestLatency := fadd thetaL f1; c_tick := tick |}).
  assert (dfs_wf [] st0) as Hwf.
  { split; [done|]. split; [|done].
    intros x. split; [by intros ?%elem_of_empty|by intros ?%not_elem_of_nil]. }
  assert (at_node [] s f0) as Hat.
  { split; [done|]. split; [apply NoDup_singleton|]. exists []. split; [done|]. constructor. }
  pose proof (dfs_post_ok (S maxHops) [] s f0 st0 Hwf Hat) as (P1 & P2 & P3 & P5).
  destruct (dfs (S maxHops) s f0 st0) as [st found]. cbn [fst snd] in *.
  assert (flt thetaL (fadd thetaL f1) = true → ∀ q l', walk s t q l' → feasible q l' →
    covered st found l') as Hcov.
  { intros Hth q l' (hs & -> & He) Hf. refine (P5 _ _ hs l' He Hf).
    - intros _. simpl. by apply flt_num in Hth as [_ ?].
    - unfold maxHops. simpl. lia. }
  destruct P1 as (_ & _ & Hb).
  destruct (bestPath st) as [p|] eqn:Eb; cbn [fst].
  - destruct (Hb p Eb) as [Hw Hf]. split; [done|]. split; [done|]. intros Ho Hth q l' Hq Hfq.
    specialize (Hcov Hth q l' Hq Hfq). unfold covered in Hcov. by rewrite Ho in Hcov.
  - intros Hth q l' Hq Hf. specialize (Hcov Hth q l' Hq Hf). unfold covered in Hcov.
    destruct optimize eqn:Ho.
    + destruct (P2 Ho) as [_ Hn]; [simpl; by apply flt_num in Hth as [_ ?]|].
      destruct (Hn Eb) as [_ E]. rewrite E in Hcov. simpl in Hcov.
      destruct Hf as (_ & _ & Hf & _).
      assert (fle (fadd thetaL f1) thetaL = true) as H by (by eapply fle_trans).
      by rewrite (flt_not_le _ _ Hth) in H.
    + subst found. by destruct (P3 eq_refl eq_refl) as [? ?].
Qed.
End Search.
