(* ===== verification/CarouselRun.v ===== *)
(** * The carousel solver keeps its books

    Through the initial search and every iteration, the flow recorded on each
    edge of the residual graph is the number of selected paths over it, the
    per-destination counters and the set of used paths agree with the list of
    paths, and the incumbent is a valid solution. *)
From S2P Require Import Prelude Float64 FloatDiv GoHeap GoStrings Records KShortest Random.
From S2P Require Import Carousel CarouselSearch.

(** ** Updating edges *)
Lemma edge_at_upd f a b (g : resgraph) u v :
  edge_at (edge_upd f a b g) u v =
  if decide ((a, b) = (u, v)) then f <$> edge_at g u v else edge_at g u v.
Proof.
  unfold edge_upd, edge_at. destruct (g !! a) as [m|] eqn:Ha.
  2: { destruct (decide _) as [[= -> ->]|]; [by rewrite Ha|done]. }
  destruct (m !! b) as [ef|] eqn:Hb.
  2: { destruct (decide _) as [[= -> ->]|]; [by rewrite Ha; simpl; rewrite Hb|done]. }
  destruct (decide (a = u)) as [->|Hne].
  - rewrite lookup_insert_eq, Ha. simpl. destruct (decide (b = v)) as [->|Hne].
    + by rewrite lookup_insert_eq, decide_True, Hb.
    + rewrite lookup_insert_ne by done. by rewrite decide_False by congruence.
  - rewrite lookup_insert_ne by done. by rewrite decide_False by congruence.
Qed.

Definition occurrences (h : string * string) (hs : list (string * string)) : nat :=
  length (filter (λ h', h' = h) hs).

Lemma edge_at_upds f hs g u v :
  edge_at (foldl (λ g h, edge_upd f h.1 h.2 g) g hs) u v =
  Nat.iter (occurrences (u, v) hs) f <$> edge_at g u v.
Proof.
  unfold occurrences. revert g. induction hs as [|[a b] hs IH]; intros g; simpl.
  { by destruct (edge_at g u v). }
  rewrite IH, edge_at_upd, filter_cons. simpl.
  destruct (decide ((a, b) = (u, v))) as [E|E]; [|done]. simpl.
  destruct (edge_at g u v) as [ef|]; [|done]. simpl. f_equal.
  by rewrite <-Nat.iter_succ, Nat.iter_succ_r.
Qed.

Lemma fsub_0_r x : fsub x f0 = x.
Proof. by destruct x as [[]|[]| |]. Qed.

(** The book-keeping of one edge that [n] paths use. *)
Definition edge_ok (n : nat) (ef : EdgeFlow) : Prop :=
  flow ef = f_of_nat n ∧ residual ef = fsub (effCap ef) (flow ef).

Lemma alloc_edge_ok n c ef : (Z.of_nat (n + c) < 2 ^ 53)%Z → edge_ok n ef →
  edge_ok (n + c) (Nat.iter c (λ ef, updateResidual (set_flow (fadd (flow ef) f1) ef)) ef).
Proof.
  intros Hb Hef. induction c as [|c IH]; simpl; [by rewrite Nat.add_0_r|].
  destruct IH as [H1 H2]; [lia|]. split; [|done]. simpl. rewrite H1. unfold f_of_nat.
  rewrite f_succ by lia. f_equal. lia.
Qed.

Lemma release_edge_ok n c ef : (Z.of_nat (n + c) < 2 ^ 53)%Z → edge_ok (n + c) ef →
  edge_ok n (Nat.iter c (release_edge f1) ef).
Proof.
  revert n. induction c as [|c IH]; intros n Hb Hef; simpl; [by rewrite Nat.add_0_r in Hef|].
  destruct (IH (S n)) as [H1 H2]; [lia|by replace (S n + c) with (n + S c) by lia|].
  unfold release_edge at 1. split; [|done]. simpl. rewrite H1. unfold f_of_nat.
  replace (Z.of_nat (S n)) with (Z.of_nat n + 1)%Z by lia. rewrite f_pred by lia.
  by rewrite f_of_Z_not_neg by lia.
Qed.

(** ** Counting *)
Lemma count_bound {A} (f : A → string) (l : list A) es k :
  Forall (λ x, f x ∈ es) l → (∀ e, length (filter (λ x, f x = e) l) ≤ k) →
  length l ≤ k * length es.
Proof.
  revert l. induction es as [|e es IH]; intros l Hl Hk.
  { destruct l as [|x l]; [simpl; lia|]. apply Forall_cons in Hl as [Hl _].
    by apply not_elem_of_nil in Hl. }
  assert (length l = length (filter (λ x, f x = e) l) + length (filter (λ x, f x ≠ e) l)) as ->.
  { clear. induction l as [|x l IH]; [done|]. rewrite !filter_cons.
    destruct (decide (f x = e)); [rewrite decide_False by (intros H; by apply H)
      |rewrite decide_True by done]; simpl; lia. }
  assert (length (filter (λ x, f x ≠ e) l) ≤ k * length es).
  { apply IH.
    - apply Forall_forall. intros x [Hne Hx]%list_elem_of_filter. rewrite Forall_forall in Hl.
      specialize (Hl x Hx). apply elem_of_cons in Hl as [?|?]; done.
    - intros e'. etransitivity; [|apply (Hk e')].
      apply sublist_length. rewrite list_filter_filter.
      clear. induction l as [|x l IH]; [done|]. rewrite !filter_cons.
      destruct (decide (f x = e' ∧ f x ≠ e)) as [[H1 H2]|H].
      + rewrite decide_True by done. by apply sublist_skip.
      + destruct (decide (f x = e')); [by apply sublist_cons|done]. }
  specialize (Hk e). simpl. lia.
Qed.

Lemma path_hops_length p : length (path_hops p) ≤ length p.
Proof. unfold path_hops. rewrite length_zip. lia. Qed.

Definition hops_of (l : list PathWithInfo) : list (string * string) :=
  l ≫= (λ pi, path_hops (pw_path pi)).

Lemma hops_of_length l : Forall (λ pi, length (pw_path pi) ≤ maxHops) l →
  length (hops_of l) ≤ maxHops * length l.
Proof.
  induction 1 as [|pi l Hp Hl IH]; [simpl; lia|].
  change (hops_of (pi :: l)) with (path_hops (pw_path pi) ++ hops_of l). rewrite length_app.
  pose proof (path_hops_length (pw_path pi)). cbn [length]. rewrite Nat.mul_succ_r. lia.
Qed.

Lemma occurrences_app h l1 l2 : occurrences h (l1 ++ l2) = occurrences h l1 + occurrences h l2.
Proof. unfold occurrences. by rewrite filter_app, length_app. Qed.

Lemma occurrences_le h l : occurrences h l ≤ length l.
Proof. unfold occurrences. apply length_filter. Qed.

#[local] Arguments Nat.mul : simpl never.

Section Run.
Context `{RO : RangeOrder} `{RS : RandSource}.
Context (d : FlowOptimizationSolver) (start : string) (ends : list string).
Hypothesis Hlat : ∀ k v, latencyMap d !! k = Some v → f_nonneg v = true.
Hypothesis Hends : NoDup ends.
Hypothesis Hsize : (Z.of_nat (maxHops * (flowsPerDest d * length ends) + maxHops) < 2 ^ 53)%Z.

(** ** Paths *)
Definition link (x y : string) : Prop :=
  ∃ e, e ∈ fs_edges d ∧ SourceIp e = x ∧ DestinationIp e = y.

(** A path of a solution: from the start to its destination, simple, within
    the hop limit and the latency bound, each hop over a link of the network
    in one of its two directions. *)
Record path_ok (pi : PathWithInfo) : Prop := {
  po_dest : dest pi ∈ ends;
  po_head : head (pw_path pi) = Some start;
  po_last : last (pw_path pi) = Some (dest pi);
  po_nodup : NoDup (pw_path pi);
  po_length : length (pw_path pi) ≤ maxHops;
  po_latency : fle (pw_latency pi) (default (f_of_Z 100) (thetaLMap d !! dest pi)) = true;
  po_links i x y : pw_path pi !! i = Some x → pw_path pi !! S i = Some y → link x y ∨ link y x;
}.

Definition path_key (pi : PathWithInfo) : string := pathToString (pw_path pi).
Definition dest_count (e : string) (l : list PathWithInfo) : nat :=
  length (filter (λ pi, dest pi = e) l).

Record solution_ok (l : list PathWithInfo) : Prop := {
  so_paths : Forall path_ok l;
  so_nodup : NoDup (path_key <$> l);
  so_limit e : dest_count e l ≤ flowsPerDest d;
}.

Definition graph_ok (paths : list PathWithInfo) (g : resgraph) : Prop :=
  ∀ u v ef, edge_at g u v = Some ef →
    link u v ∧ edge_ok (occurrences (u, v) (hops_of paths)) ef.

Record books (st : cg_state) : Prop := {
  bk_graph : graph_ok (allPaths st) (resGraph st);
  bk_sol : solution_ok (allPaths st);
  bk_used x : x ∈ usedPaths st ↔ x ∈ path_key <$> allPaths st;
  bk_count e : flow_count (destFlowCount st) e = Z.of_nat (dest_count e (allPaths st));
  bk_best : solution_ok (bestPaths st);
}.

Lemma solution_size l : solution_ok l → length l ≤ flowsPerDest d * length ends.
Proof.
  intros [H1 _ H3]. apply (count_bound dest); [|exact H3].
  eapply Forall_impl; [exact H1|]. by intros pi [].
Qed.

Lemma hops_bound l : solution_ok l → length (hops_of l) ≤ maxHops * (flowsPerDest d * length ends).
Proof.
  intros Hl. etransitivity; [apply hops_of_length|].
  - eapply Forall_impl; [apply Hl|]. by intros pi [].
  - apply Nat.mul_le_mono_l, solution_size, Hl.
Qed.

(** ** The search returns paths of the network *)
Lemma step_link paths g u v c : graph_ok paths g → residual_step d g u v c → link u v ∨ link v u.
Proof. intros Hg [ef He _|ef _ _ He _]; [left|right]; by apply (Hg _ _ _ He). Qed.

Lemma ext_links paths g u l hs v l' : graph_ok paths g → ext d g u l hs v l' →
  ∀ i x y, (u :: hs) !! i = Some x → (u :: hs) !! S i = Some y → link x y ∨ link y x.
Proof.
  intros Hg. induction 1 as [|u l v c hs w l' Hs He IH]; intros i x y Hx Hy; [done|].
  destruct i as [|i]; [|by eapply IH]. simpl in Hx, Hy. simplify_eq. by eapply step_link.
Qed.

Lemma step_cost g u v c : residual_step d g u v c → f_nonneg c = true.
Proof.
  assert (∀ ef c, f_nonneg c = true → f_nonneg (with_penalty ef c) = true) as Hp.
  { intros ef c' Hc. unfold with_penalty. destruct (banned ef); [|done]. by apply fadd_nonneg_closed. }
  intros [ef _ _|ef _ _ _ _]; apply Hp; [|done]. unfold getEdgeLatency.
  destruct (latencyMap d !! _) eqn:E; simpl; [by eapply Hlat|done].
Qed.

Lemma found_ok paths g end_ used attempt tick pi tick' :
  graph_ok paths g → end_ ∈ ends →
  findFeasiblePathWithLatency d g start end_ used attempt tick = (Some pi, tick') →
  path_ok pi ∧ dest pi = end_.
Proof.
  intros Hg He. unfold findFeasiblePathWithLatency. destruct (g !! start); [|done].
  set (thetaL := default (f_of_Z 100) (thetaLMap d !! end_)).
  assert (∀ opt rnd found tk, dfsPathSearch d g end_ thetaL used opt rnd start tick = (found, tk) →
    ∀ p l, found = Some (p, l) → path_ok {| pw_path := p; pathStr := Join p "|"; dest := end_; pw_latency := l |})
    as Hs.
  { intros opt rnd found tk E p l ->.
    pose proof (dfsPathSearch_spec d g start end_ thetaL used opt rnd (step_cost g) tick) as H.
    rewrite E in H. simpl in H. destruct H as ((hs & -> & Hx) & (F1 & F2 & F3 & _) & _).
    split; simpl; try done.
    - by eapply ext_last.
    - by eapply ext_links. }
  destruct (bool_decide (attempt ≤ 1)).
  - destruct (dfsPathSearch _ _ _ _ _ true _ _ _) as [[[p l]|] tk] eqn:E; intros [= <- <-].
    split; [|done]. by eapply Hs.
  - destruct (dfsPathSearch _ _ _ _ _ false _ _ _) as [[[p l]|] tk] eqn:E; intros [= <- <-].
    split; [|done]. by eapply Hs.
Qed.

(** ** Flow *)
Lemma allocate_ok paths pi g :
  length (hops_of (paths ++ [pi])) ≤ maxHops * (flowsPerDest d * length ends) + maxHops →
  graph_ok paths g → graph_ok (paths ++ [pi]) (allocateFlow (pw_path pi) f1 g).
Proof.
  intros Hb Hg u v ef. unfold allocateFlow. rewrite edge_at_upds.
  intros (ef0 & He & ->)%fmap_Some. destruct (Hg u v ef0 He) as [Hl Hok]. split; [done|].
  unfold hops_of in *. rewrite bind_app in *. simpl in *. rewrite app_nil_r in *.
  rewrite occurrences_app. apply alloc_edge_ok; [|done].
  pose proof (occurrences_le (u, v) (hops_of paths ++ path_hops (pw_path pi))) as Hle.
  rewrite occurrences_app in Hle. unfold hops_of in *. lia.
Qed.

Lemma release_ok pi rest g : solution_ok (pi :: rest) →
  graph_ok (pi :: rest) g → graph_ok rest (releaseFlow (pw_path pi) f1 g).
Proof.
  intros Hs Hg u v ef. unfold releaseFlow. rewrite edge_at_upds.
  intros (ef0 & He & ->)%fmap_Some. destruct (Hg u v ef0 He) as [Hl Hok]. split; [done|].
  change (hops_of (pi :: rest)) with (path_hops (pw_path pi) ++ hops_of rest) in Hok.
  rewrite occurrences_app, Nat.add_comm in Hok. apply release_edge_ok; [|done].
  pose proof (hops_bound _ Hs) as Hb. pose proof (occurrences_le (u, v) (hops_of (pi :: rest))) as Hle.
  change (hops_of (pi :: rest)) with (path_hops (pw_path pi) ++ hops_of rest) in Hle, Hb.
  rewrite occurrences_app in Hle. lia.
Qed.

Lemma ban_ok paths from to g : graph_ok paths g → graph_ok paths (banEdge from to g).
Proof.
  intros Hg u v ef. unfold banEdge. rewrite edge_at_upd. destruct (decide _); [|apply Hg].
  intros (ef0 & He & ->)%fmap_Some. apply (Hg u v ef0 He).
Qed.

Lemma ban_path_ok paths path g : graph_ok paths g → graph_ok paths (banPathEdges path g).
Proof.
  unfold banPathEdges. revert g. induction (path_hops path) as [|h hs IH]; intros g Hg; [done|].
  simpl. by apply IH, ban_ok.
Qed.

Lemma unban_ok paths g : graph_ok paths g → graph_ok paths (unbanAllEdges g).
Proof.
  intros Hg u v ef. unfold edge_at, unbanAllEdges. rewrite lookup_fmap.
  destruct (g !! u) as [m|] eqn:E; [|done]. simpl. rewrite lookup_fmap.
  intros (ef0 & He & ->)%fmap_Some. apply (Hg u v ef0). unfold edge_at. by rewrite E.
Qed.

(** ** The steps *)
Lemma with_tick_books n st : books st → books (with_tick n st).
Proof. by intros []. Qed.

Lemma with_graph_books g st : graph_ok (allPaths st) g → books st → books (with_graph g st).
Proof. by intros Hg [? ? ? ? ?]. Qed.

Lemma add_path_books end_ pi st :
  books st → path_ok pi → dest pi = end_ → path_key pi ∉ usedPaths st →
  dest_count end_ (allPaths st) < flowsPerDest d → books (add_path end_ pi st).
Proof.
  intros [H1 H2 H3 H4 H5] Hp Hd Hu Hlt. pose proof H2 as [S1 S2 S3].
  assert (∀ e, dest_count e (allPaths st ++ [pi]) =
    dest_count e (allPaths st) + (if decide (dest pi = e) then 1 else 0)) as Hcount.
  { intros e. unfold dest_count. rewrite filter_app, length_app, filter_cons. by destruct (decide _). }
  split; simpl.
  - apply allocate_ok; [|done]. unfold hops_of. rewrite bind_app, length_app. simpl.
    rewrite app_nil_r. pose proof (hops_bound _ H2) as Hb. unfold hops_of in Hb.
    pose proof (path_hops_length (pw_path pi)). pose proof (po_length pi Hp). lia.
  - split.
    + apply Forall_app. split; [done|]. by apply Forall_singleton.
    + rewrite fmap_app. apply NoDup_app. split; [done|]. split; [|apply NoDup_singleton].
      intros x Hx ->%list_elem_of_singleton. by apply Hu, H3.
    + intros e. rewrite Hcount. specialize (S3 e).
      destruct (decide (dest pi = e)) as [E|]; [|lia]. rewrite Hd in E. subst e. lia.
  - intros x. rewrite elem_of_union, elem_of_singleton, H3, fmap_app, elem_of_app.
    cbn [fmap list_fmap]. rewrite list_elem_of_singleton. tauto.
  - intros e. rewrite Hcount. unfold flow_count at 1. rewrite lookup_insert. rewrite Hd.
    destruct (decide (end_ = e)) as [->|]; simpl; [rewrite H4; lia|].
    fold (flow_count (destFlowCount st) e). rewrite H4. lia.
  - done.
Qed.

Lemma remove_path_books pi rest st :
  books st → allPaths st = pi :: rest → books (remove_path pi rest st).
Proof.
  intros [H1 H2 H3 H4 H5] E. rewrite E in *. pose proof H2 as [S1 S2 S3].
  apply Forall_cons in S1 as [P1 S1]. cbn [fmap list_fmap] in S2. apply NoDup_cons in S2 as [N1 S2].
  assert (∀ e, dest_count e (pi :: rest) =
    dest_count e rest + (if decide (dest pi = e) then 1 else 0)) as Hcount.
  { intros e. unfold dest_count. rewrite filter_cons. destruct (decide _); simpl; lia. }
  split; simpl.
  - by apply release_ok.
  - split; [done|done|]. intros e. specialize (S3 e). rewrite Hcount in S3. lia.
  - intros x. rewrite elem_of_difference, elem_of_singleton, H3. cbn [fmap list_fmap].
    rewrite elem_of_cons. split; [|intros Hx; split; [by right|]; by intros ->].
    intros [[->|Hx] Hne]; done.
  - intros e. specialize (H4 e). rewrite Hcount in H4. unfold flow_count at 1. rewrite lookup_insert.
    destruct (decide (dest pi = e)) as [->|]; simpl; [rewrite H4; lia|].
    fold (flow_count (destFlowCount st) e). rewrite H4. lia.
  - done.
Qed.

Lemma initial_paths_books fuel end_ i n st :
  end_ ∈ ends → books st → dest_count end_ (allPaths st) = i →
  let st' := initial_paths d fuel start end_ i n st in
  books st' ∧ ∀ e, e ≠ end_ → dest_count e (allPaths st') = dest_count e (allPaths st).
Proof.
  intros He. revert i n st. induction fuel as [|fuel IH]; intros i n st Hb Hi; cbn [initial_paths]; [done|].
  case_bool_decide as Hlt; [|done]. case_bool_decide as Hmax; [done|].
  destruct (findFeasiblePathWithLatency _ _ _ _ _ _ _) as [[pi|] tick] eqn:E;
    [|split; [by apply with_tick_books|done]].
  pose proof (with_tick_books tick st Hb) as Hb'.
  destruct (found_ok (allPaths st) _ _ _ _ _ _ _ (bk_graph st Hb) He E) as [Hp Hd].
  case_bool_decide as Hu; [by apply (IH i (S n) (with_tick tick st) Hb' Hi)|].
  assert (∀ e, dest_count e (allPaths st ++ [pi]) =
    dest_count e (allPaths st) + (if decide (dest pi = e) then 1 else 0)) as Hcount.
  { intros e. unfold dest_count. rewrite filter_app, length_app, filter_cons. by destruct (decide _). }
  destruct (IH (S i) (S n) (add_path end_ pi (with_tick tick st))) as [I1 I2].
  - apply add_path_books; [done..|]. simpl. lia.
  - simpl. rewrite Hcount, decide_True by done. lia.
  - split; [done|]. intros e Hne. rewrite I2 by done. simpl. rewrite Hcount.
    rewrite decide_False by congruence. lia.
Qed.

Lemma initial_search_books es st :
  NoDup es → (∀ e, e ∈ es → e ∈ ends) → books st → (∀ e, e ∈ es → dest_count e (allPaths st) = 0) →
  books (initial_search d start es st).
Proof.
  unfold initial_search. revert st. induction es as [|e es IH]; intros st Hnd Hin Hb Hc;
    cbn [foldl]; [done|].
  apply NoDup_cons in Hnd as [Hni Hnd].
  destruct (initial_paths_books (S (flowsPerDest d * 10)) e 0 0 st) as [I1 I2];
    [apply Hin; left|done|apply Hc; left|].
  apply IH; [done|intros; apply Hin; by right|done|].
  intros e' He'. rewrite I2 by (by intros ->). apply Hc. by right.
Qed.

Lemma replace_path_books i es st :
  (∀ e, e ∈ es → e ∈ ends) → books st → books (replace_path d start i es st).
Proof.
  revert st. induction es as [|e es IH]; intros st Hin Hb; cbn [replace_path]; [done|].
  assert (∀ e', e' ∈ es → e' ∈ ends) as Hin' by (intros; apply Hin; by right).
  case_bool_decide as Hlim; [by apply IH|].
  destruct (findFeasiblePathWithLatency _ _ _ _ _ _ _) as [[pi|] tick] eqn:E;
    [|by apply IH, with_tick_books].
  destruct (found_ok (allPaths st) _ _ _ _ _ _ _ (bk_graph st Hb) (Hin e (list_elem_of_here _ _)) E)
    as [Hp Hd].
  case_bool_decide as Hu; [by apply IH, with_tick_books|].
  destruct (add_path_books e pi (with_tick tick st)) as [B1 B2 B3 B4 B5];
    [by apply with_tick_books|done|done|done| |by split].
  simpl. rewrite (bk_count st Hb) in Hlim. lia.
Qed.

Lemma ban_edges_books oldest st : books st → books (ban_edges oldest st).
Proof.
  intros Hb. unfold ban_edges. apply with_tick_books, with_graph_books; [|done].
  assert (∀ g, graph_ok (allPaths st) g → graph_ok (allPaths st)
    (match pw_path oldest with a :: b :: _ => banEdge a b g | _ => g end)) as Hf.
  { intros g Hg. destruct (pw_path oldest) as [|a [|b p]]; [done|done|]. by apply ban_ok. }
  apply Hf. destruct (GetMostFrequent _ _); [apply ban_path_ok|]; apply Hb.
Qed.

Lemma copyPathList_id l : copyPathList l = l.
Proof.
  unfold copyPathList. rewrite <-(list_fmap_id l) at 2. apply list_fmap_ext. by intros i [].
Qed.

Lemma update_best_books st : books st → books (update_best st).
Proof.
  intros [H1 H2 H3 H4 H5]. unfold update_best. case_bool_decide; [|by split].
  destruct (flt _ _); [|by split]. rewrite copyPathList_id. by split.
Qed.

(** One iteration of the optimisation keeps the books. *)
Lemma iteration_books i oldest rest st :
  books st → allPaths st = oldest :: rest → books (iteration d start ends i oldest rest st).
Proof.
  intros Hb E. unfold iteration.
  pose proof (ban_edges_books oldest _ (remove_path_books oldest rest st Hb E)) as Hb1.
  set (st1 := ban_edges oldest (remove_path oldest rest st)) in *.
  pose proof (shuffle_perm (cg_tick st1) ends) as Hperm.
  destruct (shuffle (cg_tick st1) ends) as [tick es]. simpl in Hperm.
  apply update_best_books.
  assert (books (replace_path d start i es (with_tick tick st1))) as Hb2.
  { apply replace_path_books; [|by apply with_tick_books]. intros e. by rewrite Hperm. }
  apply with_graph_books; [|done]. apply unban_ok, Hb2.
Qed.

Lemma optimise_books n i st : books st → books (optimise d n start ends i st).
Proof.
  revert i st. induction n as [|n IH]; intros i st Hb; cbn [optimise]; [done|].
  destruct (allPaths st) as [|oldest rest] eqn:E; [done|]. by apply IH, iteration_books.
Qed.

Lemma remove_oldest_books n st : books st → books (remove_oldest n st).
Proof.
  revert st. induction n as [|n IH]; intros st Hb; cbn [remove_oldest]; [done|].
  destruct (allPaths st) as [|pi rest] eqn:E; [done|]. by apply IH, remove_path_books.
Qed.

Lemma record_initial_books st : books st → books (record_initial st).
Proof. intros [H1 H2 H3 H4 H5]. unfold record_initial. rewrite copyPathList_id. by split. Qed.

(** The residual graph before any flow. *)
Lemma build_ok : graph_ok [] (buildResidualGraphWithCapacity d).
Proof.
  unfold buildResidualGraphWithCapacity.
  assert (∀ es g, (∀ e, e ∈ es → e ∈ fs_edges d) → graph_ok [] g → graph_ok []
    (foldl (λ g e,
      let thetaA := computeThetaA d (Load e) in
      let effCap := fmul thetaA (capacity d) in
      let ef := {| flow := f0; cap := capacity d; thetaA := thetaA; effCap := effCap;
                   banned := false; residual := effCap |} in
      <[SourceIp e := <[DestinationIp e := ef]> (default ∅ (g !! SourceIp e))]> g) g es)) as Hgo.
  { induction es as [|e es IH]; intros g Hin Hg; simpl; [done|].
    apply IH; [intros; apply Hin; by right|]. intros u v ef. unfold edge_at.
    destruct (decide (SourceIp e = u)) as [<-|Hu].
    - rewrite lookup_insert_eq. simpl. destruct (decide (DestinationIp e = v)) as [<-|Hv].
      + rewrite lookup_insert_eq. intros [= <-]. split; [exists e; split; [apply Hin; left|done]|].
        split; simpl; [done|]. by rewrite fsub_0_r.
      + rewrite lookup_insert_ne by done. intros Hl. apply (Hg (SourceIp e) v). unfold edge_at.
        destruct (g !! SourceIp e); simpl in *; [done|]. by rewrite lookup_empty in Hl.
    - rewrite lookup_insert_ne by done. apply Hg. }
  apply Hgo; [done|]. intros u v ef. unfold edge_at. by rewrite lookup_empty.
Qed.

Lemma init_books tick : books (init_state (buildResidualGraphWithCapacity d) tick).
Proof.
  assert (solution_ok []) as Hs by (split; [constructor|constructor|intros; unfold dest_count; simpl; lia]).
  split; simpl; [apply build_ok|done| | |done].
  - intros x. split; [by intros ?%elem_of_empty|by intros ?%not_elem_of_nil].
  - intros e. unfold flow_count. by rewrite lookup_empty.
Qed.
End Run.
