(* ===== verification/CarouselMulti.v ===== *)
(** * What the carousel solver returns

    The claims on [carousel-greed.go]: the path search, the book-keeping over a
    whole run, and [ComputingMulti]. *)
From S2P Require Import Prelude Float64 FloatDiv GoHeap GoStrings Records KShortest KSearch.
From S2P Require Import KYen Random Carousel CarouselSearch CarouselRun.

#[local] Arguments Nat.mul : simpl never.

Section Multi.
Context `{RO : RangeOrder} `{RS : RandSource}.

(** The latencies of the solver are non-negative numbers. *)
Definition latencies_ok (d : FlowOptimizationSolver) : Prop :=
  ∀ k v, latencyMap d !! k = Some v → f_nonneg v = true.

(** The run fits the exact integers of a float64. *)
Definition size_ok (d : FlowOptimizationSolver) (ends : list string) : Prop :=
  (Z.of_nat (maxHops * (flowsPerDest d * length ends) + maxHops) < 2 ^ 53)%Z.

Definition latency_bound (d : FlowOptimizationSolver) (t : string) : float64 :=
  default (f_of_Z 100) (thetaLMap d !! t).

(** C28: the path search of the carousel solver, with non-negative latencies, from
    a node of the residual graph, and with a latency bound that is smaller than
    itself plus one (so neither infinite nor too large for that).  A path it finds is a walk of
    the residual graph (forward over edges with residual capacity, backward
    over edges that carry flow) from the start to the destination, without
    repeated nodes, of at most 30 nodes and within the latency bound, with the
    latency that is reported; and when nothing is found there is no such walk.
    In the first attempt (attempts are counted from 1; the comment in the source
    says the first two) it is moreover an unused path and the best such walk.  A
    later attempt takes the first walk of a random order, which may be one that
    is already used. *)
Theorem findFeasiblePathWithLatency_correct d g s t used attempt tick :
  latencies_ok d → is_Some (g !! s) →
  let bound := latency_bound d t in
  let opt := bool_decide (attempt ≤ 1) in
  flt bound (fadd bound f1) = true →
  match (findFeasiblePathWithLatency d g s t used attempt tick).1 with
  | Some pi =>
      dest pi = t ∧ walk d g s t (pw_path pi) (pw_latency pi) ∧
      feasible bound used opt (pw_path pi) (pw_latency pi) ∧
      (opt = true → ∀ q l, walk d g s t q l → feasible bound used opt q l →
         fle (pw_latency pi) l = true)
  | None => ∀ q l, walk d g s t q l → ¬ feasible bound used opt q l
  end.
Proof.
  intros Hl [m Hm] bound opt Hb. unfold findFeasiblePathWithLatency. rewrite Hm.
  fold (latency_bound d t) bound opt.
  assert (∀ o r, match (dfsPathSearch d g t bound used o r s tick).1 with
    | Some (p, l) => walk d g s t p l ∧ feasible bound used o p l ∧
        (o = true → ∀ q l', walk d g s t q l' → feasible bound used o q l' → fle l l' = true)
    | None => ∀ q l', walk d g s t q l' → ¬ feasible bound used o q l'
    end) as H.
  { intros o r. pose proof (dfsPathSearch_spec d g s t bound used o r (step_cost d Hl g) tick) as H.
    destruct (dfsPathSearch _ _ _ _ _ _ _ _ _).1 as [[p l]|]; [|by apply H].
    destruct H as (H1 & H2 & H3). split; [done|]. split; [done|]. intros Ho. by apply H3. }
  destruct opt; [specialize (H true false)|specialize (H false true)];
    by destruct (dfsPathSearch _ _ _ _ _ _ _ _ _) as [[[p l]|] tk].
Qed.

(** C10: the books of the carousel solver.  After the initial search, the
    removal of any number of oldest paths and any number of iterations, the
    flow recorded on each edge of the residual graph is the number of selected
    paths over it, with the residual capacity that is left; the counters per
    destination and the set of used paths agree with the selected paths; and
    these are distinct simple paths within the hop, latency and per-destination
    limits.  The incumbent, which is a copy of an earlier selection, is only
    shown to be within these limits too.  The destinations are distinct, which
    the interface does not check. *)
Theorem carousel_books d start ends n removed tick :
  latencies_ok d → NoDup ends → size_ok d ends →
  books d start ends
    (optimise d n start ends 0
       (remove_oldest removed
          (record_initial
             (initial_search d start ends (init_state (buildResidualGraphWithCapacity d) tick))))).
Proof.
  intros Hl Hnd Hs. apply optimise_books, remove_oldest_books, record_initial_books,
    initial_search_books; try done.
  by apply init_books.
Qed.

(** ** The incumbent *)
Lemma replace_path_best d start i es st :
  bestPaths (replace_path d start i es st) = bestPaths st.
Proof.
  revert st. induction es as [|e es IH]; intros st; cbn [replace_path]; [done|].
  case_bool_decide; [done|]. destruct (findFeasiblePathWithLatency _ _ _ _ _ _ _) as [[pi|] tk];
    [|by rewrite IH]. case_bool_decide; [by rewrite IH|done].
Qed.

Lemma update_best_some st : bestPaths st ≠ [] → bestPaths (update_best st) ≠ [].
Proof.
  unfold update_best. case_bool_decide as Hl; [|done]. destruct (flt _ _); [|done].
  intros _. cbn [bestPaths]. rewrite copyPathList_id. simpl. by destruct (allPaths st); simpl in *; [lia|].
Qed.

Lemma iteration_best d start es i oldest rest st :
  bestPaths st ≠ [] → bestPaths (iteration d start es i oldest rest st) ≠ [].
Proof.
  intros Hb. unfold iteration. destruct (shuffle _ _) as [tk es']. apply update_best_some.
  cbn [bestPaths with_graph]. by rewrite replace_path_best.
Qed.

Lemma optimise_best d n start es i st :
  bestPaths st ≠ [] → bestPaths (optimise d n start es i st) ≠ [].
Proof.
  revert i st. induction n as [|n IH]; intros i st Hb; cbn [optimise]; [done|].
  destruct (allPaths st); [done|]. by apply IH, iteration_best.
Qed.

Lemma remove_oldest_best n st : bestPaths (remove_oldest n st) = bestPaths st.
Proof.
  revert st. induction n as [|n IH]; intros st; cbn [remove_oldest]; [done|].
  destruct (allPaths st); [done|]. by rewrite IH.
Qed.

(** ** An empty initial search *)
Definition same_but_tick (st st' : cg_state) : Prop :=
  resGraph st' = resGraph st ∧ allPaths st' = allPaths st ∧ usedPaths st' = usedPaths st.

Lemma initial_paths_grow d fuel start end_ i n st :
  length (allPaths st) ≤ length (allPaths (initial_paths d fuel start end_ i n st)).
Proof.
  revert i n st. induction fuel as [|fuel IH]; intros i n st; cbn [initial_paths]; [done|].
  case_bool_decide; [|done]. case_bool_decide; [done|].
  destruct (findFeasiblePathWithLatency _ _ _ _ _ _ _) as [[pi|] tk]; [|done].
  case_bool_decide; (etransitivity; [|apply IH]); simpl; [done|]. rewrite length_app. simpl. lia.
Qed.

Lemma initial_search_grow d start es st :
  length (allPaths st) ≤ length (allPaths (initial_search d start es st)).
Proof.
  unfold initial_search. revert st. induction es as [|e es IH]; intros st; cbn [foldl]; [done|].
  etransitivity; [|apply IH]. apply initial_paths_grow.
Qed.

Lemma initial_paths_none d fuel start end_ st :
  0 < flowsPerDest d → usedPaths st = ∅ →
  allPaths (initial_paths d (S fuel) start end_ 0 0 st) = [] →
  (findFeasiblePathWithLatency d (resGraph st) start end_ ∅ 1 (cg_tick st)).1 = None ∧
  same_but_tick st (initial_paths d (S fuel) start end_ 0 0 st).
Proof.
  intros Hf Hu. cbn [initial_paths]. rewrite bool_decide_true by done.
  rewrite bool_decide_false by lia. rewrite Hu.
  destruct (findFeasiblePathWithLatency _ _ _ _ _ _ _) as [[pi|] tk]; [|done].
  cbn [usedPaths with_tick]. rewrite Hu, bool_decide_false by set_solver.
  intros E. pose proof (initial_paths_grow d fuel start end_ 1 1 (add_path end_ pi (with_tick tk st))) as H.
  rewrite E in H. cbn [allPaths add_path] in H. rewrite length_app in H. simpl in H. lia.
Qed.

Lemma initial_search_none d start es st :
  0 < flowsPerDest d → usedPaths st = ∅ →
  allPaths (initial_search d start es st) = [] →
  ∀ e, e ∈ es → ∃ tick, (findFeasiblePathWithLatency d (resGraph st) start e ∅ 1 tick).1 = None.
Proof.
  intros Hf. unfold initial_search. revert st. induction es as [|e es IH]; intros st Hu E e' He';
    [by apply not_elem_of_nil in He'|]. cbn [foldl] in E.
  set (st1 := initial_paths _ _ _ _ _ _ st) in E.
  assert (allPaths st1 = []) as E1.
  { pose proof (initial_search_grow d start es st1) as H. unfold initial_search in H. rewrite E in H.
    apply nil_length_inv. simpl in H. lia. }
  destruct (initial_paths_none d _ start e st Hf Hu E1) as [Hn (G1 & G2 & G3)].
  fold st1 in G1, G2, G3. apply elem_of_cons in He' as [->|He']; [by exists (cg_tick st)|].
  rewrite <-G1. apply IH; [by rewrite G3|done|done].
Qed.

(** ** The parameters of a run *)
Lemma load_at_ok loads i : (0 ≤ i < Z.of_nat (length loads))%Z → ∃ x, load_at loads i = Ret x.
Proof.
  intros Hi. unfold load_at. rewrite bool_decide_true by lia. unfold index.
  destruct (lookup_lt_is_Some_2 loads (Z.to_nat i)) as [x Hx]; [lia|]. rewrite Hx. eauto.
Qed.

Lemma computePercentile_ok d : (Z.of_nat (length (fs_edges d)) < 2 ^ 53)%Z →
  ∃ x, computePercentile d (f_of_Z 90) = Ret x.
Proof.
  intros Hlen. unfold computePercentile. case_bool_decide as Hne; [eauto|].
  set (loads := exchange_sort flt (Load <$> fs_edges d)).
  assert (length loads = length (fs_edges d)) as El
    by (unfold loads; by rewrite exchange_sort_length, length_fmap).
  set (idx := fmul _ _). assert (0 ≤ f_trunc idx)%Z as Hidx.
  { apply (f_trunc_range idx (Z.of_nat (length loads) - 1)); [lia| |].
    - by apply fmul_fin; [|apply f_of_Z_fin; lia].
    - by apply fmul_below_one; [| |apply f_of_Z_fin; lia]. }
  case_bool_decide as Hu; [apply load_at_ok; lia|].
  destruct (load_at_ok loads (f_trunc idx)) as [x ->]; [lia|]. cbn [go_bind].
  destruct (load_at_ok loads (f_trunc idx + 1)) as [y ->]; [lia|]. simpl. eauto.
Qed.

Lemma computeThetaL_ok d start es :
  edges_ok (NewKShortestSolverWithLatency (fs_edges d) (kspK d) true) = true →
  (1 ≤ k (NewKShortestSolverWithLatency (fs_edges d) (kspK d) true))%Z →
  is_Some (computeThetaLForDestinations d start es).
Proof.
  intros Hok Hk. unfold computeThetaLForDestinations. generalize (thetaLMap d) as m.
  induction es as [|e es IH]; intros m; cbn [foldl]; [done|]. cbn [mbind option_bind].
  destruct (Computing_total _ start e Hok Hk) as [r ->]. cbn [mbind option_bind]. by destruct r as [[|p ps]|].
Qed.

(** Latencies are non-negative numbers, names are not empty and hold no arrow. *)
Definition flow_edges_ok (edges : list Edge) : bool :=
  forallb (λ e, f_nonneg (Latency e) && good_name (SourceIp e) && good_name (DestinationIp e)) edges.

Lemma fmul_r_one_nonneg x : f_nonneg x = true → f_nonneg (fmul x f1) = true.
Proof.
  intros Hx. destruct (f_nonneg_cases x Hx) as [[s ->]|[->|(m & e & -> & Hv)]]; [by destruct s|done|].
  by apply fmul_fin; [unfold f_fin; apply andb_true_intro|].
Qed.

Lemma flow_edges_ksp edges kk :
  flow_edges_ok edges = true → edges_ok (NewKShortestSolverWithLatency edges kk true) = true.
Proof.
  unfold flow_edges_ok, edges_ok. rewrite !forallb_forall. intros H e He. specialize (H e He).
  apply andb_true_iff in H as [H1 H2]. apply andb_true_iff in H1 as [H0 H1].
  unfold edge_cost. cbn [useLatency alpha NewKShortestSolverWithLatency].
  by rewrite fmul_r_one_nonneg, H1, H2.
Qed.

Lemma new_solver_latencies edges :
  flow_edges_ok edges = true → latencies_ok (NewFlowOptimizationSolver edges).
Proof.
  unfold latencies_ok, flow_edges_ok. cbn [latencyMap NewFlowOptimizationSolver].
  rewrite forallb_forall. setoid_rewrite <-list_elem_of_In. intros Hl.
  assert (∀ e, e ∈ edges → f_nonneg (Latency e) = true) as Hl'
    by (intros e He; specialize (Hl e He); by apply andb_true_iff in Hl as [[? _]%andb_true_iff _]).
  clear Hl. assert (∀ m : gmap string float64, (∀ k v, m !! k = Some v → f_nonneg v = true) →
    ∀ k v, foldl (λ m e, <[SourceIp e +:+ "->" +:+ DestinationIp e := Latency e]> m) m edges !! k = Some v →
    f_nonneg v = true) as H; [|by apply H; intros ? ?; rewrite lookup_empty].
  induction edges as [|e es IH]; intros m Hm; cbn [foldl]; [done|].
  apply IH; [intros; apply Hl'; by right|]. intros k v.
  rewrite lookup_insert_Some. intros [[_ <-]|[_ ?]]; [apply Hl'; left|by eapply Hm].
Qed.

Lemma build_start d start : buildResidualGraphWithCapacity d !! start = None →
  ∀ e, e ∈ fs_edges d → SourceIp e ≠ start.
Proof.
  unfold buildResidualGraphWithCapacity. generalize (∅ : resgraph).
  generalize (computeThetaA d). intros theta.
  assert (∀ es (g : resgraph), is_Some (g !! start) → is_Some
    (foldl (λ g e, <[SourceIp e := <[DestinationIp e :=
      {| flow := f0; cap := capacity d; thetaA := theta (Load e);
         effCap := fmul (theta (Load e)) (capacity d); banned := false;
         residual := fmul (theta (Load e)) (capacity d) |}]> (default ∅ (g !! SourceIp e))]> g) g es !! start)) as Hk.
  { induction es as [|e es IH]; intros g Hg; cbn [foldl]; [done|]. apply IH.
    rewrite lookup_insert. by case_decide. }
  induction (fs_edges d) as [|e es IH]; intros g Hn e' He'; [by apply not_elem_of_nil in He'|].
  cbn [foldl] in Hn. apply elem_of_cons in He' as [->|He']; [|by eapply IH].
  intros <-. edestruct (Hk es) as [x Hx]; [|by rewrite Hx in Hn]. by rewrite lookup_insert_eq.
Qed.

(** ** The result *)
Definition to_info (pi : PathWithInfo) : PathInfo :=
  {| Hops := pw_path pi; Rtt := pw_latency pi; RawRTT := pw_latency pi |}.

(** A path of the answer: simple, of at most 30 nodes, each hop over one of
    the given edges in one of its two directions. *)
Definition multi_path (edges : list Edge) (start end_ : string) (hs : list string) : Prop :=
  head hs = Some start ∧ last hs = Some end_ ∧ NoDup hs ∧ length hs ≤ 30 ∧
  ∀ i x y, hs !! i = Some x → hs !! S i = Some y → ∃ e, e ∈ edges ∧
    ((SourceIp e = x ∧ DestinationIp e = y) ∨ (SourceIp e = y ∧ DestinationIp e = x)).

Definition to_dest (end_ : string) (infos : list PathInfo) : nat :=
  length (filter (λ i, last (Hops i) = Some end_) infos).

(** A set of paths the solver may answer with. *)
Definition multi_solution (d : FlowOptimizationSolver) (start : string) (ends : list string)
    (infos : list PathInfo) : Prop :=
  infos ≠ [] ∧ NoDup (Hops <$> infos) ∧ (∀ e, to_dest e infos ≤ 2) ∧
  Forall (λ i, ∃ e, e ∈ ends ∧ multi_path (fs_edges d) start e (Hops i) ∧
    fle (Rtt i) (latency_bound d e) = true) infos.

(** No path of the untouched residual graph satisfies the bounds. *)
Definition no_feasible_path (d : FlowOptimizationSolver) (start : string) (ends : list string) : Prop :=
  (∀ e, e ∈ fs_edges d → SourceIp e ≠ start) ∨
  ∀ e, e ∈ ends → flt (latency_bound d e) (fadd (latency_bound d e) f1) = true →
    ∀ q l, walk d (buildResidualGraphWithCapacity d) start e q l →
      ¬ feasible (latency_bound d e) ∅ true q l.

Lemma solution_infos d start ends l : flowsPerDest d = 2 → l ≠ [] → solution_ok d start ends l →
  multi_solution d start ends (to_info <$> l).
Proof.
  intros Hf Hne [S1 S2 S3]. split; [by destruct l|]. split.
  { rewrite <-list_fmap_compose. apply (NoDup_fmap_1 pathToString). rewrite <-list_fmap_compose.
    exact S2. }
  split.
  - intros e. specialize (S3 e). rewrite Hf in S3. etransitivity; [|exact S3]. clear -S1.
    unfold to_dest, dest_count. induction S1 as [|pi l Hp Hl IH]; [done|].
    rewrite fmap_cons, !filter_cons. cbn [Hops to_info]. rewrite (po_last _ _ _ _ Hp).
    destruct (decide (Some (dest pi) = Some e)) as [[= E]|N].
    + rewrite decide_True by done. simpl. lia.
    + rewrite decide_False by congruence. done.
  - apply Forall_fmap. eapply Forall_impl; [exact S1|]. intros pi [P1 P2 P3 P4 P5 P6 P7].
    exists (dest pi). split; [done|]. split; [|exact P6]. do 4 (split; [done|]). intros i x y Hx Hy.
    destruct (P7 i x y Hx Hy) as [(e & He & ? & ?)|(e & He & ? & ?)]; exists e; eauto.
Qed.

Lemma empty_search d start ends tick :
  latencies_ok d → 0 < flowsPerDest d →
  allPaths (initial_search d start ends (init_state (buildResidualGraphWithCapacity d) tick)) = [] →
  no_feasible_path d start ends.
Proof.
  intros Hl Hf E. pose proof (initial_search_none d start ends (init_state _ tick) Hf eq_refl E) as Hn.
  cbn [resGraph init_state] in Hn.
  destruct (buildResidualGraphWithCapacity d !! start) as [m|] eqn:Es;
    [right|left; by apply build_start].
  intros e He Hb q l Hw Hq. destruct (Hn e He) as [tk H]. unfold findFeasiblePathWithLatency in H.
  rewrite Es in H. rewrite bool_decide_true in H by lia.
  fold (latency_bound d e) in H.
  pose proof (dfsPathSearch_spec d (buildResidualGraphWithCapacity d) start e (latency_bound d e) ∅ true
    false (step_cost d Hl _) tk) as Hd.
  destruct (dfsPathSearch _ _ _ _ _ _ _ _ _) as [[[p l']|] tk']; [done|]. by eapply Hd.
Qed.

Lemma carousel_spec d start ends tick :
  latencies_ok d → NoDup ends → size_ok d ends → flowsPerDest d = 2 →
  match carousel d start ends tick with
  | inl infos => multi_solution d start ends infos
  | inr _ => no_feasible_path d start ends
  end.
Proof.
  intros Hl Hnd Hs Hf. unfold carousel.
  set (st := initial_search d start ends _).
  case_bool_decide as He.
  { apply nil_length_inv in He. eapply empty_search; [done|lia|exact He]. }
  apply solution_infos; [done| |].
  - apply optimise_best. rewrite remove_oldest_best. cbn [bestPaths record_initial].
    rewrite copyPathList_id. by destruct (allPaths st).
  - apply optimise_books; [done..|]. apply remove_oldest_books; [done..|]. apply record_initial_books.
    apply initial_search_books; try done. by apply init_books.
Qed.

(** The parameters of a run, and the run of [ComputingMulti] in terms of them. *)
Definition valid_ends (edges : list Edge) (ends : list string) : list string :=
  filter (λ e, e ∈ build_nodes edges) ends.

Definition run_solver (edges : list Edge) (ends : list string) (uhot : float64)
    (theta : gmap string float64) : FlowOptimizationSolver :=
  set_params (f_of_Z (Z.of_nat (length (valid_ends edges ends) * 2))) uhot theta
    (NewFlowOptimizationSolver edges).

Lemma Flow_run edges start ends tick :
  flow_edges_ok edges = true → (Z.of_nat (length edges) < 2 ^ 53)%Z →
  let d := NewFlowOptimizationSolver edges in
  let valid := valid_ends edges ends in
  (∃ err, Flow_ComputingMulti d start ends tick = Some (Ret (inr err)) ∧
     (ends = [] ∨ (start ∉ build_nodes edges) ∨ Forall (λ e, e ∉ build_nodes edges) ends)) ∨
  ∃ uhot theta, computePercentile d (f_of_Z 90) = Ret uhot ∧
    computeThetaLForDestinations d start valid = Some theta ∧
    Flow_ComputingMulti d start ends tick =
      Some (Ret (carousel (run_solver edges ends uhot theta) start valid tick)).
Proof.
  intros Hok Hlen d valid. unfold Flow_ComputingMulti. cbn [fs_edges NewFlowOptimizationSolver d].
  case_bool_decide as He; [left; eexists; split; [done|]; left; by apply nil_length_inv|].
  destruct (bool_decide_reflect (start ∈ build_nodes edges)) as [Hs|Hs]; cbn [negb]; [|left; by eauto].
  fold (valid_ends edges ends) valid. case_bool_decide as Hv.
  { left. eexists. split; [done|]. right; right. apply Forall_forall. intros e He' Hin.
    apply nil_length_inv in Hv. assert (e ∈ valid) as Hx by (by apply list_elem_of_filter).
    rewrite Hv in Hx. by apply not_elem_of_nil in Hx. }
  destruct (computePercentile_ok d Hlen) as [uhot Hu]. fold d. rewrite Hu.
  destruct (computeThetaL_ok d start valid) as [theta Ht]; [by apply flow_edges_ksp|done|].
  rewrite Ht. right. by exists uhot, theta.
Qed.

Lemma run_carousel_spec edges start ends uhot theta tick :
  flow_edges_ok edges = true → NoDup ends → (Z.of_nat (60 * length ends + 30) < 2 ^ 53)%Z →
  let valid := valid_ends edges ends in
  let d := run_solver edges ends uhot theta in
  match carousel d start valid tick with
  | inl infos => multi_solution d start valid infos
  | inr _ => no_feasible_path d start valid
  end.
Proof.
  intros Hok Hnd Hsize valid d. apply (carousel_spec d start valid tick).
  - by apply new_solver_latencies.
  - by apply NoDup_filter.
  - unfold size_ok. cbn [d flowsPerDest run_solver set_params NewFlowOptimizationSolver]. unfold maxHops.
    pose proof (length_filter (λ e, e ∈ build_nodes edges) ends).
    change (length (filter (λ e, e ∈ build_nodes edges) ends)) with (length valid) in H. lia.
  - done.
Qed.

End Multi.

(** ** Instances of the theorems *)
Definition flow_edges : list Edge :=
  [mk_edge "s" "a" 1 1; mk_edge "a" "b" 1 1; mk_edge "b" "t" 1 1; mk_edge "s" "b" 2 2;
   mk_edge "a" "t" 2 2].

Definition flow_solver : FlowOptimizationSolver :=
  set_params (f_of_Z 2) f0 {["t" := f_of_Z 5]} (NewFlowOptimizationSolver flow_edges).

Lemma flow_solver_latencies : latencies_ok flow_solver.
Proof. by apply (new_solver_latencies flow_edges). Qed.

Lemma findFeasiblePathWithLatency_correct_witness : ∃ pi,
  (findFeasiblePathWithLatency flow_solver (buildResidualGraphWithCapacity flow_solver) "s" "t" ∅ 1 0).1
    = Some pi ∧ pw_latency pi = f_of_Z 3 ∧
  feasible (f_of_Z 5) ∅ true (pw_path pi) (pw_latency pi).
Proof.
  pose proof (findFeasiblePathWithLatency_correct flow_solver (buildResidualGraphWithCapacity flow_solver)
    "s" "t" ∅ 1 0 flow_solver_latencies) as H.
  assert (latency_bound flow_solver "t" = f_of_Z 5) as E by (vm_compute; reflexivity).
  rewrite E in H. specialize (H ltac:(vm_compute; eauto) ltac:(vm_compute; reflexivity)).
  destruct (findFeasiblePathWithLatency _ _ _ _ _ _ _).1 as [pi|] eqn:Ef.
  - exists pi. split; [reflexivity|]. split; [|apply H].
    assert (Some (pw_latency pi) = Some (f_of_Z 3)) as [= ->]; [|reflexivity].
    change (Some (pw_latency pi)) with (pw_latency <$> Some pi). rewrite <-Ef. vm_compute. reflexivity.
  - vm_compute in Ef. discriminate Ef.
Defined.

Lemma carousel_books_witness : ∃ st, books flow_solver "s" ["t"] st ∧ length (allPaths st) = 1.
Proof.
  eexists. split; [apply (carousel_books flow_solver "s" ["t"] 1 0 0 flow_solver_latencies)|].
  - apply NoDup_singleton.
  - unfold size_ok, maxHops. simpl. lia.
  - vm_compute. reflexivity.
Defined.


(** The draws of the run below: all but one draw the last outcome. *)
#[local] Program Instance late_source : RandSource :=
  {| rand_Intn pos n := if bool_decide (pos = 10) then 0 else n - 1;
     rand_Float64 _ := f0; rand_Perm _ n := seq 0 n |}.
Next Obligation. intros pos n Hn. simpl. case_bool_decide; lia. Qed.
Next Obligation. done. Qed.
Next Obligation. done. Qed.

(** The answer may use a link that does not exist.  On five directed edges
    none of which goes from b to a, a run of the solver answers with the path s,
    b, a, t: the search went backward over the edge from a to b, which the first
    path loads, and the path is returned as it was found. *)
Theorem carousel_invents_link :
  (∃ infos,
     Flow_ComputingMulti (NewFlowOptimizationSolver flow_edges) "s" ["t"] 0 = Some (Ret (inl infos)) ∧
     Hops <$> infos = [["s"; "a"; "b"; "t"]; ["s"; "b"; "a"; "t"]]) ∧
  Forall (λ e, ¬ (SourceIp e = "b" ∧ DestinationIp e = "a")) flow_edges.
Proof.
  split; [eexists; split; [vm_compute; reflexivity|reflexivity]|].
  repeat constructor; by intros [? ?].
Qed.

(** A destination that is given twice: three paths lead to it, where the limit
    is two. *)
Lemma repeated_destination : ∃ infos,
  Flow_ComputingMulti (NewFlowOptimizationSolver flow_edges) "s" ["t"; "t"] 0 = Some (Ret (inl infos)) ∧
  flowsPerDest (NewFlowOptimizationSolver flow_edges) = 2 ∧ to_dest "t" infos = 3.
Proof. eexists. split; [vm_compute; reflexivity|]. split; reflexivity. Qed.
