(* ===== verification/LastMile.v ===== *)
(** * The last-mile routers

    [control-plane/routing/edge-domain]: how a user is assigned to edge nodes.
    The joint CPU/latency router and the power-of-two-choices router score or
    weigh every node from its telemetry; the EWMA router smooths both signals
    over the calls of one router object. *)
From S2P Require Import Prelude Float64 FloatDiv GoStrings Records.

(** ** [sort.Slice]

    The library sorts by an unspecified algorithm that is not stable: all that
    is known is that it permutes the slice and orders it when [less] is a
    strict weak order on its elements. *)
Class SliceSort := {
  sort_slice {A : Type} (less : A → A → bool) (l : list A) : list A;
  sort_slice_perm {A : Type} (less : A → A → bool) l : sort_slice less l ≡ₚ l;
  sort_slice_sorted {A : Type} (P : A → Prop) (less : A → A → bool) `{!WeakOrder P less} l :
    Forall P l → sorted_by less (sort_slice less l);
}.

#[export] Program Instance exchange_slice_sort : SliceSort | 100 :=
  {| sort_slice A less l := exchange_sort less l |}.
Next Obligation. intros. apply exchange_sort_perm. Qed.
Next Obligation. intros. by apply exchange_sort_sorted with (P := P). Qed.

Abbreviation Telemetry := (gmap string NodeTelemetry).
Abbreviation EdgeAgg := (gmap string LastCongestion).

(** [GetNodeRT], whose text is the same in the three routers that have it:
    [None] is the nil pointer. *)
Definition node_rt (nodeTel : Telemetry) (edgeAgg : EdgeAgg) (source : EndPoint) (nodeIP : string)
    : option LastCongestion :=
  match nodeTel !! nodeIP with
  | None => None
  | Some _ =>
      match edgeAgg !! (ep_City source +:+ "-" +:+ nodeIP) with
      | Some val => Some val
      | None => Some {| Count := 1; SumRT := f0; AvgRT := f_of_Z 50; P95RT := 0 |}
      end
  end.

Section Routers.
Context `{RO : RangeOrder} `{SS : SliceSort}.
(** [util.Config_.Node.IP.Public]: the address of this node. *)
Variable localIP : string.

(** The candidates: every node, or the local one when there is none. *)
Definition collect_nodes (nodeTel : Telemetry) : list string :=
  let nodeIps := PublicIP <$> (range_map 30 nodeTel).*2 in
  if bool_decide (length nodeIps ≤ 0) then [localIP] else nodeIps.

(** ** [JointRouter] *)
Record JointRouter := {
  jr_edgeAgg : EdgeAgg;
  jr_nodeTel : Telemetry;
  cpuWeight : float64;
  latencyWeight : float64;
}.

Definition NewJointRouter (edgeAgg : EdgeAgg) (nodeTel : Telemetry) : JointRouter :=
  {| jr_edgeAgg := edgeAgg; jr_nodeTel := nodeTel;
     cpuWeight := f_of_frac 5 10; latencyWeight := f_of_frac 5 10 |}.

Definition SetWeights (cpu lat : float64) (r : JointRouter) : JointRouter :=
  let set c l := {| jr_edgeAgg := jr_edgeAgg r; jr_nodeTel := jr_nodeTel r;
                    cpuWeight := c; latencyWeight := l |} in
  if flt f0 cpu && flt f0 lat then
    let total := fadd cpu lat in
    set (fdiv cpu total) (fdiv lat total)
  else if feq cpu f0 && flt f0 lat then set f0 f1
  else if feq lat f0 && flt f0 cpu then set f1 f0
  else r.

Definition Joint_GetNodeRT (r : JointRouter) (source : EndPoint) (nodeIP : string) :=
  node_rt (jr_nodeTel r) (jr_edgeAgg r) source nodeIP.

Definition joint_score (r : JointRouter) (source : EndPoint) (nodeIp : string)
    (tel : NodeTelemetry) : float64 :=
  let stats :=
    match Joint_GetNodeRT r source nodeIp with
    | Some stats =>
        if bool_decide (Count stats = 0)%Z
        then {| Count := 0; SumRT := f0; AvgRT := f_of_Z 500; P95RT := 0 |} else stats
    | None => {| Count := 0; SumRT := f0; AvgRT := f_of_Z 500; P95RT := 0 |}
    end in
  let delay := AvgRT stats in
  let delay := if fle delay f0 then f_of_Z 100 else delay in
  let Qk := Usage (Cpu tel) in
  let Qk := if flt Qk f0 then f_of_Z 100 else Qk in
  fadd (fmul (cpuWeight r) Qk) (fmul (latencyWeight r) delay).

(** A candidate of [JointRouter] and [LyapunovSolver]. *)
Definition nodeScore : Type := string * float64.
Definition score_less (a b : nodeScore) : bool := flt a.2 b.2.

Definition Joint_Computing (r : JointRouter) (endPoints : EndPoints) : list PathInfo :=
  let source := Source endPoints in
  let nodeIps := collect_nodes (jr_nodeTel r) in
  let candidates : list nodeScore :=
    omap (λ nodeIp, match jr_nodeTel r !! nodeIp with
                    | None => None
                    | Some tel => Some (nodeIp, joint_score r source nodeIp tel)
                    end) nodeIps in
  if bool_decide (length candidates = 0) then []
  else (λ item, {| Hops := [item.1]; Rtt := item.2; RawRTT := f0 |})
         <$> sort_slice score_less candidates.

(** ** [P2CRouter] *)
Record P2CRouter := {
  p2_nodeTel : Telemetry;
  p2_edgeAgg : EdgeAgg;
}.

Definition NewP2CRouter (nodeTel : Telemetry) (edgeAgg : EdgeAgg) : P2CRouter :=
  {| p2_nodeTel := nodeTel; p2_edgeAgg := edgeAgg |}.

Definition p2c_weight (r : P2CRouter) (nodeIP : string) : float64 :=
  let load :=
    match p2_nodeTel r !! nodeIP with
    | Some tel =>
        let load := Usage (Cpu tel) in
        if flt load f0 || feq load f0 then f_of_Z 100 else load
    | None => f_of_Z 100
    end in
  fdiv f1 load.

Definition P2C_Computing (r : P2CRouter) (endPoints : EndPoints) : list PathInfo :=
  let nodeIps := collect_nodes (p2_nodeTel r) in
  let weights := (λ nodeIP, (nodeIP, p2c_weight r nodeIP)) <$> nodeIps in
  let totalWeight := fsum weights.*2 in
  (λ w, {| Hops := [w.1]; Rtt := fdiv w.2 totalWeight; RawRTT := f0 |}) <$> weights.

(** Only used in a log line. *)
Definition getNodeLatency (r : P2CRouter) (source : EndPoint) (nodeIP : string) : float64 :=
  match p2_edgeAgg r !! (ep_City source +:+ "-" +:+ nodeIP) with
  | Some cong => if bool_decide (0 < Count cong)%Z then AvgRT cong else f_of_Z 50
  | None => f_of_Z 50
  end.

(** ** [EWMARouter] *)
Record EWMARouter := {
  ew_nodeTel : Telemetry;
  ew_edgeAgg : EdgeAgg;
  cpuEWMA : gmap string float64;
  latEWMA : gmap string float64;
  cpuAlpha : float64;
  latAlpha : float64;
  lambda : float64;
}.

Definition NewEWMARouter (nodeTel : Telemetry) (edgeAgg : EdgeAgg) : EWMARouter :=
  {| ew_nodeTel := nodeTel; ew_edgeAgg := edgeAgg; cpuEWMA := ∅; latEWMA := ∅;
     cpuAlpha := f_of_frac 3 10; latAlpha := f_of_frac 3 10; lambda := f_of_frac 5 10 |}.

Definition SetAlpha (alpha lambda : float64) (r : EWMARouter) : EWMARouter :=
  {| ew_nodeTel := ew_nodeTel r; ew_edgeAgg := ew_edgeAgg r;
     cpuEWMA := cpuEWMA r; latEWMA := latEWMA r;
     cpuAlpha := alpha; latAlpha := alpha; lambda := lambda |}.

(** [X(t) = α * x(t) + (1-α) * X(t-1)], the first observation as it is. *)
Definition ewma_next (alpha : float64) (m : gmap string float64) (nodeIP : string) (x : float64)
    : gmap string float64 :=
  match m !! nodeIP with
  | None => <[nodeIP := x]> m
  | Some current => <[nodeIP := fadd (fmul alpha x) (fmul (fsub f1 alpha) current)]> m
  end.

Definition updateEWMACPU (nodeIP : string) (cpuUsage : float64) (r : EWMARouter) : EWMARouter :=
  {| ew_nodeTel := ew_nodeTel r; ew_edgeAgg := ew_edgeAgg r;
     cpuEWMA := ewma_next (cpuAlpha r) (cpuEWMA r) nodeIP cpuUsage; latEWMA := latEWMA r;
     cpuAlpha := cpuAlpha r; latAlpha := latAlpha r; lambda := lambda r |}.

Definition updateEWMALatency (nodeIP : string) (latency : float64) (r : EWMARouter) : EWMARouter :=
  {| ew_nodeTel := ew_nodeTel r; ew_edgeAgg := ew_edgeAgg r;
     cpuEWMA := cpuEWMA r; latEWMA := ewma_next (latAlpha r) (latEWMA r) nodeIP latency;
     cpuAlpha := cpuAlpha r; latAlpha := latAlpha r; lambda := lambda r |}.

Definition getCPUEWMA (r : EWMARouter) (nodeIP : string) : float64 :=
  default (f_of_Z 100) (cpuEWMA r !! nodeIP).

Definition getLatEWMA (r : EWMARouter) (nodeIP : string) : float64 :=
  default (f_of_Z 500) (latEWMA r !! nodeIP).

Definition EWMA_GetNodeRT (r : EWMARouter) (source : EndPoint) (nodeIP : string) :=
  node_rt (ew_nodeTel r) (ew_edgeAgg r) source nodeIP.

(** The observations of one call. *)
Definition ewma_cpu (tel : NodeTelemetry) : float64 :=
  let cpuUsage := Usage (Cpu tel) in
  if flt cpuUsage f0 then f_of_Z 100 else cpuUsage.

Definition ewma_latency (r : EWMARouter) (source : EndPoint) (nodeIp : string) : float64 :=
  let latency :=
    match EWMA_GetNodeRT r source nodeIp with
    | Some stats => if bool_decide (0 < Count stats)%Z then AvgRT stats else f_of_Z 100
    | None => f_of_Z 100
    end in
  if fle latency f0 then f_of_Z 100 else latency.

Record ewmaScore := {
  es_nodeIp : string;
  es_cpuEwma : float64;
  es_latEwma : float64;
}.

(** One turn of the first pass. *)
Definition ewma_observe (source : EndPoint) (st : EWMARouter * list ewmaScore) (nodeIp : string)
    : EWMARouter * list ewmaScore :=
  let '(r, candidates) := st in
  match ew_nodeTel r !! nodeIp with
  | None => st
  | Some tel =>
      let r := updateEWMACPU nodeIp (ewma_cpu tel) r in
      let cpuEwma := getCPUEWMA r nodeIp in
      let r := updateEWMALatency nodeIp (ewma_latency r source nodeIp) r in
      let latEwma := getLatEWMA r nodeIp in
      (r, candidates ++ [{| es_nodeIp := nodeIp; es_cpuEwma := cpuEwma; es_latEwma := latEwma |}])
  end.

Definition ewma_combined (r : EWMARouter) (c : ewmaScore) : float64 :=
  let latencyScale := f1 in
  let normCPU := es_cpuEwma c in
  let normLat := fdiv (es_latEwma c) latencyScale in
  fadd (fmul (lambda r) normCPU) (fmul (fsub f1 (lambda r)) normLat).

Definition inverse_weight (combined : float64) : float64 :=
  if flt f0 combined then fdiv f1 combined else f1.

(** The router after the call, with its updated averages, and the paths. *)
Definition EWMA_Computing (r : EWMARouter) (endPoints : EndPoints) : EWMARouter * list PathInfo :=
  let source := Source endPoints in
  let nodeIps := collect_nodes (ew_nodeTel r) in
  let '(r, candidates) := foldl (ewma_observe source) (r, []) nodeIps in
  if bool_decide (length candidates = 0) then (r, [])
  else
    let scored := (λ c, (es_nodeIp c, ewma_combined r c)) <$> candidates in
    let sorted := exchange_sort score_less scored in
    let rawWeights := (λ c, inverse_weight c.2) <$> sorted in
    let totalWeight := fsum rawWeights in
    (r, (λ c, {| Hops := [c.1]; Rtt := fdiv (inverse_weight c.2) totalWeight; RawRTT := c.2 |})
          <$> sorted).

(** [GetEWMASummary]: the CPU averages with the latency average of their node. *)
Definition GetEWMASummary (r : EWMARouter) : gmap string (float64 * float64) :=
  map_imap (λ nodeIP cpuVal, Some (cpuVal, default f0 (latEWMA r !! nodeIP))) (cpuEWMA r).

(** ** The candidates *)

(** The telemetry is stored under the node's own address: the invariant of
    [GraphManager], whose map the routers are given. *)
Definition keyed (nodeTel : Telemetry) : Prop :=
  ∀ ip n, nodeTel !! ip = Some n → PublicIP n = ip.

(** One single-hop path per node, and nothing else. *)
Definition covers (nodeTel : Telemetry) (paths : list PathInfo) : Prop :=
  Hops <$> paths ≡ₚ (λ ip, [ip]) <$> (map_to_list nodeTel).*1.

Lemma collect_nodes_perm nodeTel : keyed nodeTel → nodeTel ≠ ∅ →
  collect_nodes nodeTel ≡ₚ (map_to_list nodeTel).*1.
Proof.
  intros Hk Hne. unfold collect_nodes.
  assert (PublicIP <$> (range_map 30 nodeTel).*2 = (range_map 30 nodeTel).*1) as E.
  { rewrite <-list_fmap_compose. apply list_fmap_ext.
    intros i [ip n] Hi%list_elem_of_lookup_2%range_map_elem. simpl. by apply Hk. }
  rewrite E. rewrite bool_decide_eq_false_2; [by rewrite range_map_perm|].
  rewrite !length_fmap. rewrite range_map_perm, length_map_to_list.
  intros H. apply Hne, map_size_empty_iff. lia.
Qed.

Lemma collect_nodes_empty : collect_nodes ∅ = [localIP].
Proof.
  unfold collect_nodes.
  assert (range_map 30 (∅ : Telemetry) = []) as ->; [|done].
  apply Permutation_nil_r. by rewrite range_map_perm, map_to_list_empty.
Qed.

Lemma collect_nodes_elem nodeTel ip : keyed nodeTel → nodeTel ≠ ∅ →
  ip ∈ collect_nodes nodeTel ↔ is_Some (nodeTel !! ip).
Proof.
  intros Hk Hne. rewrite collect_nodes_perm by done. rewrite list_elem_of_fmap. split.
  - intros ([ip' n] & -> & Hin%elem_of_map_to_list). eauto.
  - intros [n Hn]. exists (ip, n). split; [done|]. by apply elem_of_map_to_list.
Qed.

(** The loop that keeps the nodes with telemetry: all of them, or none when
    the list is the fallback to the local node. *)
Lemma scored_nodes {B} nodeTel (f : string → NodeTelemetry → B) : keyed nodeTel →
  let candidates := omap (λ ip, match nodeTel !! ip with
                                | None => None
                                | Some tel => Some (ip, f ip tel)
                                end) (collect_nodes nodeTel) in
  candidates.*1 ≡ₚ (map_to_list nodeTel).*1 ∧
  Forall (λ c, ∃ tel, nodeTel !! c.1 = Some tel ∧ c.2 = f c.1 tel) candidates.
Proof.
  intros Hk candidates. split.
  - destruct (decide (nodeTel = ∅)) as [->|Hne].
    { unfold candidates. rewrite collect_nodes_empty. cbn [omap list_omap].
      by rewrite lookup_empty, map_to_list_empty. }
    rewrite <-collect_nodes_perm by done. unfold candidates.
    assert (∀ ip, ip ∈ collect_nodes nodeTel → is_Some (nodeTel !! ip)) as Hin
      by (intros ip; by apply collect_nodes_elem).
    revert Hin. induction (collect_nodes nodeTel) as [|ip l IH]; intros Hin; [done|].
    destruct (Hin ip) as [tel Htel]; [left|]. cbn [omap list_omap]. rewrite Htel. simpl.
    constructor. apply IH. intros ip' Hip'. apply Hin. by right.
  - apply Forall_forall. intros [ip b] (ip' & _ & Hip')%list_elem_of_omap.
    destruct (nodeTel !! ip') as [tel|] eqn:E; [|done]. simplify_eq. simpl. eauto.
Qed.

(** ** Joint router *)
Definition joint_ok (r : JointRouter) : Prop :=
  f_fin (cpuWeight r) = true ∧ f_fin (latencyWeight r) = true ∧
  (∀ ip tel, jr_nodeTel r !! ip = Some tel → f_finite (Usage (Cpu tel)) = true) ∧
  (∀ key v, jr_edgeAgg r !! key = Some v → f_finite (AvgRT v) = true).

Lemma node_rt_finite nodeTel edgeAgg source ip v :
  (∀ key v, edgeAgg !! key = Some v → f_finite (AvgRT v) = true) →
  node_rt nodeTel edgeAgg source ip = Some v → f_finite (AvgRT v) = true.
Proof.
  intros He. unfold node_rt. destruct (nodeTel !! ip); [|done].
  destruct (edgeAgg !! _) eqn:E; intros [= <-]; [by eapply He|done].
Qed.

Lemma joint_score_num r source ip tel : joint_ok r → jr_nodeTel r !! ip = Some tel →
  f_nonneg (joint_score r source ip tel) = true.
Proof.
  intros (Hc & Hl & Hu & Ha) Htel. unfold joint_score.
  apply fadd_nonneg_closed; apply fmul_fin; [done| |done|].
  - apply f_finite_not_lt; [by eapply Hu|done].
  - apply f_finite_not_le; [|done]. unfold Joint_GetNodeRT.
    destruct (node_rt _ _ _ _) as [v|] eqn:E; [|done].
    case_bool_decide; [done|]. by eapply node_rt_finite.
Qed.

Lemma SetWeights_ok cpu lat r :
  f_fin cpu = true → f_fin lat = true → f_finite (fadd cpu lat) = true →
  joint_ok r → joint_ok (SetWeights cpu lat r).
Proof.
  intros Hc Hl Ht Hr. unfold SetWeights.
  pose proof Hr as (_ & _ & Hu & Ha).
  destruct (flt f0 cpu && flt f0 lat) eqn:E1; cycle 1.
  { destruct (feq cpu f0 && flt f0 lat); [by split_and!|].
    destruct (feq lat f0 && flt f0 cpu); [by split_and!|done]. }
  apply andb_true_iff in E1 as [Ec El].
  assert (∀ x, f_nonneg x = true → fle x (fadd cpu lat) = true →
    f_fin (fdiv x (fadd cpu lat)) = true) as Hshare.
  { intros x Hx Hle.
    assert (flt f0 (fadd cpu lat) = true) as Hpos.
    { eapply flt_le_trans; [exact Ec|]. apply fadd_nonneg_l; by apply f_fin_nonneg. }
    assert (flt (fadd cpu lat) f_inf = true) as Hfin by (by destruct (fadd cpu lat)).
    destruct (fdiv_share x (fadd cpu lat)) as [H0 H1]; [done| |done..|].
    { apply fadd_nonneg_closed; by apply f_fin_nonneg. }
    assert (f_nonneg (fdiv x (fadd cpu lat)) = true) as Hn.
    { apply fdiv_nonneg; [by apply f_nonneg_ge0|done|]. intros _ E. by rewrite E in Hfin. }
    unfold f_fin. rewrite H0, andb_true_r.
    destruct (f_nonneg_cases _ Hn) as [[s ->]|[E|(m & e & -> & ?)]]; [done| |done].
    by rewrite E in H1. }
  split; [|split; [|done]]; apply Hshare.
  - by apply f_fin_nonneg.
  - apply fadd_nonneg_l; by apply f_fin_nonneg.
  - by apply f_fin_nonneg.
  - apply fadd_nonneg_r; by apply f_fin_nonneg.
Qed.

Definition score_num (a : nodeScore) : Prop := is_num a.2 = true.
#[export] Instance score_less_weak : WeakOrder score_num score_less.
Proof. exact (weak_order_on snd _ _). Qed.

Definition rtt_order (p q : PathInfo) : bool := flt (Rtt p) (Rtt q).

Lemma Joint_covers r endPoints : keyed (jr_nodeTel r) →
  covers (jr_nodeTel r) (Joint_Computing r endPoints).
Proof.
  intros Hk. unfold Joint_Computing, covers.
  pose proof (scored_nodes (jr_nodeTel r) (joint_score r (Source endPoints)) Hk) as [Hp Hs].
  match goal with |- context [sort_slice _ ?l] => set (candidates := l) in * end.
  case_bool_decide as Hlen.
  { apply nil_length_inv in Hlen. rewrite Hlen in Hp. simpl in Hp.
    apply Permutation_nil in Hp. by rewrite Hp. }
  rewrite <-list_fmap_compose. rewrite sort_slice_perm, <-Hp. by rewrite <-list_fmap_compose.
Qed.

(** The joint router answers with exactly one single-hop path per node of
    the telemetry (none when there is no node: the local fallback has no
    telemetry and is dropped), each with the node's own score, and in
    ascending order of score as long as the inputs are finite numbers. *)
Theorem Joint_Computing_correct r endPoints : keyed (jr_nodeTel r) →
  let paths := Joint_Computing r endPoints in
  covers (jr_nodeTel r) paths ∧
  Forall (λ p, ∃ ip tel, Hops p = [ip] ∧ jr_nodeTel r !! ip = Some tel ∧
    Rtt p = joint_score r (Source endPoints) ip tel) paths ∧
  (joint_ok r → sorted_by rtt_order paths).
Proof.
  intros Hk paths. split; [by apply Joint_covers|]. unfold paths, Joint_Computing.
  pose proof (scored_nodes (jr_nodeTel r) (joint_score r (Source endPoints)) Hk) as [Hp Hs].
  match goal with |- context [sort_slice _ ?l] => set (candidates := l) in * end.
  case_bool_decide as Hlen; [split; constructor|]. split.
  - apply Forall_fmap. rewrite sort_slice_perm. eapply Forall_impl; [exact Hs|].
    intros [ip s] (tel & Htel & E). by exists ip, tel.
  - intros Hok. apply sorted_by_fmap with (less1 := score_less); [done|].
    apply (sort_slice_sorted score_num); [apply _|]. eapply Forall_impl; [exact Hs|].
    intros [ip s] (tel & Htel & E). unfold score_num. rewrite E.
    by apply f_nonneg_num, joint_score_num.
Qed.

(** ** Power of two choices *)
Lemma p2c_weight_nonneg r ip :
  (∀ tel, p2_nodeTel r !! ip = Some tel → f_finite (Usage (Cpu tel)) = true) →
  f_nonneg (p2c_weight r ip) = true.
Proof.
  intros Hu. unfold p2c_weight. apply fdiv_nonneg; [done| |done].
  destruct (p2_nodeTel r !! ip) as [tel|] eqn:E; [|done].
  specialize (Hu tel eq_refl). destruct (flt (Usage (Cpu tel)) f0) eqn:E1; [done|].
  destruct (feq (Usage (Cpu tel)) f0) eqn:E2; [done|]. simpl.
  by destruct (Usage (Cpu tel)) as [| | |[]].
Qed.

(** The total of the weights, as the router computes it. *)
Definition p2c_total (r : P2CRouter) : float64 := fsum (p2c_weight r <$> collect_nodes (p2_nodeTel r)).

Definition unit_interval (x : float64) : Prop := fle f0 x = true ∧ fle x f1 = true.

Lemma P2C_covers r endPoints : keyed (p2_nodeTel r) → p2_nodeTel r ≠ ∅ →
  covers (p2_nodeTel r) (P2C_Computing r endPoints).
Proof.
  intros Hk Hne. unfold P2C_Computing, covers. rewrite <-collect_nodes_perm by done.
  by rewrite <-!list_fmap_compose.
Qed.

(** The power-of-two-choices router gives every node exactly one share, the
    inverse of its load over the total, and every share is a number between 0
    and 1 whenever the loads are finite and the total is positive and finite;
    without any node the local one gets the whole traffic. *)
Theorem P2C_Computing_correct r endPoints : keyed (p2_nodeTel r) →
  let paths := P2C_Computing r endPoints in
  (p2_nodeTel r ≠ ∅ → covers (p2_nodeTel r) paths) ∧
  (p2_nodeTel r = ∅ → paths = [{| Hops := [localIP]; Rtt := f1; RawRTT := f0 |}]) ∧
  Forall (λ p, ∃ ip, Hops p = [ip] ∧ Rtt p = fdiv (p2c_weight r ip) (p2c_total r)) paths ∧
  ((∀ ip tel, p2_nodeTel r !! ip = Some tel → f_finite (Usage (Cpu tel)) = true) →
   flt f0 (p2c_total r) = true → flt (p2c_total r) f_inf = true →
   Forall (λ p, unit_interval (Rtt p)) paths).
Proof.
  intros Hk paths. split; [by apply P2C_covers|]. unfold paths, P2C_Computing.
  assert (((λ nodeIP, (nodeIP, p2c_weight r nodeIP)) <$> collect_nodes (p2_nodeTel r)).*2
    = p2c_weight r <$> collect_nodes (p2_nodeTel r)) as E by (by rewrite <-list_fmap_compose).
  rewrite E. fold (p2c_total r). split_and!.
  - intros Hem. unfold p2c_total. rewrite Hem, collect_nodes_empty. simpl.
    unfold p2c_weight. rewrite Hem, lookup_empty. vm_compute. reflexivity.
  - apply Forall_fmap, Forall_fmap, Forall_forall. intros ip _. by exists ip.
  - intros Hu Hpos Hfin. apply Forall_fmap, Forall_fmap, Forall_forall. intros ip Hip. simpl.
    assert (Forall (λ x, f_nonneg x = true) (p2c_weight r <$> collect_nodes (p2_nodeTel r))) as Hn.
    { apply Forall_fmap, Forall_forall. intros ip' _. apply p2c_weight_nonneg. eauto. }
    pose proof (shares_unit _ Hn Hpos Hfin) as Hs. rewrite Forall_fmap in Hs.
    by eapply Forall_forall in Hs.
Qed.

(** ** EWMA router *)
Lemma inverse_weight_nonneg c : f_nonneg (inverse_weight c) = true.
Proof.
  unfold inverse_weight. destruct (flt f0 c) eqn:E; [|done]. by apply fdiv_nonneg.
Qed.

Lemma ewma_observe_all source ips r cs :
  let '(r', cs') := foldl (ewma_observe source) (r, cs) ips in
  ew_nodeTel r' = ew_nodeTel r ∧
  es_nodeIp <$> cs' = (es_nodeIp <$> cs) ++ filter (λ ip, is_Some (ew_nodeTel r !! ip)) ips.
Proof.
  revert r cs. induction ips as [|ip ips IH]; intros r cs; simpl.
  { by rewrite app_nil_r. }
  rewrite filter_cons. destruct (ew_nodeTel r !! ip) as [tel|] eqn:E.
  - rewrite decide_True by eauto.
    match goal with |- context [foldl _ (?r1, ?c1) ips] => specialize (IH r1 c1) end.
    destruct (foldl _ _ ips) as [r' cs']. simpl in IH. destruct IH as [-> ->].
    split; [done|]. rewrite fmap_app, <-app_assoc. done.
  - rewrite decide_False by (by intros [? ?]). apply IH.
Qed.

Lemma filter_nodes nodeTel : keyed nodeTel →
  filter (λ ip, is_Some (nodeTel !! ip)) (collect_nodes nodeTel) ≡ₚ (map_to_list nodeTel).*1.
Proof.
  intros Hk. destruct (decide (nodeTel = ∅)) as [->|Hne].
  - rewrite collect_nodes_empty, map_to_list_empty, filter_cons_False; [done|].
    rewrite lookup_empty. by intros [? ?].
  - rewrite filter_all; [by apply collect_nodes_perm|].
    apply Forall_forall. intros ip. by apply collect_nodes_elem.
Qed.

(** The weights behind a list of paths. *)
Definition ewma_total (paths : list PathInfo) : float64 :=
  fsum ((λ p, inverse_weight (RawRTT p)) <$> paths).

Lemma EWMA_covers r endPoints : keyed (ew_nodeTel r) →
  covers (ew_nodeTel r) (EWMA_Computing r endPoints).2.
Proof.
  intros Hk. unfold EWMA_Computing.
  pose proof (ewma_observe_all (Source endPoints) (collect_nodes (ew_nodeTel r)) r []) as H.
  destruct (foldl _ _ _) as [r' cs]. destruct H as [Hr Hcs]. simpl in Hcs.
  pose proof (filter_nodes _ Hk) as Hf. rewrite <-Hcs in Hf. unfold covers.
  case_bool_decide as Hlen; [apply nil_length_inv in Hlen as ->; by rewrite <-Hf|].
  rewrite <-Hf. cbn [snd]. rewrite <-list_fmap_compose, exchange_sort_perm. by rewrite <-!list_fmap_compose.
Qed.

(** Whatever the history of the averages, the EWMA router answers with
    exactly one single-hop path per node; the probability of a path is the
    inverse of its score over the total, and all are numbers between 0 and 1
    when the total is positive and finite. *)
Theorem EWMA_Computing_correct r endPoints : keyed (ew_nodeTel r) →
  let '(r', paths) := EWMA_Computing r endPoints in
  ew_nodeTel r' = ew_nodeTel r ∧ covers (ew_nodeTel r) paths ∧
  Forall (λ p, Rtt p = fdiv (inverse_weight (RawRTT p)) (ewma_total paths)) paths ∧
  (flt f0 (ewma_total paths) = true → flt (ewma_total paths) f_inf = true →
   Forall (λ p, unit_interval (Rtt p)) paths).
Proof.
  intros Hk. pose proof (EWMA_covers r endPoints Hk) as Hcov. revert Hcov. unfold EWMA_Computing.
  pose proof (ewma_observe_all (Source endPoints) (collect_nodes (ew_nodeTel r)) r []) as H.
  destruct (foldl _ _ _) as [r' cs]. destruct H as [Hr Hcs]. simpl in Hcs.
  case_bool_decide as Hlen; intros Hcov; [split; [done|]; split; [done|]; split; constructor|].
  set (sorted := exchange_sort score_less _).
  match goal with |- context [covers _ ?l] => set (paths := l) end.
  assert (ewma_total paths = fsum ((λ c : nodeScore, inverse_weight c.2) <$> sorted)) as Ht.
  { unfold ewma_total, paths. by rewrite <-list_fmap_compose. }
  assert (Forall (λ p, Rtt p = fdiv (inverse_weight (RawRTT p)) (ewma_total paths)) paths) as Hrtt.
  { rewrite Ht. unfold paths. apply Forall_fmap, Forall_forall. by intros c _. }
  split; [done|]. split; [exact Hcov|]. split; [done|].
  - intros Hpos Hfin. rewrite Forall_forall in Hrtt. apply Forall_forall. intros p Hp.
    rewrite (Hrtt p Hp).
    assert (Forall (λ x, f_nonneg x = true) ((λ p, inverse_weight (RawRTT p)) <$> paths)) as Hn.
    { apply Forall_fmap, Forall_forall. intros q _. apply inverse_weight_nonneg. }
    pose proof (shares_unit _ Hn Hpos Hfin) as Hs. rewrite Forall_fmap in Hs.
    by eapply Forall_forall in Hs.
Qed.

(** A router without history for the nodes it is asked about sees the
    observations themselves. *)
Lemma ewma_observe_fresh source ips r cs :
  NoDup ips → (∀ ip, ip ∈ ips → cpuEWMA r !! ip = None ∧ latEWMA r !! ip = None) →
  (foldl (ewma_observe source) (r, cs) ips).2 =
  cs ++ omap (λ ip, (λ tel, {| es_nodeIp := ip; es_cpuEwma := ewma_cpu tel;
                               es_latEwma := ewma_latency r source ip |})
                    <$> ew_nodeTel r !! ip) ips ∧
  lambda (foldl (ewma_observe source) (r, cs) ips).1 = lambda r.
Proof.
  revert r cs. induction ips as [|ip ips IH]; intros r cs Hnd Hf.
  { cbn. by rewrite app_nil_r. }
  apply NoDup_cons in Hnd as [Hn Hnd]. destruct (Hf ip) as [H1 H2]; [left|].
  cbn [foldl ewma_observe omap list_omap]. destruct (ew_nodeTel r !! ip) as [tel|] eqn:E; simpl.
  - destruct (IH (updateEWMALatency ip (ewma_latency r source ip) (updateEWMACPU ip (ewma_cpu tel) r))
      (cs ++ [{| es_nodeIp := ip; es_cpuEwma := ewma_cpu tel; es_latEwma := ewma_latency r source ip |}]))
      as [I1 I2]; [done| |].
    { intros ip' Hip'. destruct (Hf ip') as [F1 F2]; [by right|]. simpl. unfold ewma_next.
      rewrite H1, H2. rewrite !lookup_insert_ne by (by intros ->). done. }
    assert (getCPUEWMA (updateEWMACPU ip (ewma_cpu tel) r) ip = ewma_cpu tel) as ->.
    { unfold getCPUEWMA. simpl. unfold ewma_next. by rewrite H1, lookup_insert_eq. }
    change (ewma_latency (updateEWMACPU ip (ewma_cpu tel) r) source ip)
      with (ewma_latency r source ip).
    match goal with |- context [getLatEWMA ?r1 ip] =>
      assert (getLatEWMA r1 ip = ewma_latency r source ip) as -> end.
    { unfold getLatEWMA. simpl. unfold ewma_next. by rewrite H2, lookup_insert_eq. }
    rewrite I1, I2, <-app_assoc. done.
  - apply IH; [done|]. intros ip' Hip'. apply Hf. by right.
Qed.

Lemma collect_nodes_NoDup nodeTel : keyed nodeTel → NoDup (collect_nodes nodeTel).
Proof.
  intros Hk. destruct (decide (nodeTel = ∅)) as [->|Hne].
  - rewrite collect_nodes_empty. apply NoDup_singleton.
  - rewrite collect_nodes_perm by done. apply NoDup_fst_map_to_list.
Qed.

(** A new EWMA router - and the code makes one for every request - does not
    smooth anything: its answer is the same for every smoothing factor. *)
Theorem EWMA_fresh_ignores_alpha nodeTel edgeAgg lam alpha alpha' endPoints :
  keyed nodeTel →
  (EWMA_Computing (SetAlpha alpha lam (NewEWMARouter nodeTel edgeAgg)) endPoints).2 =
  (EWMA_Computing (SetAlpha alpha' lam (NewEWMARouter nodeTel edgeAgg)) endPoints).2.
Proof.
  intros Hk. unfold EWMA_Computing.
  assert (∀ a,
    let r := SetAlpha a lam (NewEWMARouter nodeTel edgeAgg) in
    let run := foldl (ewma_observe (Source endPoints)) (r, []) (collect_nodes (ew_nodeTel r)) in
    run.2 = omap (λ ip, (λ tel, {| es_nodeIp := ip; es_cpuEwma := ewma_cpu tel;
      es_latEwma := ewma_latency (NewEWMARouter nodeTel edgeAgg) (Source endPoints) ip |})
      <$> nodeTel !! ip) (collect_nodes nodeTel) ∧ lambda run.1 = lam) as Hrun.
  { intros a r run. unfold run.
    destruct (ewma_observe_fresh (Source endPoints) (collect_nodes (ew_nodeTel r)) r []) as [-> ->].
    - by apply collect_nodes_NoDup.
    - intros ip _. split; apply lookup_empty.
    - done. }
  destruct (Hrun alpha) as [A1 A2], (Hrun alpha') as [B1 B2].
  destruct (foldl _ (SetAlpha alpha _ _, _) _) as [r1 c1],
    (foldl _ (SetAlpha alpha' _ _, _) _) as [r2 c2].
  simpl in *. subst c1 c2. unfold ewma_combined. rewrite A2, B2.
  by case_bool_decide.
Qed.
End Routers.

(** ** Instances of the theorems *)
Definition tel_of (ip : string) (usage : Z) : NodeTelemetry :=
  {| PublicIP := ip; nt_Provider := ""; nt_Continent := "Europe"; nt_Country := ""; nt_City := "";
     CpuPressure := f_of_Z usage;
     Cpu := {| PhysicalCore := 2; LogicalCore := 2; Usage := f_of_Z usage; Load1Min := f0;
               LoadDelta := f0 |};
     LinksCongestion := ∅ |}.

Definition two_nodes : Telemetry :=
  {[ "1.1.1.1" := tel_of "1.1.1.1" 80; "2.2.2.2" := tel_of "2.2.2.2" 20 ]}.

Lemma two_nodes_keyed : keyed two_nodes.
Proof.
  intros ip n. unfold two_nodes. intros [[<- <-]|[_ H]]%lookup_insert_Some; [done|].
  by apply lookup_singleton_Some in H as [<- <-].
Qed.

Definition some_user : EndPoints :=
  let e := {| ep_IP := "9.9.9.9"; ep_Port := 0; ep_Provider := ""; ep_Continent := "Europe";
              ep_Country := ""; ep_City := "Paris" |} in
  {| Source := e; Dest := e |}.

Lemma two_nodes_finite ip tel :
  two_nodes !! ip = Some tel → f_finite (Usage (Cpu tel)) = true.
Proof.
  unfold two_nodes. intros [[<- <-]|[_ H]]%lookup_insert_Some; [done|].
  by apply lookup_singleton_Some in H as [<- <-].
Qed.

Lemma Joint_Computing_correct_witness :
  let r := SetWeights f1 f1 (NewJointRouter ∅ two_nodes) in
  covers two_nodes (Joint_Computing "0.0.0.0" r some_user) ∧
  sorted_by rtt_order (Joint_Computing "0.0.0.0" r some_user).
Proof.
  intros r. destruct (Joint_Computing_correct "0.0.0.0" r some_user) as (H1 & _ & H3).
  - exact two_nodes_keyed.
  - split; [exact H1|]. apply H3. unfold r. apply SetWeights_ok; [reflexivity..|].
    split; [reflexivity|]. split; [reflexivity|]. split; [exact two_nodes_finite|].
    intros key v H. change ((∅ : EdgeAgg) !! key = Some v) in H. rewrite lookup_empty in H. discriminate.
Defined.

Lemma P2C_Computing_correct_witness :
  Forall (λ p, unit_interval (Rtt p)) (P2C_Computing "0.0.0.0" (NewP2CRouter two_nodes ∅) some_user).
Proof.
  destruct (P2C_Computing_correct "0.0.0.0" (NewP2CRouter two_nodes ∅) some_user) as (_ & _ & _ & H).
  - exact two_nodes_keyed.
  - apply H; [exact two_nodes_finite|vm_compute; reflexivity|vm_compute; reflexivity].
Defined.

Lemma EWMA_Computing_correct_witness :
  covers two_nodes (EWMA_Computing "0.0.0.0" (NewEWMARouter two_nodes ∅) some_user).2.
Proof.
  pose proof (EWMA_Computing_correct "0.0.0.0" (NewEWMARouter two_nodes ∅) some_user two_nodes_keyed) as H.
  destruct (EWMA_Computing _ _ _) as [r' paths]. exact (proj1 (proj2 H)).
Defined.

Lemma EWMA_fresh_ignores_alpha_witness :
  (EWMA_Computing "0.0.0.0" (SetAlpha f0 f1 (NewEWMARouter two_nodes ∅)) some_user).2 =
  (EWMA_Computing "0.0.0.0" (SetAlpha f1 f1 (NewEWMARouter two_nodes ∅)) some_user).2.
Proof. apply (EWMA_fresh_ignores_alpha "0.0.0.0"). exact two_nodes_keyed. Defined.
