(* ===== verification/Lyapunov.v ===== *)
(** * The Lyapunov last-mile router

    [control-plane/routing/edge-domain/lyapunov-opt.go] and
    [lyapunov-config.go]: exponential penalties for load and latency, and
    softmax probabilities over the scores.  [math.Exp] is a parameter. *)
From S2P Require Import Prelude Float64 FloatDiv GoStrings Records Graph LastMile.

(** ** Configuration *)
Definition sensitivityCPU : float64 := f_of_Z 2.
Definition sensitivityDelay : float64 := f_of_frac 20 100.
Definition defaultV : float64 := f_of_Z 1.
Definition softmaxTemp : float64 := f_of_Z 2.

Record latencyConfig := {
  good : float64;
  normal : float64;
  warning : float64;
}.

Definition ContinentPairConfigs : gmap string latencyConfig :=
  {[ "Asia-NorthAmerica" := {| good := f_of_Z 60; normal := f_of_Z 100; warning := f_of_Z 150 |};
     "NorthAmerica-Asia" := {| good := f_of_Z 60; normal := f_of_Z 100; warning := f_of_Z 150 |} ]}.

Record CPUThresholds := {
  Low : float64;
  Mid : float64;
  High : float64;
  SensitivityCPU : float64;
  HysteresisUp : float64;
  HysteresisDn : float64;
}.

Definition CPU2 : CPUThresholds :=
  {| Low := f_of_Z 40; Mid := f_of_Z 60; High := f_of_Z 80; SensitivityCPU := f_of_Z 2;
     HysteresisUp := f_of_Z 60; HysteresisDn := f_of_Z 40 |}.
Definition CPU4 : CPUThresholds :=
  {| Low := f_of_Z 60; Mid := f_of_Z 80; High := f_of_Z 100; SensitivityCPU := f_of_Z 3;
     HysteresisUp := f_of_Z 80; HysteresisDn := f_of_Z 60 |}.

(** [CPUConfig] maps a number of cores to its thresholds. *)
Definition CPUConfig (logicalCores : Z) : option CPUThresholds :=
  if bool_decide (logicalCores = 2)%Z then Some CPU2
  else if bool_decide (logicalCores = 4)%Z then Some CPU4
  else None.

Definition GetCPUThresholds (logicalCores : Z) : CPUThresholds :=
  match CPUConfig logicalCores with
  | Some config => config
  | None => CPU2
  end.

Definition getLatencyConfig (sourceCont destCont : string) : latencyConfig :=
  match ContinentPairConfigs !! (sourceCont +:+ "-" +:+ destCont) with
  | Some config => config
  | None =>
      if bool_decide (sourceCont ≠ destCont)
      then {| good := f_of_Z 60; normal := f_of_Z 100; warning := f_of_Z 150 |}
      else {| good := f_of_Z 20; normal := f_of_Z 40; warning := f_of_Z 60 |}
  end.

Section Lyapunov.
Context `{RO : RangeOrder} `{SS : SliceSort} `{ML : MathLib}.
Variable localIP : string.

(** ** Scores *)
Definition computeDelayPenalty (rt : float64) (config : latencyConfig) : float64 :=
  if fle (good config) f0
  then math_Exp (fmul sensitivityDelay (fsub (fdiv rt (f_of_Z 50)) f1))
  else math_Exp (fmul sensitivityDelay (fsub (fdiv rt (good config)) f1)).

Definition computeCPUPenalty (Qk : float64) (logicalCores : Z) : float64 :=
  let config := GetCPUThresholds logicalCores in
  let alpha := SensitivityCPU config in
  let alpha := if fle alpha f0 then sensitivityCPU else alpha in
  if fle (Mid config) f0
  then math_Exp (fmul alpha (fsub (fdiv Qk (f_of_Z 60)) f1))
  else math_Exp (fmul alpha (fsub (fdiv Qk (Mid config)) f1)).

Definition softmaxProbabilities (candidates : list nodeScore) (temperature : float64)
    : list float64 :=
  let expScores := (λ c : nodeScore, math_Exp (fdiv (fneg c.2) temperature)) <$> candidates in
  let sumExp := fsum expScores in
  (λ e, if flt f0 sumExp then fdiv e sumExp else f0) <$> expScores.

Record LyapunovSolver := {
  ly_edgeAgg : EdgeAgg;
  ly_nodeTel : Telemetry;
}.

Definition NewLyapunovSolver (edgeAgg : EdgeAgg) (nodeTel : Telemetry) : LyapunovSolver :=
  {| ly_edgeAgg := edgeAgg; ly_nodeTel := nodeTel |}.

Definition Lyapunov_GetNodeRT (l : LyapunovSolver) (source : EndPoint) (nodeIP : string) :=
  node_rt (ly_nodeTel l) (ly_edgeAgg l) source nodeIP.

Definition lyapunov_score (l : LyapunovSolver) (source : EndPoint) (nodeIp : string)
    (tel : NodeTelemetry) : float64 :=
  let stats :=
    match Lyapunov_GetNodeRT l source nodeIp with
    | Some stats =>
        if bool_decide (Count stats = 0)%Z
        then {| Count := 0; SumRT := f0; AvgRT := f_of_Z 500; P95RT := 0 |} else stats
    | None => {| Count := 0; SumRT := f0; AvgRT := f_of_Z 500; P95RT := 0 |}
    end in
  let cpu := Cpu tel in
  let w := f1 in
  let Qk := Usage cpu in
  let Qk := if flt Qk f0 then f0 else Qk in
  let delay := AvgRT stats in
  let delay := if fle delay f0 then f_of_Z 100 else delay in
  let config := getLatencyConfig (ep_Continent source) (nt_Continent tel) in
  let cpuPenalty := computeCPUPenalty (fadd Qk (fabs (LoadDelta cpu))) (LogicalCore cpu) in
  let delayPenalty := computeDelayPenalty delay config in
  fadd (fmul w cpuPenalty) (fmul defaultV delayPenalty).

Definition Lyapunov_Computing (l : LyapunovSolver) (endPoints : EndPoints) : list PathInfo :=
  let source := Source endPoints in
  let nodeIps := collect_nodes localIP (ly_nodeTel l) in
  let candidates : list nodeScore :=
    omap (λ nodeIp, match ly_nodeTel l !! nodeIp with
                    | None => None
                    | Some tel => Some (nodeIp, lyapunov_score l source nodeIp tel)
                    end) nodeIps in
  if bool_decide (length candidates = 0) then []
  else
    let candidates := sort_slice score_less candidates in
    let probabilities := softmaxProbabilities candidates softmaxTemp in
    imap (λ i item,
      {| Hops := [item.1]; Rtt := default f0 (probabilities !! i); RawRTT := item.2 |}) candidates.

(** ** The penalties are non-negative numbers *)
Context `{!ExpNonneg}.

Lemma delay_penalty_nonneg rt config :
  is_num rt = true → (f_nonzero (good config) = true ∨ fle (good config) f0 = true) →
  f_nonneg (computeDelayPenalty rt config) = true.
Proof.
  intros Hrt Hg. unfold computeDelayPenalty.
  destruct (fle (good config) f0) eqn:E; apply exp_nonneg, fmul_num; try done;
    apply fsub_num; try done; by apply fdiv_num; [|destruct Hg].
Qed.

Lemma thresholds_cases n : GetCPUThresholds n = CPU2 ∨ GetCPUThresholds n = CPU4.
Proof. unfold GetCPUThresholds, CPUConfig. repeat case_bool_decide; auto. Qed.

Lemma cpu_penalty_nonneg Qk n : is_num Qk = true → f_nonneg (computeCPUPenalty Qk n) = true.
Proof.
  intros HQ. unfold computeCPUPenalty.
  destruct (thresholds_cases n) as [-> | ->]; apply exp_nonneg, fmul_num; try done;
    apply fsub_num; try done; by apply fdiv_num.
Qed.

Lemma getLatencyConfig_good s d : f_nonzero (good (getLatencyConfig s d)) = true.
Proof.
  unfold getLatencyConfig. destruct (_ !! _) as [c|] eqn:E; [|by case_bool_decide].
  unfold ContinentPairConfigs in E. apply lookup_insert_Some in E as [[_ <-]|[_ E]]; [done|].
  by apply lookup_singleton_Some in E as [_ <-].
Qed.

Definition lyapunov_ok (l : LyapunovSolver) : Prop :=
  (∀ ip tel, ly_nodeTel l !! ip = Some tel →
     f_finite (Usage (Cpu tel)) = true ∧ f_finite (LoadDelta (Cpu tel)) = true) ∧
  (∀ key v, ly_edgeAgg l !! key = Some v → f_finite (AvgRT v) = true).

Lemma fmul_one_nonneg x : f_nonneg x = true → f_nonneg (fmul f1 x) = true.
Proof. intros Hx. apply fmul_nonneg; [done..|]. apply fmul_num; [done|]. by apply f_nonneg_num. Qed.

Lemma lyapunov_score_nonneg l source ip tel : lyapunov_ok l → ly_nodeTel l !! ip = Some tel →
  f_nonneg (lyapunov_score l source ip tel) = true.
Proof.
  intros [Hu Ha] Htel. destruct (Hu ip tel Htel) as [H1 H2]. unfold lyapunov_score.
  apply fadd_nonneg_closed; apply fmul_one_nonneg.
  - apply cpu_penalty_nonneg, f_nonneg_num, fadd_nonneg_closed; [|by apply fabs_nonneg].
    by apply f_fin_nonneg, f_finite_not_lt.
  - apply delay_penalty_nonneg; [|left; apply getLatencyConfig_good].
    apply f_nonneg_num, f_fin_nonneg, f_finite_not_le; [|done]. unfold Lyapunov_GetNodeRT.
    destruct (node_rt _ _ _ _) as [v|] eqn:E; [|done].
    case_bool_decide; [done|]. by eapply node_rt_finite.
Qed.

(** ** Softmax *)
Definition raw_order (p q : PathInfo) : bool := flt (RawRTT p) (RawRTT q).

(** The denominator of the softmax over the scores of a list of paths. *)
Definition softmax_total (paths : list PathInfo) : float64 :=
  fsum ((λ p, math_Exp (fdiv (fneg (RawRTT p)) softmaxTemp)) <$> paths).

Lemma imap_fmap_snd {A B} (f : A → B) (g : nat → A → PathInfo) (h : PathInfo → B) l :
  (∀ i x, h (g i x) = f x) → h <$> imap g l = f <$> l.
Proof.
  intros Hh. apply list_eq. intros i. rewrite !list_lookup_fmap, list_lookup_imap.
  destruct (l !! i); simpl; [by rewrite Hh|done].
Qed.

Lemma sorted_imap l (g : nat → nodeScore → PathInfo) :
  sorted_by score_less l → (∀ i c, RawRTT (g i c) = c.2) → sorted_by raw_order (imap g l).
Proof.
  intros Ho. revert g. induction Ho as [|c q Hq IH Hall]; intros g Hg; simpl; [constructor|].
  constructor; [by apply IH; intros; simpl|]. apply Forall_lookup. intros i p.
  rewrite list_lookup_imap. intros (c' & Hc' & ->)%fmap_Some.
  rewrite Forall_lookup in Hall. unfold raw_order. simpl. rewrite !Hg. by apply (Hall i).
Qed.

Lemma Lyapunov_covers l endPoints : keyed (ly_nodeTel l) →
  covers (ly_nodeTel l) (Lyapunov_Computing l endPoints).
Proof using Type.
  intros Hk. unfold Lyapunov_Computing, covers.
  pose proof (scored_nodes localIP (ly_nodeTel l) (lyapunov_score l (Source endPoints)) Hk) as [Hp Hs].
  set (candidates := omap _ _) in *. case_bool_decide as Hlen.
  { apply nil_length_inv in Hlen. rewrite Hlen in Hp. simpl in Hp.
    apply Permutation_nil in Hp. by rewrite Hp. }
  cbv zeta. rewrite (imap_fmap_snd (λ c : nodeScore, [c.1])) by done.
  rewrite sort_slice_perm, <-Hp. by rewrite <-list_fmap_compose.
Qed.

(** ** The score, with its numbers *)

(** The latency the score is made of, from the statistics of the user's city and
    the node: 50 without any, 500 when they count nothing, 100 when their average
    is not positive. *)
Definition seen_latency (edgeAgg : EdgeAgg) (city nodeIp : string) : float64 :=
  match edgeAgg !! (city +:+ "-" +:+ nodeIp) with
  | None => f_of_Z 50
  | Some v => if bool_decide (Count v = 0)%Z then f_of_Z 500
              else if fle (AvgRT v) f0 then f_of_Z 100 else AvgRT v
  end.

(** exp(alpha (load / mid - 1)) + exp(0.2 (latency / good - 1)), each with the
    weight 1. *)
Definition penalties (alpha load mid latency good : float64) : float64 :=
  fadd (fmul (f_of_Z 1) (math_Exp (fmul alpha (fsub (fdiv load mid) (f_of_Z 1)))))
       (fmul (f_of_Z 1) (math_Exp (fmul (f_of_frac 1 5) (fsub (fdiv latency good) (f_of_Z 1))))).

(** No pair of equal continents is in the table. *)
Lemma same_continent_key s k : s +:+ "-" +:+ s = k →
  k = "Asia-NorthAmerica" ∨ k = "NorthAmerica-Asia" → False.
Proof using Type.
  intros <- [E|E]; do 18 (destruct s as [|? s]; [discriminate E|]; first [discriminate E|injection E as -> E]).
Qed.

Lemma good_latency s d : good (getLatencyConfig s d) = f_of_Z (if bool_decide (s = d) then 20 else 60).
Proof using Type.
  unfold getLatencyConfig. destruct (ContinentPairConfigs !! _) as [c|] eqn:E.
  - rewrite bool_decide_eq_false_2.
    + unfold ContinentPairConfigs in E. apply lookup_insert_Some in E as [[_ <-]|[_ E]]; [done|].
      by apply lookup_singleton_Some in E as [_ <-].
    + intros <-. unfold ContinentPairConfigs in E. apply (same_continent_key s _ eq_refl).
      apply lookup_insert_Some in E as [[<- _]|[_ E]]; [by left|].
      apply lookup_singleton_Some in E as [<- _]. by right.
  - case_bool_decide as H1; case_bool_decide as H2; done.
Qed.

Lemma lyapunov_score_formula l source ip tel : ly_nodeTel l !! ip = Some tel →
  lyapunov_score l source ip tel =
    penalties (f_of_Z (if bool_decide (LogicalCore (Cpu tel) = 4)%Z then 3 else 2))
      (fadd (if flt (Usage (Cpu tel)) f0 then f0 else Usage (Cpu tel)) (fabs (LoadDelta (Cpu tel))))
      (f_of_Z (if bool_decide (LogicalCore (Cpu tel) = 4)%Z then 80 else 60))
      (seen_latency (ly_edgeAgg l) (ep_City source) ip)
      (f_of_Z (if bool_decide (ep_Continent source = nt_Continent tel) then 20 else 60)).
Proof using Type.
  intros Htel. unfold lyapunov_score, penalties, Lyapunov_GetNodeRT, node_rt. rewrite Htel.
  change defaultV with (f_of_Z 1). change f1 with (f_of_Z 1).
  assert (∀ Qk n, computeCPUPenalty Qk n =
    math_Exp (fmul (f_of_Z (if bool_decide (n = 4)%Z then 3 else 2))
      (fsub (fdiv Qk (f_of_Z (if bool_decide (n = 4)%Z then 80 else 60))) (f_of_Z 1)))) as ->.
  { intros Qk n. unfold computeCPUPenalty, GetCPUThresholds, CPUConfig.
    case_bool_decide as H2; [subst n|case_bool_decide as H4]; reflexivity. }
  assert (∀ rt c, good c = f_of_Z 20 ∨ good c = f_of_Z 60 → computeDelayPenalty rt c =
    math_Exp (fmul (f_of_frac 1 5) (fsub (fdiv rt (good c)) (f_of_Z 1)))) as Hdelay.
  { intros rt c Hg. unfold computeDelayPenalty. change sensitivityDelay with (f_of_frac 1 5).
    destruct Hg as [-> | ->]; reflexivity. }
  rewrite Hdelay by (rewrite good_latency; case_bool_decide; auto). rewrite good_latency.
  do 6 f_equal. unfold seen_latency. destruct (ly_edgeAgg l !! _) as [v|]; [|done].
  case_bool_decide; done.
Qed.

(** The answer, with the sorted list of scored nodes it is made from. *)
Lemma Lyapunov_answer l endPoints : keyed (ly_nodeTel l) →
  let paths := Lyapunov_Computing l endPoints in
  Forall (λ p, ∃ ip tel, Hops p = [ip] ∧ ly_nodeTel l !! ip = Some tel ∧
    RawRTT p = lyapunov_score l (Source endPoints) ip tel ∧
    Rtt p = if flt f0 (softmax_total paths)
            then fdiv (math_Exp (fdiv (fneg (RawRTT p)) softmaxTemp)) (softmax_total paths) else f0) paths ∧
  (lyapunov_ok l → sorted_by raw_order paths).
Proof.
  intros Hk paths. unfold paths, Lyapunov_Computing.
  pose proof (scored_nodes localIP (ly_nodeTel l) (lyapunov_score l (Source endPoints)) Hk) as [Hp Hs].
  set (candidates := omap _ _) in *. case_bool_decide as Hlen; [split; constructor|].
  cbv zeta. set (sorted := sort_slice score_less candidates).
  assert (Forall (λ c : nodeScore, ∃ tel, ly_nodeTel l !! c.1 = Some tel ∧
    c.2 = lyapunov_score l (Source endPoints) c.1 tel) sorted) as Hsort.
  { unfold sorted. by rewrite sort_slice_perm. }
  split.
  - unfold softmax_total.
    rewrite (imap_fmap_snd (λ c : nodeScore, math_Exp (fdiv (fneg c.2) softmaxTemp))) by done.
    apply Forall_lookup. intros i p. rewrite list_lookup_imap.
    intros ([ip s] & Hi & ->)%fmap_Some. rewrite Forall_lookup in Hsort.
    destruct (Hsort i _ Hi) as (tel & Htel & E). exists ip, tel. do 3 (split; [done|]). cbn [Rtt RawRTT].
    unfold softmaxProbabilities. rewrite !list_lookup_fmap.
    match goal with |- context [sorted !! ?n] => replace (sorted !! n) with (Some (ip, s)) by (symmetry; exact Hi) end.
    done.
  - intros Hok. apply sorted_imap; [|done]. apply (sort_slice_sorted score_num); [apply _|].
    unfold sorted in Hsort. rewrite sort_slice_perm in Hsort. eapply Forall_impl; [exact Hsort|].
    intros c (tel & Htel & E). unfold score_num. rewrite E. by apply f_nonneg_num, lyapunov_score_nonneg.
Qed.

(** C39: the Lyapunov router, given telemetry stored under the nodes' own
    addresses, answers with exactly one single-hop path per node. A path carries the node's score, which is
    exp(alpha (load / mid - 1)) + exp(0.2 (latency / good - 1)): the load is the
    usage, not below 0, plus the size of its last change, alpha and mid are 3 and
    80 for four cores and 2 and 60 otherwise, good is 20 within a continent and 60
    between two, and the latency is the average of the user's city and the node,
    or a default.  Its share of the traffic is exp(-score / 2) over the sum of
    these numbers over all paths, and 0 when the sum is not positive.  On finite telemetry the paths are in ascending order of
    score, and the shares are between 0 and 1 unless the sum overflows. *)
Theorem Lyapunov_Computing_correct l endPoints : keyed (ly_nodeTel l) →
  let paths := Lyapunov_Computing l endPoints in
  let source := Source endPoints in
  let total := fsum ((λ p, math_Exp (fdiv (fneg (RawRTT p)) (f_of_Z 2))) <$> paths) in
  covers (ly_nodeTel l) paths ∧
  Forall (λ p, ∃ ip tel, Hops p = [ip] ∧ ly_nodeTel l !! ip = Some tel ∧
    let four := bool_decide (LogicalCore (Cpu tel) = 4)%Z in
    let usage := Usage (Cpu tel) in
    RawRTT p = penalties (f_of_Z (if four then 3 else 2))
      (fadd (if flt usage f0 then f0 else usage) (fabs (LoadDelta (Cpu tel)))) (f_of_Z (if four then 80 else 60))
      (seen_latency (ly_edgeAgg l) (ep_City source) ip)
      (f_of_Z (if bool_decide (ep_Continent source = nt_Continent tel) then 20 else 60)) ∧
    Rtt p = if flt f0 total then fdiv (math_Exp (fdiv (fneg (RawRTT p)) (f_of_Z 2))) total else f0) paths ∧
  (lyapunov_ok l → sorted_by raw_order paths ∧
     (flt total f_inf = true → Forall (λ p, unit_interval (Rtt p)) paths)).
Proof.
  intros Hk paths source total. destruct (Lyapunov_answer l endPoints Hk) as [Hans Hsorted].
  fold paths in Hans, Hsorted. change softmaxTemp with (f_of_Z 2) in Hans.
  change (softmax_total paths) with total in Hans.
  split; [by apply Lyapunov_covers|]. split.
  - eapply Forall_impl; [exact Hans|]. intros p (ip & tel & Hh & Htel & Hraw & Hrtt). exists ip, tel.
    do 2 (split; [done|]). cbv zeta. split; [|exact Hrtt]. rewrite Hraw. by apply lyapunov_score_formula.
  - intros Hok. split; [by apply Hsorted|]. intros Hfin. rewrite Forall_forall in Hans. apply Forall_forall.
    intros p Hp. destruct (Hans p Hp) as (_ & _ & _ & _ & _ & ->). destruct (flt f0 total) eqn:E; [|done].
    assert (Forall (λ x, f_nonneg x = true)
      ((λ p, math_Exp (fdiv (fneg (RawRTT p)) (f_of_Z 2))) <$> paths)) as Hn.
    { apply Forall_fmap, Forall_forall. intros q Hq. destruct (Hans q Hq) as (ip & tel & _ & Htel & Hraw & _). cbn.
      rewrite Hraw. by apply exp_nonneg, fdiv_num; [apply fneg_num, f_nonneg_num, lyapunov_score_nonneg|]. }
    pose proof (shares_unit _ Hn E Hfin) as Hs. rewrite Forall_fmap in Hs. by eapply Forall_forall in Hs.
Qed.
End Lyapunov.

(** ** Instance of the theorem *)
#[export] Instance flat_exp_nonneg : @ExpNonneg flat_math.
Proof. by intros x _. Qed.

Lemma Lyapunov_Computing_correct_witness :
  let paths := @Lyapunov_Computing list_order exchange_slice_sort flat_math "0.0.0.0"
                 (NewLyapunovSolver ∅ two_nodes) some_user in
  covers two_nodes paths ∧ Forall (λ p, unit_interval (Rtt p)) paths.
Proof.
  intros paths.
  destruct (@Lyapunov_Computing_correct list_order exchange_slice_sort flat_math "0.0.0.0" _
    (NewLyapunovSolver ∅ two_nodes) some_user two_nodes_keyed) as (H1 & _ & H3).
  split; [exact H1|]. destruct H3 as [_ H3]; [|apply H3; vm_compute; reflexivity].
  split.
  - intros ip tel Htel. change (two_nodes !! ip = Some tel) in Htel. revert Htel.
    unfold two_nodes. intros [[<- <-]|[_ H]]%lookup_insert_Some; [done|].
    by apply lookup_singleton_Some in H as [<- <-].
  - intros key v H. change ((∅ : EdgeAgg) !! key = Some v) in H.
    rewrite lookup_empty in H. discriminate.
Defined.
