(* ===== verification/Routing.v ===== *)
(** * The routing entry points

    [control-plane/routing/routing.go]: the algorithm named by a request is
    looked up, its solver is built from the graph and the edge statistics, and
    its answer becomes the routing.  The Go interfaces of the solvers are type
    classes that also state what the router relies on; every solver is an
    instance, and the theorems on the entry points are proved against the
    classes. *)
From S2P Require Import Prelude Float64 FloatDiv GoHeap GoStrings Records Graph EdgeStats.
From S2P Require Import KShortest KSearch KYen LiveNet Random OneWAN Carousel CarouselSearch.
From S2P Require Import CarouselRun CarouselMulti LastMile Lyapunov.
Open Scope go_scope.

Definition routing_of (r : list PathInfo + string) : RoutingInfo :=
  match r with inl paths => {| Routing_ := paths |} | inr _ => no_routing end.

(** Calling a method of a nil interface. *)
Definition nil_interface {A} : go A := Panic "nil pointer dereference".

(** ** The interfaces *)

(** A simple path over a list of edges. *)
Definition edge_path (es : list Edge) (start end_ : string) (hs : list string) : Prop :=
  edge_route (NewKShortestSolver es 0) start end_ hs.

Class ComputingMiddleInterface (A : Type) := {
  middle_Computing : A → string → string → option (list PathInfo + string);
  middle_edges : A → list Edge;
  middle_wf : A → Prop;
  middle_total x start end_ : middle_wf x → is_Some (middle_Computing x start end_);
  middle_routes x start end_ infos : middle_wf x →
    middle_Computing x start end_ = Some (inl infos) →
    NoDup (Hops <$> infos) ∧ Forall (λ i, edge_path (middle_edges x) start end_ (Hops i)) infos;
}.

Class ComputingLastInterface (A : Type) := {
  last_Computing : A → EndPoints → A * (list PathInfo + string);
  last_nodes : A → Telemetry;
  last_covers x endPoints : keyed (last_nodes x) → last_nodes x ≠ ∅ →
    ∃ paths, (last_Computing x endPoints).2 = inl paths ∧ covers (last_nodes x) paths;
}.

Class ComputingMiddleMultiInterface (A : Type) := {
  multi_Computing : A → string → list string → nat → option (go (list PathInfo + string));
  multi_edges : A → list Edge;
  multi_wf : A → list string → Prop;
  multi_total x start ends pos : multi_wf x ends →
    ∃ r, multi_Computing x start ends pos = Some (Ret r) ∧
      ∀ infos, r = inl infos →
        Forall (λ i, ∃ e, e ∈ ends ∧ multi_path (multi_edges x) start e (Hops i)) infos;
}.

(** The wrappers: a solver behind its interface, or nil. *)
Inductive middle_solver := MiddleSolver (A : Type) (I : ComputingMiddleInterface A) (x : A).
Inductive last_solver := LastSolver (A : Type) (I : ComputingLastInterface A) (x : A).
Inductive multi_solver := MultiSolver (A : Type) (I : ComputingMiddleMultiInterface A) (x : A).

Arguments MiddleSolver {A I} x.
Arguments LastSolver {A I} x.
Arguments MultiSolver {A I} x.

Record RoutingMiddleInterface := { middle_Operate : option middle_solver }.
Record RoutingLastInterface := { last_Operate : option last_solver }.
Record RoutingMiddleMultiInterface := { multi_Operate : option multi_solver }.

(** ** The middle solvers *)
#[export] Program Instance KShortest_middle : ComputingMiddleInterface KShortestSolver := {|
  middle_Computing := KShortest.Computing;
  middle_edges := ks_edges;
  middle_wf ks := edges_ok ks = true ∧ (1 ≤ k ks)%Z;
|}.
Next Obligation. intros ks start end_ [Hok Hk]. by apply Computing_total. Qed.
Next Obligation.
  intros ks start end_ infos [Hok Hk] E.
  destruct (Computing_run ks start end_ Hok Hk) as [(err & E' & _)|(A & B & E' & Hinv & _)];
    rewrite E' in E; [done|]. injection E as <-. by apply (yen_inv_infos ks start end_ A B).
Qed.

#[export] Program Instance LiveStyle_middle : ComputingMiddleInterface LiveStyleSolver := {|
  middle_Computing := LiveNet.Computing;
  middle_edges := ls_edges;
  middle_wf ls := (∃ edges k0, ls = NewLiveStyleSolver edges k0) ∧
    edges_ok (NewKShortestSolver (ls_edges ls) 5) = true ∧ lats_ok (ls_edges ls) = true;
|}.
Next Obligation.
  intros ls start end_ ((edges & k0 & ->) & Hok & Hl).
  by destruct (live_run edges k0 start end_ Hok Hl) as [(err & -> & _)|(ps & -> & _)].
Qed.
Next Obligation.
  intros ls start end_ infos ((edges & k0 & ->) & Hok & Hl) E.
  destruct (live_run edges k0 start end_ Hok Hl) as [(err & E' & _)|(ps & E' & _ & Hnum & Hnd & Hr)];
    rewrite E' in E; [done|]. injection E as <-.
  destruct (live_infos _ start end_ ps _ (live_k_nonneg edges k0) Hnum Hnd Hr) as [N F].
  split; [done|]. eapply Forall_impl; [exact F|]. by intros i [? _].
Qed.

Section Routing.
Context `{ML : MathLib} `{RO : RangeOrder} `{SS : SliceSort} `{RS : RandSource}.
(** The node's own address, [util.Config_.Node.IP.Public]. *)
Variable localIP : string.

(** ** The last-mile routers *)
#[local] Program Instance Joint_last : ComputingLastInterface JointRouter := {|
  last_Computing r ep := (r, inl (Joint_Computing localIP r ep));
  last_nodes := jr_nodeTel;
|}.
Next Obligation. intros r ep Hk _. eexists. split; [done|]. by apply Joint_covers. Qed.

#[local] Program Instance P2C_last : ComputingLastInterface P2CRouter := {|
  last_Computing r ep := (r, inl (P2C_Computing localIP r ep));
  last_nodes := p2_nodeTel;
|}.
Next Obligation. intros r ep Hk Hne. eexists. split; [done|]. by apply P2C_covers. Qed.

#[local] Program Instance EWMA_last : ComputingLastInterface EWMARouter := {|
  last_Computing r ep := let '(r, paths) := EWMA_Computing localIP r ep in (r, inl paths);
  last_nodes := ew_nodeTel;
|}.
Next Obligation.
  intros r ep Hk _. simpl. pose proof (EWMA_covers localIP r ep Hk) as H.
  destruct (EWMA_Computing localIP r ep) as [r' paths]. by exists paths.
Qed.

#[local] Program Instance Lyapunov_last : ComputingLastInterface LyapunovSolver := {|
  last_Computing l ep := (l, inl (Lyapunov_Computing localIP l ep));
  last_nodes := ly_nodeTel;
|}.
Next Obligation. intros r ep Hk _. eexists. split; [done|]. by apply Lyapunov_covers. Qed.

(** ** The multi-destination solvers *)
Lemma chain_multi_path es start end_ l :
  short_route (build_graph es) dfsMaxHops start end_ l →
  multi_path es start end_ (chain_hops start l).
Proof.
  intros (Hc & Hnd & Hlen). split; [done|]. split; [|split; [done|split]].
  - clear -Hc. unfold chain_hops. induction Hc as [|u e l v He Hc IH]; [done|].
    cbn [fmap list_fmap]. by rewrite last_cons_cons.
  - unfold chain_hops. simpl. rewrite length_fmap. unfold dfsMaxHops in Hlen. lia.
  - clear -Hc. unfold chain_hops. induction Hc as [|u e l v He Hc IH]; intros i x y Hx Hy; [done|].
    destruct i as [|i]; [|exact (IH i x y Hx Hy)]. simpl in Hx, Hy. simplify_eq. exists e.
    rewrite build_graph_spec in He. apply list_elem_of_filter in He as [<- He]. auto.
Qed.

#[local] Program Instance ONEWAN_multi : ComputingMiddleMultiInterface ONEWANSolver := {|
  multi_Computing os start ends pos := Some (Ret (ONEWAN_ComputingMulti os start ends pos));
  multi_edges := ow_edges;
  multi_wf os ends := ∃ edges mp, os = NewONEWANSolver edges mp ∧ 0 < mp;
|}.
Next Obligation.
  intros os start ends pos (edges & mp & -> & Hm). eexists. split; [done|]. intros infos E.
  pose proof (ONEWAN_run edges mp start ends pos Hm) as H. rewrite E in H.
  destruct H as (_ & dcs & sels & -> & Hf & _ & Hok & Hsub & _).
  eapply Forall_impl; [by eapply selected_infos|]. intros i (e & He & l & Hl & -> & _).
  exists e. split; [done|]. by apply chain_multi_path.
Qed.

#[local] Program Instance Flow_multi : ComputingMiddleMultiInterface FlowOptimizationSolver := {|
  multi_Computing := Flow_ComputingMulti;
  multi_edges := fs_edges;
  multi_wf d ends := (∃ edges, d = NewFlowOptimizationSolver edges) ∧
    flow_edges_ok (fs_edges d) = true ∧ NoDup ends ∧
    (Z.of_nat (length (fs_edges d)) < 2 ^ 53)%Z ∧ (Z.of_nat (60 * length ends + 30) < 2 ^ 53)%Z;
|}.
Next Obligation.
  intros d start ends pos ((edges & ->) & Hok & Hnd & Hlen & Hs).
  destruct (Flow_run edges start ends pos Hok Hlen) as [(err & E & _)|(uhot & theta & _ & _ & E)];
    (eexists; split; [exact E|]); intros infos Er; [done|].
  pose proof (run_carousel_spec edges start ends uhot theta pos Hok Hnd Hs) as H.
  cbv zeta in H. rewrite Er in H.
  destruct H as (_ & _ & _ & H). eapply Forall_impl; [exact H|]. intros i (e & He & Hp & _).
  exists e. split; [|done]. by apply list_elem_of_filter in He as [_ ?].
Qed.

(** ** One source, one destination *)
Definition InitMiddleInterface (g : GraphManager) (algorithm : string) : RoutingMiddleInterface :=
  let edges := GetEdges 30 g in
  if bool_decide (algorithm = "k_shortest") then
    {| middle_Operate := Some (MiddleSolver (NewKShortestSolver edges 3)) |}
  else if bool_decide (algorithm = "live_style") then
    {| middle_Operate := Some (MiddleSolver (NewLiveStyleSolver edges 2)) |}
  else {| middle_Operate := None |}.

(** [None] would be a search that does not end. *)
Definition MiddleRouting (g : GraphManager) (endPoints : EndPoints) (algorithm : string)
    : option (go RoutingInfo) :=
  match middle_Operate (InitMiddleInterface g algorithm) with
  | None => Some nil_interface
  | Some (MiddleSolver x) =>
      r ← middle_Computing x (ep_IP (Source endPoints)) (ep_IP (Dest endPoints));
      Some (Ret (routing_of r))
  end.

(** ** The last mile *)
Definition InitLastInterface (g : GraphManager) (a : GlobalStats) (algorithm : string)
    (cpuWeight latencyWeight : float64) : RoutingLastInterface :=
  let nodes := GetNodes g in
  let edgeAgg := GetAggMap a in
  let given := fle f0 cpuWeight && fle f0 latencyWeight in
  let joint r := {| last_Operate := Some (LastSolver (r : JointRouter)) |} in
  if bool_decide (algorithm = "lyapunov") then
    {| last_Operate := Some (LastSolver (NewLyapunovSolver edgeAgg nodes)) |}
  else if bool_decide (algorithm = "latency_only") then
    joint (SetWeights f0 f1 (NewJointRouter edgeAgg nodes))
  else if bool_decide (algorithm = "cpu_only") then
    joint (SetWeights f1 f0 (NewJointRouter edgeAgg nodes))
  else if bool_decide (algorithm = "joint_cpu_latency") then
    let router := NewJointRouter edgeAgg nodes in
    joint (if given then SetWeights cpuWeight latencyWeight router else router)
  else if bool_decide (algorithm = "p2c") then
    {| last_Operate := Some (LastSolver (NewP2CRouter nodes edgeAgg)) |}
  else if bool_decide (algorithm = "ewma_based") then
    let router := NewEWMARouter nodes edgeAgg in
    {| last_Operate := Some (LastSolver
         (if given then SetAlpha cpuWeight latencyWeight router else router)) |}
  else {| last_Operate := None |}.

(** [util.IPInfoResult], and [util.GetIPInfo] with the answer of the address
    service as a parameter. *)
Record IPInfoResult := {
  ip_Country : string;
  ip_Continent : string;
  ip_City : string;
}.

Variable ip_service : string → IPInfoResult + string.

Definition GetIPInfo (ip : string) : IPInfoResult + string :=
  if bool_decide (ip = "") then inr "ip is empty" else ip_service ip.

Definition located (endPoints : EndPoints) (result : IPInfoResult) : EndPoints :=
  let s := Source endPoints in
  {| Source := {| ep_IP := ep_IP s; ep_Port := ep_Port s; ep_Provider := ep_Provider s;
                  ep_Continent := ip_Continent result; ep_Country := ip_Country result;
                  ep_City := ip_City result |};
     Dest := Dest endPoints |}.

Definition LastRouting (g : GraphManager) (a : GlobalStats) (endPoints : EndPoints)
    (algorithm : string) (cpuWeight latencyWeight : float64) : go RoutingInfo :=
  match GetIPInfo (ep_IP (Source endPoints)) with
  | inr _ => Ret no_routing
  | inl result =>
      match last_Operate (InitLastInterface g a algorithm cpuWeight latencyWeight) with
      | None => nil_interface
      | Some (LastSolver x) => Ret (routing_of (last_Computing x (located endPoints result)).2)
      end
  end.

(** ** One source, many destinations *)
Definition InitMiddleMultiInterface (g : GraphManager) (algorithm : string)
    : RoutingMiddleMultiInterface :=
  let edges := GetEdges 31 g in
  if bool_decide (algorithm = "onewan_multi") then
    {| multi_Operate := Some (MultiSolver (NewONEWANSolver edges 10)) |}
  else if bool_decide (algorithm = "carousel-greedy") then
    {| multi_Operate := Some (MultiSolver (NewFlowOptimizationSolver edges)) |}
  else {| multi_Operate := None |}.

Definition MiddleRoutingMulti (g : GraphManager) (start : string) (ends : list string)
    (algorithm : string) (pos : nat) : option (go RoutingInfo) :=
  match multi_Operate (InitMiddleMultiInterface g algorithm) with
  | None => Some (Ret no_routing)
  | Some (MultiSolver x) =>
      res ← multi_Computing x start ends pos;
      Some (let! r := res in Ret (routing_of r))
  end.

(** ** What the router relies on, through the interfaces *)
Lemma middle_client {A} `{ComputingMiddleInterface A} (x : A) start end_ : middle_wf x →
  ∃ r, middle_Computing x start end_ = Some r ∧
    let paths := Routing_ (routing_of r) in
    NoDup (Hops <$> paths) ∧ Forall (λ i, edge_path (middle_edges x) start end_ (Hops i)) paths.
Proof.
  intros Hwf. destruct (middle_total x start end_ Hwf) as [r E]. exists r. split; [done|].
  destruct r as [infos|err]; [by apply (middle_routes x)|]. split; constructor.
Qed.

Lemma last_client {A} `{ComputingLastInterface A} (x : A) endPoints :
  keyed (last_nodes x) → last_nodes x ≠ ∅ →
  covers (last_nodes x) (Routing_ (routing_of (last_Computing x endPoints).2)).
Proof.
  intros Hk Hne. by destruct (last_covers x endPoints Hk Hne) as (paths & -> & Hc).
Qed.

Lemma multi_client {A} `{ComputingMiddleMultiInterface A} (x : A) start ends pos : multi_wf x ends →
  ∃ r, multi_Computing x start ends pos = Some (Ret r) ∧
    Forall (λ i, ∃ e, e ∈ ends ∧ multi_path (multi_edges x) start e (Hops i))
      (Routing_ (routing_of r)).
Proof.
  intros Hwf. destruct (multi_total x start ends pos Hwf) as (r & E & Hr). exists r.
  split; [done|]. destruct r as [infos|err]; [by apply Hr|constructor].
Qed.

(** ** The graph *)

(** The measured costs are non-negative numbers, and the names of the nodes
    are not empty and hold no arrow. *)
Definition costs_ok (e : Edge) : bool :=
  f_nonneg (EdgeWeight e) && f_nonneg (Latency e) &&
  good_name (SourceIp e) && good_name (DestinationIp e).

Definition graph_costs_ok (g : GraphManager) : Prop :=
  ∀ k e, edges g !! k = Some e → costs_ok e = true.

(** A simple path over the links of the graph. *)
Definition graph_path (g : GraphManager) (start end_ : string) (hs : list string) : Prop :=
  head hs = Some start ∧ last hs = Some end_ ∧ NoDup hs ∧
  ∀ i x y, hs !! i = Some x → hs !! S i = Some y → is_Some (edges g !! (x +:+ "->" +:+ y)).

(** The same, with each link used in one of its two directions. *)
Definition graph_path_either (g : GraphManager) (start end_ : string) (hs : list string) : Prop :=
  head hs = Some start ∧ last hs = Some end_ ∧ NoDup hs ∧
  ∀ i x y, hs !! i = Some x → hs !! S i = Some y →
    is_Some (edges g !! (x +:+ "->" +:+ y)) ∨ is_Some (edges g !! (y +:+ "->" +:+ x)).

Lemma GetEdges_elem site g e : e ∈ GetEdges site g ↔ ∃ k, edges g !! k = Some e.
Proof.
  unfold GetEdges. rewrite list_elem_of_fmap. setoid_rewrite <-(range_map_elem site). split.
  - intros ([k e'] & -> & H). eauto.
  - intros [k H]. by exists (k, e).
Qed.

Lemma graph_link site g e : graph_wf g → e ∈ GetEdges site g →
  is_Some (edges g !! (SourceIp e +:+ "->" +:+ DestinationIp e)).
Proof.
  intros Hwf [k Hk]%GetEdges_elem. rewrite <-(wf_key g Hwf k e Hk). eauto.
Qed.

Lemma edge_path_graph site g start end_ hs : graph_wf g →
  edge_path (GetEdges site g) start end_ hs → graph_path g start end_ hs.
Proof.
  intros Hwf (H1 & H2 & H3 & H4). do 3 (split; [done|]). intros i x y Hx Hy.
  destruct (H4 i x y Hx Hy) as (e & He & <- & <-). exact (graph_link _ _ _ Hwf He).
Qed.

Lemma multi_path_graph site g start end_ hs : graph_wf g →
  multi_path (GetEdges site g) start end_ hs → graph_path_either g start end_ hs.
Proof.
  intros Hwf (H1 & H2 & H3 & _ & H4). do 3 (split; [done|]). intros i x y Hx Hy.
  destruct (H4 i x y Hx Hy) as (e & He & [[<- <-]|[<- <-]]); [left|right]; exact (graph_link _ _ _ Hwf He).
Qed.

Lemma graph_costs_elem site g e : graph_costs_ok g → e ∈ GetEdges site g → costs_ok e = true.
Proof. intros Hg [k Hk]%GetEdges_elem. by eapply Hg. Qed.

Lemma GetEdges_ok site g kk : graph_costs_ok g →
  edges_ok (NewKShortestSolver (GetEdges site g) kk) = true ∧
  lats_ok (GetEdges site g) = true ∧ flow_edges_ok (GetEdges site g) = true.
Proof.
  intros Hg. unfold edges_ok, lats_ok, flow_edges_ok. rewrite !forallb_forall.
  split_and!; intros e He; apply list_elem_of_In in He; pose proof (graph_costs_elem _ _ _ Hg He) as H;
    unfold costs_ok in H; rewrite !andb_true_iff in H; destruct H as [[[H1 H2] H3] H4];
    rewrite ?H2, ?H3, ?H4; [|done|done].
  unfold edge_cost. cbn [useLatency alpha NewKShortestSolver NewKShortestSolverWithLatency].
  by rewrite fmul_r_one_nonneg.
Qed.

Lemma GetEdges_length site g : length (GetEdges site g) = size (edges g).
Proof. unfold GetEdges. rewrite length_fmap, range_map_perm. apply length_map_to_list. Qed.

(** Comparisons of closed names. *)
Ltac decide_names := repeat first [rewrite bool_decide_true by done | rewrite bool_decide_false by done].

(** ** The entry points *)
Definition middle_algorithms : list string := ["k_shortest"; "live_style"].

(** What [InitMiddleInterface] hands over: a solver of the graph's edges that
    the interface's promise applies to. *)
Lemma InitMiddle_solver g algorithm : graph_costs_ok g → algorithm ∈ middle_algorithms →
  ∃ A (I : ComputingMiddleInterface A) (x : A),
    middle_Operate (InitMiddleInterface g algorithm) = Some (MiddleSolver x) ∧
    middle_wf x ∧ middle_edges x = GetEdges 30 g.
Proof.
  intros Hg Ha. unfold InitMiddleInterface.
  destruct (GetEdges_ok 30 g 3 Hg) as (H1 & _ & _), (GetEdges_ok 30 g 5 Hg) as (H2 & H3 & _).
  unfold middle_algorithms in Ha. rewrite !elem_of_cons, elem_of_nil in Ha.
  destruct Ha as [->|[->|[]]]; decide_names; [exists _, KShortest_middle|exists _, LiveStyle_middle];
    eexists; (split; [reflexivity|]); [done|].
  split; [|done]. split; [eauto|done].
Qed.

(** A known algorithm always answers, with simple paths over the edges of the
    graph. *)
Lemma MiddleRouting_edges g endPoints algorithm : graph_costs_ok g → algorithm ∈ middle_algorithms →
  ∃ info, MiddleRouting g endPoints algorithm = Some (Ret info) ∧
    NoDup (Hops <$> Routing_ info) ∧
    Forall (λ i, edge_path (GetEdges 30 g) (ep_IP (Source endPoints)) (ep_IP (Dest endPoints)) (Hops i))
      (Routing_ info).
Proof.
  intros Hg Ha. destruct (InitMiddle_solver g algorithm Hg Ha) as (A & I & x & E & Hx & Ee).
  unfold MiddleRouting. rewrite E.
  destruct (middle_client x (ep_IP (Source endPoints)) (ep_IP (Dest endPoints)) Hx)
    as (r & -> & Hnd & Hp).
  eexists. split; [done|]. split; [done|]. by rewrite <-Ee.
Qed.

Lemma MiddleRouting_answers g endPoints algorithm :
  rtc graph_step NewGraphManager g → graph_costs_ok g → algorithm ∈ middle_algorithms →
  ∃ info, MiddleRouting g endPoints algorithm = Some (Ret info) ∧
    NoDup (Hops <$> Routing_ info) ∧
    Forall (λ i, graph_path g (ep_IP (Source endPoints)) (ep_IP (Dest endPoints)) (Hops i))
      (Routing_ info).
Proof.
  intros Hr Hg Ha. pose proof (steps_wf _ _ Hr graph_wf_new) as Hwf.
  destruct (MiddleRouting_edges g endPoints algorithm Hg Ha) as (info & E & Hnd & Hp).
  exists info. split; [done|]. split; [done|]. eapply Forall_impl; [exact Hp|].
  intros i. by apply edge_path_graph.
Qed.

(** C29: [MiddleRouting] on any graph the watch can produce, with non-negative
    costs: a known algorithm always answers, and every path of the answer is a
    simple path from the source to the destination over links of the graph; an
    unknown algorithm name is a nil interface, and the call panics.  The known
    names are [k_shortest] and [live_style]; the names that the README documents
    for this call (shortest, carousel-greed, lyapunov) are unknown. *)
Theorem MiddleRouting_correct g endPoints algorithm :
  rtc graph_step NewGraphManager g → graph_costs_ok g →
  (algorithm ∈ middle_algorithms →
     ∃ info, MiddleRouting g endPoints algorithm = Some (Ret info) ∧
       NoDup (Hops <$> Routing_ info) ∧
       Forall (λ i, graph_path g (ep_IP (Source endPoints)) (ep_IP (Dest endPoints)) (Hops i))
         (Routing_ info)) ∧
  (algorithm ∉ middle_algorithms → MiddleRouting g endPoints algorithm = Some nil_interface).
Proof.
  intros Hr Hg. split; intros Ha.
  - by apply MiddleRouting_answers.
  - unfold middle_algorithms in Ha. unfold MiddleRouting, InitMiddleInterface.
    rewrite !elem_of_cons, elem_of_nil in Ha. by rewrite !bool_decide_false by (intros ->; apply Ha; auto 10).
Qed.

Definition last_algorithms : list string :=
  ["lyapunov"; "latency_only"; "cpu_only"; "joint_cpu_latency"; "p2c"; "ewma_based"].

Lemma SetWeights_nodeTel c l r : jr_nodeTel (SetWeights c l r) = jr_nodeTel r.
Proof.
  unfold SetWeights. destruct (flt f0 c && flt f0 l); [done|].
  destruct (feq c f0 && flt f0 l); [done|]. by destruct (feq l f0 && flt f0 c).
Qed.

Lemma InitLast_solver g a algorithm cw lw : algorithm ∈ last_algorithms →
  ∃ A (I : ComputingLastInterface A) (x : A),
    last_Operate (InitLastInterface g a algorithm cw lw) = Some (LastSolver x) ∧
    last_nodes x = nodes g.
Proof.
  intros Ha. unfold InitLastInterface. unfold last_algorithms in Ha. rewrite !elem_of_cons, elem_of_nil in Ha.
  destruct Ha as [->|[->|[->|[->|[->|[->|[]]]]]]]; decide_names;
    [exists _, Lyapunov_last|exists _, Joint_last|exists _, Joint_last|exists _, Joint_last
    |exists _, P2C_last|exists _, EWMA_last]; eexists; (split; [reflexivity|]);
    try reflexivity; try apply SetWeights_nodeTel; simpl; destruct (fle f0 cw && fle f0 lw);
    done || apply SetWeights_nodeTel.
Qed.

(** C30: [LastRouting] on any graph the watch can produce that has a node: when
    the client's address cannot be located the answer is empty; otherwise a known
    algorithm answers with exactly one single-hop path per node of the graph,
    whatever the weights of the request, and an unknown algorithm name panics.
    The known names are lyapunov, latency_only, cpu_only, joint_cpu_latency, p2c
    and ewma_based; the README's [ewma] is unknown. *)
Theorem LastRouting_correct g a endPoints algorithm cw lw :
  rtc graph_step NewGraphManager g → nodes g ≠ ∅ →
  match GetIPInfo (ep_IP (Source endPoints)) with
  | inr _ => LastRouting g a endPoints algorithm cw lw = Ret no_routing
  | inl _ =>
      (algorithm ∈ last_algorithms →
         ∃ info, LastRouting g a endPoints algorithm cw lw = Ret info ∧
           covers (nodes g) (Routing_ info)) ∧
      (algorithm ∉ last_algorithms → LastRouting g a endPoints algorithm cw lw = nil_interface)
  end.
Proof.
  intros Hr Hne. pose proof (steps_wf _ _ Hr graph_wf_new) as Hwf. unfold LastRouting.
  destruct (GetIPInfo _) as [result|err]; [|done]. split; intros Ha.
  - destruct (InitLast_solver g a algorithm cw lw Ha) as (A & I & x & -> & En).
    eexists. split; [done|]. rewrite <-En. apply last_client; rewrite En; [|done].
    intros ip n. apply Hwf.
  - unfold last_algorithms in Ha. unfold InitLastInterface.
    rewrite !elem_of_cons, elem_of_nil in Ha. by rewrite !bool_decide_false by (intros ->; apply Ha; auto 10).
Qed.

(** C32: [MiddleRoutingMulti] on any graph the watch can produce, with
    non-negative costs and distinct destinations: it always answers, for every
    algorithm name (an unknown one gives an empty answer) and every outcome of
    the draws; every path of the answer is simple, leads from the start to one
    of the destinations and uses links of the graph, in one of their
    directions. *)
Theorem MiddleRoutingMulti_correct g start ends algorithm pos :
  rtc graph_step NewGraphManager g → graph_costs_ok g → NoDup ends →
  (Z.of_nat (size (edges g)) < 2 ^ 53)%Z → (Z.of_nat (60 * length ends + 30) < 2 ^ 53)%Z →
  ∃ info, MiddleRoutingMulti g start ends algorithm pos = Some (Ret info) ∧
    Forall (λ i, ∃ e, e ∈ ends ∧ graph_path_either g start e (Hops i)) (Routing_ info).
Proof.
  intros Hr Hg Hnd Hsz Hends. pose proof (steps_wf _ _ Hr graph_wf_new) as Hwf.
  destruct (GetEdges_ok 31 g 3 Hg) as (_ & _ & Hf).
  assert (∀ A (I : ComputingMiddleMultiInterface A) (x : A),
    multi_wf x ends → multi_edges x = GetEdges 31 g →
    ∃ r, multi_Computing x start ends pos = Some (Ret r) ∧
      Forall (λ i, ∃ e, e ∈ ends ∧ graph_path_either g start e (Hops i)) (Routing_ (routing_of r))) as Hc.
  { intros A I x Hx Ee. destruct (multi_client x start ends pos Hx) as (r & E & Hp).
    exists r. split; [done|]. eapply Forall_impl; [exact Hp|]. intros i (e & He & Hi).
    exists e. split; [done|]. rewrite Ee in Hi. by eapply multi_path_graph. }
  unfold MiddleRoutingMulti, InitMiddleMultiInterface. case_bool_decide.
  { destruct (Hc _ ONEWAN_multi (NewONEWANSolver (GetEdges 31 g) 10)) as (r & E & Hp); [|done|].
    - exists (GetEdges 31 g), 10. split; [done|lia].
    - cbn [multi_Operate]. rewrite E. by eexists. }
  case_bool_decide.
  { destruct (Hc _ Flow_multi (NewFlowOptimizationSolver (GetEdges 31 g))) as (r & E & Hp); [|done|].
    - split; [eauto|]. cbn [fs_edges NewFlowOptimizationSolver]. rewrite GetEdges_length. done.
    - cbn [multi_Operate]. rewrite E. by eexists. }
  eexists. split; [done|]. constructor.
Qed.
End Routing.

(** ** Instances of the theorems *)
Definition link_to (ip : string) : LinkCongestion :=
  {| lk_TargetIP := ip;
     lk_Target := {| TargetType := "node"; pt_Provider := ""; pt_IP := ip; pt_Port := 0;
                     Region := ""; pt_ID := "" |};
     PacketLoss := f0; AverageLatency := f_of_Z 20 |}.

Definition node_of (ip : string) (links : gmap string LinkCongestion) : NodeTelemetry :=
  {| PublicIP := ip; nt_Provider := ""; nt_Continent := "Europe"; nt_Country := ""; nt_City := "";
     CpuPressure := f_of_Z 10;
     Cpu := {| PhysicalCore := 2; LogicalCore := 2; Usage := f_of_Z 10; Load1Min := f0;
               LoadDelta := f0 |};
     LinksCongestion := links |}.

#[local] Existing Instance flat_math.

Definition pair_graph : GraphManager :=
  AddNode (node_of "1.1.1.1" {["2.2.2.2" := link_to "2.2.2.2"]})
    (AddNode (node_of "2.2.2.2" ∅) NewGraphManager).

Definition pair_request : EndPoints :=
  let ep ip := {| ep_IP := ip; ep_Port := 0; ep_Provider := ""; ep_Continent := "";
                  ep_Country := ""; ep_City := "" |} in
  {| Source := ep "1.1.1.1"; Dest := ep "2.2.2.2" |}.

Lemma pair_graph_reachable : rtc graph_step NewGraphManager pair_graph.
Proof. eapply rtc_l; [apply step_add|]. eapply rtc_l; [apply step_add|]. apply rtc_refl. Qed.

Lemma pair_graph_costs : graph_costs_ok pair_graph.
Proof.
  intros k e H. apply elem_of_map_to_list in H. revert H. vm_compute (map_to_list (edges pair_graph)).
  intros H%list_elem_of_singleton. injection H as -> ->. vm_compute. reflexivity.
Qed.

Lemma MiddleRouting_correct_witness :
  ∃ info, MiddleRouting pair_graph pair_request "k_shortest" = Some (Ret info) ∧
    Hops <$> Routing_ info = [["1.1.1.1"; "2.2.2.2"]] ∧
    Forall (λ i, graph_path pair_graph "1.1.1.1" "2.2.2.2" (Hops i)) (Routing_ info).
Proof.
  destruct (MiddleRouting_correct pair_graph pair_request "k_shortest") as [H _];
    [exact pair_graph_reachable|exact pair_graph_costs|].
  destruct H as (info & E & _ & Hp); [left|]. exists info. split; [exact E|]. split; [|exact Hp].
  vm_compute in E. injection E as <-. reflexivity.
Defined.

Definition some_service (_ : string) : IPInfoResult + string :=
  inl {| ip_Country := "FR"; ip_Continent := "Europe"; ip_City := "Paris" |}.

Lemma LastRouting_correct_witness :
  ∃ info, LastRouting "0.0.0.0" some_service pair_graph NewGlobalStats pair_request "ewma_based" f1 f1
      = Ret info ∧ covers (nodes pair_graph) (Routing_ info).
Proof.
  destruct (LastRouting_correct "0.0.0.0" some_service pair_graph NewGlobalStats pair_request
    "ewma_based" f1 f1) as [H _]; [exact pair_graph_reachable| |].
  - intros H. assert (nodes pair_graph !! "2.2.2.2" = None) as H' by (rewrite H; apply lookup_empty).
    vm_compute in H'. discriminate H'.
  - apply H. repeat (left || right).
Defined.

Lemma MiddleRoutingMulti_correct_witness :
  ∃ info, MiddleRoutingMulti pair_graph "1.1.1.1" ["2.2.2.2"] "carousel-greedy" 0 = Some (Ret info) ∧
    Forall (λ i, ∃ e, e ∈ ["2.2.2.2"] ∧ graph_path_either pair_graph "1.1.1.1" e (Hops i)) (Routing_ info).
Proof.
  apply (MiddleRoutingMulti_correct pair_graph "1.1.1.1" ["2.2.2.2"] "carousel-greedy" 0);
    [exact pair_graph_reachable|exact pair_graph_costs|apply NoDup_singleton|vm_compute; reflexivity
    |simpl; lia].
Defined.
