(* ===== verification/ControlApi.v ===== *)
(** * The HTTP interface of the control plane

    [control-plane/api]: the routing requests ([routing.go]), the reports of the
    nodes ([node.go]) and of the edge ([edge.go]), and the probe tasks
    ([probing.go]).  Decoding a body is outside: a handler gets the decoded value
    or an error.  [GenerateRandomLetters] only makes log prefixes. *)
From Stdlib Require Import Ascii.
From S2P Require Import Prelude Float64 FloatDiv GoStrings Records Graph EdgeStats Telemetry EtcdSync.
From S2P Require Import Random LastMile Routing.
Open Scope go_scope.

(** [receive_info.ApiResponse], by the type of its data. *)
Record ApiResponse (D : Type) := {
  Code : Z;
  Msg : string;
  Data_ : option D;
}.
Arguments Code {D} _.
Arguments Msg {D} _.
Arguments Data_ {D} _.

Definition bad_request {D} (msg : string) : ApiResponse D := {| Code := 400; Msg := msg; Data_ := None |}.
Definition success {D} (msg : string) (d : D) : ApiResponse D := {| Code := 200; Msg := msg; Data_ := Some d |}.

(** ** Origins *)
Record SourceTarget := {
  ServerPort : Z;
  st_Provider : string;
  st_IP : string;
  st_Port : Z;
  st_Region : string;
  st_ID : string;
}.

(** [LoadSourceTargetsFromExeDir], from the decoded file: the last target of a
    port wins. *)
Definition LoadSourceTargets (targets : list SourceTarget) : gmap Z SourceTarget :=
  foldl (λ m v, <[ServerPort v := v]> m) ∅ targets.

(** ** Routing requests *)
Section RoutingApi.
Context `{ML : MathLib} `{RO : RangeOrder} `{SS : SliceSort} `{RS : RandSource}.
Variable localIP : string.
Variable ip_service : string → IPInfoResult + string.

Definition set_dest_IP (ip : string) (e : EndPoints) : EndPoints :=
  {| Source := Source e;
     Dest := {| ep_IP := ip; ep_Port := ep_Port (Dest e); ep_Provider := ep_Provider (Dest e);
                ep_Continent := ep_Continent (Dest e); ep_Country := ep_Country (Dest e);
                ep_City := ep_City (Dest e) |} |}.

Definition origin_addr (source : SourceTarget) : string :=
  st_IP source +:+ ":" +:+ Itoa (st_Port source).

Definition or_default (algorithm dflt : string) : string :=
  if bool_decide (algorithm = "") then dflt else algorithm.

(** [None] would be a search that does not end. *)
Definition GetMiddleRoute (targets : gmap Z SourceTarget) (g : GraphManager)
    (body : EndPoints + string) (algorithm : string) : option (go (ApiResponse RoutingInfo)) :=
  match body with
  | inr err => Some (Ret (bad_request ("Request body parsing failed: " +:+ err)))
  | inl req =>
      match targets !! ep_Port (Dest req) with
      | None => Some (Ret (bad_request "Request body parsing failed: No corresponding port found"))
      | Some source =>
          paths ← MiddleRouting g (set_dest_IP (origin_addr source) req)
                    (or_default algorithm "k_shortest");
          Some (let! paths := paths in Ret (success "Successfully obtained path" paths))
      end
  end.

(** The weights of the query, for the joint router only: both must parse
    ([strconv.ParseFloat]) and be non-negative. *)
Definition query_weights (ParseFloat : string → option float64) (algorithm cpuStr latStr : string)
    : float64 * float64 :=
  let half := f_of_frac 5 10 in
  if bool_decide (algorithm = "joint_cpu_latency") &&
     (negb (bool_decide (cpuStr = "")) && negb (bool_decide (latStr = ""))) then
    match ParseFloat cpuStr, ParseFloat latStr with
    | Some cpuVal, Some latVal =>
        if fle f0 cpuVal && fle f0 latVal then (cpuVal, latVal) else (half, half)
    | _, _ => (half, half)
    end
  else (half, half).

Definition GetLastRoute (ParseFloat : string → option float64) (g : GraphManager) (a : GlobalStats)
    (body : EndPoints + string) (algorithm cpuStr latStr : string) : go (ApiResponse RoutingInfo) :=
  match body with
  | inr err => Ret (bad_request ("Request body parsing failed: " +:+ err))
  | inl req =>
      let algorithm := or_default algorithm "lyapunov" in
      let '(cpuWeight, latencyWeight) := query_weights ParseFloat algorithm cpuStr latStr in
      let! paths := LastRouting localIP ip_service g a req algorithm cpuWeight latencyWeight in
      Ret (success "Successfully obtained path" paths)
  end.

Record MultiDestRequest := {
  md_Source : EndPoint;
  md_Dests : list EndPoint;
}.

Definition GetMiddleRouteMulti (g : GraphManager) (body : MultiDestRequest + string)
    (algorithm : string) (pos : nat) : option (go (ApiResponse RoutingInfo)) :=
  match body with
  | inr err => Some (Ret (bad_request ("Request body parsing failed: " +:+ err)))
  | inl req =>
      paths ← MiddleRoutingMulti g (ep_IP (md_Source req)) (ep_IP <$> md_Dests req)
                (or_default algorithm "onewan_multi") pos;
      Some (let! paths := paths in Ret (success "Successfully obtained paths" paths))
  end.

Lemma set_dest_IP_ends ip e : ep_IP (Source (set_dest_IP ip e)) = ep_IP (Source e) ∧
  ep_IP (Dest (set_dest_IP ip e)) = ip.
Proof. done. Qed.

Lemma or_default_algorithms algorithm :
  algorithm = "" ∨ algorithm ∈ middle_algorithms → or_default algorithm "k_shortest" ∈ middle_algorithms.
Proof.
  unfold or_default. case_bool_decide as E; [|by intros [?|?]]. intros _. apply elem_of_cons. by left.
Qed.

(** What a middle request is answered with, when its body is decoded. *)
Lemma GetMiddleRoute_answer targets g req algorithm source :
  rtc graph_step NewGraphManager g → graph_costs_ok g →
  targets !! ep_Port (Dest req) = Some source →
  algorithm = "" ∨ algorithm ∈ middle_algorithms →
  ∃ info, GetMiddleRoute targets g (inl req) algorithm =
      Some (Ret (success "Successfully obtained path" info)) ∧
    NoDup (Hops <$> Routing_ info) ∧
    Forall (λ i, graph_path g (ep_IP (Source req)) (origin_addr source) (Hops i)) (Routing_ info).
Proof.
  intros Hr Hg Hs Ha. simpl. rewrite Hs.
  destruct (MiddleRouting_answers g (set_dest_IP (origin_addr source) req)
    (or_default algorithm "k_shortest") Hr Hg (or_default_algorithms _ Ha)) as (info & -> & H).
  exists info. split; [done|exact H].
Qed.

(** The answer to a routing request of a node.  On every graph the watch can
    produce, a request that decodes, for a port with a configured origin and a
    known algorithm (or none, which means k-shortest), is answered with code 200
    and simple paths over links of the graph from the requesting node to the
    origin's [ip:port]; a body that does not decode or a port without an origin
    is answered with code 400 and no data. *)
Theorem GetMiddleRoute_correct targets g body algorithm :
  rtc graph_step NewGraphManager g → graph_costs_ok g →
  algorithm = "" ∨ algorithm ∈ middle_algorithms →
  ∃ resp, GetMiddleRoute targets g body algorithm = Some (Ret resp) ∧
  match body with
  | inr err => Code resp = 400%Z ∧ Data_ resp = None
  | inl req =>
      match targets !! ep_Port (Dest req) with
      | None => Code resp = 400%Z ∧ Data_ resp = None
      | Some source =>
          Code resp = 200%Z ∧ ∃ info, Data_ resp = Some info ∧ NoDup (Hops <$> Routing_ info) ∧
            Forall (λ i, graph_path g (ep_IP (Source req)) (origin_addr source) (Hops i)) (Routing_ info)
      end
  end.
Proof.
  intros Hr Hg Ha. destruct body as [req|err]; [|by eexists].
  destruct (targets !! ep_Port (Dest req)) as [source|] eqn:Hs.
  - destruct (GetMiddleRoute_answer targets g req algorithm source Hr Hg Hs Ha) as (info & -> & H).
    eexists. split; [done|]. split; [done|]. exists info. split; [done|exact H].
  - simpl. rewrite Hs. by eexists.
Qed.
End RoutingApi.

(** ** Reports of the nodes: [PostVMReceive] *)
Section Reports.

(** The three ways a report can fail to decode: the envelope, its data as JSON
    again, and the data as a report. *)
Inductive body_error :=
| NotEnvelope (err : string)
| NotSerializable (err : string)
| NotReport (err : string).

Definition vm_error (e : body_error) : string :=
  match e with
  | NotEnvelope err => "Request format error: Not a valid ApiResponse structure - " +:+ err
  | NotSerializable err => "Request Data field format error: Cannot serialize to JSON - " +:+ err
  | NotReport err => "Data field parsing failed: Not a valid VMReport structure - " +:+ err
  end.

Definition last_error (e : body_error) : string :=
  match e with
  | NotEnvelope err => "Request format error: " +:+ err
  | NotSerializable err => "Request Data field format error: " +:+ err
  | NotReport err => "Data field parsing failed: " +:+ err
  end.

Definition quoted (s : string) : string := String "034"%char (s +:+ String "034"%char "").

(** The complaints. *)
Definition validate (r : VMReport) : list string :=
  (if bool_decide (VMID r = "") then ["VMID cannot be empty"] else []) ++
  (if bool_decide (PhysicalCore (vm_CPU r) < 0)%Z then ["CPU physical core count cannot be negative"] else []) ++
  (if bool_decide (LogicalCore (vm_CPU r) < 0)%Z then ["CPU logical core count cannot be negative"] else []) ++
  (if bool_decide (net_PublicIP (vm_Network r) = "") 
   then ["Public IP (public_ip) cannot be empty, use " +:+ quoted "no-public-ip" +:+ " if none"] else []) ++
  (if bool_decide (mem_Total (vm_Memory r) = 0)%Z then ["Total memory (total) cannot be 0"] else []).

Definition set_ports (n : NetworkInfo) : NetworkInfo :=
  {| net_PublicIP := net_PublicIP n; net_PrivateIP := net_PrivateIP n;
     PortCount := if bool_decide (PortCount n < 0)%Z then 0 else PortCount n;
     TrafficIn := TrafficIn n; TrafficOut := TrafficOut n |}.

(** The defaults: the time of arrival, a fresh id, a port count of zero. *)
Definition complete (now : Z) (uuid : string) (r : VMReport) : VMReport :=
  {| VMID := VMID r; CollectTime := Some (default now (CollectTime r));
     ReportID := if bool_decide (ReportID r = "") then uuid else ReportID r;
     vm_CPU := vm_CPU r; vm_Memory := vm_Memory r; vm_Disk := vm_Disk r;
     vm_Network := set_ports (vm_Network r); vm_OS := vm_OS r; vm_Process := vm_Process r;
     vm_LinksCongestion := vm_LinksCongestion r |}.

(** The response carries the id and the time; the second result is the report
    given to [DoClusterWeightedAvg]. *)
Definition PostVMReceive (now : Z) (uuid : string) (body : VMReport + body_error)
    : ApiResponse (string * Z) * option VMReport :=
  match body with
  | inr err => (bad_request (vm_error err), None)
  | inl r =>
      match validate r with
      | [] =>
          let r := complete now uuid r in
          (success "VM information reported successfully" (ReportID r, default now (CollectTime r)), Some r)
      | errs => (bad_request ("VMReport parameter validation failed: " +:+ Join errs "; "), None)
      end
  end.

Definition report_valid (r : VMReport) : Prop :=
  VMID r ≠ "" ∧ (0 ≤ PhysicalCore (vm_CPU r))%Z ∧ (0 ≤ LogicalCore (vm_CPU r))%Z ∧
  net_PublicIP (vm_Network r) ≠ "" ∧ mem_Total (vm_Memory r) ≠ 0%Z.

Lemma complaint_nil P `{!Decision P} (m : string) :
  (if bool_decide P then [m] else []) = [] ↔ ¬ P.
Proof. by case_bool_decide. Qed.

Lemma validate_nil r : validate r = [] ↔ report_valid r.
Proof. unfold validate, report_valid. rewrite !app_nil, !complaint_nil, !Z.nlt_ge. done. Qed.

(** ** Reports of the edge: [PostLastReceive]

    [body] is the data of the request, as the bytes that are stored and as the
    value they decode to.  The entry is written under the address of the node
    of this control plane. *)
Definition PostLastReceive (ownIP : string) (body : (string * LastTelemetry) + body_error)
    : ApiResponse Z * option (string * string * Z) :=
  match body with
  | inr err => (bad_request (last_error err), None)
  | inl (reqDataBytes, lastStats) =>
      (success "LastStats reported successfully" (Z.of_nat (size (LastsCongestion lastStats))),
       Some ("/routing-last/" +:+ ownIP, reqDataBytes, 60%Z))
  end.
End Reports.

(** ** Probe tasks: [GetProbeTasks] *)
Section Probes.
Context `{RO : RangeOrder}.
Variable decode : string → option NodeTelemetry.

Definition node_task (tel : NodeTelemetry) : ProbeTask :=
  {| TargetType := "node"; pt_Provider := nt_Provider tel; pt_IP := PublicIP tel; pt_Port := 7083;
     Region := nt_Continent tel; pt_ID := "" |}.

Definition source_task (v : SourceTarget) : ProbeTask :=
  {| TargetType := "source"; pt_Provider := st_Provider v; pt_IP := st_IP v; pt_Port := st_Port v;
     Region := st_Region v; pt_ID := st_ID v |}.

(** The loop over the nodes; the second range is over a map with integer keys,
    in some order [sources]. *)
Definition node_tasks (ownIP : string) (nodeMap : gmap string string) : list ProbeTask :=
  omap (λ kv : string * string,
    tel ← decode kv.2; if bool_decide (PublicIP tel = ownIP) then None else Some (node_task tel))
    (range_map 62 nodeMap).

Definition GetProbeTasks (ownIP : string) (resp : option (list (string * string)))
    (sources : list SourceTarget) : ApiResponse (list ProbeTask) :=
  match GetPrefixAll resp with
  | inr err => {| Code := 500; Msg := "Failed to get node information: " +:+ err; Data_ := None |}
  | inl nodeMap =>
      success "Successfully obtained node probe tasks" (node_tasks ownIP nodeMap ++ (source_task <$> sources))
  end.

(** The probe tasks of a node are exactly one for every other node whose
    entry decodes and one for every configured origin, for every order of the
    two maps. *)
Theorem GetProbeTasks_correct ownIP kvs (targets : gmap Z SourceTarget) sources :
  sources ≡ₚ (map_to_list targets).*2 →
  ∃ tasks, GetProbeTasks ownIP (Some kvs) sources = success "Successfully obtained node probe tasks" tasks ∧
  ∀ t, t ∈ tasks ↔
    (∃ k v tel, foldl (λ m kv, <[kv.1 := kv.2]> m) (∅ : gmap string string) kvs !! k = Some v ∧
       decode v = Some tel ∧ PublicIP tel ≠ ownIP ∧ t = node_task tel) ∨
    (∃ port src, targets !! port = Some src ∧ t = source_task src).
Proof.
  intros Hs. eexists. split; [done|]. intros t. rewrite elem_of_app. f_equiv.
  - unfold node_tasks. rewrite list_elem_of_omap. split.
    + intros ([k v] & Hk%range_map_elem & Ht). simpl in Ht. destruct (decode v) as [tel|] eqn:Hd; [|done].
      simpl in Ht. case_bool_decide; [done|]. injection Ht as <-. exists k, v, tel. auto.
    + intros (k & v & tel & Hk & Hd & Hne & ->). exists (k, v). split; [by apply range_map_elem|].
      simpl. rewrite Hd. simpl. by rewrite bool_decide_eq_false_2.
  - rewrite list_elem_of_fmap. split.
    + intros (src & -> & Hsrc). rewrite Hs in Hsrc. apply list_elem_of_fmap in Hsrc as ([port src'] & -> & Hp).
      apply elem_of_map_to_list in Hp. eauto.
    + intros (port & src & Hp & ->). exists src. split; [done|]. rewrite Hs.
      apply list_elem_of_fmap. exists (port, src). split; [done|]. by apply elem_of_map_to_list.
Qed.
End Probes.

(** ** From a report to the graph *)
Section ReportToGraph.
Context `{ML : MathLib} `{RO : RangeOrder}.

(** What the store delivers of a report is added to the graph. *)
Lemma report_delivered encode decode c r st g key val :
  (∀ s, encode (cluster_telemetry c r) = Some s → s ≠ "" ∧ decode s = Some (cluster_telemetry c r)) →
  DoClusterWeightedAvg encode c r = Some (key, val) →
  watch_graph decode [[put_event st key val]] g = AddNode (cluster_telemetry c r) g.
Proof.
  intros Hj. unfold DoClusterWeightedAvg. destruct (encode _) as [s|] eqn:E; [|done]. intros [= <- <-].
  destruct (Hj s eq_refl) as [Hs Hd]. unfold watch_graph, WatchPrefix. cbn [foldl].
  unfold HandleRoutingWatchEvent. cbn [ev_value put_event]. rewrite bool_decide_eq_false_2, Hd by done.
  assert (bool_decide (event_type (put_event st ("/routing-middle/" +:+ nc_Public c) s) = "CREATE") ||
    bool_decide (event_type (put_event st ("/routing-middle/" +:+ nc_Public c) s) = "UPDATE") = true) as ->.
  { unfold event_type, put_event. simpl. by destruct (st !! _). }
  done.
Qed.

Lemma GetNode_AddNode t g : GetNode (AddNode t g) (PublicIP t) = Some t.
Proof. unfold GetNode. rewrite AddNode_nodes. apply lookup_insert_eq. Qed.

(** What a report of the node [t] does to the edges of the graph [g]: every
    link whose end point no other link of the report has, and whose target is
    an origin, the node itself or a known node, has an edge; its weight is the
    risk of the reported loss and latency; a new edge has the reported latency
    and no loss, an edge that was there keeps its latency, load and loss. *)
Definition edges_reported (t : NodeTelemetry) (g g' : GraphManager) : Prop :=
  ∀ ip v, LinksCongestion t !! ip = Some v →
    (∀ ip' v', LinksCongestion t !! ip' = Some v' → link_out v' = link_out v → ip' = ip) →
    TargetType (lk_Target v) = "source" ∨ pt_IP (lk_Target v) = PublicIP t ∨
      is_Some (nodes g !! pt_IP (lk_Target v)) →
    ∃ e, GetEdge g' (PublicIP t +:+ "->" +:+ link_out v) = Some e ∧
      EdgeWeight e =
        EdgeRisk (if bool_decide (TargetType (lk_Target v) = "source") then f0
                  else default f0 (CpuPressure <$> <[PublicIP t := t]> (nodes g) !! pt_IP (lk_Target v)))
          (PacketLoss v) (AverageLatency v) ∧
      match GetEdge g (PublicIP t +:+ "->" +:+ link_out v) with
      | Some old => Latency e = Latency old ∧ Load e = Load old ∧ Loss e = Loss old
      | None => Latency e = AverageLatency v ∧ Loss e = f0
      end.

Lemma AddNode_reported t g : edges_reported t g (AddNode t g).
Proof.
  intros ip v Hv Hu He. destruct (AddNode_refreshes_weight_only t g ip v Hv Hu He) as (e & H1 & H2 & H3).
  exists e. split; [exact H1|]. split; [|exact H3]. rewrite H2. unfold link_risk. by case_bool_decide.
Qed.

Lemma PostVMReceive_valid now uuid r : report_valid r →
  PostVMReceive now uuid (inl r) =
    (success "VM information reported successfully"
       (ReportID (complete now uuid r), default now (CollectTime r)), Some (complete now uuid r)).
Proof. intros Hv. unfold PostVMReceive. by rewrite (proj2 (validate_nil r) Hv). Qed.

(** C27: a report that the interface accepts reaches the graph.  The handler
    accepts exactly the valid reports, with code 200, and hands them on with
    their figures unchanged; when etcd grants the lease, accepts the put and
    delivers the event (the JSON text of the telemetry decodes to it again), the
    graph has the node of this control plane, and its
    stored telemetry has the CPU figures of the report and, for exactly the
    probed targets, the means (sum over count) of the losses and of the
    latencies of their probes.  The edges of the node follow: a link with an end
    point of its own and a known target has an edge weighted by the risk of
    these means; a new edge has the mean latency (its loss is not set), an edge
    that was there keeps its latency, load and loss.  A report that is not
    valid is answered with code 400 and goes nowhere. *)
Theorem accepted_report_reaches_graph encode decode c now uuid r grant st g :
  (∀ s, encode (cluster_telemetry c (complete now uuid r)) = Some s →
     s ≠ "" ∧ decode s = Some (cluster_telemetry c (complete now uuid r))) → uuid ≠ "" →
  (report_valid r →
     ∃ r', PostVMReceive now uuid (inl r) =
       (success "VM information reported successfully" (ReportID r', default now (CollectTime r')), Some r') ∧
     ReportID r' ≠ "") ∧
  (report_valid r → ∀ resp r' key val ttl lease,
     PostVMReceive now uuid (inl r) = (resp, Some r') →
     DoClusterWeightedAvg encode c r' = Some (key, val) →
     grant ttl = Some lease →
     PutKeyWithLease grant true key val ttl = inl (key, val, lease) ∧
     let g' := watch_graph decode [[put_event st key val]] g in
     ∃ t, GetNode g' (nc_Public c) = Some t ∧ PublicIP t = nc_Public c ∧
       Cpu t = vm_CPU r ∧ CpuPressure t = Usage (vm_CPU r) ∧
       (∀ ip, LinksCongestion t !! ip = target_average ip (vm_LinksCongestion r)) ∧
       edges_reported t g g') ∧
  (¬ report_valid r → ∃ resp, PostVMReceive now uuid (inl r) = (resp, None) ∧ Code resp = 400%Z).
Proof.
  intros Hj Hu. split_and!.
  - intros Hv. rewrite PostVMReceive_valid by done. exists (complete now uuid r). split; [done|]. simpl. by case_bool_decide.
  - intros Hv resp r' key val ttl lease. rewrite PostVMReceive_valid by done. intros [= <- <-] Hc Hg.
    unfold PutKeyWithLease. rewrite Hg. split; [done|]. cbv zeta.
    rewrite (report_delivered encode decode c (complete now uuid r)) by done.
    exists (cluster_telemetry c (complete now uuid r)).
    split; [apply (GetNode_AddNode (cluster_telemetry c (complete now uuid r)))|].
    split; [done|split; [done|split; [done|split; [|apply AddNode_reported]]]].
    intros ip. exact (cluster_links c (complete now uuid r) ip).
  - intros Hv. unfold PostVMReceive. destruct (validate r) as [|e errs] eqn:E; [|by eexists].
    by apply validate_nil in E.
Qed.
End ReportToGraph.

(** ** Instances of the theorems *)
#[local] Existing Instance flat_math.

Definition to_port (port : Z) : EndPoints :=
  let ep ip p := {| ep_IP := ip; ep_Port := p; ep_Provider := ""; ep_Continent := "";
                    ep_Country := ""; ep_City := "" |} in
  {| Source := ep "1.1.1.1" 0%Z; Dest := ep "" port |}.

Definition web_origin : SourceTarget :=
  {| ServerPort := 443; st_Provider := ""; st_IP := "9.9.9.9"; st_Port := 80; st_Region := ""; st_ID := "" |}.

Lemma GetMiddleRoute_correct_witness :
  ∃ resp info, GetMiddleRoute (LoadSourceTargets [web_origin]) pair_graph (inl (to_port 443)) "" = Some (Ret resp) ∧
    Code resp = 200%Z ∧ Data_ resp = Some info ∧
    Forall (λ i, graph_path pair_graph "1.1.1.1" "9.9.9.9:80" (Hops i)) (Routing_ info).
Proof.
  destruct (GetMiddleRoute_correct (LoadSourceTargets [web_origin]) pair_graph (inl (to_port 443)) "")
    as (resp & E & H); [exact pair_graph_reachable|exact pair_graph_costs|left; reflexivity|].
  change (LoadSourceTargets [web_origin] !! ep_Port (Dest (to_port 443))) with (Some web_origin) in H.
  destruct H as (Hc & info & Hd & _ & Hp). exists resp, info. split; [exact E|]. split; [exact Hc|].
  split; [exact Hd|exact Hp].
Defined.

Lemma GetProbeTasks_correct_witness :
  ∃ tasks, GetProbeTasks (λ v, Some (lone v)) "a" (Some [("k1", "a"); ("k2", "b")]) [web_origin]
      = success "Successfully obtained node probe tasks" tasks ∧ node_task (lone "b") ∈ tasks.
Proof.
  destruct (GetProbeTasks_correct (λ v, Some (lone v)) "a" [("k1", "a"); ("k2", "b")]
    (LoadSourceTargets [web_origin]) [web_origin]) as (tasks & E & H); [vm_compute; reflexivity|].
  exists tasks. split; [exact E|]. apply H. left. exists "k2", "b", (lone "b").
  split; [apply lookup_insert_eq|]. split; [reflexivity|]. split; [discriminate|reflexivity].
Defined.

Definition small_report : VMReport :=
  {| VMID := "vm-1"; CollectTime := None; ReportID := ""; vm_CPU := zero_CPUInfo;
     vm_Memory := {| mem_Total := 1; mem_Used := 0; mem_Free := 1; mem_Usage := f0 |};
     vm_Disk := zero_DiskInfo;
     vm_Network := {| net_PublicIP := "1.1.1.1"; net_PrivateIP := ""; PortCount := 0; TrafficIn := 0;
                      TrafficOut := 0 |};
     vm_OS := zero_OSInfo; vm_Process := zero_ProcessInfo; vm_LinksCongestion := [] |}.

Definition small_config : NodeConfig :=
  {| nc_Provider := ""; nc_Continent := ""; nc_Country := ""; nc_City := ""; nc_Private := "";
     nc_Public := "1.1.1.1" |}.

(** Two probes of one origin. *)
Definition origin_probe (latency : Z) : LinkCongestion :=
  {| lk_TargetIP := "9.9.9.9";
     lk_Target := {| TargetType := "source"; pt_Provider := ""; pt_IP := "9.9.9.9"; pt_Port := 80; Region := "";
                     pt_ID := "" |};
     PacketLoss := f0; AverageLatency := f_of_Z latency |}.

Definition probed_report : VMReport :=
  {| VMID := "vm-1"; CollectTime := None; ReportID := ""; vm_CPU := zero_CPUInfo;
     vm_Memory := vm_Memory small_report; vm_Disk := zero_DiskInfo; vm_Network := vm_Network small_report;
     vm_OS := zero_OSInfo; vm_Process := zero_ProcessInfo;
     vm_LinksCongestion := [origin_probe 10; origin_probe 20] |}.

Lemma accepted_report_reaches_graph_witness :
  let tel := cluster_telemetry small_config (complete 5 "id" probed_report) in
  let g' := watch_graph (λ _, Some tel) [[put_event ∅ "/routing-middle/1.1.1.1" "json"]] NewGraphManager in
  ∃ t e, GetNode g' "1.1.1.1" = Some t ∧ Cpu t = zero_CPUInfo ∧
    LinksCongestion t !! "9.9.9.9" = Some (origin_probe 15) ∧
    GetEdge g' "1.1.1.1->9.9.9.9:80" = Some e ∧ Latency e = f_of_Z 15.
Proof.
  intros tel g'.
  destruct (accepted_report_reaches_graph (λ _, Some "json") (λ _, Some tel) small_config
    5 "id" probed_report (λ _, Some 1%Z) ∅ NewGraphManager) as (_ & H & _).
  - intros s [= <-]. split; [discriminate|reflexivity].
  - discriminate.
  - assert (report_valid probed_report) as Hv.
    { split_and!; vm_compute; discriminate. }
    assert (PostVMReceive 5 "id" (inl probed_report) =
      (success "VM information reported successfully" ("id", 5%Z), Some (complete 5 "id" probed_report))) as Hp.
    { unfold PostVMReceive. rewrite (proj2 (validate_nil probed_report) Hv). vm_compute. reflexivity. }
    destruct (H Hv _ _ "/routing-middle/1.1.1.1" "json" 60%Z 1%Z Hp eq_refl eq_refl)
      as (_ & t & Ht & Hip & Hc & _ & Hl & He).
    assert (LinksCongestion t !! "9.9.9.9" = Some (origin_probe 15)) as Hl9
      by (rewrite Hl; vm_compute; reflexivity).
    destruct (He "9.9.9.9" (origin_probe 15) Hl9) as (e & He1 & _ & He2).
    + intros ip' v' Hv'. rewrite Hl in Hv'. unfold target_average in Hv'.
      destruct (decide (ip' = "9.9.9.9")) as [->|Hne]; [reflexivity|].
      unfold probes_of in Hv'. cbn [vm_LinksCongestion probed_report] in Hv'.
      rewrite !filter_cons_False in Hv' by (intros E; by apply Hne). discriminate.
    + left. reflexivity.
    + rewrite Hip in He1. exists t, e. split; [exact Ht|]. split; [exact Hc|]. split; [exact Hl9|].
      split; [exact He1|]. apply He2.
Defined.
