(* ===== verification/EdgeReport.v ===== *)
(** * Reports of the edge

    How the latency of the clients gets from the access log of a proxy to the
    control plane: the address library ([data-plane/util/ip-lib.go],
    [continent.go]), the tail of the log ([data-plane/edge-domain/telemetry.go])
    and the report ([report.go]).  Parsing times and floats, and the address
    database, are arguments. *)
From Stdlib Require Import Ascii SpecFloat.
From S2P Require Import Prelude Float64 FloatDiv GoStrings Records EdgeStats Graph Telemetry EtcdSync.
From S2P Require Import ControlApi.
Local Open Scope Z_scope.
Local Open Scope go_scope.

(** ** Addresses: [GetIPInfo] *)
Record ipOverride := {
  ov_Country : string;
  ov_Continent : string;
  ov_Province : string;
  ov_City : string;
}.

(** [IPInfoResult] of the data plane; the provider is never set. *)
Record ip_location := {
  il_IP : string;
  il_Country : string;
  il_Continent : string;
  il_Province : string;
  il_City : string;
}.

(** The fields of a database record that are read. *)
Record db_record := {
  Country_short : string;
  db_Region : string;
  db_City : string;
}.

Section Addresses.
Context `{RO : RangeOrder}.

(** [LoadCountryContinent]: the entries (name, continent) of the file. *)
Definition LoadCountryContinent (raw : gmap string (string * string)) : gmap string string :=
  foldl (λ m e, <[e.1 := e.2.2]> m) ∅ (range_map 66 raw).

Definition GetContinentByCountry (countryToContinent : gmap string string) (country : string) : string :=
  match countryToContinent !! country with Some continent => continent | None => "Unknown" end.

(** [loadIPOverrides] keeps a copy of the file. *)
Definition loadIPOverrides (raw : gmap string ipOverride) : gmap string ipOverride :=
  foldl (λ m e, <[e.1 := e.2]> m) ∅ (range_map 67 raw).

Definition findIPOverride (ipOverrides : gmap string ipOverride) (ip : string) : option ipOverride :=
  match ipOverrides !! ip with
  | Some ov => Some ov
  | None => snd <$> List.find (λ e, String.prefix e.1 ip) (range_map 68 ipOverrides)
  end.

Definition override (new old : string) : string := if bool_decide (new = "") then old else new.

(** [db] is [None] when the database was not opened. *)
Definition GetIPInfo (db : option (string → db_record + string)) (continents : gmap string string)
    (ipOverrides : gmap string ipOverride) (ip : string) : ip_location + string :=
  match db with
  | None => inr "ipDb is nil"
  | Some get_all =>
      match get_all ip with
      | inr err => inr err
      | inl res =>
          let result := {| il_IP := ip; il_Country := Country_short res;
                           il_Continent := GetContinentByCountry continents (Country_short res);
                           il_Province := db_Region res; il_City := db_City res |} in
          match findIPOverride ipOverrides ip with
          | Some ov =>
              inl {| il_IP := ip; il_Country := override (ov_Country ov) (il_Country result);
                     il_Continent := override (ov_Continent ov) (il_Continent result);
                     il_Province := override (ov_Province ov) (il_Province result);
                     il_City := override (ov_City ov) (il_City result) |}
          | None => inl result
          end
      end
  end.

Lemma LoadCountryContinent_lookup raw country :
  GetContinentByCountry (LoadCountryContinent raw) country = from_option snd "Unknown" (raw !! country).
Proof.
  unfold GetContinentByCountry, LoadCountryContinent.
  assert (foldl (λ m e, <[e.1 := e.2.2]> m) ∅ (range_map 66 raw) =
    foldl (λ m e, <[e.1 := e.2]> m) (∅ : gmap string string) ((λ e, (e.1, e.2.2)) <$> range_map 66 raw)) as ->.
  { by rewrite foldl_fmap. }
  assert (((λ e : string * (string * string), (e.1, e.2.2)) <$> range_map 66 raw).*1 = (range_map 66 raw).*1) as Hk.
  { by rewrite <-list_fmap_compose. }
  destruct (raw !! country) as [e|] eqn:E.
  - rewrite (insert_all_lookup _ _ country e.2); [done|rewrite Hk; apply range_map_NoDup|].
    apply list_elem_of_fmap. exists (country, e). split; [done|]. by apply range_map_elem.
  - rewrite insert_all_outside; [by rewrite lookup_empty|]. rewrite Hk.
    intros ([k v] & -> & Hin%range_map_elem)%list_elem_of_fmap. simpl in E. congruence.
Qed.

(** An override is used when there is one for the address or, failing that,
    for a prefix of it; with several prefixes it is any of them. *)
Lemma findIPOverride_spec ovs ip :
  match findIPOverride ovs ip with
  | Some ov => ∃ k, ovs !! k = Some ov ∧ String.prefix k ip = true ∧ (is_Some (ovs !! ip) → k = ip)
  | None => ∀ k ov, ovs !! k = Some ov → String.prefix k ip = false
  end.
Proof.
  assert (∀ s, String.prefix s s = true) as Hrefl.
  { induction s as [|c s IH]; [done|]. cbn. by destruct (ascii_dec c c). }
  unfold findIPOverride. destruct (ovs !! ip) as [ov|] eqn:E; [by exists ip|].
  destruct (List.find _ _) as [[k ov]|] eqn:F; simpl.
  - apply find_some in F as [Hin Hp]. apply list_elem_of_In, range_map_elem in Hin.
    exists k. split; [done|]. split; [done|]. by intros [? ?].
  - intros k ov Hk. apply (range_map_elem 68), list_elem_of_In in Hk.
    exact (find_none _ _ F _ Hk).
Qed.
End Addresses.

(** The comment promises the longest prefix; a short one may be taken. *)
Definition rev_order : RangeOrder.
Proof. refine {| range_map A _ m := reverse (map_to_list m) |}. intros. apply reverse_Permutation. Defined.

Definition city_override (city : string) : ipOverride :=
  {| ov_Country := ""; ov_Continent := ""; ov_Province := ""; ov_City := city |}.

Lemma override_not_longest : ∃ RO : RangeOrder,
  findIPOverride (RO := RO) {["47." := city_override "wide"; "47.86." := city_override "narrow"]} "47.86.1.2"
  = Some (city_override "wide").
Proof. first [exists list_order; vm_compute; reflexivity | exists rev_order; vm_compute; reflexivity]. Qed.

(** ** The access log: [readLatestLogs]

    A file is the list of its bytes. *)
Definition nl : ascii := "010"%char.
Definition cr : ascii := "013"%char.

Definition readSize : nat := Z.to_nat 32768.
Definition skipSize : nat := Z.to_nat 1024.

(** Where the scanner starts: at the beginning of a short file; otherwise after
    the first newline of the kilobyte that follows [size - readSize], or after
    that kilobyte, which was read, when it has none. *)
Definition log_tail (file : list ascii) : list ascii :=
  let size := length file in
  if bool_decide (readSize < size)%nat then
    let rest := drop (size - readSize) file in
    let buf := take skipSize rest in
    match list_find (λ c, c = nl) buf with
    | Some (idx, _) => drop (idx + 1) rest
    | None => drop (length buf) rest
    end
  else file.

Definition dropCR (line : list ascii) : list ascii :=
  match last line with
  | Some c => if bool_decide (c = cr) then removelast line else line
  | None => line
  end.

(** [bufio.ScanLines]; the last line need not be complete. *)
Fixpoint scan_lines (cur l : list ascii) : list (list ascii) :=
  match l with
  | [] => if bool_decide (cur = []) then [] else [dropCR cur]
  | c :: l => if bool_decide (c = nl) then dropCR cur :: scan_lines [] l else scan_lines (cur ++ [c]) l
  end.

Fixpoint take_while (ok : ascii → bool) (l : list ascii) : list ascii :=
  match l with
  | [] => []
  | c :: l => if ok c then c :: take_while ok l else []
  end.

(** [extract] with a pattern [key(class+)]: the capture of the leftmost match,
    empty when there is none. *)
Fixpoint extract (key : list ascii) (ok : ascii → bool) (line : list ascii) : list ascii :=
  match line with
  | [] => []
  | _ :: line' =>
      let cap := take_while ok (drop (length key) line) in
      if bool_decide (take (length key) line = key) && negb (bool_decide (cap = []))
      then cap else extract key ok line'
  end.

(** The class [\S] of the regular expressions, and [[\d.]]. *)
Definition not_space (c : ascii) : bool :=
  let n := Z.of_nat (nat_of_ascii c) in
  negb (bool_decide (n = 9) || bool_decide (n = 10) || bool_decide (n = 12) || bool_decide (n = 13) || bool_decide (n = 32)).
Definition number_char (c : ascii) : bool :=
  let n := Z.of_nat (nat_of_ascii c) in bool_decide (48 ≤ n ≤ 57) || bool_decide (c = "."%char).

Definition chars (s : string) : list ascii := String.list_ascii_of_string s.

(** [int(math.Round(x))]: halves away from zero; what does not fit converts to
    the minimal [int], as on amd64. *)
Definition f_round (x : float64) : Z :=
  match x with
  | S754_zero _ => 0
  | S754_finite s m e =>
      let q := if 0 <=? e then Z.pos m * 2 ^ e else (Z.pos m + 2 ^ (- e - 1)) / 2 ^ (- e) in
      let v := if s then - q else q in
      if (- 2 ^ 63 <=? v) && (v <? 2 ^ 63) then v else - 2 ^ 63
  | _ => - 2 ^ 63
  end.

Section Log.
(** [time.Parse(time.RFC3339Nano, _)], [strconv.ParseFloat(_, 64)] with its
    error ignored, and [GetIPInfo]. *)
Variables (parse_time : string → option Z) (ParseFloat : string → float64)
  (ip_info : string → ip_location + string).

Definition parse_line (line : list ascii) : option log_record :=
  let tsStr := extract (chars "time=") not_space line in
  let ip := extract (chars "client_ip=") not_space line in
  let rtStr := extract (chars "conn_rt_ms=") number_char line in
  if bool_decide (tsStr = []) || bool_decide (ip = []) || bool_decide (rtStr = []) then None
  else
    t ← parse_time (String.string_of_list_ascii tsStr);
    match ip_info (String.string_of_list_ascii ip) with
    | inr _ => None
    | inl info =>
        Some {| Ts := t; ConnRT := f_round (ParseFloat (String.string_of_list_ascii rtStr));
                rec_City := il_City info |}
    end.

(** The records after one reading; a file that cannot be opened adds none. *)
Definition readLatestLogs (file : option (list ascii)) (records : list log_record) : list log_record :=
  match file with
  | None => records
  | Some f => records ++ omap parse_line (scan_lines [] (log_tail f))
  end.

(** *** What is read of a log of whole lines *)
Definition line_ok (l : list ascii) : Prop := (nl ∉ l) ∧ last l ≠ Some cr ∧ (length l < skipSize)%nat.
Definition log_of (lines : list (list ascii)) : list ascii := mjoin ((λ l, l ++ [nl]) <$> lines).

Lemma log_of_cons l lines : log_of (l :: lines) = l ++ nl :: log_of lines.
Proof. unfold log_of. rewrite fmap_cons, mjoin_cons, <-app_assoc. done. Qed.

Lemma dropCR_ok l : last l ≠ Some cr → dropCR l = l.
Proof. intros H. unfold dropCR. destruct (last l) as [c|]; [|done]. rewrite bool_decide_false; [done|congruence]. Qed.

Lemma scan_line cur l rest : nl ∉ l → scan_lines cur (l ++ nl :: rest) = dropCR (cur ++ l) :: scan_lines [] rest.
Proof.
  revert cur. induction l as [|c l IH]; intros cur Hl.
  - by rewrite app_nil_r.
  - apply not_elem_of_cons in Hl as [Hc Hl]. simpl. rewrite bool_decide_false by congruence.
    rewrite IH by done. by rewrite <-app_assoc.
Qed.

Lemma scan_log lines : Forall line_ok lines → scan_lines [] (log_of lines) = lines.
Proof.
  induction 1 as [|l lines (Hl & Hc & _) _ IH]; [done|]. rewrite log_of_cons, scan_line by done. rewrite dropCR_ok by done. by rewrite IH.
Qed.

(** A position in the log is inside one line. *)
Lemma log_split lines n : (n < length (log_of lines))%nat →
  ∃ k l, lines !! k = Some l ∧
    ∃ a b, l ++ [nl] = a ++ b ∧ b ≠ [] ∧ drop n (log_of lines) = b ++ log_of (drop (S k) lines).
Proof.
  revert n. induction lines as [|l lines IH]; intros n Hn; [simpl in Hn; lia|].
  replace (log_of (l :: lines)) with ((l ++ [nl]) ++ log_of lines) in *
    by (rewrite log_of_cons, <-app_assoc; done).
  rewrite length_app in Hn. destruct (decide (n < length (l ++ [nl]))%nat) as [Hlt|Hge].
  - exists 0%nat, l. split; [done|]. exists (take n (l ++ [nl])), (drop n (l ++ [nl])).
    split; [by rewrite take_drop|]. split.
    + intros E%(f_equal length). rewrite length_drop in E. simpl in E. lia.
    + rewrite drop_app_le by lia. simpl. by rewrite drop_0.
  - destruct (IH (n - length (l ++ [nl]))%nat) as (k & l' & Hk & a & b & Ha & Hb & E); [lia|].
    exists (S k), l'. split; [done|]. exists a, b. split; [done|]. split; [done|].
    rewrite drop_app_ge by lia. exact E.
Qed.

Lemma find_newline b rest : nl ∉ b → list_find (λ c, c = nl) (b ++ nl :: rest) = Some (length b, nl).
Proof.
  intros Hb. apply list_find_Some. split; [by apply list_lookup_middle|]. split; [done|].
  intros j y Hj Hlt ->. apply Hb. apply list_elem_of_lookup. exists j.
  by rewrite lookup_app_l in Hj.
Qed.

(** What is read of a log of whole lines: whole lines at its end. *)
Lemma log_tail_lines lines : Forall line_ok lines →
  ∃ k, scan_lines [] (log_tail (log_of lines)) = drop k lines ∧
    ((length (log_of lines) ≤ readSize)%nat → k = 0%nat) ∧
    (length (log_of (drop k lines)) ≤ readSize)%nat ∧
    (∀ j, k = S j → (readSize ≤ length (log_of (drop j lines)))%nat).
Proof.
  intros Hl. unfold log_tail. case_bool_decide as Hs.
  2: { exists 0%nat. rewrite drop_0. split; [by apply scan_log|]. split; [done|]. split; [lia|done]. }
  destruct (log_split lines (length (log_of lines) - readSize)) as (k & l & Hk & a & b & Hab & Hb & E).
  { unfold readSize in *. lia. }
  pose proof (f_equal length E) as Elen. rewrite length_drop, length_app in Elen.
  destruct b as [|x b' _] using rev_ind; [done|]. rewrite app_assoc in Hab.
  apply app_inj_tail in Hab as [Hab <-].
  assert (line_ok l) as (Hnl & _ & Hlt) by (rewrite Forall_lookup in Hl; by eapply Hl).
  assert (nl ∉ b') as Hnb by (rewrite Hab in Hnl; rewrite elem_of_app in Hnl; tauto).
  assert (length b' < skipSize)%nat as Hblen by (rewrite Hab, length_app in Hlt; lia).
  exists (S k). rewrite E. rewrite <-app_assoc. cbn [app].
  rewrite take_app_ge by lia. destruct (skipSize - length b')%nat as [|m] eqn:Em; [lia|]. cbn [take].
  rewrite find_newline by done. rewrite drop_app_ge by lia.
  replace (length b' + 1 - length b')%nat with 1%nat by lia. cbn [drop]. split; [|split; [lia|split]].
  - apply scan_log. by apply Forall_drop.
  - rewrite length_app in Elen. simpl in Elen. lia.
  - intros j [= <-]. rewrite (drop_S lines l k) by done. rewrite log_of_cons, length_app. cbn [length].
    rewrite length_app in Elen. cbn [length] in Elen. rewrite Hab, length_app. lia.
Qed.

(** What one reading of the log adds.  Of a log of whole lines shorter than
    a kilobyte the reader takes the last lines, each of them whole: all of them
    when the file has at most 32 KiB, and otherwise at most 32 KiB and
    everything after the line in which, or at the start of which, the last
    32 KiB begin.  The records of those lines are appended to the ones that are
    stored, also the ones that an earlier reading has already stored. *)
Theorem readLatestLogs_lines lines records : Forall line_ok lines →
  ∃ k, readLatestLogs (Some (log_of lines)) records = records ++ omap parse_line (drop k lines) ∧
    readLatestLogs (Some (log_of lines)) (readLatestLogs (Some (log_of lines)) records) =
      records ++ omap parse_line (drop k lines) ++ omap parse_line (drop k lines) ∧
    ((length (log_of lines) ≤ readSize)%nat → k = 0%nat) ∧
    (length (log_of (drop k lines)) ≤ readSize)%nat ∧
    (∀ j, k = S j → (readSize ≤ length (log_of (drop j lines)))%nat).
Proof.
  intros Hl. destruct (log_tail_lines lines Hl) as (k & E & H). exists k. simpl. rewrite E, <-app_assoc. done.
Qed.

End Log.

(** ** The report: [SendLastTelemetry] *)

(** The body of the report; the exchange is that of [Report]. *)
Definition last_report (c : NodeConfig) (delayStats : gmap string LastCongestion) : LastTelemetry :=
  {| LastsCongestion := Some <$> delayStats; lt_IP := nc_Public c; lt_Continent := nc_Continent c;
     lt_Country := nc_Country c; lt_City := nc_City c |}.

(** [None] when the encoding, the request or the decoding of the answer has
    failed; the status of the response is only logged. *)
Definition SendLastTelemetry (c : NodeConfig) (exchange : LastTelemetry → option (Z * string))
    (delayStats : gmap string LastCongestion) : option string :=
  match exchange (last_report c delayStats) with
  | None => Some "exchange failed"
  | Some (code, msg) =>
      if bool_decide (code = 200) then None
      else Some ("control-plane processing failed: code=" +:+ Itoa code +:+ ", msg=" +:+ msg)
  end.

Section Reporter.
Context `{RO : RangeOrder}.

(** One turn of the loop of [LastTelemetryReporter]: the report that is sent,
    unless there is nothing to report, and the records that are kept. *)
Definition report_tick (c : NodeConfig) (now : Z) (records : list log_record)
    : go (option LastTelemetry * list log_record) :=
  let! r := calculateLastCongestion now records in
  let '(stats, records) := r in
  Ret (if bool_decide (stats = ∅) then None else Some (last_report c stats), records).
End Reporter.

(** ** From the log to the statistics of the control plane *)
Lemma length_omap_le {A B} (f : A → option B) (l : list A) : (length (omap f l) ≤ length l)%nat.
Proof. induction l as [|x l IH]; csimpl; [done|]. destruct (f x); csimpl; lia. Qed.

Section ToStatistics.
Context `{RO : RangeOrder}.
Variables (parse_time : string → option Z) (ParseFloat : string → float64)
  (ip_info : string → ip_location + string).
Variable decode : string → option LastTelemetry.

Lemma last_report_no_nil c stats u : LastsCongestion (last_report c stats) !! u ≠ Some None.
Proof. simpl. rewrite lookup_fmap. by destruct (stats !! u). Qed.

(** The statistics after the event of a report with no nil entry. *)
Lemma reported_statistics c stats st key bytes g :
  stats_wf g → addresses_ok g → ¬ nil_sample g → nc_Public c ≠ "" → dash_free (nc_Public c) = true →
  bytes ≠ "" → decode bytes = Some (last_report c stats) →
  let ev := put_event st key bytes in
  ∃ g', rebuildAggregate (HandleLastWatchEvent decode (event_type ev) (ev_value ev) g).1 = Ret g' ∧
    ∀ city v, stats !! city = Some v →
      GetAggValue (agg_key city (nc_Public c)) g' = set_avg (sample_sum v).
Proof.
  intros Hwf Ha Hn Hip Hd Hb Hdec ev.
  assert ((HandleLastWatchEvent decode (event_type ev) (ev_value ev) g).1 = AddOrUpdateNode (last_report c stats) g) as ->.
  { unfold HandleLastWatchEvent. cbn [ev_value ev put_event]. rewrite bool_decide_false, Hdec by done.
    assert (bool_decide (event_type ev = "CREATE") || bool_decide (event_type ev = "UPDATE") = true) as ->; [|done].
    unfold event_type, ev, put_event. simpl. by destruct (st !! _). }
  set (g1 := AddOrUpdateNode (last_report c stats) g).
  assert (nodeLast g1 = <[nc_Public c := last_report c stats]> (nodeLast g)) as Hg1.
  { unfold g1, AddOrUpdateNode. by rewrite bool_decide_false. }
  destruct (rebuild_reference g1) as [[(ip & n & u & Hl & Hu) _]|(_ & g' & E & _ & H)].
  - by apply AddOrUpdateNode_wf.
  - intros ip. rewrite Hg1, dom_insert. intros [->%elem_of_singleton|Hin]%elem_of_union; [done|by apply Ha].
  - exfalso. rewrite Hg1 in Hl. apply lookup_insert_Some in Hl as [[<- <-]|[_ Hl]].
    + by apply last_report_no_nil in Hu.
    + apply Hn. by exists ip, n, u.
  - exists g'. split; [done|]. intros city v Hv. unfold GetAggValue.
    assert (edgeAgg g' !! agg_key city (nc_Public c) = Some (set_avg (sample_sum v))) as ->; [|done].
    apply H. exists (nc_Public c), (last_report c stats), city, v. rewrite Hg1, lookup_insert_eq.
    simpl. by rewrite lookup_fmap, Hv.
Qed.

(** A report of stored records, with a recent one of the city. *)
Lemma records_reach_statistics c now records ownIP st g city :
  let recent := filter (λ r, now - Ts r ≤ 10000000000) records in
  let l := ConnRT <$> filter (λ r, rec_City r = city) recent in
  Z.of_nat (length records) < 2 ^ 47 → l ≠ [] →
  stats_wf g → addresses_ok g → ¬ nil_sample g → nc_Public c ≠ "" → dash_free (nc_Public c) = true →
  ∃ tel, report_tick c now records = Ret (Some tel, recent) ∧
  ∀ bytes, bytes ≠ "" → decode bytes = Some tel →
    ∃ resp key ttl g' v, PostLastReceive ownIP (inl (bytes, tel)) = (resp, Some (key, bytes, ttl)) ∧
    Code resp = 200 ∧
    rebuildAggregate (HandleLastWatchEvent decode (event_type (put_event st key bytes)) bytes g).1 = Ret g' ∧
    city_ok l v ∧
    Count (GetAggValue (agg_key city (nc_Public c)) g') = Z.of_nat (length l) ∧
    AvgRT (GetAggValue (agg_key city (nc_Public c)) g') =
      fdiv (fadd f0 (fmul (AvgRT v) (f_of_Z (Z.of_nat (length l))))) (f_of_Z (Z.of_nat (length l))).
Proof.
  intros recent l Hlen Hl Hwf Ha Hn Hip Hd.
  destruct (calculate_statistics now records Hlen) as (stats & E & Hstats).
  assert (valid_records now records = recent) as Hvalid.
  { destruct (valid_records_spec now records) as [[-> _]|[_ Hold]]; [done|]. exfalso. apply Hl.
    assert (recent = []) as Hnone; [|unfold l; by rewrite Hnone].
    unfold recent. clear -Hold. induction Hold as [|r rs Hr _ IH]; [done|].
    rewrite filter_cons_False by lia. exact IH. }
  rewrite Hvalid in E, Hstats. specialize (Hstats city). fold l in Hstats. cbv zeta in Hstats.
  destruct (stats !! city) as [v|] eqn:Hv; [|done]. destruct Hstats as [Hok _].
  assert (stats ≠ ∅) as Hne by (intros ->; by rewrite lookup_empty in Hv).
  exists (last_report c stats). split.
  { unfold report_tick. rewrite E. cbn [go_bind]. by rewrite bool_decide_false. }
  intros bytes Hb Hdec. eexists _, _, _.
  destruct (reported_statistics c stats st ("/routing-last/" +:+ ownIP) bytes g) as (g' & Hg' & Hagg); try done.
  exists g', v. split; [reflexivity|]. split; [done|]. split; [exact Hg'|]. split; [done|].
  rewrite (Hagg city v Hv). destruct Hok as (_ & Hc & _).
  assert (0 < Z.of_nat (length l) < 2 ^ 47) as Hpos.
  { assert (length l ≤ length records)%nat; [|destruct l; [done|simpl in *; lia]].
    unfold l. rewrite length_fmap. etransitivity; [apply length_filter|]. apply length_filter. }
  assert (int64 (Count v) = Z.of_nat (length l)) as Hi by (rewrite Hc; apply int64_id; lia).
  unfold set_avg, sample_sum. cbn [Count]. rewrite bool_decide_true by lia. cbn [Count AvgRT SumRT].
  by rewrite Hi, Hc.
Qed.

End ToStatistics.

(** ** Instances of the theorems *)
Definition access_line : list ascii :=
  chars "time=2024-05-01T00:00:00Z level=INFO msg=access req_id=7 client_ip=9.9.9.9 conn_rt_ms=31.4 data_len=3".

Definition fixed_time (s : string) : option Z :=
  if bool_decide (s = "2024-05-01T00:00:00Z") then Some 1714521600000000000 else None.
Definition fixed_float (s : string) : float64 :=
  if bool_decide (s = "31.4") then f_of_frac 314 10 else f0.
Definition fixed_city (ip : string) : ip_location + string :=
  inl {| il_IP := ip; il_Country := "FR"; il_Continent := "EU"; il_Province := ""; il_City := "Paris" |}.

Definition access_record : log_record := {| Ts := 1714521600000000000; ConnRT := 31; rec_City := "Paris" |}.

Lemma readLatestLogs_lines_witness :
  readLatestLogs fixed_time fixed_float fixed_city (Some (log_of [access_line]))
    (readLatestLogs fixed_time fixed_float fixed_city (Some (log_of [access_line])) []) =
  [access_record; access_record].
Proof.
  destruct (readLatestLogs_lines fixed_time fixed_float fixed_city [access_line] []) as (k & _ & E & Hk & _).
  - constructor; [|constructor]. split; [|split].
    + apply (bool_decide_unpack _). vm_compute. reflexivity.
    + vm_compute. discriminate.
    + apply Nat.ltb_lt. vm_compute. reflexivity.
  - rewrite E, Hk; [vm_compute; reflexivity|]. apply Nat.leb_le. vm_compute. reflexivity.
Defined.

Definition edge_config : NodeConfig :=
  {| nc_Provider := ""; nc_Continent := ""; nc_Country := ""; nc_City := ""; nc_Private := "";
     nc_Public := "1.1.1.1" |}.

Definition edge_tel : LastTelemetry :=
  match report_tick edge_config 1714521601000000000 [access_record] with
  | Ret (Some tel, _) => tel
  | _ => zero_LastTelemetry
  end.

