(* ===== verification/Net.v ===== *)
(** * IPv4 addresses and request ids

    What [data-proxy/util] takes from package [net]: parsing and printing of
    IPv4 addresses ([HopIPToNet], [Uint32ToIP]), and the request ids of
    [req-id.go].  An IPv4 address in its 4-byte form is its big-endian number. *)
From Stdlib Require Import Ascii.
From S2P Require Import Prelude GoStrings.
Local Open Scope Z_scope.

(** ** [net.ParseIP]

    The state of [netip]'s field loop: the octets read so far, the value and
    the number of digits of the current one. *)
Definition digit_of (c : Ascii.ascii) : option Z :=
  let n := Z.of_nat (Ascii.nat_of_ascii c) in
  if bool_decide (48 ≤ n ≤ 57) then Some (n - 48) else None.

(** The decimal digits of [strconv]. *)
Fixpoint parse_uint (s : string) (acc : Z) : option Z :=
  match s with
  | EmptyString => Some acc
  | String c s' => match digit_of c with
                   | Some d => parse_uint s' (acc * 10 + d)
                   | None => None
                   end
  end.

Fixpoint parse_fields (s : string) (fields : list Z) (val digLen : Z) : option (list Z) :=
  match s with
  | EmptyString => if bool_decide (length fields = 3%nat) then Some (fields ++ [val]) else None
  | String c s' =>
      match digit_of c with
      | Some d =>
          if bool_decide (digLen = 1 ∧ val = 0) then None
          else
            let val := val * 10 + d in
            if bool_decide (255 < val) then None else parse_fields s' fields val (digLen + 1)
      | None =>
          if bool_decide (c = "."%char) then
            if bool_decide (digLen = 0) || bool_decide (s' = "") then None
            else if bool_decide (length fields = 3%nat) then None
            else parse_fields s' (fields ++ [val]) 0 0
          else None
      end
  end.

(** A printed number parses back. *)
Lemma digit_of_char d : (d < 10)%N → digit_of (pretty_N_char d) = Some (Z.of_N d).
Proof.
  intros Hd. destruct d as [|d]; [done|].
  repeat (destruct d as [d|d|]; try lia; try done).
Qed.

Lemma parse_uint_go x s : parse_uint (pretty_N_go x s) 0 = parse_uint s (Z.of_N x).
Proof.
  revert s. induction (N.lt_wf_0 x) as [x _ IH]; intros s.
  destruct (decide (x = 0)%N) as [->|Hx]; [done|].
  assert (0 < x)%N as Hpos by lia.
  rewrite pretty_N_go_step by done. rewrite IH by (by apply N.div_lt). cbn [parse_uint].
  rewrite digit_of_char by (apply N.mod_lt; lia). f_equal.
  pose proof (N.div_mod x 10 ltac:(lia)). lia.
Qed.

Lemma parse_uint_Itoa n : 0 ≤ n → parse_uint (Itoa n) 0 = Some n ∧ Itoa n ≠ "".
Proof.
  intros Hn. unfold Itoa. destruct n as [|n|n]; [done| |lia].
  change (pretty (Z.pos n)) with (pretty_N_go (N.pos n) "").
  assert (parse_uint (pretty_N_go (N.pos n) "") 0 = Some (Z.pos n)) as Hp by apply parse_uint_go.
  split; [done|]. intros E. rewrite E in Hp. done.
Qed.

Definition ip4_of_bytes (bs : list Z) : Z := foldl (λ acc b, acc * 256 + b) 0 bs.

(** The IPv6 parser is a parameter: [parse_ip6 s] is [ParseIP(s).To4()] of a
    string whose first separator is a colon (an IPv4-mapped address). *)
Class Ip6Parser := parse_ip6 : string → option Z.

(** Its results are 32-bit numbers. *)
Class Ip6Range `{Ip6Parser} : Prop :=
  parse_ip6_range s v : parse_ip6 s = Some v → 0 ≤ v < 2 ^ 32.

Section Net.
Context `{Ip6Parser}.

(** The first of ['.'], [':'] and ['%'] decides which parser runs. *)
Fixpoint parse_by_separator (s full : string) : option Z :=
  match s with
  | EmptyString => None
  | String c s' =>
      if bool_decide (c = "."%char) then ip4_of_bytes <$> parse_fields full [] 0 0
      else if bool_decide (c = ":"%char) then parse_ip6 full
      else if bool_decide (c = "%"%char) then None
      else parse_by_separator s' full
  end.

(** [net.ParseIP(s).To4()] *)
Definition ParseIP_To4 (s : string) : option Z := parse_by_separator s s.

Definition HopIPToNet (ipStr : string) : option Z := ParseIP_To4 ipStr.

(** [Uint32ToIP(v)] is the 4-byte address; [ip_string] its [String()]. *)
Definition Uint32ToIP (ipUint32 : Z) : Z := ipUint32.

Definition octet (v : Z) (shift : Z) : Z := Z.land (Z.shiftr v shift) 255.

Definition ip_string (v : Z) : string :=
  Itoa (octet v 24) +:+ "." +:+ Itoa (octet v 16) +:+ "." +:+
  Itoa (octet v 8) +:+ "." +:+ Itoa (octet v 0).

(** ** Request ids

    [reqSeq] is the global counter; [GenShortReqID] returns the id and the new
    counter. *)
Definition GenShortReqID (clientIP : string) (reqSeq : Z) : Z * Z :=
  let seq := uint64 (reqSeq + 1) in
  let ipSegment := match ParseIP_To4 clientIP with
                   | Some ip => Z.land ip 255
                   | None => 0
                   end in
  let id := Z.lor (uint32 (Z.shiftl ipSegment 24)) (Z.land (uint32 seq) (Z.ones 24)) in
  (id, seq).
End Net.

(** ** Printing and parsing *)
Definition octet_strings : list (Z * string) := (λ n, (Z.of_nat n, Itoa (Z.of_nat n))) <$> seq 0 256.

(** The parser reads one printed octet. *)
Fixpoint parse_octet (s : string) (val digLen : Z) : option (Z * Z) :=
  match s with
  | EmptyString => Some (val, digLen)
  | String c s' =>
      match digit_of c with
      | Some d =>
          if bool_decide (digLen = 1 ∧ val = 0) then None
          else if bool_decide (255 < val * 10 + d) then None
          else parse_octet s' (val * 10 + d) (digLen + 1)
      | None => None
      end
  end.

Definition octet_ok (n : nat) : bool :=
  match parse_octet (Itoa (Z.of_nat n)) 0 0 with
  | Some (v, d) => bool_decide (v = Z.of_nat n) && bool_decide (0 < d)
  | None => false
  end.

Lemma octets_ok : forallb octet_ok (seq 0 256) = true.
Proof. vm_compute. reflexivity. Qed.

Lemma parse_octet_print b : 0 ≤ b < 256 → ∃ d, parse_octet (Itoa b) 0 0 = Some (b, d) ∧ 0 < d.
Proof.
  intros Hb. pose proof octets_ok as Hall. rewrite forallb_forall in Hall.
  specialize (Hall (Z.to_nat b) ltac:(apply in_seq; lia)). unfold octet_ok in Hall.
  rewrite Z2Nat.id in Hall by lia. destruct (parse_octet (Itoa b) 0 0) as [[v d]|]; [|done].
  bool_simp. subst v. eauto.
Qed.

(** The field loop on an octet followed by [rest]. *)
Lemma parse_fields_octet s rest fields val digLen v d :
  parse_octet s val digLen = Some (v, d) →
  parse_fields (s +:+ rest) fields val digLen = parse_fields rest fields v d.
Proof.
  revert val digLen. induction s as [|c s IH]; intros val digLen Hs.
  { simpl in Hs. injection Hs as -> ->. done. }
  change (String c s +:+ rest) with (String c (s +:+ rest)). simpl in *.
  destruct (digit_of c) as [x|]; [|done]. case_bool_decide; [done|].
  case_bool_decide; [done|]. by apply IH.
Qed.

Lemma parse_fields_dot rest fields v d : 0 < d → rest ≠ "" → length fields ≠ 3%nat →
  parse_fields ("." +:+ rest) fields v d = parse_fields rest (fields ++ [v]) 0 0.
Proof.
  intros Hd Hr Hf. change ("." +:+ rest) with (String "." rest). simpl.
  rewrite !bool_decide_eq_false_2 by (done || lia). done.
Qed.

Lemma app_nonempty s t : t ≠ "" → s +:+ t ≠ "".
Proof. intros Ht. destruct s; [done|]. by intros E. Qed.

Lemma parse_fields_print a b c d :
  0 ≤ a < 256 → 0 ≤ b < 256 → 0 ≤ c < 256 → 0 ≤ d < 256 →
  parse_fields (Itoa a +:+ "." +:+ Itoa b +:+ "." +:+ Itoa c +:+ "." +:+ Itoa d) [] 0 0
  = Some [a; b; c; d].
Proof.
  intros Ha Hb Hc Hd.
  destruct (parse_octet_print a Ha) as (na & Pa & Na), (parse_octet_print b Hb) as (nb & Pb & Nb),
    (parse_octet_print c Hc) as (nc & Pc & Nc), (parse_octet_print d Hd) as (nd & Pd & Nd).
  assert (Itoa d ≠ "") as Hne.
  { intros E. rewrite E in Pd. simpl in Pd. injection Pd as _ <-. lia. }
  rewrite (parse_fields_octet _ _ _ _ _ _ _ Pa), parse_fields_dot by (done || by repeat apply app_nonempty).
  rewrite (parse_fields_octet _ _ _ _ _ _ _ Pb), parse_fields_dot by (done || by repeat apply app_nonempty).
  rewrite (parse_fields_octet _ _ _ _ _ _ _ Pc), parse_fields_dot by (done || by repeat apply app_nonempty).
  rewrite <-(string_app_nil_r (Itoa d)), (parse_fields_octet _ _ _ _ _ _ _ Pd). done.
Qed.

Section RoundTrip.
Context `{Ip6Parser}.

Lemma separator_octet s rest full val digLen r :
  parse_octet s val digLen = Some r →
  parse_by_separator (s +:+ "." +:+ rest) full = ip4_of_bytes <$> parse_fields full [] 0 0.
Proof.
  revert val digLen. induction s as [|c s IH]; intros val digLen Hs; [done|].
  change (String c s +:+ "." +:+ rest) with (String c (s +:+ "." +:+ rest)). simpl in *.
  destruct (digit_of c) as [x|] eqn:Hc; [|done].
  assert (∀ c', digit_of c' = None → c ≠ c') as Hne by (intros c' Hc' ->; congruence).
  rewrite !bool_decide_eq_false_2 by (by apply Hne).
  case_bool_decide; [done|]. case_bool_decide; [done|]. by eapply IH.
Qed.

Lemma octet_div v s : 0 ≤ s → octet v s = (v `div` 2 ^ s) `mod` 256.
Proof. intros Hs. unfold octet. rewrite Z.shiftr_div_pow2 by done. apply (Z.land_ones _ 8). lia. Qed.

Lemma octet_byte v s : 0 ≤ octet v s < 256.
Proof. unfold octet. rewrite (Z.land_ones _ 8) by lia. apply Z.mod_pos_bound. lia. Qed.

Lemma octets_value v : 0 ≤ v < 2 ^ 32 →
  ip4_of_bytes [octet v 24; octet v 16; octet v 8; octet v 0] = v.
Proof.
  intros Hv. unfold ip4_of_bytes. simpl. rewrite !octet_div by lia.
  change (2 ^ 24) with 16777216. change (2 ^ 16) with 65536. change (2 ^ 8) with 256.
  change (2 ^ 0) with 1. change (2 ^ 32) with 4294967296 in Hv.
  Z.div_mod_to_equations. lia.
Qed.

Lemma ip_string_parses v : 0 ≤ v < 2 ^ 32 → HopIPToNet (ip_string v) = Some v.
Proof.
  intros Hv. unfold HopIPToNet, ParseIP_To4, ip_string.
  destruct (parse_octet_print (octet v 24) (octet_byte v 24)) as (n & Pn & _).
  rewrite (separator_octet _ _ _ _ _ _ Pn).
  rewrite parse_fields_print by apply octet_byte. simpl. f_equal. by apply octets_value.
Qed.

(** Printing an IPv4 address and parsing it back gives the same address:
    a hop survives the way from a header to a routing key and into the next
    header. *)
Theorem HopIPToNet_ip_string v : 0 ≤ v < 2 ^ 32 → HopIPToNet (ip_string v) = Some v.
Proof. apply ip_string_parses. Qed.

Lemma parse_fields_bytes s fields val digLen l :
  parse_fields s fields val digLen = Some l → Forall (λ b, 0 ≤ b < 256) fields → 0 ≤ val < 256 →
  length l = 4%nat ∧ Forall (λ b, 0 ≤ b < 256) l.
Proof.
  revert fields val digLen. induction s as [|c s IH]; intros fields val digLen Hl Hf Hv; simpl in Hl.
  - case_bool_decide as Hlen; [|done]. injection Hl as <-.
    split; [rewrite length_app, Hlen; done|]. apply Forall_app. split; [done|]. by apply Forall_singleton.
  - destruct (digit_of c) as [d|] eqn:Hd.
    + case_bool_decide; [done|]. case_bool_decide; [done|]. eapply IH; [done..|].
      unfold digit_of in Hd. case_bool_decide; [|done]. injection Hd as <-. lia.
    + case_bool_decide; [|done]. destruct (_ || _); [done|]. case_bool_decide; [done|].
      eapply IH; [done| |lia]. apply Forall_app. split; [done|]. by apply Forall_singleton.
Qed.

Lemma ip4_of_bytes_range l : length l = 4%nat → Forall (λ b, 0 ≤ b < 256) l →
  0 ≤ ip4_of_bytes l < 2 ^ 32.
Proof.
  destruct l as [|a [|b [|c [|d [|]]]]]; try done. intros _.
  rewrite !Forall_cons. intros (Ha & Hb & Hc & Hd & _). unfold ip4_of_bytes. simpl. lia.
Qed.

Lemma HopIPToNet_range `{!Ip6Range} s v : HopIPToNet s = Some v → 0 ≤ v < 2 ^ 32.
Proof.
  unfold HopIPToNet, ParseIP_To4. generalize s at 1 as rest.
  induction rest as [|c rest IH]; simpl; [done|].
  case_bool_decide.
  { destruct (parse_fields s [] 0 0) as [l|] eqn:E; simpl; [|done]. intros [= <-].
    apply parse_fields_bytes in E as [E1 E2]; [|constructor|lia]. by apply ip4_of_bytes_range. }
  case_bool_decide; [apply parse_ip6_range|]. by case_bool_decide.
Qed.

(** ** Request ids *)
Lemma id_split ip s : Z.land (Z.lor (uint32 (Z.shiftl ip 24)) (Z.land (uint32 s) (Z.ones 24))) (Z.ones 24)
  = s `mod` 2 ^ 24.
Proof.
  apply Z.bits_inj'. intros n Hn. unfold uint32.
  rewrite Z.land_spec, Z.lor_spec, Z.land_spec, <-!Z.land_ones, !Z.land_spec by lia.
  destruct (decide (n < 24)) as [Hlt|Hge].
  - rewrite (Z.ones_spec_low 24), (Z.ones_spec_low 32), Z.shiftl_spec_low by lia.
    by rewrite !andb_true_r.
  - rewrite (Z.ones_spec_high 24) by lia. by rewrite !andb_false_r.
Qed.

(** The request ids of [n] calls by one client, counted from [seq]. *)
Fixpoint gen_ids (n : nat) (clientIP : string) (reqSeq : Z) : list Z :=
  match n with
  | O => []
  | S n => let '(id, seq) := GenShortReqID clientIP reqSeq in id :: gen_ids n clientIP seq
  end.

Lemma gen_ids_lookup n clientIP reqSeq i id : gen_ids n clientIP reqSeq !! i = Some id →
  Z.land id (Z.ones 24) = (reqSeq + 1 + Z.of_nat i) `mod` 2 ^ 24.
Proof.
  revert reqSeq i. induction n as [|n IH]; intros reqSeq i Hi; [done|].
  cbn [gen_ids GenShortReqID] in Hi. destruct i as [|i].
  - simpl in Hi. injection Hi as <-. rewrite id_split. unfold uint64.
    rewrite <-Z.land_ones, <-(Z.land_ones _ 64), <-Z.land_assoc, (Z.land_comm (Z.ones 64)) by lia.
    change (Z.land (Z.ones 24) (Z.ones 64)) with (Z.ones 24). rewrite Z.land_ones by lia. f_equal. lia.
  - apply IH in Hi. rewrite Hi. unfold uint64.
    pose proof (Z.div_mod (reqSeq + 1) (2 ^ 64) ltac:(lia)).
    replace (reqSeq + 1 + Z.of_nat (S i)) with
      ((reqSeq + 1) `mod` 2 ^ 64 + 1 + Z.of_nat i + ((reqSeq + 1) `div` 2 ^ 64 * 2 ^ 40) * 2 ^ 24)
      by lia.
    by rewrite Z.mod_add by lia.
Qed.

(** Request ids do not collide while fewer than 2^24 requests are
    outstanding: any 16777216 consecutive calls of [GenShortReqID] for one
    client return distinct ids. *)
Theorem GenShortReqID_unique n clientIP reqSeq :
  Z.of_nat n ≤ 2 ^ 24 → NoDup (gen_ids n clientIP reqSeq).
Proof.
  intros Hn. apply NoDup_alt. intros i j id Hi Hj.
  assert (∀ m c q k y, gen_ids m c q !! k = Some y → (k < m)%nat) as Hlen.
  { intros m. induction m as [|m IH]; intros c q k y Hk; [done|].
    destruct k as [|k]; [lia|]. cbn [gen_ids GenShortReqID] in Hk. apply IH in Hk. lia. }
  pose proof (Hlen _ _ _ _ _ Hi). pose proof (Hlen _ _ _ _ _ Hj).
  apply gen_ids_lookup in Hi, Hj. rewrite Hi in Hj.
  Z.div_mod_to_equations. lia.
Qed.
End RoundTrip.

(** ** Instances of the theorems *)
Definition no_ip6 : Ip6Parser := λ _, None.

Lemma HopIPToNet_ip_string_witness :
  @HopIPToNet no_ip6 "192.168.1.20" = Some 3232235796.
Proof. apply (@HopIPToNet_ip_string no_ip6 3232235796). lia. Defined.

Lemma GenShortReqID_unique_witness : NoDup (@gen_ids no_ip6 3 "10.0.0.7" (2 ^ 64 - 2)).
Proof. apply (@GenShortReqID_unique no_ip6 3). lia. Defined.
