(* ===== verification/Collector.v ===== *)
(** * Collection on a node

    [data-plane/collector]: the CPU time of the proxy's processes read from
    [/proc] ([cpu.go]), the other figures of a report ([network.go],
    [process.go], ...), the report itself ([collector.go], [report.go]), and
    what of it arrives in the control plane.  What the system and the library
    [gopsutil] return is an argument. *)
From Stdlib Require Import Ascii.
From S2P Require Import Prelude Float64 FloatDiv GoStrings Records Graph Telemetry Probing EtcdSync.
From S2P Require Import LastMile ControlApi Net.
Local Open Scope Z_scope.
Local Open Scope go_scope.

(** ** Strings *)

(** [strings.LastIndex]; [None] is -1. *)
Fixpoint LastIndex (s sub : string) : option nat :=
  match s with
  | EmptyString => if String.prefix sub "" then Some 0%nat else None
  | String _ s' =>
      match LastIndex s' sub with
      | Some i => Some (S i)
      | None => if String.prefix sub s then Some 0%nat else None
      end
  end.

(** [s[n:]] *)
Fixpoint slice_from (s : string) (n : nat) : go string :=
  match n, s with
  | O, _ => Ret s
  | S n', String _ s' => slice_from s' n'
  | S _, EmptyString => Panic "slice bounds out of range"
  end.

(** [unicode.IsSpace] on ASCII, which is what the kernel writes after the name
    of the program. *)
Definition is_space (c : ascii) : bool :=
  let n := Z.of_nat (nat_of_ascii c) in bool_decide (9 ≤ n ≤ 13) || bool_decide (n = 32).

Definition flush_field (cur : string) : list string := if bool_decide (cur = "") then [] else [cur].

(** [strings.Fields] *)
Fixpoint fields_go (cur s : string) : list string :=
  match s with
  | EmptyString => flush_field cur
  | String c s' =>
      if is_space c then flush_field cur ++ fields_go "" s' else fields_go (cur +:+ String c "") s'
  end.
Definition Fields (s : string) : list string := fields_go "" s.

(** [strconv.ParseUint(s, 10, 64)] *)
Definition ParseUint64 (s : string) : option Z :=
  if bool_decide (s = "") then None
  else match parse_uint s 0 with
       | Some v => if bool_decide (v < 2 ^ 64) then Some v else None
       | None => None
       end.

(** ** The processes: [cpu.go] *)

(** [readProcStat] on the content of [/proc/[pid]/stat]; [None] is an error. *)
Definition readProcStat (file : option string) : go (option (Z * Z)) :=
  match file with
  | None => Ret None
  | Some s =>
      match LastIndex s ")" with
      | None => Ret None
      | Some closeParen =>
          let! rest := slice_from s (closeParen + 2) in
          let fields := Fields rest in
          if bool_decide (length fields < 13)%nat then Ret None
          else
            let! f11 := index fields 11 in
            let! f12 := index fields 12 in
            Ret (match ParseUint64 f11, ParseUint64 f12 with
                 | Some utime, Some stime => Some (utime, stime)
                 | _, _ => None
                 end)
      end
  end.

(** Times are nanoseconds since 1970. *)
Record proc_sample := {
  utime : Z;
  stime : Z;
  ts : Z;
}.

Record proc_state := {
  procLast : gmap Z proc_sample;
  procPIDs : list Z;
}.

(** [Duration.Seconds] *)
Definition Seconds (d : Z) : float64 :=
  fadd (f_of_Z (Z.quot d 1000000000)) (fdiv (f_of_Z (Z.rem d 1000000000)) (f_of_Z 1000000000)).

Definition clkTck : float64 := f_of_Z 100.

(** The ticks since the last sample, as unsigned 64-bit numbers. *)
Definition delta_ticks (prev : proc_sample) (u s : Z) : Z :=
  uint64 (uint64 (u + s) - uint64 (utime prev + stime prev)).

(** What a process adds to the total. *)
Definition cpu_share (now : Z) (prev : option proc_sample) (u s : Z) : list float64 :=
  match prev with
  | Some p =>
      if bool_decide (0 < ts p / 1000000000) then
        let deltaSec := Seconds (now - ts p) in
        if flt f0 deltaSec
        then [fmul (fdiv (fdiv (f_of_Z (delta_ticks p u s)) deltaSec) clkTck) (f_of_Z 100)]
        else []
      else []
  | None => []
  end.

(** One turn of the loop over the processes.  [alive] shares its array with
    the list it is made from, but is never ahead of it. *)
Definition sample_pid (read : Z → option string) (now : Z)
    (st : gmap Z proc_sample * list Z * float64) (pid : Z) : go (gmap Z proc_sample * list Z * float64) :=
  let '(last, alive, totalCPU) := st in
  let! r := readProcStat (read pid) in
  match r with
  | None => Ret (delete pid last, alive, totalCPU)
  | Some (u, s) =>
      Ret (<[pid := {| utime := u; stime := s; ts := now |}]> last, alive ++ [pid],
           foldl fadd totalCPU (cpu_share now (last !! pid) u s))
  end.

Fixpoint sample_pids (read : Z → option string) (now : Z)
    (st : gmap Z proc_sample * list Z * float64) (pids : list Z)
    : go (gmap Z proc_sample * list Z * float64) :=
  match pids with
  | [] => Ret st
  | pid :: pids => let! st := sample_pid read now st pid in sample_pids read now st pids
  end.

(** [strings.EqualFold] with a name of ASCII letters that have no other case
    variants than their own. *)
Definition lower (c : ascii) : ascii :=
  let n := nat_of_ascii c in
  if bool_decide (65 ≤ n ≤ 90)%nat then ascii_of_nat (n + 32) else c.
Fixpoint lower_string (s : string) : string :=
  match s with EmptyString => "" | String c s => String (lower c) (lower_string s) end.
Definition EqualFold (a b : string) : bool := bool_decide (lower_string a = lower_string b).

Definition processName : string := "data-proxy".

(** [findProcessPIDs]; the processes with their names, where they have one. *)
Definition findProcessPIDs (name : string) (procs : option (list (Z * option string))) : list Z :=
  match procs with
  | None => []
  | Some ps => omap (λ '(pid, pname), n ← pname; if EqualFold n name then Some pid else None) ps
  end.

Definition getProcessCPU (procs : option (list (Z * option string))) (read : Z → option string)
    (now : Z) (st : proc_state) : go ((float64 + string) * proc_state) :=
  let pids := if bool_decide (procPIDs st = []) then findProcessPIDs processName procs else procPIDs st in
  if bool_decide (pids = []) then
    Ret (inr "process data-proxy not found", {| procLast := procLast st; procPIDs := pids |})
  else
    let! r := sample_pids read now (procLast st, [], f0) pids in
    let '(last, alive, totalCPU) := r in
    Ret (inl totalCPU, {| procLast := last; procPIDs := alive |}).

(** *** Parsing the line back *)
(** A field: not empty, without blanks and without a closing parenthesis. *)
Definition field_char (c : ascii) : bool := negb (is_space c) && negb (bool_decide (c = ")"%char)).
Definition token (s : string) : Prop := s ≠ "" ∧ all_chars field_char s = true.

(** The line of a process: [pre] holds the process id and the name of the
    program, whatever it consists of. *)
Definition stat_line (pre : string) (fs : list string) : string := pre +:+ ")" +:+ " " +:+ Join fs " ".

Lemma token_Itoa n : 0 ≤ n → token (Itoa n).
Proof.
  intros Hn. destruct (parse_uint_Itoa n Hn) as [Hp Hne]. split; [done|]. clear Hne. revert Hp.
  generalize 0 at 1. generalize (Itoa n). intros s. induction s as [|c s IH]; intros acc Hp; [done|].
  cbn [parse_uint] in Hp. destruct (digit_of c) as [d|] eqn:Hc; [|done]. cbn [all_chars].
  rewrite (IH _ Hp), andb_true_r. unfold digit_of in Hc. case_bool_decide as Hd; [|done].
  unfold field_char, is_space. rewrite !bool_decide_false; [done| |lia|lia].
  intros ->. destruct Hd as [Hd _]. by apply Hd.
Qed.

Lemma LastIndex_absent s : all_chars (λ c, negb (bool_decide (c = ")"%char))) s = true → LastIndex s ")" = None.
Proof.
  induction s as [|c s IH]; [done|]. cbn [all_chars]. intros [Hc Hs]%andb_true_iff.
  cbn [LastIndex]. rewrite IH by done. cbn [String.prefix].
  destruct (ascii_dec ")" c) as [<-|_]; [|done]. by rewrite bool_decide_true in Hc.
Qed.

Lemma LastIndex_last pre rest : LastIndex rest ")" = None →
  LastIndex (pre +:+ String ")" rest) ")" = Some (String.length pre).
Proof.
  intros Hr. induction pre as [|c pre IH]; simpl.
  - rewrite Hr. by destruct rest.
  - by rewrite IH.
Qed.

Lemma slice_from_app pre rest : slice_from (pre +:+ rest) (String.length pre) = Ret rest.
Proof. induction pre; [by destruct rest|done]. Qed.

Lemma fields_go_token cur s rest : all_chars (λ c, negb (is_space c)) s = true →
  fields_go cur (s +:+ rest) = fields_go (cur +:+ s) rest.
Proof.
  revert cur. induction s as [|c s IH]; intros cur; [by rewrite string_app_nil_r|].
  cbn [all_chars]. intros [Hc Hs]%andb_true_iff. apply negb_true_iff in Hc.
  simpl. rewrite Hc, IH by done. by rewrite <-string_app_assoc.
Qed.

Lemma token_no_space s : token s → all_chars (λ c, negb (is_space c)) s = true.
Proof. intros [_ H]. revert H. apply all_chars_impl. unfold field_char. intros c [? _]%andb_true_iff. done. Qed.

Lemma flush_field_token s : token s → flush_field s = [s].
Proof. intros [H _]. unfold flush_field. by rewrite bool_decide_false. Qed.

Lemma Fields_Join fs : Forall token fs → Fields (Join fs " ") = fs.
Proof.
  intros H. unfold Fields. induction H as [|f fs Hf Hfs IH]; [done|].
  destruct fs as [|f' fs].
  - cbn [Join]. rewrite <-(string_app_nil_r f) at 1. rewrite fields_go_token by by apply token_no_space.
    by apply flush_field_token.
  - change (Join (f :: f' :: fs) " ") with (f +:+ " " +:+ Join (f' :: fs) " ").
    rewrite fields_go_token by by apply token_no_space.
    change (" " +:+ Join (f' :: fs) " ") with (String " " (Join (f' :: fs) " ")).
    cbn [fields_go]. change (is_space " ") with true. cbv iota. rewrite IH.
    change ("" +:+ f) with f. by rewrite flush_field_token.
Qed.

Lemma Join_no_paren fs : Forall token fs →
  all_chars (λ c, negb (bool_decide (c = ")"%char))) (Join fs " ") = true.
Proof.
  assert (∀ f, token f → all_chars (λ c, negb (bool_decide (c = ")"%char))) f = true) as Ht.
  { intros f [_ H]. revert H. apply all_chars_impl. unfold field_char. by intros c [_ ?]%andb_true_iff. }
  induction 1 as [|f fs Hf Hfs IH]; [done|]. destruct fs as [|f' fs]; [by apply Ht|].
  change (Join (f :: f' :: fs) " ") with (f +:+ " " +:+ Join (f' :: fs) " ").
  rewrite !all_chars_app, Ht, IH by done. done.
Qed.

Lemma ParseUint64_Itoa n : 0 ≤ n < 2 ^ 64 → ParseUint64 (Itoa n) = Some n.
Proof.
  intros Hn. destruct (parse_uint_Itoa n) as [Hp Hne]; [lia|]. unfold ParseUint64.
  rewrite bool_decide_false by done. rewrite Hp, bool_decide_true by lia. done.
Qed.

(** Reading the CPU time of a process.  The line of a process gives back the
    two counters that the kernel printed, whatever the name of the program is:
    blanks and parentheses in it do not matter, since the fields are counted
    from the last parenthesis.  A file that ends right after a parenthesis is
    out of the slice's range. *)
Theorem readProcStat_line pre fs u s :
  Forall token fs → (13 ≤ length fs)%nat → fs !! 11%nat = Some (Itoa u) → fs !! 12%nat = Some (Itoa s) →
  0 ≤ u < 2 ^ 64 → 0 ≤ s < 2 ^ 64 →
  readProcStat (Some (stat_line pre fs)) = Ret (Some (u, s)) ∧
  readProcStat (Some (pre +:+ ")")) = Panic "slice bounds out of range".
Proof.
  intros Hfs Hlen H11 H12 Hu Hs. unfold readProcStat, stat_line. split.
  - change (")" +:+ " " +:+ Join fs " ") with (String ")" (String " " (Join fs " "))).
    rewrite LastIndex_last.
    2: { apply LastIndex_absent. cbn [all_chars]. by rewrite Join_no_paren. }
    replace (pre +:+ String ")" (String " " (Join fs " "))) with
      ((pre +:+ ") ") +:+ Join fs " ") by by rewrite <-string_app_assoc.
    replace (String.length pre + 2)%nat with (String.length (pre +:+ ") ")).
    2: { clear. induction pre; simpl; auto. }
    rewrite slice_from_app. cbn [go_bind]. rewrite Fields_Join by done.
    rewrite bool_decide_false by lia. unfold index. rewrite H11, H12. cbn [go_bind].
    by rewrite !ParseUint64_Itoa.
  - rewrite LastIndex_last by done.
    assert (∀ p, slice_from (p +:+ ")") (String.length p + 2) = Panic "slice bounds out of range") as ->; [|done].
    induction p as [|a p IH]; [done|exact IH].
Qed.

(** *** The total of a sample *)
Lemma list_bind_ext_in {A B} (f g : A → list B) (l : list A) : (∀ x, x ∈ l → f x = g x) → l ≫= f = l ≫= g.
Proof.
  induction l as [|x l IH]; intros H; [done|]. csimpl. rewrite (H x) by by left.
  rewrite IH; [done|]. intros y Hy. apply H. by right.
Qed.

Section Sampling.
Variables (read : Z → option string) (now : Z).

(** The counters of a process that can be read. *)
Definition counters (pid : Z) : option (Z * Z) :=
  match readProcStat (read pid) with Ret r => r | Panic _ => None end.

Definition readable (pid : Z) : Prop := ∃ r, readProcStat (read pid) = Ret r.

(** The reference: the shares of the processes that are alive, in order. *)
Definition share_of (last : gmap Z proc_sample) (pid : Z) : list float64 :=
  match counters pid with Some (u, s) => cpu_share now (last !! pid) u s | None => [] end.

Lemma sample_pids_spec pids last alive total : NoDup pids → Forall readable pids →
  ∃ last', sample_pids read now (last, alive, total) pids =
    Ret (last', alive ++ filter (λ pid, is_Some (counters pid)) pids,
         foldl fadd total (pids ≫= share_of last)) ∧
  ∀ pid, last' !! pid =
    if bool_decide (pid ∈ pids)
    then (λ '(u, s), {| utime := u; stime := s; ts := now |}) <$> counters pid
    else last !! pid.
Proof.
  revert last alive total. induction pids as [|pid pids IH]; intros last alive total Hnd Hr.
  { exists last. split; [by rewrite app_nil_r|]. intros pid. by rewrite bool_decide_false by apply not_elem_of_nil. }
  apply NoDup_cons in Hnd as [Hp Hnd]. apply Forall_cons in Hr as [[r Hr] Hrs].
  assert (∀ last', (∀ q, q ≠ pid → last' !! q = last !! q) → pids ≫= share_of last' = pids ≫= share_of last) as Hsh.
  { intros last' Hl. apply list_bind_ext_in. intros q Hq.
    unfold share_of. rewrite Hl; [done|]. by intros ->. }
  cbn [sample_pids sample_pid]. rewrite Hr. cbn [go_bind].
  assert (counters pid = r) as Hc by (unfold counters; by rewrite Hr).
  rewrite filter_cons. cbn [mbind list_bind]. unfold share_of at 1. rewrite Hc.
  destruct r as [[u s]|].
  - destruct (IH (<[pid := {| utime := u; stime := s; ts := now |}]> last) (alive ++ [pid])
      (foldl fadd total (cpu_share now (last !! pid) u s)) Hnd Hrs) as (last' & E & Hlast').
    exists last'. cbn [go_bind]. rewrite E, decide_True by done. split.
    + rewrite <-app_assoc, foldl_app. rewrite Hsh; [done|]. intros q Hq. by rewrite lookup_insert_ne.
    + intros q. rewrite Hlast'. destruct (decide (q = pid)) as [->|Hne].
      * rewrite bool_decide_false by done. rewrite bool_decide_true by by left.
        by rewrite Hc, lookup_insert_eq.
      * rewrite lookup_insert_ne by done.
        by rewrite (bool_decide_ext (q ∈ pid :: pids) (q ∈ pids)) by set_solver.
  - destruct (IH (delete pid last) alive total Hnd Hrs) as (last' & E & Hlast').
    exists last'. cbn [go_bind]. rewrite E, decide_False by (by intros [? ?]). split.
    + rewrite Hsh; [done|]. intros q Hq. by rewrite lookup_delete_ne.
    + intros q. rewrite Hlast'. destruct (decide (q = pid)) as [->|Hne].
      * rewrite bool_decide_false by done. rewrite bool_decide_true by by left.
        by rewrite Hc, lookup_delete_eq.
      * rewrite lookup_delete_ne by done.
        by rewrite (bool_decide_ext (q ∈ pid :: pids) (q ∈ pids)) by set_solver.
Qed.
End Sampling.

(** The difference of the counters, unless they have fallen: then it wraps. *)
Lemma delta_ticks_spec prev u s :
  0 ≤ utime prev + stime prev < 2 ^ 64 → 0 ≤ u + s < 2 ^ 64 →
  delta_ticks prev u s =
    if bool_decide (utime prev + stime prev ≤ u + s)
    then (u + s) - (utime prev + stime prev)
    else 2 ^ 64 - ((utime prev + stime prev) - (u + s)).
Proof.
  intros Hp Hu. unfold delta_ticks, uint64. rewrite !(Z.mod_small (_ + _)) by lia.
  case_bool_decide; [by rewrite Z.mod_small by lia|].
  symmetry. apply Z.mod_unique with (-1); [left; lia|lia].
Qed.

(** C38: a sample of the processes.  When no file ends inside its name, a call
    never panics.  Without a process of the name it is an error and nothing is
    remembered; otherwise the usage is the sum, over the known processes that
    can still be read and were seen before, of their ticks per second (with the
    same counters as [top]: the difference is exact while the counters of a
    process grow); the processes that cannot be read are forgotten, and the
    others are remembered with their counters at this moment. *)
Theorem getProcessCPU_correct procs read now st :
  let pids := if bool_decide (procPIDs st = []) then findProcessPIDs processName procs else procPIDs st in
  NoDup pids → Forall (readable read) pids →
  (pids = [] → getProcessCPU procs read now st = Ret (inr "process data-proxy not found", st)) ∧
  (pids ≠ [] → ∃ st',
     getProcessCPU procs read now st = Ret (inl (fsum (pids ≫= share_of read now (procLast st))), st') ∧
     procPIDs st' = filter (λ pid, is_Some (counters read pid)) pids ∧
     ∀ pid, procLast st' !! pid =
       if bool_decide (pid ∈ pids)
       then (λ '(u, s), {| utime := u; stime := s; ts := now |}) <$> counters read pid
       else procLast st !! pid) ∧
  (∀ prev u s, 0 ≤ utime prev + stime prev ≤ u + s → u + s < 2 ^ 64 → 0 < ts prev / 1000000000 →
     flt f0 (Seconds (now - ts prev)) = true →
     cpu_share now (Some prev) u s =
       [fmul (fdiv (fdiv (f_of_Z ((u + s) - (utime prev + stime prev))) (Seconds (now - ts prev))) clkTck)
          (f_of_Z 100)]).
Proof.
  intros pids Hnd Hr. unfold getProcessCPU. fold pids. split_and!.
  - intros E. rewrite bool_decide_true by done. do 2 f_equal. rewrite E. unfold pids in E.
    case_bool_decide as E0; [|done]. destruct st. simpl in *. by rewrite E0.
  - intros E. rewrite bool_decide_false by done.
    destruct (sample_pids_spec read now pids (procLast st) [] f0 Hnd Hr) as (last' & -> & Hl).
    cbn [go_bind]. eexists. split; [done|]. done.
  - intros prev u s H1 H2 H3 H4. unfold cpu_share. rewrite bool_decide_true, H4 by done.
    rewrite delta_ticks_spec by lia. by rewrite bool_decide_true by lia.
Qed.

(** A process id that the system has given to a new process: its counters are
    below those of the old one, and a second of 10 ticks is reported as
    1.8e19 percent. *)
Lemma reused_pid_overflows :
  cpu_share 1700000001000000000 (Some {| utime := 900; stime := 100; ts := 1700000000000000000 |}) 6 4
  = [f_of_Z 18446744073709550626].
Proof. vm_compute. reflexivity. Qed.

(** A process that starts while another one is known is not seen. *)
Lemma later_process_ignored procs procs' read now st : procPIDs st ≠ [] →
  getProcessCPU procs read now st = getProcessCPU procs' read now st.
Proof. intros H. unfold getProcessCPU. cbv zeta. by rewrite (bool_decide_false (procPIDs st = [])) by exact H. Qed.

(** ** The other figures *)

(** What [gopsutil] returns of the memory and of a file system: total, used,
    free and the used share. *)
Record usage_stat := {
  us_Total : Z;
  us_Used : Z;
  us_Free : Z;
  us_UsedPercent : float64;
}.

Definition collectMemory (v : usage_stat + string) : MemoryInfo + string :=
  match v with
  | inr err => inr err
  | inl v => inl {| mem_Total := us_Total v; mem_Used := us_Used v; mem_Free := us_Free v;
                    mem_Usage := us_UsedPercent v |}
  end.

Definition collectDisk (usage : string → usage_stat + string) : DiskInfo + string :=
  let path := "/" in
  match usage path with
  | inr err => inr err
  | inl v => inl {| disk_Total := us_Total v; disk_Used := us_Used v; disk_Free := us_Free v;
                    disk_Usage := us_UsedPercent v; disk_Path := path |}
  end.

(** The connections and the counters (received, sent) of the interfaces. *)
Definition collectNetwork (public private : string) (connections : Z + string)
    (ioStat : list (Z * Z) + string) : NetworkInfo + string :=
  match connections with
  | inr err => inr err
  | inl portCount =>
      match ioStat with
      | inr err => inr err
      | inl stats =>
          let '(trafficIn, trafficOut) :=
            foldl (λ '(i, o) '(recv, sent), (uint64 (i + recv), uint64 (o + sent))) (0, 0) stats in
          inl {| net_PublicIP := public; net_PrivateIP := private; PortCount := portCount;
                 TrafficIn := trafficIn; TrafficOut := trafficOut |}
      end
  end.

(** The name of the system, the kernel, the host and the boot time (unsigned). *)
Definition collectOS (info : (string * string * string * Z) + string) : OSInfo + string :=
  match info with
  | inr err => inr err
  | inl (os, kernel, host, boot) =>
      inl {| OSName := os; KernelVer := kernel; Hostname := host; BootTime := int64 boot |}
  end.

(** A process: its id, its name (empty when it cannot be read), and its shares
    of CPU and memory. *)
Record proc_info := {
  pi_Pid : Z;
  pi_Name : string;
  pi_CPU : float64;
  pi_Mem : float64;
}.

Section Processes.
Context `{SS : SliceSort}.

Definition by_usage (a b : ProcessDetail) : bool := flt (pd_Usage b) (pd_Usage a).

Definition process_details (usage : proc_info → float64) (processes : list proc_info) : list ProcessDetail :=
  omap (λ p, if bool_decide (pi_Name p = "") || feq (usage p) f0 then None
             else Some {| PID := pi_Pid p; pd_Name := pi_Name p; pd_Usage := usage p |}) processes.

Definition top_processes (usage : proc_info → float64) (processes : list proc_info) : list ProcessDetail :=
  take 3 (sort_slice by_usage (process_details usage processes)).

Definition collectProcess (processes : list proc_info + string) : ProcessInfo + string :=
  match processes with
  | inr err => inr err
  | inl ps => inl {| ActiveCount := Z.of_nat (length ps); TopCPU := top_processes pi_CPU ps;
                     TopMem := top_processes pi_Mem ps |}
  end.

(** [Collect]: the first error ends it; [collectCPU] has none. *)
Definition Collect (now : Z) (cpu : CPUInfo) (memory : usage_stat + string)
    (disk : string → usage_stat + string) (network : NetworkInfo + string)
    (os : (string * string * string * Z) + string) (processes : list proc_info + string)
    (links : list LinkCongestion) : VMReport + string :=
  match collectMemory memory with
  | inr err => inr err
  | inl memoryInfo =>
  match collectDisk disk with
  | inr err => inr err
  | inl diskInfo =>
  match network with
  | inr err => inr err
  | inl networkInfo =>
  match collectOS os with
  | inr err => inr err
  | inl osInfo =>
  match collectProcess processes with
  | inr err => inr err
  | inl processInfo =>
      inl {| VMID := "vm-" +:+ net_PublicIP networkInfo +:+ "-001"; CollectTime := Some now; ReportID := "";
             vm_CPU := cpu; vm_Memory := memoryInfo; vm_Disk := diskInfo; vm_Network := networkInfo;
             vm_OS := osInfo; vm_Process := processInfo; vm_LinksCongestion := links |}
  end end end end end.
End Processes.

Definition set_ReportID (id : string) (r : VMReport) : VMReport :=
  {| VMID := VMID r; CollectTime := CollectTime r; ReportID := id; vm_CPU := vm_CPU r;
     vm_Memory := vm_Memory r; vm_Disk := vm_Disk r; vm_Network := vm_Network r; vm_OS := vm_OS r;
     vm_Process := vm_Process r; vm_LinksCongestion := vm_LinksCongestion r |}.

(** [Report]: the exchange with the control plane is an argument, from the
    report that is encoded to the code and message of the answer; [None] when
    the encoding, the request or the decoding failed. *)
Definition Report (uuid : string) (exchange : VMReport → option (Z * string)) (r : VMReport)
    : VMReport * option string :=
  let r := if bool_decide (ReportID r = "") then set_ReportID uuid r else r in
  match exchange r with
  | None => (r, Some "exchange failed")
  | Some (code, msg) =>
      (r, if bool_decide (code = 200) then None else Some ("report failed, " +:+ msg))
  end.

(** [reportOnce]: an error of either part is logged and ends this turn. *)
Definition reportOnce (collected : VMReport + string) (uuid : string)
    (exchange : VMReport → option (Z * string)) : VMReport + string :=
  match collected with
  | inr err => inr err
  | inl vmReport =>
      match Report uuid exchange vmReport with
      | (_, Some err) => inr err
      | (vmReport, None) => inl vmReport
      end
  end.

(** [VMTelemetryReporter]: one turn per tick; the turns share nothing. *)
Definition VMTelemetryReporter
    (ticks : list ((VMReport + string) * string * (VMReport → option (Z * string)))) : list (VMReport + string) :=
  (λ t, reportOnce t.1.1 t.1.2 t.2) <$> ticks.

(** A turn succeeds exactly when the collection did and the control plane has
    accepted the collected report under the new id; a failed turn has no effect
    on the later ones. *)
Lemma reporter_turn ticks1 collected uuid exchange ticks2 r :
  VMTelemetryReporter (ticks1 ++ (collected, uuid, exchange) :: ticks2) !! length ticks1 = Some (inl r) ↔
  ∃ r0 msg, collected = inl r0 ∧ exchange r = Some (200, msg) ∧
    r = if bool_decide (ReportID r0 = "") then set_ReportID uuid r0 else r0.
Proof.
  unfold VMTelemetryReporter. rewrite fmap_app, lookup_app_r by (rewrite length_fmap; lia).
  rewrite length_fmap, Nat.sub_diag. cbn [fmap list_fmap lookup list_lookup fst snd].
  unfold reportOnce, Report. destruct collected as [r0|err]; [|split; [done|by intros (? & ? & ? & _)]].
  set (r1 := if bool_decide (ReportID r0 = "") then set_ReportID uuid r0 else r0).
  destruct (exchange r1) as [[code msg]|] eqn:E; [case_bool_decide as Hc|].
  - subst code. split.
    + intros [= <-]. exists r0, msg. done.
    + by intros (? & ? & [= <-] & _ & ->).
  - split; [done|]. intros (? & m & [= <-] & H & ->). fold r1 in H. congruence.
  - split; [done|]. intros (? & m & [= <-] & H & ->). fold r1 in H. congruence.
Qed.

(** ** From a measurement to the graph *)

(** A single value is its own average. *)
Lemma average_one x : f_nonneg x = true → x ≠ f_inf → x ≠ S754_zero true → average [x] = x.
Proof.
  intros Hx Hi Hz. unfold average. assert (fsum [x] = x) as ->.
  { destruct (f_nonneg_cases x Hx) as [[[] ->]|[->|(m & e & -> & _)]]; done. }
  destruct (feq x f0) eqn:E; [done|]. rewrite bool_decide_true by (simpl; lia). simpl.
  by apply fdiv_1_r.
Qed.

Lemma f_of_Z_average n : 0 ≤ n < 2 ^ 53 → average [f_of_Z n] = f_of_Z n.
Proof.
  intros Hn. apply average_one.
  - apply f_fin_nonneg, f_of_Z_fin. lia.
  - destruct n as [|n|n]; [done|by rewrite f_of_Z_pos by lia|lia].
  - destruct n as [|n|n]; [done|by rewrite f_of_Z_pos by lia|lia].
Qed.

Section ToGraph.
Context `{ML : MathLib} `{RO : RangeOrder} `{SS : SliceSort}.

(** The link of a result. *)
Definition measured_link (ip : string) (r : Result) : LinkCongestion :=
  {| lk_TargetIP := ip; lk_Target := Target r; PacketLoss := LossRate r;
     AverageLatency := f_of_Z (Milliseconds (AvgRTT_ns r)) |}.

Lemma measured_average cfg latest ip : cfg_Attempts (probe_defaults cfg) < 2 ^ 53 →
  rtc (probe_tick cfg) ∅ latest →
  target_average ip (BuildLinkCongestion latest) = measured_link ip <$> latest !! ip.
Proof.
  intros Ha Hr. unfold target_average. rewrite BuildLinkCongestion_probes.
  destruct (latest !! ip) as [r|] eqn:E; [|done]. simpl.
  destruct (probe_ticks_ok cfg latest ip r Ha Hr E) as (_ & Hn & Hz & H1 & Hrtt).
  change [LossRate r] with ([LossRate r] : list float64). rewrite <-!average_mean by done.
  rewrite average_one; [|done|by intros Ei; rewrite Ei in H1|done].
  rewrite f_of_Z_average; [done|]. unfold Milliseconds. rewrite Z.quot_div_nonneg by lia. split.
  - apply Z.div_pos; lia.
  - apply Z.div_lt_upper_bound; lia.
Qed.

(** C21: the control plane gets what the node has measured.  After any number of
    probe rounds, a report that [Collect] makes from the latest results and that
    is valid is accepted by the control plane, so [Report] ends without an
    error; and when the store accepts and delivers it (the JSON text of the
    telemetry decodes to it again), the graph has the node,
    and its stored telemetry has the CPU usage of the report and exactly one
    link per address in the latest results, whose loss is the share of timeouts
    and whose latency is the average in whole milliseconds of the last round
    that probed it.  The edge of such a link, when its end point is its own and
    its target known, is weighted by the risk of these values; a new edge has
    this latency (its loss is not set), while an edge that was there keeps the
    latency, load and loss it had. *)
Theorem measurements_reach_graph cfg latest encode decode c tnow uuid cpu memory disk network os procs
    report now' uuid' st g :
  cfg_Attempts (probe_defaults cfg) < 2 ^ 53 → rtc (probe_tick cfg) ∅ latest →
  Collect tnow cpu memory disk network os procs (BuildLinkCongestion latest) = inl report →
  report_valid report →
  let exchange r := let resp := (PostVMReceive now' uuid' (inl r)).1 in Some (Code resp, Msg resp) in
  (Report uuid exchange report).2 = None ∧
  ∃ sent, (PostVMReceive now' uuid' (inl (Report uuid exchange report).1)).2 = Some sent ∧
  ∀ key val, DoClusterWeightedAvg encode c sent = Some (key, val) →
    (∀ s, encode (cluster_telemetry c sent) = Some s → s ≠ "" ∧ decode s = Some (cluster_telemetry c sent)) →
    let g' := watch_graph decode [[put_event st key val]] g in
    ∃ t, GetNode g' (nc_Public c) = Some t ∧ PublicIP t = nc_Public c ∧
      Cpu t = cpu ∧ (∀ ip, LinksCongestion t !! ip = measured_link ip <$> latest !! ip) ∧
      edges_reported t g g'.
Proof.
  intros Ha Hr Hcol Hv exchange.
  assert (ReportID report = "" ∧ vm_CPU report = cpu ∧ vm_LinksCongestion report = BuildLinkCongestion latest)
    as (Hid & Hcpu & Hlinks).
  { unfold Collect in Hcol. repeat case_match; by simplify_eq. }
  assert (report_valid (set_ReportID uuid report)) as Hv' by exact Hv.
  assert (Report uuid exchange report = (set_ReportID uuid report, None)) as ->.
  { unfold Report. rewrite bool_decide_true by done. unfold exchange.
    by rewrite PostVMReceive_valid. }
  split; [done|]. cbn [fst]. rewrite PostVMReceive_valid by done. cbn [snd].
  eexists. split; [done|]. intros key val Hc Hj. cbv zeta. erewrite report_delivered by done.
  eexists. split; [apply (GetNode_AddNode (cluster_telemetry c _))|].
  split; [done|]. split; [done|]. split; [|apply AddNode_reported].
  intros ip. rewrite cluster_links. cbn [vm_LinksCongestion complete set_ReportID].
  rewrite Hlinks. by eapply measured_average.
Qed.
End ToGraph.

(** ** The largest processes *)
#[export] Instance by_usage_weak : WeakOrder (λ d, is_num (pd_Usage d) = true) by_usage.
Proof.
  split; unfold by_usage.
  - intros x y Hx Hy. by apply (wo_asym (P := λ x, is_num x = true)).
  - intros x y z Hx Hy Hz H1 H2. by apply (wo_negtrans (P := λ x, is_num x = true) _ (pd_Usage y) _ Hz Hy Hx).
Qed.

Section Top.
Context `{SS : SliceSort}.

(** The processes of a report: when the shares are numbers, the list has at
    most three entries, each of a process with a name and a share that is not
    zero; they are in falling order, and no process that was left out has a
    larger share than one that is listed. *)
Lemma top_processes_correct usage ps : Forall (λ p, is_num (usage p) = true) ps →
  let top := top_processes usage ps in
  (length top ≤ 3)%nat ∧ sorted_by by_usage top ∧
  ∃ rest, top ++ rest ≡ₚ process_details usage ps ∧
    ((length top < 3)%nat → rest = []) ∧
    ∀ a b, a ∈ top → b ∈ rest → by_usage b a = false.
Proof.
  intros Hps top.
  assert (Forall (λ d, is_num (pd_Usage d) = true) (process_details usage ps)) as Hd.
  { apply Forall_forall. intros d (p & Hp & Hpd)%list_elem_of_omap. rewrite Forall_forall in Hps.
    destruct (_ || _); [done|]. injection Hpd as <-. by apply Hps. }
  pose proof (sort_slice_sorted _ by_usage _ Hd) as Hs.
  unfold top, top_processes. set (l := sort_slice by_usage (process_details usage ps)) in *.
  rewrite <-(take_drop 3 l) in Hs. apply sorted_by_app in Hs as (H1 & _ & H3). split_and!.
  - rewrite length_take. lia.
  - done.
  - exists (drop 3 l). split_and!.
    + rewrite take_drop. apply sort_slice_perm.
    + rewrite length_take. intros Hl. apply drop_ge. lia.
    + intros a b Ha Hb. by apply H3.
Qed.
End Top.

(** ** Instances of the theorems *)
#[local] Existing Instance flat_math.

(** A program whose name has a blank and parentheses. *)
Definition odd_fields : list string :=
  ["S"; "1"; "1"; "1"; "0"; "-1"; "4194304"; "10"; "0"; "0"; "0"; Itoa 230; Itoa 45; "0"; "0"].

Lemma odd_fields_tokens : Forall token odd_fields.
Proof. repeat constructor; done. Qed.

Lemma readProcStat_line_witness :
  readProcStat (Some "17 (a (b) c) S 1 1 1 0 -1 4194304 10 0 0 0 230 45 0 0") = Ret (Some (230, 45)).
Proof.
  destruct (readProcStat_line "17 (a (b) c" odd_fields 230 45) as [H _].
  - exact odd_fields_tokens.
  - simpl. lia.
  - reflexivity.
  - reflexivity.
  - lia.
  - lia.
  - exact H.
Defined.

(** One process, first seen a second ago with 200 ticks. *)
Definition one_file (pid : Z) : option string :=
  if bool_decide (pid = 17) then Some (stat_line "17 (data-proxy" odd_fields) else None.

Definition one_seen : proc_state :=
  {| procLast := {[17 := {| utime := 150; stime := 50; ts := 1700000000000000000 |}]}; procPIDs := [17] |}.

Lemma getProcessCPU_correct_witness : ∃ st',
  getProcessCPU None one_file 1700000001000000000 one_seen = Ret (inl (f_of_Z 75), st') ∧ procPIDs st' = [17].
Proof.
  destruct (getProcessCPU_correct None one_file 1700000001000000000 one_seen) as (_ & H & _).
  - apply NoDup_singleton.
  - repeat constructor. exists (Some (230, 45)). vm_compute. reflexivity.
  - destruct H as (st' & E & Hp & _); [discriminate|]. exists st'. split.
    + rewrite E. vm_compute. reflexivity.
    + rewrite Hp. vm_compute. reflexivity.
Defined.

Definition one_latest : gmap string Result := updateLatestResults (roundResults one_round) ∅.

Lemma one_latest_reachable : rtc (probe_tick no_probe_config) ∅ one_latest.
Proof.
  apply rtc_once. apply (pt_round _ (Some (Some (Some {| tr_Code := 200; tr_Data := [one_target] |})))
    [one_target] some_dials); [reflexivity|exact one_round_runs|done].
Qed.

Definition one_usage : usage_stat :=
  {| us_Total := 1024; us_Used := 512; us_Free := 512; us_UsedPercent := f_of_Z 50 |}.

Definition one_report : VMReport :=
  match Collect 0 zero_CPUInfo (inl one_usage) (λ _, inl one_usage)
    (collectNetwork "1.1.1.1" "10.0.0.1" (inl 12) (inl [(100, 200); (5, 6)])) (inl ("linux", "6", "h", 1))
    (inl []) (BuildLinkCongestion one_latest) with
  | inl r => r
  | inr _ => zero_VMReport
  end.

Definition one_sent : VMReport := complete 1 "b" (set_ReportID "a" one_report).

Lemma measurements_reach_graph_witness : ∃ t,
  GetNode (watch_graph (λ _, Some (cluster_telemetry small_config one_sent))
    [[put_event ∅ ("/routing-middle/" +:+ nc_Public small_config) "json"]] NewGraphManager)
    (nc_Public small_config) = Some t ∧
  LinksCongestion t !! "2.2.2.2" = Some (measured_link "2.2.2.2" one_result).
Proof.
  destruct (measurements_reach_graph no_probe_config one_latest (λ _, Some "json")
    (λ _, Some (cluster_telemetry small_config one_sent)) small_config 0 "a" zero_CPUInfo (inl one_usage)
    (λ _, inl one_usage) (collectNetwork "1.1.1.1" "10.0.0.1" (inl 12) (inl [(100, 200); (5, 6)]))
    (inl ("linux", "6", "h", 1)) (inl []) one_report 1 "b" ∅ NewGraphManager) as [_ H].
  - vm_compute. reflexivity.
  - exact one_latest_reachable.
  - reflexivity.
  - unfold report_valid. cbn. split_and!; try discriminate; lia.
  - destruct H as (sent & Es & H). assert (sent = one_sent) as -> by (injection Es as <-; reflexivity).
    destruct (H _ _ eq_refl) as (t & Ht & _ & _ & Hl & _).
    + intros s [= <-]. split; [discriminate|reflexivity].
    + exists t. split; [exact Ht|]. rewrite Hl. unfold one_latest, updateLatestResults. cbn [foldl one_round roundResults].
      rewrite lookup_insert_eq. reflexivity.
Defined.
