(* ===== verification/Packet.v ===== *)
(** * The tunnel packet

    [data-proxy/tunnel-packet/tunnel-packet.go]: a 24-byte header (hop
    position, four IPv4 hops, payload length, port, protocol) followed by
    user packets, each with a 4-byte user id and a 2-byte length.  A byte is a
    [Z]; slices are lists of bytes. *)
From S2P Require Import Prelude.
Local Open Scope Z_scope.
Local Open Scope go_scope.

(** ** [encoding/binary], big endian *)
Fixpoint put_be (n : nat) (v : Z) : list Z :=
  match n with
  | O => []
  | S n => uint8 (v `div` 256 ^ Z.of_nat n) :: put_be n v
  end.

Definition get_be (bs : list Z) : Z := foldl (λ acc b, acc * 256 + b) 0 bs.

Definition is_byte (b : Z) : Prop := 0 ≤ b < 256.

(** Writing [bs] into [buf[off:]]: [PutUint32] and [PutUint16] panic when the
    rest of the slice is too short. *)
Definition put (buf : list Z) (off : nat) (bs : list Z) : go (list Z) :=
  if bool_decide (off + length bs ≤ length buf)%nat
  then Ret (take off buf ++ bs ++ drop (off + length bs) buf)
  else Panic "slice bounds out of range".

(** [copy(buf[off:], src)] copies as much as fits. *)
Definition copy_at (buf : list Z) (off : nat) (src : list Z) : go (list Z) :=
  if bool_decide (off ≤ length buf)%nat then
    let n := (length src `min` (length buf - off))%nat in
    Ret (take off buf ++ take n src ++ drop (off + n) buf)
  else Panic "slice bounds out of range".

(** [buf[lo:hi]] *)
Definition slice (buf : list Z) (lo hi : nat) : list Z := take (hi - lo) (drop lo buf).

(** ** The packet *)
Definition HeaderSize : nat := 24.
Definition MaxHops : Z := 4.

Record Packet := {
  Buf : list Z;
  BuffSize : nat;
  HopPos : Z;
  HopIP : list Z;
  PayloadLen : Z;
  Port : Z;
  Protocol : Z;
  Wp : nat;
}.

Record SubPacket := {
  UserID : Z;
  Data : list Z;
}.

Definition NewPacket (buffSizes : nat) : Packet :=
  {| Buf := repeat 0 buffSizes; BuffSize := buffSizes; HopPos := 0; HopIP := [0; 0; 0; 0];
     PayloadLen := 0; Port := 0; Protocol := 0; Wp := HeaderSize |}.

(** Field updates. *)
Definition set_HopIP (p : Packet) (h : list Z) : Packet :=
  {| Buf := Buf p; BuffSize := BuffSize p; HopPos := HopPos p; HopIP := h;
     PayloadLen := PayloadLen p; Port := Port p; Protocol := Protocol p; Wp := Wp p |}.
Definition set_HopPos (p : Packet) (x : Z) : Packet :=
  {| Buf := Buf p; BuffSize := BuffSize p; HopPos := x; HopIP := HopIP p;
     PayloadLen := PayloadLen p; Port := Port p; Protocol := Protocol p; Wp := Wp p |}.
Definition set_Buf (p : Packet) (b : list Z) : Packet :=
  {| Buf := b; BuffSize := BuffSize p; HopPos := HopPos p; HopIP := HopIP p;
     PayloadLen := PayloadLen p; Port := Port p; Protocol := Protocol p; Wp := Wp p |}.
Definition set_Wp (p : Packet) (w : nat) : Packet :=
  {| Buf := Buf p; BuffSize := BuffSize p; HopPos := HopPos p; HopIP := HopIP p;
     PayloadLen := PayloadLen p; Port := Port p; Protocol := Protocol p; Wp := w |}.

(** The argument is [ip.To4()]: [None] for the nil slice, else the address as
    a 32-bit number. *)
Definition SetHopIP (p : Packet) (hopIdx : nat) (ip4 : option Z) : Packet :=
  if bool_decide (MaxHops ≤ Z.of_nat hopIdx) then p
  else match ip4 with
       | None => p
       | Some v => set_HopIP p (<[hopIdx := v]> (HopIP p))
       end.

Definition SetHopPos (p : Packet) (pos : Z) : Packet :=
  if bool_decide (0 ≤ pos < MaxHops) then set_HopPos p pos else p.

(** [p.Buf[0] = p.HopPos] panics on an empty buffer. *)
Definition AdvanceHop (p : Packet) : go Packet :=
  if bool_decide (HopPos p < MaxHops - 1) then
    let! b := put (Buf p) 0 [uint8 (HopPos p + 1)] in
    Ret (set_Buf (set_HopPos p (uint8 (HopPos p + 1))) b)
  else Ret p.

Definition AdvanceRawHop (pkt : list Z) : list Z :=
  match pkt with
  | b0 :: rest =>
      if bool_decide (HeaderSize ≤ length pkt)%nat && bool_decide (b0 < MaxHops - 1)
      then uint8 (b0 + 1) :: rest else pkt
  | [] => pkt
  end.

Definition SetPort (p : Packet) (port : Z) : Packet :=
  {| Buf := Buf p; BuffSize := BuffSize p; HopPos := HopPos p; HopIP := HopIP p;
     PayloadLen := PayloadLen p; Port := port; Protocol := Protocol p; Wp := Wp p |}.

Definition SetProtocol (p : Packet) (protocol : string) : Packet :=
  {| Buf := Buf p; BuffSize := BuffSize p; HopPos := HopPos p; HopIP := HopIP p;
     PayloadLen := PayloadLen p; Port := Port p;
     Protocol := if bool_decide (protocol = "tcp") then 6 else 17; Wp := Wp p |}.

Definition AppendUserPacket (p : Packet) (userID : Z) (data : list Z) : go (bool * Packet) :=
  let subSize := (4 + 2 + length data)%nat in
  if bool_decide (BuffSize p < Wp p + subSize)%nat then Ret (false, p)
  else
    let! b := put (Buf p) (Wp p) (put_be 4 userID) in
    let! b := put b (Wp p + 4) (put_be 2 (uint16 (Z.of_nat (length data)))) in
    let! b := copy_at b (Wp p + 6) data in
    let wp := (Wp p + subSize)%nat in
    Ret (true,
      {| Buf := b; BuffSize := BuffSize p; HopPos := HopPos p; HopIP := HopIP p;
         PayloadLen := uint16 (Z.of_nat (wp - HeaderSize)); Port := Port p;
         Protocol := Protocol p; Wp := wp |}).

(** The 22 header bytes that are written. *)
Definition header_bytes (p : Packet) : list Z :=
  [HopPos p] ++ mjoin (put_be 4 <$> HopIP p) ++ put_be 2 (PayloadLen p) ++
  put_be 2 (Port p) ++ [Protocol p].

(** [b := p.Buf[:HeaderSize]] panics when the buffer is shorter. *)
Definition SerializeHead (p : Packet) : go Packet :=
  if bool_decide (HeaderSize ≤ length (Buf p))%nat then
    let! b := put (Buf p) 0 (header_bytes p) in Ret (set_Buf p b)
  else Panic "slice bounds out of range".

Definition TotalBytes (p : Packet) : nat := (HeaderSize + Z.to_nat (PayloadLen p))%nat.

(** The bytes handed to the tunnel: [pkt.Buf[:pkt.TotalBytes()]]. *)
Definition wire (p : Packet) : list Z := take (TotalBytes p) (Buf p).

(** The header fields of the bytes [b]. *)
Definition read_header (b : list Z) (buf : list Z) (buffSize wp : nat) : Packet :=
  {| Buf := buf; BuffSize := buffSize;
     HopPos := default 0 (b !! 0%nat);
     HopIP := [get_be (slice b 1 5); get_be (slice b 5 9); get_be (slice b 9 13);
               get_be (slice b 13 17)];
     PayloadLen := get_be (slice b 17 19);
     Port := get_be (slice b 19 21);
     Protocol := default 0 (b !! 21%nat);
     Wp := wp |}.

Definition ParseHeader (raw : list Z) : Packet + string :=
  if bool_decide (length raw < HeaderSize)%nat then inr "invalid packet header: length too short"
  else let b := take HeaderSize raw in inl (read_header b b 0 0).

(** [bytes.Reader]: a read at the end of the data fails, also for an empty
    slice; a short read is no error and leaves zeros. *)
Definition reader_Read (r : list Z) (n : nat) : option (list Z * list Z) :=
  match r with
  | [] => None
  | _ => Some (take n r ++ repeat 0 (n - length r), drop n r)
  end.

(** [binary.Read] of [n] bytes. *)
Definition binary_Read (r : list Z) (n : nat) : option (Z * list Z) :=
  if bool_decide (length r < n)%nat then None else Some (get_be (take n r), drop n r).

(** The loop of [Parse]; every turn that goes on consumes at least six bytes. *)
Fixpoint parse_subs (fuel : nat) (r : list Z) : option (list SubPacket) :=
  match fuel with
  | O => None
  | S fuel =>
      match binary_Read r 4 with
      | None => Some []
      | Some (userID, r) =>
          match binary_Read r 2 with
          | None => Some []
          | Some (subLen, r) =>
              match reader_Read r (Z.to_nat subLen) with
              | None => Some []
              | Some (data, r) =>
                  subs ← parse_subs fuel r;
                  Some ({| UserID := userID; Data := data |} :: subs)
              end
          end
      end
  end.

(** [inl (header, subs)] or [inr error]; the loop has enough fuel
    ([parse_subs_total]). *)
Definition Parse (raw : list Z) (bufferSize : nat) : go (Packet * list SubPacket + string) :=
  if bool_decide (length raw < HeaderSize)%nat then Ret (inr "raw data too short")
  else if bool_decide (bufferSize < HeaderSize)%nat then Panic "slice bounds out of range"
  else
    let! buf := copy_at (repeat 0 bufferSize) 0 raw in
    let p := read_header (take HeaderSize buf) buf bufferSize HeaderSize in
    let payloadEnd := TotalBytes p in
    if bool_decide (length raw < payloadEnd)%nat || bool_decide (bufferSize < payloadEnd)%nat
    then Ret (inr "invalid payload length")
    else
      let payload := slice buf HeaderSize payloadEnd in
      Ret (inl (p, default [] (parse_subs (S (length payload)) payload))).

(** ** Big-endian numbers *)
Lemma put_be_length n v : length (put_be n v) = n.
Proof. induction n as [|n IH]; simpl; [done|]. by rewrite IH. Qed.

Lemma put_be_bytes n v : Forall is_byte (put_be n v).
Proof.
  induction n as [|n IH]; simpl; constructor; [|done].
  unfold is_byte, uint8. apply Z.mod_pos_bound. lia.
Qed.

Lemma get_be_go n v acc :
  foldl (λ acc b, acc * 256 + b) acc (put_be n v) =
  acc * 256 ^ Z.of_nat n + v `mod` 256 ^ Z.of_nat n.
Proof.
  revert acc. induction n as [|n IH]; intros acc; simpl.
  { rewrite Z.mod_1_r. lia. }
  rewrite IH. unfold uint8. change (2 ^ 8) with 256.
  rewrite Nat2Z.inj_succ, Z.pow_succ_r, (Z.mul_comm 256 (256 ^ _)) by lia.
  assert (0 < 256 ^ Z.of_nat n) by (apply Z.pow_pos_nonneg; lia).
  rewrite Z.rem_mul_r by lia. lia.
Qed.

Lemma get_put_be n v : 0 ≤ v < 256 ^ Z.of_nat n → get_be (put_be n v) = v.
Proof. intros Hv. unfold get_be. rewrite get_be_go, Z.mod_small by lia. lia. Qed.

(** ** Slices *)
Lemma put_ok buf off bs : (off + length bs ≤ length buf)%nat →
  put buf off bs = Ret (take off buf ++ bs ++ drop (off + length bs) buf).
Proof. intros H. unfold put. by rewrite bool_decide_eq_true_2. Qed.

Lemma copy_at_ok buf off src : (off + length src ≤ length buf)%nat →
  copy_at buf off src = Ret (take off buf ++ src ++ drop (off + length src) buf).
Proof.
  intros H. unfold copy_at. rewrite bool_decide_eq_true_2 by lia.
  rewrite Nat.min_l by lia. by rewrite (take_ge src) by lia.
Qed.

Lemma slice_app_l (a b : list Z) lo hi :
  (hi ≤ length a)%nat → slice (a ++ b) lo hi = slice a lo hi.
Proof.
  intros H. unfold slice. destruct (decide (lo ≤ length a)%nat).
  - rewrite drop_app_le by lia. rewrite take_app_le; [done|]. rewrite length_drop. lia.
  - replace (hi - lo)%nat with O by lia. done.
Qed.

Lemma slice_split (a b c : list Z) lo hi :
  lo = length a → hi = (length a + length b)%nat → slice (a ++ b ++ c) lo hi = b.
Proof.
  intros -> ->. unfold slice. rewrite drop_app_length.
  replace (length a + length b - length a)%nat with (length b) by lia.
  by rewrite take_app_length.
Qed.

(** ** The user packets as bytes *)
Definition encode_sub (s : SubPacket) : list Z :=
  put_be 4 (UserID s) ++ put_be 2 (uint16 (Z.of_nat (length (Data s)))) ++ Data s.

Definition encode (subs : list SubPacket) : list Z := mjoin (encode_sub <$> subs).

Definition sub_ok (s : SubPacket) : Prop :=
  0 ≤ UserID s < 2 ^ 32 ∧ Z.of_nat (length (Data s)) < 2 ^ 16.

(** What arrives: a last user packet without data is dropped, because the
    read at the end of the payload fails. *)
Fixpoint received (subs : list SubPacket) : list SubPacket :=
  match subs with
  | [] => []
  | [s] => if decide (Data s = []) then [] else [s]
  | s :: rest => s :: received rest
  end.

Lemma encode_cons s subs : encode (s :: subs) = encode_sub s ++ encode subs.
Proof. done. Qed.

Lemma encode_snoc subs s : encode (subs ++ [s]) = encode subs ++ encode_sub s.
Proof. unfold encode. rewrite fmap_app, join_app. simpl. by rewrite app_nil_r. Qed.

Lemma encode_sub_length s : length (encode_sub s) = (6 + length (Data s))%nat.
Proof. unfold encode_sub. rewrite !length_app, !put_be_length. lia. Qed.

Lemma binary_Read_put n v rest : 0 ≤ v < 256 ^ Z.of_nat n →
  binary_Read (put_be n v ++ rest) n = Some (v, rest).
Proof.
  intros Hv. assert (∀ a, length a = n → binary_Read (a ++ rest) n = Some (get_be a, rest)) as Ha.
  { intros a <-. unfold binary_Read. rewrite bool_decide_eq_false_2 by (rewrite length_app; lia).
    by rewrite take_app_length, drop_app_length. }
  rewrite Ha by apply put_be_length. by rewrite get_put_be.
Qed.

Lemma parse_subs_encode subs fuel :
  Forall sub_ok subs → (length (encode subs) < fuel)%nat →
  parse_subs fuel (encode subs) = Some (received subs).
Proof.
  intros Hs. revert fuel. induction Hs as [|s subs [Hu Hd] Hs IH]; intros fuel Hfuel.
  { destruct fuel as [|fuel]; [simpl in Hfuel; lia|done]. }
  rewrite encode_cons in *. rewrite length_app, encode_sub_length in Hfuel.
  destruct fuel as [|fuel]; [lia|]. unfold encode_sub. rewrite <-!app_assoc.
  assert (uint16 (Z.of_nat (length (Data s))) = Z.of_nat (length (Data s))) as E16
    by (apply Z.mod_small; lia).
  cbn [parse_subs]. rewrite binary_Read_put by (change (256 ^ Z.of_nat 4) with (2 ^ 32); lia).
  rewrite binary_Read_put by (rewrite E16; change (256 ^ Z.of_nat 2) with (2 ^ 16); lia).
  rewrite E16, Nat2Z.id.
  destruct (decide (Data s = [] ∧ subs = [])) as [[Hds ->]|Hne].
  { rewrite Hds. simpl. by rewrite Hds. }
  unfold reader_Read. destruct (Data s ++ encode subs) as [|b rest] eqn:Hrest.
  { exfalso. apply app_eq_nil in Hrest as [H1 H2]. apply Hne. split; [done|].
    destruct subs as [|s' subs]; [done|]. apply (f_equal length) in H2.
    rewrite encode_cons, length_app, encode_sub_length in H2. simpl in H2. lia. }
  rewrite <-Hrest, take_app_length, drop_app_length, length_app.
  replace (length (Data s) - (length (Data s) + length (encode subs)))%nat with O by lia.
  rewrite app_nil_r, IH by lia. cbn [mbind option_bind].
  f_equal. destruct s as [u d]. simpl in *. destruct subs as [|s' subs]; simpl; [|done].
  destruct (decide (d = [])); [|done]. by exfalso; apply Hne.
Qed.

(** The loop of [Parse] always ends within its fuel. *)
Lemma parse_subs_total fuel r : (length r < fuel)%nat → is_Some (parse_subs fuel r).
Proof.
  revert r. induction fuel as [|fuel IH]; intros r Hr; [lia|]. simpl.
  unfold binary_Read. case_bool_decide as H1; [by eexists|].
  case_bool_decide as H2; [by eexists|].
  unfold reader_Read at 1. destruct (drop 2 (drop 4 r)) as [|b r'] eqn:Hd; [by eexists|].
  destruct (IH (drop (Z.to_nat (get_be (take 2 (drop 4 r)))) (b :: r'))) as [subs ->].
  { rewrite length_drop, <-Hd, !length_drop. lia. }
  by eexists.
Qed.

#[global] Arguments put_be : simpl never.
#[global] Arguments encode : simpl never.

(** ** The packet under construction

    [holds p subs]: the buffer of [p] has its nominal size and the user
    packets [subs] are laid out after the header, up to the write position. *)
Record holds (p : Packet) (subs : list SubPacket) : Prop := {
  h_size : length (Buf p) = BuffSize p;
  h_room : (HeaderSize ≤ BuffSize p)%nat;
  h_wp : Wp p = (HeaderSize + length (encode subs))%nat;
  h_fit : (Wp p ≤ BuffSize p)%nat;
  h_pos : is_byte (HopPos p);
  h_hops : length (HopIP p) = 4%nat ∧ Forall (λ v, 0 ≤ v < 2 ^ 32) (HopIP p);
  h_port : 0 ≤ Port p < 2 ^ 16;
  h_proto : is_byte (Protocol p);
  h_data : slice (Buf p) HeaderSize (Wp p) = encode subs;
  h_subs : Forall (λ s, 0 ≤ UserID s < 2 ^ 32) subs;
}.

(** The length field agrees with the layout. *)
Definition sized (p : Packet) (subs : list SubPacket) : Prop :=
  PayloadLen p = uint16 (Z.of_nat (length (encode subs))).

Lemma NewPacket_holds n : (HeaderSize ≤ n)%nat → holds (NewPacket n) [] ∧ sized (NewPacket n) [].
Proof.
  intros Hn. split; [|done].
  split; simpl; unfold is_byte; try lia; try done.
  - apply repeat_length.
  - repeat constructor; lia.
Qed.

Lemma SetHopIP_holds p subs i ip :
  holds p subs → (∀ v, ip = Some v → 0 ≤ v < 2 ^ 32) → holds (SetHopIP p i ip) subs.
Proof.
  intros [H1 H2 H3 H4 H5 [H6 H7] H8 H9 H10 H11] Hip. unfold SetHopIP.
  case_bool_decide; [by split|]. destruct ip as [v|]; [|by split].
  split; simpl; try done. split; [by rewrite length_insert|].
  apply Forall_insert; [done|]. by apply Hip.
Qed.

Lemma SetHopPos_holds p subs pos : holds p subs → holds (SetHopPos p pos) subs.
Proof.
  intros [H1 H2 H3 H4 H5 H6 H8 H9 H10 H11]. unfold SetHopPos.
  case_bool_decide; [|by split]. split; simpl; try done. unfold is_byte, MaxHops in *. lia.
Qed.

Lemma SetPort_holds p subs port : 0 ≤ port < 2 ^ 16 → holds p subs → holds (SetPort p port) subs.
Proof. by intros Hp [H1 H2 H3 H4 H5 H6 H8 H9 H10 H11]; split. Qed.

Lemma SetProtocol_holds p subs proto : holds p subs → holds (SetProtocol p proto) subs.
Proof.
  intros [H1 H2 H3 H4 H5 H6 H8 H9 H10 H11]. split; simpl; try done.
  unfold is_byte. case_bool_decide; lia.
Qed.

Lemma cut_at (l : list Z) n : (n ≤ length l)%nat →
  ∃ a b, l = a ++ b ∧ length a = n ∧ b = drop n l.
Proof.
  intros Hn. exists (take n l), (drop n l). split; [by rewrite take_drop|].
  split; [|done]. rewrite length_take. lia.
Qed.

(** Appending writes exactly the encoding of the user packet. *)
Lemma append_bytes buf wp u n data :
  (wp + (6 + length data) ≤ length buf)%nat →
  (let! b := put buf wp (put_be 4 u) in
   let! b := put b (wp + 4) (put_be 2 n) in
   copy_at b (wp + 6) data)
  = Ret (take wp buf ++ put_be 4 u ++ put_be 2 n ++ data ++ drop (wp + (6 + length data)) buf).
Proof.
  intros Hfit. rewrite put_ok by (rewrite put_be_length; lia). cbn [go_bind].
  rewrite put_be_length.
  assert (∃ b4 b2 bd rest, drop wp buf = b4 ++ b2 ++ bd ++ rest ∧ length b4 = 4%nat ∧
    length b2 = 2%nat ∧ length bd = length data ∧ rest = drop (wp + (6 + length data)) buf)
    as (b4 & b2 & bd & rest & Hd & L4 & L2 & Ld & Hrest).
  { destruct (cut_at (drop wp buf) 4) as (b4 & r4 & Hd & L4 & E4); [rewrite length_drop; lia|].
    destruct (cut_at r4 2) as (b2 & r2 & -> & L2 & E2); [rewrite E4, !length_drop; lia|].
    destruct (cut_at r2 (length data)) as (bd & rest & -> & Ld & E3).
    { rewrite E2, E4, !length_drop. lia. }
    exists b4, b2, bd, rest. repeat split; try done. rewrite E3, E2, E4, !drop_drop. f_equal. }
  assert (length (take wp buf) = wp) as Lt by (rewrite length_take; lia).
  rewrite <-(drop_drop buf 4 wp), Hd, <-Hrest.
  replace (drop 4 (b4 ++ b2 ++ bd ++ rest)) with (b2 ++ bd ++ rest)
    by (by rewrite <-L4, drop_app_length).
  set (A := take wp buf) in *. set (u4 := put_be 4 u). set (u2 := put_be 2 n).
  assert (length u4 = 4%nat) as Lu4 by apply put_be_length.
  assert (length u2 = 2%nat) as Lu2 by apply put_be_length.
  rewrite put_ok by (rewrite !length_app; lia). cbn [go_bind]. rewrite Lu2.
  replace (wp + 4)%nat with (length (A ++ u4)) at 1 by (rewrite length_app; lia).
  rewrite (app_assoc A), take_app_length.
  replace (wp + 4 + 2)%nat with (length ((A ++ u4) ++ b2)) by (rewrite !length_app; lia).
  rewrite (app_assoc (A ++ u4) b2), drop_app_length.
  rewrite copy_at_ok by (rewrite !length_app; lia).
  replace (wp + 6)%nat with (length ((A ++ u4) ++ u2)) at 1 by (rewrite !length_app; lia).
  rewrite (app_assoc (A ++ u4) u2), take_app_length.
  replace (wp + 6 + length data)%nat with (length (((A ++ u4) ++ u2) ++ bd))
    by (rewrite !length_app; lia).
  rewrite (app_assoc _ bd), drop_app_length. by rewrite <-!app_assoc.
Qed.

Lemma append_user_packet p subs u data :
  holds p subs → 0 ≤ u < 2 ^ 32 →
  let s := {| UserID := u; Data := data |} in
  if decide (Wp p + (6 + length data) ≤ BuffSize p)%nat then
    ∃ p', AppendUserPacket p u data = Ret (true, p') ∧
      holds p' (subs ++ [s]) ∧ sized p' (subs ++ [s]) ∧
      HopPos p' = HopPos p ∧ HopIP p' = HopIP p ∧ Port p' = Port p ∧
      Protocol p' = Protocol p ∧ BuffSize p' = BuffSize p
  else AppendUserPacket p u data = Ret (false, p).
Proof.
  intros [H1 H2 H3 H4 H5 H6 H8 H9 H10 H11] Hu s. unfold AppendUserPacket.
  case_decide as Hfit; [rewrite bool_decide_eq_false_2 by lia|by rewrite bool_decide_eq_true_2 by lia].
  pose proof (append_bytes (Buf p) (Wp p) u (uint16 (Z.of_nat (length data))) data) as Hab.
  destruct (put (Buf p) (Wp p) (put_be 4 u)) as [b1|]; [cbn [go_bind] in *|by specialize (Hab ltac:(lia))].
  destruct (put b1 (Wp p + 4) _) as [b2|]; [cbn [go_bind] in *|by specialize (Hab ltac:(lia))].
  rewrite Hab by lia. cbn [go_bind]. eexists. split; [done|].
  assert (length (encode (subs ++ [s])) = (length (encode subs) + (6 + length data))%nat) as Hlen.
  { by rewrite encode_snoc, length_app, encode_sub_length. }
  assert (length (take (Wp p) (Buf p)) = Wp p) as Lt by (rewrite length_take; lia).
  split; [|split; [|done]].
  - split; cbn [Buf BuffSize HopPos HopIP PayloadLen Port Protocol Wp]; try done; try lia.
    + rewrite !length_app, !put_be_length, length_drop. lia.
    + replace (put_be 4 u ++ put_be 2 (uint16 (Z.of_nat (length data))) ++ data ++
        drop (Wp p + (6 + length data)) (Buf p)) with
        (encode_sub s ++ drop (Wp p + (6 + length data)) (Buf p))
        by (unfold encode_sub; cbn [UserID Data s]; by rewrite <-!app_assoc).
      rewrite encode_snoc, <-H10. unfold slice.
      rewrite drop_app_le by lia. rewrite take_app_ge; [|rewrite length_drop; lia].
      rewrite length_drop, Lt, skipn_firstn_comm. f_equal.
      rewrite take_app_le; [|rewrite encode_sub_length; simpl; lia].
      apply take_ge. rewrite encode_sub_length. simpl. lia.
    + apply Forall_app. split; [done|]. by apply Forall_singleton.
  - unfold sized. simpl. do 2 f_equal. lia.
Qed.

(** [AppendUserPacket] never panics.  When the user packet fits, it is laid
    out right after the ones already there and the length field is updated;
    when it does not, the packet is unchanged and the result is [false]. *)
Theorem AppendUserPacket_spec p subs u data :
  holds p subs → 0 ≤ u < 2 ^ 32 →
  let s := {| UserID := u; Data := data |} in
  if decide (Wp p + (6 + length data) ≤ BuffSize p)%nat then
    ∃ p', AppendUserPacket p u data = Ret (true, p') ∧
      holds p' (subs ++ [s]) ∧ sized p' (subs ++ [s]) ∧
      HopPos p' = HopPos p ∧ HopIP p' = HopIP p ∧ Port p' = Port p ∧
      Protocol p' = Protocol p ∧ BuffSize p' = BuffSize p
  else AppendUserPacket p u data = Ret (false, p).
Proof. apply append_user_packet. Qed.

(** ** The wire format

    [frame raw p subs]: the bytes [raw] are the header of [p], two bytes of
    padding and the user packets. *)
Definition frame (raw : list Z) (p : Packet) (subs : list SubPacket) : Prop :=
  ∃ pad, length pad = 2%nat ∧ raw = header_bytes p ++ pad ++ encode subs.

(** [same_header p q]: the two packets agree on every header field. *)
Definition same_header (p q : Packet) : Prop :=
  HopPos p = HopPos q ∧ HopIP p = HopIP q ∧ PayloadLen p = PayloadLen q ∧
  Port p = Port q ∧ Protocol p = Protocol q.

Lemma header_bytes_length p : length (HopIP p) = 4%nat → length (header_bytes p) = 22%nat.
Proof.
  intros H. unfold header_bytes. destruct (HopIP p) as [|a [|b [|c [|d [|]]]]]; try done.
Qed.

Lemma header_bytes_same p q : same_header p q → header_bytes p = header_bytes q.
Proof. intros (E1 & E2 & E3 & E4 & E5). unfold header_bytes. congruence. Qed.

(** The header fields can be represented in their widths. *)
Record header_ok (p : Packet) : Prop := {
  ho_hops : length (HopIP p) = 4%nat ∧ Forall (λ v, 0 ≤ v < 2 ^ 32) (HopIP p);
  ho_len : 0 ≤ PayloadLen p < 2 ^ 16;
  ho_port : 0 ≤ Port p < 2 ^ 16;
}.

Lemma read_header_bytes p rest buf bs wp :
  header_ok p → same_header (read_header (header_bytes p ++ rest) buf bs wp) p.
Proof.
  intros [[H1 H2] H3 H4]. unfold same_header, header_bytes. cbn [read_header HopPos HopIP PayloadLen Port Protocol].
  destruct (HopIP p) as [|a [|b [|c [|d [|]]]]]; try done.
  rewrite !Forall_cons in H2. destruct H2 as (Ha & Hb & Hc & Hd & _).
  cbn [fmap list_fmap mjoin list_join]. rewrite app_nil_r.
  set (A := put_be 4 a). set (B := put_be 4 b). set (C := put_be 4 c). set (D := put_be 4 d).
  set (L := put_be 2 (PayloadLen p)). set (O := put_be 2 (Port p)).
  assert (length A = 4 ∧ length B = 4 ∧ length C = 4 ∧ length D = 4 ∧ length L = 2 ∧ length O = 2)%nat
    as (LA & LB & LC & LD & LL & LO) by (repeat split; apply put_be_length).
  rewrite <-!app_assoc.
  split; [done|]. split; [f_equal; [|f_equal; [|f_equal; [|f_equal]]]|split; [|split]].
  - rewrite (slice_split [HopPos p] A); simpl; [by apply get_put_be|lia..].
  - rewrite (app_assoc [HopPos p]), (slice_split _ B); [by apply get_put_be|rewrite length_app; simpl; lia..].
  - rewrite !(app_assoc [HopPos p]), (app_assoc _ B), (slice_split _ C);
      [by apply get_put_be|rewrite !length_app; simpl; lia..].
  - rewrite !(app_assoc [HopPos p]), (app_assoc _ B), (app_assoc _ C), (slice_split _ D);
      [by apply get_put_be|rewrite !length_app; simpl; lia..].
  - rewrite !(app_assoc [HopPos p]), (app_assoc _ B), (app_assoc _ C), (app_assoc _ D), (slice_split _ L);
      [by apply get_put_be|rewrite !length_app; simpl; lia..].
  - rewrite !(app_assoc [HopPos p]), (app_assoc _ B), (app_assoc _ C), (app_assoc _ D),
      (app_assoc _ L), (slice_split _ O); [by apply get_put_be|rewrite !length_app; simpl; lia..].
  - rewrite !(app_assoc [HopPos p]), (app_assoc _ B), (app_assoc _ C), (app_assoc _ D),
      (app_assoc _ L), (app_assoc _ O). change ([Protocol p] ++ rest) with (Protocol p :: rest).
    rewrite list_lookup_middle; [done|].
    rewrite !length_app. simpl. lia.
Qed.

Lemma holds_sub_ok p subs : holds p subs → Z.of_nat (length (encode subs)) < 2 ^ 16 →
  Forall sub_ok subs.
Proof.
  intros Hh Hl. pose proof (h_subs _ _ Hh) as Hs. clear Hh.
  induction Hs as [|s subs Hu Hs IH]; [constructor|].
  rewrite encode_cons, length_app, encode_sub_length in Hl.
  constructor; [split; lia|apply IH; lia].
Qed.

Lemma holds_header_ok p subs : holds p subs → sized p subs → header_ok p.
Proof.
  intros Hh Hs. split; [apply Hh| |apply Hh]. rewrite Hs. unfold uint16. apply Z.mod_pos_bound. lia.
Qed.

(** The buffer after the header has been written. *)
Lemma SerializeHead_buf p subs : holds p subs →
  SerializeHead p = Ret (set_Buf p (header_bytes p ++ drop 22 (Buf p))).
Proof.
  intros Hh. destruct Hh as [H1 H2 _ _ _ [H6 _] _ _ _ _]. unfold SerializeHead.
  rewrite bool_decide_eq_true_2 by lia.
  rewrite put_ok; rewrite header_bytes_length by done; [done|]. unfold HeaderSize in *. lia.
Qed.

Lemma SerializeHead_frame p subs : holds p subs → sized p subs →
  Z.of_nat (length (encode subs)) < 2 ^ 16 →
  ∃ p', SerializeHead p = Ret p' ∧ frame (wire p') p subs ∧ same_header p' p.
Proof.
  intros Hh Hs Hl. rewrite (SerializeHead_buf p subs Hh). eexists. split; [done|]. split; [|done].
  destruct Hh as [H1 H2 H3 H4 _ [H6 _] _ _ H10 _].
  assert (PayloadLen p = Z.of_nat (length (encode subs))) as Hp by (rewrite Hs; apply Z.mod_small; lia).
  exists (slice (Buf p) 22 24). unfold HeaderSize in *.
  split; [unfold slice; rewrite length_take, length_drop; lia|].
  unfold wire, TotalBytes, HeaderSize. cbn [set_Buf Buf PayloadLen].
  rewrite Hp, Nat2Z.id. rewrite take_app_ge by (rewrite header_bytes_length by done; lia).
  f_equal. rewrite header_bytes_length by done.
  remember (length (encode subs)) as n eqn:Hn. rewrite <-H10, H3. unfold slice.
  replace (24 + n - 22)%nat with (2 + n)%nat by lia.
  replace (24 + n - 24)%nat with n by lia.
  rewrite <-(take_drop 2 (drop 22 (Buf p))) at 1.
  rewrite take_app_ge by (rewrite length_take; lia). f_equal.
  rewrite drop_drop, length_take, length_drop. f_equal. lia.
Qed.

Lemma frame_length raw p subs : header_ok p → frame raw p subs →
  length raw = (HeaderSize + length (encode subs))%nat.
Proof.
  intros [[H1 _] _ _] (pad & Hpad & ->). rewrite !length_app, header_bytes_length, Hpad by done.
  unfold HeaderSize. lia.
Qed.

Lemma ParseHeader_frame raw p subs : header_ok p → frame raw p subs →
  ∃ h, ParseHeader raw = inl h ∧ same_header h p.
Proof.
  intros Hok Hf. unfold ParseHeader. rewrite bool_decide_eq_false_2.
  2: { rewrite (frame_length raw p subs) by done. lia. }
  eexists. split; [done|]. destruct Hf as (pad & Hpad & ->). pose proof Hok as [[H1 _] _ _].
  rewrite take_app_ge by (rewrite header_bytes_length by done; unfold HeaderSize; lia).
  by apply read_header_bytes.
Qed.

Lemma Parse_frame raw p subs n : header_ok p → frame raw p subs → Forall sub_ok subs →
  PayloadLen p = Z.of_nat (length (encode subs)) → (length raw ≤ n)%nat →
  ∃ h, Parse raw n = Ret (inl (h, received subs)) ∧ same_header h p.
Proof.
  intros Hok Hf Hs Hlen Hn. pose proof (frame_length raw p subs Hok Hf) as Hraw.
  unfold Parse. rewrite !bool_decide_eq_false_2 by lia.
  rewrite copy_at_ok by (rewrite repeat_length; lia). cbn [go_bind].
  rewrite take_0, app_nil_l.
  destruct Hf as (pad & Hpad & ->). pose proof Hok as [[H1 _] _ _].
  set (buf := (header_bytes p ++ pad ++ encode subs) ++ _).
  set (h := read_header _ _ _ _).
  assert (same_header h p) as Hh.
  { unfold h, buf. rewrite <-app_assoc.
    rewrite take_app_ge by (rewrite header_bytes_length by done; unfold HeaderSize; lia).
    by apply read_header_bytes. }
  assert (TotalBytes h = (HeaderSize + length (encode subs))%nat) as Ht.
  { unfold TotalBytes. destruct Hh as (_ & _ & -> & _). by rewrite Hlen, Nat2Z.id. }
  rewrite Ht, !bool_decide_eq_false_2 by lia. cbn [orb].
  assert (slice buf HeaderSize (HeaderSize + length (encode subs)) = encode subs) as ->.
  { unfold buf. rewrite (app_assoc (header_bytes p)), <-(app_assoc (header_bytes p ++ pad)).
    apply slice_split; rewrite length_app, header_bytes_length by done; unfold HeaderSize; lia. }
  rewrite parse_subs_encode by (done || lia). eauto.
Qed.

Lemma AdvanceRawHop_frame raw p subs : header_ok p → frame raw p subs →
  0 ≤ HopPos p < MaxHops - 1 →
  frame (AdvanceRawHop raw) (set_HopPos p (HopPos p + 1)) subs.
Proof.
  intros Hok Hf Hpos. pose proof (frame_length raw p subs Hok Hf) as Hraw.
  destruct Hf as (pad & Hpad & ->). exists pad. split; [done|].
  assert (∃ tl, header_bytes p = HopPos p :: tl ∧ ∀ x, header_bytes (set_HopPos p x) = x :: tl)
    as (tl & E1 & E2) by (eexists; done).
  rewrite E1 in Hraw |- *. rewrite E2. unfold AdvanceRawHop. cbn [app] in *.
  rewrite !bool_decide_eq_true_2 by lia. cbn [andb].
  unfold uint8. rewrite Z.mod_small by (unfold MaxHops in Hpos; lia). done.
Qed.

(** C6: the wire format round-trips.  Serialising a packet that holds the user
    packets [subs] and parsing the bytes, into a buffer at least as long, gives
    back every header field and the user packets, but for a last one without
    data, which is lost. *)
Theorem Parse_SerializeHead p subs n :
  holds p subs → sized p subs → Z.of_nat (length (encode subs)) < 2 ^ 16 →
  (HeaderSize + length (encode subs) ≤ n)%nat →
  ∃ p' h, SerializeHead p = Ret p' ∧ Parse (wire p') n = Ret (inl (h, received subs)) ∧
    same_header h p.
Proof.
  intros Hh Hs Hl Hn. pose proof (holds_header_ok p subs Hh Hs) as Hok.
  destruct (SerializeHead_frame p subs Hh Hs Hl) as (p' & Hp' & Hf & _).
  destruct (Parse_frame (wire p') p subs n) as (h & H1 & H2); try done.
  - by eapply holds_sub_ok.
  - rewrite Hs. apply Z.mod_small. lia.
  - by rewrite (frame_length _ p subs).
  - exists p', h. done.
Qed.

(** The length field wraps: a packet is sent with its payload length modulo
    65536, so of a payload of 65536 bytes or more only the remainder leaves
    the node. *)
Theorem wire_truncates p subs :
  holds p subs → sized p subs →
  ∃ p', SerializeHead p = Ret p' ∧
    Z.of_nat (length (wire p')) =
      Z.of_nat HeaderSize + Z.of_nat (length (encode subs)) `mod` 2 ^ 16.
Proof.
  intros Hh Hs. pose proof Hh as [H1 H2 H3 H4 _ [H6 _] _ _ _ _].
  rewrite (SerializeHead_buf p subs Hh). eexists. split; [done|].
  unfold wire, TotalBytes, HeaderSize in *. cbn [set_Buf Buf PayloadLen].
  rewrite Hs, length_take, length_app, header_bytes_length, length_drop by done. unfold uint16.
  pose proof (Z.mod_pos_bound (Z.of_nat (length (encode subs))) (2 ^ 16) ltac:(lia)).
  pose proof (Z.mod_le (Z.of_nat (length (encode subs))) (2 ^ 16) ltac:(lia) ltac:(lia)). lia.
Qed.

(** ** Instances of the theorems *)
Definition sample_sub : SubPacket := {| UserID := 7; Data := [104; 105] |}.

Definition sample_packet : Packet := NewPacket 64.

Lemma sample_holds : holds sample_packet [] ∧ sized sample_packet [].
Proof. apply NewPacket_holds. unfold HeaderSize. lia. Qed.

Lemma AppendUserPacket_spec_witness :
  ∃ p', AppendUserPacket sample_packet 7 [104; 105] = Ret (true, p') ∧ holds p' [sample_sub].
Proof.
  pose proof (AppendUserPacket_spec sample_packet [] 7 [104; 105]
    (proj1 sample_holds) ltac:(lia)) as H.
  destruct H as (p' & H1 & H2 & _). exists p'. split; [exact H1|exact H2].
Defined.

(** The sample with its user packet, as [AppendUserPacket] leaves it. *)
Lemma filled_packet : ∃ p, holds p [sample_sub] ∧ sized p [sample_sub].
Proof.
  pose proof (append_user_packet sample_packet [] 7 [104; 105] (proj1 sample_holds) ltac:(lia)) as H.
  destruct H as (p' & _ & H2 & H3 & _). by exists p'.
Qed.

Lemma Parse_SerializeHead_witness : ∃ p p' h,
  holds p [sample_sub] ∧ SerializeHead p = Ret p' ∧
  Parse (wire p') 64 = Ret (inl (h, [sample_sub])).
Proof.
  destruct filled_packet as (p & Hh & Hs).
  destruct (Parse_SerializeHead p [sample_sub] 64 Hh Hs) as (p' & h & H1 & H2 & _).
  - reflexivity.
  - vm_compute. lia.
  - exists p, p', h. split; [exact Hh|]. split; [exact H1|exact H2].
Defined.

Lemma wire_truncates_witness : ∃ p p',
  SerializeHead p = Ret p' ∧ Z.of_nat (length (wire p')) = 32.
Proof.
  destruct filled_packet as (p & Hh & Hs).
  destruct (wire_truncates p [sample_sub] Hh Hs) as (p' & H1 & H2).
  exists p, p'. split; [exact H1|]. rewrite H2. reflexivity.
Defined.
