(* ===== verification/Tunnel.v ===== *)
(** * The tunnel handler

    [data-proxy/tunnel-handler.go]: what a node does with a packet that
    arrives over QUIC.  A packet with a port is a request on its way to the
    origin; one without is a response on its way back.  The calls with an
    effect are recorded as actions. *)
From S2P Require Import Prelude GoStrings Net Packet.
Local Open Scope Z_scope.
Local Open Scope go_scope.

(** [backsourcer.BackSourceTask] *)
Record BackSourceTask := {
  bt_HopIP : list Z;
  bt_Port : Z;
  bt_UserID : Z;
  OriginAddr : string;
  ReqData : list Z;
}.

Inductive action :=
| Submit (protocol : string) (task : BackSourceTask)   (** [BackSourcerMap[p].Submit] *)
| Deliver (userID : Z) (data : list Z)                 (** [GlobalDisagg.Deliver] *)
| SendPacket (nextIP : Z) (pkt : list Z).              (** [TunnelMgr.SendPacket] *)

(** Byte arithmetic on the hop position wraps; an index outside of the array of
    four hops panics. *)
Definition hop_at (h : Packet) (i : Z) : go Z := index (HopIP h) (Z.to_nat i).

Definition HandleQUICPacket (pkt : list Z) : go (list action) :=
  if bool_decide (length pkt < HeaderSize)%nat then Ret []
  else
    match ParseHeader pkt with
    | inr _ => Ret []
    | inl header =>
        if bool_decide (Port header ≠ 0) then
          let protocal := if bool_decide (Protocol header = 17) then "udp" else "tcp" in
          let isLastHop0 := bool_decide (HopPos header = 2) in
          let! isLastHop :=
            (if bool_decide (HopPos header + 2 < MaxHops) then
               let! v := hop_at header (uint8 (HopPos header + 2)) in
               Ret (if bool_decide (v = 0) then true else isLastHop0)
             else Ret isLastHop0) in
          if isLastHop : bool then
            let! r := Parse pkt (length pkt) in
            match r with
            | inr _ => Ret []
            | inl (_, []) => Ret []
            | inl (_, subs) =>
                let! origin := hop_at header (HopPos header + 1) in
                let originIP := Uint32ToIP origin in
                if bool_decide (ip_string originIP = "0.0.0.0") then Ret []
                else
                  Ret ((λ sub, Submit protocal
                    {| bt_HopIP := HopIP header; bt_Port := Port header; bt_UserID := UserID sub;
                       OriginAddr := ip_string originIP +:+ ":" +:+ Itoa (Port header);
                       ReqData := Data sub |}) <$> subs)
            end
          else
            let! nextIP := hop_at header (uint8 (HopPos header + 1)) in
            Ret [SendPacket (Uint32ToIP nextIP) (AdvanceRawHop pkt)]
        else
          let isLastHop0 := bool_decide (HopPos header = 3) in
          let! isLastHop :=
            (if bool_decide (HopPos header + 1 < MaxHops) then
               let! v := hop_at header (uint8 (HopPos header + 1)) in
               Ret (if bool_decide (v = 0) then true else isLastHop0)
             else Ret isLastHop0) in
          if isLastHop : bool then
            let! r := Parse pkt (length pkt) in
            match r with
            | inr _ => Ret []
            | inl (_, []) => Ret []
            | inl (_, subs) => Ret ((λ sub, Deliver (UserID sub) (Data sub)) <$> subs)
            end
          else
            let! nextIP := hop_at header (uint8 (HopPos header + 1)) in
            Ret [SendPacket (Uint32ToIP nextIP) (AdvanceRawHop pkt)]
    end.

(** ** The handler on well-formed packets *)

Lemma hop_at_ok h i v : HopIP h !! Z.to_nat i = Some v → hop_at h i = Ret v.
Proof. intros Hv. unfold hop_at, index. by rewrite Hv. Qed.

(** A framed packet with everything its parsers need. *)
Record arriving (raw : list Z) (p : Packet) (subs : list SubPacket) : Prop := {
  a_frame : frame raw p subs;
  a_header : header_ok p;
  a_subs : Forall sub_ok subs;
  a_len : PayloadLen p = Z.of_nat (length (encode subs));
}.

Lemma arriving_length raw p subs : arriving raw p subs → (HeaderSize ≤ length raw)%nat.
Proof. intros [H1 H2 _ _]. rewrite (frame_length raw p subs) by done. lia. Qed.

Lemma arriving_Parse raw p subs : arriving raw p subs →
  ∃ h, Parse raw (length raw) = Ret (inl (h, received subs)).
Proof.
  intros [H1 H2 H3 H4]. destruct (Parse_frame raw p subs (length raw)) as (h & Hh & _); [done..|].
  eauto.
Qed.

Lemma arriving_advance raw p subs : arriving raw p subs → 0 ≤ HopPos p < MaxHops - 1 →
  arriving (AdvanceRawHop raw) (set_HopPos p (HopPos p + 1)) subs.
Proof.
  intros [H1 H2 H3 H4] Hpos. split; [by apply AdvanceRawHop_frame| |done|done].
  destruct H2 as [A1 A2 A3]. by split.
Qed.

(** What the handler does with a request packet at position [pos]. *)
Lemma handle_request raw p subs pos : arriving raw p subs → Port p ≠ 0 →
  HopPos p = pos → 0 ≤ pos ≤ 2 → is_byte pos →
  ∃ next, HopIP p !! Z.to_nat (pos + 1) = Some next ∧
  HandleQUICPacket raw =
    if bool_decide (pos = 2 ∨ HopIP p !! Z.to_nat (pos + 2) = Some 0) then
      if bool_decide (received subs = []) || bool_decide (ip_string next = "0.0.0.0") then Ret []
      else Ret ((λ sub, Submit (if bool_decide (Protocol p = 17) then "udp" else "tcp")
              {| bt_HopIP := HopIP p; bt_Port := Port p; bt_UserID := UserID sub;
                 OriginAddr := ip_string next +:+ ":" +:+ Itoa (Port p);
                 ReqData := Data sub |}) <$> received subs)
    else Ret [SendPacket next (AdvanceRawHop raw)].
Proof.
  intros Ha Hport Hp Hpos Hb.
  destruct (a_header _ _ _ Ha) as [[Hl _] _ _].
  destruct (lookup_lt_is_Some_2 (HopIP p) (Z.to_nat (pos + 1))) as [next Hnext]; [lia|].
  exists next. split; [done|]. unfold HandleQUICPacket.
  rewrite bool_decide_eq_false_2 by (apply arriving_length in Ha; lia).
  destruct (ParseHeader_frame raw p subs) as (h & -> & E1 & E2 & E3 & E4 & E5); [apply Ha..|].
  rewrite E4, E5, E1, Hp. rewrite bool_decide_eq_true_2 by done.
  destruct (arriving_Parse raw p subs Ha) as (h' & HP). rewrite HP.
  unfold uint8. rewrite !Z.mod_small by lia.
  rewrite (hop_at_ok h (pos + 1) next) by congruence.
  destruct (decide (pos = 2)) as [->|Hne].
  - rewrite (bool_decide_eq_false_2 (2 + 2 < MaxHops)) by done.
    rewrite !(bool_decide_eq_true_2 (2 = 2)) by done.
    rewrite (bool_decide_eq_true_2 (2 = 2 ∨ _)) by auto. cbn [go_bind].
    rewrite E2. destruct (received subs); [done|].
    rewrite (bool_decide_eq_false_2 (_ :: _ = [])) by done. cbn [orb].
    unfold Uint32ToIP. by destruct (bool_decide (ip_string next = _)).
  - rewrite (bool_decide_eq_true_2 (pos + 2 < MaxHops)) by (unfold MaxHops; lia).
    destruct (lookup_lt_is_Some_2 (HopIP p) (Z.to_nat (pos + 2))) as [v Hv]; [lia|].
    rewrite (hop_at_ok h (pos + 2) v) by congruence. cbn [go_bind].
    rewrite (bool_decide_eq_false_2 (pos = 2)) by done. rewrite Hv.
    destruct (bool_decide_reflect (v = 0)) as [->|Hv0].
    + rewrite (bool_decide_eq_true_2 (pos = 2 ∨ Some 0 = Some 0)) by auto. rewrite E2. destruct (received subs); [done|].
      rewrite (bool_decide_eq_false_2 (_ :: _ = [])) by done. cbn [orb].
      unfold Uint32ToIP. by destruct (bool_decide (ip_string next = _)).
    + rewrite (bool_decide_eq_false_2 (pos = 2 ∨ Some v = Some 0)); [done|]. intros [?|[= ?]]; done.
Qed.

(** What the handler does with a response packet at position [pos]. *)
Lemma handle_response raw p subs pos : arriving raw p subs → Port p = 0 →
  HopPos p = pos → 0 ≤ pos ≤ 3 →
  HandleQUICPacket raw =
    match HopIP p !! Z.to_nat (pos + 1) with
    | Some next =>
        if bool_decide (next = 0) then Ret ((λ sub, Deliver (UserID sub) (Data sub)) <$> received subs)
        else Ret [SendPacket next (AdvanceRawHop raw)]
    | None => Ret ((λ sub, Deliver (UserID sub) (Data sub)) <$> received subs)
    end.
Proof.
  intros Ha Hport Hp Hpos. destruct (a_header _ _ _ Ha) as [[Hl _] _ _].
  unfold HandleQUICPacket.
  rewrite bool_decide_eq_false_2 by (apply arriving_length in Ha; lia).
  destruct (ParseHeader_frame raw p subs) as (h & -> & E1 & E2 & E3 & E4 & E5); [apply Ha..|].
  rewrite E4, E1, Hp. rewrite bool_decide_eq_false_2 by (by intros ?).
  destruct (arriving_Parse raw p subs Ha) as (h' & HP). rewrite HP.
  unfold uint8. rewrite !Z.mod_small by lia.
  destruct (decide (pos = 3)) as [->|Hne].
  - rewrite (lookup_ge_None_2 (HopIP p)) by lia. cbn [go_bind]. simpl.
    by destruct (received subs).
  - destruct (lookup_lt_is_Some_2 (HopIP p) (Z.to_nat (pos + 1))) as [next Hnext]; [lia|].
    rewrite Hnext, (hop_at_ok h (pos + 1) next) by congruence. cbn [go_bind].
    rewrite (bool_decide_eq_true_2 (pos + 1 < MaxHops)) by (unfold MaxHops; lia).
    rewrite (bool_decide_eq_false_2 (pos = 3)) by done.
    destruct (bool_decide_reflect (next = 0)); [by destruct (received subs)|done].
Qed.

(** ** Panics *)
Definition panics {A} (m : go A) : Prop := ∃ why, m = Panic why.

Lemma not_panics_Ret {A} (x : A) : ¬ panics (Ret x).
Proof. by intros [? ?]. Qed.

Lemma Parse_no_panic raw : (HeaderSize ≤ length raw)%nat →
  ∃ r, Parse raw (length raw) = Ret r.
Proof.
  intros Hl. unfold Parse. rewrite !bool_decide_eq_false_2 by lia.
  rewrite copy_at_ok by (rewrite repeat_length; lia). cbn [go_bind].
  case_match; eauto.
Qed.

(** The position and the port written in the header of [raw]. *)
Definition raw_pos (raw : list Z) : Z := default 0 (raw !! 0%nat).
Definition raw_port (raw : list Z) : Z := get_be (slice raw 19 21).

Lemma hop_at_panics h i : length (HopIP h) = 4%nat → 0 ≤ i → panics (hop_at h i) ↔ 4 ≤ i.
Proof.
  intros Hl Hi. unfold hop_at, index. destruct (HopIP h !! Z.to_nat i) as [v|] eqn:E.
  - apply lookup_lt_Some in E. split; [by intros [? ?]|lia].
  - apply lookup_ge_None_1 in E. split; [lia|]. intros _. by eexists.
Qed.

Lemma hop_at_cases h i : length (HopIP h) = 4%nat → 0 ≤ i →
  (i < 4 ∧ ∃ v, hop_at h i = Ret v) ∨ (4 ≤ i ∧ ∃ w, hop_at h i = Panic w).
Proof.
  intros Hl Hi. unfold hop_at, index. destruct (HopIP h !! Z.to_nat i) as [v|] eqn:E.
  - apply lookup_lt_Some in E. left. split; [lia|eauto].
  - apply lookup_ge_None_1 in E. right. split; [lia|eauto].
Qed.

(** What the handler reads of a whole header. *)
Lemma header_view raw : Forall is_byte raw → (HeaderSize ≤ length raw)%nat →
  0 ≤ raw_pos raw < 256 ∧
  ∃ h, ParseHeader raw = inl h ∧ HopPos h = raw_pos raw ∧ Port h = raw_port raw ∧
    length (HopIP h) = 4%nat.
Proof.
  intros Hb Hs. split.
  { unfold raw_pos. destruct raw as [|b raw]; [simpl; lia|].
    apply Forall_cons in Hb as [Hb _]. simpl. apply Hb. }
  unfold ParseHeader. rewrite bool_decide_eq_false_2 by lia. eexists. split; [done|].
  split; [unfold raw_pos; simpl; by destruct raw|]. split; [|done].
  unfold raw_port, HeaderSize in *. cbn [read_header Port]. f_equal.
  rewrite <-(take_drop 24 raw) at 2. rewrite slice_app_l; [done|]. rewrite length_take. lia.
Qed.

Lemma uint8_next pos : 0 ≤ pos < 256 →
  pos = 255 ∧ uint8 (pos + 1) = 0 ∨ pos < 255 ∧ uint8 (pos + 1) = pos + 1.
Proof.
  intros Hp. unfold uint8. destruct (decide (pos = 255)) as [->|]; [by left|]. right.
  split; [lia|]. apply Z.mod_small. lia.
Qed.

(** On a request the test for the last hop stays within the array. *)
Lemma request_last_hop h pos : length (HopIP h) = 4%nat → 0 ≤ pos →
  ∃ last, (if bool_decide (pos + 2 < 4) then
    let! v := hop_at h (uint8 (pos + 2)) in
    Ret (if bool_decide (v = 0) then true else bool_decide (pos = 2))
    else Ret (bool_decide (pos = 2))) = Ret last.
Proof.
  intros Hl Hp. case_bool_decide as H2; [|eauto]. unfold uint8. rewrite Z.mod_small by lia.
  destruct (hop_at_cases h (pos + 2)) as [[_ [v2 ->]]|[Hi2 _]]; [done|lia| |lia]. simpl. eauto.
Qed.

(** C40: exactly which packets crash a node.  For any bytes received, the handler
    panics (an index out of the range of the four hops) if and only if the
    packet has a whole header and its hop position is between 3 and 254 on a
    request, or between 4 and 254 on a response. *)
Theorem HandleQUICPacket_panics_iff raw : Forall is_byte raw →
  panics (HandleQUICPacket raw) ↔
    (HeaderSize ≤ length raw)%nat ∧
    (if decide (raw_port raw = 0) then 4 ≤ raw_pos raw ≤ 254 else 3 ≤ raw_pos raw ≤ 254).
Proof.
  intros Hb. unfold HandleQUICPacket.
  destruct (bool_decide_reflect (length raw < HeaderSize)%nat) as [Hs|Hs].
  { split; [by intros ?%not_panics_Ret|lia]. }
  assert (HeaderSize ≤ length raw)%nat as Hlen by lia.
  destruct (Parse_no_panic raw Hlen) as [r Hr].
  destruct (header_view raw Hb Hlen) as (Hpos & h & -> & -> & -> & Hl).
  rewrite Hr. clear Hr. set (pos := raw_pos raw) in *. pose proof (uint8_next pos Hpos) as H1.
  destruct (decide (raw_port raw = 0)) as [H0|H0].
  - rewrite bool_decide_eq_false_2 by (by intros ?).
    destruct (hop_at_cases h (uint8 (pos + 1))) as [[Hi [v Hv]]|[Hi [w Hw]]];
      [done|lia|..].
    + rewrite Hv. cbn [go_bind]. unfold MaxHops.
      destruct (bool_decide_reflect (pos + 1 < 4)); cbn [go_bind];
        (case_match; [destruct r as [[? [|]]|]|]);
        (split; [by intros ?%not_panics_Ret|intros [_ ?]; lia]).
    + rewrite Hw. unfold MaxHops.
      rewrite (bool_decide_eq_false_2 (pos + 1 < 4)) by lia. cbn [go_bind].
      destruct (bool_decide_reflect (pos = 3)); cbn [go_bind].
      * destruct r as [[? [|]]|]; (split; [by intros ?%not_panics_Ret|intros [_ ?]; lia]).
      * split; [intros _; split; [done|lia]|by eexists].
  - rewrite (bool_decide_eq_true_2 (raw_port raw ≠ 0)) by done. unfold MaxHops.
    destruct (decide (pos < 3)) as [Hlt|Hge].
    + destruct (hop_at_cases h (pos + 1)) as [[Hi [v Hv]]|[Hi _]]; [done|lia| |lia].
      assert (uint8 (pos + 1) = pos + 1) as E1 by (lia). rewrite E1, Hv.
      destruct (request_last_hop h pos) as [last Hlast]; [done|lia|].
      rewrite Hlast. cbn [go_bind].
      destruct last; [destruct r as [[? [|]]|]; cbn [go_bind];
        try destruct (bool_decide (ip_string _ = _))|];
        (split; [by intros ?%not_panics_Ret|intros [_ ?]; lia]).
    + rewrite !bool_decide_eq_false_2 by lia. cbn [go_bind].
      destruct (hop_at_cases h (uint8 (pos + 1))) as [[Hi [v ->]]|[Hi [w ->]]];
        [done|lia|..]; cbn [go_bind].
      * split; [by intros ?%not_panics_Ret|intros [_ ?]; lia].
      * split; [intros _; split; [done|lia]|by eexists].
Qed.

(** ** Instances of the theorems *)
Lemma HandleQUICPacket_panics_iff_witness :
  panics (HandleQUICPacket (3 :: replicate 23 1)).
Proof.
  apply (HandleQUICPacket_panics_iff (3 :: replicate 23 1)).
  - apply Forall_cons. split; [unfold is_byte; lia|]. apply Forall_replicate. unfold is_byte. lia.
  - split; [vm_compute; lia|]. vm_compute. split; discriminate.
Defined.
