(* ===== verification/Aggregator.v ===== *)
(** * The packet aggregator

    [data-proxy/aggregator/aggregator.go]: a worker collects the user packets
    of a route in batches and sends a batch when its deadline passes.  Batches
    and heap items are shared objects (the map of batches, the heap and the
    batch's own [heapItem] field point to them), so they live in a store and
    are referred to by their ids. *)
From S2P Require Import Prelude GoHeap GoStrings Net Packet.
Local Open Scope Z_scope.
Local Open Scope go_scope.

(** Times are nanoseconds. *)
Definition millisecond : Z := 1000000.
Definition batchMaxAge : Z := 60000 * millisecond.

Record aggregatorMsg := {
  emerge : bool;
  routingKey : string;
  protocol : string;
  port : Z;
  routingInfo : list string;   (** [routingInfo.Hops] *)
  nextHop : option Z;
  userID : Z;
  data : list Z;
}.

Record Batch := {
  b_BuffSize : nat;
  RoutingKey : string;
  NextHop : option Z;
  pkt : Packet;
  heapItem : option nat;
  createTime : Z;
}.

(** The items carry their identity; [index] is kept beside them in the heap. *)
Record HeapItem := {
  hi_id : nat;
  hi_batch : nat;
  deadline : Z;
}.

#[export] Instance HeapItem_inhabited : Inhabited HeapItem :=
  populate {| hi_id := 0; hi_batch := 0; deadline := 0 |}.

Abbreviation MinHeap := (list (HeapItem * Z)).

Definition mh_Less (h : MinHeap) (i j : nat) : bool :=
  match h !! i, h !! j with
  | Some x, Some y => Z.ltb (deadline x.1) (deadline y.1)
  | _, _ => false
  end.

Definition mh_Swap (h : MinHeap) (i j : nat) : MinHeap :=
  match h !! i, h !! j with
  | Some x, Some y => <[j := (x.1, Z.of_nat j)]> (<[i := (y.1, Z.of_nat i)]> h)
  | _, _ => h
  end.

Definition mh_Push (h : MinHeap) (x : HeapItem) : MinHeap := h ++ [(x, Z.of_nat (length h))].

Definition mh_Pop (h : MinHeap) : option (HeapItem * MinHeap) :=
  match last h with
  | Some x => Some (x.1, removelast h)
  | None => None
  end.

#[export] Instance MinHeap_interface : HeapInterface MinHeap HeapItem :=
  {| hLen := length; hLess := mh_Less; hSwap := mh_Swap; hPush := mh_Push; hPop := mh_Pop |}.

(** [item.index]: its position while it is in the heap, [-1] after [Pop]. *)
Definition item_index (h : MinHeap) (id : nat) : Z :=
  match list_find (λ x, hi_id x.1 = id) h with
  | Some (_, x) => x.2
  | None => -1
  end.

Record worker := {
  store : gmap nat Batch;
  batches : gmap string (list nat);
  heap : MinHeap;
  fresh : nat;
}.

Definition new_worker : worker := {| store := ∅; batches := ∅; heap := []; fresh := 0 |}.

Record sendInfo := {
  si_p : list Z;
  si_routingKey : string;
  si_next : option Z;
}.

(** The configuration the aggregator reads. *)
Record agg_config := {
  BufferSize : nat;
  BatchTimeout : Z;
  BatchNumMap : gmap Z Z;
}.

(** [buf[:n]] *)
Definition slice_to (buf : list Z) (n : nat) : go (list Z) :=
  if bool_decide (n ≤ length buf)%nat then Ret (take n buf) else Panic "slice bounds out of range".

Definition set_pkt (p : Packet) (b : Batch) : Batch :=
  {| b_BuffSize := b_BuffSize b; RoutingKey := RoutingKey b; NextHop := NextHop b; pkt := p;
     heapItem := heapItem b; createTime := createTime b |}.
Definition set_heapItem (i : option nat) (b : Batch) : Batch :=
  {| b_BuffSize := b_BuffSize b; RoutingKey := RoutingKey b; NextHop := NextHop b; pkt := pkt b;
     heapItem := i; createTime := createTime b |}.
Definition put_batch (id : nat) (b : Batch) (w : worker) : worker :=
  {| store := <[id := b]> (store w); batches := batches w; heap := heap w; fresh := fresh w |}.
Definition set_batches (m : gmap string (list nat)) (w : worker) : worker :=
  {| store := store w; batches := m; heap := heap w; fresh := fresh w |}.
Definition set_heap (h : MinHeap) (w : worker) : worker :=
  {| store := store w; batches := batches w; heap := h; fresh := fresh w |}.

(** [&Batch{...}]: a new object. *)
Definition alloc (b : Batch) (w : worker) : nat * worker :=
  (fresh w, {| store := <[fresh w := b]> (store w); batches := batches w; heap := heap w;
               fresh := S (fresh w) |}).

Section Aggregator.
Context `{Ip6Parser} (cfg : agg_config).

(** A new packet with the route of the message. *)
Definition route_packet (msg : aggregatorMsg) (buffSize : nat) : Packet :=
  let p := NewPacket buffSize in
  let p := foldl (λ p ih, SetHopIP p ih.1 (HopIPToNet ih.2)) p
             (imap (λ i h, (i, h)) (routingInfo msg)) in
  SetHopPos (SetProtocol (SetPort p (port msg)) (protocol msg)) 1.

Definition new_batch (msg : aggregatorMsg) (buffSize : nat) (now : Z) : Batch :=
  {| b_BuffSize := buffSize; RoutingKey := routingKey msg; NextHop := nextHop msg;
     pkt := route_packet msg buffSize; heapItem := None; createTime := now |}.

(** [flush]: an empty buffer is not sent. *)
Definition flush (buf : list Z) (rk : string) (next : option Z) : list sendInfo :=
  if bool_decide (length buf ≤ 0)%nat then []
  else [{| si_p := buf; si_routingKey := rk; si_next := next |}].

(** The path of an urgent message: a packet of its own, sent at once. *)
Definition send_emerge (msg : aggregatorMsg) (buffSize : nat) : go (list sendInfo) :=
  let! r := AppendUserPacket (route_packet msg buffSize) (userID msg) (data msg) in
  match r with
  | (false, _) => Ret []
  | (true, p) =>
      let! p := SerializeHead p in
      let! buf := slice_to (Buf p) (TotalBytes p) in
      Ret (flush buf (routingKey msg) (nextHop msg))
  end.

(** [bList[userID % len]], or nothing when the list is empty. *)
Definition select_batch (bList : list nat) (uid : Z) : option nat :=
  if bool_decide (0 < length bList)%nat then
    if bool_decide (length bList ≤ 1)%nat then bList !! 0%nat
    else bList !! Z.to_nat (uid `mod` Z.of_nat (length bList))
  else None.

Fixpoint alloc_batches (n : nat) (b : Batch) (w : worker) : list nat * worker :=
  match n with
  | O => ([], w)
  | S n => let '(id, w) := alloc b w in
           let '(ids, w) := alloc_batches n b w in (id :: ids, w)
  end.

(** Finding the batch of a message, creating the batches of its route if
    there are none. *)
Definition pick_batch (w : worker) (msg : aggregatorMsg) (buffSize : nat) (now : Z)
    : option nat * worker :=
  match select_batch (default [] (batches w !! routingKey msg)) (userID msg) with
  | Some id => (Some id, w)
  | None =>
      let num := match BatchNumMap cfg !! port msg with
                 | Some n => if bool_decide (n ≤ 0) then 1 else n
                 | None => 1
                 end in
      let '(ids, w) := alloc_batches (Z.to_nat num) (new_batch msg buffSize now) w in
      let w := match batches w !! routingKey msg with
               | None => set_batches (<[routingKey msg := ids]> (batches w)) w
               | Some _ => w
               end in
      (select_batch (default [] (batches w !! routingKey msg)) (userID msg), w)
  end.

(** A batch to go on with after a full or a flushing one: the result of its
    [AppendUserPacket] is not looked at. *)
Definition overflow_batch (w : worker) (msg : aggregatorMsg) (buffSize : nat) (now : Z)
    : go (nat * worker) :=
  let '(id, w) := alloc (new_batch msg buffSize now) w in
  let w := set_batches (<[routingKey msg := default [] (batches w !! routingKey msg) ++ [id]]>
                          (batches w)) w in
  let! r := AppendUserPacket (route_packet msg buffSize) (userID msg) (data msg) in
  Ret (id, put_batch id (set_pkt r.2 (new_batch msg buffSize now)) w).

Definition append_batch (w : worker) (id : nat) (msg : aggregatorMsg) (buffSize : nat) (now : Z)
    : go (nat * worker) :=
  match store w !! id with
  | None => Panic "nil pointer dereference"
  | Some b =>
      if bool_decide (heapItem b = None ∧ (HeaderSize < Wp (pkt b))%nat)
      then overflow_batch w msg buffSize now
      else
        let! r := AppendUserPacket (pkt b) (userID msg) (data msg) in
        match r with
        | (true, p) => Ret (id, put_batch id (set_pkt p b) w)
        | (false, _) => overflow_batch w msg buffSize now
        end
  end.

(** A batch without a deadline gets one. *)
Definition schedule (w : worker) (id : nat) (now : Z) : go worker :=
  match store w !! id with
  | None => Panic "nil pointer dereference"
  | Some b =>
      match heapItem b with
      | Some _ => Ret w
      | None =>
          let item := {| hi_id := fresh w; hi_batch := id; deadline := now + BatchTimeout cfg |} in
          Ret {| store := <[id := set_heapItem (Some (fresh w)) b]> (store w);
                 batches := batches w; heap := heap_Push (heap w) item; fresh := S (fresh w) |}
      end
  end.

(** [handleMsg] up to the choice of the batch: a small or urgent message is
    sent at once. *)
Definition handle_pick (w : worker) (msg : aggregatorMsg) (now : Z)
    : go (option nat * worker * list sendInfo) :=
  let small := bool_decide (length (data msg) < 128)%nat ||
               bool_decide (BatchTimeout cfg ≤ 20 * millisecond) in
  let buffSize := if small then (HeaderSize + 4 + 2 + length (data msg))%nat else BufferSize cfg in
  if small || emerge msg then
    let! out := send_emerge msg buffSize in Ret (None, w, out)
  else
    let '(picked, w) := pick_batch w msg buffSize now in Ret (picked, w, []).

(** What [handleMsg] does with the batch it picked, under the batch's lock. *)
Definition handle_append (w : worker) (id : nat) (msg : aggregatorMsg) (now : Z) : go worker :=
  let! (id, w) := append_batch w id msg (BufferSize cfg) now in schedule w id now.

Definition handleMsg (w : worker) (msg : aggregatorMsg) (now : Z) : go (worker * list sendInfo) :=
  let small := bool_decide (length (data msg) < 128)%nat ||
               bool_decide (BatchTimeout cfg ≤ 20 * millisecond) in
  let buffSize := if small then (HeaderSize + 4 + 2 + length (data msg))%nat else BufferSize cfg in
  if small || emerge msg then
    let! out := send_emerge msg buffSize in Ret (w, out)
  else
    let '(picked, w) := pick_batch w msg buffSize now in
    match picked with
    | None => Ret (w, [])
    | Some id =>
        let! (id, w) := append_batch w id msg buffSize now in
        let! w := schedule w id now in
        Ret (w, [])
    end.

(** ** [checkTimeout] *)

(** First critical section: the expired items leave the heap. *)
Fixpoint pop_expired (fuel : nat) (h : MinHeap) (now : Z) : list HeapItem * MinHeap :=
  match fuel with
  | O => ([], h)
  | S fuel =>
      match h !! 0%nat with
      | None => ([], h)
      | Some top =>
          if bool_decide (now < deadline top.1) then ([], h)
          else match heap_Pop h with
               | None => ([], h)
               | Some (item, h) => let '(l, h) := pop_expired fuel h now in (item :: l, h)
               end
      end
  end.

(** Then every expired batch, under its own lock. *)
Definition flush_item (w : worker) (item : HeapItem) (now : Z) : go (worker * sendInfo) :=
  match store w !! hi_batch item with
  | None => Panic "nil pointer dereference"
  | Some b =>
      let! p := SerializeHead (pkt b) in
      let! buf := slice_to (Buf p) (TotalBytes p) in
      Ret (put_batch (hi_batch item)
             {| b_BuffSize := b_BuffSize b; RoutingKey := RoutingKey b; NextHop := NextHop b;
                pkt := set_Wp p HeaderSize; heapItem := None; createTime := now |} w,
           {| si_p := buf; si_routingKey := RoutingKey b; si_next := NextHop b |})
  end.

Fixpoint flush_items (w : worker) (items : list HeapItem) (now : Z) : go (worker * list sendInfo) :=
  match items with
  | [] => Ret (w, [])
  | item :: items =>
      let! (w, s) := flush_item w item now in
      let! (w, l) := flush_items w items now in
      Ret (w, s :: l)
  end.

Definition checkTimeout (w : worker) (now : Z) : go (worker * list sendInfo) :=
  let '(expired, h) := pop_expired (length (heap w)) (heap w) now in
  let! (w, toSend) := flush_items (set_heap h w) expired now in
  Ret (w, mjoin ((λ s, flush (si_p s) (si_routingKey s) (si_next s)) <$> toSend)).

(** ** [evictStaleBatches] *)
Definition heap_remove_index (h : MinHeap) (i : Z) : go MinHeap :=
  if bool_decide (i < 0) then Panic "index out of range"
  else match heap_Remove h (Z.to_nat i) with
       | Some (_, h) => Ret h
       | None => Panic "index out of range"
       end.

Fixpoint remove_items (w : worker) (ids : list nat) (h : MinHeap) : go MinHeap :=
  match ids with
  | [] => Ret h
  | id :: ids =>
      match heapItem <$> store w !! id with
      | Some (Some item) =>
          let! h := heap_remove_index h (item_index h item) in remove_items w ids h
      | _ => remove_items w ids h
      end
  end.

Definition is_stale (w : worker) (now : Z) (id : nat) : bool :=
  match store w !! id with
  | Some b => bool_decide (batchMaxAge < now - createTime b)
  | None => false
  end.

(** One key of the snapshot. *)
Definition evict_key (w : worker) (now : Z) (key : string) (v : list nat) : go worker :=
  if existsb (is_stale w now) v then
    let! h := remove_items w v (heap w) in
    Ret (set_batches (delete key (batches w)) (set_heap h w))
  else Ret w.

Fixpoint evict_keys (w : worker) (now : Z) (l : list (string * list nat)) : go worker :=
  match l with
  | [] => Ret w
  | (k, v) :: l => let! w := evict_key w now k v in evict_keys w now l
  end.

Definition evictStaleBatches `{RangeOrder} (w : worker) (now : Z) : go worker :=
  evict_keys w now (range_map 0 (batches w)).
End Aggregator.
