(* ===== verification/Batching.v ===== *)
(** * Correctness of the aggregator

    Invariants of a worker of [aggregator.go] and what its operations do with
    the user packets: a message is stored or sent, exactly once; a check sends
    exactly the batches whose deadline has passed. *)
From S2P Require Import Prelude GoHeap GoStrings Net Packet Tunnel Aggregator.
Local Open Scope Z_scope.
Local Open Scope go_scope.

(** ** The heap of deadlines *)
Definition item_less (x y : HeapItem) : bool := Z.ltb (deadline x) (deadline y).

Lemma mh_Swap_vals h i j :
  (i < length h)%nat → (j < length h)%nat → (mh_Swap h i j).*1 = swap (h.*1) i j.
Proof.
  intros Hi Hj. unfold mh_Swap, swap. rewrite !list_lookup_fmap.
  destruct (lookup_lt_is_Some_2 h i Hi) as [x Hx].
  destruct (lookup_lt_is_Some_2 h j Hj) as [y Hy].
  rewrite Hx, Hy. simpl. rewrite !list_fmap_insert. simpl.
  destruct (decide (i = j)) as [->|Hne].
  - rewrite !list_insert_insert_eq. congruence.
  - by apply list_insert_insert_ne.
Qed.

#[export, refine] Instance MinHeap_laws : HeapLaws MinHeap HeapItem item_less :=
  {| hvals := fmap fst |}.
Proof.
  - intros h. by rewrite length_fmap.
  - intros h i j. unfold less_at. rewrite !list_lookup_fmap. simpl. unfold mh_Less.
    by destruct (h !! i), (h !! j).
  - intros h i j Hi Hj. by apply mh_Swap_vals.
  - intros h x. simpl. unfold mh_Push. by rewrite fmap_app.
  - intros h l x Hv. destruct h as [|e h _] using rev_ind; [by destruct l|].
    rewrite fmap_app in Hv. apply app_inj_2 in Hv as [<- [= <-]]; [|done].
    simpl. unfold mh_Pop. rewrite last_snoc, removelast_last. eauto.
Defined.

#[export] Instance item_less_weak : WeakOrder (λ _, True) item_less.
Proof.
  split; unfold item_less; intros *; rewrite ?Z.ltb_lt, ?Z.ltb_ge; lia.
Qed.

Definition mh_ok : MinHeap → Prop := heap_ok item_less (λ _, True).

(** The [index] field of an item is its position. *)
Definition indexed (h : MinHeap) : Prop := ∀ i x, h !! i = Some x → x.2 = Z.of_nat i.

Lemma indexed_swap h i j : indexed h → indexed (mh_Swap h i j).
Proof.
  intros Hi. unfold mh_Swap. destruct (h !! i) as [x|] eqn:Ex; [|done].
  destruct (h !! j) as [y|] eqn:Ey; [|done]. intros k z Hk.
  apply list_lookup_insert_Some in Hk as [(<- & <- & _)|[_ Hk]]; [done|].
  apply list_lookup_insert_Some in Hk as [(<- & <- & _)|[_ Hk]]; [done|]. by apply Hi.
Qed.

Lemma indexed_push h x : indexed h → indexed (mh_Push h x).
Proof.
  intros Hi k z Hk. unfold mh_Push in Hk. apply lookup_app_Some in Hk as [Hk|[Hk Hz]]; [by apply Hi|].
  apply list_lookup_singleton_Some in Hz as [Hz <-]. simpl. lia.
Qed.

Lemma indexed_pop h x h' : indexed h → mh_Pop h = Some (x, h') → indexed h'.
Proof.
  intros Hi. unfold mh_Pop. destruct h as [|e h _] using rev_ind; [done|].
  rewrite last_snoc, removelast_last. intros [= _ <-] k z Hk. apply Hi.
  by apply lookup_app_l_Some.
Qed.

Lemma indexed_item h it : indexed h → NoDup (hi_id <$> h.*1) → it ∈ h.*1 →
  ∃ i, item_index h (hi_id it) = Z.of_nat i ∧ h.*1 !! i = Some it.
Proof.
  intros Hi Hnd Hit. unfold item_index.
  destruct (list_find (λ x, hi_id x.1 = hi_id it) h) as [[i x]|] eqn:E.
  - apply list_find_Some in E as (Hx & Hid & _). exists i. rewrite (Hi i x Hx). split; [done|].
    apply list_elem_of_lookup in Hit as [k Hk].
    assert (h.*1 !! i = Some x.1) as Hxi by (by rewrite list_lookup_fmap, Hx).
    replace i with k; [done|]. apply (NoDup_lookup (hi_id <$> h.*1) _ _ (hi_id it) Hnd).
    + by rewrite list_lookup_fmap, Hk.
    + rewrite list_lookup_fmap, Hxi. simpl. by rewrite Hid.
  - exfalso. apply list_find_None in E. apply list_elem_of_fmap in Hit as (x & -> & Hx).
    rewrite Forall_forall in E. by apply (E x Hx).
Qed.

Lemma mh_push h x : mh_ok h → indexed h →
  mh_ok (heap_Push h x) ∧ indexed (heap_Push h x) ∧ (heap_Push h x).*1 ≡ₚ x :: h.*1.
Proof.
  intros H1 H2. destruct (heap_Push_spec item_less (λ _, True) h x H1 I) as [H3 H4].
  split; [done|]. split; [|done].
  apply heap_Push_preserves; [apply indexed_swap|apply indexed_push|done].
Qed.

Lemma mh_pop h : mh_ok h → indexed h → h ≠ [] →
  ∃ x h', heap_Pop h = Some (x, h') ∧ mh_ok h' ∧ indexed h' ∧ x :: h'.*1 ≡ₚ h.*1 ∧
    h.*1 !! 0%nat = Some x ∧ Forall (λ y, deadline x ≤ deadline y) (h.*1).
Proof.
  intros H1 H2 Hne.
  destruct (heap_Pop_spec item_less (λ _, True) h H1) as (x & h' & Hp & Ho & H0 & Hperm & Hmin).
  { simpl. intros E. by apply fmap_nil_inv in E. }
  exists x, h'. split; [done|]. split; [done|]. split.
  { eapply heap_Pop_preserves; [apply indexed_swap|apply indexed_pop|exact H2|exact Hp]. }
  split; [done|]. split; [done|]. eapply Forall_impl; [exact Hmin|].
  intros y Hy. unfold item_less in Hy. by apply Z.ltb_ge in Hy.
Qed.

Lemma mh_remove h i it : mh_ok h → indexed h → h.*1 !! i = Some it →
  ∃ h', heap_remove_index h (Z.of_nat i) = Ret h' ∧ mh_ok h' ∧ indexed h' ∧ it :: h'.*1 ≡ₚ h.*1.
Proof.
  intros H1 H2 Hi. destruct (heap_Remove_spec item_less (λ _, True) h i it H1 Hi) as (h' & Hr & Ho & Hp).
  exists h'. unfold heap_remove_index. rewrite bool_decide_eq_false_2 by lia. rewrite Nat2Z.id, Hr.
  split; [done|]. split; [done|]. split; [|done].
  eapply heap_Remove_preserves; [apply indexed_swap|apply indexed_pop|exact H2|exact Hr].
Qed.

(** The expired items leave the heap, the others stay. *)
Lemma pop_expired_ok fuel h now : mh_ok h → indexed h → (length h ≤ fuel)%nat →
  ∃ l h', pop_expired fuel h now = (l, h') ∧ mh_ok h' ∧ indexed h' ∧ l ++ h'.*1 ≡ₚ h.*1 ∧
    Forall (λ it, deadline it ≤ now) l ∧ Forall (λ it, now < deadline it) (h'.*1).
Proof.
  revert h. induction fuel as [|fuel IH]; intros h H1 H2 Hl; simpl.
  { destruct h; [|simpl in Hl; lia]. exists [], []. by repeat (split; [done|]). }
  destruct (h !! 0%nat) as [top|] eqn:H0.
  2: { destruct h; [|done]. exists [], []. by repeat (split; [done|]). }
  destruct (mh_pop h H1 H2) as (x & h' & Hp & O1 & O2 & Hperm & Hx & Hmin); [by destruct h|].
  rewrite list_lookup_fmap, H0 in Hx. simpl in Hx. injection Hx as Hx.
  case_bool_decide as Hd.
  - exists [], h. do 5 (split; [done|]).
    eapply Forall_impl; [exact Hmin|]. intros y Hy. subst x. simpl in Hy. lia.
  - rewrite Hp. destruct (IH h' O1 O2) as (l & h'' & -> & Q1 & Q2 & Q3 & Q4 & Q5).
    { apply Permutation_length in Hperm. simpl in Hperm. rewrite !length_fmap in Hperm. lia. }
    exists (x :: l), h''. split; [done|]. split; [done|]. split; [done|].
    split; [simpl; by rewrite Q3|]. split; [|done]. constructor; [subst x; lia|done].
Qed.

(** ** Packets of a route *)
Section Correct.
Context `{IP6 : Ip6Parser} `{!Ip6Range} (cfg : agg_config).

Record msg_ok (msg : aggregatorMsg) : Prop := {
  m_user : 0 ≤ userID msg < 2 ^ 32;
  m_port : 0 ≤ port msg < 2 ^ 16;
  m_data : Z.of_nat (length (data msg)) < 2 ^ 16 - 6;
}.

Definition msg_sub (msg : aggregatorMsg) : SubPacket :=
  {| UserID := userID msg; Data := data msg |}.

Lemma route_packet_holds msg size : (HeaderSize ≤ size)%nat → msg_ok msg →
  holds (route_packet msg size) [] ∧ sized (route_packet msg size) [] ∧
  Wp (route_packet msg size) = HeaderSize ∧ BuffSize (route_packet msg size) = size.
Proof.
  intros Hs Hm. unfold route_packet.
  set (p0 := foldl _ _ _).
  assert (holds p0 [] ∧ PayloadLen p0 = 0 ∧ Wp p0 = HeaderSize ∧ BuffSize p0 = size) as (H1 & H2 & H3 & H4).
  { unfold p0. generalize (imap (λ i h, (i, h)) (routingInfo msg)) as l. clear p0.
    destruct (NewPacket_holds size Hs) as [H1 _].
    assert (PayloadLen (NewPacket size) = 0 ∧ Wp (NewPacket size) = HeaderSize ∧
            BuffSize (NewPacket size) = size) as H2 by done.
    revert H1 H2. generalize (NewPacket size) as p. intros p H1 H2 l. revert p H1 H2.
    induction l as [|[i h] l IH]; intros p H1 H2; simpl; [done|]. apply IH.
    - apply SetHopIP_holds; [done|]. intros v. apply HopIPToNet_range.
    - unfold SetHopIP. case_bool_decide; [done|]. by destruct (HopIPToNet h). }
  split.
  - apply SetHopPos_holds, SetProtocol_holds, SetPort_holds; [apply Hm|done].
  - unfold sized, SetHopPos. case_bool_decide; simpl; rewrite H2; done.
Qed.

Definition fits (msg : aggregatorMsg) (size : nat) : Prop :=
  (HeaderSize + 6 + length (data msg) ≤ size)%nat.
#[local] Instance fits_dec msg size : Decision (fits msg size).
Proof. unfold fits. apply _. Defined.

Lemma append_route msg size : (HeaderSize ≤ size)%nat → msg_ok msg →
  ∃ p, AppendUserPacket (route_packet msg size) (userID msg) (data msg)
       = Ret (bool_decide (fits msg size), p) ∧
    let subs := if decide (fits msg size) then [msg_sub msg] else [] in
    holds p subs ∧ sized p subs ∧ BuffSize p = size.
Proof.
  intros Hs Hm. destruct (route_packet_holds msg size Hs Hm) as (Hh & Hz & Hw & Hb).
  pose proof (append_user_packet _ [] (userID msg) (data msg) Hh (m_user _ Hm)) as Ha.
  cbv zeta in Ha. rewrite Hw, Hb in Ha. destruct (decide (fits msg size)) as [Hf|Hf].
  - rewrite decide_True in Ha by (unfold fits in Hf; lia).
    destruct Ha as (p & -> & H1 & H2 & _ & _ & _ & _ & H8). exists p.
    by rewrite bool_decide_eq_true_2.
  - rewrite decide_False in Ha by (unfold fits in Hf; lia). rewrite Ha.
    exists (route_packet msg size). by rewrite bool_decide_eq_false_2.
Qed.

(** ** Sending *)

(** The bytes of [s] are a packet that carries the user packets [subs]. *)
Definition carries (s : sendInfo) (subs : list SubPacket) : Prop :=
  ∃ p, arriving (si_p s) p subs.

Lemma serialize_carries p subs rk next :
  holds p subs → sized p subs → Z.of_nat (length (encode subs)) < 2 ^ 16 →
  ∃ p' buf, SerializeHead p = Ret p' ∧ slice_to (Buf p') (TotalBytes p') = Ret buf ∧
    holds p' subs ∧ carries {| si_p := buf; si_routingKey := rk; si_next := next |} subs ∧
    (0 < length buf)%nat.
Proof.
  intros Hh Hs Hl. pose proof (holds_header_ok p subs Hh Hs) as Hok.
  destruct (SerializeHead_frame p subs Hh Hs Hl) as (p' & Hp & Hf & Hsame).
  exists p', (wire p'). split; [done|].
  pose proof (frame_length _ _ _ Hok Hf) as Hlen.
  rewrite (SerializeHead_buf p subs Hh) in Hp.
  assert (p' = set_Buf p (header_bytes p ++ drop 22 (Buf p))) as -> by congruence.
  assert (PayloadLen p = Z.of_nat (length (encode subs))) as HP by (rewrite Hs; apply Z.mod_small; lia).
  assert (holds (set_Buf p (header_bytes p ++ drop 22 (Buf p))) subs) as Hh'.
  { destruct Hh as [H1 H2 H3 H4 H5 H6 H8 H9 H10 H11]. unfold HeaderSize in *.
    assert (length (header_bytes p) = 22%nat) as L22 by (by apply header_bytes_length; destruct H6).
    split; cbn [set_Buf Buf BuffSize HopPos HopIP PayloadLen Port Protocol Wp]; try done.
    - rewrite length_app, length_drop, L22. lia.
    - rewrite <-H10. unfold slice. unfold HeaderSize. f_equal. rewrite drop_app_ge by lia.
      rewrite L22, drop_drop. done. }
  split.
  { unfold slice_to. rewrite bool_decide_eq_true_2; [done|].
    destruct Hh' as [H1 _ H3 H4 _ _ _ _ _ _]. unfold TotalBytes.
    cbn [set_Buf PayloadLen Buf BuffSize Wp] in *. lia. }
  split; [done|]. split; [|rewrite Hlen; unfold HeaderSize; lia].
  exists p. split; [done|done| |done]. by eapply holds_sub_ok.
Qed.

Lemma send_emerge_ok msg size : (HeaderSize ≤ size)%nat → msg_ok msg →
  ∃ out, send_emerge msg size = Ret out ∧
    if decide (fits msg size) then ∃ s, out = [s] ∧ carries s [msg_sub msg] else out = [].
Proof.
  intros Hs Hm. unfold send_emerge. destruct (append_route msg size Hs Hm) as (p & -> & Hh & Hz & _).
  cbn [go_bind]. destruct (decide (fits msg size)) as [Hf|Hf].
  - rewrite bool_decide_eq_true_2 by done.
    destruct (serialize_carries p [msg_sub msg] (routingKey msg) (nextHop msg) Hh Hz)
      as (p' & buf & -> & Hbuf & _ & Hc & Hlen).
    { rewrite encode_cons, length_app, encode_sub_length. simpl. pose proof (m_data _ Hm). lia. }
    cbn [go_bind]. rewrite Hbuf. cbn [go_bind]. eexists. split; [done|]. unfold flush.
    rewrite bool_decide_eq_false_2 by lia. eauto.
  - rewrite bool_decide_eq_false_2 by done. eauto.
Qed.

(** ** The invariant of a worker

    [G] gives the user packets each batch holds.  [x] is the batch that has
    been written to but not scheduled yet, inside [handleMsg]. *)
Definition items (w : worker) : list HeapItem := (heap w).*1.

Record batch_ok (G : gmap nat (list SubPacket)) (x : option nat) (id : nat) (b : Batch) : Prop := {
  bo_data : ∃ subs, G !! id = Some subs ∧ holds (pkt b) subs ∧
    (heapItem b = None → x ≠ Some id → subs = []) ∧
    (heapItem b ≠ None ∨ x = Some id → sized (pkt b) subs);
  bo_size : BuffSize (pkt b) = BufferSize cfg;
}.

Definition listed (its : list HeapItem) (w : worker) (key : string) (id : nat) : Prop :=
  ∃ b, store w !! id = Some b ∧ RoutingKey b = key ∧
    ∀ i, heapItem b = Some i → ∃ it, it ∈ its ∧ hi_id it = i ∧ hi_batch it = id.

(** [its] are the scheduled items: those in the heap and, inside
    [checkTimeout], those popped but not flushed yet. *)
Record worker_ok (its : list HeapItem) (w : worker) (G : gmap nat (list SubPacket))
    (x : option nat) : Prop := {
  w_heap : mh_ok (heap w);
  w_index : indexed (heap w);
  w_items it : it ∈ its → (hi_id it < fresh w)%nat ∧
    ∃ b, store w !! hi_batch it = Some b ∧ heapItem b = Some (hi_id it);
  w_ids : NoDup (hi_id <$> its);
  w_nodup : NoDup (hi_batch <$> its);
  w_batch id b : store w !! id = Some b → (id < fresh w)%nat ∧ batch_ok G x id b;
  w_listed key ids : batches w !! key = Some ids → ids ≠ [] ∧ ∀ id, id ∈ ids → listed its w key id;
}.

(** The user packets of scheduled items. *)
Definition subs_of (G : gmap nat (list SubPacket)) (its : list HeapItem) : list SubPacket :=
  mjoin ((λ it, default [] (G !! hi_batch it)) <$> its).

Lemma subs_of_ext G G' its : (∀ it, it ∈ its → G' !! hi_batch it = G !! hi_batch it) →
  subs_of G' its = subs_of G its.
Proof.
  intros Hg. unfold subs_of. f_equal. apply list_fmap_ext. intros i it Hit.
  by rewrite Hg by (by eapply list_elem_of_lookup_2).
Qed.

Lemma subs_of_app G l l' : subs_of G (l ++ l') = subs_of G l ++ subs_of G l'.
Proof. unfold subs_of. by rewrite fmap_app, join_app. Qed.

#[export] Instance subs_of_perm G : Proper ((≡ₚ) ==> (≡ₚ)) (subs_of G).
Proof. intros l l' Hl. unfold subs_of. by rewrite Hl. Qed.

Lemma subs_of_other G id subs l : id ∉ hi_batch <$> l → subs_of (<[id := subs]> G) l = subs_of G l.
Proof.
  intros Hid. apply subs_of_ext. intros it Hit. rewrite lookup_insert_ne; [done|]. intros ->. apply Hid.
  by apply list_elem_of_fmap_2.
Qed.

Lemma subs_of_insert G it subs s l : NoDup (hi_batch <$> l) → it ∈ l → G !! hi_batch it = Some subs →
  subs_of (<[hi_batch it := subs ++ [s]]> G) l ≡ₚ subs_of G l ++ [s].
Proof.
  intros Hnd (l1 & l2 & ->)%list_elem_of_split HG.
  rewrite fmap_app, fmap_cons in Hnd. apply NoDup_app in Hnd as (_ & Hd & Hnd).
  apply NoDup_cons in Hnd as [Hn2 _].
  change (it :: l2) with ([it] ++ l2). rewrite !subs_of_app, !(subs_of_other _ _ _ l1), !(subs_of_other _ _ _ l2).
  - unfold subs_of at 2 5. simpl. rewrite lookup_insert_eq, HG. simpl. rewrite !app_nil_r, <-!app_assoc.
    f_equiv. f_equiv. by rewrite Permutation_app_comm.
  - done.
  - intros Hin. by eapply Hd; [|left].
Qed.

(** The user packets waiting in the heap. *)
Definition pending (w : worker) (G : gmap nat (list SubPacket)) : list SubPacket := subs_of G (items w).

Definition unscheduled (w : worker) (G : gmap nat (list SubPacket)) (id : nat) : list SubPacket :=
  match store w !! id with
  | Some b => match heapItem b with None => default [] (G !! id) | Some _ => [] end
  | None => []
  end.

(** The batch [id] stands in the list of the route [key]. *)
Definition in_route (w : worker) (key : string) (id : nat) : Prop :=
  ∃ ids, batches w !! key = Some ids ∧ id ∈ ids.

Lemma new_worker_inv : worker_ok [] new_worker ∅ None.
Proof.
  split; simpl.
  - split; [intros i Hi; simpl in Hi; lia|constructor].
  - intros i y Hy. by rewrite lookup_nil in Hy.
  - by intros it ?%not_elem_of_nil.
  - constructor.
  - constructor.
  - intros id b Hb. by rewrite lookup_empty in Hb.
  - intros key ids Hk. by rewrite lookup_empty in Hk.
Qed.

Hypothesis Hcfg : (HeaderSize ≤ BufferSize cfg)%nat.
Hypothesis Hcfg_max : Z.of_nat (BufferSize cfg) < 2 ^ 16 + Z.of_nat HeaderSize.

(** ** A message that is not sent at once

    A deadline check may be under way: [ps] are the items it has popped and
    not flushed yet. *)
Section Taking.
Variable ps : list HeapItem.
Abbreviation winv w G x := (worker_ok (ps ++ items w) w G x).
Abbreviation listed_ok w := (listed (ps ++ items w) w).
Abbreviation waiting w G := (subs_of G (ps ++ items w)).

(** *** Allocation *)
Lemma alloc_inv w G x b : winv w G x → heapItem b = None →
  holds (pkt b) [] → BuffSize (pkt b) = BufferSize cfg →
  (x = Some (fresh w) → sized (pkt b) []) →
  winv (alloc b w).2 (<[fresh w := []]> G) x ∧
  waiting (alloc b w).2 (<[fresh w := []]> G) = waiting w G.
Proof.
  intros Hinv Hb Hh Hs Hx. destruct Hinv as [H1 H2 H3 H4 H5 H6 H7].
  assert (∀ id b', store w !! id = Some b' → id ≠ fresh w) as Hfresh.
  { intros id b' Hid ->. apply H6 in Hid as [? _]. lia. }
  assert (∀ id b', store w !! id = Some b' → <[fresh w := b]> (store w) !! id = Some b') as Hold.
  { intros id b' Hid. rewrite lookup_insert_ne; [done|]. intros E. by apply (Hfresh id b'). }
  split.
  - split; simpl; try done.
    + intros it Hit. destruct (H3 it Hit) as (Hlt & b' & Hb' & Hi). split; [lia|]. eauto.
    + intros id b' [[<- <-]|[Hne Hid]]%lookup_insert_Some.
      * split; [lia|]. split; [|done]. exists []. rewrite lookup_insert_eq.
        split; [done|]. split; [done|]. split; [done|]. intros [?|?]; [done|auto].
      * destruct (H6 id b' Hid) as [Hlt [(subs & HG & Ho) Hsz]]. split; [lia|]. split; [|done].
        exists subs. by rewrite lookup_insert_ne.
    + intros key ids Hk. destruct (H7 key ids Hk) as [Hne Hall]. split; [done|].
      intros id Hid. destruct (Hall id Hid) as (b' & Hb' & Hr). exists b'. split; [by apply Hold|done].
  - apply subs_of_other. intros (it & E & Hit)%list_elem_of_fmap.
    destruct (H3 it Hit) as (_ & b' & Hb' & _). symmetry in E. by apply (Hfresh _ _ Hb').
Qed.

Lemma new_batch_ok msg now : msg_ok msg → let b := new_batch msg (BufferSize cfg) now in
  heapItem b = None ∧ holds (pkt b) [] ∧ sized (pkt b) [] ∧
  BuffSize (pkt b) = BufferSize cfg ∧ RoutingKey b = routingKey msg.
Proof.
  intros Hm. destruct (route_packet_holds msg (BufferSize cfg) Hcfg Hm) as (H1 & H2 & _ & H4).
  intros b. split; [done|]. split; [done|]. split; [done|]. split; [|done].
  done.
Qed.

Lemma alloc_batches_inv n w G msg now ids w' : winv w G None → msg_ok msg →
  alloc_batches n (new_batch msg (BufferSize cfg) now) w = (ids, w') →
  ∃ G', winv w' G' None ∧ waiting w' G' = waiting w G ∧ batches w' = batches w ∧ length ids = n ∧
    (∀ id b, store w !! id = Some b → store w' !! id = Some b) ∧ items w' = items w ∧
    ∀ id, id ∈ ids → ∃ b, store w' !! id = Some b ∧ RoutingKey b = routingKey msg ∧ heapItem b = None.
Proof.
  intros Hinv Hm. revert w G ids Hinv. induction n as [|n IH]; intros w G ids Hinv Ha; simpl in Ha.
  { injection Ha as <- <-. exists G. repeat (split; [done|]). by intros id ?%not_elem_of_nil. }
  destruct (new_batch_ok msg now Hm) as (N1 & N2 & N3 & N4 & N5).
  set (b := new_batch msg (BufferSize cfg) now) in *.
  destruct (alloc_inv w G None b Hinv N1 N2 N4) as [Hinv1 Hp1]; [done|].
  set (w1 := (alloc b w).2) in *. change {| store := <[fresh w:=b]> (store w); batches := batches w;
    heap := heap w; fresh := S (fresh w) |} with w1 in Ha.
  destruct (alloc_batches n b w1) as [ids1 w2] eqn:Ha1. injection Ha as <- <-.
  destruct (IH w1 _ ids1 Hinv1 Ha1) as (G' & I1 & I2 & I3 & I4 & I5 & I6 & I7).
  assert (store w !! fresh w = None) as Hfr.
  { apply eq_None_not_Some. intros [b' Hb']. apply Hinv in Hb' as [? _]. lia. }
  exists G'. split; [done|]. split; [by rewrite I2|]. split; [done|]. split; [simpl; lia|]. split.
  { intros id b' Hid. apply I5. simpl. rewrite lookup_insert_ne; [done|]. congruence. }
  split; [done|]. intros id [->|Hid]%elem_of_cons; [|by apply I7].
  exists b. split; [apply I5; simpl; apply lookup_insert_eq|done].
Qed.

Lemma select_batch_ok ids uid : ids ≠ [] → 0 ≤ uid →
  ∃ id, select_batch ids uid = Some id ∧ id ∈ ids.
Proof.
  intros Hne Hu. unfold select_batch. destruct ids as [|i ids]; [done|].
  rewrite bool_decide_eq_true_2 by (simpl; lia). case_bool_decide as Hl.
  { exists i. split; [done|left]. }
  destruct (lookup_lt_is_Some_2 (i :: ids) (Z.to_nat (uid `mod` Z.of_nat (length (i :: ids)))))
    as [id Hid].
  { pose proof (Z.mod_pos_bound uid (Z.of_nat (length (i :: ids)))). lia. }
  exists id. split; [done|]. by eapply list_elem_of_lookup_2.
Qed.

Lemma set_batches_inv w G x key ids : winv w G x → ids ≠ [] →
  (∀ id, id ∈ ids → listed_ok w key id) → winv (set_batches (<[key := ids]> (batches w)) w) G x.
Proof.
  intros [H1 H2 H3 H4 H5 H6 H7] Hne Hall. split; try done.
  intros key' ids' Hk. simpl in Hk.
  apply lookup_insert_Some in Hk as [[<- <-]|[_ Hk]]; [done|]. by apply H7.
Qed.

Lemma pick_batch_ok w G msg now : winv w G None → msg_ok msg →
  ∃ id w' G', pick_batch cfg w msg (BufferSize cfg) now = (Some id, w') ∧ winv w' G' None ∧
    waiting w' G' = waiting w G ∧ items w' = items w ∧ in_route w' (routingKey msg) id.
Proof.
  intros Hinv Hm. unfold pick_batch.
  destruct (batches w !! routingKey msg) as [ids|] eqn:Hk; cbn [from_option].
  - destruct (w_listed _ _ _ _ Hinv _ _ Hk) as [Hne Hall].
    destruct (select_batch_ok ids (userID msg) Hne) as (i & Hsel & Hi); [apply Hm|].
    change (id ids) with ids. rewrite Hsel. exists i, w, G. do 4 (split; [done|]). by exists ids.
  - assert (select_batch [] (userID msg) = None) as -> by done.
    set (num := match BatchNumMap cfg !! port msg with Some _ => _ | None => _ end).
    assert (0 < Z.to_nat num)%nat as Hnum.
    { unfold num. destruct (BatchNumMap cfg !! port msg); [case_bool_decide|]; lia. }
    destruct (alloc_batches (Z.to_nat num) _ w) as [ids w1] eqn:Ha.
    destruct (alloc_batches_inv _ _ _ _ _ _ _ Hinv Hm Ha) as (G' & I1 & I2 & I3 & I4 & I5 & I6 & I7).
    rewrite I3, Hk. simpl. rewrite lookup_insert_eq. simpl.
    assert (ids ≠ []) as Hne by (intros ->; simpl in I4; lia).
    destruct (select_batch_ok ids (userID msg) Hne) as (id & -> & Hid); [apply Hm|].
    assert (∀ id, id ∈ ids → listed_ok w1 (routingKey msg) id) as Hall.
    { intros id' Hid'. destruct (I7 id' Hid') as (b & Hb & Hr & Hh). exists b.
      split; [done|]. split; [done|]. intros i. by rewrite Hh. }
    eexists id, _, G'. split; [done|]. rewrite <-I3. split; [by apply set_batches_inv|].
    split; [done|]. split; [done|]. exists ids. split; [apply lookup_insert_eq|done].
Qed.

(** *** Writing to a batch *)
Lemma put_pkt_inv w G id b p subs : winv w G None → store w !! id = Some b →
  holds p subs → sized p subs → BuffSize p = BufferSize cfg →
  winv (put_batch id (set_pkt p b) w) (<[id := subs]> G) (Some id).
Proof.
  intros [H1 H2 H3 H4 H5 H6 H7] Hb Hh Hs Hsz. split; try done.
  - intros it Hit. destruct (H3 it Hit) as (Hlt & b' & Hb' & Hi). split; [done|]. simpl.
    destruct (decide (id = hi_batch it)) as [E|Hne].
    + subst id. rewrite lookup_insert_eq. simplify_eq. eexists. split; [done|]. done.
    + rewrite lookup_insert_ne by done. eauto.
  - intros i b' Hi. simpl in Hi. apply lookup_insert_Some in Hi as [[<- <-]|[Hne Hi]].
    + destruct (H6 id b Hb) as [Hlt _]. split; [done|]. split; [|done]. exists subs.
      rewrite lookup_insert_eq. done.
    + destruct (H6 i b' Hi) as [Hlt [(subs' & HG & Ho1 & Ho2 & Ho3) Hz]]. split; [done|].
      split; [|done]. exists subs'. rewrite lookup_insert_ne by done.
      split; [done|]. split; [done|]. split; [auto|]. intros [?|[= ?]]; auto.
  - intros key ids Hk. destruct (H7 key ids Hk) as [Hne Hall]. split; [done|].
    intros i Hi. destruct (Hall i Hi) as (b' & Hb' & Hr & Hit). unfold listed. simpl.
    destruct (decide (id = i)) as [->|Hne'].
    + rewrite lookup_insert_eq. simplify_eq. eexists. split; [done|]. done.
    + rewrite lookup_insert_ne by done. eauto.
Qed.

(** What [append_batch] guarantees: the message is in its batch, scheduled or
    about to be. *)
Definition appended (w : worker) (G : gmap nat (list SubPacket)) (msg : aggregatorMsg)
    (r : go (nat * worker)) : Prop :=
  ∃ id w' G', r = Ret (id, w') ∧ winv w' G' (Some id) ∧ is_Some (store w' !! id) ∧
    items w' = items w ∧ waiting w' G' ++ unscheduled w' G' id ≡ₚ
      waiting w G ++ (if decide (fits msg (BufferSize cfg)) then [msg_sub msg] else []).

Lemma overflow_ok w G msg now : winv w G None → msg_ok msg →
  appended w G msg (overflow_batch w msg (BufferSize cfg) now).
Proof.
  intros Hinv Hm. unfold overflow_batch. destruct (new_batch_ok msg now Hm) as (N1 & N2 & N3 & N4 & N5).
  set (b := new_batch msg (BufferSize cfg) now) in *.
  destruct (alloc_inv w G None b Hinv N1 N2 N4) as [Hinv1 Hp1]; [done|].
  unfold alloc at 1. set (w1 := (alloc b w).2) in *.
  change {| store := <[fresh w:=b]> (store w); batches := batches w; heap := heap w;
    fresh := S (fresh w) |} with w1.
  destruct (append_route msg (BufferSize cfg) Hcfg Hm) as (p & -> & Hh & Hs & Hsz).
  cbn [go_bind snd].
  assert (store w1 !! fresh w = Some b) as Hb1 by apply lookup_insert_eq.
  set (w2 := set_batches _ w1).
  assert (winv w2 (<[fresh w := []]> G) None) as Hinv2.
  { apply set_batches_inv; [done|by destruct (default [] _)|].
    intros id [Hid| ->%list_elem_of_singleton]%elem_of_app.
    - destruct (batches w1 !! routingKey msg) as [ids|] eqn:Hk; [|by apply not_elem_of_nil in Hid].
      by apply (w_listed _ _ _ _ Hinv1 _ _ Hk).
    - exists b. split; [done|]. split; [done|]. by rewrite N1. }
  set (subs := if decide (fits msg (BufferSize cfg)) then [msg_sub msg] else []) in *.
  exists (fresh w), (put_batch (fresh w) (set_pkt p b) w2), (<[fresh w := subs]> (<[fresh w := []]> G)).
  split; [done|]. split; [by apply put_pkt_inv|]. split; [simpl; rewrite lookup_insert_eq; eauto|].
  split; [done|]. unfold unscheduled. simpl. rewrite !lookup_insert_eq. simpl.
  rewrite <-Hp1. f_equiv; [|done]. apply reflexive_eq.
  refine (subs_of_other (<[fresh w := []]> G) (fresh w) subs _ _).
  intros (it & Hid & Hit)%list_elem_of_fmap.
  apply (w_items _ _ _ _ Hinv) in Hit as (_ & b' & Hb' & _). rewrite <-Hid in Hb'.
  apply (w_batch _ _ _ _ Hinv) in Hb' as [? _]. lia.
Qed.

Lemma append_ok w G id msg now : winv w G None → msg_ok msg → in_route w (routingKey msg) id →
  appended w G msg (append_batch w id msg (BufferSize cfg) now).
Proof.
  intros Hinv Hm (ids & Hk & Hids). destruct (w_listed _ _ _ _ Hinv _ _ Hk) as [_ Hall].
  destruct (Hall id Hids) as (b & Hb & _ & Hlist). clear Hall. unfold append_batch. rewrite Hb.
  destruct (w_batch _ _ _ _ Hinv id b Hb) as [Hlt [(subs & HG & Hh & Hnone & Hsized) Hsz]].
  case_bool_decide as Hc; [by apply overflow_ok|].
  pose proof (append_user_packet (pkt b) subs (userID msg) (data msg) Hh (m_user _ Hm)) as Ha.
  cbv zeta in Ha. case_decide as Hfit; [|rewrite Ha; by apply overflow_ok].
  destruct Ha as (p & -> & Hh' & Hs' & _ & _ & _ & _ & Hsz'). cbn [go_bind].
  unfold appended. rewrite decide_True.
  2: { unfold fits. pose proof (h_wp _ _ Hh). lia. }
  exists id, (put_batch id (set_pkt p b) w), (<[id := subs ++ [msg_sub msg]]> G).
  split; [done|]. split; [apply put_pkt_inv; try done; by rewrite Hsz'|].
  split; [simpl; rewrite lookup_insert_eq; eauto|]. split; [done|].
  unfold unscheduled. simpl. rewrite !lookup_insert_eq. simpl.
  destruct (heapItem b) as [i|] eqn:Hi.
  - rewrite app_nil_r. destruct (Hlist i eq_refl) as (it & Hit & Hid & Hbt).
    rewrite <-Hbt in HG |- *.
    exact (subs_of_insert G it subs (msg_sub msg) _ (w_nodup _ _ _ _ Hinv) Hit HG).
  - rewrite Hnone in * by done. simpl. f_equiv. apply reflexive_eq.
    refine (subs_of_other G id _ _ _). intros (it & Hid & Hit)%list_elem_of_fmap.
    apply (w_items _ _ _ _ Hinv) in Hit as (_ & b' & Hb' & Hi'). congruence.
Qed.

Lemma schedule_ok w G id now : winv w G (Some id) → is_Some (store w !! id) →
  ∃ w', schedule cfg w id now = Ret w' ∧ winv w' G None ∧
    waiting w' G ≡ₚ waiting w G ++ unscheduled w G id ∧
    Forall (λ it, it ∈ items w ∨ deadline it = now + BatchTimeout cfg) (items w') ∧
    (length (items w') ≤ S (length (items w)))%nat.
Proof.
  intros Hinv [b Hb]. unfold schedule, unscheduled. rewrite Hb.
  destruct (w_batch _ _ _ _ Hinv id b Hb) as [Hlt [(subs & HG & Hh & _ & Hsized) Hsz]].
  pose proof Hinv as [H1 H2 H3 H4 H5 H6 H7].
  destruct (heapItem b) as [i|] eqn:Hi.
  { exists w. split; [done|]. rewrite app_nil_r.
    split; [|split; [done|split; [by apply Forall_forall; left|lia]]]. split; try done.
    intros id' b' Hb'. destruct (H6 id' b' Hb') as [Hlt' [(subs' & G' & A1 & A2 & A3) Hz']].
    split; [done|]. split; [|done]. exists subs'. split; [done|]. split; [done|]. split.
    - intros Hn _. apply A2; [done|]. intros [= <-]. congruence.
    - intros [?|?]; [auto|done]. }
  set (item := {| hi_id := fresh w; hi_batch := id; deadline := now + BatchTimeout cfg |}).
  destruct (mh_push (heap w) item H1 H2) as (P1 & P2 & P3).
  assert (ps ++ (heap_Push (heap w) item).*1 ≡ₚ item :: ps ++ items w) as P4.
  { rewrite P3. symmetry. apply Permutation_middle. }
  assert (id ∉ hi_batch <$> ps ++ items w) as Hnew.
  { intros (it & Hid & Hit)%list_elem_of_fmap. apply H3 in Hit as (_ & b' & Hb' & Hi'). congruence. }
  eexists. split; [done|]. unfold items. simpl. split.
  - split; simpl; try done.
    + intros it. rewrite P4. intros [->|Hit]%elem_of_cons.
      * simpl. split; [lia|]. rewrite lookup_insert_eq. eexists. done.
      * destruct (H3 it Hit) as (Hlt' & b' & Hb' & Hi'). split; [lia|].
        rewrite lookup_insert_ne by congruence. eauto.
    + rewrite P4, fmap_cons. apply NoDup_cons. split; [|done].
      intros (it & Hid & Hit)%list_elem_of_fmap. apply H3 in Hit as (? & _). simpl in Hid. lia.
    + rewrite P4, fmap_cons. by apply NoDup_cons.
    + intros id' b' [[<- <-]|[Hne Hid]]%lookup_insert_Some.
      * split; [lia|]. split; [|done]. exists subs. split; [done|]. split; [done|].
        split; [done|]. intros _. simpl. apply Hsized. by right.
      * destruct (H6 id' b' Hid) as [Hlt' [(subs' & G' & A1 & A2 & A3) Hz']]. split; [lia|].
        split; [|done]. exists subs'. split; [done|]. split; [done|]. split.
        -- intros Hn _. apply A2; [done|congruence].
        -- intros [?|?]; [auto|done].
    + intros key ids Hk. destruct (H7 key ids Hk) as [Hne Hall]. split; [done|].
      intros id' Hid'. destruct (Hall id' Hid') as (b' & Hb' & Hr & Hit).
      unfold listed. simpl. setoid_rewrite P4. setoid_rewrite elem_of_cons.
      destruct (decide (id = id')) as [->|Hne'].
      * rewrite lookup_insert_eq. simplify_eq. eexists. split; [done|]. split; [done|].
        intros i [= <-]. exists item. auto.
      * rewrite lookup_insert_ne by done. exists b'. split; [done|]. split; [done|].
        intros i Hb''. destruct (Hit i Hb'') as (it & ? & ?). eauto.
  - rewrite P4. split; [exact (Permutation_app_comm (default [] (G !! id)) (waiting w G))|].
    rewrite P3. split; [constructor; [by right|]; apply Forall_forall; by left|done].
Qed.

(** The two steps together: the message is in a scheduled batch. *)
Lemma handle_append_ok w G id msg now : winv w G None → msg_ok msg → in_route w (routingKey msg) id →
  ∃ w' G', handle_append cfg w id msg now = Ret w' ∧ winv w' G' None ∧
    waiting w' G' ≡ₚ waiting w G ++ (if decide (fits msg (BufferSize cfg)) then [msg_sub msg] else []) ∧
    Forall (λ it, it ∈ items w ∨ deadline it = now + BatchTimeout cfg) (items w') ∧
    (length (items w') ≤ S (length (items w)))%nat.
Proof.
  intros Hinv Hm Hr. unfold handle_append.
  destruct (append_ok w G id msg now Hinv Hm Hr) as (id2 & w2 & G2 & -> & I2 & S2 & T2 & P2).
  cbn [go_bind]. destruct (schedule_ok w2 G2 id2 now I2 S2) as (w3 & -> & I3 & P3 & T3 & L3).
  exists w3, G2. rewrite T2 in T3, L3. split; [done|]. split; [done|]. by rewrite P3, P2.
Qed.
End Taking.

Abbreviation winv w G x := (worker_ok (items w) w G x).

(** ** [handleMsg] *)

(** The message goes through: a small or urgent one always fits its own packet. *)
Definition is_small (msg : aggregatorMsg) : bool :=
  bool_decide (length (data msg) < 128)%nat || bool_decide (BatchTimeout cfg ≤ 20 * millisecond).

Definition accepted (msg : aggregatorMsg) : Prop :=
  is_small msg = true ∨ fits msg (BufferSize cfg).
#[local] Instance accepted_dec msg : Decision (accepted msg).
Proof. unfold accepted. apply _. Defined.

Lemma handleMsg_ok w G msg now : winv w G None → msg_ok msg →
  ∃ w' G' out outs, handleMsg cfg w msg now = Ret (w', out) ∧ winv w' G' None ∧
    Forall2 carries out outs ∧
    pending w' G' ++ mjoin outs ≡ₚ
      pending w G ++ (if decide (accepted msg) then [msg_sub msg] else []) ∧
    Forall (λ it, it ∈ items w ∨ deadline it = now + BatchTimeout cfg) (items w').
Proof.
  intros Hinv Hm. unfold handleMsg. fold (is_small msg).
  destruct (is_small msg || emerge msg) eqn:He.
  - set (size := if is_small msg then _ else _).
    assert (HeaderSize ≤ size)%nat as Hsize by (unfold size; destruct (is_small msg); lia).
    destruct (send_emerge_ok msg size Hsize Hm) as (out & -> & Hout). cbn [go_bind].
    assert (fits msg size ↔ accepted msg) as Hacc.
    { unfold accepted, size. destruct (is_small msg) eqn:Hsm.
      - split; [by left|]. intros _. unfold fits. lia.
      - split; [by right|]. by intros [?|?]. }
    destruct (decide (fits msg size)) as [Hf|Hf].
    + destruct Hout as (s & -> & Hc). exists w, G, [s], [[msg_sub msg]].
      split; [done|]. split; [done|]. split; [by repeat constructor|].
      rewrite decide_True by tauto. split; [done|]. by apply Forall_forall; left.
    + subst out. exists w, G, [], []. split; [done|]. split; [done|]. split; [constructor|].
      rewrite decide_False by tauto. split; [done|]. by apply Forall_forall; left.
  - apply orb_false_iff in He as [Hsm _]. rewrite Hsm.
    destruct (pick_batch_ok [] w G msg now Hinv Hm) as (id & w1 & G1 & -> & I1 & P1 & T1 & L1).
    destruct (handle_append_ok [] w1 G1 id msg now I1 Hm L1) as (w3 & G3 & E3 & I3 & P3 & T3 & _).
    unfold handle_append in E3. destruct (append_batch _ _ _ _ _) as [[id2 w2]|]; [|done].
    cbn [go_bind] in E3 |- *. rewrite E3. cbn [go_bind]. exists w3, G3, [], [].
    split; [done|]. split; [done|]. split; [constructor|]. rewrite T1 in T3. split; [|done].
    simpl in P3, P1 |- *. unfold pending. rewrite app_nil_r, P3, P1. f_equiv.
    destruct (decide (fits msg (BufferSize cfg))); [by rewrite decide_True by (by right)|].
    rewrite (decide_False (P := accepted msg)); [done|]. intros [?|?]; [congruence|done].
Qed.

(** ** [checkTimeout] *)
Lemma worker_ok_perm its its' w G x : its ≡ₚ its' → worker_ok its w G x → worker_ok its' w G x.
Proof.
  intros Hp [H1 H2 H3 H4 H5 H6 H7]. split; try done.
  - intros it. rewrite <-Hp. apply H3.
  - by rewrite <-Hp.
  - by rewrite <-Hp.
  - intros key ids Hk. destruct (H7 key ids Hk) as [Hne Hall]. split; [done|].
    intros id Hid. destruct (Hall id Hid) as (b & Hb & Hr & Hi). exists b.
    split; [done|]. split; [done|]. intros i Hbi. destruct (Hi i Hbi) as (it & Hit & ?).
    exists it. by rewrite <-Hp.
Qed.

Lemma flush_item_ok it its w G now : worker_ok (it :: its) w G None →
  ∃ w' s subs, flush_item w it now = Ret (w', s) ∧ G !! hi_batch it = Some subs ∧
    carries s subs ∧ (0 < length (si_p s))%nat ∧ heap w' = heap w ∧
    worker_ok its w' (<[hi_batch it := []]> G) None.
Proof.
  intros [H1 H2 H3 H4 H5 H6 H7]. destruct (H3 it) as (Hlt & b & Hb & Hi); [left|].
  destruct (H6 _ _ Hb) as [Hltb [(subs & HG & Hh & _ & Hs) Hsz]].
  unfold flush_item. rewrite Hb.
  assert (Z.of_nat (length (encode subs)) < 2 ^ 16) as Hlen.
  { pose proof (h_wp _ _ Hh). pose proof (h_fit _ _ Hh). lia. }
  assert (heapItem b ≠ None) as Hsome by (by rewrite Hi).
  destruct (serialize_carries (pkt b) subs (RoutingKey b) (NextHop b) Hh) as (p & buf & E1 & E2 & Hp & Hc & Hl);
    [auto|done|]. rewrite E1. cbn [go_bind]. rewrite E2. cbn [go_bind].
  do 3 eexists. split; [done|]. split; [done|]. split; [done|]. split; [done|]. split; [done|].
  apply NoDup_cons in H4 as [N1 H4]. apply NoDup_cons in H5 as [N2 H5].
  assert (∀ it', it' ∈ its → hi_batch it ≠ hi_batch it') as Hother.
  { intros it' Hit' E. apply N2. rewrite E. by apply list_elem_of_fmap_2. }
  split; try done; simpl.
  - intros it' Hit'. destruct (H3 it') as (Hlt' & b' & Hb' & Hi'); [by right|]. split; [done|].
    rewrite lookup_insert_ne by auto. eauto.
  - intros id b' [[<- <-]|[Hne Hid]]%lookup_insert_Some.
    + split; [done|]. split.
      * exists []. rewrite lookup_insert_eq. split; [done|]. split; [|split; [done|by intros [?|?]]].
        destruct Hp as [A1 A2 A3 A4 A5 A6 A8 A9 A10 A11].
        by split.
      * simpl. rewrite (SerializeHead_buf _ _ Hh) in E1.
        by injection E1 as <-.
    + destruct (H6 id b' Hid) as [Hlt' [(subs' & HG' & Hrest) Hz']]. split; [done|].
      split; [|done]. exists subs'. by rewrite lookup_insert_ne.
  - intros key ids Hk. destruct (H7 key ids Hk) as [Hne Hall]. split; [done|].
    intros id Hid. destruct (Hall id Hid) as (b' & Hb' & Hr & Hit). unfold listed. simpl.
    destruct (decide (hi_batch it = id)) as [E|Hne'].
    + subst id. rewrite lookup_insert_eq. eexists. split; [done|]. simplify_eq. done.
    + rewrite lookup_insert_ne by done. exists b'. split; [done|]. split; [done|].
      intros i Hbi. destruct (Hit i Hbi) as (it' & Hin & Hid' & Hbt).
      apply elem_of_cons in Hin as [->|Hin]; [done|]. eauto.
Qed.

Lemma flush_items_ok l its w G now : worker_ok (l ++ its) w G None →
  ∃ w' toSend outs G', flush_items w l now = Ret (w', toSend) ∧ Forall2 carries toSend outs ∧
    Forall (λ s, (0 < length (si_p s))%nat) toSend ∧ mjoin outs = subs_of G l ∧
    worker_ok its w' G' None ∧ heap w' = heap w ∧
    ∀ it, it ∈ its → G' !! hi_batch it = G !! hi_batch it.
Proof.
  revert w G. induction l as [|it l IH]; intros w G Hok.
  { exists w, [], [], G. split; [done|]. split; [constructor|]. split; [constructor|]. done. }
  destruct (flush_item_ok it (l ++ its) w G now Hok) as (w1 & s & subs & E1 & HG & Hc & Hl & Hh & Hok1).
  destruct (IH w1 _ Hok1) as (w2 & toSend & outs & G2 & E2 & F2 & L2 & M2 & Hok2 & Hh2 & HG2).
  pose proof (w_nodup _ _ _ _ Hok) as Hnd. simpl in Hnd. apply NoDup_cons in Hnd as [Hnd _].
  assert (∀ it', it' ∈ l ++ its → <[hi_batch it := []]> G !! hi_batch it' = G !! hi_batch it') as Hext.
  { intros it' Hin. rewrite lookup_insert_ne; [done|]. intros E. apply Hnd. rewrite E.
    by apply list_elem_of_fmap_2. }
  exists w2, (s :: toSend), (subs :: outs), G2. simpl. rewrite E1. cbn [go_bind]. rewrite E2.
  split; [done|]. split; [by constructor|]. split; [by constructor|]. split.
  { rewrite M2. unfold subs_of at 2. simpl. rewrite HG. simpl. f_equal. apply subs_of_ext.
    intros it' Hin. apply Hext, elem_of_app. by left. }
  split; [done|]. split; [congruence|]. intros it' Hin. rewrite HG2 by done. apply Hext, elem_of_app.
  by right.
Qed.

Lemma flush_all toSend : Forall (λ s, (0 < length (si_p s))%nat) toSend →
  mjoin ((λ s, flush (si_p s) (si_routingKey s) (si_next s)) <$> toSend) = toSend.
Proof.
  induction 1 as [|s l Hs Hl IH]; [done|]. rewrite fmap_cons, mjoin_cons, IH.
  unfold flush.
  rewrite bool_decide_eq_false_2 by lia. by destruct s.
Qed.

Lemma set_heap_ok h its w G x : worker_ok its w G x → mh_ok h → indexed h →
  worker_ok its (set_heap h w) G x.
Proof. by intros [H1 H2 H3 H4 H5 H6 H7] Hh Hi; split. Qed.

Lemma checkTimeout_ok w G now : winv w G None →
  ∃ w' G' out outs, checkTimeout w now = Ret (w', out) ∧ winv w' G' None ∧
    Forall2 carries out outs ∧ pending w' G' ++ mjoin outs ≡ₚ pending w G ∧
    Forall (λ it, now < deadline it) (items w') ∧ items w' ⊆ items w.
Proof.
  intros Hinv. unfold checkTimeout.
  destruct (pop_expired_ok (length (heap w)) (heap w) now) as (l & h & -> & O1 & O2 & Hp & _ & Hlate);
    [apply Hinv|apply Hinv|done|].
  assert (worker_ok (l ++ h.*1) (set_heap h w) G None) as Hok.
  { apply set_heap_ok; [|done..]. by apply (worker_ok_perm (items w)). }
  destruct (flush_items_ok l (h.*1) (set_heap h w) G now Hok)
    as (w' & toSend & outs & G' & -> & F & L & M & Hok' & Hh & HG).
  cbn [go_bind]. rewrite flush_all by done. exists w', G', toSend, outs.
  assert (items w' = h.*1) as Hit by (unfold items; by rewrite Hh). rewrite Hit.
  split; [done|]. split; [done|]. split; [done|]. split; [|split; [done|]].
  - unfold pending. rewrite Hit, M. fold (subs_of G' (h.*1)). rewrite (subs_of_ext G G') by done.
    unfold subs_of, items. rewrite <-Hp, fmap_app, join_app. apply Permutation_app_comm.
  - intros it Hin. unfold items. rewrite <-Hp. apply elem_of_app. by right.
Qed.

(** ** Runs *)
Inductive agg_op := OpMsg (msg : aggregatorMsg) | OpTick.

Definition agg_step (w : worker) (op : agg_op) (now : Z) : go (worker * list sendInfo) :=
  match op with
  | OpMsg msg => handleMsg cfg w msg now
  | OpTick => checkTimeout w now
  end.

Fixpoint agg_run (w : worker) (ops : list (agg_op * Z)) : go (worker * list sendInfo) :=
  match ops with
  | [] => Ret (w, [])
  | (op, now) :: ops =>
      let! (w, out) := agg_step w op now in
      let! (w, out') := agg_run w ops in
      Ret (w, out ++ out')
  end.

(** The user packets the aggregator takes in. *)
Definition op_subs (op : agg_op) : list SubPacket :=
  match op with
  | OpMsg msg => if decide (accepted msg) then [msg_sub msg] else []
  | OpTick => []
  end.

Definition op_ok (op : agg_op) : Prop :=
  match op with OpMsg msg => msg_ok msg | OpTick => True end.

Lemma agg_step_ok w G op now : winv w G None → op_ok op →
  ∃ w' G' out outs, agg_step w op now = Ret (w', out) ∧ winv w' G' None ∧
    Forall2 carries out outs ∧ pending w' G' ++ mjoin outs ≡ₚ pending w G ++ op_subs op ∧
    Forall (λ it, it ∈ items w ∨ deadline it = now + BatchTimeout cfg) (items w').
Proof.
  intros Hinv Hop. destruct op as [msg|]; simpl.
  - by apply handleMsg_ok.
  - destruct (checkTimeout_ok w G now Hinv) as (w' & G' & out & outs & H1 & H2 & H3 & H4 & _ & H6).
    exists w', G', out, outs. rewrite app_nil_r. do 4 (split; [done|]).
    apply Forall_forall. intros it Hit. left. by apply H6.
Qed.

Lemma agg_run_ok w G ops T : winv w G None → Forall (λ p, op_ok p.1 ∧ p.2 ≤ T) ops →
  Forall (λ it, deadline it ≤ T + BatchTimeout cfg) (items w) →
  ∃ w' G' out outs, agg_run w ops = Ret (w', out) ∧ winv w' G' None ∧
    Forall2 carries out outs ∧
    pending w' G' ++ mjoin outs ≡ₚ pending w G ++ mjoin ((λ p, op_subs p.1) <$> ops) ∧
    Forall (λ it, deadline it ≤ T + BatchTimeout cfg) (items w').
Proof.
  intros Hinv Hops. revert w G Hinv.
  induction Hops as [|[op now] ops [Hop Hnow] Hops IH]; intros w G Hinv Hdl.
  { exists w, G, [], []. by repeat (split; [done|]). }
  destruct (agg_step_ok w G op now Hinv Hop) as (w1 & G1 & o1 & s1 & E1 & I1 & F1 & P1 & D1).
  destruct (IH w1 G1 I1) as (w2 & G2 & o2 & s2 & E2 & I2 & F2 & P2 & D2).
  { eapply Forall_impl; [exact D1|]. simpl in Hnow. intros it [Hit| ->]; [|lia].
    rewrite Forall_forall in Hdl. by apply Hdl. }
  exists w2, G2, (o1 ++ o2), (s1 ++ s2). simpl. rewrite E1. cbn [go_bind]. rewrite E2.
  split; [done|]. split; [done|]. split; [by apply Forall2_app|].
  split; [|done]. rewrite join_app. simpl. rewrite (Permutation_app_comm (mjoin s1)), app_assoc, P2.
  rewrite <-app_assoc, (Permutation_app_comm _ (mjoin s1)), app_assoc, P1. by rewrite app_assoc.
Qed.

(** Nothing is lost or duplicated in the aggregator.  Take any sequence of
    messages and timeout checks, at times up to [T], from an empty worker,
    and a check after the last batch timeout: the worker never panics, and the
    packets it sent carry exactly the accepted messages, each once. *)
Theorem aggregator_delivers ops T now :
  Forall (λ p, op_ok p.1 ∧ p.2 ≤ T) ops → T + BatchTimeout cfg ≤ now →
  ∃ w out outs, agg_run new_worker (ops ++ [(OpTick, now)]) = Ret (w, out) ∧
    Forall2 carries out outs ∧ mjoin outs ≡ₚ mjoin ((λ p, op_subs p.1) <$> ops) ∧ heap w = [].
Proof.
  intros Hops Hnow.
  destruct (agg_run_ok new_worker ∅ ops T new_worker_inv Hops) as (w1 & G1 & o1 & s1 & E1 & I1 & F1 & P1 & D1);
    [constructor|].
  destruct (checkTimeout_ok w1 G1 now I1) as (w2 & G2 & o2 & s2 & E2 & I2 & F2 & P2 & L2 & S2).
  assert (agg_run new_worker (ops ++ [(OpTick, now)]) = Ret (w2, o1 ++ o2)) as Hrun.
  { revert E1 E2. generalize new_worker as w0. clear. revert o1.
    induction ops as [|[op t] ops IH]; intros o1 w0 E1 E2; simpl in *.
    - injection E1 as -> <-. rewrite E2. simpl. by rewrite app_nil_r.
    - destruct (agg_step w0 op t) as [[w' o']|]; [|done]. cbn [go_bind] in *.
      destruct (agg_run w' ops) as [[w'' o'']|] eqn:Er; [|done]. cbn [go_bind] in *.
      injection E1 as -> <-. rewrite (IH o'' w' Er E2). cbn [go_bind]. by rewrite app_assoc. }
  assert (items w2 = []) as Hempty.
  { destruct (items w2) as [|it l] eqn:Hit; [done|]. exfalso.
    assert (it ∈ items w1) as Hin by (apply S2; left).
    rewrite Forall_forall in D1. specialize (D1 it Hin).
    apply Forall_cons in L2 as [L2 _]. lia. }
  exists w2, (o1 ++ o2), (s1 ++ s2). split; [done|]. split; [by apply Forall2_app|]. split.
  - rewrite join_app. unfold pending in P1, P2. rewrite Hempty in P2. simpl in P1, P2.
    by rewrite P2, Permutation_app_comm, P1.
  - by apply fmap_nil_inv in Hempty.
Qed.
End Correct.

(** ** What the aggregator gets wrong *)

Definition sample_cfg : agg_config :=
  {| BufferSize := 1400; BatchTimeout := 100 * millisecond; BatchNumMap := ∅ |}.

Definition sample_msg (uid p : Z) : aggregatorMsg :=
  {| emerge := false; routingKey := "10.0.0.1,10.0.0.2,10.0.0.3"; protocol := "tcp"; port := p;
     routingInfo := ["10.0.0.1"; "10.0.0.2"; "10.0.0.3"]; nextHop := Some 167772162;
     userID := uid; data := repeat 65 200 |}.

Definition second : Z := 1000 * millisecond.

(** The worker after a message at time 0, its flush, and a second message
    60.2 seconds later. *)
Definition idle_then_message : go (worker * list sendInfo) :=
  @agg_run no_ip6 sample_cfg new_worker
    [(OpMsg (sample_msg 1 80), 0); (OpTick, 200 * millisecond);
     (OpMsg (sample_msg 2 80), 60 * second + 300 * millisecond)].

(** The eviction of stale batches loses data.  A route that was idle for
    more than a minute counts as stale even when a message has just been put
    into its batch: an eviction that runs before the batch timeout drops the
    batch and its deadline, and the message is never sent. *)
Theorem evict_loses_message :
  ∃ w out w', idle_then_message = Ret (w, out) ∧ length (heap w) = 1%nat ∧ length out = 1%nat ∧
    @evictStaleBatches list_order w (60 * second + 310 * millisecond) = Ret w' ∧
    heap w' = [] ∧ batches w' = ∅ ∧
    checkTimeout w' (61 * second) = Ret (w', []).
Proof.
  destruct idle_then_message as [[w out]|] eqn:E; [|vm_compute in E; discriminate].
  exists w, out. vm_compute in E. injection E as <- <-.
  match goal with |- context [evictStaleBatches ?w0 ?t] =>
    destruct (evictStaleBatches w0 t) as [w'|] eqn:E; [|vm_compute in E; discriminate] end.
  exists w'. vm_compute in E. injection E as <-.
  split; [reflexivity|]. split; [reflexivity|]. split; [reflexivity|]. split; [reflexivity|].
  split; [reflexivity|]. split; [reflexivity|]. vm_compute. reflexivity.
Qed.

(** The timeout check and the eviction race to a crash: after the check has
    taken an expired item out of the heap, and before it has reset the batch,
    an eviction of that batch removes the item at index -1, which panics. *)
Theorem evict_race_panics :
  ∃ w out expired h, idle_then_message = Ret (w, out) ∧
    pop_expired (length (heap w)) (heap w) (60 * second + 500 * millisecond) = (expired, h) ∧
    expired ≠ [] ∧
    panics (@evictStaleBatches list_order (set_heap h w) (60 * second + 500 * millisecond)).
Proof.
  destruct idle_then_message as [[w out]|] eqn:E; [|vm_compute in E; discriminate].
  exists w, out. vm_compute in E. injection E as <- <-.
  do 2 eexists. split; [reflexivity|]. split; [vm_compute; reflexivity|]. split; [discriminate|].
  eexists. vm_compute. reflexivity.
Qed.

(** Batches are keyed by the hops without the origin's port, so two origin
    ports on one host share a batch: the second message leaves in a packet
    addressed to the port of the first. *)
Theorem batch_shares_port :
  ∃ w s, @agg_run no_ip6 sample_cfg new_worker
      [(OpMsg (sample_msg 1 80), 0); (OpMsg (sample_msg 2 443), 1);
       (OpTick, 200 * millisecond)] = Ret (w, [s]) ∧
    match Parse (si_p s) (length (si_p s)) with
    | Ret (inl (h, subs)) => Port h = 80 ∧ UserID <$> subs = [1; 2]
    | _ => False
    end.
Proof.
  do 2 eexists. split; [vm_compute; reflexivity|]. vm_compute. split; reflexivity.
Qed.

(** ** Instances of the theorems *)
#[export] Instance no_ip6_range : @Ip6Range no_ip6.
Proof. by intros s v. Qed.

Lemma sample_msg_ok uid p : 0 ≤ uid < 2 ^ 32 → 0 ≤ p < 2 ^ 16 → msg_ok (sample_msg uid p).
Proof. intros Hu Hp. split; [done|done|]. change (length (data (sample_msg uid p))) with 200%nat. lia. Qed.

Lemma aggregator_delivers_witness : ∃ w out outs,
  @agg_run no_ip6 sample_cfg new_worker
    ([(OpMsg (sample_msg 1 80), 0); (OpMsg (sample_msg 2 80), 1)] ++ [(OpTick, 200 * millisecond)])
    = Ret (w, out) ∧
  Forall2 carries out outs ∧ mjoin outs ≡ₚ [msg_sub (sample_msg 1 80); msg_sub (sample_msg 2 80)].
Proof.
  destruct (@aggregator_delivers no_ip6 no_ip6_range sample_cfg) with
    (ops := [(OpMsg (sample_msg 1 80), 0); (OpMsg (sample_msg 2 80), 1)]) (T := 1)
    (now := 200 * millisecond) as (w & out & outs & H1 & H2 & H3 & _).
  - vm_compute. lia.
  - reflexivity.
  - rewrite !Forall_cons. split; [|split; [|constructor]]; (split; [apply sample_msg_ok; lia|simpl; lia]).
  - vm_compute. discriminate.
  - exists w, out, outs. split; [exact H1|]. split; [exact H2|]. exact H3.
Defined.
