(* ===== verification/Eviction.v ===== *)
(** * The eviction of stale batches

    [evictStaleBatches] of the aggregator run between the other operations of
    a worker: it never panics there, it keeps the invariant of the worker, and
    the only user packets it loses are those waiting in the batches of a route
    that has a stale batch. *)
From S2P Require Import Prelude GoHeap GoStrings Net Packet Tunnel Aggregator Batching.
Local Open Scope Z_scope.
Local Open Scope go_scope.

#[export] Instance HeapItem_eq_dec : EqDecision HeapItem.
Proof. solve_decision. Defined.

(** ** The lists of batches

    A batch stands once in the list of its route. *)
Definition lists_ok (w : worker) : Prop :=
  ∀ key ids, batches w !! key = Some ids → NoDup ids ∧ ∀ id, id ∈ ids → (id < fresh w)%nat.

Lemma lists_ok_same w w' : batches w' = batches w → (fresh w ≤ fresh w')%nat →
  lists_ok w → lists_ok w'.
Proof.
  intros Hb Hf Hl key ids Hk. rewrite Hb in Hk. destruct (Hl key ids Hk) as [Hn Hlt].
  split; [done|]. intros id Hid. specialize (Hlt id Hid). lia.
Qed.

Lemma lists_ok_insert w key ids : lists_ok w → NoDup ids → (∀ id, id ∈ ids → (id < fresh w)%nat) →
  lists_ok (set_batches (<[key := ids]> (batches w)) w).
Proof.
  intros Hl Hn Hlt key' ids' Hk. simpl in Hk.
  apply lookup_insert_Some in Hk as [[<- <-]|[_ Hk]]; [done|]. by apply (Hl key').
Qed.

Lemma alloc_batches_lists n b w ids w' : lists_ok w → alloc_batches n b w = (ids, w') →
  lists_ok w' ∧ NoDup ids ∧ batches w' = batches w ∧ (fresh w ≤ fresh w')%nat ∧
  ∀ id, id ∈ ids → (fresh w ≤ id < fresh w')%nat.
Proof.
  revert w ids. induction n as [|n IH]; intros w ids Hl Ha; simpl in Ha.
  { injection Ha as <- <-. split; [done|]. split; [constructor|]. split; [done|]. split; [done|].
    by intros id ?%not_elem_of_nil. }
  unfold alloc in Ha. match type of Ha with context [alloc_batches n b ?x] => set (w1 := x) in * end.
  destruct (alloc_batches n b w1) as [ids1 w2] eqn:E. injection Ha as <- <-.
  destruct (IH w1 ids1) as (I1 & I2 & I3 & I4 & I5); [|done|].
  { apply (lists_ok_same w); [done|simpl; lia|done]. }
  subst w1. simpl in I4, I5. split; [done|]. split.
  { apply NoDup_cons. split; [|done]. intros Hin%I5. lia. }
  split; [done|]. split; [lia|]. intros id [->|Hid%I5]%elem_of_cons; lia.
Qed.

Section Lists.
Context `{IP6 : Ip6Parser} (cfg : agg_config).

Lemma pick_batch_lists w msg size now picked w' : lists_ok w →
  pick_batch cfg w msg size now = (picked, w') → lists_ok w'.
Proof.
  intros Hl. unfold pick_batch. destruct (select_batch _ _); [by intros [= _ <-]|].
  destruct (alloc_batches _ _ w) as [ids w1] eqn:Ha.
  destruct (alloc_batches_lists _ _ _ _ _ Hl Ha) as (I1 & I2 & I3 & I4 & I5).
  intros [= _ <-]. destruct (batches w1 !! routingKey msg); [done|].
  apply lists_ok_insert; [done|done|]. intros id Hid%I5. lia.
Qed.

Lemma overflow_batch_lists w msg size now id w' : lists_ok w →
  overflow_batch w msg size now = Ret (id, w') → lists_ok w'.
Proof.
  intros Hl. unfold overflow_batch, alloc.
  match goal with |- context [set_batches _ ?x] => set (w1 := x) end.
  assert (lists_ok w1) as Hl1 by (apply (lists_ok_same w); [done|simpl; lia|done]).
  destruct (AppendUserPacket _ _ _) as [r|]; [|done]. cbn [go_bind]. intros [= _ <-].
  eapply (lists_ok_same (set_batches _ w1)); [done|done|].
  change (batches w) with (batches w1). apply lists_ok_insert; [done|..].
  - destruct (batches w1 !! routingKey msg) as [ids|] eqn:Hk; simpl; [|apply NoDup_singleton].
    destruct (Hl _ _ Hk) as [Hn Hlt]. apply NoDup_app. split; [done|].
    split; [|apply NoDup_singleton]. intros x Hx ->%list_elem_of_singleton. specialize (Hlt _ Hx). lia.
  - intros x [Hx| ->%list_elem_of_singleton]%elem_of_app; [|simpl; lia].
    destruct (batches w1 !! routingKey msg) as [ids|] eqn:Hk; simpl in Hx; [|by apply not_elem_of_nil in Hx].
    destruct (Hl _ _ Hk) as [_ Hlt]. specialize (Hlt _ Hx). simpl. lia.
Qed.

Lemma append_batch_lists w id msg size now id' w' : lists_ok w →
  append_batch w id msg size now = Ret (id', w') → lists_ok w'.
Proof.
  intros Hl. unfold append_batch. destruct (store w !! id) as [b|]; [|done].
  case_bool_decide; [by apply overflow_batch_lists|].
  destruct (AppendUserPacket _ _ _) as [[[] p]|]; [|by apply overflow_batch_lists|done].
  intros [= _ <-]. by apply (lists_ok_same w).
Qed.

Lemma schedule_lists w id now w' : lists_ok w → schedule cfg w id now = Ret w' → lists_ok w'.
Proof.
  intros Hl. unfold schedule. destruct (store w !! id) as [b|]; [|done].
  destruct (heapItem b); intros [= <-]; [done|]. apply (lists_ok_same w); [done|simpl; lia|done].
Qed.

(** The three steps of a message that is not sent at once. *)
Lemma store_message_lists w msg size now w' (out : list sendInfo) : lists_ok w →
  (let '(picked, w) := pick_batch cfg w msg size now in
   match picked with
   | None => Ret (w, [])
   | Some id =>
       let! (id, w) := append_batch w id msg size now in
       let! w := schedule cfg w id now in
       Ret (w, [])
   end) = Ret (w', out) → lists_ok w'.
Proof.
  intros Hl. destruct (pick_batch cfg w msg size now) as [picked w1] eqn:E1.
  apply pick_batch_lists in E1; [|done]. destruct picked as [id|]; [|by intros [= <- _]].
  destruct (append_batch w1 id msg size now) as [[id2 w2]|] eqn:E2; [|done]. cbn [go_bind].
  apply append_batch_lists in E2; [|done].
  destruct (schedule cfg w2 id2 now) as [w3|] eqn:E3; [|done]. cbn [go_bind].
  apply schedule_lists in E3; [|done]. by intros [= <- _].
Qed.

Lemma handleMsg_lists w msg now w' out : lists_ok w →
  handleMsg cfg w msg now = Ret (w', out) → lists_ok w'.
Proof.
  intros Hl. unfold handleMsg. destruct (_ || _); [|by apply store_message_lists].
  destruct (send_emerge _ _); [|done]. cbn [go_bind]. by intros [= <- _].
Qed.

Lemma handle_append_lists w id msg now w' : lists_ok w →
  handle_append cfg w id msg now = Ret w' → lists_ok w'.
Proof.
  intros Hl. unfold handle_append. destruct (append_batch _ _ _ _ _) as [[id2 w2]|] eqn:E; [|done].
  cbn [go_bind]. apply schedule_lists. by eapply append_batch_lists.
Qed.
End Lists.

Lemma flush_item_frame it w now w' s : flush_item w it now = Ret (w', s) →
  batches w' = batches w ∧ fresh w' = fresh w.
Proof.
  unfold flush_item. destruct (store w !! hi_batch it) as [b|]; [|done].
  destruct (SerializeHead _) as [p|]; [|done]. cbn [go_bind].
  destruct (slice_to _ _) as [buf|]; [|done]. cbn [go_bind]. by intros [= <- _].
Qed.

Lemma flush_items_frame l w now w' out : flush_items w l now = Ret (w', out) →
  batches w' = batches w ∧ fresh w' = fresh w.
Proof.
  revert w out. induction l as [|it l IH]; intros w out; simpl; [by intros [= <- _]|].
  destruct (flush_item w it now) as [[w1 s1]|] eqn:E1; [|done]. cbn [go_bind].
  destruct (flush_items w1 l now) as [[w2 out2]|] eqn:E; [|done]. cbn [go_bind].
  intros [= <- _]. apply flush_item_frame in E1 as [<- <-]. by apply IH in E.
Qed.

Lemma checkTimeout_lists w now w' out : lists_ok w → checkTimeout w now = Ret (w', out) → lists_ok w'.
Proof.
  intros Hl. unfold checkTimeout. destruct (pop_expired _ _ _) as [l h].
  destruct (flush_items _ l now) as [[w2 out2]|] eqn:E; [|done]. cbn [go_bind].
  intros [= <- _]. apply flush_items_frame in E as [Hb Hf]. by apply (lists_ok_same w); [|rewrite Hf|].
Qed.

(** ** Removing the items of a route *)
Definition outside (ids : list nat) (it : HeapItem) : Prop := hi_batch it ∉ ids.
#[export] Instance outside_dec ids it : Decision (outside ids it).
Proof. unfold outside. apply _. Defined.

Lemma filter_outside_cons id ids (l : list HeapItem) : id ∉ hi_batch <$> l →
  filter (outside (id :: ids)) l = filter (outside ids) l.
Proof.
  induction l as [|it l IH]; [done|]. rewrite fmap_cons, not_elem_of_cons. intros [Hne Hn].
  rewrite !filter_cons, IH by done.
  repeat case_decide; unfold outside in *; rewrite ?not_elem_of_cons in *; (done || naive_solver).
Qed.

(** The heap and the batches it schedules point to each other. *)
Record linked (w : worker) (its : list HeapItem) : Prop := {
  l_ids : NoDup (hi_id <$> its);
  l_batches : NoDup (hi_batch <$> its);
  l_back it : it ∈ its → ∃ b, store w !! hi_batch it = Some b ∧ heapItem b = Some (hi_id it);
}.

Lemma linked_perm w its its' : its ≡ₚ its' → linked w its → linked w its'.
Proof. intros Hp [H1 H2 H3]. split; [by rewrite <-Hp..|]. intros it. rewrite <-Hp. apply H3. Qed.

Lemma linked_cons w it its : linked w (it :: its) → linked w its ∧ hi_batch it ∉ hi_batch <$> its.
Proof.
  intros [H1 H2 H3]. rewrite fmap_cons in H1, H2.
  apply NoDup_cons in H1 as [_ H1]. apply NoDup_cons in H2 as [Hn H2].
  split; [|done]. split; [done|done|]. intros it' Hit. apply H3. by right.
Qed.

Lemma remove_items_ok w ids h : mh_ok h → indexed h → linked w (h.*1) → NoDup ids →
  (∀ id b i, id ∈ ids → store w !! id = Some b → heapItem b = Some i →
     ∃ it, it ∈ h.*1 ∧ hi_id it = i ∧ hi_batch it = id) →
  ∃ h', remove_items w ids h = Ret h' ∧ mh_ok h' ∧ indexed h' ∧
    h'.*1 ≡ₚ filter (outside ids) (h.*1).
Proof.
  revert h. induction ids as [|id ids IH]; intros h Ho Hi Hl Hn Hlist; simpl.
  { exists h. do 3 (split; [done|]). apply reflexive_eq. symmetry. clear.
    induction (h.*1) as [|it l IH]; [done|]. rewrite filter_cons_True by apply not_elem_of_nil. by rewrite IH. }
  apply NoDup_cons in Hn as [Hid Hn].
  destruct (heapItem <$> store w !! id) as [[i|]|] eqn:Hb.
  - apply fmap_Some in Hb as (b & Hb & Hbi). symmetry in Hbi.
    destruct (Hlist id b i) as (it & Hit & <- & <-); [left|done|done|].
    destruct (indexed_item h it Hi (l_ids _ _ Hl) Hit) as (k & -> & Hk).
    destruct (mh_remove h k it Ho Hi Hk) as (h1 & -> & Ho1 & Hi1 & Hp). cbn [go_bind].
    destruct (linked_cons w it (h1.*1)) as [Hl1 Hnew]; [by eapply linked_perm; [symmetry|]|].
    destruct (IH h1 Ho1 Hi1 Hl1 Hn) as (h' & -> & Ho' & Hi' & Hp').
    { intros id' b' i' Hid' Hb' Hi''. destruct (Hlist id' b' i') as (it' & Hit' & <- & <-); [by right|done|done|].
      exists it'. split; [|done]. rewrite <-Hp in Hit'. apply elem_of_cons in Hit' as [->|]; done. }
    exists h'. do 3 (split; [done|]). rewrite Hp', <-Hp, filter_cons_False.
    { by rewrite filter_outside_cons. }
    intros Hout. apply Hout. left.
  - apply fmap_Some in Hb as (b & Hb & Hbi).
    destruct (IH h Ho Hi Hl Hn) as (h' & -> & Ho' & Hi' & Hp').
    { intros id' b' i' Hid'. apply Hlist. by right. }
    exists h'. do 3 (split; [done|]). rewrite filter_outside_cons; [done|].
    intros (it & -> & Hit)%list_elem_of_fmap. apply (l_back _ _ Hl) in Hit as (b' & ? & ?). congruence.
  - apply fmap_None in Hb. destruct (IH h Ho Hi Hl Hn) as (h' & -> & Ho' & Hi' & Hp').
    { intros id' b' i' Hid'. apply Hlist. by right. }
    exists h'. do 3 (split; [done|]). rewrite filter_outside_cons; [done|].
    intros (it & -> & Hit)%list_elem_of_fmap. apply (l_back _ _ Hl) in Hit as (b' & ? & ?). congruence.
Qed.

(** ** One route *)
Section Evict.
Context (cfg : agg_config).

Lemma winv_linked w G : worker_ok cfg (items w) w G None → linked w (items w).
Proof.
  intros [H1 H2 H3 H4 H5 H6 H7]. split; [done|done|]. intros it Hit. by apply H3 in Hit as [_ ?].
Qed.

(** The routes an eviction removes. *)
Definition stale_route (w : worker) (now : Z) (v : list nat) : Prop :=
  existsb (is_stale w now) v = true.

(** What an eviction, complete or after some routes, has done: the items [D]
    are gone, each with a batch of a stale route. *)
Record evicted (w : worker) (now : Z) (D : list HeapItem) (w' : worker) : Prop := {
  e_store : store w' = store w;
  e_fresh : fresh w' = fresh w;
  e_batches : batches w' ⊆ batches w;
  e_items : items w' ++ D ≡ₚ items w;
  e_stale it : it ∈ D → ∃ key v, batches w !! key = Some v ∧ stale_route w now v ∧ hi_batch it ∈ v;
}.

Lemma evicted_refl w now : evicted w now [] w.
Proof. split; [done|done|done|by rewrite app_nil_r|]. by intros it ?%not_elem_of_nil. Qed.

Lemma evicted_trans w now D w1 D' w2 : evicted w now D w1 → evicted w1 now D' w2 →
  evicted w now (D' ++ D) w2.
Proof.
  intros [A1 A2 A3 A4 A5] [B1 B2 B3 B4 B5]. split; [congruence|congruence|by etrans|..].
  - by rewrite app_assoc, B4.
  - intros it [Hit|Hit]%elem_of_app; [|by apply A5].
    destruct (B5 it Hit) as (key & v & Hk & Hs & Hv). exists key, v.
    split; [by eapply lookup_weaken|]. split; [|done]. unfold stale_route in *.
    rewrite <-Hs. clear -A1. induction v as [|id v IH]; [done|]. simpl. rewrite IH.
    unfold is_stale. by rewrite A1.
Qed.

Lemma filter_split (P : HeapItem → Prop) `{∀ x, Decision (P x)} (l : list HeapItem) :
  filter P l ++ filter (λ x, ¬ P x) l ≡ₚ l.
Proof.
  induction l as [|x l IH]; [done|]. destruct (decide (P x)) as [Hp|Hp].
  - rewrite filter_cons_True, filter_cons_False by tauto. simpl. by rewrite IH.
  - rewrite filter_cons_False, filter_cons_True by tauto. by rewrite <-Permutation_middle, IH.
Qed.

(** A stale route loses its batches, the others keep theirs. *)
Lemma drop_route_inv w G key v h : worker_ok cfg (items w) w G None → batches w !! key = Some v →
  mh_ok h → indexed h → h.*1 ≡ₚ filter (outside v) (items w) →
  let w' := set_batches (delete key (batches w)) (set_heap h w) in
  worker_ok cfg (items w') w' G None.
Proof.
  intros [H1 H2 H3 H4 H5 H6 H7] Hk Ho Hi Hp w'.
  assert (items w' = h.*1) as Hit by done.
  assert (h.*1 ⊆ items w) as Hsub.
  { intros it. rewrite Hp. by intros [_ ?]%list_elem_of_filter. }
  assert (∀ f : HeapItem → nat, NoDup (f <$> items w) → NoDup (f <$> h.*1)) as Hnd.
  { intros f Hn. rewrite Hp. eapply sublist_NoDup; [exact Hn|]. apply fmap_sublist, sublist_filter. }
  split; try done; rewrite ?Hit; auto.
  intros key' ids Hk'. simpl in Hk'. apply lookup_delete_Some in Hk' as [Hne Hk'].
  destruct (H7 key' ids Hk') as [Hne' Hall]. split; [done|]. intros id Hid.
  destruct (Hall id Hid) as (b & Hb & Hr & Hbi). exists b. split; [done|]. split; [done|].
  intros i Hi'. destruct (Hbi i Hi') as (it & Hin & <- & <-). exists it. split; [|done].
  rewrite Hp. apply list_elem_of_filter. split; [|done]. intros Hv.
  destruct (H7 key v Hk) as [_ Hall']. destruct (Hall' _ Hv) as (b' & Hb' & Hr' & _). congruence.
Qed.

Lemma evict_key_ok w G now key v : worker_ok cfg (items w) w G None → lists_ok w →
  batches w !! key = Some v →
  ∃ w' D, evict_key w now key v = Ret w' ∧ worker_ok cfg (items w') w' G None ∧ lists_ok w' ∧
    evicted w now D w' ∧ delete key (batches w) ⊆ batches w'.
Proof.
  intros Hinv Hl Hk. unfold evict_key. destruct (existsb (is_stale w now) v) eqn:Hs.
  2: { exists w, []. do 3 (split; [done|]). split; [apply evicted_refl|apply delete_subseteq]. }
  destruct (remove_items_ok w v (heap w)) as (h & -> & Ho & Hi & Hp);
    [apply Hinv|apply Hinv|by eapply winv_linked|by apply (Hl key)| |].
  { intros id b i Hid Hb Hbi. destruct (w_listed _ _ _ _ _ Hinv key v Hk) as [_ Hall].
    destruct (Hall id Hid) as (b' & Hb' & _ & Hlist). simplify_eq. eauto. }
  cbn [go_bind]. do 2 eexists. split; [done|]. split; [by eapply drop_route_inv|]. split.
  { intros key' ids Hk'. simpl in Hk'. apply lookup_delete_Some in Hk' as [_ Hk']. by apply (Hl key'). }
  split; [|done]. split; [done|done|apply delete_subseteq|..].
  - unfold items at 1. simpl. rewrite Hp. apply filter_split.
  - intros it [Hout Hit]%list_elem_of_filter. exists key, v. split; [done|]. split; [done|].
    unfold outside in Hout. by apply dec_stable.
Qed.

Lemma evict_keys_ok l w G now : worker_ok cfg (items w) w G None → lists_ok w →
  NoDup (l.*1) → Forall (λ kv, batches w !! kv.1 = Some kv.2) l →
  ∃ w' D, evict_keys w now l = Ret w' ∧ worker_ok cfg (items w') w' G None ∧ lists_ok w' ∧
    evicted w now D w'.
Proof.
  revert w. induction l as [|[key v] l IH]; intros w Hinv Hl Hn Hall; simpl.
  { exists w, []. do 3 (split; [done|]). apply evicted_refl. }
  simpl in Hn. apply NoDup_cons in Hn as [Hkey Hn]. apply Forall_cons in Hall as [Hk Hall].
  destruct (evict_key_ok w G now key v Hinv Hl Hk) as (w1 & D1 & -> & I1 & L1 & E1 & Hdel). cbn [go_bind].
  destruct (IH w1 I1 L1 Hn) as (w2 & D2 & -> & I2 & L2 & E2).
  { apply Forall_forall. intros [key' v'] Hin. rewrite Forall_forall in Hall.
    eapply lookup_weaken; [|exact Hdel]. apply lookup_delete_Some. split; [|by apply (Hall _ Hin)].
    intros ->. apply Hkey. by apply (list_elem_of_fmap_2 fst _ (key', v')). }
  exists w2, (D2 ++ D1). do 3 (split; [done|]). by eapply evicted_trans.
Qed.

Lemma evict_ok `{RangeOrder} w G now : worker_ok cfg (items w) w G None → lists_ok w →
  ∃ w' D, evictStaleBatches w now = Ret w' ∧ worker_ok cfg (items w') w' G None ∧ lists_ok w' ∧
    evicted w now D w'.
Proof.
  intros Hinv Hl. apply evict_keys_ok; [done|done|apply range_map_NoDup|].
  apply Forall_forall. intros [k v] Hkv. by apply range_map_elem in Hkv.
Qed.
End Evict.

(** ** An eviction during a deadline check

    An item the check has popped, and not flushed yet, is still the [heapItem]
    of its batch; its index is -1. *)
Definition off_heap (i : nat) (h : MinHeap) : Prop := i ∉ hi_id <$> h.*1.

Lemma off_heap_swap i h j k : off_heap i h → off_heap i (mh_Swap h j k).
Proof.
  unfold off_heap. intros Hi. destruct (decide (j < length h ∧ k < length h)%nat) as [[Hj Hk]|Hn].
  - rewrite mh_Swap_vals by done. by rewrite swap_perm by (by rewrite length_fmap).
  - unfold mh_Swap. destruct (h !! j) eqn:Ej, (h !! k) eqn:Ek; try done.
    apply lookup_lt_Some in Ej. apply lookup_lt_Some in Ek. lia.
Qed.

Lemma off_heap_pop i h x h' : off_heap i h → mh_Pop h = Some (x, h') → off_heap i h'.
Proof.
  unfold off_heap, mh_Pop. destruct h as [|e h _] using rev_ind; [done|].
  rewrite last_snoc, removelast_last, !fmap_app, elem_of_app. intros Hi [= _ <-]. tauto.
Qed.

Lemma off_heap_index i h : off_heap i h → item_index h i = -1.
Proof.
  unfold off_heap, item_index. intros Hi. destruct (list_find _ h) as [[k x]|] eqn:E; [|done].
  apply list_find_Some in E as (Hx & Hid & _). exfalso. apply Hi. rewrite <-Hid.
  by apply (list_elem_of_fmap_2 hi_id), (list_elem_of_fmap_2 fst), (list_elem_of_lookup_2 _ k).
Qed.

Lemma off_heap_remove i h k h' : off_heap i h → heap_remove_index h k = Ret h' → off_heap i h'.
Proof.
  intros Hi. unfold heap_remove_index. case_bool_decide; [done|].
  destruct (heap_Remove h (Z.to_nat k)) as [[x h1]|] eqn:E; [|done]. intros [= <-].
  eapply (heap_Remove_preserves (off_heap i)); [intros ? ? ?; apply off_heap_swap| |exact Hi|exact E].
  intros ? ? ?. apply off_heap_pop.
Qed.

Lemma off_heap_removes i w ids h h' : off_heap i h → remove_items w ids h = Ret h' → off_heap i h'.
Proof.
  revert h. induction ids as [|id ids IH]; intros h Hi; simpl; [by intros [= <-]|].
  destruct (heapItem <$> store w !! id) as [[j|]|]; [|by apply IH..].
  destruct (heap_remove_index _ _) as [h1|] eqn:E; [|done]. cbn [go_bind]. apply IH.
  by eapply off_heap_remove.
Qed.

Lemma remove_items_panics i w ids h id b : off_heap i h → id ∈ ids → store w !! id = Some b →
  heapItem b = Some i → panics (remove_items w ids h).
Proof.
  intros Hi Hid Hb Hbi. revert h Hi. induction ids as [|id' ids IH]; intros h Hi; simpl; [by apply not_elem_of_nil in Hid|].
  apply elem_of_cons in Hid as [<-|Hid].
  - rewrite Hb. simpl. rewrite Hbi, off_heap_index by done. by eexists.
  - destruct (heapItem <$> store w !! id') as [[j|]|]; [|by apply IH..].
    destruct (heap_remove_index _ _) as [h1|] eqn:E; [|by eexists]. cbn [go_bind]. apply IH; [done|].
    by eapply off_heap_remove.
Qed.

Lemma evict_keys_panics w0 now l w i key v id b : store w = store w0 → off_heap i (heap w) →
  (key, v) ∈ l → stale_route w0 now v → id ∈ v → store w0 !! id = Some b → heapItem b = Some i →
  panics (evict_keys w now l).
Proof.
  intros Hst Hi Hkv Hstale Hid Hb Hbi. revert w Hst Hi. induction l as [|[k' v'] l IH];
    intros w Hst Hi; [by apply not_elem_of_nil in Hkv|]. simpl. unfold evict_key.
  assert (∀ u, existsb (is_stale w now) u = existsb (is_stale w0 now) u) as Hs.
  { intros u. induction u as [|x u IHu]; [done|]. simpl. rewrite IHu. unfold is_stale. by rewrite Hst. }
  apply elem_of_cons in Hkv as [[= <- <-]|Hkv].
  - rewrite Hs, Hstale. destruct (remove_items_panics i w v (heap w) id b) as [e ->]; [done|done|by rewrite Hst|done|].
    by eexists.
  - destruct (existsb _ v'); [|by apply IH]. destruct (remove_items w v' (heap w)) as [h|] eqn:E; [|by eexists].
    cbn [go_bind]. apply IH; [done|done|]. simpl. by eapply off_heap_removes.
Qed.

(** Such an eviction crashes when it takes the route of that batch. *)
Lemma evict_popped_panics `{RangeOrder} cfg ps w G now it key v :
  worker_ok cfg (ps ++ items w) w G None → it ∈ ps → batches w !! key = Some v → hi_batch it ∈ v →
  stale_route w now v → panics (evictStaleBatches w now).
Proof.
  intros Hok Hit Hk Hv Hs. destruct (w_items _ _ _ _ _ Hok it) as (_ & b & Hb & Hbi); [apply elem_of_app; by left|].
  apply (evict_keys_panics w now _ w (hi_id it) key v (hi_batch it) b); try done.
  - pose proof (w_ids _ _ _ _ _ Hok) as Hnd. rewrite fmap_app in Hnd. apply NoDup_app in Hnd as (_ & Hd & _).
    intros Hin. apply (Hd (hi_id it)); [by apply list_elem_of_fmap_2|done].
  - by apply range_map_elem.
Qed.
