(* ===== verification/AggPool.v ===== *)
(** * The aggregator: its workers behind one channel

    [Aggregator] and [AggregatorV2] have the same shape: [AddToBatch] puts a
    message into a channel; every worker has three goroutines, one that takes
    messages out of the channel and puts them into the worker's batches
    ([handleMsg]), one that flushes the batches whose deadline has passed
    ([checkTimeout]) and one that evicts stale batches.  They share the worker
    and its locks, so the pool is a machine whose steps are their critical
    sections: [handleMsg] picks a batch, lets the worker's lock go, and appends
    under the batch's lock; [checkTimeout] pops the expired items, lets the lock
    go, flushes one batch after the other under its own lock, and sends.  The
    steps of the goroutines interleave in any order.

    An eviction looks at items and batches without the batches' locks, and it is
    not safe while one of the two other goroutines of its worker is in the middle
    of a message or of a check.  The theorems of delivery are about runs in which
    an eviction does not overlap either of them ([evictions_apart]); in these the
    whole eviction of a worker is one step, since nothing else touches the worker
    meanwhile.  [evict_popped_panics] and [evict_handling_loses] show what happens
    otherwise.

    The pool is modelled once, over an interface [AggImpl] with the steps that
    the versions do differently, and its theorems are proved from the laws
    [AggLaws]; [aggregator.go] is the first instance. *)
From S2P Require Import Prelude GoHeap GoStrings Net Packet Tunnel Aggregator Batching Eviction.
Local Open Scope Z_scope.
Local Open Scope go_scope.

Definition inputChanSize : nat := Z.to_nat 100000.
Definition aggWorkerNum : Z := 8.

(** The steps of the goroutines of worker [i]: a message up to the choice of
    its batch (with what is sent at once), its appending to the batch, and the
    flush of one expired item; [ai_late] when the flushed packets are sent
    only after the last flush of the check. *)
Class AggImpl := {
  ai_pick : nat → worker → aggregatorMsg → Z → go (option nat * worker * list sendInfo);
  ai_append : worker → nat → aggregatorMsg → Z → go worker;
  ai_flush : worker → HeapItem → Z → go (worker * sendInfo);
  ai_late : bool;
}.

(** A worker and the local state of its goroutines: the message in hand with
    the batch picked for it, the items popped but not flushed by the deadline
    check that began at time [checked], and the packets it still has to send. *)
Record cell := {
  c_worker : worker;
  handling : option (aggregatorMsg * nat);
  popped : list HeapItem;
  checked : Z;
  toSend : list sendInfo;
}.

Record pool := {
  inputChan : list aggregatorMsg;
  workers : list cell;
}.

Definition new_cell : cell :=
  {| c_worker := new_worker; handling := None; popped := []; checked := 0; toSend := [] |}.

(** [make([]*worker, n)], every worker new. *)
Definition new_pool (n : nat) : pool := {| inputChan := []; workers := replicate n new_cell |}.

(** The number of workers: the configured one, or the default. *)
Definition worker_count (cfgNum default : Z) : nat :=
  Z.to_nat (if bool_decide (cfgNum ≤ 0) then default else cfgNum).

Definition NewAggregator (AggWorkerNum : Z) : pool := new_pool (worker_count AggWorkerNum aggWorkerNum).

(** [AddToBatch]: a send on the channel, which waits while the channel is
    full. *)
Definition AddToBatch (p : pool) (msg : aggregatorMsg) : option pool :=
  if bool_decide (length (inputChan p) < inputChanSize)%nat
  then Some {| inputChan := inputChan p ++ [msg]; workers := workers p |}
  else None.

(** ** Runs

    An operation whose goroutine waits, or is not at that point, leaves the
    pool as it is.  The events record what happened. *)
Inductive cell_op := CAppend | CPop | CFlush | CSend | CEvict.
Inductive pool_op := PAdd (msg : aggregatorMsg) | PTake (i : nat) | PCell (i : nat) (op : cell_op).

Inductive event :=
  | Added (msg : aggregatorMsg) | Took (i : nat) (msg : aggregatorMsg)
  | Sent (s : sendInfo) | Dropped (b : Batch).

(** The batches that lost their deadline in an eviction from [w] to [w']. *)
Definition dropped_batches (w w' : worker) : list Batch :=
  omap (λ it, store w !! hi_batch it) (filter (λ it, it ∉ items w') (items w)).

Section Pool.
Context `{RangeOrder} `{AggImpl}.

(** One step of a goroutine of a worker. *)
Definition cell_step (c : cell) (op : cell_op) (now : Z) : go (cell * list event) :=
  let w := c_worker c in
  match op with
  | CAppend =>
      match handling c with
      | None => Ret (c, [])
      | Some (msg, id) =>
          let! w := ai_append w id msg now in
          Ret ({| c_worker := w; handling := None; popped := popped c; checked := checked c;
                  toSend := toSend c |}, [])
      end
  | CPop =>
      match popped c, toSend c with
      | [], [] =>
          let '(expired, h) := pop_expired (length (heap w)) (heap w) now in
          Ret ({| c_worker := set_heap h w; handling := handling c; popped := expired;
                  checked := now; toSend := [] |}, [])
      | _, _ => Ret (c, [])
      end
  | CFlush =>
      match popped c with
      | [] => Ret (c, [])
      | it :: rest =>
          let! (w, s) := ai_flush w it (checked c) in
          Ret ({| c_worker := w; handling := handling c; popped := rest; checked := checked c;
                  toSend := if ai_late then toSend c ++ [s] else toSend c |},
               if ai_late then [] else [Sent s])
      end
  | CSend =>
      match popped c, toSend c with
      | [], s :: rest =>
          Ret ({| c_worker := w; handling := handling c; popped := []; checked := checked c;
                  toSend := rest |},
               Sent <$> flush (si_p s) (si_routingKey s) (si_next s))
      | _, _ => Ret (c, [])
      end
  | CEvict =>
      let! w' := evictStaleBatches w now in
      Ret ({| c_worker := w'; handling := handling c; popped := popped c; checked := checked c;
              toSend := toSend c |}, Dropped <$> dropped_batches w w')
  end.

Definition pool_step (p : pool) (op : pool_op) (now : Z) : go (pool * list event) :=
  match op with
  | PAdd msg =>
      Ret (match AddToBatch p msg with Some p => (p, [Added msg]) | None => (p, []) end)
  | PTake i =>
      match workers p !! i, inputChan p with
      | Some c, msg :: rest =>
          match handling c with
          | Some _ => Ret (p, [])
          | None =>
              let! (picked, w, out) := ai_pick i (c_worker c) msg now in
              let c := {| c_worker := w; handling := pair msg <$> picked; popped := popped c;
                          checked := checked c; toSend := toSend c |} in
              Ret ({| inputChan := rest; workers := <[i := c]> (workers p) |},
                   Took i msg :: (Sent <$> out))
          end
      | _, _ => Ret (p, [])
      end
  | PCell i op =>
      match workers p !! i with
      | Some c =>
          let! (c, evs) := cell_step c op now in
          Ret ({| inputChan := inputChan p; workers := <[i := c]> (workers p) |}, evs)
      | None => Ret (p, [])
      end
  end.

Fixpoint pool_run (p : pool) (ops : list (pool_op * Z)) : go (pool * list event) :=
  match ops with
  | [] => Ret (p, [])
  | (op, now) :: ops =>
      let! (p, evs) := pool_step p op now in
      let! (p, evs') := pool_run p ops in
      Ret (p, evs ++ evs')
  end.

(** Evictions that do not fall into the middle of a message or of a deadline
    check of their worker. *)
Definition at_rest (c : cell) : bool :=
  match handling c, popped c with None, [] => true | _, _ => false end.

Definition apart (p : pool) (op : pool_op) : bool :=
  match op with
  | PCell i CEvict => from_option at_rest true (workers p !! i)
  | _ => true
  end.

Fixpoint evictions_apart (p : pool) (ops : list (pool_op * Z)) : bool :=
  match ops with
  | [] => true
  | (op, now) :: ops =>
      apart p op &&
      match pool_step p op now with Ret (p, _) => evictions_apart p ops | Panic _ => true end
  end.

(** *** Coming to rest

    A worker that gets no further message ends what it is doing, by time [T],
    and makes one more check, at time [now]. *)
Fixpoint cell_run (c : cell) (ops : list (cell_op * Z)) : go (cell * list event) :=
  match ops with
  | [] => Ret (c, [])
  | (op, now) :: ops =>
      let! (c, evs) := cell_step c op now in
      let! (c, evs') := cell_run c ops in
      Ret (c, evs ++ evs')
  end.

Definition backlog (c : cell) : nat :=
  S (length (heap (c_worker c)) + length (popped c) + length (toSend c)).

Definition finish_ops (k : nat) (T now : Z) : list (cell_op * Z) :=
  (CAppend, T) :: replicate k (CFlush, T) ++ replicate k (CSend, T) ++
  (CPop, now) :: replicate k (CFlush, now) ++ replicate k (CSend, now).

Fixpoint finish_cells (cs : list cell) (T now : Z) : go (list cell * list event) :=
  match cs with
  | [] => Ret ([], [])
  | c :: cs =>
      let! (c, evs) := cell_run c (finish_ops (backlog c) T now) in
      let! (cs, evs') := finish_cells cs T now in
      Ret (c :: cs, evs ++ evs')
  end.

Definition settle (p : pool) (T now : Z) : go (pool * list event) :=
  let! (cs, evs) := finish_cells (workers p) T now in
  Ret ({| inputChan := inputChan p; workers := cs |}, evs).
End Pool.

Definition added (evs : list event) : list aggregatorMsg :=
  omap (λ e, match e with Added m => Some m | _ => None end) evs.
Definition took (evs : list event) : list (nat * aggregatorMsg) :=
  omap (λ e, match e with Took i m => Some (i, m) | _ => None end) evs.
Definition sent (evs : list event) : list sendInfo :=
  omap (λ e, match e with Sent s => Some s | _ => None end) evs.
Definition dropped (evs : list event) : list Batch :=
  omap (λ e, match e with Dropped b => Some b | _ => None end) evs.

Lemma events_sent out :
  added (Sent <$> out) = [] ∧ took (Sent <$> out) = [] ∧ sent (Sent <$> out) = out ∧
  dropped (Sent <$> out) = [].
Proof.
  induction out as [|s out (H1 & H2 & H3 & H4)]; [done|].
  unfold added, took, sent, dropped in *. csimpl. by rewrite H1, H2, H3, H4.
Qed.

Lemma events_dropped bs :
  added (Dropped <$> bs) = [] ∧ took (Dropped <$> bs) = [] ∧ sent (Dropped <$> bs) = [] ∧
  dropped (Dropped <$> bs) = bs.
Proof.
  induction bs as [|s bs (H1 & H2 & H3 & H4)]; [done|].
  unfold added, took, sent, dropped in *. csimpl. by rewrite H1, H2, H3, H4.
Qed.

Lemma events_app e1 e2 :
  added (e1 ++ e2) = added e1 ++ added e2 ∧ took (e1 ++ e2) = took e1 ++ took e2 ∧
  sent (e1 ++ e2) = sent e1 ++ sent e2 ∧ dropped (e1 ++ e2) = dropped e1 ++ dropped e2.
Proof. unfold added, took, sent, dropped. by rewrite !omap_app. Qed.

(** Concatenations of the same lists, in any order and nesting. *)
Lemma perm_bring {A} (a x r r' : list A) : r ≡ₚ x ++ r' → a ++ r ≡ₚ x ++ a ++ r'.
Proof. intros ->. apply Permutation_app_swap_app. Qed.

Ltac bring x t k :=
  lazymatch t with
  | x ++ _ => k (Permutation_refl t)
  | ?a ++ x => k (Permutation_app_comm a x)
  | ?a ++ ?r => bring x r ltac:(fun pf => k (perm_bring a x r _ pf))
  end.

Ltac solve_Permutation :=
  rewrite <-?app_assoc;
  repeat lazymatch goal with
    | |- ?x ++ _ ≡ₚ ?t => bring x t ltac:(fun pf => etransitivity; [|symmetry; exact pf]); apply Permutation_app_head
    end; reflexivity.

(** ** The interface's laws

    [ai_subs i msg] are the user packets worker [i] accepts with [msg]; those
    that are not sent at once are [batch_subs]. *)
Definition batch_subs (cfg : agg_config) (msg : aggregatorMsg) : list SubPacket :=
  if decide (HeaderSize + 6 + length (data msg) ≤ BufferSize cfg)%nat then [msg_sub msg] else [].

Class AggLaws (cfg : agg_config) `{AggImpl} := {
  ai_ok : aggregatorMsg → Prop;
  ai_subs : nat → aggregatorMsg → list SubPacket;
  ai_pick_ok ps i w G msg now :
    worker_ok cfg (ps ++ items w) w G None → lists_ok w → ai_ok msg →
    ∃ picked w' G' out outs, ai_pick i w msg now = Ret (picked, w', out) ∧
      worker_ok cfg (ps ++ items w') w' G' None ∧ lists_ok w' ∧ items w' = items w ∧
      Forall2 carries out outs ∧ subs_of G' (ps ++ items w') = subs_of G (ps ++ items w) ∧
      mjoin outs ++ (if picked is Some _ then batch_subs cfg msg else []) = ai_subs i msg ∧
      ∀ id, picked = Some id → in_route w' (routingKey msg) id;
  ai_append_ok ps w G id msg now :
    worker_ok cfg (ps ++ items w) w G None → lists_ok w → ai_ok msg → in_route w (routingKey msg) id →
    ∃ w' G', ai_append w id msg now = Ret w' ∧ worker_ok cfg (ps ++ items w') w' G' None ∧ lists_ok w' ∧
      subs_of G' (ps ++ items w') ≡ₚ subs_of G (ps ++ items w) ++ batch_subs cfg msg ∧
      Forall (λ it, it ∈ items w ∨ deadline it = now + BatchTimeout cfg) (items w') ∧
      (length (items w') ≤ S (length (items w)))%nat;
  ai_flush_ok it its w G now :
    worker_ok cfg (it :: its) w G None →
    ∃ w' s subs G', ai_flush w it now = Ret (w', s) ∧ carries s subs ∧ (0 < length (si_p s))%nat ∧
      heap w' = heap w ∧ batches w' = batches w ∧ fresh w' = fresh w ∧ worker_ok cfg its w' G' None ∧
      subs ++ subs_of G' its = subs_of G (it :: its);
}.

(** An eviction, seen from the user packets. *)
Lemma evict_accounts `{RangeOrder} cfg w G now : worker_ok cfg (items w) w G None → lists_ok w →
  ∃ w' lost, evictStaleBatches w now = Ret w' ∧ worker_ok cfg (items w') w' G None ∧ lists_ok w' ∧
    Forall2 (λ b subs, holds (pkt b) subs) (dropped_batches w w') lost ∧
    pending w' G ++ mjoin lost ≡ₚ pending w G ∧ items w' ⊆ items w.
Proof.
  intros Hinv Hl. destruct (evict_ok cfg w G now Hinv Hl) as (w' & D & Hev & Hinv' & Hl' & [_ _ _ Hp _]).
  set (D' := filter (λ it, it ∉ items w') (items w)).
  assert (NoDup (items w)) as Hnd.
  { apply (NoDup_fmap_1 hi_id). apply (w_ids _ _ _ _ _ Hinv). }
  assert (items w' ++ D' ≡ₚ items w) as HD.
  { transitivity (filter (λ it, it ∈ items w') (items w) ++ D'); [|apply filter_split].
    apply Permutation_app_tail. symmetry. apply NoDup_Permutation.
    - by apply NoDup_filter.
    - rewrite <-Hp in Hnd. by apply NoDup_app in Hnd as [? _].
    - intros it. rewrite list_elem_of_filter, <-Hp, elem_of_app. tauto. }
  exists w', ((λ it, default [] (G !! hi_batch it)) <$> D').
  do 3 (split; [done|]). split; [|split].
  - unfold dropped_batches. fold D'.
    assert (D' ⊆ items w) as Hsub by (intros it; rewrite <-HD, elem_of_app; auto).
    clear HD. induction D' as [|it l IH]; csimpl; [constructor|].
    destruct (w_items _ _ _ _ _ Hinv it) as (_ & b & Hb & _); [apply Hsub; left|].
    rewrite Hb. constructor; [|apply IH; intros x Hx; apply Hsub; by right].
    destruct (w_batch _ _ _ _ _ Hinv _ _ Hb) as [_ [(subs & HG & Hh & _) _]]. by rewrite HG.
  - unfold pending, subs_of. by rewrite <-join_app, <-fmap_app, HD.
  - intros it Hit. rewrite <-HD. apply elem_of_app. by left.
Qed.

Lemma join_insert_perm {A} (ls : list (list A)) i x y d e : ls !! i = Some x → y ++ d ≡ₚ x ++ e →
  mjoin (<[i := y]> ls) ++ d ≡ₚ mjoin ls ++ e.
Proof.
  intros Hx Hp. apply take_drop_middle in Hx as Hls. rewrite insert_take_drop by (by eapply lookup_lt_Some).
  rewrite <-Hls at 3. rewrite !join_app, !mjoin_cons.
  transitivity (mjoin (take i ls) ++ (y ++ d) ++ mjoin (drop (S i) ls)); [solve_Permutation|].
  rewrite Hp. solve_Permutation.
Qed.

Lemma Forall_subset {A} (P : A → Prop) l l' : l' ⊆ l → Forall P l → Forall P l'.
Proof. rewrite !Forall_forall. auto. Qed.

(** ** One worker *)
Section PoolCorrect.
Context (cfg : agg_config) `{RangeOrder} `{AI : AggImpl} `{!AggLaws cfg}.

(** The ghost state of a cell: what its batches hold, and what the packets it
    still has to send carry. *)
Abbreviation ghost := (gmap nat (list SubPacket) * list (list SubPacket))%type.

(** The worker keeps its invariant, with the popped items, no deadline is later
    than [D], and the batch picked for the message in hand is still there. *)
Record cell_inv (D : Z) (c : cell) (g : ghost) : Prop := {
  ci_worker : worker_ok cfg (popped c ++ items (c_worker c)) (c_worker c) g.1 None;
  ci_lists : lists_ok (c_worker c);
  ci_deadlines : Forall (λ it, deadline it ≤ D) (items (c_worker c));
  ci_handling msg id : handling c = Some (msg, id) →
    ai_ok msg ∧ in_route (c_worker c) (routingKey msg) id;
  ci_toSend : Forall2 (λ s subs, carries s subs ∧ (0 < length (si_p s))%nat) (toSend c) g.2;
}.

Definition in_hand (c : cell) : list SubPacket :=
  match handling c with Some (msg, _) => batch_subs cfg msg | None => [] end.

(** The user packets a cell holds. *)
Definition held (c : cell) (g : ghost) : list SubPacket :=
  in_hand c ++ subs_of g.1 (popped c ++ items (c_worker c)) ++ mjoin g.2.

(** What the events of a worker say of its user packets. *)
Definition cell_accounts (c : cell) (g : ghost) (evs : list event) (c' : cell) (g' : ghost) : Prop :=
  added evs = [] ∧ took evs = [] ∧
  ∃ outs lost, Forall2 carries (sent evs) outs ∧
    Forall2 (λ b subs, holds (pkt b) subs) (dropped evs) lost ∧
    held c' g' ++ mjoin outs ++ mjoin lost ≡ₚ held c g.

Lemma cell_accounts_trans c g e1 c1 g1 e2 c2 g2 :
  cell_accounts c g e1 c1 g1 → cell_accounts c1 g1 e2 c2 g2 → cell_accounts c g (e1 ++ e2) c2 g2.
Proof.
  intros (A1 & T1 & o1 & l1 & S1 & D1 & P1) (A2 & T2 & o2 & l2 & S2 & D2 & P2).
  unfold cell_accounts. destruct (events_app e1 e2) as (-> & -> & -> & ->). rewrite A1, A2, T1, T2.
  do 2 (split; [done|]). exists (o1 ++ o2), (l1 ++ l2). split; [by apply Forall2_app|].
  split; [by apply Forall2_app|]. rewrite !join_app, <-P1, <-P2. solve_Permutation.
Qed.

Lemma quiet_accounts c g c' g' : held c' g' ≡ₚ held c g → cell_accounts c g [] c' g'.
Proof.
  intros Hp. split; [done|]. split; [done|]. exists [], []. do 2 (split; [constructor|]).
  simpl. by rewrite app_nil_r.
Qed.

Lemma sent_accounts c g s subs c' g' : carries s subs → held c' g' ++ subs ≡ₚ held c g →
  cell_accounts c g [Sent s] c' g'.
Proof.
  intros Hc Hp. split; [done|]. split; [done|]. exists [subs], []. split; [by repeat constructor|].
  split; [constructor|]. simpl. by rewrite !app_nil_r.
Qed.

(** A step of a worker that ends well. *)
Definition cell_ok (D : Z) (c : cell) (g : ghost) (r : go (cell * list event))
    (Q : cell → Prop) : Prop :=
  ∃ c' evs g', r = Ret (c', evs) ∧ cell_inv D c' g' ∧ cell_accounts c g evs c' g' ∧ Q c'.

Lemma cell_ok_weaken D c g r (Q Q' : cell → Prop) : cell_ok D c g r Q → (∀ c', Q c' → Q' c') →
  cell_ok D c g r Q'.
Proof. intros (c' & evs & g' & ? & ? & ? & ?) Hq. exists c', evs, g'. auto. Qed.

Lemma cell_rest_ok D c g : cell_inv D c g → cell_ok D c g (Ret (c, [])) (eq c).
Proof. intros Hc. exists c, [], g. split; [done|]. split; [done|]. split; [by apply quiet_accounts|done]. Qed.

Lemma append_step_ok D c g now : cell_inv D c g → now + BatchTimeout cfg ≤ D →
  cell_ok D c g (cell_step c CAppend now)
    (λ c', handling c' = None ∧ popped c' = popped c ∧ toSend c' = toSend c ∧
       (length (heap (c_worker c')) ≤ S (length (heap (c_worker c))))%nat).
Proof.
  intros Hc Hnow. simpl. destruct (handling c) as [[msg id]|] eqn:Hh.
  2: { apply (cell_ok_weaken _ _ _ _ _ _ (cell_rest_ok D c g Hc)). intros c' <-. auto with lia. }
  destruct Hc as [H1 H2 H3 H4 H5]. destruct (H4 _ _ Hh) as [Hm Hr].
  destruct (ai_append_ok (popped c) _ _ id msg now H1 H2 Hm Hr) as (w' & G' & -> & I1 & I2 & I3 & I4 & I5).
  cbn [go_bind]. do 2 eexists. exists (G', g.2). split; [done|]. split; [|split].
  - split; simpl; try done. eapply Forall_impl; [exact I4|]. rewrite Forall_forall in H3.
    intros it [Hit| ->]; [by apply H3|lia].
  - apply quiet_accounts. unfold held, in_hand. simpl. rewrite Hh, I3. solve_Permutation.
  - unfold items in I5. rewrite !length_fmap in I5. auto.
Qed.

Lemma pop_step_ok D c g now : cell_inv D c g →
  cell_ok D c g (cell_step c CPop now)
    (λ c', handling c' = handling c ∧
      (popped c = [] → toSend c = [] → toSend c' = [] ∧
        (length (popped c') ≤ length (heap (c_worker c)))%nat ∧
        Forall (λ it, now < deadline it) (items (c_worker c')))).
Proof.
  intros Hc. simpl. destruct (popped c) as [|it l] eqn:Hpop.
  2: { apply (cell_ok_weaken _ _ _ _ _ _ (cell_rest_ok D c g Hc)). by intros c' <-. }
  destruct (toSend c) as [|s l] eqn:Hto.
  2: { apply (cell_ok_weaken _ _ _ _ _ _ (cell_rest_ok D c g Hc)). by intros c' <-. }
  destruct Hc as [H1 H2 H3 H4 H5]. rewrite Hpop in H1. simpl in H1.
  destruct (pop_expired_ok (length (heap (c_worker c))) (heap (c_worker c)) now)
    as (l & h & -> & O1 & O2 & Hp & _ & Hlate); [apply H1|apply H1|done|].
  do 2 eexists. exists g. split; [done|]. split; [|split].
  - split; simpl; try done.
    + apply set_heap_ok; [|done..]. by apply (worker_ok_perm cfg (items (c_worker c))).
    + eapply Forall_subset; [|exact H3]. intros it Hit. unfold items at 1 in Hit. simpl in Hit.
      unfold items. rewrite <-Hp. apply elem_of_app. by right.
    + by rewrite Hto in H5.
  - apply quiet_accounts. unfold held, in_hand. simpl. rewrite Hpop. simpl. unfold items at 1. simpl.
    by rewrite Hp.
  - split; [done|]. intros _ _. split; [done|]. split; [|done]. simpl.
    apply Permutation_length in Hp. rewrite length_app, !length_fmap in Hp. lia.
Qed.

Lemma flush_step_ok D c g now : cell_inv D c g →
  cell_ok D c g (cell_step c CFlush now)
    (λ c', handling c' = handling c ∧ heap (c_worker c') = heap (c_worker c) ∧
      length (popped c') = pred (length (popped c)) ∧
      (length (toSend c') + length (popped c') ≤ length (toSend c) + length (popped c))%nat).
Proof.
  intros Hc. simpl. destruct (popped c) as [|it l] eqn:Hpop.
  { apply (cell_ok_weaken _ _ _ _ _ _ (cell_rest_ok D c g Hc)). intros c' <-. rewrite Hpop. auto with lia. }
  destruct Hc as [H1 H2 H3 H4 H5]. rewrite Hpop in H1. simpl in H1.
  destruct (ai_flush_ok it _ _ _ (checked c) H1) as (w' & s & subs & G' & -> & Hs & Hlen & Hh & Hb & Hf & I1 & I2).
  cbn [go_bind]. assert (items w' = items (c_worker c)) as Hit by (unfold items; by rewrite Hh).
  assert (lists_ok w') as Hl by (by apply (lists_ok_same (c_worker c)); [|rewrite Hf|]).
  assert (∀ key id, in_route (c_worker c) key id → in_route w' key id) as Hr
    by (intros key id; unfold in_route; by rewrite Hb).
  do 2 eexists. exists (G', if ai_late then g.2 ++ [subs] else g.2). split; [done|]. split; [|split].
  - split; cbn [c_worker popped handling toSend fst snd]; rewrite ?Hit; try done.
    + intros msg id Hm. destruct (H4 msg id Hm). auto.
    + destruct ai_late; [|done]. apply Forall2_app; [done|]. by repeat constructor.
  - assert (subs_of g.1 (popped c ++ items (c_worker c)) = subs ++ subs_of G' (l ++ items (c_worker c))) as Hsub.
    { by rewrite Hpop, I2. }
    destruct ai_late; [apply quiet_accounts|apply (sent_accounts _ _ _ subs); [done|]];
      unfold held, in_hand; cbn [c_worker popped handling fst snd]; rewrite Hit, Hsub, ?join_app;
      cbn [mjoin list_join]; rewrite ?app_nil_r; solve_Permutation.
  - simpl. destruct ai_late; rewrite ?length_app; simpl; auto with lia.
Qed.

Lemma send_step_ok D c g now : cell_inv D c g →
  cell_ok D c g (cell_step c CSend now)
    (λ c', handling c' = handling c ∧ heap (c_worker c') = heap (c_worker c) ∧ popped c' = popped c ∧
      (popped c = [] → length (toSend c') = pred (length (toSend c)))).
Proof.
  intros Hc. simpl. destruct (popped c) as [|it l] eqn:Hpop.
  2: { apply (cell_ok_weaken _ _ _ _ _ _ (cell_rest_ok D c g Hc)). by intros c' <-. }
  destruct (toSend c) as [|s l] eqn:Hto.
  { apply (cell_ok_weaken _ _ _ _ _ _ (cell_rest_ok D c g Hc)). intros c' <-. by rewrite Hpop, Hto. }
  destruct Hc as [H1 H2 H3 H4 H5]. rewrite Hto in H5. destruct g as [G gs].
  simpl in H5. inversion H5 as [|? subs ? gs' [Hs Hlen] Hrest E1 E2]. subst gs.
  unfold flush. rewrite bool_decide_eq_false_2 by lia.
  do 2 eexists. exists (G, gs'). split; [done|]. split; [|split].
  - split; simpl; try done. by rewrite Hpop in H1.
  - destruct s as [sp srk snx]. apply (sent_accounts _ _ _ subs); [done|]. unfold held, in_hand. simpl. rewrite Hpop. simpl.
    solve_Permutation.
  - done.
Qed.

Lemma evict_step_ok D c g now : cell_inv D c g → at_rest c = true →
  cell_ok D c g (cell_step c CEvict now) (λ _, True).
Proof.
  intros Hc. unfold at_rest. destruct (handling c) eqn:Hh; [done|]. destruct (popped c) eqn:Hpop; [|done].
  intros _. destruct Hc as [H1 H2 H3 H4 H5]. rewrite Hpop in H1. simpl in H1 |- *.
  destruct (evict_accounts cfg (c_worker c) g.1 now H1 H2) as (w' & lost & -> & I1 & I2 & I3 & I4 & I5).
  cbn [go_bind]. destruct (events_dropped (dropped_batches (c_worker c) w')) as (E1 & E2 & E3 & E4).
  do 2 eexists. exists g. split; [done|]. split; [|split; [|done]].
  - split; simpl; rewrite ?Hpop; try done; [by eapply Forall_subset|]. intros msg id. by rewrite Hh.
  - split; [done|]. split; [done|]. exists [], lost. rewrite E3, E4. split; [constructor|]. split; [done|].
    unfold held, in_hand. simpl. rewrite Hh, Hpop. simpl. fold (pending w' g.1) (pending (c_worker c) g.1).
    rewrite <-I4. solve_Permutation.
Qed.

(** *** Coming to rest *)
Lemma cell_run_app ops1 ops2 c : cell_run c (ops1 ++ ops2) =
  (let! (c1, e1) := cell_run c ops1 in
   let! (c2, e2) := cell_run c1 ops2 in Ret (c2, e1 ++ e2)).
Proof.
  revert c. induction ops1 as [|[op now] ops1 IH]; intros c; simpl.
  { by destruct (cell_run c ops2) as [[? ?]|]. }
  destruct (cell_step c op now) as [[c1 e1]|]; [|done]. cbn [go_bind]. rewrite IH.
  destruct (cell_run c1 ops1) as [[c2 e2]|]; [|done]. cbn [go_bind].
  destruct (cell_run c2 ops2) as [[c3 e3]|]; [|done]. cbn [go_bind]. by rewrite app_assoc.
Qed.

Lemma cell_run_bind D c g ops1 ops2 (Q1 Q2 : cell → Prop) : cell_ok D c g (cell_run c ops1) Q1 →
  (∀ c1 g1, cell_inv D c1 g1 → Q1 c1 → cell_ok D c1 g1 (cell_run c1 ops2) Q2) →
  cell_ok D c g (cell_run c (ops1 ++ ops2)) Q2.
Proof.
  intros (c1 & e1 & g1 & E1 & I1 & A1 & HQ1) Hnext.
  destruct (Hnext c1 g1 I1 HQ1) as (c2 & e2 & g2 & E2 & I2 & A2 & HQ2).
  exists c2, (e1 ++ e2), g2. rewrite cell_run_app, E1. cbn [go_bind]. rewrite E2. cbn [go_bind].
  split; [done|]. split; [done|]. split; [by eapply cell_accounts_trans|done].
Qed.

Lemma cell_run_one D c g op now Q : cell_ok D c g (cell_step c op now) Q →
  cell_ok D c g (cell_run c [(op, now)]) Q.
Proof.
  intros (c1 & e1 & g1 & E1 & I1 & A1 & HQ1). exists c1, e1, g1. simpl. rewrite E1. cbn [go_bind].
  by rewrite app_nil_r.
Qed.

Lemma flushes_ok k D c g now : cell_inv D c g → (length (popped c) ≤ k)%nat →
  cell_ok D c g (cell_run c (replicate k (CFlush, now)))
    (λ c', handling c' = handling c ∧ heap (c_worker c') = heap (c_worker c) ∧ popped c' = [] ∧
      (length (toSend c') ≤ length (toSend c) + length (popped c))%nat).
Proof.
  revert c g. induction k as [|k IH]; intros c g Hc Hk.
  { apply (cell_ok_weaken _ _ _ _ _ _ (cell_rest_ok D c g Hc)). intros c' <-.
    destruct (popped c); [auto with lia|simpl in Hk; lia]. }
  change (replicate (S k) (CFlush, now)) with ([(CFlush, now)] ++ replicate k (CFlush, now)).
  apply (cell_run_bind _ _ _ _ _ _ _ (cell_run_one _ _ _ _ _ _ (flush_step_ok D c g now Hc))).
  intros c1 g1 H1 (E1 & E2 & E3 & E4). apply (cell_ok_weaken _ _ _ _ _ _ (IH c1 g1 H1 ltac:(lia))).
  intros c2 (F1 & F2 & F3 & F4). rewrite F1, F2. auto with lia.
Qed.

Lemma sends_ok k D c g now : cell_inv D c g → popped c = [] → (length (toSend c) ≤ k)%nat →
  cell_ok D c g (cell_run c (replicate k (CSend, now)))
    (λ c', handling c' = handling c ∧ heap (c_worker c') = heap (c_worker c) ∧ popped c' = [] ∧
      toSend c' = []).
Proof.
  revert c g. induction k as [|k IH]; intros c g Hc Hp Hk.
  { apply (cell_ok_weaken _ _ _ _ _ _ (cell_rest_ok D c g Hc)). intros c' <-.
    destruct (toSend c); [auto|simpl in Hk; lia]. }
  change (replicate (S k) (CSend, now)) with ([(CSend, now)] ++ replicate k (CSend, now)).
  apply (cell_run_bind _ _ _ _ _ _ _ (cell_run_one _ _ _ _ _ _ (send_step_ok D c g now Hc))).
  intros c1 g1 H1 (E1 & E2 & E3 & E4). specialize (E4 Hp).
  apply (cell_ok_weaken _ _ _ _ _ _ (IH c1 g1 H1 ltac:(congruence) ltac:(lia))).
  intros c2 (F1 & F2 & F3 & F4). by rewrite F1, F2.
Qed.

(** The end of a check: flushes and sends. *)
Lemma check_ends k D c g now : cell_inv D c g → (length (popped c) + length (toSend c) ≤ k)%nat →
  cell_ok D c g (cell_run c (replicate k (CFlush, now) ++ replicate k (CSend, now)))
    (λ c', handling c' = handling c ∧ heap (c_worker c') = heap (c_worker c) ∧ popped c' = [] ∧
      toSend c' = []).
Proof.
  intros Hc Hk. apply (cell_run_bind _ _ _ _ _ _ _ (flushes_ok k D c g now Hc ltac:(lia))).
  intros c1 g1 H1 (E1 & E2 & E3 & E4).
  apply (cell_ok_weaken _ _ _ _ _ _ (sends_ok k D c1 g1 now H1 E3 ltac:(lia))).
  intros c2 (F1 & F2 & F3 & F4). by rewrite F1, F2.
Qed.

(** A worker that is at rest and holds nothing. *)
Definition idle (c : cell) : Prop :=
  handling c = None ∧ heap (c_worker c) = [] ∧ popped c = [] ∧ toSend c = [].

Lemma late_nothing D w now : Forall (λ it, deadline it ≤ D) (items w) → D ≤ now →
  Forall (λ it, now < deadline it) (items w) → heap w = [].
Proof.
  intros Hd Hnow Hl. apply (fmap_nil_inv fst). fold (items w). destruct (items w) as [|it l]; [done|].
  apply Forall_cons in Hd as [Hd _]. apply Forall_cons in Hl as [Hl _]. lia.
Qed.

Lemma finish_cell_ok D c g T now : cell_inv D c g → T + BatchTimeout cfg ≤ D → D ≤ now →
  cell_ok D c g (cell_run c (finish_ops (backlog c) T now)) idle.
Proof.
  intros Hc HT Hnow. unfold finish_ops. set (k := backlog c).
  assert (k = S (length (heap (c_worker c)) + length (popped c) + length (toSend c))) as Hk by done.
  clearbody k. rewrite app_assoc.
  apply (cell_run_bind _ _ _ [_] _ _ _ (cell_run_one _ _ _ _ _ _ (append_step_ok D c g T Hc HT))).
  intros c1 g1 H1 (E1 & E2 & E3 & E4).
  apply (cell_run_bind _ _ _ _ _ _ _ (check_ends k D c1 g1 T H1 ltac:(rewrite E2, E3; lia))).
  intros c2 g2 H2 (F1 & F2 & F3 & F4). rewrite <-F2 in E4.
  apply (cell_run_bind _ _ _ [_] _ _ _ (cell_run_one _ _ _ _ _ _ (pop_step_ok D c2 g2 now H2))).
  intros c3 g3 H3 (K1 & K2). destruct (K2 F3 F4) as (K3 & K4 & K5).
  apply (cell_ok_weaken _ _ _ _ _ _ (check_ends k D c3 g3 now H3 ltac:(rewrite K3; simpl; lia))).
  intros c4 (M1 & M2 & M3 & M4). split; [congruence|]. split; [|done]. rewrite M2.
  eapply late_nothing; [apply H3|exact Hnow|done].
Qed.

(** ** The pool *)
Abbreviation ghosts := (list ghost).

Definition pool_inv (D : Z) (p : pool) (gs : ghosts) : Prop := Forall2 (cell_inv D) (workers p) gs.

(** The user packets the workers hold. *)
Definition cells_held (cs : list cell) (gs : ghosts) : list SubPacket := mjoin (zip_with held cs gs).

(** What the events say of the user packets and the channel. *)
Definition accounts (p : pool) (gs : ghosts) (evs : list event) (p' : pool) (gs' : ghosts) : Prop :=
  inputChan p ++ added evs = (took evs).*2 ++ inputChan p' ∧
  ∃ outs lost, Forall2 carries (sent evs) outs ∧
    Forall2 (λ b subs, holds (pkt b) subs) (dropped evs) lost ∧
    cells_held (workers p') gs' ++ mjoin outs ++ mjoin lost ≡ₚ
      cells_held (workers p) gs ++ (took evs ≫= λ x, ai_subs x.1 x.2).

Lemma accounts_trans p gs e1 p1 gs1 e2 p2 gs2 :
  accounts p gs e1 p1 gs1 → accounts p1 gs1 e2 p2 gs2 → accounts p gs (e1 ++ e2) p2 gs2.
Proof.
  intros (C1 & o1 & l1 & S1 & D1 & P1) (C2 & o2 & l2 & S2 & D2 & P2).
  unfold accounts. destruct (events_app e1 e2) as (-> & -> & -> & ->). split.
  { rewrite app_assoc, C1, <-app_assoc, C2, fmap_app. by rewrite app_assoc. }
  exists (o1 ++ o2), (l1 ++ l2). split; [by apply Forall2_app|]. split; [by apply Forall2_app|].
  rewrite !join_app, bind_app.
  transitivity ((cells_held (workers p2) gs2 ++ mjoin o2 ++ mjoin l2) ++ mjoin o1 ++ mjoin l1);
    [solve_Permutation|].
  transitivity ((cells_held (workers p1) gs1 ++ mjoin o1 ++ mjoin l1) ++
    (took e2 ≫= λ x, ai_subs x.1 x.2)); [rewrite P2; solve_Permutation|rewrite P1; solve_Permutation].
Qed.

Lemma pool_inv_lookup D p gs i c : pool_inv D p gs → workers p !! i = Some c →
  ∃ g, gs !! i = Some g ∧ cell_inv D c g.
Proof. intros Hinv Hw. by destruct (Forall2_lookup_l _ _ _ _ _ Hinv Hw) as (g & ? & ?); eauto. Qed.

Definition op_valid (op : pool_op) : Prop := match op with PAdd msg => ai_ok msg | _ => True end.

(** A step that ends well: the invariant holds again and the events account
    for every user packet. *)
Definition step_ok (D : Z) (p : pool) (gs : ghosts) (r : go (pool * list event)) : Prop :=
  ∃ p' evs gs', r = Ret (p', evs) ∧ pool_inv D p' gs' ∧ accounts p gs evs p' gs' ∧
    Forall ai_ok (inputChan p').

Lemma channel_step_ok D p gs evs rest : pool_inv D p gs → Forall ai_ok rest →
  took evs = [] → sent evs = [] → dropped evs = [] → inputChan p ++ added evs = rest →
  step_ok D p gs (Ret ({| inputChan := rest; workers := workers p |}, evs)).
Proof.
  intros Hinv Hc E1 E2 E3 Hr. do 2 eexists. exists gs. split; [done|]. split; [done|]. split; [|done].
  unfold accounts. rewrite E1, E2, E3. split; [done|]. exists [], []. simpl.
  by repeat (split; [constructor|]).
Qed.

Lemma idle_ok D p gs : pool_inv D p gs → Forall ai_ok (inputChan p) → step_ok D p gs (Ret (p, [])).
Proof.
  intros Hinv Hc. pose proof (channel_step_ok D p gs [] (inputChan p) Hinv Hc) as Hs.
  destruct p as [ch ws]. apply Hs; try done. apply app_nil_r.
Qed.

(** One worker goes on, the others stay. *)
Lemma worker_step_ok D p gs i c g c' g' evs rest outs lost :
  pool_inv D p gs → workers p !! i = Some c → gs !! i = Some g → cell_inv D c' g' →
  Forall ai_ok rest → inputChan p ++ added evs = (took evs).*2 ++ rest →
  Forall2 carries (sent evs) outs → Forall2 (λ b subs, holds (pkt b) subs) (dropped evs) lost →
  held c' g' ++ mjoin outs ++ mjoin lost ≡ₚ held c g ++ (took evs ≫= λ x, ai_subs x.1 x.2) →
  step_ok D p gs (Ret ({| inputChan := rest; workers := <[i := c']> (workers p) |}, evs)).
Proof.
  intros Hinv Hw HG Hwi Hc He Hs Hd Hp.
  do 2 eexists. exists (<[i := g']> gs). split; [done|]. split; [by apply Forall2_insert|].
  split; [|done]. split; [done|]. exists outs, lost. split; [done|]. split; [done|].
  unfold cells_held. simpl. rewrite <-insert_zip_with. apply (join_insert_perm _ i (held c g)); [|done].
  apply lookup_zip_with_Some. eauto.
Qed.

Lemma take_step_ok D p gs i now : pool_inv D p gs → Forall ai_ok (inputChan p) →
  step_ok D p gs (pool_step p (PTake i) now).
Proof.
  intros Hinv Hc. simpl. destruct (workers p !! i) as [c|] eqn:Hw; [|by apply idle_ok].
  destruct (inputChan p) as [|msg rest] eqn:Hin; [rewrite <-Hin in Hc; by apply idle_ok|].
  destruct (handling c) eqn:Hh; [rewrite <-Hin in Hc; by apply idle_ok|].
  apply Forall_cons in Hc as [Hm Hc].
  destruct (pool_inv_lookup D p gs i c Hinv Hw) as (g & HG & [H1 H2 H3 H4 H5]).
  destruct (ai_pick_ok (popped c) i _ _ msg now H1 H2 Hm)
    as (picked & w' & G' & out & outs & -> & I1 & I2 & I3 & I4 & I5 & I6 & I7).
  cbn [go_bind]. destruct (events_sent out) as (E1 & E2 & E3 & E4).
  match goal with |- context [<[i := ?x]> _] => set (c' := x) end.
  apply (worker_step_ok D p gs i c g c' (G', g.2) _ rest outs []); try done.
  - split; simpl; rewrite ?I3; try done. { by rewrite <-I3. }
    destruct picked as [id|]; simpl; [|done]. intros msg' id' [= <- <-]. auto.
  - rewrite Hin. unfold added, took in *. csimpl. rewrite E1, E2. by rewrite app_nil_r.
  - unfold sent in *. csimpl. by rewrite E3.
  - unfold dropped in *. csimpl. rewrite E4. constructor.
  - unfold took in *. csimpl. rewrite E2. csimpl. rewrite !app_nil_r, <-I6. unfold held, in_hand, c'. simpl.
    rewrite Hh, I5. destruct picked; simpl; rewrite ?app_nil_r; solve_Permutation.
Qed.

Lemma cell_op_ok D p gs i op now : pool_inv D p gs → Forall ai_ok (inputChan p) →
  now + BatchTimeout cfg ≤ D → apart p (PCell i op) = true →
  step_ok D p gs (pool_step p (PCell i op) now).
Proof.
  intros Hinv Hc Hnow Hap. simpl. destruct (workers p !! i) as [c|] eqn:Hw; [|by apply idle_ok].
  destruct (pool_inv_lookup D p gs i c Hinv Hw) as (g & HG & Hci).
  assert (cell_ok D c g (cell_step c op now) (λ _, True)) as (c' & evs & g' & -> & I & (A1 & A2 & outs & lost & A3 & A4 & A5) & _).
  { destruct op.
    - by eapply cell_ok_weaken; [apply append_step_ok|].
    - by eapply cell_ok_weaken; [apply pop_step_ok|].
    - by eapply cell_ok_weaken; [apply flush_step_ok|].
    - by eapply cell_ok_weaken; [apply send_step_ok|].
    - apply evict_step_ok; [done|]. simpl in Hap. by rewrite Hw in Hap. }
  cbn [go_bind]. eapply (worker_step_ok D p gs i c g c' g' evs _ outs lost); try done.
  - rewrite A1, A2. simpl. by rewrite app_nil_r.
  - rewrite A2. simpl. by rewrite app_nil_r.
Qed.

Lemma pool_run_ok D ops p gs : pool_inv D p gs → Forall ai_ok (inputChan p) →
  Forall (λ x, op_valid x.1 ∧ x.2 + BatchTimeout cfg ≤ D) ops → evictions_apart p ops = true →
  step_ok D p gs (pool_run p ops).
Proof.
  intros Hinv Hc Hops. revert p gs Hinv Hc.
  induction Hops as [|[op now] ops [Hop Hnow] Hops IH]; intros p gs Hinv Hc Hap; [by apply idle_ok|].
  cbn [evictions_apart] in Hap. apply andb_true_iff in Hap as [Ha Hap]. simpl in Hop, Hnow.
  assert (step_ok D p gs (pool_step p op now)) as (p1 & e1 & gs1 & E1 & I1 & A1 & C1).
  { destruct op as [msg|i|i op]; [|by apply take_step_ok|by apply cell_op_ok].
    cbn [pool_step]. unfold AddToBatch. case_bool_decide; [|by apply idle_ok].
    apply channel_step_ok; try done. by apply Forall_app_2; [|constructor]. }
  rewrite E1 in Hap. destruct (IH p1 gs1 I1 C1 Hap) as (p2 & e2 & gs2 & E2 & I2 & A2 & C2).
  exists p2, (e1 ++ e2), gs2. cbn [pool_run]. rewrite E1. cbn [go_bind]. rewrite E2. cbn [go_bind].
  split; [done|]. split; [done|]. split; [by eapply accounts_trans|done].
Qed.

(** *** The last check *)
Lemma held_idle D c g : cell_inv D c g → idle c → held c g = [].
Proof.
  intros [_ _ _ _ H5] (E1 & E2 & E3 & E4). unfold held, in_hand, items. rewrite E1, E2, E3. rewrite E4 in H5.
  by inversion H5.
Qed.

Lemma cells_held_idle D cs gs : Forall2 (cell_inv D) cs gs → Forall idle cs → cells_held cs gs = [].
Proof.
  unfold cells_held. induction 1 as [|c g cs gs Hc Hcs IH]; [done|].
  intros [Hi His]%Forall_cons. cbn [zip_with]. by rewrite mjoin_cons, (held_idle D), IH.
Qed.

Lemma finish_cells_ok D cs gs T now : Forall2 (cell_inv D) cs gs → T + BatchTimeout cfg ≤ D → D ≤ now →
  ∃ cs' evs gs' outs lost, finish_cells cs T now = Ret (cs', evs) ∧ Forall2 (cell_inv D) cs' gs' ∧
    Forall idle cs' ∧ added evs = [] ∧ took evs = [] ∧ Forall2 carries (sent evs) outs ∧
    Forall2 (λ b subs, holds (pkt b) subs) (dropped evs) lost ∧
    cells_held cs' gs' ++ mjoin outs ++ mjoin lost ≡ₚ cells_held cs gs.
Proof.
  intros Hcs HT Hnow. induction Hcs as [|c g cs gs Hc Hcs IH].
  { exists [], [], [], [], []. do 7 (split; [constructor|]). done. }
  destruct IH as (cs' & evs & gs' & outs & lost & E & I & Hi & A1 & A2 & A3 & A4 & A5).
  destruct (finish_cell_ok D c g T now Hc HT Hnow)
    as (c' & e1 & g' & E1 & I1 & (B1 & B2 & o1 & l1 & B3 & B4 & B5) & Hi1).
  exists (c' :: cs'), (e1 ++ evs), (g' :: gs'), (o1 ++ outs), (l1 ++ lost).
  cbn [finish_cells]. rewrite E1. cbn [go_bind]. rewrite E. split; [done|].
  destruct (events_app e1 evs) as (-> & -> & -> & ->). rewrite A1, A2, B1, B2.
  split; [by constructor|]. split; [by constructor|]. split; [done|]. split; [done|].
  split; [by apply Forall2_app|]. split; [by apply Forall2_app|].
  unfold cells_held. cbn [zip_with]. rewrite !mjoin_cons, !join_app.
  fold (cells_held cs' gs') (cells_held cs gs). rewrite <-B5, <-A5. solve_Permutation.
Qed.

Lemma new_pool_inv D n : pool_inv D (new_pool n) (replicate n (∅, [])).
Proof.
  unfold pool_inv. simpl. apply Forall2_replicate. split; simpl; [apply new_worker_inv| |constructor|done|constructor].
  intros key ids Hk. simpl in Hk. by rewrite lookup_empty in Hk.
Qed.

Lemma cells_held_new n : cells_held (workers (new_pool n)) (replicate n (∅, [])) = [].
Proof.
  apply (cells_held_idle 0); [apply (new_pool_inv 0 n)|]. apply Forall_forall.
  by intros c [-> _]%elem_of_replicate.
Qed.

Lemma finish_ok D p gs T now : pool_inv D p gs → Forall ai_ok (inputChan p) →
  T + BatchTimeout cfg ≤ D → D ≤ now →
  ∃ p' evs gs', settle p T now = Ret (p', evs) ∧ pool_inv D p' gs' ∧ accounts p gs evs p' gs' ∧
    Forall idle (workers p') ∧ inputChan p' = inputChan p.
Proof.
  intros Hinv Hc HT Hnow.
  destruct (finish_cells_ok D _ gs T now Hinv HT Hnow) as (cs' & evs & gs' & outs & lost & E & I & Hi & A1 & A2 & A3 & A4 & A5).
  unfold settle. rewrite E. cbn [go_bind]. do 2 eexists. exists gs'. split; [done|]. split; [done|].
  split; [|done]. unfold accounts. simpl. rewrite A1, A2, app_nil_r. split; [done|].
  exists outs, lost. by rewrite app_nil_r.
Qed.

Lemma pool_delivers n ops T now :
  Forall (λ x, op_valid x.1 ∧ x.2 ≤ T) ops → evictions_apart (new_pool n) ops = true →
  T + BatchTimeout cfg ≤ now →
  ∃ p e1 p' e2 outs lost, pool_run (new_pool n) ops = Ret (p, e1) ∧ settle p T now = Ret (p', e2) ∧
    added e1 = (took e1).*2 ++ inputChan p ∧ added e2 = [] ∧ took e2 = [] ∧ inputChan p' = inputChan p ∧
    Forall2 carries (sent (e1 ++ e2)) outs ∧
    Forall2 (λ b subs, holds (pkt b) subs) (dropped (e1 ++ e2)) lost ∧
    mjoin outs ++ mjoin lost ≡ₚ (took e1 ≫= λ x, ai_subs x.1 x.2) ∧ Forall idle (workers p').
Proof.
  intros Hops Hap Hnow. set (D := T + BatchTimeout cfg) in *.
  destruct (pool_run_ok D ops (new_pool n) _ (new_pool_inv D n)) as (p1 & e1 & gs1 & E1 & I1 & A1 & C1);
    [constructor|eapply Forall_impl; [exact Hops|]; intros [op t] [? ?]; split; [done|simpl in *; lia]|done|].
  destruct (finish_ok D p1 gs1 T now I1 C1 ltac:(done) Hnow) as (p2 & e2 & gs2 & E2 & I2 & A2 & Hidle & Hch).
  pose proof A1 as [Hc1 _]. pose proof A2 as [Hc2 _]. rewrite Hch in Hc2.
  destruct (accounts_trans _ _ _ _ _ _ _ _ A1 A2) as (_ & outs & lost & Hs & Hd & Hp).
  assert (added e2 = [] ∧ took e2 = []) as [Ha Ht].
  { unfold settle in E2. destruct (finish_cells_ok D _ gs1 T now I1 ltac:(done) Hnow)
      as (cs' & evs & gs' & o & l & E & _ & _ & B1 & B2 & _).
    rewrite E in E2. cbn [go_bind] in E2. injection E2 as _ <-. done. }
  exists p1, e1, p2, e2, outs, lost. do 7 (split; [done|]). split; [done|]. split; [|done].
  rewrite cells_held_new, (cells_held_idle D _ _ I2 Hidle) in Hp. simpl in Hp. rewrite Hp.
  destruct (events_app e1 e2) as (_ & -> & _ & _). by rewrite Ht, app_nil_r.
Qed.

(** An eviction that falls into the middle of a deadline check, and takes the
    route of a batch the check has popped, crashes the program. *)
Lemma evict_in_check_panics D p gs i c now it key v : pool_inv D p gs → workers p !! i = Some c →
  it ∈ popped c → batches (c_worker c) !! key = Some v → hi_batch it ∈ v →
  stale_route (c_worker c) now v → panics (pool_step p (PCell i CEvict) now).
Proof.
  intros Hinv Hw Hit Hk Hv Hs. destruct (pool_inv_lookup D p gs i c Hinv Hw) as (g & _ & Hc).
  destruct (evict_popped_panics cfg _ _ _ now it key v (ci_worker _ _ _ Hc) Hit Hk Hv Hs) as [e E].
  simpl. rewrite Hw. simpl. rewrite E. by eexists.
Qed.

Lemma pool_run_inv ops n T p evs : Forall (λ x, op_valid x.1 ∧ x.2 ≤ T) ops →
  evictions_apart (new_pool n) ops = true → pool_run (new_pool n) ops = Ret (p, evs) →
  ∃ D gs, pool_inv D p gs.
Proof.
  intros Hops Hap E. set (D := T + BatchTimeout cfg).
  destruct (pool_run_ok D ops (new_pool n) _ (new_pool_inv D n)) as (p1 & e1 & gs1 & E1 & I1 & _);
    [constructor|eapply Forall_impl; [exact Hops|]; intros [op t] [? ?]; split; [done|simpl in *; lia]|done|].
  rewrite E in E1. injection E1 as <- <-. eauto.
Qed.

(** Only an eviction drops a batch. *)
Lemma cell_no_drop c op now c' evs : op ≠ CEvict → cell_step c op now = Ret (c', evs) → dropped evs = [].
Proof.
  intros Hop E. destruct op; simpl in E; [| | | |done].
  - destruct (handling c) as [[msg id]|]; [|by simplify_eq]. destruct (ai_append _ _ _ _); [|done].
    cbn [go_bind] in E. by simplify_eq.
  - destruct (popped c), (toSend c); try (by simplify_eq). destruct (pop_expired _ _ _). by simplify_eq.
  - destruct (popped c); [by simplify_eq|]. destruct (ai_flush _ _ _) as [[w s]|]; [|done].
    cbn [go_bind] in E. simplify_eq. by destruct ai_late.
  - destruct (popped c), (toSend c); simplify_eq; try done. apply events_sent.
Qed.

Lemma cell_run_no_drop ops c c' evs : Forall (λ x, x.1 ≠ CEvict) ops →
  cell_run c ops = Ret (c', evs) → dropped evs = [].
Proof.
  intros Hops. revert c evs. induction Hops as [|[op now] ops Hop Hops IH]; intros c evs; simpl.
  { by intros [= _ <-]. }
  destruct (cell_step c op now) as [[c1 e1]|] eqn:E; [|done]. cbn [go_bind].
  destruct (cell_run c1 ops) as [[c2 e2]|] eqn:E2; [|done]. cbn [go_bind]. intros [= -> <-].
  destruct (events_app e1 e2) as (_ & _ & _ & ->). by rewrite (IH c1 e2 E2), (cell_no_drop _ _ _ _ _ Hop E).
Qed.

Lemma finish_no_drop p T now p' evs : settle p T now = Ret (p', evs) → dropped evs = [].
Proof.
  unfold settle. intros E. assert (∀ cs cs' e, finish_cells cs T now = Ret (cs', e) → dropped e = []) as Hd.
  { intros cs. induction cs as [|c cs IH]; intros cs' e; cbn [finish_cells]; [by intros [= _ <-]|].
    destruct (cell_run _ _) as [[c1 e1]|] eqn:E1; [|done]. cbn [go_bind].
    destruct (finish_cells cs T now) as [[cs1 e2]|] eqn:E2; [|done]. cbn [go_bind]. intros [= _ <-].
    destruct (events_app e1 e2) as (_ & _ & _ & ->). rewrite (IH _ _ eq_refl), app_nil_r.
    eapply cell_run_no_drop; [|exact E1]. unfold finish_ops.
    repeat first [by apply Forall_replicate | apply Forall_app_2 | apply Forall_cons; split; [done|]]. }
  destruct (finish_cells _ T now) as [[cs e]|] eqn:E1; [|done]. cbn [go_bind] in E. injection E as _ <-.
  by eapply Hd.
Qed.

Lemma no_evict_no_drop ops p p' evs : Forall (λ x, ∀ i, x.1 ≠ PCell i CEvict) ops →
  pool_run p ops = Ret (p', evs) → dropped evs = [].
Proof.
  intros Hops. revert p evs. induction Hops as [|[op now] ops Hop Hops IH]; intros p evs; cbn [pool_run].
  { by intros [= _ <-]. }
  destruct (pool_step p op now) as [[p1 e1]|] eqn:E; [|done]. cbn [go_bind].
  destruct (pool_run p1 ops) as [[p2 e2]|] eqn:E2; [|done]. cbn [go_bind]. intros [= -> <-].
  destruct (events_app e1 e2) as (_ & _ & _ & ->). rewrite (IH p1 e2 E2), app_nil_r.
  destruct op as [msg|i|i op]; cbn [pool_step] in E.
  - unfold AddToBatch in E. case_bool_decide; by simplify_eq.
  - destruct (workers p !! i) as [c|], (inputChan p); simplify_eq; try done.
    destruct (handling c); [by simplify_eq|].
    destruct (ai_pick _ _ _ _) as [[[? w'] out]|]; [|done]. cbn [go_bind] in E. simplify_eq.
    unfold dropped. csimpl. apply events_sent.
  - destruct (workers p !! i) as [c|]; [|by simplify_eq].
    destruct (cell_step c op now) as [[c1 e]|] eqn:Es; [|done]. cbn [go_bind] in E. injection E as _ <-.
    eapply cell_no_drop; [|exact Es]. intros ->. by apply (Hop i).
Qed.
End PoolCorrect.

(** ** [aggregator.go]

    Every worker puts any message it takes into its own batches, and a deadline
    check sends after the last flush. *)
Definition Aggregator_impl `{Ip6Parser} (cfg : agg_config) : AggImpl :=
  {| ai_pick _ w msg now := handle_pick cfg w msg now; ai_append := handle_append cfg;
     ai_flush := flush_item; ai_late := true |}.

(** *** The steps put together

    The steps of a message are [handleMsg], and those of a deadline check are
    [checkTimeout]. *)
Lemma handleMsg_steps `{Ip6Parser} cfg w msg now : handleMsg cfg w msg now =
  (let! (picked, w, out) := handle_pick cfg w msg now in
   match picked with
   | None => Ret (w, out)
   | Some id => let! w := handle_append cfg w id msg now in Ret (w, out)
   end).
Proof.
  unfold handleMsg, handle_pick, handle_append. fold (is_small cfg msg).
  destruct (is_small cfg msg || emerge msg) eqn:E; [by destruct (send_emerge _ _)|].
  apply orb_false_iff in E as [-> _]. destruct (pick_batch _ _ _ _ _) as [[id|] w1]; [|done].
  cbn [go_bind]. by destruct (append_batch _ _ _ _ _) as [[id2 w2]|].
Qed.

Lemma pop_expired_length fuel h now : (length (pop_expired fuel h now).1 ≤ fuel)%nat.
Proof.
  revert h. induction fuel as [|fuel IH]; intros h; simpl; [done|]. destruct (h !! 0%nat); [|simpl; lia].
  case_bool_decide; [simpl; lia|]. destruct (heap_Pop h) as [[it h']|]; [|simpl; lia].
  specialize (IH h'). destruct (pop_expired fuel h' now). simpl in *. lia.
Qed.

Section Check.
Context `{Ip6Parser} `{RangeOrder} (cfg : agg_config).
Abbreviation run := (@cell_run _ (Aggregator_impl cfg)).

Lemma flush_steps k l w hd t ts now : (length l ≤ k)%nat →
  run {| c_worker := w; handling := hd; popped := l; checked := t; toSend := ts |}
    (replicate k (CFlush, now)) =
  (let! (w, ss) := flush_items w l t in
   Ret ({| c_worker := w; handling := hd; popped := []; checked := t; toSend := ts ++ ss |}, [])).
Proof.
  revert l w ts. induction k as [|k IH]; intros [|it l] w ts Hk; simpl in Hk; try lia.
  - simpl. by rewrite app_nil_r.
  - change (replicate (S k) (CFlush, now)) with ([(CFlush, now)] ++ replicate k (CFlush, now)).
    cbn [cell_run app cell_step popped go_bind]. rewrite IH by (simpl; lia). done.
  - change (replicate (S k) (CFlush, now)) with ([(CFlush, now)] ++ replicate k (CFlush, now)).
    cbn [cell_run app cell_step popped go_bind c_worker handling checked toSend ai_flush ai_late Aggregator_impl flush_items].
    destruct (flush_item w it t) as [[w1 s]|]; [|done]. cbn [go_bind]. rewrite IH by lia.
    destruct (flush_items w1 l t) as [[w2 ss]|]; [|done]. cbn [go_bind]. by rewrite <-app_assoc.
Qed.

Lemma send_steps k w hd t ts now : (length ts ≤ k)%nat →
  run {| c_worker := w; handling := hd; popped := []; checked := t; toSend := ts |}
    (replicate k (CSend, now)) =
  Ret ({| c_worker := w; handling := hd; popped := []; checked := t; toSend := [] |},
       Sent <$> mjoin ((λ s, flush (si_p s) (si_routingKey s) (si_next s)) <$> ts)).
Proof.
  revert ts. induction k as [|k IH]; intros [|s ts] Hk; simpl in Hk; try lia; [done|..];
    change (replicate (S k) (CSend, now)) with ([(CSend, now)] ++ replicate k (CSend, now));
    cbn [cell_run app cell_step popped toSend go_bind c_worker handling checked];
    rewrite IH by (simpl; lia); cbn [go_bind]; [done|].
  rewrite fmap_cons, mjoin_cons, fmap_app. done.
Qed.

Lemma checkTimeout_steps w hd t now : let n := length (heap w) in
  run {| c_worker := w; handling := hd; popped := []; checked := t; toSend := [] |}
    ((CPop, now) :: replicate n (CFlush, now) ++ replicate n (CSend, now)) =
  (let! (w, out) := checkTimeout w now in
   Ret ({| c_worker := w; handling := hd; popped := []; checked := now; toSend := [] |}, Sent <$> out)).
Proof.
  intros n. cbn [cell_run cell_step popped toSend c_worker handling]. unfold checkTimeout. fold n.
  pose proof (pop_expired_length n (heap w) now) as Hl. destruct (pop_expired n (heap w) now) as [l h].
  cbn [fst go_bind] in *. rewrite cell_run_app, flush_steps by done.
  destruct (flush_items (set_heap h w) l now) as [[w1 ss]|] eqn:E; [|done]. cbn [go_bind].
  rewrite send_steps; [done|]. simpl. enough (length ss = length l) by lia. clear Hl.
  revert E. generalize (set_heap h w) as w0. revert ss. induction l as [|it l IH]; intros ss w0; simpl.
  { by intros [= _ <-]. }
  destruct (flush_item w0 it now) as [[w2 s]|]; [|done]. cbn [go_bind].
  destruct (flush_items w2 l now) as [[w3 ss']|] eqn:E; [|done]. cbn [go_bind].
  intros [= <- <-]. simpl. f_equal. by eapply IH.
Qed.
End Check.

(** *** The laws *)
#[export] Existing Instance accepted_dec.

Definition accepted_subs (cfg : agg_config) (msg : aggregatorMsg) : list SubPacket :=
  if decide (accepted cfg msg) then [msg_sub msg] else [].

Section First.
Context `{IP6 : Ip6Parser} `{!Ip6Range} `{RangeOrder} (cfg : agg_config).
Hypothesis Hcfg : (HeaderSize ≤ BufferSize cfg)%nat.
Hypothesis Hcfg_max : Z.of_nat (BufferSize cfg) < 2 ^ 16 + Z.of_nat HeaderSize.

Lemma handle_pick_ok ps w G msg now : worker_ok cfg (ps ++ items w) w G None → lists_ok w → msg_ok msg →
  ∃ picked w' G' out outs, handle_pick cfg w msg now = Ret (picked, w', out) ∧
    worker_ok cfg (ps ++ items w') w' G' None ∧ lists_ok w' ∧ items w' = items w ∧
    Forall2 carries out outs ∧ subs_of G' (ps ++ items w') = subs_of G (ps ++ items w) ∧
    mjoin outs ++ (if picked is Some _ then batch_subs cfg msg else []) = accepted_subs cfg msg ∧
    ∀ id, picked = Some id → in_route w' (routingKey msg) id.
Proof.
  intros Hw Hl Hm. unfold handle_pick, accepted_subs. fold (is_small cfg msg).
  destruct (is_small cfg msg || emerge msg) eqn:He.
  - set (size := if is_small cfg msg then _ else _).
    assert (HeaderSize ≤ size)%nat as Hsize by (unfold size; destruct (is_small cfg msg); lia).
    destruct (send_emerge_ok msg size Hsize Hm) as (out & -> & Hout). cbn [go_bind].
    assert (fits msg size ↔ accepted cfg msg) as Hacc.
    { unfold accepted, size. destruct (is_small cfg msg) eqn:Hsm.
      - split; [by left|]. intros _. unfold fits. lia.
      - split; [by right|]. by intros [?|?]. }
    rewrite (decide_ext _ _ _ _ Hacc) in Hout.
    assert (∃ outs, Forall2 carries out outs ∧
      mjoin outs = if decide (accepted cfg msg) then [msg_sub msg] else []) as (outs & Ho & Hj).
    { destruct (decide (accepted cfg msg)); [destruct Hout as (s & -> & Hc); exists [[msg_sub msg]]|subst out; exists []];
        split; try done; by repeat constructor. }
    exists None, w, G, out, outs. do 6 (split; [done|]). split; [by rewrite app_nil_r|done].
  - apply orb_false_iff in He as [Hsm _]. rewrite Hsm.
    destruct (pick_batch_ok cfg Hcfg ps w G msg now Hw Hm) as (id & w1 & G1 & E & I1 & P1 & T1 & L1).
    rewrite E. exists (Some id), w1, G1, [], []. split; [done|]. split; [done|].
    split; [by eapply pick_batch_lists|]. split; [done|]. split; [constructor|]. split; [done|].
    split; [|by intros ? [= <-]]. unfold batch_subs. cbn [mjoin list_join app].
    rewrite (decide_ext (accepted cfg msg) (HeaderSize + 6 + length (data msg) ≤ BufferSize cfg)%nat); [done|].
    unfold accepted. rewrite Hsm. split; [intros [?|?]; done|by right].
Qed.

Lemma flush_item_law it its w G now : worker_ok cfg (it :: its) w G None →
  ∃ w' s subs G', flush_item w it now = Ret (w', s) ∧ carries s subs ∧ (0 < length (si_p s))%nat ∧
    heap w' = heap w ∧ batches w' = batches w ∧ fresh w' = fresh w ∧ worker_ok cfg its w' G' None ∧
    subs ++ subs_of G' its = subs_of G (it :: its).
Proof.
  intros Hok. destruct (flush_item_ok cfg Hcfg Hcfg_max it its w G now Hok) as (w' & s & subs & E & HG & Hc & Hl & Hh & Hok').
  destruct (flush_item_frame _ _ _ _ _ E) as [Hb Hf]. exists w', s, subs. eexists. do 7 (split; [done|]).
  pose proof (w_nodup _ _ _ _ _ Hok) as Hn. apply NoDup_cons in Hn as [Hn _].
  rewrite subs_of_other by done. unfold subs_of. simpl. by rewrite HG.
Qed.

#[local, refine] Instance Aggregator_laws : @AggLaws cfg (Aggregator_impl cfg) :=
  {| ai_ok := msg_ok; ai_subs _ msg := accepted_subs cfg msg |}.
Proof.
  - intros ps i w G msg now. apply handle_pick_ok.
  - intros ps w G id msg now Hw Hl Hm Hr. simpl.
    destruct (handle_append_ok cfg Hcfg ps w G id msg now Hw Hm Hr) as (w' & G' & E & I1 & I2 & I3 & I4).
    exists w', G'. split; [done|]. split; [done|]. split; [by eapply handle_append_lists|]. done.
  - apply flush_item_law.
Defined.

Definition add_ok (op : pool_op) : Prop := match op with PAdd msg => msg_ok msg | _ => True end.

(** C4: delivery in the first aggregator, with a configured buffer that has room
    for the header and a payload that its 16-bit length can tell.  Take any
    interleaving, up to time [T], of callers that add messages (of less than
    65530 bytes, for a 32-bit id and a 16-bit port) and of the steps of the
    workers'
    goroutines (a message is taken and its batch picked, it is appended; a
    deadline check pops the expired items, flushes them one by one, sends;
    evictions), in which no eviction of a worker overlaps the handling of a
    message or, from the pop to the last flush, a check of that worker.  Nothing
    panics and the messages leave the channel in the order
    they were added; when every worker ends what it is doing and makes one
    check after the last batch timeout, it holds nothing more, and the packets
    sent carry, together with the batches evictions dropped, exactly the
    accepted messages the workers took, each once.  Without an eviction
    nothing is dropped.  The code does not ensure the condition on evictions, and
    it is needed: after any of these runs, an eviction of a stale route while a
    check holds a popped item of that route panics. *)
Theorem aggregator_pool_delivers num ops T now :
  let p0 := NewAggregator num in
  Forall (λ x, add_ok x.1 ∧ x.2 ≤ T) ops → @evictions_apart _ (Aggregator_impl cfg) p0 ops = true →
  T + BatchTimeout cfg ≤ now →
  ∃ p e1 p' e2 outs lost,
    @pool_run _ (Aggregator_impl cfg) p0 ops = Ret (p, e1) ∧
    @settle _ (Aggregator_impl cfg) p T now = Ret (p', e2) ∧
    added e1 = (took e1).*2 ++ inputChan p ∧ inputChan p' = inputChan p ∧
    Forall2 carries (sent (e1 ++ e2)) outs ∧
    Forall2 (λ b subs, holds (pkt b) subs) (dropped (e1 ++ e2)) lost ∧
    mjoin outs ++ mjoin lost ≡ₚ (took e1 ≫= λ x, accepted_subs cfg x.2) ∧
    (Forall (λ x, ∀ i, x.1 ≠ PCell i CEvict) ops → lost = []) ∧ Forall idle (workers p') ∧
    ∀ i c it key v t, workers p !! i = Some c → it ∈ popped c →
      batches (c_worker c) !! key = Some v → hi_batch it ∈ v → stale_route (c_worker c) t v →
      panics (@pool_step _ (Aggregator_impl cfg) p (PCell i CEvict) t).
Proof.
  intros p0 Hops Hap Hnow.
  destruct (@pool_delivers cfg _ (Aggregator_impl cfg) Aggregator_laws (worker_count num aggWorkerNum)
    ops T now Hops Hap Hnow) as (p & e1 & p' & e2 & outs & lost & H1 & H2 & H3 & _ & _ & H4 & H5 & H6 & H7 & H8).
  exists p, e1, p', e2, outs, lost. do 7 (split; [done|]). split; [|split; [done|]].
  - intros Hne. destruct (events_app e1 e2) as (_ & _ & _ & E). rewrite E in H6.
    rewrite (no_evict_no_drop _ _ _ _ Hne H1), (finish_no_drop _ _ _ _ _ H2) in H6. by inversion H6.
  - destruct (@pool_run_inv cfg _ (Aggregator_impl cfg) Aggregator_laws _ _ _ _ _ Hops Hap H1) as (D & gs & Hinv).
    intros i c it key v t. by apply (@evict_in_check_panics cfg _ (Aggregator_impl cfg) Aggregator_laws D p gs).
Qed.
End First.

(** Two callers, two of the eight workers: a message arrives in a batch
    between the pop and the flush of its item. *)
Definition sample_pool_ops : list (pool_op * Z) :=
  [(PAdd (sample_msg 1 80), 0); (PAdd (sample_msg 2 80), 1); (PAdd (sample_msg 3 80), 1);
   (PTake 0, 2); (PCell 0 CAppend, 3); (PTake 1, 3); (PCell 0 CEvict, 4);
   (PCell 0 CPop, 150 * millisecond); (PTake 0, 151 * millisecond); (PCell 1 CAppend, 151 * millisecond);
   (PCell 0 CAppend, 152 * millisecond); (PCell 0 CFlush, 153 * millisecond)].

Lemma aggregator_pool_delivers_witness : ∃ p e1 p' e2 outs lost,
  @pool_run list_order (@Aggregator_impl no_ip6 sample_cfg) (NewAggregator 0) sample_pool_ops = Ret (p, e1) ∧
  @settle list_order (@Aggregator_impl no_ip6 sample_cfg) p (200 * millisecond) second = Ret (p', e2) ∧
  Forall2 carries (sent (e1 ++ e2)) outs ∧
  mjoin outs ++ mjoin lost ≡ₚ msg_sub <$> [sample_msg 1 80; sample_msg 2 80; sample_msg 3 80].
Proof.
  destruct (@aggregator_pool_delivers no_ip6 no_ip6_range list_order sample_cfg) with
    (num := 0) (ops := sample_pool_ops) (T := 200 * millisecond) (now := second)
    as (p & e1 & p' & e2 & outs & lost & H1 & H2 & _ & _ & H3 & _ & H5 & _).
  - vm_compute. lia.
  - reflexivity.
  - unfold sample_pool_ops. rewrite !Forall_cons, Forall_nil.
    repeat split; try (vm_compute; discriminate); try done.
  - vm_compute. reflexivity.
  - vm_compute. discriminate.
  - exists p, e1, p', e2, outs, lost. split; [exact H1|]. split; [exact H2|]. split; [exact H3|]. rewrite H5.
    assert (match @pool_run list_order (@Aggregator_impl no_ip6 sample_cfg) (NewAggregator 0) sample_pool_ops with
            | Ret r => took r.2 = [(0%nat, sample_msg 1 80); (1%nat, sample_msg 2 80); (0%nat, sample_msg 3 80)]
            | _ => False end) as Ht by (vm_compute; reflexivity).
    rewrite H1 in Ht. simpl in Ht. rewrite Ht. reflexivity.
Defined.

(** A message whose batch has been picked loses to an eviction that comes
    before its append: a route is idle for more than a minute, a message is put
    into its batch, the batch is picked for another message and evicted.  The
    evicted batch keeps its [heapItem], so it gets no new deadline, and the
    second message is neither sent nor among those dropped. *)
Definition handling_race_ops : list (pool_op * Z) :=
  [(PAdd (sample_msg 1 80), 0); (PTake 0, 1); (PCell 0 CAppend, 2);
   (PCell 0 CPop, 150 * millisecond); (PCell 0 CFlush, 150 * millisecond); (PCell 0 CSend, 150 * millisecond);
   (PAdd (sample_msg 2 80), 61 * second); (PAdd (sample_msg 3 80), 61 * second);
   (PTake 0, 61 * second); (PCell 0 CAppend, 61 * second + 1); (PTake 0, 61 * second + 2);
   (PCell 0 CEvict, 61 * second + 3); (PCell 0 CAppend, 61 * second + 4)].

Lemma evict_handling_loses : ∃ p e1 p' e2 b,
  @pool_run list_order (@Aggregator_impl no_ip6 sample_cfg) (NewAggregator 1) handling_race_ops = Ret (p, e1) ∧
  @settle list_order (@Aggregator_impl no_ip6 sample_cfg) p (62 * second) (63 * second) = Ret (p', e2) ∧
  (took e1).*2 = [sample_msg 1 80; sample_msg 2 80; sample_msg 3 80] ∧
  length (sent (e1 ++ e2)) = 1%nat ∧ dropped (e1 ++ e2) = [b] ∧
  (Wp (pkt b) = HeaderSize + 6 + length (data (sample_msg 2 80)))%nat ∧ inputChan p' = [] ∧
  Forall idle (workers p').
Proof.
  destruct (@pool_run list_order (@Aggregator_impl no_ip6 sample_cfg) (NewAggregator 1) handling_race_ops)
    as [[p e1]|] eqn:E; [|vm_compute in E; discriminate].
  exists p, e1. vm_compute in E. injection E as <- <-.
  match goal with |- context [settle ?p0 ?a ?b] =>
    destruct (@settle list_order (@Aggregator_impl no_ip6 sample_cfg) p0 a b) as [[p' e2]|] eqn:E;
      [|vm_compute in E; discriminate] end.
  exists p', e2. vm_compute in E. injection E as <- <-. eexists.
  do 4 (split; [reflexivity|]). split; [reflexivity|]. split; [vm_compute; reflexivity|].
  split; [reflexivity|]. by repeat constructor.
Qed.
