(* ===== verification/AggregatorV2.v ===== *)
(** * The second aggregator

    [data-proxy/aggregator/aggregator_v2.go]: sixteen shards, each with the
    worker of the first version, a large message instead of a small one going
    out at once, buffers from a pool, and sends through a dispatcher and a pool
    of send workers.  The data types are those of the first version
    ([aggregatorMsgV2], [BatchV2], [HeapItemV2], [MinHeapV2], [sendTask] have
    the same fields and methods), and the steps of a message that is not sent
    at once are the same code. *)
From Stdlib Require Import Ascii.
From S2P Require Import Prelude GoHeap GoStrings Net Packet Tunnel Aggregator Batching Eviction AggPool.
Local Open Scope Z_scope.
Local Open Scope go_scope.

#[export] Existing Instance fits_dec.

Definition shardCount : Z := 16.
Definition poolBufSize : nat := Z.to_nat (64 * 1024).

(** [hash/fnv]'s [New32a] over the bytes of the key. *)
Definition fnv32a_step (h : Z) (c : ascii) : Z :=
  uint32 (Z.lxor h (Z.of_N (Ascii.N_of_ascii c)) * 16777619).
Definition fnv32a (key : string) : Z :=
  foldl fnv32a_step 2166136261 (String.list_ascii_of_string key).

(** [int] has 64 bits, so the conversion keeps the value. *)
Definition hashRoutingKey (key : string) : Z := fnv32a key `mod` shardCount.

(** [bufPool.Get().([]byte)[:n]] and the copy of [n] bytes into it. *)
Definition pool_copy (buf : list Z) : go (list Z) :=
  if bool_decide (length buf ≤ poolBufSize)%nat then Ret buf
  else Panic "slice bounds out of range".

Definition pool_task (s : sendInfo) : go sendInfo :=
  let! buf := pool_copy (si_p s) in
  Ret {| si_p := buf; si_routingKey := si_routingKey s; si_next := si_next s |}.

Section V2.
Context `{Ip6Parser} (cfg : agg_config).

(** The path of an urgent message: the packet is copied into a pool buffer
    and becomes a send task. *)
Definition send_emergeV2 (msg : aggregatorMsg) (buffSize : nat) : go (list sendInfo) :=
  let! r := AppendUserPacket (route_packet msg buffSize) (userID msg) (data msg) in
  match r with
  | (false, _) => Ret []
  | (true, p) =>
      let! p := SerializeHead p in
      let! buf := slice_to (Buf p) (TotalBytes p) in
      let! t := pool_task {| si_p := buf; si_routingKey := routingKey msg; si_next := nextHop msg |} in
      Ret [t]
  end.

(** [handleMsg] up to the choice of the batch; the rest is the code of the
    first version. *)
Definition handle_pickV2 (w : worker) (msg : aggregatorMsg) (now : Z)
    : go (option nat * worker * list sendInfo) :=
  let large := bool_decide (1024 ≤ length (data msg))%nat in
  let buffSize := if large then (HeaderSize + 4 + 2 + length (data msg))%nat else BufferSize cfg in
  if large || emerge msg then
    let! out := send_emergeV2 msg buffSize in Ret (None, w, out)
  else
    let '(picked, w) := pick_batch cfg w msg buffSize now in Ret (picked, w, []).

Definition handleMsgV2 (w : worker) (msg : aggregatorMsg) (now : Z) : go (worker * list sendInfo) :=
  let large := bool_decide (1024 ≤ length (data msg))%nat in
  let buffSize := if large then (HeaderSize + 4 + 2 + length (data msg))%nat else BufferSize cfg in
  if large || emerge msg then
    let! out := send_emergeV2 msg buffSize in Ret (w, out)
  else
    let '(picked, w) := pick_batch cfg w msg buffSize now in
    match picked with
    | None => Ret (w, [])
    | Some id =>
        let! (id, w) := append_batch w id msg buffSize now in
        let! w := schedule cfg w id now in
        Ret (w, [])
    end.

(** An expired batch, copied into a pool buffer before it is reset. *)
Definition flush_task (w : worker) (item : HeapItem) (now : Z) : go (worker * sendInfo) :=
  let! (w, s) := flush_item w item now in
  let! t := pool_task s in
  Ret (w, t).

Fixpoint flush_tasks (w : worker) (items : list HeapItem) (now : Z) : go (worker * list sendInfo) :=
  match items with
  | [] => Ret (w, [])
  | item :: items =>
      let! (w, t) := flush_task w item now in
      let! (w, l) := flush_tasks w items now in
      Ret (w, t :: l)
  end.

Definition checkTimeoutV2 (w : worker) (now : Z) : go (worker * list sendInfo) :=
  let '(expired, h) := pop_expired (length (heap w)) (heap w) now in
  flush_tasks (set_heap h w) expired now.

(** One turn of the message loop of shard [i]: a message that belongs to
    another shard is thrown away. *)
Definition shard_take (i : nat) (w : worker) (msg : aggregatorMsg) (now : Z)
    : go (option nat * worker * list sendInfo) :=
  if bool_decide (hashRoutingKey (routingKey msg) = Z.of_nat i) then handle_pickV2 w msg now
  else Ret (None, w, []).

Definition AggregatorV2_impl : AggImpl :=
  {| ai_pick := shard_take; ai_append := handle_append cfg; ai_flush := flush_task; ai_late := false |}.
End V2.

Definition NewAggregatorV2 : pool := new_pool (Z.to_nat shardCount).

(** [evictStaleBatches] goes through the shards in turn. *)
Definition evict_shards (now : Z) : list (pool_op * Z) :=
  (λ i, (PCell i CEvict, now)) <$> seq 0 (Z.to_nat shardCount).

(** ** The steps put together

    The steps of a message are [handleMsg], and those of a deadline check are
    [checkTimeout]. *)
Section Steps.
Context `{Ip6Parser} (cfg : agg_config).

Lemma handleMsgV2_steps w msg now : handleMsgV2 cfg w msg now =
  (let! (picked, w, out) := handle_pickV2 cfg w msg now in
   match picked with
   | None => Ret (w, out)
   | Some id => let! w := handle_append cfg w id msg now in Ret (w, out)
   end).
Proof.
  unfold handleMsgV2, handle_pickV2, handle_append.
  destruct (bool_decide (1024 ≤ length (data msg))%nat); cbn [orb]; [by destruct (send_emergeV2 _ _)|].
  destruct (emerge msg); [by destruct (send_emergeV2 _ _)|].
  destruct (pick_batch _ _ _ _ _) as [[id|] w1]; [|done].
  cbn [go_bind]. by destruct (append_batch _ _ _ _ _) as [[id2 w2]|].
Qed.

Abbreviation run := (@cell_run _ (AggregatorV2_impl cfg)).

Lemma flush_task_steps `{RangeOrder} k l w hd t now : (length l ≤ k)%nat →
  run {| c_worker := w; handling := hd; popped := l; checked := t; toSend := [] |}
    (replicate k (CFlush, now)) =
  (let! (w, ss) := flush_tasks w l t in
   Ret ({| c_worker := w; handling := hd; popped := []; checked := t; toSend := [] |}, Sent <$> ss)).
Proof.
  revert l w. induction k as [|k IH]; intros [|it l] w Hk; simpl in Hk; try lia; [done|..];
    change (replicate (S k) (CFlush, now)) with ([(CFlush, now)] ++ replicate k (CFlush, now));
    cbn [cell_run app cell_step popped go_bind c_worker handling checked toSend ai_flush ai_late
         AggregatorV2_impl flush_tasks].
  - by rewrite IH by (simpl; lia).
  - destruct (flush_task w it t) as [[w1 s]|]; [|done]. cbn [go_bind]. rewrite IH by lia.
    by destruct (flush_tasks w1 l t) as [[w2 ss]|].
Qed.

Lemma checkTimeoutV2_steps `{RangeOrder} w hd t now :
  run {| c_worker := w; handling := hd; popped := []; checked := t; toSend := [] |}
    ((CPop, now) :: replicate (length (heap w)) (CFlush, now)) =
  (let! (w, out) := checkTimeoutV2 w now in
   Ret ({| c_worker := w; handling := hd; popped := []; checked := now; toSend := [] |}, Sent <$> out)).
Proof.
  cbn [cell_run cell_step popped toSend c_worker handling]. unfold checkTimeoutV2.
  pose proof (pop_expired_length (length (heap w)) (heap w) now) as Hl.
  destruct (pop_expired (length (heap w)) (heap w) now) as [l h]. cbn [fst go_bind] in *.
  rewrite flush_task_steps by done. by destruct (flush_tasks _ l now) as [[w1 ss]|].
Qed.
End Steps.

Lemma fnv32a_range key : 0 ≤ fnv32a key < 2 ^ 32.
Proof.
  unfold fnv32a. generalize (String.list_ascii_of_string key) as l. intros l.
  destruct l as [|c l _] using rev_ind; [vm_compute; split; congruence|].
  rewrite foldl_app. simpl. unfold fnv32a_step, uint32. apply Z.mod_pos_bound. lia.
Qed.

Lemma hashRoutingKey_range key : 0 ≤ hashRoutingKey key < shardCount.
Proof. apply Z.mod_pos_bound. reflexivity. Qed.

Lemma fnv32a_examples : fnv32a "" = 2166136261 ∧ fnv32a "a" = 3826002220 ∧ fnv32a "foobar" = 3214735720.
Proof. by vm_compute. Qed.

(** ** Pool buffers that are large enough *)
Lemma pool_task_fits s : (length (si_p s) ≤ poolBufSize)%nat → pool_task s = Ret s.
Proof.
  intros Hl. unfold pool_task, pool_copy. rewrite bool_decide_eq_true_2 by done. by destruct s.
Qed.

Lemma slice_to_length buf n b : slice_to buf n = Ret b → (length b ≤ length buf)%nat.
Proof. unfold slice_to. case_bool_decide; [|done]. intros [= <-]. rewrite length_take. lia. Qed.

Lemma SerializeHead_length p subs p' : holds p subs → SerializeHead p = Ret p' →
  length (Buf p') = BuffSize p.
Proof.
  intros Hh. rewrite (SerializeHead_buf p subs Hh). intros E.
  assert (p' = set_Buf p (header_bytes p ++ drop 22 (Buf p))) as -> by congruence.
  pose proof (h_size _ _ Hh). pose proof (h_room _ _ Hh) as Hr. unfold HeaderSize in Hr.
  cbn [set_Buf Buf]. rewrite length_app, length_drop, header_bytes_length by (by apply (h_hops _ _ Hh)). lia.
Qed.

Section Correct2.
Context `{IP6 : Ip6Parser} `{!Ip6Range} (cfg : agg_config).
Hypothesis Hcfg : (HeaderSize ≤ BufferSize cfg)%nat.
Hypothesis Hcfg_max : (BufferSize cfg ≤ poolBufSize)%nat.

Lemma send_emergeV2_eq msg size : (HeaderSize ≤ size ≤ poolBufSize)%nat → msg_ok msg →
  send_emergeV2 msg size = send_emerge msg size.
Proof.
  intros [Hs Hmax] Hm. unfold send_emergeV2, send_emerge.
  destruct (append_route msg size Hs Hm) as (p & -> & Hh & Hz & Hb). cbn [go_bind].
  destruct (decide (fits msg size)) as [Hf|Hf]; [|by rewrite bool_decide_eq_false_2].
  rewrite bool_decide_eq_true_2 by done.
  destruct (serialize_carries p [msg_sub msg] (routingKey msg) (nextHop msg) Hh Hz)
    as (p' & buf & Hp' & Hbuf & _ & _ & Hlen).
  { rewrite encode_cons, length_app, encode_sub_length. simpl. pose proof (m_data _ Hm). lia. }
  rewrite Hp'. cbn [go_bind]. rewrite Hbuf. cbn [go_bind]. rewrite pool_task_fits.
  - unfold flush. cbn [go_bind]. by rewrite bool_decide_eq_false_2 by lia.
  - apply slice_to_length in Hbuf. rewrite (SerializeHead_length _ _ _ Hh Hp'), Hb in Hbuf. simpl. lia.
Qed.

Lemma flush_item_length it its w G now w' s : worker_ok cfg (it :: its) w G None →
  flush_item w it now = Ret (w', s) → (length (si_p s) ≤ BufferSize cfg)%nat.
Proof.
  intros Hok. destruct (w_items _ _ _ _ _ Hok it) as (_ & b & Hb & _); [left|].
  destruct (w_batch _ _ _ _ _ Hok _ _ Hb) as [_ [(subs & _ & Hh & _) Hsz]].
  unfold flush_item. rewrite Hb. destruct (SerializeHead (pkt b)) as [p|] eqn:Hp; [|done].
  cbn [go_bind]. destruct (slice_to (Buf p) (TotalBytes p)) as [buf|] eqn:Hbuf; [|done].
  cbn [go_bind]. intros [= _ <-]. simpl. apply slice_to_length in Hbuf.
  rewrite (SerializeHead_length _ _ _ Hh Hp) in Hbuf. lia.
Qed.

Lemma Hcfg_16 : Z.of_nat (BufferSize cfg) < 2 ^ 16 + Z.of_nat HeaderSize.
Proof. unfold poolBufSize, HeaderSize in *. lia. Qed.

Lemma flush_task_eq it its w G now : worker_ok cfg (it :: its) w G None →
  flush_task w it now = flush_item w it now.
Proof.
  intros Hok. unfold flush_task.
  destruct (flush_item_ok cfg Hcfg Hcfg_16 it its w G now Hok) as (w1 & s & subs & E & _).
  rewrite E. cbn [go_bind]. rewrite pool_task_fits; [done|].
  pose proof (flush_item_length _ _ _ _ _ _ _ Hok E). lia.
Qed.

(** ** A message of a shard *)
Definition acceptedV2 (msg : aggregatorMsg) : Prop :=
  (1024 ≤ length (data msg))%nat ∨ fits msg (BufferSize cfg).
#[export] Instance acceptedV2_dec msg : Decision (acceptedV2 msg).
Proof. unfold acceptedV2. apply _. Defined.

Definition subsV2 (msg : aggregatorMsg) : list SubPacket :=
  if decide (acceptedV2 msg) then [msg_sub msg] else [].

(** A packet with the message alone has to fit a pool buffer. *)
Record msg_okV2 (msg : aggregatorMsg) : Prop := {
  m2_ok : msg_ok msg;
  m2_pool : fits msg poolBufSize;
}.

Lemma handle_pickV2_ok ps w G msg now : worker_ok cfg (ps ++ items w) w G None → lists_ok w → msg_okV2 msg →
  ∃ picked w' G' out outs, handle_pickV2 cfg w msg now = Ret (picked, w', out) ∧
    worker_ok cfg (ps ++ items w') w' G' None ∧ lists_ok w' ∧ items w' = items w ∧
    Forall2 carries out outs ∧ subs_of G' (ps ++ items w') = subs_of G (ps ++ items w) ∧
    mjoin outs ++ (if picked is Some _ then batch_subs cfg msg else []) = subsV2 msg ∧
    ∀ id, picked = Some id → in_route w' (routingKey msg) id.
Proof.
  intros Hw Hl [Hm Hfit]. unfold handle_pickV2, subsV2. destruct (_ || emerge msg) eqn:He.
  - set (size := if bool_decide _ then _ else _).
    assert (HeaderSize ≤ size ≤ poolBufSize)%nat as Hsize.
    { unfold size, fits, HeaderSize in *. case_bool_decide; lia. }
    rewrite send_emergeV2_eq by done.
    destruct (send_emerge_ok msg size) as (out & -> & Hout); [lia|done|]. cbn [go_bind].
    assert (fits msg size ↔ acceptedV2 msg) as Hacc.
    { unfold acceptedV2, size, fits. case_bool_decide; [|tauto]. split; [by left|lia]. }
    rewrite (decide_ext _ _ _ _ Hacc) in Hout.
    assert (∃ outs, Forall2 carries out outs ∧
      mjoin outs = if decide (acceptedV2 msg) then [msg_sub msg] else []) as (outs & Ho & Hj).
    { destruct (decide (acceptedV2 msg)); [destruct Hout as (s & -> & Hc); exists [[msg_sub msg]]|subst out; exists []];
        split; try done; by repeat constructor. }
    exists None, w, G, out, outs. do 6 (split; [done|]). split; [by rewrite app_nil_r|done].
  - apply orb_false_iff in He as [Hs _]. rewrite Hs. apply bool_decide_eq_false in Hs.
    destruct (pick_batch_ok cfg Hcfg ps w G msg now Hw Hm) as (id & w1 & G1 & E & I1 & P1 & T1 & L1).
    rewrite E. exists (Some id), w1, G1, [], []. split; [done|]. split; [done|].
    split; [by eapply pick_batch_lists|]. split; [done|]. split; [constructor|]. split; [done|].
    split; [|by intros ? [= <-]]. unfold batch_subs. cbn [mjoin list_join app].
    rewrite (decide_ext (acceptedV2 msg) (HeaderSize + 6 + length (data msg) ≤ BufferSize cfg)%nat); [done|].
    unfold acceptedV2. split; [intros [?|?]; [lia|done]|by right].
Qed.

(** The user packets shard [i] accepts: those of its own keys. *)
Definition shard_subs (i : nat) (msg : aggregatorMsg) : list SubPacket :=
  if bool_decide (hashRoutingKey (routingKey msg) = Z.of_nat i) then subsV2 msg else [].

#[local, refine] Instance AggregatorV2_laws : @AggLaws cfg (AggregatorV2_impl cfg) :=
  {| ai_ok := msg_okV2; ai_subs := shard_subs |}.
Proof.
  - intros ps i w G msg now Hw Hl Hm. simpl. unfold shard_take, shard_subs. case_bool_decide.
    + by apply handle_pickV2_ok.
    + exists None, w, G, [], []. do 4 (split; [done|]). split; [constructor|]. done.
  - intros ps w G id msg now Hw Hl Hm Hr. simpl.
    destruct (handle_append_ok cfg Hcfg ps w G id msg now Hw (m2_ok _ Hm) Hr) as (w' & G' & E & I1 & I2 & I3 & I4).
    exists w', G'. split; [done|]. split; [done|]. split; [by eapply handle_append_lists|]. done.
  - intros it its w G now Hok. simpl. rewrite (flush_task_eq it its w G) by done.
    by apply flush_item_law; [|apply Hcfg_16|].
Defined.

(** A message whose packet does not fit a pool buffer crashes its shard. *)
Lemma oversized_panics w msg now : msg_ok msg → ¬ fits msg poolBufSize → panics (handleMsgV2 cfg w msg now).
Proof.
  intros Hm Hbig. unfold handleMsgV2. pose proof (m_data _ Hm) as Hd.
  rewrite (bool_decide_eq_true_2 (1024 ≤ _)%nat) by (unfold fits, poolBufSize, HeaderSize in *; lia).
  cbn [orb]. unfold send_emergeV2. set (size := (HeaderSize + 4 + 2 + length (data msg))%nat).
  assert (fits msg size) as Hf by (unfold fits, size; lia).
  destruct (append_route msg size) as (p & -> & Hh & Hz & Hb); [unfold size; lia|done|].
  cbn [go_bind]. rewrite bool_decide_eq_true_2 by done. rewrite decide_True in Hh, Hz by done.
  assert (length (encode [msg_sub msg]) = 6 + length (data msg))%nat as Hlen.
  { rewrite encode_cons, length_app, encode_sub_length. simpl. lia. }
  destruct (serialize_carries p [msg_sub msg] (routingKey msg) (nextHop msg) Hh Hz)
    as (p' & buf & Hp' & Hbuf & _); [rewrite Hlen; lia|].
  assert (length buf = size) as Hbl.
  { unfold slice_to in Hbuf. case_bool_decide; [|done]. injection Hbuf as <-. rewrite length_take_le by done.
    rewrite (SerializeHead_buf p _ Hh) in Hp'.
    assert (p' = set_Buf p (header_bytes p ++ drop 22 (Buf p))) as -> by congruence.
    unfold TotalBytes. cbn [set_Buf PayloadLen]. rewrite Hz, Hlen. unfold uint16.
    rewrite Z.mod_small by lia. unfold size. lia. }
  rewrite Hp'. cbn [go_bind]. rewrite Hbuf. cbn [go_bind]. unfold pool_task, pool_copy.
  cbn [si_p]. rewrite bool_decide_eq_false_2 by (rewrite Hbl; unfold fits, size in *; lia). by eexists.
Qed.

Definition add_okV2 (op : pool_op) : Prop := match op with PAdd msg => msg_okV2 msg | _ => True end.

(** C5: the second aggregator delivers what its shards take for themselves,
    less what evictions drop, and loses the rest.  Take any interleaving, up to
    time [T], of callers, of the steps of the shards' goroutines (a message is
    taken and its batch picked, it is appended; a deadline check pops the
    expired items and flushes them one by one) and of evictions, with messages
    (for a 32-bit id and a 16-bit port) and a configured buffer, with room for the
    header, that fit the 64 KB pool buffers, in which no
    eviction of a shard overlaps the handling of a message or a check of that
    shard.  Nothing panics; when
    every shard ends what it is doing and makes one check after the last batch
    timeout, the tasks queued for sending carry, with the batches evictions
    dropped, exactly the accepted messages that the shard of their own routing
    key took.  Every other message a shard takes out of the common channel is
    gone.  The code does not ensure the condition on evictions, and it is needed:
    after any of these runs, an eviction of a stale route while a check holds a
    popped item of that route panics. *)
Theorem aggregatorV2_delivers `{RangeOrder} ops T now :
  Forall (λ x, add_okV2 x.1 ∧ x.2 ≤ T) ops →
  @evictions_apart _ (AggregatorV2_impl cfg) NewAggregatorV2 ops = true → T + BatchTimeout cfg ≤ now →
  ∃ p e1 p' e2 outs lost,
    @pool_run _ (AggregatorV2_impl cfg) NewAggregatorV2 ops = Ret (p, e1) ∧
    @settle _ (AggregatorV2_impl cfg) p T now = Ret (p', e2) ∧
    added e1 = (took e1).*2 ++ inputChan p ∧ inputChan p' = inputChan p ∧
    Forall2 carries (sent (e1 ++ e2)) outs ∧
    Forall2 (λ b subs, holds (pkt b) subs) (dropped (e1 ++ e2)) lost ∧
    mjoin outs ++ mjoin lost ≡ₚ
      (filter (λ x : nat * aggregatorMsg, hashRoutingKey (routingKey x.2) = Z.of_nat x.1) (took e1)
         ≫= λ x, subsV2 x.2) ∧
    (Forall (λ x, ∀ i, x.1 ≠ PCell i CEvict) ops → lost = []) ∧ Forall idle (workers p') ∧
    ∀ i c it key v t, workers p !! i = Some c → it ∈ popped c →
      batches (c_worker c) !! key = Some v → hi_batch it ∈ v → stale_route (c_worker c) t v →
      panics (@pool_step _ (AggregatorV2_impl cfg) p (PCell i CEvict) t).
Proof.
  intros Hops Hap Hnow.
  destruct (@pool_delivers cfg _ (AggregatorV2_impl cfg) AggregatorV2_laws (Z.to_nat shardCount) ops T now
    Hops Hap Hnow) as (p & e1 & p' & e2 & outs & lost & H1 & H2 & H3 & _ & _ & H4 & H5 & H6 & H7 & H8).
  exists p, e1, p', e2, outs, lost. do 6 (split; [done|]). split; [|split; [|split; [done|]]].
  - rewrite H7. apply reflexive_eq. clear. induction (took e1) as [|[i msg] l IH]; [done|].
    rewrite filter_cons, bind_cons, IH. simpl. unfold shard_subs.
    case_bool_decide; case_decide; done.
  - intros Hne. destruct (events_app e1 e2) as (_ & _ & _ & E). rewrite E in H6.
    rewrite (no_evict_no_drop _ _ _ _ Hne H1), (finish_no_drop _ _ _ _ _ H2) in H6. by inversion H6.
  - destruct (@pool_run_inv cfg _ (AggregatorV2_impl cfg) AggregatorV2_laws _ _ _ _ _ Hops Hap H1) as (D & gs & Hinv).
    intros i c it key v t. by apply (@evict_in_check_panics cfg _ (AggregatorV2_impl cfg) AggregatorV2_laws D p gs).
Qed.
End Correct2.

(** Two messages of one route: the shard of the key takes the first, another
    shard the second.  The first is sent by a check that another message of
    the shard falls into. *)
Definition sample_shard : nat := Z.to_nat (hashRoutingKey (routingKey (sample_msg 1 80))).

Definition sample_v2_ops : list (pool_op * Z) :=
  [(PAdd (sample_msg 1 80), 0); (PAdd (sample_msg 2 80), 1); (PAdd (sample_msg 3 80), 1);
   (PTake sample_shard, 2); (PTake (S sample_shard `mod` 16)%nat, 3); (PCell sample_shard CAppend, 3);
   (PCell sample_shard CEvict, 4); (PCell sample_shard CPop, 150 * millisecond);
   (PTake sample_shard, 151 * millisecond); (PCell sample_shard CFlush, 152 * millisecond)].

Lemma sample_msg_okV2 uid p : 0 ≤ uid < 2 ^ 32 → 0 ≤ p < 2 ^ 16 → msg_okV2 (sample_msg uid p).
Proof.
  intros Hu Hp. split; [by apply sample_msg_ok|]. unfold fits.
  change (length (data (sample_msg uid p))) with 200%nat. unfold HeaderSize, poolBufSize. lia.
Qed.

Lemma aggregatorV2_delivers_witness : ∃ p e1 p' e2 outs lost,
  @pool_run list_order (@AggregatorV2_impl no_ip6 sample_cfg) NewAggregatorV2 sample_v2_ops = Ret (p, e1) ∧
  @settle list_order (@AggregatorV2_impl no_ip6 sample_cfg) p (200 * millisecond) second = Ret (p', e2) ∧
  added e1 = [sample_msg 1 80; sample_msg 2 80; sample_msg 3 80] ∧ inputChan p = [] ∧
  Forall2 carries (sent (e1 ++ e2)) outs ∧
  mjoin outs ++ mjoin lost ≡ₚ [msg_sub (sample_msg 1 80); msg_sub (sample_msg 3 80)].
Proof.
  destruct (@aggregatorV2_delivers no_ip6 no_ip6_range sample_cfg) with
    (H0 := list_order) (ops := sample_v2_ops) (T := 200 * millisecond) (now := second)
    as (p & e1 & p' & e2 & outs & lost & H1 & H2 & _ & _ & H3 & _ & H5 & _).
  - vm_compute. lia.
  - unfold poolBufSize. cbn [BufferSize sample_cfg]. lia.
  - unfold sample_v2_ops. rewrite !Forall_cons, Forall_nil.
    split; [split; [apply sample_msg_okV2; lia|vm_compute; discriminate]|].
    split; [split; [apply sample_msg_okV2; lia|vm_compute; discriminate]|].
    split; [split; [apply sample_msg_okV2; lia|vm_compute; discriminate]|].
    repeat split; vm_compute; discriminate.
  - vm_compute. reflexivity.
  - vm_compute. discriminate.
  - assert (match @pool_run list_order (@AggregatorV2_impl no_ip6 sample_cfg) NewAggregatorV2 sample_v2_ops with
            | Ret r => added r.2 = [sample_msg 1 80; sample_msg 2 80; sample_msg 3 80] ∧ inputChan r.1 = [] ∧
                (filter (λ x : nat * aggregatorMsg, hashRoutingKey (routingKey x.2) = Z.of_nat x.1) (took r.2)
                   ≫= λ x, subsV2 sample_cfg x.2) = [msg_sub (sample_msg 1 80); msg_sub (sample_msg 3 80)]
            | _ => False end) as Ht by (vm_compute; auto).
    rewrite H1 in Ht. destruct Ht as (Ha & Hc & Ht). exists p, e1, p', e2, outs, lost. split; [exact H1|].
    split; [exact H2|]. split; [exact Ha|]. split; [exact Hc|]. split; [exact H3|]. rewrite H5. simpl in Ht. by rewrite Ht.
Defined.
