(* ===== verification/Dispatch.v ===== *)
(** * The senders of the second aggregator

    [data-proxy/aggregator/aggregator_v2.go]: the shards put send tasks into
    one channel, a dispatcher hands each task to the send worker its routing
    key hashes to, and the send workers call [TunnelMgr.SendPacket].  Every
    channel has its capacity and can be closed; a goroutine that has to wait
    does not move. *)
From S2P Require Import Prelude GoHeap GoStrings Net Packet Tunnel Aggregator Batching Eviction AggPool AggregatorV2.
Local Open Scope Z_scope.
Local Open Scope go_scope.

(** ** Channels *)
Record channel := {
  queue : list sendInfo;
  cap : nat;
  closed : bool;
}.

Definition make_chan (n : nat) : channel := {| queue := []; cap := n; closed := false |}.

(** [c <- t]; [None] waits. *)
Definition chan_send (c : channel) (t : sendInfo) : option (go channel) :=
  if closed c then Some (Panic "send on closed channel")
  else if bool_decide (length (queue c) < cap c)%nat
  then Some (Ret {| queue := queue c ++ [t]; cap := cap c; closed := false |})
  else None.

(** [t, ok := <-c]; [None] waits, [Some (None, _)] is a closed and empty
    channel. *)
Definition chan_recv (c : channel) : option (option sendInfo * channel) :=
  match queue c with
  | t :: q => Some (Some t, {| queue := q; cap := cap c; closed := closed c |})
  | [] => if closed c then Some (None, c) else None
  end.

Definition chan_close (c : channel) : go channel :=
  if closed c then Panic "close of closed channel"
  else Ret {| queue := queue c; cap := cap c; closed := true |}.

Fixpoint close_all (cs : list channel) : go (list channel) :=
  match cs with
  | [] => Ret []
  | c :: cs => let! c := chan_close c in let! cs := close_all cs in Ret (c :: cs)
  end.

(** The zero value of [sendTask]. *)
Definition zero_task : sendInfo := {| si_p := []; si_routingKey := ""; si_next := None |}.

(** ** The sending side of [AggregatorV2] *)
Inductive dispatcher := DWaiting | DHolding (t : sendInfo) | DExited.

Record senders := {
  sendTaskCh : channel;
  disp : dispatcher;
  sendWorkers : list channel;   (** their [taskCh] *)
  done_ : list sendInfo;        (** the calls of [SendPacket] so far *)
}.

Definition aggWorkerCount : Z := 8.

(** The sending half of [NewAggregatorV2]. *)
Definition new_senders (AggWorkerCount : Z) : senders :=
  {| sendTaskCh := make_chan (Z.to_nat 10000); disp := DWaiting;
     sendWorkers := replicate (worker_count AggWorkerCount aggWorkerCount) (make_chan 100);
     done_ := [] |}.

Inductive sender_op := SPut (t : sendInfo) | SRecv | SForward | SSend (i : nat) | SStop.

Definition worker_of (n : nat) (key : string) : nat :=
  Z.to_nat (hashRoutingKey key `mod` Z.of_nat n).

(** A shard puts a task into the channel. *)
Definition put_task (s : senders) (t : sendInfo) : option (go senders) :=
  match chan_send (sendTaskCh s) t with
  | Some (Ret c) => Some (Ret {| sendTaskCh := c; disp := disp s; sendWorkers := sendWorkers s; done_ := done_ s |})
  | Some (Panic why) => Some (Panic why)
  | None => None
  end.

(** [for task := range a.sendTaskCh]: taking a task, or leaving the loop. *)
Definition dispatcher_recv (s : senders) : option (go senders) :=
  match disp s with
  | DWaiting =>
      match chan_recv (sendTaskCh s) with
      | Some (Some t, c) =>
          Some (Ret {| sendTaskCh := c; disp := DHolding t; sendWorkers := sendWorkers s; done_ := done_ s |})
      | Some (None, c) =>
          Some (Ret {| sendTaskCh := c; disp := DExited; sendWorkers := sendWorkers s; done_ := done_ s |})
      | None => None
      end
  | _ => None
  end.

(** [a.sendWorkers[idx].taskCh <- task] *)
Definition dispatcher_forward (s : senders) : option (go senders) :=
  match disp s with
  | DHolding t =>
      let idx := worker_of (length (sendWorkers s)) (si_routingKey t) in
      match sendWorkers s !! idx with
      | None => Some (Panic "index out of range")
      | Some c =>
          match chan_send c t with
          | Some (Ret c) => Some (Ret {| sendTaskCh := sendTaskCh s; disp := DWaiting;
                                         sendWorkers := <[idx := c]> (sendWorkers s); done_ := done_ s |})
          | Some (Panic why) => Some (Panic why)
          | None => None
          end
      end
  | _ => None
  end.

(** One turn of a send worker: [task := <-w.taskCh] yields the zero task on a
    closed channel; its [stopCh] is never closed.  [sendPacket] calls
    [SendPacket] and logs an error. *)
Definition worker_send (s : senders) (i : nat) : option (go senders) :=
  match sendWorkers s !! i with
  | None => None
  | Some c =>
      match chan_recv c with
      | None => None
      | Some (t, c) =>
          Some (Ret {| sendTaskCh := sendTaskCh s; disp := disp s; sendWorkers := <[i := c]> (sendWorkers s);
                       done_ := done_ s ++ [default zero_task t] |})
      end
  end.

(** [Stop] up to its [wg.Wait]. *)
Definition Stop (s : senders) : go senders :=
  let! c := chan_close (sendTaskCh s) in
  let! cs := close_all (sendWorkers s) in
  Ret {| sendTaskCh := c; disp := disp s; sendWorkers := cs; done_ := done_ s |}.

Definition sender_step (s : senders) (op : sender_op) : option (go senders) :=
  match op with
  | SPut t => put_task s t
  | SRecv => dispatcher_recv s
  | SForward => dispatcher_forward s
  | SSend i => worker_send s i
  | SStop => Some (Stop s)
  end.

(** The task an operation brings in, if it does not wait. *)
Definition op_task (op : sender_op) : list sendInfo :=
  match op with SPut t => [t] | _ => [] end.

Fixpoint sender_run (s : senders) (ops : list sender_op) : go (senders * list sendInfo) :=
  match ops with
  | [] => Ret (s, [])
  | op :: ops =>
      match sender_step s op with
      | None => sender_run s ops
      | Some r =>
          let! s := r in
          let! (s, acc) := sender_run s ops in Ret (s, op_task op ++ acc)
      end
  end.

(** ** Order *)
Definition on_route (key : string) (l : list sendInfo) : list sendInfo :=
  filter (λ t, si_routingKey t = key) l.

Lemma on_route_app key l1 l2 : on_route key (l1 ++ l2) = on_route key l1 ++ on_route key l2.
Proof. apply filter_app. Qed.

Lemma on_route_single key t : on_route key [t] = if decide (si_routingKey t = key) then [t] else [].
Proof. unfold on_route. rewrite filter_cons. by case_decide. Qed.

Definition held (d : dispatcher) : list sendInfo := match d with DHolding t => [t] | _ => [] end.

(** The queue of the send worker of a key. *)
Definition key_queue (cs : list channel) (key : string) : list sendInfo :=
  match cs !! worker_of (length cs) key with Some c => queue c | None => [] end.

(** [acc] are the tasks put in so far. *)
Record senders_ok (s : senders) (acc : list sendInfo) : Prop := {
  so_open : closed (sendTaskCh s) = false;
  so_workers : Forall (λ c, closed c = false ∧ (0 < cap c)%nat) (sendWorkers s);
  so_some : (0 < length (sendWorkers s))%nat;
  so_disp : disp s ≠ DExited;
  so_own i c t : sendWorkers s !! i = Some c → t ∈ queue c →
    worker_of (length (sendWorkers s)) (si_routingKey t) = i;
  so_order key : on_route key (done_ s ++ key_queue (sendWorkers s) key ++ held (disp s) ++
    queue (sendTaskCh s)) = on_route key acc;
}.

Lemma new_senders_ok num : senders_ok (new_senders num) [].
Proof.
  split; simpl; try done.
  - apply Forall_replicate. split; [done|simpl; lia].
  - rewrite length_replicate. unfold worker_count, aggWorkerCount. case_bool_decide; lia.
  - intros i c t Hc Ht. apply lookup_replicate in Hc as [-> _]. by apply not_elem_of_nil in Ht.
  - intros key. unfold key_queue. destruct (_ !! _) as [c|] eqn:Hc; [|done].
    by apply lookup_replicate in Hc as [-> _].
Qed.

Lemma worker_of_lt n key : (0 < n)%nat → (worker_of n key < n)%nat.
Proof.
  intros Hn. unfold worker_of. pose proof (Z.mod_pos_bound (hashRoutingKey key) (Z.of_nat n)). lia.
Qed.

(** A worker's queue changes from [q] to [q']; the other keys do not see it. *)
Lemma key_queue_insert cs i c c' key : cs !! i = Some c →
  key_queue (<[i := c']> cs) key =
    if decide (worker_of (length cs) key = i) then queue c' else key_queue cs key.
Proof.
  intros Hc. unfold key_queue. rewrite length_insert. case_decide as He.
  - subst i. by rewrite list_lookup_insert_eq by (by eapply lookup_lt_Some).
  - by rewrite list_lookup_insert_ne.
Qed.

Lemma put_task_ok s acc t r : senders_ok s acc → put_task s t = Some r →
  ∃ s', r = Ret s' ∧ senders_ok s' (acc ++ [t]).
Proof.
  intros [H1 H2 H3 H4 H5 H6]. unfold put_task, chan_send. rewrite H1. case_bool_decide; [|done].
  intros [= <-]. eexists. split; [done|]. split; try done. intros key. simpl.
  by rewrite (on_route_app key acc), <-H6, !app_assoc, !on_route_app.
Qed.

Lemma recv_ok s acc r : senders_ok s acc → dispatcher_recv s = Some r →
  ∃ s', r = Ret s' ∧ senders_ok s' acc.
Proof.
  intros [H1 H2 H3 H4 H5 H6]. unfold dispatcher_recv, chan_recv. destruct (disp s) eqn:Hd; [|done..].
  destruct (queue (sendTaskCh s)) as [|t q] eqn:Hq; [by rewrite H1|].
  intros [= <-]. eexists. split; [done|]. by split.
Qed.

Lemma forward_ok s acc r : senders_ok s acc → dispatcher_forward s = Some r →
  ∃ s', r = Ret s' ∧ senders_ok s' acc.
Proof.
  intros [H1 H2 H3 H4 H5 H6]. unfold dispatcher_forward. destruct (disp s) as [|t|] eqn:Hd; [done| |done].
  set (idx := worker_of (length (sendWorkers s)) (si_routingKey t)).
  destruct (lookup_lt_is_Some_2 (sendWorkers s) idx) as [c Hc]; [by apply worker_of_lt|]. rewrite Hc.
  rewrite Forall_lookup in H2. destruct (H2 idx c Hc) as [Ho Hcap].
  unfold chan_send. rewrite Ho. case_bool_decide; [|done].
  intros [= <-]. eexists. split; [done|]. split; simpl; try done.
  - apply Forall_insert; [by apply Forall_lookup|done].
  - by rewrite length_insert.
  - intros i c' t' Hi Ht. rewrite length_insert.
    apply list_lookup_insert_Some in Hi as [(<- & <- & _)|[Hne Hi]]; [|by eapply H5].
    simpl in Ht. apply elem_of_app in Ht as [Ht| ->%list_elem_of_singleton]; [by eapply H5|done].
  - intros key. rewrite <-H6, (key_queue_insert _ _ c) by done. rewrite !on_route_app. simpl.
    rewrite on_route_single. case_decide as He.
    + assert (key_queue (sendWorkers s) key = queue c) as -> by (unfold key_queue; by rewrite He, Hc).
      rewrite on_route_app, on_route_single. by rewrite <-!app_assoc.
    + rewrite decide_False; [done|]. by intros <-.
Qed.

Lemma send_ok s acc i r : senders_ok s acc → worker_send s i = Some r →
  ∃ s', r = Ret s' ∧ senders_ok s' acc.
Proof.
  intros [H1 H2 H3 H4 H5 H6]. unfold worker_send. destruct (sendWorkers s !! i) as [c|] eqn:Hc; [|done].
  rewrite Forall_lookup in H2. destruct (H2 i c Hc) as [Ho Hcap]. unfold chan_recv.
  destruct (queue c) as [|t q] eqn:Hq; [by rewrite Ho|].
  intros [= <-]. eexists. split; [done|].
  assert (worker_of (length (sendWorkers s)) (si_routingKey t) = i) as Ht.
  { eapply H5; [done|]. rewrite Hq. left. }
  split; simpl; try done.
  - apply Forall_insert; [by apply Forall_lookup|done].
  - by rewrite length_insert.
  - intros i' c' t' Hi Ht'. rewrite length_insert.
    apply list_lookup_insert_Some in Hi as [(<- & <- & _)|[Hne Hi]]; [|by eapply H5].
    eapply H5; [done|]. rewrite Hq. by right.
  - intros key. rewrite <-H6, (key_queue_insert _ _ c) by done. rewrite !on_route_app, on_route_single. simpl.
    case_decide as Hk; case_decide as He.
    + assert (key_queue (sendWorkers s) key = [t] ++ q) as -> by (unfold key_queue; by rewrite He, Hc, Hq).
      rewrite (on_route_app key [t] q), on_route_single, decide_True by done. by rewrite <-!app_assoc.
    + congruence.
    + assert (key_queue (sendWorkers s) key = [t] ++ q) as -> by (unfold key_queue; by rewrite He, Hc, Hq).
      rewrite (on_route_app key [t] q), on_route_single, decide_False by done. by rewrite <-!app_assoc.
    + by rewrite app_nil_r.
Qed.

Lemma sender_step_ok s acc op r : senders_ok s acc → op ≠ SStop → sender_step s op = Some r →
  ∃ s', r = Ret s' ∧ senders_ok s' (acc ++ op_task op).
Proof.
  intros Hs Hop. destruct op as [t| | |i|]; simpl; rewrite ?app_nil_r;
    [by apply put_task_ok|by apply recv_ok|by apply forward_ok|by apply send_ok|done].
Qed.

Lemma run_ok ops s acc : senders_ok s acc → SStop ∉ ops →
  ∃ s' acc', sender_run s ops = Ret (s', acc') ∧ senders_ok s' (acc ++ acc').
Proof.
  revert s acc. induction ops as [|op ops IH]; intros s acc Hs Hn; simpl.
  { exists s, []. by rewrite app_nil_r. }
  apply not_elem_of_cons in Hn as [Hop Hn]. destruct (sender_step s op) as [r|] eqn:E; [|by apply IH].
  destruct (sender_step_ok s acc op r Hs) as (s1 & -> & H1); [done|done|]. cbn [go_bind].
  destruct (IH s1 _ H1 Hn) as (s2 & acc2 & -> & H2). cbn [go_bind].
  exists s2, (op_task op ++ acc2). by rewrite app_assoc.
Qed.

(** ** Every task is sent in the end *)
Definition internal (op : sender_op) : Prop :=
  match op with SRecv | SForward | SSend _ => True | _ => False end.

Definition queued (s : senders) : list sendInfo := mjoin (queue <$> sendWorkers s).

(** The hand-overs left. *)
Definition moves_left (s : senders) : nat :=
  3 * length (queue (sendTaskCh s)) + 2 * length (held (disp s)) + length (queued s).

Lemma queued_insert s i c q' d e : sendWorkers s !! i = Some c → queue q' ++ d ≡ₚ queue c ++ e →
  (length (mjoin (queue <$> <[i := q']> (sendWorkers s))) + length d = length (queued s) + length e)%nat.
Proof.
  intros Hc Hp. rewrite <-!length_app. apply Permutation_length.
  rewrite list_fmap_insert. apply (join_insert_perm _ i (queue c)); [|done].
  by rewrite list_lookup_fmap, Hc.
Qed.

Lemma queued_elem s i c t : sendWorkers s !! i = Some c → t ∈ queue c → t ∈ queued s.
Proof.
  intros Hc Ht. apply list_elem_of_join. exists (queue c). split; [done|].
  apply list_elem_of_fmap_2. by eapply list_elem_of_lookup_2.
Qed.

Lemma sender_progress s acc : senders_ok s acc → (0 < moves_left s)%nat →
  ∃ op s', internal op ∧ sender_step s op = Some (Ret s') ∧ senders_ok s' acc ∧
    (moves_left s' < moves_left s)%nat.
Proof.
  intros Hok Hm.
  assert (∃ op s', internal op ∧ sender_step s op = Some (Ret s') ∧
    (moves_left s' < moves_left s)%nat) as (op & s' & Hi & Hs & Hlt).
  2: { exists op, s'. split; [done|]. split; [done|]. split; [|done].
       destruct (sender_step_ok s acc op (Ret s') Hok) as (s2 & [= <-] & H2); [by destruct op|done|].
       destruct op; simpl in H2; rewrite ?app_nil_r in H2; done. }
  destruct (decide (queued s = [])) as [Hq|Hq].
  - destruct (disp s) as [|t|] eqn:Hd; [| |by destruct (so_disp _ _ Hok)].
    + destruct (queue (sendTaskCh s)) as [|t q] eqn:Hc.
      { unfold moves_left in Hm. rewrite Hc, Hd, Hq in Hm. simpl in Hm. lia. }
      exists SRecv. eexists. split; [done|]. simpl. unfold dispatcher_recv, chan_recv. rewrite Hd, Hc.
      split; [done|]. unfold moves_left, queued. simpl. rewrite Hc, Hd. simpl. lia.
    + set (idx := worker_of (length (sendWorkers s)) (si_routingKey t)).
      destruct (lookup_lt_is_Some_2 (sendWorkers s) idx) as [c Hc]; [apply worker_of_lt, Hok|].
      destruct (proj1 (Forall_lookup _ _) (so_workers _ _ Hok) idx c Hc) as [Ho Hcap].
      assert (queue c = []) as Hqc.
      { destruct (queue c) as [|t' q] eqn:Hqc; [done|]. exfalso.
        apply (not_elem_of_nil t'). rewrite <-Hq. apply (queued_elem s idx c); [done|]. rewrite Hqc. left. }
      exists SForward. eexists. split; [done|]. simpl. unfold dispatcher_forward. rewrite Hd. fold idx.
      rewrite Hc. unfold chan_send. rewrite Ho, bool_decide_eq_true_2 by (rewrite Hqc; simpl; lia).
      split; [done|]. unfold moves_left. simpl. rewrite Hd. unfold queued at 1. simpl.
      pose proof (queued_insert s idx c {| queue := queue c ++ [t]; cap := cap c; closed := false |} [] [t] Hc).
      simpl in *. rewrite app_nil_r in *. specialize (H (reflexivity _)). lia.
  - assert (∃ i c t q, sendWorkers s !! i = Some c ∧ queue c = t :: q) as (i & c & t & q & Hc & Hqc).
    { destruct (queued s) as [|t l] eqn:Hl; [done|]. assert (t ∈ queued s) as Ht by (rewrite Hl; left).
      apply list_elem_of_join in Ht as (q & Ht & Hq').
      apply list_elem_of_fmap in Hq' as (c & -> & Hc). apply list_elem_of_lookup in Hc as [i Hc].
      exists i, c. destruct (queue c) as [|t' q'] eqn:E; [by apply not_elem_of_nil in Ht|]. eauto. }
    exists (SSend i). eexists. split; [done|]. simpl. unfold worker_send, chan_recv. rewrite Hc, Hqc.
    split; [done|]. unfold moves_left. simpl. unfold queued at 1. simpl.
    pose proof (queued_insert s i c {| queue := q; cap := cap c; closed := closed c |} [t] [] Hc) as Hl.
    simpl in Hl. rewrite Hqc, app_nil_r in Hl. specialize (Hl (symmetry (Permutation_cons_append _ _))).
    lia.
Qed.

Lemma senders_drain n s acc : (moves_left s ≤ n)%nat → senders_ok s acc →
  ∃ ops s', Forall internal ops ∧ sender_run s ops = Ret (s', []) ∧ senders_ok s' acc ∧ moves_left s' = 0%nat.
Proof.
  revert s. induction n as [|n IH]; intros s Hn Hok.
  { exists [], s. split; [constructor|]. split; [done|]. split; [done|lia]. }
  destruct (decide (moves_left s = 0%nat)) as [Hz|Hz].
  { exists [], s. split; [constructor|]. done. }
  destruct (sender_progress s acc Hok) as (op & s1 & Hi & E1 & Hok1 & Hlt); [lia|].
  destruct (IH s1) as (ops & s2 & Hops & E2 & Hok2 & Hz2); [lia|done|].
  exists (op :: ops), s2. split; [by constructor|]. split; [|done].
  simpl. rewrite E1. cbn [go_bind]. rewrite E2. by destruct op.
Qed.

(** Nothing is left: each route's tasks have been sent. *)
Lemma drained_order s acc key : senders_ok s acc → moves_left s = 0%nat →
  on_route key (done_ s) = on_route key acc.
Proof.
  intros Hok Hz. rewrite <-(so_order _ _ Hok key). unfold moves_left in Hz.
  assert (queue (sendTaskCh s) = []) as -> by (apply nil_length_inv; lia).
  assert (held (disp s) = []) as -> by (apply nil_length_inv; lia).
  assert (key_queue (sendWorkers s) key = []) as ->; [|by rewrite !app_nil_r].
  unfold key_queue. destruct (sendWorkers s !! _) as [c|] eqn:Hc; [|done].
  apply nil_length_inv. assert (queued s = []) as Hq by (apply nil_length_inv; lia).
  destruct (queue c) as [|t q] eqn:E; [done|]. exfalso. apply (not_elem_of_nil t).
  rewrite <-Hq. eapply queued_elem; [exact Hc|]. rewrite E. left.
Qed.

(** C24: the send tasks of a route are sent in order, and all of them.  Under
    any interleaving of the shards, the dispatcher and the send workers, with
    any number of configured workers and full channels making senders wait,
    nothing panics and no state is stuck: what has been sent for a routing key
    is always a prefix of what was put in for it, and the goroutines can go on
    until exactly those tasks have been sent, in that order. *)
Theorem senders_in_order num ops : SStop ∉ ops →
  ∃ s acc, sender_run (new_senders num) ops = Ret (s, acc) ∧
    (∀ key, on_route key (done_ s) `prefix_of` on_route key acc) ∧
    ∃ ops' s', Forall internal ops' ∧ sender_run s ops' = Ret (s', []) ∧
      ∀ key, on_route key (done_ s') = on_route key acc.
Proof.
  intros Hn. destruct (run_ok ops _ [] (new_senders_ok num) Hn) as (s & acc & E & Hok).
  simpl in Hok.
  exists s, acc. split; [done|]. split.
  { intros key. rewrite <-(so_order _ _ Hok key), on_route_app. by eexists. }
  destruct (senders_drain (moves_left s) s acc) as (ops' & s' & Hi & E' & Hok' & Hz); [done|done|].
  exists ops', s'. split; [done|]. split; [done|]. intros key. by apply drained_order.
Qed.

(** ** [Stop] *)
Lemma close_all_ok cs : Forall (λ c, closed c = false) cs →
  close_all cs = Ret ((λ c, {| queue := queue c; cap := cap c; closed := true |}) <$> cs).
Proof.
  induction 1 as [|c cs Hc Hcs IH]; [done|]. simpl. unfold chan_close. rewrite Hc. cbn [go_bind].
  by rewrite IH.
Qed.

Lemma Stop_ok s acc : senders_ok s acc → ∃ s', Stop s = Ret s' ∧
  closed (sendTaskCh s') = true ∧ Forall (λ c, closed c = true) (sendWorkers s') ∧
  length (sendWorkers s') = length (sendWorkers s) ∧ disp s' = disp s ∧
  queue (sendTaskCh s') = queue (sendTaskCh s).
Proof.
  intros [H1 H2 H3 H4 H5 H6]. unfold Stop, chan_close. rewrite H1. cbn [go_bind].
  rewrite close_all_ok by (eapply Forall_impl; [exact H2|]; by intros c [? ?]). cbn [go_bind].
  eexists. split; [done|]. split; [done|]. simpl. rewrite length_fmap. split; [|done].
  by apply Forall_fmap, Forall_forall.
Qed.

(** A send worker whose channel is closed sends what is queued and then the
    zero task again and again. *)
Lemma closed_worker_spins k i s c : sendWorkers s !! i = Some c → closed c = true →
  ∃ s' c', sender_run s (replicate k (SSend i)) = Ret (s', []) ∧ sendWorkers s' !! i = Some c' ∧
    closed c' = true ∧
    done_ s' = done_ s ++ take k (queue c) ++ replicate (k - length (queue c)) zero_task.
Proof.
  revert s c. induction k as [|k IH]; intros s c Hc Ho.
  { exists s, c. split; [done|]. split; [done|]. split; [done|]. by rewrite take_0, !app_nil_r. }
  cbn [replicate sender_run sender_step]. unfold worker_send, chan_recv. rewrite Hc.
  pose proof (lookup_lt_Some _ _ _ Hc) as Hlt.
  destruct (queue c) as [|t q] eqn:Hq; [rewrite Ho|]; cbn [go_bind].
  - edestruct (IH {| sendTaskCh := sendTaskCh s; disp := disp s; sendWorkers := <[i := c]> (sendWorkers s);
      done_ := done_ s ++ [default zero_task None] |} c) as (s' & c' & E & H1 & H2 & H3);
      [simpl; by apply list_lookup_insert_eq|done|].
    rewrite E. cbn [go_bind]. exists s', c'. split; [done|]. split; [done|]. split; [done|].
    rewrite H3, Hq. simpl. rewrite take_nil, Nat.sub_0_r. by rewrite <-app_assoc.
  - edestruct (IH {| sendTaskCh := sendTaskCh s; disp := disp s;
      sendWorkers := <[i := {| queue := q; cap := cap c; closed := closed c |}]> (sendWorkers s);
      done_ := done_ s ++ [t] |} {| queue := q; cap := cap c; closed := closed c |})
      as (s' & c' & E & H1 & H2 & H3); [simpl; by apply list_lookup_insert_eq|done|].
    simpl. rewrite E. cbn [go_bind]. exists s', c'. split; [done|]. split; [done|]. split; [done|].
    rewrite H3. simpl. by rewrite <-app_assoc.
Qed.

(** [Stop] does not stop the aggregator.  In any state the senders can be
    in, [Stop] closes the channels and waits for goroutines that never end:
    every send worker goes on for any number of turns, calling [SendPacket]
    with an empty task once its queue is empty; a task still held by the
    dispatcher, or put in by a shard, panics on a closed channel. *)
Theorem Stop_never_ends num ops s acc : SStop ∉ ops → sender_run (new_senders num) ops = Ret (s, acc) →
  ∃ s', Stop s = Ret s' ∧
    (∀ i k, (i < length (sendWorkers s'))%nat → ∃ s2 c, sender_run s' (replicate k (SSend i)) = Ret (s2, []) ∧
       sendWorkers s' !! i = Some c ∧
       done_ s2 = done_ s' ++ take k (queue c) ++ replicate (k - length (queue c)) zero_task) ∧
    (∀ t, panics (sender_run s' [SPut t])) ∧
    (held (disp s) ≠ [] → panics (sender_run s' [SForward])).
Proof.
  intros Hn E. destruct (run_ok ops _ [] (new_senders_ok num) Hn) as (s1 & acc1 & E1 & Hok).
  rewrite E in E1. injection E1 as <- <-.
  destruct (Stop_ok s _ Hok) as (s' & Hs & Hc & Hw & Hl & Hd & Hq). exists s'. split; [done|].
  rewrite Forall_lookup in Hw. split; [|split].
  - intros i k Hi. destruct (lookup_lt_is_Some_2 _ _ Hi) as [c Hci].
    destruct (closed_worker_spins k i s' c Hci (Hw i c Hci)) as (s2 & c2 & H1 & _ & _ & H2). eauto 10.
  - intros t. simpl. unfold put_task, chan_send. rewrite Hc. by eexists.
  - rewrite <-Hd. intros Hh. simpl. unfold dispatcher_forward. destruct (disp s') as [|t|]; [done| |done].
    destruct (lookup_lt_is_Some_2 (sendWorkers s') (worker_of (length (sendWorkers s')) (si_routingKey t)))
      as [c Hci]; [apply worker_of_lt; rewrite Hl; apply Hok|].
    rewrite Hci. unfold chan_send. rewrite (Hw _ _ Hci). by eexists.
Qed.

(** ** Instances *)
Definition sample_task (key : string) (b : Z) : sendInfo :=
  {| si_p := [b]; si_routingKey := key; si_next := None |}.

Definition sample_sends : list sender_op :=
  [SPut (sample_task "a" 1); SPut (sample_task "b" 2); SPut (sample_task "a" 3); SRecv; SForward; SRecv].

Lemma sample_sends_run : SStop ∉ sample_sends.
Proof.
  unfold sample_sends. do 6 (apply not_elem_of_cons; split; [done|]). apply not_elem_of_nil.
Qed.

Lemma senders_in_order_witness : (SStop ∉ sample_sends) ∧
  ∃ s acc, sender_run (new_senders 0) sample_sends = Ret (s, acc) ∧ length acc = 3%nat ∧
    ∃ ops' s', Forall internal ops' ∧ sender_run s ops' = Ret (s', []) ∧
      on_route "a" (done_ s') = [sample_task "a" 1; sample_task "a" 3].
Proof.
  assert (SStop ∉ sample_sends) as Hn by exact sample_sends_run.
  split; [exact Hn|].
  destruct (senders_in_order 0 sample_sends Hn) as (s & acc & E & _ & ops' & s' & Hi & E' & Hk).
  assert (acc = [sample_task "a" 1; sample_task "b" 2; sample_task "a" 3]) as Hacc.
  { vm_compute in E. by injection E as _ <-. }
  exists s, acc. split; [exact E|]. split; [by rewrite Hacc|]. exists ops', s'. split; [done|].
  split; [done|]. rewrite Hk, Hacc. vm_compute. reflexivity.
Defined.

Lemma Stop_never_ends_witness : ∃ s acc s', sender_run (new_senders 2) sample_sends = Ret (s, acc) ∧
  Stop s = Ret s' ∧ panics (sender_run s' [SForward]) ∧
  ∃ s2, sender_run s' (replicate 7 (SSend 1)) = Ret (s2, []).
Proof.
  assert (SStop ∉ sample_sends) as Hn by exact sample_sends_run.
  destruct (sender_run (new_senders 2) sample_sends) as [[s acc]|] eqn:E; [|vm_compute in E; discriminate].
  destruct (Stop_never_ends 2 sample_sends s acc Hn E) as (s' & Hs & Hspin & _ & Hp).
  exists s, acc, s'. split; [reflexivity|]. split; [exact Hs|].
  vm_compute in E. injection E as <- <-. split; [apply Hp; discriminate|].
  destruct (Hspin 1%nat 7%nat) as (s2 & c & H1 & _); [vm_compute in Hs; injection Hs as <-; simpl; lia|].
  by exists s2.
Defined.
