(* ===== verification/Proxy.v ===== *)
(** * Requests and responses through the proxy

    The client side of [data-proxy/server/tcp-server.go] (choosing a path and
    building the message), the origin side of
    [data-proxy/backsourcer/backsourcer.go] (the reply along the reversed
    path), and what the pieces give together: a request reaches its origin
    and the response comes back to the node that asked. *)
From Stdlib Require Import Ascii.
From S2P Require Import Prelude GoStrings Net Packet Tunnel Aggregator Batching.
Local Open Scope Z_scope.
Local Open Scope go_scope.

(** ** The client side: [handleConnection] *)

(** The first path with more than two hops, or else the first one; the caller
    has checked that there is one. *)
Definition choose_path (routing : list (list string)) : option (list string) :=
  match List.find (λ hops, bool_decide (2 < length hops)%nat) routing with
  | Some p => Some p
  | None => head routing
  end.

(** [strconv.ParseUint(s, 10, 16)] with the error ignored: zero for a string
    that is not a number, the largest value for one out of range. *)
Definition ParseUint16 (s : string) : Z :=
  if bool_decide (s = "") then 0
  else match parse_uint s 0 with
       | Some v => Z.min v 65535
       | None => 0
       end.

(** The loop that strips the port from the hops; [t[1]] exists because the
    string contains the separator. *)
Definition strip_hop (acc : list string * string) (h : string) : list string * string :=
  if Contains h ":" then
    let t := Split h ":" in
    (acc.1 ++ [default "" (t !! 0%nat)], default "" (t !! 1%nat))
  else (acc.1 ++ [h], acc.2).

Definition strip_hops (path : list string) : list string * string :=
  foldl strip_hop ([], "") path.

(** [pathInfo.Hops[1]] panics on a path of one hop. *)
Definition client_message `{Ip6Parser} (path : list string) (reqID : Z) (data : list Z)
    : go aggregatorMsg :=
  let! hop1 := index path 1 in
  let nextHop := HopIPToNet hop1 in
  let '(hops, port_) := strip_hops path in
  Ret {| emerge := false; routingKey := Join hops ","; protocol := "tcp";
         port := uint16 (ParseUint16 port_); routingInfo := hops; nextHop := nextHop;
         userID := reqID; data := data |}.

(** ** The origin side: [doOriginRequest]

    [DoRequest] stands for the exchange with the origin: [None] for an error. *)
Definition doOriginRequest (DoRequest : string → list Z → option (list Z))
    (task : BackSourceTask) : go (option aggregatorMsg) :=
  match DoRequest (OriginAddr task) (ReqData task) with
  | None => Ret None
  | Some [] => Ret None
  | Some resp =>
      let hops := filter (λ v, v ≠ 0) (rev (bt_HopIP task)) in
      let hops := if bool_decide (1 < length hops)%nat then drop 1 hops else hops in
      let hopStrs := ip_string <$> hops in
      let! nextHop := index hops 1 in
      Ret (Some {| emerge := false; routingKey := Join hopStrs ","; protocol := ""; port := 0;
                   routingInfo := hopStrs; nextHop := Some nextHop;
                   userID := bt_UserID task; data := resp |})
  end.

(** Which tasks crash the exit node: the reply path is the non-zero hops
    without the origin, and its second element is read without a check, so an
    answered request panics exactly when fewer than three of the four
    header addresses are set. *)
Theorem doOriginRequest_panics_iff DoRequest task r resp :
  DoRequest (OriginAddr task) (ReqData task) = Some (r :: resp) →
  panics (doOriginRequest DoRequest task) ↔
  (length (filter (λ v : Z, v ≠ 0%Z) (bt_HopIP task)) < 3)%nat.
Proof.
  intros Hd. unfold doOriginRequest. rewrite Hd.
  assert (length (filter (λ v, v ≠ 0) (bt_HopIP task)) =
          length (filter (λ v, v ≠ 0) (rev (bt_HopIP task)))) as ->
    by (apply Permutation_length; f_equiv; apply Permutation_rev).
  destruct (filter (λ v, v ≠ 0) (rev (bt_HopIP task))) as [|a [|b [|c l]]]; simpl.
  - split; [lia|]. intros _. by eexists.
  - split; [lia|]. intros _. by eexists.
  - split; [lia|]. intros _. by eexists.
  - split; [by intros ?%not_panics_Ret|lia].
Qed.

(** ** The tunnel network

    A packet sent to an address is handled by the node there; it moves on until
    a node does something other than forwarding it. *)
Fixpoint transit (fuel : nat) (node : Z) (raw : list Z) : go (option (Z * list action)) :=
  match fuel with
  | O => Ret None
  | S fuel =>
      let! acts := HandleQUICPacket raw in
      match acts with
      | [SendPacket next raw'] => transit fuel next raw'
      | acts => Ret (Some (node, acts))
      end
  end.

(** The four header slots of a route. *)
Definition slots (vs : list Z) : list Z := take 4 (vs ++ repeat 0 4).

Definition addr_ok (v : Z) : Prop := 0 < v < 2 ^ 32.

Lemma addr_string v : addr_ok v → ip_string v ≠ "0.0.0.0".
Proof.
  intros Hv E. pose proof (ip_string_parses (H := no_ip6) v) as Hrt.
  rewrite E in Hrt. unfold addr_ok in Hv. specialize (Hrt ltac:(lia)). vm_compute in Hrt.
  injection Hrt as <-. lia.
Qed.

(** A request packet reaches the last relay of its route.  On a route
    [entry; (middle;) exit; origin] of three or four addresses, a request
    that has been sent to the second hop is forwarded hop by hop and ends at
    the exit node, which submits every user packet to the origin's address
    and port. *)
Lemma request_reaches_exit raw p subs vs exit origin :
  arriving raw p subs → HopPos p = 1 → Port p ≠ 0 → received subs ≠ [] →
  Forall addr_ok vs → HopIP p = slots vs → (3 ≤ length vs ≤ 4)%nat →
  vs !! (length vs - 2)%nat = Some exit → last vs = Some origin →
  ∃ node, vs !! 1%nat = Some node ∧
  transit 4 node raw = Ret (Some (exit,
    (λ sub, Submit (if bool_decide (Protocol p = 17) then "udp" else "tcp")
       {| bt_HopIP := slots vs; bt_Port := Port p; bt_UserID := UserID sub;
          OriginAddr := ip_string origin +:+ ":" +:+ Itoa (Port p);
          ReqData := Data sub |}) <$> received subs)).
Proof.
  intros Ha Hpos Hport Hne Hvs Hslots Hlen Hexit Horigin.
  destruct vs as [|v0 [|v1 [|v2 [|v3 [|]]]]]; simpl in Hlen; try lia.
  - rewrite !Forall_cons in Hvs. destruct Hvs as (Hv0 & Hv1 & Hv2 & _).
    simpl in Hexit, Horigin. injection Hexit as <-. injection Horigin as <-.
    exists v1. split; [done|].
    destruct (handle_request raw p subs 1 Ha Hport Hpos) as (next & Hn & Hh); [lia|unfold is_byte; lia|].
    rewrite Hslots in Hn, Hh. simpl in Hn. injection Hn as <-.
    rewrite bool_decide_eq_true_2 in Hh by (by right).
    rewrite (bool_decide_eq_false_2 (received subs = [])) in Hh by done.
    rewrite (bool_decide_eq_false_2 (ip_string v2 = _)) in Hh by (by apply addr_string).
    cbn [orb] in Hh. cbn [transit]. rewrite Hh. cbn [go_bind].
    by destruct (received subs) as [|s [|s' l]].
  - rewrite !Forall_cons in Hvs. destruct Hvs as (Hv0 & Hv1 & Hv2 & Hv3 & _).
    simpl in Hexit, Horigin. injection Hexit as <-. injection Horigin as <-.
    exists v1. split; [done|].
    destruct (handle_request raw p subs 1 Ha Hport Hpos) as (next & Hn & Hh); [lia|unfold is_byte; lia|].
    rewrite Hslots in Hn, Hh. simpl in Hn. injection Hn as <-.
    rewrite bool_decide_eq_false_2 in Hh.
    2: { intros [?|Hv]; [lia|]. simpl in Hv. injection Hv as Hv. unfold addr_ok in Hv3. lia. }
    assert (arriving (AdvanceRawHop raw) (set_HopPos p 2) subs) as Ha2.
    { replace 2 with (HopPos p + 1) by lia. apply arriving_advance; [done|]. unfold MaxHops. lia. }
    destruct (handle_request (AdvanceRawHop raw) (set_HopPos p 2) subs 2 Ha2 Hport eq_refl)
      as (next & Hn & Hh2); [lia|unfold is_byte; lia|].
    cbn [set_HopPos HopIP Port Protocol] in Hn, Hh2. rewrite Hslots in Hn, Hh2. simpl in Hn. injection Hn as <-.
    rewrite bool_decide_eq_true_2 in Hh2 by (by left).
    rewrite (bool_decide_eq_false_2 (received subs = [])) in Hh2 by done.
    rewrite (bool_decide_eq_false_2 (ip_string v3 = _)) in Hh2 by (by apply addr_string).
    cbn [orb] in Hh2. cbn [transit]. rewrite Hh. cbn [go_bind]. rewrite Hh2. cbn [go_bind].
    by destruct (received subs) as [|s [|s' l]].
Qed.

(** A response packet comes back to the entry node: forwarded along the
    reversed route, without the origin, it ends at the first node of the
    request's route, which delivers every user packet to its waiter. *)
Lemma response_reaches_entry raw p subs vs entry :
  arriving raw p subs → HopPos p = 1 → Port p = 0 →
  Forall addr_ok vs → (3 ≤ length vs ≤ 4)%nat → head vs = Some entry →
  HopIP p = slots (rev (removelast vs)) →
  match received subs with [] => False | _ => True end →
  ∃ node, rev (removelast vs) !! 1%nat = Some node ∧
  transit 4 node raw = Ret (Some (entry, (λ sub, Deliver (UserID sub) (Data sub)) <$> received subs)).
Proof.
  intros Ha Hpos Hport Hvs Hlen Hentry Hslots Hne.
  destruct vs as [|v0 [|v1 [|v2 [|v3 [|]]]]]; simpl in Hlen; try lia.
  - simpl in Hentry, Hslots |- *. injection Hentry as <-. exists v0. split; [done|].
    pose proof (handle_response raw p subs 1 Ha Hport Hpos ltac:(lia)) as Hh.
    rewrite Hslots in Hh. change (slots [v1; v0] !! Z.to_nat (1 + 1)) with (Some 0) in Hh.
    lazy beta match in Hh.
    rewrite bool_decide_eq_true_2 in Hh by done.
    rewrite Hh. cbn [go_bind]. by destruct (received subs) as [|s [|s' l]].
  - rewrite !Forall_cons in Hvs. destruct Hvs as (Hv0 & Hv1 & Hv2 & Hv3 & _).
    simpl in Hentry, Hslots |- *. injection Hentry as <-. exists v1. split; [done|].
    pose proof (handle_response raw p subs 1 Ha Hport Hpos ltac:(lia)) as Hh.
    rewrite Hslots in Hh. change (slots [v2; v1; v0] !! Z.to_nat (1 + 1)) with (Some v0) in Hh.
    lazy beta match in Hh.
    rewrite bool_decide_eq_false_2 in Hh by (unfold addr_ok in Hv0; lia).
    rewrite Hh. cbn [go_bind].
    assert (arriving (AdvanceRawHop raw) (set_HopPos p 2) subs) as Ha2.
    { replace 2 with (HopPos p + 1) by lia. apply arriving_advance; [done|]. unfold MaxHops. lia. }
    pose proof (handle_response (AdvanceRawHop raw) (set_HopPos p 2) subs 2 Ha2 Hport eq_refl ltac:(lia)) as Hh2.
    cbn [set_HopPos HopIP] in Hh2. rewrite Hslots in Hh2.
    change (slots [v2; v1; v0] !! Z.to_nat (2 + 1)) with (Some 0) in Hh2.
    lazy beta match in Hh2.
    rewrite bool_decide_eq_true_2 in Hh2 by done.
    rewrite Hh2. cbn [go_bind]. by destruct (received subs) as [|s [|s' l]].
Qed.

(** ** Host and port strings *)
Definition colon_free (s : string) : bool := negb (Contains s ":").

Lemma colon_free_cons c s : colon_free (String c s) = true ↔ c ≠ ":"%char ∧ colon_free s = true.
Proof.
  unfold colon_free. cbn [Contains String.prefix].
  destruct (ascii_dec ":"%char c) as [<-|Hne]; simpl.
  - destruct s; simpl; split; [done|by intros [? _]|done|by intros [? _]].
  - split; [by split; [congruence|]|by intros [_ ?]].
Qed.

Lemma colon_free_app a b : colon_free (a +:+ b) = colon_free a && colon_free b.
Proof.
  induction a as [|c a IH]; [done|].
  change (String c a +:+ b) with (String c (a +:+ b)).
  apply eq_bool_prop_intro. rewrite !Is_true_true, andb_true_iff, !colon_free_cons, IH, andb_true_iff. tauto.
Qed.

Lemma split_go_colon cur s rest : colon_free s = true →
  split_go ":" 0 cur (s +:+ ":" +:+ rest) = (cur +:+ s) :: split_go ":" 0 "" rest.
Proof.
  revert cur. induction s as [|c s IH]; intros cur Hs.
  { rewrite string_app_nil_r. by destruct rest. }
  apply colon_free_cons in Hs as [Hc Hs].
  change (String c s +:+ ":" +:+ rest) with (String c (s +:+ ":" +:+ rest)).
  cbn [split_go String.prefix]. destruct (ascii_dec ":"%char c) as [<-|_]; [done|].
  rewrite IH by done. by rewrite <-string_app_assoc.
Qed.

Lemma split_go_colon_last cur s : colon_free s = true → split_go ":" 0 cur s = [cur +:+ s].
Proof.
  revert cur. induction s as [|c s IH]; intros cur Hs.
  { simpl. by rewrite string_app_nil_r. }
  apply colon_free_cons in Hs as [Hc Hs]. cbn [split_go String.prefix].
  destruct (ascii_dec ":"%char c) as [<-|_]; [done|]. rewrite IH by done. by rewrite <-string_app_assoc.
Qed.

Lemma parse_uint_colon_free s acc v : parse_uint s acc = Some v → colon_free s = true.
Proof.
  revert acc. induction s as [|c s IH]; intros acc Hp; [done|].
  cbn [parse_uint] in Hp. destruct (digit_of c) as [d|] eqn:Hc; [|done].
  apply colon_free_cons. split; [|by eapply IH]. intros ->. done.
Qed.

Lemma port_string p : 0 ≤ p < 2 ^ 16 → colon_free (Itoa p) = true ∧ ParseUint16 (Itoa p) = p.
Proof.
  intros Hp. destruct (parse_uint_Itoa p) as [H1 H2]; [lia|].
  split; [by eapply parse_uint_colon_free|]. unfold ParseUint16.
  rewrite bool_decide_eq_false_2 by done. rewrite H1. lia.
Qed.

Lemma ip_string_colon_free v : colon_free (ip_string v) = true.
Proof.
  unfold ip_string. rewrite !colon_free_app, !andb_true_iff.
  assert (∀ s, colon_free (Itoa (octet v s)) = true) as Ho.
  { intros s. apply port_string. pose proof (octet_byte v s). lia. }
  rewrite !Ho. done.
Qed.

(** The path of a request: relays, then the origin with its port. *)
Definition request_path (vs : list Z) (origin port : Z) : list string :=
  (ip_string <$> vs) ++ [ip_string origin +:+ ":" +:+ Itoa port].

Lemma strip_request_path vs origin port : 0 ≤ port < 2 ^ 16 →
  strip_hops (request_path vs origin port) = (ip_string <$> (vs ++ [origin]), Itoa port).
Proof.
  intros Hp. unfold strip_hops, request_path. rewrite foldl_app.
  assert (∀ acc, foldl strip_hop acc (ip_string <$> vs) = (acc.1 ++ (ip_string <$> vs), acc.2)) as ->.
  { induction vs as [|v vs IH]; intros acc; [cbn; rewrite app_nil_r; by destruct acc|].
    rewrite fmap_cons. cbn [foldl]. rewrite IH. unfold strip_hop.
    pose proof (ip_string_colon_free v) as Hc. unfold colon_free in Hc. apply negb_true_iff in Hc.
    rewrite Hc. cbn [fst snd]. by rewrite <-app_assoc. }
  cbn [foldl fst snd]. unfold strip_hop. destruct (port_string port Hp) as [Hc _].
  assert (Contains (ip_string origin +:+ ":" +:+ Itoa port) ":" = true) as ->.
  { apply negb_false_iff. fold (colon_free (ip_string origin +:+ ":" +:+ Itoa port)).
    rewrite !colon_free_app. change (colon_free ":") with false. cbn [andb]. apply andb_false_r. }
  unfold Split. rewrite split_go_colon, split_go_colon_last by (done || apply ip_string_colon_free).
  change ("" +:+ ip_string origin) with (ip_string origin).
  change ("" +:+ Itoa port) with (Itoa port). rewrite fmap_app. done.
Qed.

(** ** The packet of a single message *)
Section Single.
Context `{IP6 : Ip6Parser} `{!Ip6Range}.

Lemma set_hops_ignored (l : list string) k p : (4 ≤ k)%nat →
  foldl (λ p ih, SetHopIP p ih.1 (HopIPToNet ih.2)) p (imap (λ i h, ((k + i)%nat, h)) l) = p.
Proof.
  revert k. induction l as [|h l IH]; intros k Hk; [done|].
  rewrite imap_cons. cbn [foldl fst snd].
  rewrite (imap_ext _ (λ i h, ((S k + i)%nat, h))) by (intros; simpl; f_equal; lia).
  unfold SetHopIP at 2. rewrite bool_decide_eq_true_2 by (unfold MaxHops; lia). apply IH. lia.
Qed.

Lemma set_hops_go vs k p pre zs :
  Forall addr_ok vs → HopIP p = pre ++ zs → length pre = k → (length pre + length zs = 4)%nat →
  HopIP (foldl (λ p ih, SetHopIP p ih.1 (HopIPToNet ih.2)) p
           (imap (λ i h, ((k + i)%nat, h)) (ip_string <$> vs)))
  = pre ++ take (length zs) vs ++ drop (length vs) zs.
Proof.
  intros Hvs. revert k p pre zs. induction Hvs as [|v vs Hv Hvs IH]; intros k p pre zs Hp Hk Hl.
  { by rewrite take_nil. }
  destruct zs as [|z zs].
  { rewrite set_hops_ignored by (simpl in Hl; lia). rewrite Hp. by destruct vs. }
  rewrite fmap_cons, imap_cons. cbn [foldl fst snd]. rewrite Nat.add_0_r. simpl in Hl.
  rewrite (imap_ext _ (λ i h, ((S k + i)%nat, h))) by (intros; simpl; f_equal; lia).
  rewrite (IH (S k) _ (pre ++ [v]) zs).
  - rewrite <-app_assoc. done.
  - rewrite ip_string_parses by (unfold addr_ok in Hv; lia). unfold SetHopIP.
    rewrite bool_decide_eq_false_2 by (unfold MaxHops; lia). cbn [set_HopIP HopIP].
    rewrite Hp, <-Hk, <-app_assoc. by rewrite insert_app_r_alt, Nat.sub_diag by lia.
  - rewrite length_app. simpl. lia.
  - rewrite length_app. simpl. lia.
Qed.

(** The first four hops of a message fill the header slots in order. *)
Lemma route_slots msg size vs : routingInfo msg = ip_string <$> vs → Forall addr_ok vs →
  HopIP (route_packet msg size) = slots vs.
Proof.
  intros Hr Hvs. unfold route_packet. rewrite Hr.
  assert (∀ p proto q, HopIP (SetHopPos (SetProtocol (SetPort p q) proto) 1) = HopIP p) as ->.
  { intros p proto q. unfold SetHopPos. by case_bool_decide. }
  rewrite (set_hops_go vs 0 _ [] [0; 0; 0; 0]) by done.
  unfold slots. destruct vs as [|v0 [|v1 [|v2 [|v3 vs]]]]; [done..|].
  cbn. by rewrite drop_nil.
Qed.

(** An urgent message leaves in a packet of its own, with its route in the
    header. *)
Lemma send_emerge_header msg size vs : (HeaderSize ≤ size)%nat → msg_ok msg → fits msg size →
  routingInfo msg = ip_string <$> vs → Forall addr_ok vs →
  ∃ raw p, send_emerge msg size =
      Ret [{| si_p := raw; si_routingKey := routingKey msg; si_next := nextHop msg |}] ∧
    arriving raw p [msg_sub msg] ∧ HopPos p = 1 ∧ HopIP p = slots vs ∧ Port p = port msg ∧
    Protocol p = if bool_decide (protocol msg = "tcp") then 6 else 17.
Proof.
  intros Hs Hm Hf Hr Hvs. unfold send_emerge.
  destruct (route_packet_holds msg size Hs Hm) as (Hh & _ & Hw & Hb).
  pose proof (append_user_packet _ [] (userID msg) (data msg) Hh (m_user _ Hm)) as Ha.
  cbv zeta in Ha. rewrite Hw, Hb, decide_True in Ha by (unfold fits in Hf; lia).
  destruct Ha as (p & -> & Hp & Hz & E1 & E2 & E3 & E4 & _). cbn [go_bind app] in *.
  assert (Z.of_nat (length (encode [msg_sub msg])) < 2 ^ 16) as Hl.
  { rewrite encode_cons, length_app, encode_sub_length. simpl. pose proof (m_data _ Hm). lia. }
  destruct (serialize_carries p [msg_sub msg] (routingKey msg) (nextHop msg) Hp Hz Hl)
    as (p' & buf & Hser & Hbuf & _ & _ & Hpos).
  rewrite Hser. cbn [go_bind]. rewrite Hbuf. cbn [go_bind]. unfold flush.
  rewrite bool_decide_eq_false_2 by lia. exists buf, p. split; [done|].
  destruct (SerializeHead_frame p [msg_sub msg] Hp Hz Hl) as (p2 & Hser2 & Hframe & _).
  assert (p2 = p') as -> by congruence.
  assert (buf = wire p') as ->.
  { unfold slice_to in Hbuf. case_bool_decide; [|done]. by injection Hbuf as <-. }
  split.
  - split; [done|by eapply holds_header_ok|by eapply holds_sub_ok|].
    rewrite Hz. apply Z.mod_small. lia.
  - rewrite E1, E2, E3, E4, (route_slots msg size vs) by done.
    unfold route_packet, SetHopPos. rewrite bool_decide_eq_true_2 by done. done.
Qed.
End Single.

(** ** There and back *)
Section RoundTrip.
Context `{IP6 : Ip6Parser} `{!Ip6Range} (cfg : agg_config).

(** A message of fewer than 128 bytes is sent at once, in its own packet. *)
Lemma small_message w msg vs now : (length (data msg) < 128)%nat → msg_ok msg →
  routingInfo msg = ip_string <$> vs → Forall addr_ok vs →
  ∃ raw p, handleMsg cfg w msg now =
      Ret (w, [{| si_p := raw; si_routingKey := routingKey msg; si_next := nextHop msg |}]) ∧
    arriving raw p [msg_sub msg] ∧ HopPos p = 1 ∧ HopIP p = slots vs ∧ Port p = port msg ∧
    Protocol p = if bool_decide (protocol msg = "tcp") then 6 else 17.
Proof.
  intros Hd Hm Hr Hvs. unfold handleMsg. rewrite (bool_decide_eq_true_2 (_ < 128)%nat) by done.
  cbn [orb].
  destruct (send_emerge_header msg (HeaderSize + 4 + 2 + length (data msg)) vs)
    as (raw & p & -> & Hrest); [lia|done|unfold fits; lia|done..|].
  exists raw, p. done.
Qed.

Lemma client_message_ok vs origin prt reqID dat v1 : 0 ≤ prt < 2 ^ 16 → Forall addr_ok vs →
  vs !! 1%nat = Some v1 →
  client_message (request_path vs origin prt) reqID dat = Ret
    {| emerge := false; routingKey := Join (ip_string <$> (vs ++ [origin])) ","; protocol := "tcp";
       port := prt; routingInfo := ip_string <$> (vs ++ [origin]); nextHop := Some v1;
       userID := reqID; data := dat |}.
Proof.
  intros Hp Hvs H1. unfold client_message, index.
  assert (request_path vs origin prt !! 1%nat = Some (ip_string v1)) as ->.
  { unfold request_path. rewrite lookup_app_l by (rewrite length_fmap; by eapply lookup_lt_Some).
    by rewrite list_lookup_fmap, H1. }
  cbn [go_bind]. rewrite strip_request_path by done.
  rewrite ip_string_parses.
  2: { rewrite Forall_forall in Hvs. pose proof (Hvs v1 (list_elem_of_lookup_2 _ _ _ H1)) as Hv.
       unfold addr_ok in Hv. lia. }
  destruct (port_string prt Hp) as [_ ->]. do 2 f_equal. apply Z.mod_small. lia.
Qed.

Lemma doOriginRequest_ok DoRequest task vs origin resp v1 :
  DoRequest (OriginAddr task) (ReqData task) = Some resp → resp ≠ [] →
  bt_HopIP task = slots (vs ++ [origin]) → Forall addr_ok vs → addr_ok origin →
  (2 ≤ length vs ≤ 3)%nat → rev vs !! 1%nat = Some v1 →
  doOriginRequest DoRequest task = Ret (Some
    {| emerge := false; routingKey := Join (ip_string <$> rev vs) ","; protocol := ""; port := 0;
       routingInfo := ip_string <$> rev vs; nextHop := Some v1;
       userID := bt_UserID task; data := resp |}).
Proof.
  intros Hd Hne Hh Hvs Ho Hlen H1. unfold doOriginRequest. rewrite Hd, Hh.
  destruct resp as [|r resp]; [done|].
  assert (filter (λ v, v ≠ 0) (rev (slots (vs ++ [origin]))) = origin :: rev vs) as ->.
  { unfold addr_ok in *.
    destruct vs as [|a [|b [|c [|]]]]; simpl in Hlen; try lia; rewrite !Forall_cons in Hvs;
      cbn [slots take app repeat rev]; rewrite !filter_cons;
      repeat (rewrite ?decide_False by (simpl; lia); rewrite ?decide_True by lia); done. }
  rewrite bool_decide_eq_true_2 by (simpl; rewrite length_rev; lia).
  change (drop 1 (origin :: rev vs)) with (rev vs). unfold index. rewrite H1. done.
Qed.

Lemma msg_ok_small m : 0 ≤ userID m < 2 ^ 32 → 0 ≤ port m < 2 ^ 16 → (length (data m) < 128)%nat →
  msg_ok m.
Proof. intros H1 H2 H3. split; [done|done|lia]. Qed.

Lemma round_trip w1 w2 vs entry exit origin prt reqID dat resp t1 t2 DoRequest :
  Forall addr_ok vs → addr_ok origin → (2 ≤ length vs ≤ 3)%nat →
  head vs = Some entry → last vs = Some exit →
  0 < prt < 2 ^ 16 → 0 ≤ reqID < 2 ^ 32 →
  dat ≠ [] → (length dat < 128)%nat → resp ≠ [] → (length resp < 128)%nat →
  DoRequest (ip_string origin +:+ ":" +:+ Itoa prt) dat = Some resp →
  ∃ msg raw next task reply raw' next',
    client_message (request_path vs origin prt) reqID dat = Ret msg ∧
    handleMsg cfg w1 msg t1 =
      Ret (w1, [{| si_p := raw; si_routingKey := routingKey msg; si_next := Some next |}]) ∧
    transit 4 next raw = Ret (Some (exit, [Submit "tcp" task])) ∧
    OriginAddr task = ip_string origin +:+ ":" +:+ Itoa prt ∧ ReqData task = dat ∧
    doOriginRequest DoRequest task = Ret (Some reply) ∧
    handleMsg cfg w2 reply t2 =
      Ret (w2, [{| si_p := raw'; si_routingKey := routingKey reply; si_next := Some next' |}]) ∧
    transit 4 next' raw' = Ret (Some (entry, [Deliver reqID resp])).
Proof.
  intros Hvs Ho Hlen Hentry Hexit Hprt Hreq Hdne Hdl Hrne Hrl Hask.
  destruct (lookup_lt_is_Some_2 vs 1) as [v1 Hv1]; [lia|].
  destruct (lookup_lt_is_Some_2 (rev vs) 1) as [u1 Hu1]; [rewrite length_rev; lia|].
  assert (Forall addr_ok (vs ++ [origin])) as Hall by (apply Forall_app; split; [done|by apply Forall_singleton]).
  rewrite (client_message_ok vs origin prt reqID dat v1) by (done || lia).
  match goal with |- context [Ret ?m = Ret _] => set (msg := m) end.
  destruct (small_message w1 msg (vs ++ [origin]) t1) as (raw & p & Hm & Ha & Hpos & Hhop & Hport & Hproto);
    [done|apply msg_ok_small; simpl; lia || done|done|done|].
  assert (received [msg_sub msg] = [msg_sub msg]) as Hrec by (simpl; by rewrite decide_False).
  destruct (request_reaches_exit raw p [msg_sub msg] (vs ++ [origin]) exit origin)
    as (node & Hnode & Htr); try done.
  { rewrite Hport. simpl. lia. }
  { by rewrite Hrec. }
  { rewrite length_app. simpl. lia. }
  { rewrite length_app, lookup_app_l by (simpl; lia). rewrite last_lookup in Hexit.
    rewrite <-Hexit. f_equal. simpl. lia. }
  { by rewrite last_snoc. }
  rewrite lookup_app_l, Hv1 in Hnode by lia. injection Hnode as <-.
  rewrite Hrec, Hproto, Hport in Htr. cbn [fmap list_fmap msg_sub UserID Data msg] in Htr.
  change (if bool_decide ((if bool_decide (protocol msg = "tcp") then 6 else 17) = 17)
    then "udp" else "tcp") with "tcp" in Htr.
  match type of Htr with _ = Ret (Some (_, [Submit _ ?t])) => set (task := t) in * end.
  pose proof (doOriginRequest_ok DoRequest task vs origin resp u1 Hask Hrne eq_refl Hvs Ho Hlen Hu1) as Hreply.
  match type of Hreply with _ = Ret (Some ?m) => set (reply := m) in * end.
  destruct (small_message w2 reply (rev vs) t2) as (raw' & p' & Hm' & Ha' & Hpos' & Hhop' & Hport' & _).
  { done. } { apply msg_ok_small; simpl; lia || done. } { done. } { by apply Forall_rev. }
  assert (received [msg_sub reply] = [msg_sub reply]) as Hrec' by (simpl; by rewrite decide_False).
  destruct (response_reaches_entry raw' p' [msg_sub reply] (vs ++ [origin]) entry)
    as (node' & Hnode' & Htr'); try done.
  { rewrite length_app. simpl. lia. }
  { by destruct vs. }
  { by rewrite removelast_last. }
  { by rewrite Hrec'. }
  rewrite removelast_last, Hu1 in Hnode'. injection Hnode' as <-.
  exists msg, raw, v1, task, reply, raw', u1. split_and!; try done. rewrite Htr', Hrec'. done.
Qed.

(** A request and its response through the whole proxy.  The entry node
    turns a client's request for the path [entry; (middle;) exit; origin:port]
    into a packet for the second hop; the tunnel brings it to the exit node,
    which asks the origin [ip:port] with exactly the client's data; the reply
    leaves for the previous hop and the tunnel brings it back to the entry
    node, which delivers exactly the origin's answer to the waiting request
    id. *)
Theorem proxy_round_trip w1 w2 vs entry exit origin prt reqID dat resp t1 t2 DoRequest :
  Forall addr_ok vs → addr_ok origin → (2 ≤ length vs ≤ 3)%nat →
  head vs = Some entry → last vs = Some exit →
  0 < prt < 2 ^ 16 → 0 ≤ reqID < 2 ^ 32 →
  dat ≠ [] → (length dat < 128)%nat → resp ≠ [] → (length resp < 128)%nat →
  DoRequest (ip_string origin +:+ ":" +:+ Itoa prt) dat = Some resp →
  ∃ msg raw next task reply raw' next',
    client_message (request_path vs origin prt) reqID dat = Ret msg ∧
    handleMsg cfg w1 msg t1 =
      Ret (w1, [{| si_p := raw; si_routingKey := routingKey msg; si_next := Some next |}]) ∧
    transit 4 next raw = Ret (Some (exit, [Submit "tcp" task])) ∧
    OriginAddr task = ip_string origin +:+ ":" +:+ Itoa prt ∧ ReqData task = dat ∧
    doOriginRequest DoRequest task = Ret (Some reply) ∧
    handleMsg cfg w2 reply t2 =
      Ret (w2, [{| si_p := raw'; si_routingKey := routingKey reply; si_next := Some next' |}]) ∧
    transit 4 next' raw' = Ret (Some (entry, [Deliver reqID resp])).
Proof. apply round_trip. Qed.

(** A path of five or more hops does not fit the header.  The packet keeps
    the first four addresses, so the request stops at the third one and is
    sent there to the fourth, a relay, as if that were the origin. *)
Theorem long_path_misdirected w v0 v1 v2 v3 vs origin prt reqID dat t :
  Forall addr_ok (v0 :: v1 :: v2 :: v3 :: vs) → addr_ok origin →
  0 < prt < 2 ^ 16 → 0 ≤ reqID < 2 ^ 32 → dat ≠ [] → (length dat < 128)%nat →
  ∃ msg raw task,
    client_message (request_path (v0 :: v1 :: v2 :: v3 :: vs) origin prt) reqID dat = Ret msg ∧
    handleMsg cfg w msg t =
      Ret (w, [{| si_p := raw; si_routingKey := routingKey msg; si_next := Some v1 |}]) ∧
    transit 4 v1 raw = Ret (Some (v2, [Submit "tcp" task])) ∧
    OriginAddr task = ip_string v3 +:+ ":" +:+ Itoa prt.
Proof.
  intros Hvs Ho Hprt Hreq Hdne Hdl.
  rewrite (client_message_ok _ origin prt reqID dat v1) by (done || lia).
  match goal with |- context [Ret ?m = Ret _] => set (msg := m) end.
  set (hs := v0 :: v1 :: v2 :: v3 :: vs) in *.
  assert (Forall addr_ok (hs ++ [origin])) as Hall by (apply Forall_app; split; [done|by apply Forall_singleton]).
  destruct (small_message w msg (hs ++ [origin]) t) as (raw & p & Hm & Ha & Hpos & Hhop & Hport & Hproto);
    [done|apply msg_ok_small; simpl; lia || done|done|done|].
  assert (received [msg_sub msg] = [msg_sub msg]) as Hrec by (simpl; by rewrite decide_False).
  destruct (request_reaches_exit raw p [msg_sub msg] [v0; v1; v2; v3] v2 v3)
    as (node & Hnode & Htr); try done.
  { rewrite Hport. simpl. lia. }
  { by rewrite Hrec. }
  { unfold hs in Hvs. rewrite !Forall_cons in Hvs |- *. by destruct Hvs as (? & ? & ? & ? & _). }
  { simpl. lia. }
  injection Hnode as <-. rewrite Hrec, Hproto, Hport in Htr. do 3 eexists. split; [done|].
  split; [exact Hm|]. split; [exact Htr|]. done.
Qed.
End RoundTrip.

(** ** Instances of the theorems *)
Lemma doOriginRequest_panics_iff_witness :
  panics (doOriginRequest (λ _ _, Some [111; 107])
    {| bt_HopIP := [0; 167772162; 167772163; 0]; bt_Port := 80; bt_UserID := 1;
       OriginAddr := "10.0.0.3:80"; ReqData := [1] |}).
Proof.
  apply (doOriginRequest_panics_iff (λ _ _, Some [111; 107])
    {| bt_HopIP := [0; 167772162; 167772163; 0]; bt_Port := 80; bt_UserID := 1;
       OriginAddr := "10.0.0.3:80"; ReqData := [1] |} 111 [107]).
  - reflexivity.
  - vm_compute. lia.
Defined.

Lemma relays_ok (l : list Z) : forallb (λ v, bool_decide (0 < v < 2 ^ 32)) l = true → Forall addr_ok l.
Proof.
  rewrite forallb_forall. intros Hl. apply Forall_forall. intros v Hv.
  apply list_elem_of_In, Hl in Hv. by apply bool_decide_eq_true in Hv.
Qed.

Lemma proxy_round_trip_witness : ∃ raw' next',
  transit 4 next' raw' = Ret (Some (167772161, [Deliver 7 [111; 107; 10]])).
Proof.
  destruct (@proxy_round_trip no_ip6 no_ip6_range sample_cfg new_worker new_worker
    [167772161; 167772162; 167772163] 167772161 167772163 167772164 443 7 [104; 105; 10]
    [111; 107; 10] 0 1 (λ _ _, Some [111; 107; 10]))
    as (msg & raw & next & task & reply & raw' & next' & _ & _ & _ & _ & _ & _ & _ & H).
  - by apply relays_ok.
  - unfold addr_ok. lia.
  - simpl. lia.
  - reflexivity.
  - reflexivity.
  - lia.
  - lia.
  - discriminate.
  - simpl. lia.
  - discriminate.
  - simpl. lia.
  - reflexivity.
  - exists raw', next'. exact H.
Defined.

Lemma long_path_misdirected_witness : ∃ raw task,
  transit 4 167772162 raw = Ret (Some (167772163, [Submit "tcp" task])) ∧
  OriginAddr task = "10.0.0.4:443".
Proof.
  destruct (@long_path_misdirected no_ip6 no_ip6_range sample_cfg new_worker
    167772161 167772162 167772163 167772164 [] 167772165 443 7 [104; 10] 0)
    as (msg & raw & task & _ & _ & H1 & H2).
  - by apply relays_ok.
  - unfold addr_ok. lia.
  - lia.
  - lia.
  - discriminate.
  - simpl. lia.
  - exists raw, task. split; [exact H1|exact H2].
Defined.
