(* ===== verification/Disagg.v ===== *)
(** * The disaggregator

    [data-proxy/disaggregator/disaggregator.go]: a request registers a
    channel under its id and waits on it; the tunnel handler delivers a
    response to the channel of its id.  Channels are shared objects with a
    buffer of one element. *)
From S2P Require Import Prelude Packet Tunnel.
Local Open Scope Z_scope.

Record chan := {
  ch_buf : list (list Z);
  ch_closed : bool;
}.

Record Disaggregator := {
  waiters : gmap Z nat;
  chans : gmap nat chan;
  next_chan : nat;
}.

Definition NewDisaggregator : Disaggregator := {| waiters := ∅; chans := ∅; next_chan := 0 |}.

(** The channel and the new state; the returned cleanup is [cleanup] below. *)
Definition Register (userID : Z) (d : Disaggregator) : nat * Disaggregator :=
  let ch := next_chan d in
  (ch, {| waiters := <[userID := ch]> (waiters d);
          chans := <[ch := {| ch_buf := []; ch_closed := false |}]> (chans d);
          next_chan := S ch |}).

Definition set_chan (ch : nat) (c : chan) (d : Disaggregator) : Disaggregator :=
  {| waiters := waiters d; chans := <[ch := c]> (chans d); next_chan := next_chan d |}.

(** The closure returned by [Register]; closing a closed channel panics. *)
Definition cleanup (userID : Z) (ch : nat) (d : Disaggregator) : go Disaggregator :=
  match chans d !! ch with
  | Some c =>
      if ch_closed c then Panic "close of closed channel"
      else Ret {| waiters := delete userID (waiters d);
                  chans := <[ch := {| ch_buf := ch_buf c; ch_closed := true |}]> (chans d);
                  next_chan := next_chan d |}
  | None => Panic "close of nil channel"
  end.

(** [Deliver] looks the channel up under the lock and sends after releasing
    it. *)
Definition deliver_lookup (userID : Z) (d : Disaggregator) : option nat := waiters d !! userID.

(** [ch <- data]: [None] while it blocks (the buffer holds one element). *)
Definition chan_send (ch : nat) (data : list Z) (d : Disaggregator) : option (go Disaggregator) :=
  match chans d !! ch with
  | None => None
  | Some c =>
      if ch_closed c then Some (Panic "send on closed channel")
      else if bool_decide (length (ch_buf c) < 1)%nat
      then Some (Ret (set_chan ch {| ch_buf := ch_buf c ++ [data]; ch_closed := false |} d))
      else None
  end.

Definition Deliver (userID : Z) (data : list Z) (d : Disaggregator) : option (go Disaggregator) :=
  match deliver_lookup userID d with
  | Some ch => chan_send ch data d
  | None => Some (Ret d)
  end.

(** [v, ok := <-ch]: [None] while it blocks. *)
Definition chan_recv (ch : nat) (d : Disaggregator) : option (option (list Z) * Disaggregator) :=
  match chans d !! ch with
  | None => None
  | Some c =>
      match ch_buf c with
      | v :: rest => Some (Some v, set_chan ch {| ch_buf := rest; ch_closed := ch_closed c |} d)
      | [] => if ch_closed c then Some (None, d) else None
      end
  end.

(** ** Requests with distinct ids

    [active] are the registrations not yet cleaned up.  A request registers an
    id that is not active, receives, and cleans up its own registration; a
    delivery may come at any time, for any id. *)
Record dstate := {
  ds : Disaggregator;
  active : gmap Z nat;
}.

Inductive dstep : relation dstate :=
| d_register s userID ch d' :
    active s !! userID = None → Register userID (ds s) = (ch, d') →
    dstep s {| ds := d'; active := <[userID := ch]> (active s) |}
| d_deliver s userID data d' :
    Deliver userID data (ds s) = Some (Ret d') → dstep s {| ds := d'; active := active s |}
| d_recv s userID ch v d' :
    active s !! userID = Some ch → chan_recv ch (ds s) = Some (v, d') →
    dstep s {| ds := d'; active := active s |}
| d_cleanup s userID ch d' :
    active s !! userID = Some ch → cleanup userID ch (ds s) = Ret d' →
    dstep s {| ds := d'; active := delete userID (active s) |}.

Definition d_init : dstate := {| ds := NewDisaggregator; active := ∅ |}.

Record dinv (s : dstate) : Prop := {
  di_waiters : waiters (ds s) = active s;
  di_open userID ch : active s !! userID = Some ch →
    ∃ c, chans (ds s) !! ch = Some c ∧ ch_closed c = false ∧ (length (ch_buf c) ≤ 1)%nat;
  di_inj u1 u2 ch : active s !! u1 = Some ch → active s !! u2 = Some ch → u1 = u2;
  di_fresh ch c : chans (ds s) !! ch = Some c → (ch < next_chan (ds s))%nat;
}.

Lemma dinv_chan s ch c c' u : dinv s → active s !! u = Some ch → chans (ds s) !! ch = Some c →
  ch_closed c' = false → (length (ch_buf c') ≤ 1)%nat →
  dinv {| ds := set_chan ch c' (ds s); active := active s |}.
Proof.
  intros [H1 H2 H3 H4] Hu Hc Hcl Hlen. split; simpl; [done| |done|].
  - intros u' ch' Hu'. destruct (decide (ch = ch')) as [->|Hne].
    + rewrite lookup_insert_eq. eauto.
    + rewrite lookup_insert_ne by done. eauto.
  - intros ch' c0 [[<- _]|[_ Hc0]]%lookup_insert_Some; eauto.
Qed.

Lemma dstep_inv s s' : dinv s → dstep s s' → dinv s'.
Proof.
  intros Hinv Hs. pose proof Hinv as [H1 H2 H3 H4]. destruct Hs as [s u ch d' Hu Hr|s u data d' Hd|s u ch v d' Hu Hr|s u ch d' Hu Hc].
  - injection Hr as <- <-. split; simpl.
    + by rewrite H1.
    + intros u' ch' [[<- <-]|[Hne Hu']]%lookup_insert_Some.
      { rewrite lookup_insert_eq. eexists. split; [done|]. split; [done|]. simpl. lia. }
      destruct (H2 u' ch' Hu') as (c & Hc & ?). rewrite lookup_insert_ne; [eauto|].
      apply H4 in Hc. lia.
    + intros u1 u2 ch' [[<- <-]|[Hn1 Hu1]]%lookup_insert_Some [[<- E]|[Hn2 Hu2]]%lookup_insert_Some;
        [done|..|eauto].
      * destruct (H2 u2 _ Hu2) as (c & Hc & _). apply H4 in Hc. lia.
      * subst ch'. destruct (H2 u1 _ Hu1) as (c & Hc & _). apply H4 in Hc. lia.
    + intros ch' c [[<- _]|[_ Hc]]%lookup_insert_Some; [lia|]. apply H4 in Hc. lia.
  - unfold Deliver, deliver_lookup in Hd. rewrite H1 in Hd. destruct (active s !! u) as [ch|] eqn:Hu.
    2: { injection Hd as <-. by destruct s. }
    destruct (H2 u ch Hu) as (c & Hc & Hcl & Hlen). unfold chan_send in Hd. rewrite Hc, Hcl in Hd.
    case_bool_decide as Hl; [|done]. injection Hd as <-. eapply dinv_chan; try done.
    simpl. rewrite length_app. simpl. lia.
  - destruct (H2 u ch Hu) as (c & Hc & Hcl & Hlen). unfold chan_recv in Hr. rewrite Hc, Hcl in Hr.
    destruct (ch_buf c) as [|x rest] eqn:Hb; [done|]. injection Hr as _ <-.
    eapply dinv_chan; try done. simpl in *. lia.
  - destruct (H2 u ch Hu) as (c & Hc' & Hcl & Hlen). unfold cleanup in Hc. rewrite Hc', Hcl in Hc.
    injection Hc as <-. split; simpl.
    + by rewrite H1.
    + intros u' ch' [Hne Hu']%lookup_delete_Some. destruct (H2 u' ch' Hu') as (c0 & Hc0 & ?).
      rewrite lookup_insert_ne; [eauto|]. intros ->. by apply Hne, (H3 u u' ch').
    + intros u1 u2 ch' [_ Hu1]%lookup_delete_Some [_ Hu2]%lookup_delete_Some. eauto.
    + intros ch' c0 [[<- _]|[_ Hc0]]%lookup_insert_Some; eauto.
Qed.

Lemma d_init_inv : dinv d_init.
Proof.
  split; simpl; [done|..].
  - intros u ch Hu. by rewrite lookup_empty in Hu.
  - intros u1 u2 ch Hu. by rewrite lookup_empty in Hu.
  - intros ch c Hc. by rewrite lookup_empty in Hc.
Qed.

(** As long as requests use distinct ids, a delivery that runs without
    interruption is safe in every reachable state: it never sends on a closed
    channel, it is dropped when nobody waits, and otherwise it reaches exactly
    the channel of its request (or waits because a response is already
    there). *)
Theorem deliver_safe s userID data :
  rtc dstep d_init s →
  match Deliver userID data (ds s) with
  | Some (Panic _) => False
  | Some (Ret d') =>
      match active s !! userID with
      | None => d' = ds s
      | Some ch =>
          chan_recv ch d' = Some (Some data, ds s) ∧
          ∀ u ch', active s !! u = Some ch' → u ≠ userID → chans d' !! ch' = chans (ds s) !! ch'
      end
  | None => ∃ ch old rest, active s !! userID = Some ch ∧
      chans (ds s) !! ch = Some {| ch_buf := old :: rest; ch_closed := false |}
  end.
Proof.
  intros Hr. assert (dinv s) as [H1 H2 H3 H4].
  { pose proof d_init_inv as Hi. revert Hi. induction Hr as [|a b c Hs _ IH]; [done|].
    intros Ha. by eapply IH, dstep_inv. }
  unfold Deliver, deliver_lookup. rewrite H1. destruct (active s !! userID) as [ch|] eqn:Hu; [|done].
  destruct (H2 userID ch Hu) as ([buf cl] & Hc & Hcl & Hlen). simpl in *. subst cl.
  unfold chan_send. rewrite Hc. simpl. destruct buf as [|old rest]; simpl.
  - split.
    + unfold chan_recv, set_chan. simpl. rewrite lookup_insert_eq. simpl. do 2 f_equal.
      rewrite insert_insert_eq, insert_id by done. by destruct s as [[]].
    + intros u ch' Hu' Hne. rewrite lookup_insert_ne; [done|]. intros ->. by apply Hne, (H3 u userID ch').
  - eauto.
Qed.

(** The delivery is not atomic: when the waiting request gives up between
    the look-up and the send, the send hits the closed channel and the
    process panics. *)
Theorem deliver_race_panics userID data :
  ∃ ch d1 d2, Register userID NewDisaggregator = (ch, d1) ∧
    deliver_lookup userID d1 = Some ch ∧ cleanup userID ch d1 = Ret d2 ∧
    chan_send ch data d2 = Some (Panic "send on closed channel").
Proof.
  do 3 eexists. split; [done|]. split; [unfold deliver_lookup; cbn; apply lookup_insert_eq|].
  split; [reflexivity|]. reflexivity.
Qed.

(** When an id is used again while its first request is still waiting, the
    first request's cleanup unregisters the second one, whose response is
    then dropped. *)
Theorem reused_id_loses_response userID data :
  ∃ ch1 d1 ch2 d2 d3, Register userID NewDisaggregator = (ch1, d1) ∧
    Register userID d1 = (ch2, d2) ∧ cleanup userID ch1 d2 = Ret d3 ∧
    Deliver userID data d3 = Some (Ret d3) ∧ chan_recv ch2 d3 = None.
Proof.
  do 5 eexists. split; [done|]. split; [done|]. split; [reflexivity|].
  split; [|reflexivity]. unfold Deliver, deliver_lookup. cbn. by rewrite lookup_delete_eq.
Qed.

(** ** Instances of the theorems *)
Definition one_waiter : dstate :=
  {| ds := (Register 7 NewDisaggregator).2; active := {[ 7 := 0%nat ]} |}.

Lemma deliver_safe_witness : ∃ d',
  Deliver 7 [1] (ds one_waiter) = Some (Ret d') ∧ chan_recv 0 d' = Some (Some [1], ds one_waiter).
Proof.
  pose proof (deliver_safe one_waiter 7 [1]) as H.
  eexists. split; [reflexivity|]. apply H. apply rtc_once.
  apply (d_register d_init 7 0 (Register 7 NewDisaggregator).2); reflexivity.
Defined.
