(* ===== verification/Server.v ===== *)
(** * The client side of the data proxy

    [data-proxy/server]: where a route comes from ([routing.go]), the cache of
    routes and the access log that the connections share ([handler.go],
    [tcp-server.go]), how a request is read, and what the TCP and the UDP
    handler do with it once a route is known.  The connections as concurrent
    processes are in [ServerRun]. *)
From S2P Require Import Prelude GoStrings Web Records Net Packet Tunnel Aggregator Batching Proxy Disagg.
Local Open Scope Z_scope.
Local Open Scope go_scope.

(** Times are nanoseconds. *)
Definition second : Z := 1000000000.
Definition routeTimeout : Z := 1 * second.
Definition accessWindow : Z := 5 * second.

(** ** Routes from the control plane: [GetRoutingFromControlPlane] *)
Record RoutingResponse := {
  rr_Code : Z;
  rr_Msg : string;
  rr_Data : RoutingInfo;
}.

(** The encoding of the request and the decoding of the answer. *)
Class ProxyJson := {
  marshal_EndPoints : EndPoints → option string;
  unmarshal_RoutingResponse : string → option RoutingResponse;
}.

(** [http.Post] and the reading of the body: an error, or a body that could be
    read or not. *)
Definition http_post := string → string → option (option string).

Record proxy_config := {
  TestPathMap : gmap Z string;
  Public : string;
  ControlHost : string;
}.

Definition routing_request (cfg : proxy_config) (port : Z) : EndPoints :=
  {| Source := {| ep_IP := Public cfg; ep_Port := 0; ep_Provider := ""; ep_Continent := "";
                  ep_Country := ""; ep_City := "" |};
     Dest := {| ep_IP := ""; ep_Port := port; ep_Provider := ""; ep_Continent := "";
                ep_Country := ""; ep_City := "" |} |}.

Definition test_route (cfg : proxy_config) (port : Z) : option RoutingInfo :=
  if bool_decide (0 < size (TestPathMap cfg))%nat then
    path ← TestPathMap cfg !! port;
    let hops := Split path "," in
    if bool_decide (2 ≤ length hops)%nat && bool_decide (head hops = Some (Public cfg))
    then Some {| Routing_ := [{| Hops := hops; Rtt := Float64.f0; RawRTT := Float64.f0 |}] |}
    else None
  else None.

(** The result is the address of a struct on every path, so it is never nil. *)
Definition GetRoutingFromControlPlane `{ProxyJson} (cfg : proxy_config) (post : http_post)
    (port : Z) : RoutingInfo :=
  match test_route cfg port with
  | Some r => r
  | None =>
      match marshal_EndPoints (routing_request cfg port) with
      | None => no_routing
      | Some reqBody =>
          let url := request_url (ControlHost cfg) middleRoutingURL (Public cfg) in
          match post url reqBody with
          | Some (Some respBody) =>
              match unmarshal_RoutingResponse respBody with
              | Some resp => if bool_decide (rr_Code resp = 200) then rr_Data resp else no_routing
              | None => no_routing
              end
          | _ => no_routing
          end
      end
  end.

(** ** The cache of routes *)
(** [routingInfo] in the source. *)
Record cached_route := {
  info : RoutingInfo;
  ri_deadline : Z;
}.

Abbreviation route_cache := (gmap Z cached_route).

Inductive route_lookup :=
| RouteMiss
| RouteStale (r : RoutingInfo)
| RouteFresh (r : RoutingInfo).

(** Under the read lock; [time.Now().After(deadline)] is strict. *)
Definition lookup_route (m : route_cache) (port now : Z) : route_lookup :=
  match m !! port with
  | None => RouteMiss
  | Some ri => if bool_decide (ri_deadline ri < now) then RouteStale (info ri) else RouteFresh (info ri)
  end.

(** Under the write lock. *)
Definition store_route (port : Z) (r : RoutingInfo) (now : Z) (m : route_cache) : route_cache :=
  <[port := {| info := r; ri_deadline := now + routeTimeout |}]> m.

(** ** The access log: [shouldLogAccess] *)
Definition shouldLogAccess (clientIP : string) (now : Z) (accessLogMap : gmap string Z)
    : bool * gmap string Z :=
  match accessLogMap !! clientIP with
  | None => (true, <[clientIP := now]> accessLogMap)
  | Some lastTime =>
      if bool_decide (accessWindow ≤ now - lastTime)
      then (true, <[clientIP := now]> accessLogMap)
      else (false, accessLogMap)
  end.

(** The access entry of a request, when the kernel reports a round trip time. *)
Definition log_access (tcpRTT : Z) (clientIP : string) (now : Z) (m : gmap string Z)
    : bool * gmap string Z :=
  if bool_decide (0 < tcpRTT) then shouldLogAccess clientIP now m else (false, m).

(** ** Reading a request

    A connection delivers its bytes in chunks, one per read; a [bufio.Reader]
    keeps what it has read beyond the newline in its own buffer.  [None]: the
    connection ends or times out before a newline. *)
Definition newline : Z := 10.

Fixpoint ReadBytes (acc : list Z) (chunks : list (list Z)) : option (list Z * list Z * list (list Z)) :=
  match chunks with
  | [] => None
  | c :: rest =>
      match list_find (λ b, b = newline) c with
      | Some (i, _) => Some (acc ++ take (S i) c, drop (S i) c, rest)
      | None => ReadBytes (acc ++ c) rest
      end
  end.

(** ** What a handler does with a route *)
Inductive dispatch :=
| NoPath
| Direct (originAddr : string)
| Send (msg : aggregatorMsg).

Section Handlers.
Context `{IP6 : Ip6Parser}.

(** [handleConnection] from the check of the route to [AddToBatch]. *)
Definition tcp_dispatch (routeInfo : RoutingInfo) (reqID : Z) (data : list Z) : go dispatch :=
  match choose_path (Hops <$> Routing_ routeInfo) with
  | None => Ret NoPath
  | Some path => let! msg := client_message path reqID data in Ret (Send msg)
  end.

(** The message of [handleUDPConnection]: urgent, and over the first path
    whatever its length. *)
Definition udp_message (path : list string) (reqID : Z) (data : list Z) : go aggregatorMsg :=
  let! hop1 := index path 1 in
  let nextHop := HopIPToNet hop1 in
  let '(hops, port_) := strip_hops path in
  Ret {| emerge := true; routingKey := Join hops ","; protocol := "udp";
         port := uint16 (ParseUint16 port_); routingInfo := hops; nextHop := nextHop;
         userID := reqID; data := data |}.

(** [pathInfo.Hops[len(pathInfo.Hops)-1]] panics on an empty path. *)
Definition udp_dispatch (routeInfo : RoutingInfo) (reqID : Z) (data : list Z) : go dispatch :=
  match Routing_ routeInfo with
  | [] => Ret NoPath
  | pathInfo :: _ =>
      if bool_decide (length (Hops pathInfo) ≤ 2)%nat then
        match last (Hops pathInfo) with
        | Some originAddr => Ret (Direct originAddr)
        | None => Panic "index out of range"
        end
      else let! msg := udp_message (Hops pathInfo) reqID data in Ret (Send msg)
  end.
End Handlers.

(** ** Exchanges with an origin

    A socket as the program sees it: whether the dial and the write succeed,
    and the chunks that can be read. *)
Record socket := {
  so_dial : string → bool;
  so_write : list Z → bool;
  so_reads : list (list Z);
}.

(** [TCPProtocol.DoRequest]: the answer up to its first newline. *)
Definition TCP_DoRequest (so : socket) (addr : string) (reqData : list Z) : option (list Z) :=
  if so_dial so addr then
    if so_write so reqData then
      match ReadBytes [] (so_reads so) with
      | Some (resp, _, _) => Some resp
      | None => None
      end
    else None
  else None.

Definition udpBufSize : nat := Z.to_nat 65535.

(** [UDPProtocol.DoRequest]: one datagram, cut to the size of the buffer. *)
Definition UDP_DoRequest (so : socket) (addr : string) (reqData : list Z) : option (list Z) :=
  if so_dial so addr then
    if so_write so reqData then
      match so_reads so with
      | c :: _ => Some (take udpBufSize c)
      | [] => None
      end
    else None
  else None.

(** [directOriginProxy] of the TCP server: the result and what is written to
    the client. *)
Definition directOriginProxy (so : socket) (originAddr : string) (data : list Z)
    : bool * list (list Z) :=
  match TCP_DoRequest so originAddr data with
  | Some resp => (true, [resp])
  | None => (false, [])
  end.

(** [UDPServer.DirectOriginProxy]: the write to the origin is not checked,
    the write to the client is. *)
Definition DirectOriginProxy (so : socket) (toClient : list Z → bool) (originAddr : string)
    (data : list Z) : bool * list (list Z) :=
  if so_dial so originAddr then
    match so_reads so with
    | c :: _ => let resp := take udpBufSize c in (toClient resp, [resp])
    | [] => (false, [])
    end
  else (false, []).

(** ** Keep-alive connections

    [handleConnectionKeepAlive] makes a new reader for every request, so what
    the last one had buffered beyond the newline is gone.  The requests it
    reads, one per turn, while the deadline allows ([turns]). *)
Fixpoint keepalive_requests (turns : nat) (chunks : list (list Z)) : list (list Z) :=
  match turns with
  | O => []
  | S turns =>
      match ReadBytes [] chunks with
      | None => []
      | Some (data, _, rest) => data :: keepalive_requests turns rest
      end
  end.

(** ** Choosing a path *)
Lemma choose_path_spec routing p : choose_path routing = Some p →
  p ∈ routing ∧ ((∃ q, q ∈ routing ∧ (2 < length q)%nat) → (2 < length p)%nat).
Proof.
  unfold choose_path. destruct (List.find _ routing) as [q|] eqn:E.
  - intros [= <-]. apply List.find_some in E as [H1%list_elem_of_In H2]. bool_simp. auto.
  - intros Hh. split; [destruct routing; simplify_eq/=; constructor|].
    intros (q & Hq & Hlen). apply list_elem_of_In in Hq.
    pose proof (List.find_none _ _ E q Hq) as Hf. simpl in Hf. bool_simp. lia.
Qed.

Lemma choose_path_None routing : choose_path routing = None ↔ routing = [].
Proof.
  unfold choose_path. destruct routing as [|q l]; [done|]. simpl.
  case_bool_decide; [done|]. by destruct (List.find _ l).
Qed.

Section Panics.
Context `{IP6 : Ip6Parser}.

Lemma client_message_panics path reqID data :
  panics (client_message path reqID data) ↔ (length path < 2)%nat.
Proof.
  unfold client_message, index. destruct path as [|a [|b l]]; simpl.
  - split; [lia|by eexists].
  - split; [lia|by eexists].
  - destruct (strip_hops _). split; [by intros ?%not_panics_Ret|lia].
Qed.

(** The TCP handler panics exactly when every path of a non-empty answer has
    at most two hops and the first of them fewer than two. *)
Lemma tcp_dispatch_panics r reqID data :
  panics (tcp_dispatch r reqID data) ↔
  ∃ p l, Hops <$> Routing_ r = p :: l ∧ (length p < 2)%nat ∧ Forall (λ q, (length q ≤ 2)%nat) l.
Proof.
  unfold tcp_dispatch. destruct (choose_path (Hops <$> Routing_ r)) as [path|] eqn:E.
  - assert (panics (let! msg := client_message path reqID data in Ret (Send msg)) ↔ (length path < 2)%nat) as ->.
    { rewrite <-(client_message_panics path reqID data). unfold panics.
      destruct (client_message path reqID data); simpl; split; intros [w Hw]; eauto; done. }
    destruct (choose_path_spec _ _ E) as [Hin Hlong]. split.
    + intros Hlen. unfold choose_path in E. destruct (List.find _ _) eqn:Hf.
      { apply List.find_some in Hf as [_ ?]. bool_simp. simplify_eq. lia. }
      destruct (Hops <$> Routing_ r) as [|p l] eqn:Hr; [done|]. simplify_eq/=.
      exists path, l. split_and!; [done|lia|]. apply Forall_forall. intros q Hq.
      destruct (decide (2 < length q)%nat); [|lia]. exfalso. assert (2 < length path)%nat; [|lia].
      apply Hlong. exists q. split; [by apply elem_of_cons; right|done].
    + intros (p & l & Hr & Hp & Hl). unfold choose_path in E. rewrite Hr in E. simpl in E.
      rewrite bool_decide_eq_false_2 in E by lia. destruct (List.find _ l) as [q|] eqn:Hf; [|by simplify_eq].
      apply List.find_some in Hf as [Hq%list_elem_of_In Hlen]. bool_simp.
      rewrite Forall_forall in Hl. specialize (Hl q Hq). lia.
  - apply choose_path_None in E. rewrite E. split; [by intros ?%not_panics_Ret|by intros (?&?&?&_)].
Qed.

Lemma udp_dispatch_panics r reqID data :
  panics (udp_dispatch r reqID data) ↔ head (Hops <$> Routing_ r) = Some [].
Proof.
  unfold udp_dispatch. destruct (Routing_ r) as [|p l]; simpl.
  { split; [by intros ?%not_panics_Ret|done]. }
  case_bool_decide as Hlen.
  - destruct (Hops p) as [|h hs] eqn:Hp; [by split; [|eexists]|].
    destruct (last (h :: hs)) eqn:E; [split; [by intros ?%not_panics_Ret|done]|].
    by apply last_None in E.
  - unfold udp_message, index. destruct (Hops p) as [|a [|b hs]]; simpl in *; try lia.
    destruct (strip_hops _). split; [by intros ?%not_panics_Ret|done].
Qed.
End Panics.

(** ** The access log *)
Fixpoint access_run (reqs : list (string * Z)) (m : gmap string Z) : list (string * Z) :=
  match reqs with
  | [] => []
  | (ip, now) :: reqs =>
      let '(log, m') := shouldLogAccess ip now m in
      (if log then [(ip, now)] else []) ++ access_run reqs m'
  end.

Definition times_of (ip : string) (l : list (string * Z)) : list Z :=
  (filter (λ a, a.1 = ip) l).*2.

Lemma times_of_cons ip a l : times_of ip (a :: l) =
  (if decide (a.1 = ip) then [a.2] else []) ++ times_of ip l.
Proof. unfold times_of. rewrite filter_cons. by case_decide. Qed.

(** Consecutive entries of one client are at least the window apart, counted
    from the last one that is remembered. *)
Fixpoint spaced (last : option Z) (l : list Z) : Prop :=
  match l with
  | [] => True
  | t :: l => from_option (λ t0, t0 + accessWindow ≤ t) True last ∧ spaced (Some t) l
  end.

Lemma access_run_spaced reqs m ip : spaced (m !! ip) (times_of ip (access_run reqs m)).
Proof.
  revert m. induction reqs as [|[ip' now] reqs IH]; intros m; [done|]. simpl.
  unfold shouldLogAccess. destruct (m !! ip') as [t0|] eqn:Hm.
  - case_bool_decide as Hw; simpl; [|apply IH]. rewrite times_of_cons. simpl. case_decide as E.
    + subst ip'. rewrite Hm. simpl. split; [lia|]. rewrite <-(lookup_insert_eq m ip now). apply IH.
    + simpl. rewrite <-(lookup_insert_ne m ip' ip now) by done. apply IH.
  - simpl. rewrite times_of_cons. simpl. case_decide as E.
    + subst ip'. rewrite Hm. simpl. split; [done|]. rewrite <-(lookup_insert_eq m ip now). apply IH.
    + simpl. rewrite <-(lookup_insert_ne m ip' ip now) by done. apply IH.
Qed.

(** An access is in the log or less than the window after one that is. *)
Lemma access_run_covers reqs m ip t : (ip, t) ∈ reqs →
  ∃ t0, t - t0 < accessWindow ∧ (m !! ip = Some t0 ∨ t0 ∈ times_of ip (access_run reqs m)).
Proof.
  revert m. induction reqs as [|[ip' now] reqs IH]; intros m; [by intros ?%not_elem_of_nil|].
  intros [E|Hin]%elem_of_cons.
  - injection E as <- <-. simpl. unfold shouldLogAccess.
    destruct (m !! ip) as [t0|] eqn:Hm; [case_bool_decide as Hw|].
    2: { exists t0. split; [lia|by left]. }
    all: exists t; (split; [unfold accessWindow, second; lia|]); right; simpl;
      rewrite times_of_cons; simpl; rewrite decide_True by done; by left.
  - simpl. destruct (shouldLogAccess ip' now m) as [log m'] eqn:Hs.
    destruct (IH m' Hin) as (t0 & Ht & Hor). exists t0. split; [done|].
    unfold times_of in *. rewrite filter_app, fmap_app, elem_of_app. destruct Hor as [Hm|?]; [|by auto].
    unfold shouldLogAccess in Hs. destruct (decide (ip' = ip)) as [->|Hne].
    + destruct (m !! ip) as [t1|] eqn:Hm1; [case_bool_decide|]; simplify_eq; [|by auto|].
      all: rewrite lookup_insert_eq in Hm; simplify_eq; right; left; rewrite filter_cons;
        simpl; rewrite decide_True by done; by left.
    + left. destruct (m !! ip') as [t1|]; [case_bool_decide|]; simplify_eq; [|done|];
        by rewrite lookup_insert_ne in Hm.
Qed.

(** The access log of a client has at most one entry per five seconds and
    misses nothing: consecutive entries are at least the window apart, and
    every access is in the log or less than the window after an entry. *)
Theorem access_log_sampled reqs ip :
  spaced None (times_of ip (access_run reqs ∅)) ∧
  ∀ t, (ip, t) ∈ reqs →
    ∃ t0, t0 ∈ times_of ip (access_run reqs ∅) ∧ t - t0 < accessWindow.
Proof.
  split.
  - rewrite <-(lookup_empty (M := gmap string) (A := Z) ip). apply access_run_spaced.
  - intros t Ht. destruct (access_run_covers reqs ∅ ip t Ht) as (t0 & H & [Hm|Hin]); [|by eauto].
    by rewrite lookup_empty in Hm.
Qed.

(** ** Reading requests *)
Definition no_newline (c : list Z) : Prop := Forall (λ b, b ≠ newline) c.

Lemma list_find_newline_app c rest : no_newline c →
  list_find (λ b, b = newline) (c ++ newline :: rest) = Some (length c, newline).
Proof.
  intros Hc. apply list_find_Some. split.
  - by rewrite lookup_app_r, Nat.sub_diag by lia.
  - split; [done|]. intros j b Hj Hlt. rewrite lookup_app_l in Hj by done.
    unfold no_newline in Hc. rewrite Forall_lookup in Hc. by eapply Hc.
Qed.

Lemma ReadBytes_line acc cs c tail rest : Forall no_newline cs → no_newline c →
  ReadBytes acc (cs ++ (c ++ newline :: tail) :: rest) =
    Some (acc ++ concat cs ++ c ++ [newline], tail, rest).
Proof.
  intros Hcs Hc. revert acc. induction Hcs as [|x cs Hx Hcs IH]; intros acc; simpl.
  - rewrite list_find_newline_app by done. f_equal. f_equal. f_equal.
    + f_equal. by rewrite (cons_middle newline c tail), app_assoc, take_app_length'
        by (rewrite length_app; simpl; lia).
    + by rewrite (cons_middle newline c tail), app_assoc, drop_app_length'
        by (rewrite length_app; simpl; lia).
  - assert (list_find (λ b, b = newline) x = None) as -> by (by apply list_find_None).
    rewrite IH. by rewrite <-!app_assoc.
Qed.

(** A request as it arrives: chunks without a newline, then the one that ends
    with it. *)
Definition arrival := (list (list Z) * list Z)%type.
Definition arrival_ok (a : arrival) : Prop := Forall no_newline a.1 ∧ no_newline a.2.
Definition arrival_chunks (a : arrival) : list (list Z) := a.1 ++ [a.2 ++ [newline]].
Definition arrival_line (a : arrival) : list Z := concat a.1 ++ a.2 ++ [newline].

(** A keep-alive connection reads every request of a client that sends the
    next one only after the newline of the last has been read, however each
    request is cut into chunks. *)
Theorem keepalive_reads_all (reqs : list arrival) : Forall arrival_ok reqs →
  keepalive_requests (length reqs) (concat (arrival_chunks <$> reqs)) = arrival_line <$> reqs.
Proof.
  induction 1 as [|a reqs [Ha1 Ha2] Hreqs IH]; [done|].
  cbn [length keepalive_requests fmap list_fmap concat]. unfold arrival_chunks at 1.
  rewrite <-app_assoc. cbn [app].
  rewrite (ReadBytes_line [] a.1 a.2 [] _ Ha1 Ha2). f_equal. exact IH.
Qed.

(** A client that pipelines loses requests: of two requests that arrive in
    one chunk, a keep-alive connection answers the first only, whatever comes
    afterwards. *)
Theorem keepalive_drops_pipelined r1 r2 turns rest : no_newline r1 → no_newline r2 →
  keepalive_requests (S turns) ((r1 ++ newline :: r2 ++ [newline]) :: rest) =
    (r1 ++ [newline]) :: keepalive_requests turns rest.
Proof.
  intros H1 _. cbn [keepalive_requests].
  pose proof (ReadBytes_line [] [] r1 (r2 ++ [newline]) rest (Forall_nil_2 _) H1) as E.
  cbn [app concat] in E. by rewrite E.
Qed.

(** ** Instances of the theorems *)
Lemma keepalive_reads_all_witness :
  keepalive_requests 2 [[104]; [105; 10]; [98; 121; 101; 10]] = [[104; 105; 10]; [98; 121; 101; 10]].
Proof.
  apply (keepalive_reads_all [([[104]], [105]); ([], [98; 121; 101])]).
  repeat constructor; discriminate.
Defined.

Lemma keepalive_drops_pipelined_witness :
  keepalive_requests 2 [[97; 10; 98; 10]; [99; 10]] = [[97; 10]; [99; 10]].
Proof.
  pose proof (keepalive_drops_pipelined [97] [98] 1 [[99; 10]]) as H. apply H;
    repeat constructor; discriminate.
Defined.
