(* ===== verification/BackSource.v ===== *)
(** * The workers that fetch from the origins

    [data-proxy/backsourcer/backsourcer.go]: a channel of tasks, the workers
    that carry them out with [doOriginRequest] over the protocol of the
    back-sourcer, and [Close].  The goroutines appear as interleaved
    operations; the socket of an exchange is an argument. *)
From S2P Require Import Prelude GoStrings Net Packet Tunnel Aggregator Batching Eviction AggPool Proxy Server.
Local Open Scope Z_scope.
Local Open Scope go_scope.

Definition backWorkerCount : Z := 100.
Definition taskQueueSize : nat := Z.to_nat 100000.

(** The interface [OriginProtocol] and its two implementations in use. *)
Record OriginProtocol := { DoRequest_ : socket → string → list Z → option (list Z) }.
Definition TCPProtocol : OriginProtocol := {| DoRequest_ := TCP_DoRequest |}.
Definition UDPProtocol : OriginProtocol := {| DoRequest_ := UDP_DoRequest |}.

Inductive worker_state := WWaiting | WWorking (task : BackSourceTask) | WExited.

Record BackSourcer := {
  taskChan : list BackSourceTask;
  chan_closed : bool;
  protocol_ : OriginProtocol;
  back_workers : list worker_state;
}.

Definition NewBackSourcerWithProtocol (p : OriginProtocol) (BackWorkerCount : Z) : BackSourcer :=
  {| taskChan := []; chan_closed := false; protocol_ := p;
     back_workers := replicate (worker_count BackWorkerCount backWorkerCount) WWaiting |}.

(** Anything but "udp" is TCP. *)
Definition NewBackSourcer (protocol : string) (BackWorkerCount : Z) : BackSourcer :=
  NewBackSourcerWithProtocol (if bool_decide (protocol = "udp") then UDPProtocol else TCPProtocol)
    BackWorkerCount.

Definition set_chan (q : list BackSourceTask) (cl : bool) (b : BackSourcer) : BackSourcer :=
  {| taskChan := q; chan_closed := cl; protocol_ := protocol_ b; back_workers := back_workers b |}.
Definition set_back_worker (i : nat) (st : worker_state) (b : BackSourcer) : BackSourcer :=
  {| taskChan := taskChan b; chan_closed := chan_closed b; protocol_ := protocol_ b;
     back_workers := <[i := st]> (back_workers b) |}.

(** A task that was carried out, and the message for the aggregator. *)
Record answered := { a_task : BackSourceTask; a_socket : socket; a_msg : option aggregatorMsg }.

Inductive back_event := Submitted (t : BackSourceTask) | Answered (a : answered).

Inductive back_op := BSubmit (t : BackSourceTask) | BTake (i : nat) | BFinish (i : nat) (so : socket) | BClose.

(** [Submit]: a send, which waits while the queue is full. *)
Definition Submit (b : BackSourcer) (t : BackSourceTask) : go (BackSourcer * list back_event) :=
  if chan_closed b then Panic "send on closed channel"
  else if bool_decide (length (taskChan b) < taskQueueSize)%nat
  then Ret (set_chan (taskChan b ++ [t]) false b, [Submitted t])
  else Ret (b, []).

(** [for task := range bs.taskChan] of worker [i]. *)
Definition take_task (b : BackSourcer) (i : nat) : go (BackSourcer * list back_event) :=
  match back_workers b !! i, taskChan b with
  | Some WWaiting, t :: q => Ret (set_back_worker i (WWorking t) (set_chan q (chan_closed b) b), [])
  | Some WWaiting, [] => Ret (if chan_closed b then set_back_worker i WExited b else b, [])
  | _, _ => Ret (b, [])
  end.

Definition finish_task (b : BackSourcer) (i : nat) (so : socket) : go (BackSourcer * list back_event) :=
  match back_workers b !! i with
  | Some (WWorking t) =>
      let! m := doOriginRequest (DoRequest_ (protocol_ b) so) t in
      Ret (set_back_worker i WWaiting b, [Answered {| a_task := t; a_socket := so; a_msg := m |}])
  | _ => Ret (b, [])
  end.

(** [Close] up to its wait; these back-sourcers have no connection pool. *)
Definition Close (b : BackSourcer) : go (BackSourcer * list back_event) :=
  if chan_closed b then Panic "close of closed channel"
  else Ret (set_chan (taskChan b) true b, []).

Definition back_step (b : BackSourcer) (op : back_op) : go (BackSourcer * list back_event) :=
  match op with
  | BSubmit t => Submit b t
  | BTake i => take_task b i
  | BFinish i so => finish_task b i so
  | BClose => Close b
  end.

Fixpoint back_run (b : BackSourcer) (ops : list back_op) : go (BackSourcer * list back_event) :=
  match ops with
  | [] => Ret (b, [])
  | op :: ops =>
      let! (b, evs) := back_step b op in
      let! (b, evs') := back_run b ops in Ret (b, evs ++ evs')
  end.

(** [bs.wg.Wait()] returns. *)
Definition all_exited (b : BackSourcer) : Prop := Forall (λ st, st = WExited) (back_workers b).

(** ** What happens to the tasks *)
Definition submitted (evs : list back_event) : list BackSourceTask :=
  omap (λ e, match e with Submitted t => Some t | _ => None end) evs.
Definition answers (evs : list back_event) : list answered :=
  omap (λ e, match e with Answered a => Some a | _ => None end) evs.

Definition working_on (ws : list worker_state) : list (list BackSourceTask) :=
  (λ st, match st with WWorking t => [t] | _ => [] end) <$> ws.

(** The tasks accepted and not carried out yet. *)
Definition open_tasks (b : BackSourcer) : list BackSourceTask :=
  mjoin (working_on (back_workers b)) ++ taskChan b.

(** A task whose reply path has the hops the code reads. *)
Definition task_ok (t : BackSourceTask) : Prop := (3 ≤ length (filter (λ v : Z, v ≠ 0%Z) (bt_HopIP t)))%nat.

Lemma origin_task_ok DoRequest t : task_ok t → ∃ m, doOriginRequest DoRequest t = Ret m.
Proof.
  intros Ht. destruct (doOriginRequest DoRequest t) as [m|why] eqn:E; [by eexists|].
  exfalso. unfold doOriginRequest in E.
  destruct (DoRequest (OriginAddr t) (ReqData t)) as [[|r resp]|] eqn:Hd; [done| |done].
  assert (length (filter (λ v, v ≠ 0) (rev (bt_HopIP t))) = length (filter (λ v, v ≠ 0) (bt_HopIP t))) as Hl
    by (apply Permutation_length; f_equiv; symmetry; apply Permutation_rev).
  unfold task_ok in Ht. destruct (filter (λ v, v ≠ 0) (rev (bt_HopIP t))) as [|a [|b [|c l]]];
    simpl in *; try lia. done.
Qed.

Lemma back_run_app ops1 ops2 b : back_run b (ops1 ++ ops2) =
  (let! (b1, e1) := back_run b ops1 in
   let! (b2, e2) := back_run b1 ops2 in Ret (b2, e1 ++ e2)).
Proof.
  revert b. induction ops1 as [|op ops1 IH]; intros b; simpl.
  { by destruct (back_run b ops2) as [[? ?]|]. }
  destruct (back_step b op) as [[b1 e1]|]; [|done]. cbn [go_bind]. rewrite IH.
  destruct (back_run b1 ops1) as [[b2 e2]|]; [|done]. cbn [go_bind].
  destruct (back_run b2 ops2) as [[b3 e3]|]; [|done]. cbn [go_bind]. by rewrite app_assoc.
Qed.

(** The invariant, for a back-sourcer of protocol [pr]. *)
Section Invariant.
Context (pr : OriginProtocol).

Record back_inv (b : BackSourcer) (evs : list back_event) : Prop := {
  bi_tasks : submitted evs ≡ₚ (a_task <$> answers evs) ++ open_tasks b;
  bi_ok : Forall task_ok (open_tasks b);
  bi_msgs : Forall (λ a, doOriginRequest (DoRequest_ pr (a_socket a)) (a_task a) = Ret (a_msg a))
              (answers evs);
  bi_exit : WExited ∈ back_workers b → chan_closed b = true ∧ taskChan b = [];
  bi_proto : protocol_ b = pr;
  bi_some : (0 < length (back_workers b))%nat;
}.

Lemma events_snoc evs e : submitted (evs ++ e) = submitted evs ++ submitted e ∧
  answers (evs ++ e) = answers evs ++ answers e.
Proof. unfold submitted, answers. by rewrite !omap_app. Qed.

Lemma working_insert b i st st' d e :
  back_workers b !! i = Some st → mjoin (working_on [st']) ++ d ≡ₚ mjoin (working_on [st]) ++ e →
  mjoin (working_on (<[i := st']> (back_workers b))) ++ d ≡ₚ mjoin (working_on (back_workers b)) ++ e.
Proof.
  intros Hi Hp. unfold working_on in *. rewrite list_fmap_insert.
  eapply join_insert_perm; [by rewrite list_lookup_fmap, Hi|]. simpl in Hp. by rewrite !app_nil_r in Hp.
Qed.

Lemma exited_insert b i st st' : back_workers b !! i = Some st → st' ≠ WExited →
  WExited ∈ <[i := st']> (back_workers b) → WExited ∈ back_workers b.
Proof.
  intros Hi Hne [j Hj]%list_elem_of_lookup. apply list_lookup_insert_Some in Hj as [(_ & ? & _)|[_ Hj]]; [done|].
  by eapply list_elem_of_lookup_2.
Qed.

(** Operations that respect [Close]. *)
Definition back_allowed (b : BackSourcer) (op : back_op) : Prop :=
  match op with
  | BSubmit t => chan_closed b = false ∧ task_ok t
  | BClose => chan_closed b = false
  | _ => True
  end.

(** A step keeps the invariant. *)
Definition back_good (b : BackSourcer) (evs : list back_event) (cl : bool)
    (r : go (BackSourcer * list back_event)) : Prop :=
  ∃ b' e, r = Ret (b', e) ∧ back_inv b' (evs ++ e) ∧ chan_closed b' = cl.

Lemma stay_good b evs : back_inv b evs → back_good b evs (chan_closed b) (Ret (b, [])).
Proof. intros Hi. exists b, []. by rewrite app_nil_r. Qed.

Lemma submit_good b evs t : back_inv b evs → chan_closed b = false → task_ok t →
  back_good b evs false (Submit b t).
Proof.
  intros [H1 H2 H3 H4 H5 H6] Hc Ht. unfold Submit. rewrite Hc.
  case_bool_decide; [|rewrite <-Hc; by apply stay_good]. do 2 eexists. split; [done|]. split; [|done].
  destruct (events_snoc evs [Submitted t]) as [E1 E2]. change (answers [Submitted t]) with (@nil answered) in E2.
  rewrite app_nil_r in E2. split; rewrite ?E1, ?E2; unfold open_tasks in *; simpl.
  - rewrite H1. solve_Permutation.
  - rewrite app_assoc. apply Forall_app_2; [done|by constructor].
  - done.
  - intros [? _]%H4. congruence.
  - done.
  - done.
Qed.

Lemma take_good b evs i : back_inv b evs → back_good b evs (chan_closed b) (take_task b i).
Proof.
  intros Hi. pose proof Hi as [H1 H2 H3 H4 H5 H6]. unfold take_task.
  destruct (back_workers b !! i) as [[|t|]|] eqn:Hw; [|by apply stay_good..].
  destruct (taskChan b) as [|t q] eqn:Hq.
  - destruct (chan_closed b) eqn:Hc; [|rewrite <-Hc; by apply stay_good].
    do 2 eexists. split; [done|]. rewrite app_nil_r. split; [|done].
    assert (open_tasks (set_back_worker i WExited b) ≡ₚ open_tasks b) as Ho.
    { unfold open_tasks. simpl. by apply (working_insert b i WWaiting WExited). }
    split; [by rewrite Ho|by rewrite Ho|done|done|done|simpl; by rewrite length_insert].
  - do 2 eexists. split; [done|]. rewrite app_nil_r. split; [|done].
    assert (open_tasks (set_back_worker i (WWorking t) (set_chan q (chan_closed b) b)) ≡ₚ open_tasks b) as Ho.
    { unfold open_tasks. simpl. rewrite Hq. by apply (working_insert b i WWaiting (WWorking t)). }
    split; [by rewrite Ho|by rewrite Ho|done| |done|simpl; by rewrite length_insert].
    intros Hex. eapply exited_insert in Hex; [|exact Hw|done]. by destruct (H4 Hex).
Qed.

Lemma finish_good b evs i so : back_inv b evs → back_good b evs (chan_closed b) (finish_task b i so).
Proof.
  intros Hi. pose proof Hi as [H1 H2 H3 H4 H5 H6]. unfold finish_task.
  destruct (back_workers b !! i) as [[|t|]|] eqn:Hw; [by apply stay_good| |by apply stay_good..].
  set (b' := set_back_worker i WWaiting b).
  assert (open_tasks b' ++ [t] ≡ₚ open_tasks b) as Ho.
  { unfold open_tasks, b'. simpl. rewrite <-app_assoc, (Permutation_app_comm (taskChan b)).
    apply (working_insert b i (WWorking t) WWaiting); [done|]. simpl. done. }
  rewrite <-Ho in H2. apply Forall_app in H2 as [H2 Ht]. apply Forall_cons in Ht as [Ht _].
  destruct (origin_task_ok (DoRequest_ (protocol_ b) so) t Ht) as [m Hm]. rewrite Hm. cbn [go_bind].
  do 2 eexists. split; [done|]. split; [|done].
  match goal with |- back_inv _ (evs ++ ?e) => destruct (events_snoc evs e) as [E1 E2] end.
  change (submitted [_]) with (@nil BackSourceTask) in E1. rewrite app_nil_r in E1.
  split; rewrite ?E1, ?E2.
  - rewrite H1, <-Ho, fmap_app. simpl. solve_Permutation.
  - done.
  - apply Forall_app_2; [done|]. constructor; [|constructor]. by rewrite <-H5.
  - intros Hex. eapply exited_insert in Hex; [|exact Hw|done]. by apply H4.
  - done.
  - simpl. by rewrite length_insert.
Qed.

Lemma close_good b evs : back_inv b evs → chan_closed b = false → back_good b evs true (Close b).
Proof.
  intros [H1 H2 H3 H4 H5 H6] Hc. unfold Close. rewrite Hc. do 2 eexists. split; [done|]. rewrite app_nil_r.
  split; [|done]. split; [done|done|done| |done|done]. intros [? _]%H4. congruence.
Qed.

Lemma run_good ops b evs cl :
  back_inv b evs → chan_closed b = cl →
  Forall (λ op, match op with BSubmit t => cl = false ∧ task_ok t | BClose => False | _ => True end) ops →
  back_good b evs cl (back_run b ops).
Proof.
  intros Hi Hc Hops. revert b evs Hi Hc. induction Hops as [|op ops Hop Hops IH]; intros b evs Hi Hc.
  { rewrite <-Hc. by apply stay_good. }
  assert (back_good b evs cl (back_step b op)) as (b1 & e1 & E1 & I1 & C1).
  { destruct op as [t|i|i so|]; simpl; [|rewrite <-Hc; by apply take_good|rewrite <-Hc; by apply finish_good|done].
    destruct Hop as [-> Ht]. by apply submit_good. }
  destruct (IH b1 _ I1 C1) as (b2 & e2 & E2 & I2 & C2).
  exists b2, (e1 ++ e2). simpl. rewrite E1. cbn [go_bind]. rewrite E2. cbn [go_bind].
  rewrite app_assoc. split; [done|]. split; [done|done].
Qed.

(** ** [Close] comes to an end *)
Definition turns (st : worker_state) : list unit :=
  match st with WWaiting => [tt] | WWorking _ => [tt; tt] | WExited => [] end.

(** The turns the workers still have to take. *)
Definition work_left (b : BackSourcer) : nat :=
  2 * length (taskChan b) + length (mjoin (turns <$> back_workers b)).

Lemma turns_insert b i st st' d e : back_workers b !! i = Some st →
  turns st' ++ d ≡ₚ turns st ++ e →
  (length (mjoin (turns <$> <[i := st']> (back_workers b))) + length d =
   length (mjoin (turns <$> back_workers b)) + length e)%nat.
Proof.
  intros Hi Hp. rewrite <-!length_app. apply Permutation_length. rewrite list_fmap_insert.
  eapply join_insert_perm; [by rewrite list_lookup_fmap, Hi|done].
Qed.

Definition back_internal (op : back_op) : Prop := match op with BTake _ | BFinish _ _ => True | _ => False end.

(** A turn of a worker of a closed back-sourcer: nothing when the turn is not
    its own, otherwise there is less left to do. *)
Lemma back_turn b evs op : back_inv b evs → chan_closed b = true → back_internal op →
  ∃ b' e, back_step b op = Ret (b', e) ∧ (b' = b ∧ e = [] ∨ (work_left b' < work_left b)%nat).
Proof.
  intros [H1 H2 H3 H4 H5 H6] Hc Hop. destruct op as [t|i|i so|]; try done; simpl.
  - unfold take_task. destruct (back_workers b !! i) as [[|t|]|] eqn:Hi; [|by eauto 10..].
    destruct (taskChan b) as [|t q] eqn:Hq; [rewrite Hc|]; do 2 eexists; (split; [done|]);
      right; unfold work_left; simpl; rewrite Hq; simpl.
    + pose proof (turns_insert b i WWaiting WExited [tt] [] Hi (reflexivity _)). simpl in *. lia.
    + pose proof (turns_insert b i WWaiting (WWorking t) [] [tt] Hi (reflexivity _)). simpl in *. lia.
  - unfold finish_task. destruct (back_workers b !! i) as [[|t|]|] eqn:Hi; [by eauto 10| |by eauto 10..].
    destruct (origin_task_ok (DoRequest_ (protocol_ b) so) t) as [m ->].
    { rewrite Forall_forall in H2. apply H2, elem_of_app. left. apply list_elem_of_join. exists [t].
      split; [left|]. apply list_elem_of_fmap. exists (WWorking t).
      split; [done|]. by eapply list_elem_of_lookup_2. }
    cbn [go_bind]. do 2 eexists. split; [done|]. right. unfold work_left. simpl.
    pose proof (turns_insert b i (WWorking t) WWaiting [tt] [] Hi (reflexivity _)). simpl in *. lia.
Qed.

(** Turns in any order: either all of them were nothing, or there is less left
    to do. *)
Lemma back_turns ops b evs : back_inv b evs → chan_closed b = true → Forall back_internal ops →
  ∃ b' e, back_run b ops = Ret (b', e) ∧ back_inv b' (evs ++ e) ∧ chan_closed b' = true ∧
    (Forall (λ op, back_step b op = Ret (b, [])) ops ∧ b' = b ∨ (work_left b' < work_left b)%nat).
Proof.
  intros Hi Hc Hops. revert b evs Hi Hc. induction Hops as [|op ops Hop Hops IH]; intros b evs Hi Hc.
  { exists b, []. rewrite app_nil_r. split; [done|]. split; [done|]. split; [done|]. by left. }
  destruct (back_turn b evs op Hi Hc Hop) as (b1 & e1 & E1 & Hlt).
  destruct (run_good [op] b evs true Hi Hc) as (b2 & e2 & E2 & I2 & C2).
  { constructor; [|constructor]. by destruct op. }
  cbn [back_run] in E2. rewrite E1 in E2. cbn [go_bind] in E2. rewrite app_nil_r in E2. injection E2 as <- <-.
  destruct (IH b1 _ I2 C2) as (b3 & e3 & E3 & I3 & C3 & Hor).
  exists b3, (e1 ++ e3). cbn [back_run]. rewrite E1. cbn [go_bind]. rewrite E3. cbn [go_bind].
  split; [done|]. rewrite app_assoc. split; [done|]. split; [done|].
  destruct Hlt as [[-> ->]|Hlt]; [|right; destruct Hor as [[_ ->]|?]; lia].
  destruct Hor as [[Hall ->]|?]; [left|by right]. split; [by constructor|done].
Qed.

(** A round: every worker gets a turn of either kind, in any order and with any
    answers of the origins. *)
Definition back_round (n : nat) (ops : list back_op) : Prop :=
  Forall back_internal ops ∧
  ∀ i, (i < n)%nat → BTake i ∈ ops ∧ ∃ so, BFinish i so ∈ ops.

Lemma round_progress n ops b : back_round n ops → length (back_workers b) = n → chan_closed b = true →
  Forall (λ op, back_step b op = Ret (b, [])) ops → all_exited b.
Proof.
  intros [_ Hall] Hn Hc Hnone. rewrite Forall_forall in Hnone. apply Forall_forall.
  intros st [i Hi]%list_elem_of_lookup. destruct (Hall i) as (Ht & so & Hf).
  { rewrite <-Hn. by eapply lookup_lt_Some. }
  apply Hnone in Ht, Hf. simpl in Ht, Hf. unfold take_task, finish_task in *. rewrite Hi in Ht, Hf.
  destruct st as [|t|]; [|by destruct (doOriginRequest _ t)|done]. rewrite Hc in Ht.
  destruct (taskChan b) as [|t q]; injection Ht as Ht; apply (f_equal back_workers) in Ht; simpl in Ht;
    apply (f_equal (.!! i)) in Ht; rewrite list_lookup_insert_eq, Hi in Ht by (by eapply lookup_lt_Some); done.
Qed.

Lemma back_run_workers ops b b' e : back_run b ops = Ret (b', e) →
  length (back_workers b') = length (back_workers b).
Proof.
  revert b e. induction ops as [|op ops IH]; intros b e; simpl; [by intros [= <- _]|].
  destruct (back_step b op) as [[b1 e1]|] eqn:E; [|done]. cbn [go_bind].
  destruct (back_run b1 ops) as [[b2 e2]|] eqn:E2; [|done]. cbn [go_bind]. intros [= <- _].
  rewrite (IH _ _ E2). destruct op as [t|i|i so|]; simpl in E.
  - unfold Submit in E. destruct (chan_closed b); [done|]. case_bool_decide; by injection E as <- _.
  - unfold take_task in E. destruct (back_workers b !! i) as [[]|], (taskChan b), (chan_closed b);
      injection E as <- _; try done; simpl; by rewrite length_insert.
  - unfold finish_task in E. destruct (back_workers b !! i) as [[|t|]|]; try (by injection E as <- _).
    destruct (doOriginRequest _ t); [|done]. cbn [go_bind] in E. injection E as <- _. simpl. by rewrite length_insert.
  - unfold Close in E. destruct (chan_closed b); [done|]. by injection E as <- _.
Qed.
Lemma exited_stay b evs ops b' e : back_inv b evs → chan_closed b = true → Forall back_internal ops →
  all_exited b → back_run b ops = Ret (b', e) → b' = b.
Proof.
  intros Hi Hc Hops Hx. revert e. induction Hops as [|op ops Hop Hops IH]; intros e; simpl; [by intros [= <- _]|].
  assert (back_step b op = Ret (b, [])) as ->.
  { destruct op as [|i|i so|]; try done; simpl; unfold take_task, finish_task;
      destruct (back_workers b !! i) as [st|] eqn:Hs; try done;
      unfold all_exited in Hx; rewrite Forall_forall in Hx;
      by rewrite (Hx st) by (by eapply list_elem_of_lookup_2). }
  cbn [go_bind]. destruct (back_run b ops) as [[b2 e2]|] eqn:E2; [|done]. cbn [go_bind].
  intros [= <- _]. by eapply IH.
Qed.

(** Enough rounds end the work. *)
Lemma rounds_end rounds b evs : back_inv b evs → chan_closed b = true →
  Forall (back_round (length (back_workers b))) rounds → (work_left b ≤ length rounds)%nat →
  ∃ b' e, back_run b (mjoin rounds) = Ret (b', e) ∧ back_inv b' (evs ++ e) ∧ all_exited b'.
Proof.
  intros Hi Hc Hr Hn. remember (length (back_workers b)) as n eqn:Hlen. revert b evs Hi Hc Hlen Hn.
  induction Hr as [|ops rounds Hop Hr IH]; intros b evs Hi Hc Hlen Hn.
  { exists b, []. rewrite app_nil_r. split; [done|]. split; [done|]. simpl in Hn.
    apply Forall_forall. intros st [i Hst]%list_elem_of_lookup. unfold work_left in Hn.
    assert (turns st = []) as Ht.
    { apply nil_length_inv. assert (length (turns st) ≤ length (mjoin (turns <$> back_workers b)))%nat; [|lia].
      apply (take_drop_middle _ _ _) in Hst as <-.
      rewrite fmap_app, fmap_cons, join_app, mjoin_cons, !length_app. lia. }
    by destruct st. }
  destruct (back_turns ops b evs Hi Hc (proj1 Hop)) as (b1 & e1 & E1 & I1 & C1 & Hor).
  pose proof (back_run_workers _ _ _ _ E1) as Hw.
  assert (∃ b' e, back_run b1 (mjoin rounds) = Ret (b', e) ∧ back_inv b' ((evs ++ e1) ++ e) ∧ all_exited b')
    as (b2 & e2 & E2 & I2 & Hx2).
  { destruct Hor as [[Hnone ->]|Hlt]; [|apply IH; [done|done|congruence|simpl in Hn; lia]].
    pose proof (round_progress _ _ _ Hop (eq_sym Hlen) Hc Hnone) as Hx.
    destruct (back_turns (mjoin rounds) b (evs ++ e1) I1 C1) as (b2 & e2 & E2 & I2 & _).
    { clear -Hr. induction Hr as [|ops rounds [H _] Hr IH]; [constructor|]. rewrite mjoin_cons. by apply Forall_app_2. }
    exists b2, e2. split; [done|]. split; [done|].
    rewrite (exited_stay b (evs ++ e1) (mjoin rounds) b2 e2); [done|done|done| |done|done].
    clear -Hr. induction Hr as [|ops rounds [H _] Hr IH]; [constructor|]. rewrite mjoin_cons. by apply Forall_app_2. }
  exists b2, (e1 ++ e2). rewrite mjoin_cons, back_run_app, E1. cbn [go_bind]. rewrite E2. cbn [go_bind].
  by rewrite app_assoc.
Qed.

Lemma work_left_open b : (work_left b ≤ 2 * length (open_tasks b) + length (back_workers b))%nat.
Proof.
  unfold work_left, open_tasks. rewrite length_app.
  enough (length (mjoin (turns <$> back_workers b)) ≤
    2 * length (mjoin (working_on (back_workers b))) + length (back_workers b))%nat by lia.
  induction (back_workers b) as [|st l IH]; [done|]. unfold working_on in *.
  rewrite !fmap_cons, !mjoin_cons, !length_app. destruct st; simpl; lia.
Qed.

Lemma exited_open b evs : back_inv b evs → all_exited b → open_tasks b = [].
Proof.
  intros [H1 H2 H3 H4 H5 Hlen] Hx. unfold open_tasks, all_exited in *.
  assert (taskChan b = []) as ->.
  { apply H4. destruct (back_workers b) as [|st l]; [simpl in Hlen; lia|].
    apply Forall_cons in Hx as [-> _]. left. }
  rewrite app_nil_r. clear -Hx. induction Hx as [|st l -> Hl IH]; [done|]. exact IH.
Qed.

End Invariant.

Lemma new_back_inv proto n :
  back_inv (if bool_decide (proto = "udp") then UDPProtocol else TCPProtocol) (NewBackSourcer proto n) [].
Proof.
  assert (open_tasks (NewBackSourcer proto n) = []) as Ho.
  { unfold open_tasks. simpl. rewrite app_nil_r.
    generalize (worker_count n backWorkerCount) as k. induction k as [|k IH]; [done|]. apply IH. }
  split; rewrite ?Ho; simpl; try done.
  - by intros [? _]%elem_of_replicate.
  - rewrite length_replicate. unfold worker_count, backWorkerCount. case_bool_decide; lia.
Qed.

(** C20: every task of the back-sourcer is carried out, and [Close] ends.  Tasks
    whose reply path has at least three hops are submitted before [Close], in
    any interleaving with the workers; the workers go on in any order, and
    whatever the origins answer at each exchange, nothing panics.  After any
    such run, in every continuation that gives each worker as many turns as two
    for each open task and one for each worker, all workers have exited, so
    that [Close] returns; and every submitted task has been carried out exactly
    once, giving the message that [doOriginRequest] builds over the protocol of
    the back-sourcer. *)
Theorem backsourcer_answers_all proto n before after :
  Forall (λ op, match op with BSubmit t => task_ok t | BClose => False | _ => True end) before →
  Forall back_internal after →
  ∃ b evs, back_run (NewBackSourcer proto n) (before ++ BClose :: after) = Ret (b, evs) ∧
    ∀ rounds, Forall (back_round (length (back_workers b))) rounds →
      (2 * length (open_tasks b) + length (back_workers b) ≤ length rounds)%nat →
      ∃ b' evs', back_run b (mjoin rounds) = Ret (b', evs') ∧ all_exited b' ∧
        let all := evs ++ evs' in
        a_task <$> answers all ≡ₚ submitted all ∧
        Forall (λ a, doOriginRequest (if bool_decide (proto = "udp") then UDP_DoRequest (a_socket a)
                                      else TCP_DoRequest (a_socket a)) (a_task a) = Ret (a_msg a)) (answers all).
Proof.
  intros Hbefore Hafter. set (pr := if bool_decide (proto = "udp") then UDPProtocol else TCPProtocol).
  destruct (run_good pr before _ [] false (new_back_inv proto n)) as (b1 & e1 & E1 & I1 & C1); [done| |].
  { eapply Forall_impl; [exact Hbefore|]. by intros []. }
  destruct (close_good pr b1 e1 I1 C1) as (b2 & e2 & E2 & I2 & C2).
  destruct (run_good pr after b2 _ true I2 C2) as (b3 & e3 & E3 & I3 & C3).
  { eapply Forall_impl; [exact Hafter|]. by intros []. }
  exists b3, (e1 ++ e2 ++ e3). split.
  { rewrite back_run_app, E1. cbn [go_bind back_run back_step]. rewrite E2. cbn [go_bind].
    by rewrite E3. }
  intros rounds Hr Hn. pose proof (work_left_open b3).
  destruct (rounds_end pr rounds b3 _ I3 C3 Hr) as (b4 & e4 & E4 & I4 & Hx); [lia|].
  exists b4, e4. do 2 (split; [done|]). cbv zeta. simpl in I4. rewrite <-!app_assoc in I4.
  rewrite <-!app_assoc. split.
  - by rewrite (bi_tasks _ _ _ I4), (exited_open _ _ _ I4 Hx), app_nil_r.
  - eapply Forall_impl; [exact (bi_msgs _ _ _ I4)|]. intros a Ha. unfold pr in Ha.
    by destruct (bool_decide (proto = "udp")).
Qed.

Definition sample_back_task (uid : Z) : BackSourceTask :=
  {| bt_HopIP := [167772161; 167772162; 167772163; 0]; bt_Port := 80; bt_UserID := uid;
     OriginAddr := "10.0.0.3:80"; ReqData := [1] |}.

Definition sample_socket : socket :=
  {| so_dial := λ _, true; so_write := λ _, true; so_reads := [[111; 107; 10]] |}.

(** An origin that cannot be reached. *)
Definition dead_socket : socket := {| so_dial := λ _, false; so_write := λ _, false; so_reads := [] |}.

Definition sample_round : list back_op :=
  [BFinish 1 dead_socket; BTake 0; BFinish 0 dead_socket; BTake 1].

Lemma backsourcer_answers_all_witness : ∃ b evs b' evs',
  back_run (NewBackSourcer "tcp" 2)
    ([BSubmit (sample_back_task 1); BTake 0; BSubmit (sample_back_task 2)] ++ BClose :: [BFinish 0 sample_socket])
    = Ret (b, evs) ∧
  back_run b (mjoin (replicate 10 sample_round)) = Ret (b', evs') ∧ all_exited b' ∧
  a_task <$> answers (evs ++ evs') ≡ₚ submitted (evs ++ evs').
Proof.
  destruct (backsourcer_answers_all "tcp" 2
    [BSubmit (sample_back_task 1); BTake 0; BSubmit (sample_back_task 2)] [BFinish 0 sample_socket])
    as (b & evs & E & Hrounds).
  - repeat constructor.
  - repeat constructor.
  - assert (length (back_workers b) = 2%nat ∧ length (open_tasks b) = 1%nat) as [Hw Ho].
    { vm_compute in E. injection E as <- _. split; reflexivity. }
    rewrite Hw, Ho in Hrounds. destruct (Hrounds (replicate 10 sample_round)) as (b' & evs' & E' & Hx & Hp & _).
    + apply Forall_replicate. split; [by repeat constructor|].
      intros [|[|i]] Hi; [..|lia]; unfold sample_round; (split; [|exists dead_socket]); repeat first [left | right].
    + rewrite length_replicate. lia.
    + exists b, evs, b', evs'. split; [exact E|]. split; [exact E'|]. split; [exact Hx|exact Hp].
Defined.
