(* ===== verification/KeepAlive.v ===== *)
(** * Keep-alive connections

    [handleConnectionKeepAlive] of [server/tcp-server.go]: the requests of one
    client connection, one after the other, over the parts of [Server] and the
    disaggregator.  What the surroundings contribute to a turn (times, the
    answer of the control plane, the response that arrives) is an argument. *)
From S2P Require Import Prelude GoStrings Records Net Packet Tunnel Aggregator Batching Proxy Disagg Server.
Local Open Scope Z_scope.
Local Open Scope go_scope.

(** What happens around one turn: the kernel's round trip time, the time of
    the look-up, the control plane, the response if one arrives in time, and
    the time at the end. *)
Record turn_env := {
  te_rtt : Z;
  te_now : Z;
  te_post : http_post;
  te_reply : option (list Z);
  te_end : Z;
}.

(** The shared state a connection works on; [ka_refreshing] are the refreshes
    it has started in the background. *)
Record ka_state := {
  ka_routes : route_cache;
  ka_access : gmap string Z;
  ka_seq : Z;
  ka_dis : Disaggregator;
  ka_refreshing : list Z;
}.

(** A request that was put into the aggregator, and what was written back. *)
Record served := { sv_msg : aggregatorMsg; sv_reply : option (list Z) }.

Inductive ka_exit := ReadFailed | NoRoute | KeepAliveTimeout.

Section KeepAlive.
Context `{IP6 : Ip6Parser} `{PJ : ProxyJson} (cfg : proxy_config).
Context (clientIP : string) (port_ : Z).

(** The route of a turn: a miss asks the control plane and stores its answer,
    a stale entry is used and refreshed in the background. *)
Definition ka_route (e : turn_env) (st : ka_state) : RoutingInfo * ka_state :=
  let access := (log_access (te_rtt e) clientIP (te_now e) (ka_access st)).2 in
  let upd routes refreshing :=
    {| ka_routes := routes; ka_access := access; ka_seq := ka_seq st; ka_dis := ka_dis st;
       ka_refreshing := refreshing |} in
  match lookup_route (ka_routes st) port_ (te_now e) with
  | RouteMiss =>
      let r := GetRoutingFromControlPlane cfg (te_post e) port_ in
      (r, upd (store_route port_ r (te_now e) (ka_routes st)) (ka_refreshing st))
  | RouteStale r => (r, upd (ka_routes st) (port_ :: ka_refreshing st))
  | RouteFresh r => (r, upd (ka_routes st) (ka_refreshing st))
  end.

(** The wait for the response: [Deliver] for this id, or the timeout. *)
Definition ka_wait (reqID : Z) (ch : nat) (reply : option (list Z)) (d : Disaggregator)
    : go (option (list Z) * Disaggregator) :=
  match reply with
  | None => Ret (None, d)
  | Some v =>
      match Deliver reqID v d with
      | None => Ret (None, d)
      | Some r =>
          let! d := r in
          Ret (match chan_recv ch d with Some (v, d) => (v, d) | None => (None, d) end)
      end
  end.

Definition set_ka (seq : Z) (d : Disaggregator) (st : ka_state) : ka_state :=
  {| ka_routes := ka_routes st; ka_access := ka_access st; ka_seq := seq; ka_dis := d;
     ka_refreshing := ka_refreshing st |}.

(** One request, from the data to the cleanup; [None] when there is no path. *)
Definition ka_turn (reqID : Z) (data : list Z) (e : turn_env) (st : ka_state)
    : go (option served * ka_state) :=
  let '(routeInfo, st) := ka_route e st in
  let! d := tcp_dispatch routeInfo reqID data in
  match d with
  | Send msg =>
      let '(ch, dis) := Register reqID (ka_dis st) in
      let! (reply, dis) := ka_wait reqID ch (te_reply e) dis in
      let! dis := cleanup reqID ch dis in
      Ret (Some {| sv_msg := msg; sv_reply := reply |}, set_ka (ka_seq st) dis st)
  | _ => Ret (None, st)
  end.

(** The loop; without a further [turn_env] the connection waits for data. *)
Fixpoint ka_loop (envs : list turn_env) (connDeadline : Z) (chunks : list (list Z)) (reqID : Z)
    (st : ka_state) : go (list served * option ka_exit * ka_state) :=
  match envs with
  | [] => Ret ([], None, st)
  | e :: envs =>
      match ReadBytes [] chunks with
      | None => Ret ([], Some ReadFailed, st)
      | Some (data, _, rest) =>
          let! (r, st) := ka_turn reqID data e st in
          match r with
          | None => Ret ([], Some NoRoute, st)
          | Some sv =>
              let '(reqID, seq) := GenShortReqID clientIP (ka_seq st) in
              let st := set_ka seq (ka_dis st) st in
              if bool_decide (connDeadline < te_end e) then Ret ([sv], Some KeepAliveTimeout, st)
              else
                let! r := ka_loop envs connDeadline rest reqID st in
                let '(out, ex, st) := r in Ret (sv :: out, ex, st)
          end
      end
  end.

Definition handleConnectionKeepAlive (connStart keepAliveTime : Z) (envs : list turn_env)
    (chunks : list (list Z)) (st : ka_state) : go (list served * option ka_exit * ka_state) :=
  let '(reqID, seq) := GenShortReqID clientIP (ka_seq st) in
  ka_loop envs (connStart + keepAliveTime) chunks reqID (set_ka seq (ka_dis st) st).
End KeepAlive.

Section Serves.
Context `{IP6 : Ip6Parser} `{PJ : ProxyJson} (cfg : proxy_config).
Context (clientIP : string) (port_ : Z).

(** A route with a path the handler can use. *)
Definition usable (r : RoutingInfo) : Prop :=
  ∃ path, choose_path (Hops <$> Routing_ r) = Some path ∧ (2 ≤ length path)%nat.

Definition usable_cache (m : route_cache) : Prop := ∀ ri, m !! port_ = Some ri → usable (info ri).

Lemma usable_dispatch r reqID data_ : usable r →
  ∃ msg, tcp_dispatch r reqID data_ = Ret (Send msg) ∧ userID msg = reqID ∧ data msg = data_.
Proof.
  intros (path & Hc & Hl). unfold tcp_dispatch. rewrite Hc. unfold client_message, index.
  destruct path as [|a [|b l]]; simpl in *; [lia..|]. destruct (strip_hops _). cbn [go_bind]. eauto.
Qed.

Lemma ka_route_ok e st : usable_cache (ka_routes st) →
  usable (GetRoutingFromControlPlane cfg (te_post e) port_) →
  let '(r, st') := ka_route cfg clientIP port_ e st in
  usable r ∧ usable_cache (ka_routes st') ∧ ka_dis st' = ka_dis st ∧ ka_seq st' = ka_seq st.
Proof.
  intros Hm Hp. unfold ka_route, lookup_route. destruct (ka_routes st !! port_) as [ri|] eqn:Hr.
  - case_bool_decide; (split; [by apply Hm|done]).
  - split; [done|]. split; [|done]. intros ri Hri. simpl in Hri. unfold store_route in Hri.
    rewrite lookup_insert_eq in Hri. by injection Hri as <-.
Qed.

(** The response for the id reaches the turn that waits for it, and the
    registration is gone afterwards. *)
Lemma exchange_ok reqID reply d : let '(ch, d1) := Register reqID d in
  ∃ d2 d3, ka_wait reqID ch reply d1 = Ret (reply, d2) ∧ cleanup reqID ch d2 = Ret d3 ∧
    waiters d3 = delete reqID (waiters d).
Proof.
  simpl. destruct reply as [v|]; unfold ka_wait, Deliver, deliver_lookup, chan_send, chan_recv, cleanup; simpl.
  - rewrite !lookup_insert_eq. simpl. rewrite !lookup_insert_eq. simpl.
    do 2 eexists. split; [done|]. simpl. rewrite lookup_insert_eq. simpl. split; [done|].
    simpl. apply delete_insert_eq.
  - do 2 eexists. split; [done|]. simpl. rewrite lookup_insert_eq. simpl. split; [done|].
    simpl. apply delete_insert_eq.
Qed.

Lemma ka_turn_ok reqID data_ e st : usable_cache (ka_routes st) →
  usable (GetRoutingFromControlPlane cfg (te_post e) port_) →
  ∃ msg st', ka_turn cfg clientIP port_ reqID data_ e st =
      Ret (Some {| sv_msg := msg; sv_reply := te_reply e |}, st') ∧
    userID msg = reqID ∧ data msg = data_ ∧ usable_cache (ka_routes st') ∧ ka_seq st' = ka_seq st ∧
    waiters (ka_dis st') = delete reqID (waiters (ka_dis st)).
Proof.
  intros Hm Hp. unfold ka_turn. pose proof (ka_route_ok e st Hm Hp) as Hr.
  destruct (ka_route cfg clientIP port_ e st) as [r st1]. destruct Hr as (Hu & Hm1 & Hd & Hs).
  destruct (usable_dispatch r reqID data_ Hu) as (msg & -> & H1 & H2). cbn [go_bind].
  pose proof (exchange_ok reqID (te_reply e) (ka_dis st1)) as Hx.
  destruct (Register reqID (ka_dis st1)) as [ch d1]. destruct Hx as (d2 & d3 & -> & E3 & Hw).
  cbn [go_bind]. rewrite E3. cbn [go_bind]. do 2 eexists. split; [done|]. simpl. by rewrite Hw, Hd.
Qed.

(** What a connection serves: the requests in order, each under its own id,
    each with its own response. *)
Record served_all (ids : list Z) (reqs : list arrival) (envs : list turn_env) (out : list served) : Prop := {
  sa_data : (data ∘ sv_msg) <$> out = arrival_line <$> reqs;
  sa_ids : (userID ∘ sv_msg) <$> out = ids;
  sa_reply : sv_reply <$> out = te_reply <$> envs;
}.

Lemma ka_loop_ok reqs envs deadline_ rest reqID st :
  Forall arrival_ok reqs → length envs = length reqs →
  Forall (λ e, te_end e ≤ deadline_ ∧ usable (GetRoutingFromControlPlane cfg (te_post e) port_)) envs →
  usable_cache (ka_routes st) →
  ∃ out st', ka_loop cfg clientIP port_ envs deadline_ (concat (arrival_chunks <$> reqs) ++ rest) reqID st =
      Ret (out, None, st') ∧ usable_cache (ka_routes st') ∧
    let ids := take (length reqs) (reqID :: gen_ids (length reqs) clientIP (ka_seq st)) in
    served_all ids reqs envs out ∧
    waiters (ka_dis st') = foldl (λ m id, delete id m) (waiters (ka_dis st)) ids.
Proof.
  intros Hreqs. revert envs reqID st.
  induction Hreqs as [|a reqs [Ha1 Ha2] Hreqs IH]; intros envs reqID st Hlen Henvs Hm.
  { destruct envs; [|done]. exists [], st. split; [done|]. split; [done|]. by split. }
  destruct envs as [|e envs]; [done|]. apply Forall_cons in Henvs as [[Hend Hpost] Henvs].
  cbn [fmap list_fmap concat]. unfold arrival_chunks at 1. rewrite <-!app_assoc. cbn [app ka_loop].
  rewrite (ReadBytes_line [] a.1 a.2 [] _ Ha1 Ha2).
  destruct (ka_turn_ok reqID ([] ++ concat a.1 ++ a.2 ++ [newline]) e st Hm Hpost)
    as (msg & st1 & -> & H1 & H2 & Hm1 & Hs1 & Hw1). cbn [go_bind].
  destruct (GenShortReqID clientIP (ka_seq st1)) as [id2 seq2] eqn:Eg.
  rewrite bool_decide_eq_false_2 by lia.
  destruct (IH envs id2 (set_ka seq2 (ka_dis st1) st1)) as (out & st2 & -> & Hm2 & [D1 D2 D3] & Hw2);
    [by injection Hlen|done|done|].
  cbn [go_bind]. exists ({| sv_msg := msg; sv_reply := te_reply e |} :: out), st2.
  split; [done|]. split; [done|]. cbn [length take gen_ids]. rewrite <-Hs1, Eg. cbn [fst snd].
  split.
  - split; rewrite !fmap_cons; simpl in *; [by rewrite D1, H2|by rewrite D2, H1|by rewrite D3].
  - rewrite Hw2. simpl. by rewrite Hw1.
Qed.

Lemma gen_ids_take n seq :
  take n ((GenShortReqID clientIP seq).1 :: gen_ids n clientIP (GenShortReqID clientIP seq).2) =
  gen_ids n clientIP seq.
Proof.
  revert seq. induction n as [|n IH]; intros seq; [done|]. cbn [gen_ids take].
  destruct (GenShortReqID clientIP seq) as [id seq'] eqn:E. cbn [fst snd]. f_equal.
  rewrite <-(IH seq'). by destruct (GenShortReqID clientIP seq').
Qed.

(** C13: a keep-alive connection serves its requests in order.  When every
    request arrives on its own and the routes of the port have a path of two
    hops or more, the handler puts each request, complete, under the next id
    of the client into the aggregator, and writes for each the response that
    was delivered for that id, or nothing after a timeout; it does not panic
    or end before its deadline, it leaves no registration of its own in the
    disaggregator, and the ids are distinct. *)
Theorem keepalive_serves start keep reqs envs st :
  Forall arrival_ok reqs → length envs = length reqs → Z.of_nat (length reqs) ≤ 2 ^ 24 →
  Forall (λ e, te_end e ≤ start + keep ∧ usable (GetRoutingFromControlPlane cfg (te_post e) port_)) envs →
  usable_cache (ka_routes st) →
  let ids := gen_ids (length reqs) clientIP (ka_seq st) in
  (∀ id, id ∈ ids → waiters (ka_dis st) !! id = None) →
  ∃ out st', handleConnectionKeepAlive cfg clientIP port_ start keep envs
      (concat (arrival_chunks <$> reqs)) st = Ret (out, None, st') ∧
    served_all ids reqs envs out ∧ NoDup ids ∧ waiters (ka_dis st') = waiters (ka_dis st).
Proof.
  intros Hreqs Hlen Hmax Henvs Hm ids Hfree. unfold handleConnectionKeepAlive.
  destruct (GenShortReqID clientIP (ka_seq st)) as [reqID seq] eqn:Eg.
  destruct (ka_loop_ok reqs envs (start + keep) [] reqID (set_ka seq (ka_dis st) st))
    as (out & st' & E & _ & Hs & Hw); [done|done|done|done|].
  pose proof (gen_ids_take (length reqs) (ka_seq st)) as Ht. rewrite Eg in Ht. cbn [fst snd] in Ht.
  simpl in Hs, Hw. rewrite Ht in Hs, Hw. rewrite app_nil_r in E. exists out, st'.
  split; [done|]. split; [done|]. split; [by apply GenShortReqID_unique|]. rewrite Hw. fold ids.
  clear -Hfree. induction ids as [|id ids IH]; [done|]. simpl.
  rewrite delete_id by (apply Hfree; left). apply IH. intros x Hx. apply Hfree. by right.
Qed.

(** The turn that ends after the deadline is the last one. *)
Lemma late_turn_ends a rest e envs deadline_ reqID st : arrival_ok a → usable_cache (ka_routes st) →
  usable (GetRoutingFromControlPlane cfg (te_post e) port_) → deadline_ < te_end e →
  ∃ sv st', ka_loop cfg clientIP port_ (e :: envs) deadline_ (arrival_chunks a ++ rest) reqID st =
    Ret ([sv], Some KeepAliveTimeout, st') ∧ sv_reply sv = te_reply e.
Proof.
  intros [Ha1 Ha2] Hm Hp Hlate. cbn [ka_loop]. unfold arrival_chunks. rewrite <-app_assoc. cbn [app].
  rewrite (ReadBytes_line [] a.1 a.2 [] _ Ha1 Ha2).
  destruct (ka_turn_ok reqID ([] ++ concat a.1 ++ a.2 ++ [newline]) e st Hm Hp) as (msg & st1 & -> & _).
  cbn [go_bind]. destruct (GenShortReqID clientIP (ka_seq st1)). rewrite bool_decide_eq_true_2 by done.
  do 2 eexists. by split.
Qed.
End Serves.

(** ** An instance *)
#[local] Existing Instance no_ip6.

Definition ka_json : ProxyJson :=
  {| marshal_EndPoints := λ _, None; unmarshal_RoutingResponse := λ _, None |}.
#[local] Existing Instance ka_json.

Definition ka_cfg : proxy_config :=
  {| TestPathMap := {[443 := "10.0.0.1,10.0.0.2,10.0.0.3:80"]}; Public := "10.0.0.1"; ControlHost := "" |}.

Definition ka_start : ka_state :=
  {| ka_routes := ∅; ka_access := ∅; ka_seq := 0; ka_dis := NewDisaggregator; ka_refreshing := [] |}.

Definition ka_env (reply : option (list Z)) (t : Z) : turn_env :=
  {| te_rtt := 1; te_now := t; te_post := λ _ _, None; te_reply := reply; te_end := t + 1 |}.

Lemma ka_cfg_usable post : usable (GetRoutingFromControlPlane ka_cfg post 443).
Proof.
  exists ["10.0.0.1"; "10.0.0.2"; "10.0.0.3:80"]. split; [|simpl; lia].
  vm_compute. reflexivity.
Qed.

(** Two requests, the second unanswered. *)
Lemma keepalive_serves_witness : ∃ out st',
  handleConnectionKeepAlive ka_cfg "192.168.1.7" 443 0 (30 * second)
    [ka_env (Some [111; 107]) 5; ka_env None 9] [[104]; [105; 10]; [98; 121; 101; 10]] ka_start
    = Ret (out, None, st') ∧
  sv_reply <$> out = [Some [111; 107]; None] ∧ waiters (ka_dis st') = ∅.
Proof.
  destruct (keepalive_serves ka_cfg "192.168.1.7" 443 0 (30 * second)
    [([[104]], [105]); ([], [98; 121; 101])] [ka_env (Some [111; 107]) 5; ka_env None 9] ka_start)
    as (out & st' & E & [_ _ Hr] & _ & Hw).
  - repeat constructor; discriminate.
  - reflexivity.
  - simpl. lia.
  - repeat constructor; (apply ka_cfg_usable || (vm_compute; discriminate)).
  - intros ri Hri. simpl in Hri. by rewrite lookup_empty in Hri.
  - intros id _. apply lookup_empty.
  - exists out, st'. split; [exact E|]. split; [exact Hr|exact Hw].
Defined.
