(* ===== verification/ServerRun.v ===== *)
(** * Client connections as concurrent processes

    The handlers of [data-proxy/server] ([handleConnection],
    [handleUDPConnection]) run one goroutine per request and share the route
    cache, the access log, the request counter and the disaggregator.  Each
    goroutine is a sequence of steps, cut where the code takes or releases a
    lock, waits for the network or waits for its response; the steps of all
    goroutines, of the background refreshes and of the deliveries from the
    tunnel interleave freely. *)
From S2P Require Import Prelude GoStrings Records Net Packet Tunnel Aggregator Batching Proxy Disagg Server.
Local Open Scope Z_scope.
Local Open Scope go_scope.

(** Where a request is.  [Waiting] and [Replying] are registered with the
    disaggregator: the first waits in the [select], the second has left it with
    a response or after the timeout and still has to clean up. *)
Inductive phase :=
| Reading
| Looking (data : list Z)
| Fetching (data : list Z)
| DirectTo (originAddr : string) (data : list Z)
| Waiting (ch : nat)
| Replying (ch : nat) (reply : option (list Z))
| Answered (reply : list Z)
| Proxied (replies : list (list Z))
| Closed.

(** A request: its protocol, client, port, id, and the value of the counter
    its id was made from. *)
Record conn := {
  c_udp : bool;
  c_ip : string;
  c_port : Z;
  c_id : Z;
  c_seq : Z;
  c_phase : phase;
}.

(** [p_flying] are the deliveries that have found their channel and are about
    to send.  [p_owner] and [p_log] record, for the statements only, the id each
    channel was made for and what the tunnel has delivered. *)
Record proxy := {
  p_routes : route_cache;
  p_access : gmap string Z;
  p_seq : Z;
  p_dis : Disaggregator;
  p_conns : gmap nat conn;
  p_refreshing : list Z;
  p_flying : list (nat * list Z);
  p_out : list aggregatorMsg;
  p_owner : gmap nat Z;
  p_log : list (Z * list Z);
}.

Definition proxy_init : proxy :=
  {| p_routes := ∅; p_access := ∅; p_seq := 0; p_dis := NewDisaggregator; p_conns := ∅;
     p_refreshing := []; p_flying := []; p_out := []; p_owner := ∅; p_log := [] |}.

Definition set_phase (ph : phase) (k : conn) : conn :=
  {| c_udp := c_udp k; c_ip := c_ip k; c_port := c_port k; c_id := c_id k; c_seq := c_seq k;
     c_phase := ph |}.

Definition set_conn (c : nat) (k : conn) (s : proxy) : proxy :=
  {| p_routes := p_routes s; p_access := p_access s; p_seq := p_seq s; p_dis := p_dis s;
     p_conns := <[c := k]> (p_conns s); p_refreshing := p_refreshing s; p_flying := p_flying s;
     p_out := p_out s; p_owner := p_owner s; p_log := p_log s |}.

Definition set_routes (m : route_cache) (refreshing : list Z) (s : proxy) : proxy :=
  {| p_routes := m; p_access := p_access s; p_seq := p_seq s; p_dis := p_dis s;
     p_conns := p_conns s; p_refreshing := refreshing; p_flying := p_flying s;
     p_out := p_out s; p_owner := p_owner s; p_log := p_log s |}.

Definition set_dis (d : Disaggregator) (flying : list (nat * list Z)) (s : proxy) : proxy :=
  {| p_routes := p_routes s; p_access := p_access s; p_seq := p_seq s; p_dis := d;
     p_conns := p_conns s; p_refreshing := p_refreshing s; p_flying := flying;
     p_out := p_out s; p_owner := p_owner s; p_log := p_log s |}.

Section ServerRun.
Context `{IP6 : Ip6Parser} `{PJ : ProxyJson} (cfg : proxy_config).

(** A new connection takes its id; a UDP packet comes with its data. *)
Definition accept (c : nat) (udp : bool) (ip : string) (port : Z) (data : list Z) (s : proxy) : proxy :=
  let '(id, seq) := GenShortReqID ip (p_seq s) in
  let k := {| c_udp := udp; c_ip := ip; c_port := port; c_id := id; c_seq := seq;
              c_phase := if udp then Looking data else Reading |} in
  {| p_routes := p_routes s; p_access := p_access s; p_seq := seq; p_dis := p_dis s;
     p_conns := <[c := k]> (p_conns s); p_refreshing := p_refreshing s; p_flying := p_flying s;
     p_out := p_out s; p_owner := p_owner s; p_log := p_log s |}.

(** The request has been read: the access log, then the look-up. *)
Definition read_done (c : nat) (k : conn) (data : list Z) (tcpRTT now : Z) (s : proxy) : proxy :=
  {| p_routes := p_routes s; p_access := (log_access tcpRTT (c_ip k) now (p_access s)).2;
     p_seq := p_seq s; p_dis := p_dis s;
     p_conns := <[c := set_phase (Looking data) k]> (p_conns s); p_refreshing := p_refreshing s;
     p_flying := p_flying s; p_out := p_out s; p_owner := p_owner s; p_log := p_log s |}.

(** From the route to the wait: no path, a direct exchange, or [Register] and
    [AddToBatch]. *)
Definition dispatch_conn (c : nat) (k : conn) (r : RoutingInfo) (data : list Z) (s : proxy) : go proxy :=
  let! d := (if c_udp k then udp_dispatch else tcp_dispatch) r (c_id k) data in
  match d with
  | NoPath => Ret (set_conn c (set_phase Closed k) s)
  | Direct originAddr => Ret (set_conn c (set_phase (DirectTo originAddr data) k) s)
  | Send msg =>
      let '(ch, dis) := Register (c_id k) (p_dis s) in
      Ret {| p_routes := p_routes s; p_access := p_access s; p_seq := p_seq s; p_dis := dis;
             p_conns := <[c := set_phase (Waiting ch) k]> (p_conns s);
             p_refreshing := p_refreshing s; p_flying := p_flying s; p_out := p_out s ++ [msg];
             p_owner := <[ch := c_id k]> (p_owner s); p_log := p_log s |}
  end.

(** The tunnel has a response for [userID]: the look-up of [Deliver]. *)
Definition begin_delivery (userID : Z) (ch : nat) (data : list Z) (s : proxy) : proxy :=
  {| p_routes := p_routes s; p_access := p_access s; p_seq := p_seq s; p_dis := p_dis s;
     p_conns := p_conns s; p_refreshing := p_refreshing s; p_flying := p_flying s ++ [(ch, data)];
     p_out := p_out s; p_owner := p_owner s; p_log := p_log s ++ [(userID, data)] |}.

(** The deferred cleanup. *)
Definition finish (c : nat) (k : conn) (ch : nat) (reply : option (list Z)) (s : proxy) : go proxy :=
  let! d := cleanup (c_id k) ch (p_dis s) in
  Ret (set_dis d (p_flying s)
    (set_conn c (set_phase (from_option Answered Closed reply) k) s)).

Inductive proxy_step : proxy → go proxy → Prop :=
| st_accept s c udp ip port data :
    p_conns s !! c = None →
    proxy_step s (Ret (accept c udp ip port data s))
| st_read_fail s c k :
    p_conns s !! c = Some k → c_phase k = Reading →
    proxy_step s (Ret (set_conn c (set_phase Closed k) s))
| st_read s c k data tcpRTT now :
    p_conns s !! c = Some k → c_phase k = Reading →
    proxy_step s (Ret (read_done c k data tcpRTT now s))
| st_miss s c k data now :
    p_conns s !! c = Some k → c_phase k = Looking data →
    lookup_route (p_routes s) (c_port k) now = RouteMiss →
    proxy_step s (Ret (set_conn c (set_phase (Fetching data) k) s))
| st_fresh s c k data now r :
    p_conns s !! c = Some k → c_phase k = Looking data →
    lookup_route (p_routes s) (c_port k) now = RouteFresh r →
    proxy_step s (dispatch_conn c k r data s)
| st_stale s c k data now r :
    p_conns s !! c = Some k → c_phase k = Looking data →
    lookup_route (p_routes s) (c_port k) now = RouteStale r →
    proxy_step s (dispatch_conn c k r data
      (set_routes (p_routes s) (c_port k :: p_refreshing s) s))
| st_fetched s c k data now post :
    p_conns s !! c = Some k → c_phase k = Fetching data →
    let r := GetRoutingFromControlPlane cfg post (c_port k) in
    proxy_step s (dispatch_conn c k r data
      (set_routes (store_route (c_port k) r now (p_routes s)) (p_refreshing s) s))
| st_refreshed s port ps1 ps2 now post :
    p_refreshing s = ps1 ++ port :: ps2 →
    proxy_step s (Ret (set_routes
      (store_route port (GetRoutingFromControlPlane cfg post port) now (p_routes s)) (ps1 ++ ps2) s))
| st_deliver s userID ch data :
    deliver_lookup userID (p_dis s) = Some ch →
    proxy_step s (Ret (begin_delivery userID ch data s))
| st_send s f1 ch data f2 r :
    p_flying s = f1 ++ (ch, data) :: f2 → chan_send ch data (p_dis s) = Some r →
    proxy_step s (let! d := r in Ret (set_dis d (f1 ++ f2) s))
| st_receive s c k ch v d :
    p_conns s !! c = Some k → c_phase k = Waiting ch → chan_recv ch (p_dis s) = Some (v, d) →
    proxy_step s (Ret (set_dis d (p_flying s) (set_conn c (set_phase (Replying ch v) k) s)))
| st_timeout s c k ch :
    p_conns s !! c = Some k → c_phase k = Waiting ch →
    proxy_step s (Ret (set_conn c (set_phase (Replying ch None) k) s))
| st_cleanup s c k ch reply :
    p_conns s !! c = Some k → c_phase k = Replying ch reply →
    proxy_step s (finish c k ch reply s)
| st_direct s c k originAddr data so toClient :
    p_conns s !! c = Some k → c_phase k = DirectTo originAddr data →
    proxy_step s (Ret (set_conn c
      (set_phase (Proxied (DirectOriginProxy so toClient originAddr data).2) k) s)).

(** ** The window of request ids

    A request is live until it has cleaned up.  The states of interest are
    those where every live request is among the last 2^24 and the 64-bit
    counter has not wrapped. *)
Definition live (k : conn) : bool :=
  match c_phase k with Answered _ | Proxied _ | Closed => false | _ => true end.

Definition windowed (s : proxy) : Prop :=
  p_seq s < 2 ^ 64 - 1 ∧
  ∀ c k, p_conns s !! c = Some k → live k = true → p_seq s - c_seq k < 2 ^ 24.

Definition proxy_run : relation proxy := λ s s', proxy_step s (Ret s') ∧ windowed s'.

Definition registered (k : conn) : option nat :=
  match c_phase k with Waiting ch => Some ch | Replying ch _ => Some ch | _ => None end.

Definition replied (k : conn) : option (list Z) :=
  match c_phase k with Replying _ r => r | Answered v => Some v | _ => None end.

(** The counter and the ids made from it. *)
Record seq_inv (s : proxy) : Prop := {
  sq_range : 0 ≤ p_seq s;
  sq_conn c k : p_conns s !! c = Some k →
    0 < c_seq k ≤ p_seq s ∧ Z.land (c_id k) (Z.ones 24) = c_seq k `mod` 2 ^ 24;
  sq_inj c1 c2 k1 k2 : p_conns s !! c1 = Some k1 → p_conns s !! c2 = Some k2 →
    c_seq k1 = c_seq k2 → c1 = c2;
}.

Record dis_inv (s : proxy) : Prop := {
  dv_waiters u ch : waiters (p_dis s) !! u = Some ch ↔
    ∃ c k, p_conns s !! c = Some k ∧ c_id k = u ∧ registered k = Some ch;
  dv_owned c k ch : p_conns s !! c = Some k → registered k = Some ch →
    p_owner s !! ch = Some (c_id k) ∧
    ∃ x, chans (p_dis s) !! ch = Some x ∧ ch_closed x = false;
  dv_chan_inj c1 c2 k1 k2 ch : p_conns s !! c1 = Some k1 → p_conns s !! c2 = Some k2 →
    registered k1 = Some ch → registered k2 = Some ch → c1 = c2;
  dv_chans ch x : chans (p_dis s) !! ch = Some x →
    (ch < next_chan (p_dis s))%nat ∧
    (ch_closed x = true ∨ ∃ c k, p_conns s !! c = Some k ∧ registered k = Some ch) ∧
    ∃ u, p_owner s !! ch = Some u ∧ ∀ d, d ∈ ch_buf x → (u, d) ∈ p_log s;
  dv_flying ch d : (ch, d) ∈ p_flying s →
    (ch < next_chan (p_dis s))%nat ∧ ∃ u, p_owner s !! ch = Some u ∧ (u, d) ∈ p_log s;
  dv_replied c k v : p_conns s !! c = Some k → replied k = Some v → (c_id k, v) ∈ p_log s;
}.

Definition cache_inv (s : proxy) : Prop :=
  ∀ port ri, p_routes s !! port = Some ri → ∃ post, info ri = GetRoutingFromControlPlane cfg post port.

Record proxy_inv (s : proxy) : Prop := {
  pi_seq : seq_inv s;
  pi_dis : dis_inv s;
  pi_cache : cache_inv s;
}.

(** ** Request ids of live requests are distinct *)
Lemma windowed_ids s c1 c2 k1 k2 : seq_inv s → windowed s →
  p_conns s !! c1 = Some k1 → p_conns s !! c2 = Some k2 → live k1 = true → live k2 = true →
  c_id k1 = c_id k2 → c1 = c2.
Proof.
  intros Hs [_ Hw] H1 H2 L1 L2 E. eapply (sq_inj s Hs); [done..|].
  destruct (sq_conn s Hs c1 k1 H1) as [R1 B1], (sq_conn s Hs c2 k2 H2) as [R2 B2].
  specialize (Hw c1 k1 H1 L1) as W1. specialize (Hw c2 k2 H2 L2) as W2.
  rewrite E, B2 in B1. Z.div_mod_to_equations. lia.
Qed.

(** ** Preservation: the counter *)
Lemma seq_same s s' c k k' : seq_inv s → p_seq s' = p_seq s → p_conns s !! c = Some k →
  p_conns s' = <[c := k']> (p_conns s) → c_id k' = c_id k → c_seq k' = c_seq k → seq_inv s'.
Proof.
  intros [R C I] Eq Hc Ec Ei Es. split; rewrite ?Eq, ?Ec; [done| |].
  - intros c' k0 [[<- <-]|[_ H]]%lookup_insert_Some; [rewrite Ei, Es|]; eauto.
  - intros c1 c2 k1 k2 [[<- <-]|[N1 H1]]%lookup_insert_Some [[<- <-]|[N2 H2]]%lookup_insert_Some E;
      [done|..]; rewrite ?Es in E; eauto.
Qed.

Lemma seq_ext s s' : seq_inv s → p_seq s' = p_seq s → p_conns s' = p_conns s → seq_inv s'.
Proof. intros [R C I] E1 E2. split; rewrite ?E1, ?E2; eauto. Qed.

Lemma seq_accept s c udp ip port data : seq_inv s → windowed s → p_conns s !! c = None →
  seq_inv (accept c udp ip port data s).
Proof.
  intros [R C I] [Hw _] Hc. unfold accept, GenShortReqID.
  assert (uint64 (p_seq s + 1) = p_seq s + 1) as -> by (apply Z.mod_small; lia).
  split; simpl; [lia|..].
  - intros c' k [[<- <-]|[_ H]]%lookup_insert_Some; simpl.
    + split; [lia|]. apply id_split.
    + destruct (C c' k H) as [? ?]. split; [lia|done].
  - intros c1 c2 k1 k2 [[<- <-]|[N1 H1]]%lookup_insert_Some [[<- <-]|[N2 H2]]%lookup_insert_Some E;
      simpl in *; [done|..|by eauto].
    + destruct (C _ _ H2). lia.
    + destruct (C _ _ H1). lia.
Qed.

(** ** Preservation: registrations and channels *)
Lemma dis_ext s s' : dis_inv s → p_dis s' = p_dis s → p_conns s' = p_conns s →
  p_flying s' = p_flying s → p_owner s' = p_owner s → p_log s' = p_log s → dis_inv s'.
Proof.
  intros [A B C D E F] E1 E2 E3 E4 E5.
  split; rewrite ?E1, ?E2, ?E3, ?E4, ?E5; assumption.
Qed.

(** A change of phase that keeps the registration. *)
Lemma dis_conn s c k' : dis_inv s →
  (∀ k, p_conns s !! c = Some k → c_id k = c_id k') →
  (p_conns s !! c ≫= registered) = registered k' →
  (∀ v, replied k' = Some v → (c_id k', v) ∈ p_log s) →
  dis_inv (set_conn c k' s).
Proof.
  intros [A B C D E F] Hid Hreg Hrep.
  assert (∀ ch, registered k' = Some ch →
    ∃ k, p_conns s !! c = Some k ∧ c_id k = c_id k' ∧ registered k = Some ch) as Hold.
  { intros ch Hch. rewrite Hch in Hreg. destruct (p_conns s !! c) as [k|] eqn:Hk; [|done]. eauto. }
  assert (∀ k ch, p_conns s !! c = Some k → registered k = Some ch → registered k' = Some ch) as Hnew.
  { intros k ch Hk Hr. by rewrite <-Hreg, Hk. }
  split; simpl.
  - intros u ch. rewrite A. split.
    + intros (c' & k & Hc & Hu & Hr). destruct (decide (c' = c)) as [->|Hne].
      * exists c, k'. rewrite lookup_insert_eq. rewrite <-(Hid k Hc). eauto.
      * exists c', k. by rewrite lookup_insert_ne by done.
    + intros (c' & k & [[<- <-]|[Hne Hc]]%lookup_insert_Some & Hu & Hr).
      * destruct (Hold ch Hr) as (k0 & Hk0 & Hi & Hr0). exists c, k0. by rewrite Hi.
      * eauto.
  - intros c' k ch [[<- <-]|[Hne Hc]]%lookup_insert_Some Hr; [|by eauto].
    destruct (Hold ch Hr) as (k0 & Hk0 & <- & Hr0). eauto.
  - intros c1 c2 k1 k2 ch [[<- <-]|[N1 H1]]%lookup_insert_Some [[<- <-]|[N2 H2]]%lookup_insert_Some R1 R2;
      [done|..|by eauto].
    + destruct (Hold ch R1) as (k0 & Hk0 & _ & Hr0). eauto.
    + destruct (Hold ch R2) as (k0 & Hk0 & _ & Hr0). eauto.
  - intros ch x Hx. destruct (D ch x Hx) as (H1 & [H2|(c' & k & Hc & Hr)] & H3); [by auto|].
    split; [done|]. split; [|done]. right. destruct (decide (c' = c)) as [->|Hne].
    + exists c, k'. rewrite lookup_insert_eq. eauto.
    + exists c', k. by rewrite lookup_insert_ne by done.
  - exact E.
  - intros c' k v [[<- <-]|[Hne Hc]]%lookup_insert_Some; eauto.
Qed.

Lemma registered_waiting ch k : registered (set_phase (Waiting ch) k) = Some ch.
Proof. done. Qed.

Lemma dis_register s c k msg r data s' : dis_inv s → p_conns s !! c = Some k →
  registered k = None → waiters (p_dis s) !! c_id k = None →
  (if c_udp k then udp_dispatch else tcp_dispatch) r (c_id k) data = Ret (Send msg) →
  dispatch_conn c k r data s = Ret s' → dis_inv s'.
Proof.
  intros [A B C D E F] Hc Hr Hw Hd. unfold dispatch_conn. rewrite Hd. simpl. intros [= <-].
  set (ch := next_chan (p_dis s)).
  assert (∀ ch', (ch' < ch)%nat → ch ≠ ch') as Hne by lia.
  assert (∀ c' k' ch', p_conns s !! c' = Some k' → registered k' = Some ch' → c ≠ c' ∧ (ch' < ch)%nat) as Hother.
  { intros c' k' ch' Hc' Hr'. split; [intros ->; simplify_eq|].
    destruct (B c' k' ch' Hc' Hr') as (_ & x & Hx & _). by apply (D _ _ Hx). }
  split; simpl.
  - intros u ch'. rewrite lookup_insert_Some, A. split.
    + intros [[<- <-]|[Hu (c' & k' & Hc' & Hi & Hr')]].
      * eexists c, _. by rewrite lookup_insert_eq.
      * destruct (Hother c' k' ch' Hc' Hr') as [? _]. exists c', k'. by rewrite lookup_insert_ne by done.
    + intros (c' & k' & [[<- <-]|[Hc1 Hc']]%lookup_insert_Some & Hi & Hr'); rewrite ?registered_waiting in *; simpl in *; simplify_eq; [by left|].
      right. split; [|by eauto]. intros Hu. assert (waiters (p_dis s) !! c_id k' = Some ch') as Hx.
      { apply A. eauto. } congruence.
  - intros c' k' ch' [[<- <-]|[Hc1 Hc']]%lookup_insert_Some Hr'; rewrite ?registered_waiting in *; simpl in *; simplify_eq.
    + rewrite !lookup_insert_eq. eauto.
    + destruct (Hother c' k' ch' Hc' Hr') as [_ Hlt]. rewrite !lookup_insert_ne by auto. eauto.
  - intros c1 c2 k1 k2 ch' [[<- <-]|[N1 H1]]%lookup_insert_Some [[<- <-]|[N2 H2]]%lookup_insert_Some R1 R2;
      rewrite ?registered_waiting in *; simpl in *; simplify_eq; [done|..|by eauto].
    + destruct (Hother _ _ _ H2 R2). lia.
    + destruct (Hother _ _ _ H1 R1). lia.
  - intros ch' x [[<- <-]|[Hn Hx]]%lookup_insert_Some; simpl.
    + split; [lia|]. split; [right; eexists c, _; by rewrite lookup_insert_eq|].
      exists (c_id k). rewrite lookup_insert_eq. split; [done|]. by intros d ?%not_elem_of_nil.
    + destruct (D ch' x Hx) as (H1 & H2 & H3). split; [lia|]. split; [|by rewrite lookup_insert_ne by auto].
      destruct H2 as [?|(c' & k' & Hc' & Hr')]; [by left|]. right.
      destruct (Hother c' k' ch' Hc' Hr') as [? _]. exists c', k'. by rewrite lookup_insert_ne by done.
  - intros ch' d Hf. destruct (E ch' d Hf) as [H1 H2]. split; [lia|]. by rewrite lookup_insert_ne by auto.
  - intros c' k' v [[<- <-]|[Hc1 Hc']]%lookup_insert_Some Hv; simpl in *; [done|eauto].
Qed.

Lemma dis_delivery s u ch data : dis_inv s → deliver_lookup u (p_dis s) = Some ch →
  dis_inv (begin_delivery u ch data s).
Proof.
  intros [A B C D E F] Hu. unfold deliver_lookup in Hu.
  apply A in Hu as (c & k & Hc & <- & Hr). destruct (B c k ch Hc Hr) as (Ho & x & Hx & _).
  split; simpl; [done..| | |].
  - intros ch' x' Hx'. destruct (D ch' x' Hx') as (H1 & H2 & v & Hv & Hl).
    split_and!; [done..|]. exists v. split; [done|]. intros d Hd. apply elem_of_app. left. eauto.
  - intros ch' d [Hf|Hf%list_elem_of_singleton]%elem_of_app; [|injection Hf as -> ->].
    + destruct (E ch' d Hf) as (H1 & v & Hv & Hl). split; [done|]. exists v.
      split; [done|]. apply elem_of_app. by left.
    + split; [by apply (D _ _ Hx)|]. exists (c_id k). split; [done|]. apply elem_of_app. right. by left.
  - intros c' k' v Hc' Hv. apply elem_of_app. left. eauto.
Qed.

(** The buffer of a channel changes; the rest of the disaggregator stays. *)
Lemma dis_buffer s ch x buf flying : dis_inv s → chans (p_dis s) !! ch = Some x →
  (∀ u d, p_owner s !! ch = Some u → d ∈ buf → (u, d) ∈ p_log s) →
  (∀ a, a ∈ flying → a ∈ p_flying s) →
  dis_inv (set_dis (set_chan ch {| ch_buf := buf; ch_closed := ch_closed x |} (p_dis s)) flying s).
Proof.
  intros [A B C D E F] Hx Hbuf Hfl. split; simpl; [done| |done| |by eauto|done].
  - intros c k ch' Hc Hr. destruct (B c k ch' Hc Hr) as (Ho & y & Hy & Hcl). split; [done|].
    destruct (decide (ch' = ch)) as [->|Hne].
    + rewrite lookup_insert_eq. eexists. split; [done|]. simpl. congruence.
    + rewrite lookup_insert_ne by done. eauto.
  - intros ch' y [[<- <-]|[Hne Hy]]%lookup_insert_Some; [|by eauto]. simpl.
    destruct (D ch x Hx) as (H1 & H2 & u & Hu & Hl). split_and!; [done..|]. exists u. eauto.
Qed.

Lemma dis_send s f1 ch data f2 d : dis_inv s → p_flying s = f1 ++ (ch, data) :: f2 →
  chan_send ch data (p_dis s) = Some (Ret d) → dis_inv (set_dis d (f1 ++ f2) s).
Proof.
  intros Hi Hf. unfold chan_send. destruct (chans (p_dis s) !! ch) as [x|] eqn:Hx; [|done].
  destruct (ch_closed x) eqn:Hcl; [done|]. case_bool_decide; [|done]. intros [= <-].
  rewrite <-Hcl. apply dis_buffer; [done..| |].
  - intros u d Hu [Hd| ->%list_elem_of_singleton]%elem_of_app.
    + destruct (dv_chans s Hi ch x Hx) as (_ & _ & u' & Hu' & Hl). simplify_eq. eauto.
    + destruct (dv_flying s Hi ch data) as (_ & u' & Hu' & Hl); [|by simplify_eq].
      rewrite Hf. apply elem_of_app. right. left.
  - intros a. rewrite Hf, !elem_of_app, elem_of_cons. tauto.
Qed.

Lemma dis_receive s c k ch v d : dis_inv s → p_conns s !! c = Some k → c_phase k = Waiting ch →
  chan_recv ch (p_dis s) = Some (v, d) →
  v ≠ None ∧ dis_inv (set_dis d (p_flying s) (set_conn c (set_phase (Replying ch v) k) s)).
Proof.
  intros Hi Hc Hp Hr. assert (registered k = Some ch) as Hreg by (unfold registered; by rewrite Hp).
  destruct (dv_owned s Hi c k ch Hc Hreg) as (Ho & x & Hx & Hcl). unfold chan_recv in Hr.
  rewrite Hx, Hcl in Hr. destruct (ch_buf x) as [|d0 rest] eqn:Hb; [done|]. injection Hr as <- <-.
  split; [done|]. destruct (dv_chans s Hi ch x Hx) as (_ & _ & u & Hu & Hl). simplify_eq.
  assert (dis_inv (set_conn c (set_phase (Replying ch (Some d0)) k) s)) as Hi'.
  { apply dis_conn; [done|by intros; simplify_eq|by rewrite Hc|].
    intros v [= <-]. apply Hl. rewrite Hb. left. }
  rewrite <-Hcl. apply (dis_buffer (set_conn c (set_phase (Replying ch (Some d0)) k) s) ch x rest);
    [done..| |by auto].
  simpl. intros u d Hu' Hd. simplify_eq. apply Hl. rewrite Hb. by right.
Qed.

Lemma dis_cleanup s c k ch reply s' : dis_inv s → p_conns s !! c = Some k →
  c_phase k = Replying ch reply → finish c k ch reply s = Ret s' → dis_inv s'.
Proof.
  intros Hi Hc Hp Hf. assert (registered k = Some ch) as Hreg by (unfold registered; by rewrite Hp).
  destruct (dv_owned s Hi c k ch Hc Hreg) as (Ho & x & Hx & Hcl). unfold finish, cleanup in Hf.
  rewrite Hx, Hcl in Hf. simpl in Hf. injection Hf as <-. destruct Hi as [A B C D E F].
  set (k' := set_phase (from_option Answered Closed reply) k).
  assert (registered k' = None) as Hk' by (unfold k'; by destruct reply).
  assert (∀ c' k0 ch', p_conns s !! c' = Some k0 → registered k0 = Some ch' → c ≠ c' → ch ≠ ch') as Hne.
  { intros c' k0 ch' Hc' Hr' Hn <-. by apply Hn, (C c c' k k0 ch). }
  split; simpl.
  - intros u ch'. rewrite lookup_delete_Some, A. split.
    + intros (Hu & c' & k0 & Hc' & <- & Hr'). exists c', k0. rewrite lookup_insert_ne; [done|].
      intros <-. by simplify_eq.
    + intros (c' & k0 & [[<- <-]|[Hn Hc']]%lookup_insert_Some & <- & Hr'); [by rewrite Hk' in Hr'|].
      split; [|by eauto]. intros Hu. apply (Hne c' k0 ch' Hc' Hr' Hn).
      assert (waiters (p_dis s) !! c_id k = Some ch) as H1 by (apply A; eauto).
      assert (waiters (p_dis s) !! c_id k0 = Some ch') as H2 by (apply A; eauto).
      rewrite Hu in H1. congruence.
  - intros c' k0 ch' [[<- <-]|[Hn Hc']]%lookup_insert_Some Hr'; [by rewrite Hk' in Hr'|].
    rewrite lookup_insert_ne by (by eapply Hne). eauto.
  - intros c1 c2 k1 k2 ch' [[<- <-]|[N1 H1]]%lookup_insert_Some [[<- <-]|[N2 H2]]%lookup_insert_Some R1 R2;
      rewrite ?Hk' in *; try done. eauto.
  - intros ch' y [[<- <-]|[Hn Hy]]%lookup_insert_Some; simpl.
    + destruct (D ch x Hx) as (H1 & _ & H3). eauto.
    + destruct (D ch' y Hy) as (H1 & [?|(c' & k0 & Hc' & Hr')] & H3); [by auto|].
      split_and!; [done| |done]. right. exists c', k0. rewrite lookup_insert_ne; [done|].
      intros <-. by simplify_eq.
  - exact E.
  - intros c' k0 v [[<- <-]|[Hn Hc']]%lookup_insert_Some Hv; [|by eauto].
    apply (F c k v Hc). unfold replied, k' in *. rewrite Hp. by destruct reply.
Qed.

(** ** Preservation: all steps *)
Lemma dispatch_shape c k r data s s' : dispatch_conn c k r data s = Ret s' →
  ∃ ph, p_conns s' = <[c := set_phase ph k]> (p_conns s) ∧ p_seq s' = p_seq s ∧
    p_routes s' = p_routes s.
Proof.
  unfold dispatch_conn. destruct (_ r (c_id k) data) as [d|w]; [|done]. simpl.
  destruct d; simpl; intros [= <-]; eauto.
Qed.

Lemma dispatch_inv c k r data s s' : proxy_inv s → windowed s → p_conns s !! c = Some k →
  live k = true → registered k = None → dispatch_conn c k r data s = Ret s' → proxy_inv s'.
Proof.
  intros [Hseq Hdis Hc] Hw Hk Hl Hr E. destruct (dispatch_shape _ _ _ _ _ _ E) as (ph & E1 & E2 & E3).
  split.
  - by eapply seq_same.
  - destruct ((if c_udp k then udp_dispatch else tcp_dispatch) r (c_id k) data) as [d|w] eqn:Ed.
    2: { unfold dispatch_conn in E. by rewrite Ed in E. }
    destruct d as [|addr|msg].
    3: { eapply dis_register; try done. apply eq_None_not_Some. intros [ch Hch].
         apply (dv_waiters s Hdis) in Hch as (c' & k' & Hc' & Hi & Hr').
         assert (live k' = true) as Hl' by (unfold live, registered in *; by destruct (c_phase k')).
         assert (c = c') as <- by (by eapply windowed_ids). simplify_eq. }
    all: unfold dispatch_conn in E; rewrite Ed in E; injection E as <-;
      apply dis_conn; [done|by intros; simplify_eq|by rewrite Hk|done].
  - unfold cache_inv. rewrite E3. exact Hc.
Qed.

Lemma set_routes_inv s m ps : proxy_inv s →
  (∀ port ri, m !! port = Some ri → ∃ post, info ri = GetRoutingFromControlPlane cfg post port) →
  proxy_inv (set_routes m ps s).
Proof. intros [H1 H2 H3] Hm. split; [by eapply seq_ext|by eapply dis_ext|exact Hm]. Qed.

Lemma store_route_inv s port post now ps : proxy_inv s →
  proxy_inv (set_routes
    (store_route port (GetRoutingFromControlPlane cfg post port) now (p_routes s)) ps s).
Proof.
  intros H. apply set_routes_inv; [done|]. unfold store_route.
  intros port' ri [[<- <-]|[_ Hp]]%lookup_insert_Some; [by eauto|]. by eapply (pi_cache _ H).
Qed.

Lemma phase_inv s c k ph : proxy_inv s → p_conns s !! c = Some k →
  registered (set_phase ph k) = registered k →
  (∀ v, replied (set_phase ph k) = Some v → (c_id k, v) ∈ p_log s) →
  proxy_inv (set_conn c (set_phase ph k) s).
Proof.
  intros [H1 H2 H3] Hc Hr Hv. split.
  - by eapply (seq_same _ _ c k).
  - apply dis_conn; [done|by intros; simplify_eq|by rewrite Hc|done].
  - exact H3.
Qed.

Lemma accept_inv s c udp ip port data : proxy_inv s → windowed s → p_conns s !! c = None →
  proxy_inv (accept c udp ip port data s).
Proof.
  intros [H1 H2 H3] Hw Hc. split; [by apply seq_accept| |exact H3].
  unfold accept. destruct (GenShortReqID ip (p_seq s)) as [id seq].
  match goal with |- context [<[c := ?k]> _] => pose proof (dis_conn s c k H2) as Hd end.
  eapply dis_ext; [apply Hd|done..].
  - intros k. by rewrite Hc.
  - rewrite Hc. by destruct udp.
  - by destruct udp.
Qed.

Lemma proxy_step_inv s s' : proxy_inv s → windowed s → proxy_step s (Ret s') → proxy_inv s'.
Proof.
  intros Hi Hw Hs. remember (Ret s') as g eqn:Eg.
  destruct Hs as [s c udp ip port data Hc|s c k Hc Hp|s c k data rtt now Hc Hp|s c k data now Hc Hp Hl
    |s c k data now r Hc Hp Hl|s c k data now r Hc Hp Hl|s c k data now post Hc Hp r
    |s port ps1 ps2 now post Hps|s u ch data Hu|s f1 ch data f2 r Hf Hch|s c k ch v d Hc Hp Hv
    |s c k ch Hc Hp|s c k ch reply Hc Hp|s c k addr data so toClient Hc Hp].
  - injection Eg as <-. by apply accept_inv.
  - injection Eg as <-. apply phase_inv; [done..|unfold registered; by rewrite Hp|done].
  - injection Eg as <-.
    destruct (phase_inv s c k (Looking data) Hi Hc) as [H1 H2 H3];
      [unfold registered; by rewrite Hp|done|].
    split; [by eapply seq_ext|by eapply dis_ext|exact H3].
  - injection Eg as <-. apply phase_inv; [done..|unfold registered; by rewrite Hp|done].
  - eapply dispatch_inv; try done; unfold live, registered; by rewrite Hp.
  - eapply dispatch_inv; [| | | | |exact Eg];
      [|exact Hw|exact Hc|unfold live, registered; by rewrite Hp..].
    apply set_routes_inv; [done|]. apply (pi_cache _ Hi).
  - eapply dispatch_inv; [| | | | |exact Eg];
      [|exact Hw|exact Hc|unfold live, registered; by rewrite Hp..].
    by apply store_route_inv.
  - injection Eg as <-. by apply store_route_inv.
  - injection Eg as <-. destruct Hi as [H1 H2 H3]. split; [by eapply seq_ext|by apply dis_delivery|exact H3].
  - destruct r as [d|w]; [|done]. injection Eg as <-. destruct Hi as [H1 H2 H3].
    split; [by eapply seq_ext|by eapply dis_send|exact H3].
  - injection Eg as <-. destruct Hi as [H1 H2 H3]. split; [|by apply dis_receive|exact H3].
    eapply (seq_same _ _ c k); done.
  - injection Eg as <-. apply phase_inv; [done..|unfold registered; by rewrite Hp|done].
  - pose proof Eg as Ef. unfold finish in Eg. destruct (cleanup _ _ _) as [d|w]; [|done]. injection Eg as <-.
    destruct Hi as [H1 H2 H3]. split; [|by eapply dis_cleanup|exact H3]. eapply (seq_same _ _ c k); done.
  - injection Eg as <-. apply phase_inv; [done..|unfold registered; by rewrite Hp|done].
Qed.

Lemma proxy_init_inv : proxy_inv proxy_init ∧ windowed proxy_init.
Proof.
  split; [split|].
  - split; simpl; [lia|by intros c k ?%lookup_empty_Some|by intros c1 c2 k1 k2 ?%lookup_empty_Some].
  - split; simpl.
    + intros u ch. split; [by intros ?%lookup_empty_Some|by intros (c & k & ?%lookup_empty_Some & _)].
    + by intros c k ch ?%lookup_empty_Some.
    + by intros c1 c2 k1 k2 ch ?%lookup_empty_Some.
    + by intros ch x ?%lookup_empty_Some.
    + by intros ch d ?%not_elem_of_nil.
    + by intros c k v ?%lookup_empty_Some.
  - unfold cache_inv. simpl. by intros port ri ?%lookup_empty_Some.
  - split; simpl; [lia|]. by intros c k ?%lookup_empty_Some.
Qed.

Lemma proxy_reachable s : rtc proxy_run proxy_init s → proxy_inv s ∧ windowed s.
Proof.
  intros Hr. pose proof proxy_init_inv as H0. revert H0.
  induction Hr as [s|s s1 s2 [Hs Hw] _ IH]; [done|]. intros [Hi Hw0].
  apply IH. split; [by eapply proxy_step_inv|done].
Qed.

(** C2: connections are isolated from each other.  Whatever the interleaving of
    handlers, refreshes and deliveries, as long as a request is finished before
    2^24 others have started: a client is answered only with data that the
    tunnel has delivered for the id of its own request; the disaggregator knows
    exactly the requests that are waiting or about to clean up, so nothing
    leaks; the channel of such a request is open and its own, so a handler
    never finds its channel closed; and every cached route is an answer of
    [GetRoutingFromControlPlane] for its port. *)
Theorem server_isolation s : rtc proxy_run proxy_init s →
  (∀ c k v, p_conns s !! c = Some k → c_phase k = Answered v → (c_id k, v) ∈ p_log s) ∧
  (∀ u ch, waiters (p_dis s) !! u = Some ch ↔
     ∃ c k, p_conns s !! c = Some k ∧ c_id k = u ∧ registered k = Some ch) ∧
  (∀ c k ch, p_conns s !! c = Some k → registered k = Some ch →
     (∃ x, chans (p_dis s) !! ch = Some x ∧ ch_closed x = false) ∧
     ∀ c' k', p_conns s !! c' = Some k' → registered k' = Some ch → c' = c) ∧
  (∀ ch x, chans (p_dis s) !! ch = Some x → ch_closed x = false →
     ∃ c k, p_conns s !! c = Some k ∧ registered k = Some ch) ∧
  (∀ port ri, p_routes s !! port = Some ri →
     ∃ post, info ri = GetRoutingFromControlPlane cfg post port).
Proof.
  intros [[Hs Hd Hc] _]%proxy_reachable. split_and!.
  - intros c k v Hk Hp. apply (dv_replied s Hd c k v Hk). unfold replied. by rewrite Hp.
  - apply (dv_waiters s Hd).
  - intros c k ch Hk Hr. split; [by apply (dv_owned s Hd c k ch)|].
    intros c' k' Hk' Hr'. by eapply (dv_chan_inj s Hd).
  - intros ch x Hx Ho. destruct (dv_chans s Hd ch x Hx) as (_ & [Hcl|?] & _); [congruence|done].
  - exact Hc.
Qed.

(** A route the handlers cannot use.  For UDP: the first path has no hop.  For
    TCP: no path has three hops or more, and the first one has fewer than two. *)
Definition short_route (udp : bool) (r : RoutingInfo) : Prop :=
  if udp then ∃ l : list (list string), Hops <$> Routing_ r = [] :: l
  else ∃ p l, Hops <$> Routing_ r = p :: l ∧ (length p < 2)%nat ∧ Forall (λ q, (length q ≤ 2)%nat) l.

Lemma dispatch_panics (udp : bool) r reqID data :
  panics ((if udp then udp_dispatch else tcp_dispatch) r reqID data) ↔ short_route udp r.
Proof.
  destruct udp; [|apply tcp_dispatch_panics]. rewrite udp_dispatch_panics. unfold short_route.
  destruct (Hops <$> Routing_ r) as [|p l]; simpl; [|split; [intros [= ->]; eauto|by intros (? & [= -> _])]].
  split; [done|by intros (? & ?)].
Qed.

Lemma dispatch_conn_panics c k r data s : panics (dispatch_conn c k r data s) ↔ short_route (c_udp k) r.
Proof.
  rewrite <-(dispatch_panics _ _ (c_id k) data). unfold dispatch_conn, panics.
  destruct ((if c_udp k then udp_dispatch else tcp_dispatch) r (c_id k) data) as [[]|w]; simpl;
    split; intros [e E]; eauto; done.
Qed.

(** The control plane, or the test configuration, can give such a route for the
    port of the request. *)
Definition bad_route (k : conn) : Prop :=
  ∃ post, short_route (c_udp k) (GetRoutingFromControlPlane cfg post (c_port k)).

(** The handler has [data] and is about to use a route. *)
Definition routing_now (k : conn) (data : list Z) : Prop :=
  c_phase k = Looking data ∨ c_phase k = Fetching data.

Lemma cached_bad_route s now r k : cache_inv s →
  lookup_route (p_routes s) (c_port k) now = RouteFresh r ∨
  lookup_route (p_routes s) (c_port k) now = RouteStale r →
  short_route (c_udp k) r → bad_route k.
Proof.
  intros Hc Hl Hp. unfold lookup_route in Hl.
  destruct (p_routes s !! c_port k) as [ri|] eqn:Er; [|by destruct Hl].
  destruct (Hc _ _ Er) as [post E]. exists post. rewrite <-E.
  case_bool_decide; destruct Hl as [Hl|Hl]; by simplify_eq.
Qed.

(** What a request does next when nothing else happens: it fails to read, or
    misses the cache, or is answered from it, or times out. *)
Lemma conn_moves s c k : proxy_inv s → p_conns s !! c = Some k → live k = true →
  ∃ g, proxy_step s g ∧
    match g with
    | Ret s' => p_conns s' !! c ≠ Some k
    | Panic _ => ∃ data, routing_now k data ∧ bad_route k
    end.
Proof.
  intros Hi Hc Hl.
  assert (∀ ph, ph ≠ c_phase k → Some (set_phase ph k) ≠ Some k) as Hne.
  { intros ph Hph [= E]. apply Hph. by rewrite <-E. }
  assert (∀ r data s0, routing_now k data → (short_route (c_udp k) r → bad_route k) →
    match dispatch_conn c k r data s0 with
    | Ret s' => p_conns s' !! c ≠ Some k
    | Panic _ => ∃ data, routing_now k data ∧ bad_route k
    end) as Hdisp.
  { intros r data s0 Hnow Hbad. pose proof (proj1 (dispatch_conn_panics c k r data s0)) as Hpan.
    destruct (dispatch_conn c k r data s0) as [s'|w] eqn:Ed.
    - unfold dispatch_conn in Ed.
      destruct ((if c_udp k then udp_dispatch else tcp_dispatch) r (c_id k) data) as [d|]; [|done].
      destruct d; simpl in Ed; injection Ed as <-; simpl; rewrite lookup_insert_eq; apply Hne;
        by destruct Hnow as [-> | ->].
    - exists data. split; [done|]. apply Hbad, Hpan. by eexists. }
  destruct (c_phase k) as [|data|data|addr data|ch|ch reply|v|v|] eqn:Hp; try (unfold live in Hl; by rewrite Hp in Hl).
  - eexists. split; [by eapply st_read_fail|]. simpl. rewrite lookup_insert_eq. by apply Hne.
  - destruct (lookup_route (p_routes s) (c_port k) 0) eqn:E.
    + eexists. split; [by eapply st_miss|]. simpl. rewrite lookup_insert_eq. by apply Hne.
    + eexists. split; [by eapply st_stale|]. apply Hdisp; [by left|].
      apply (cached_bad_route s 0); [apply (pi_cache _ Hi)|by right].
    + eexists. split; [by eapply st_fresh|]. apply Hdisp; [by left|].
      apply (cached_bad_route s 0); [apply (pi_cache _ Hi)|by left].
  - eexists. split; [eapply (st_fetched s c k data 0 (λ _ _, None)); done|]. apply Hdisp; [by right|].
    intros Hp'. by exists (λ _ _, None).
  - eexists. split; [eapply (st_direct s c k addr data {| so_dial := λ _, false; so_write := λ _, false; so_reads := [] |} (λ _, true)); done|].
    simpl. rewrite lookup_insert_eq. by apply Hne.
  - eexists. split; [by eapply st_timeout|]. simpl. rewrite lookup_insert_eq. by apply Hne.
  - eexists. split; [by eapply st_cleanup|]. unfold finish, cleanup.
    destruct (dv_owned s (pi_dis _ Hi) c k ch Hc) as (_ & x & -> & ->); [unfold registered; by rewrite Hp|].
    simpl. rewrite lookup_insert_eq. apply Hne. by destruct reply.
Qed.

(** C12: what can crash the handling of requests.  A reachable state has a step
    that panics exactly in these cases: a request that is about to use a cached
    route, and the route of its port is one the handlers cannot use; a request
    that is about to use a route it fetches, and the control plane (or the test
    configuration) can give it such a route; a response that has been looked up
    by [Deliver] and is about to be sent to a channel its request has closed
    since.  The steps are those of [proxy_step]: client requests, route
    look-ups and refreshes, and the delivery of responses. *)
Theorem server_crashes s : rtc proxy_run proxy_init s →
  (∃ why, proxy_step s (Panic why)) ↔
  (∃ c k data now r, p_conns s !! c = Some k ∧ c_phase k = Looking data ∧
     (lookup_route (p_routes s) (c_port k) now = RouteFresh r ∨
      lookup_route (p_routes s) (c_port k) now = RouteStale r) ∧ short_route (c_udp k) r) ∨
  (∃ c k data, p_conns s !! c = Some k ∧ c_phase k = Fetching data ∧ bad_route k) ∨
  (∃ ch data x, (ch, data) ∈ p_flying s ∧ chans (p_dis s) !! ch = Some x ∧ ch_closed x = true).
Proof.
  intros [Hi _]%proxy_reachable. split.
  - intros [why Hs]. remember (Panic why) as g eqn:Eg.
    assert (∀ c k r data s0, dispatch_conn c k r data s0 = Panic why → short_route (c_udp k) r) as Hd.
    { intros c k r data s0 E. apply (dispatch_conn_panics c k r data s0). by eexists. }
    destruct Hs as [| | | |s c k data now r Hc Hp Hl|s c k data now r Hc Hp Hl|s c k data now post Hc Hp r
      | | |s f1 ch data f2 r Hf Hch| | |s c k ch reply Hc Hp|]; try done.
    + left. exists c, k, data, now, r. split_and!; [done|done|by left|by eapply Hd].
    + left. exists c, k, data, now, r. split_and!; [done|done|by right|by eapply Hd].
    + right. left. exists c, k, data. split_and!; [done|done|]. exists post. by eapply Hd.
    + destruct r as [d|w]; [done|]. right. right.
      unfold chan_send in Hch. destruct (chans (p_dis s) !! ch) as [x|] eqn:Hx; [|done].
      destruct (ch_closed x) eqn:Hcl; [|by case_bool_decide].
      exists ch, data, x. split_and!; try done. rewrite Hf. apply elem_of_app. right. left.
    + unfold finish, cleanup in Eg.
      destruct (dv_owned s (pi_dis _ Hi) c k ch Hc) as (_ & x & Hx & Hcl); [unfold registered; by rewrite Hp|].
      by rewrite Hx, Hcl in Eg.
  - assert (∀ c k r data s0, short_route (c_udp k) r → ∃ why, dispatch_conn c k r data s0 = Panic why) as Hd.
    { intros c k r data s0 Hr. by apply dispatch_conn_panics. }
    intros [(c & k & data & now & r & Hc & Hp & Hl & Hr)|[(c & k & data & Hc & Hp & post & Hr)|(ch & data & x & Hf & Hx & Hcl)]].
    + destruct Hl as [Hl|Hl].
      * destruct (Hd c k r data s Hr) as [why E]. exists why. rewrite <-E. by eapply st_fresh.
      * edestruct (Hd c k r data) as [why E]; [done|]. exists why. rewrite <-E. by eapply st_stale.
    + edestruct (Hd c k (GetRoutingFromControlPlane cfg post (c_port k)) data) as [why E]; [exact Hr|]. exists why. rewrite <-E. by eapply (st_fetched s c k data 0 post).
    + apply list_elem_of_split in Hf as (f1 & f2 & Hf). exists "send on closed channel".
      apply (st_send s f1 ch data f2 (Panic "send on closed channel")); [done|].
      unfold chan_send. by rewrite Hx, Hcl.
Qed.

(** No request is stuck: in every reachable state a request that has not
    finished has a step of its own that moves it on (the read deadline, the
    timeout of the wait and the cleanup never wait for anybody else), unless
    its route crashes the handler. *)
Theorem server_progress s c k : rtc proxy_run proxy_init s →
  p_conns s !! c = Some k → live k = true →
  ∃ g, proxy_step s g ∧
    match g with
    | Ret s' => p_conns s' !! c ≠ Some k
    | Panic _ => ∃ data, routing_now k data ∧ bad_route k
    end.
Proof. intros [Hi _]%proxy_reachable. by apply conn_moves. Qed.

(** A failed refresh replaces a good route.  [GetRoutingFromControlPlane]
    never returns nil, so when the control plane cannot be reached the
    background refresh stores an empty route over the one that worked, and for
    the next second every request of the port is closed without an attempt. *)
Theorem failed_refresh_erases_route s port ps1 ps2 now :
  p_refreshing s = ps1 ++ port :: ps2 → test_route cfg port = None →
  ∃ s', proxy_step s (Ret s') ∧
    p_routes s' !! port = Some {| info := no_routing; ri_deadline := now + routeTimeout |} ∧
    ∀ c k data t, p_conns s' !! c = Some k → c_port k = port → c_phase k = Looking data →
      t ≤ now + routeTimeout →
      lookup_route (p_routes s') port t = RouteFresh no_routing ∧
      dispatch_conn c k no_routing data s' = Ret (set_conn c (set_phase Closed k) s').
Proof.
  intros Hps Ht. eexists. split; [by eapply (st_refreshed s port ps1 ps2 now (λ _ _, None))|].
  assert (GetRoutingFromControlPlane cfg (λ _ _, None) port = no_routing) as ->.
  { unfold GetRoutingFromControlPlane. rewrite Ht. by destruct (marshal_EndPoints _). }
  cbn [p_routes set_routes]. unfold store_route at 1. split; [apply lookup_insert_eq|].
  intros c k data t Hc Hk Hp Hnow. unfold lookup_route, store_route.
  cbn [p_routes set_routes]. rewrite lookup_insert_eq. cbn [ri_deadline info].
  rewrite bool_decide_eq_false_2 by lia. split; [done|].
  unfold dispatch_conn. by destruct (c_udp k).
Qed.

(** A proxy that has started at most 2^24 requests is within the window. *)
Lemma small_run s : rtc (λ s s', proxy_step s (Ret s') ∧ p_seq s' < 2 ^ 24) proxy_init s →
  rtc proxy_run proxy_init s.
Proof.
  intros Hr. destruct proxy_init_inv as [Hi Hw]. revert Hi Hw.
  induction Hr as [s|s s1 s2 [Hs Hq] _ IH]; [by constructor|]. intros Hi Hw.
  pose proof (proxy_step_inv s s1 Hi Hw Hs) as Hi1.
  assert (windowed s1) as Hw1.
  { split; [lia|]. intros c k Hc _. destruct (sq_conn s1 (pi_seq _ Hi1) c k Hc) as [? _]. lia. }
  eapply rtc_l; [split; done|]. by apply IH.
Qed.
End ServerRun.

(** ** Instances of the theorems

    A client of port 443 whose request is on its way through the tunnel. *)
Definition no_json : ProxyJson :=
  {| marshal_EndPoints := λ _, None; unmarshal_RoutingResponse := λ _, None |}.

#[local] Existing Instance no_ip6.
#[local] Existing Instance no_json.

Definition demo_cfg : proxy_config :=
  {| TestPathMap := {[443 := "10.0.0.1,10.0.0.2,10.0.0.3:80"]}; Public := "10.0.0.1";
     ControlHost := "" |}.

Definition conn_of (s : proxy) : conn :=
  default {| c_udp := false; c_ip := ""; c_port := 0; c_id := 0; c_seq := 0; c_phase := Closed |}
    (p_conns s !! 0%nat).

Definition after (g : go proxy) : proxy :=
  match g with Ret s => s | Panic _ => proxy_init end.

Definition demo1 : proxy := accept 0 false "192.168.1.7" 443 [] proxy_init.
Definition demo2 : proxy := read_done 0 (conn_of demo1) [104; 105; 10] 5 0 demo1.
Definition demo3 : proxy := set_conn 0 (set_phase (Fetching [104; 105; 10]) (conn_of demo2)) demo2.
Definition demo_route : RoutingInfo := GetRoutingFromControlPlane demo_cfg (λ _ _, None) 443.
Definition demo4 : proxy :=
  after (dispatch_conn 0 (conn_of demo3) demo_route [104; 105; 10]
    (set_routes (store_route 443 demo_route 0 (p_routes demo3)) (p_refreshing demo3) demo3)).
Definition demo5 : proxy := begin_delivery (c_id (conn_of demo4)) 0 [111; 107; 10] demo4.

Lemma demo5_reachable : rtc (proxy_run demo_cfg) proxy_init demo5.
Proof.
  apply small_run.
  eapply rtc_l; [split; [apply (st_accept demo_cfg proxy_init 0 false "192.168.1.7" 443 []); reflexivity
    |vm_compute; reflexivity]|]. fold demo1.
  eapply rtc_l; [split; [apply (st_read demo_cfg demo1 0 (conn_of demo1) [104; 105; 10] 5 0);
    vm_compute; reflexivity|vm_compute; reflexivity]|]. fold demo2.
  eapply rtc_l; [split; [apply (st_miss demo_cfg demo2 0 (conn_of demo2) [104; 105; 10] 0);
    vm_compute; reflexivity|vm_compute; reflexivity]|]. fold demo3.
  eapply (rtc_l _ _ demo4); [split; [|vm_compute; reflexivity]|].
  { pose proof (st_fetched demo_cfg demo3 0 (conn_of demo3) [104; 105; 10] 0 (λ _ _, None)) as H.
    apply H; vm_compute; reflexivity. }
  eapply rtc_l; [split; [apply (st_deliver demo_cfg demo4 (c_id (conn_of demo4)) 0 [111; 107; 10]);
    vm_compute; reflexivity|vm_compute; reflexivity]|]. apply rtc_refl.
Qed.

(** The response arrives and the client is answered. *)
Definition after_dis (r : option (go Disaggregator)) : Disaggregator :=
  match r with Some (Ret d) => d | _ => NewDisaggregator end.

Definition demo6 : proxy := set_dis (after_dis (chan_send 0 [111; 107; 10] (p_dis demo5))) [] demo5.
Definition demo7 : proxy :=
  set_dis (from_option snd NewDisaggregator (chan_recv 0 (p_dis demo6))) (p_flying demo6)
    (set_conn 0 (set_phase (Replying 0 (Some [111; 107; 10])) (conn_of demo6)) demo6).
Definition demo8 : proxy := after (finish 0 (conn_of demo7) 0 (Some [111; 107; 10]) demo7).

(** A step of the demonstration, whose target is given. *)
Lemma demo_step s g s' : proxy_step demo_cfg s g → g = Ret s' → proxy_inv demo_cfg s' → p_seq s' < 2 ^ 24 →
  proxy_run demo_cfg s s'.
Proof.
  intros Hs -> Hi Hq. split; [done|]. split; [lia|]. intros c k Hc _.
  destruct (sq_conn s' (pi_seq _ _ Hi) c k Hc) as [? _]. lia.
Qed.

Lemma demo_next s g s' : rtc (proxy_run demo_cfg) proxy_init s → proxy_step demo_cfg s g →
  g = Ret s' → p_seq s' < 2 ^ 24 → rtc (proxy_run demo_cfg) proxy_init s'.
Proof.
  intros Hr Hs E Hq. destruct (proxy_reachable demo_cfg s Hr) as [Hi Hw].
  eapply rtc_r; [exact Hr|]. eapply demo_step; [exact Hs|exact E| |exact Hq].
  eapply proxy_step_inv; [exact Hi|exact Hw|]. by rewrite <-E.
Qed.

Lemma demo8_reachable : rtc (proxy_run demo_cfg) proxy_init demo8.
Proof.
  eapply (demo_next demo7); [|eapply (st_cleanup demo_cfg demo7 0 (conn_of demo7) 0 (Some [111; 107; 10]))|..];
    [|vm_compute; reflexivity..].
  eapply (demo_next demo6); [|eapply (st_receive demo_cfg demo6 0 (conn_of demo6) 0 (Some [111; 107; 10]))|..];
    [|vm_compute; reflexivity..].
  eapply (demo_next demo5 _ demo6);
    [exact demo5_reachable|eapply (st_send demo_cfg demo5 [] 0 [111; 107; 10] [])|..];
    vm_compute; reflexivity.
Qed.

Lemma server_isolation_witness :
  c_phase (conn_of demo8) = Answered [111; 107; 10] ∧
  (c_id (conn_of demo8), [111; 107; 10]) ∈ p_log demo8.
Proof.
  split; [vm_compute; reflexivity|].
  apply (server_isolation demo_cfg demo8 demo8_reachable) with (c := 0%nat); vm_compute; reflexivity.
Defined.

Lemma server_progress_witness : ∃ g, proxy_step demo_cfg demo5 g ∧
  match g with
  | Ret s' => p_conns s' !! 0%nat ≠ Some (conn_of demo5)
  | Panic _ => ∃ data, routing_now (conn_of demo5) data ∧ bad_route demo_cfg (conn_of demo5)
  end.
Proof.
  apply (server_progress demo_cfg demo5 0 (conn_of demo5) demo5_reachable); vm_compute; reflexivity.
Defined.

(** The client gives up while the response is about to be sent. *)
Definition late1 : proxy := set_conn 0 (set_phase (Replying 0 None) (conn_of demo5)) demo5.
Definition late2 : proxy := after (finish 0 (conn_of late1) 0 None late1).

Lemma late2_reachable : rtc (proxy_run demo_cfg) proxy_init late2.
Proof.
  eapply (demo_next late1); [|eapply (st_cleanup demo_cfg late1 0 (conn_of late1) 0 None)|..];
    [|vm_compute; reflexivity..].
  eapply (demo_next demo5); [exact demo5_reachable
    |eapply (st_timeout demo_cfg demo5 0 (conn_of demo5) 0)|..]; vm_compute; reflexivity.
Qed.

Lemma server_crashes_witness : ∃ why, proxy_step demo_cfg late2 (Panic why).
Proof.
  apply (server_crashes demo_cfg late2 late2_reachable). right. right.
  exists 0%nat, [111; 107; 10]. eexists. split; [vm_compute; left|]. split; vm_compute; reflexivity.
Defined.

(** The refresh of the port fails. *)
Definition stale_proxy : proxy := set_routes (p_routes demo4) [80] demo4.

Lemma failed_refresh_erases_route_witness : ∃ s',
  p_routes s' !! 80 = Some {| info := no_routing; ri_deadline := 7000000000 |}.
Proof.
  destruct (failed_refresh_erases_route demo_cfg stale_proxy 80 [] [] 6000000000) as (s' & _ & H & _);
    [reflexivity|vm_compute; reflexivity|]. exists s'. exact H.
Defined.
