(* ===== verification/Listeners.v ===== *)
(** * Listeners and admission

    [data-proxy/server/server-manager.go], the listeners of [tcp-server.go] and
    [udp-server.go], and the start of the configured listeners in
    [data-proxy/main.go]: which ports are served, who may start and stop them,
    and how many connections are let in. *)
From Stdlib Require Import Ascii.
From S2P Require Import Prelude GoStrings Net Tunnel Proxy.
Local Open Scope Z_scope.
Local Open Scope go_scope.

(** ** Sockets and the two maps

    A listener is a shared object: the accept loop keeps it after it was
    removed from the map.  [listenerMap] holds values of an interface type whose
    dynamic type is a TCP listener or a UDP connection. *)
Record sock := {
  sk_udp : bool;
  sk_port : Z;
  sk_open : bool;
}.

Record manager := {
  socks : gmap nat sock;
  listenerMap : gmap Z nat;
  portMap : gmap Z bool;
  next_sock : nat;
}.

Definition new_manager : manager :=
  {| socks := ∅; listenerMap := ∅; portMap := ∅; next_sock := 0 |}.

(** [StartServerWithMgr] of both servers; [listened] is the result of
    [net.Listen] or [net.ListenUDP]. *)
Definition StartServerWithMgr (udp : bool) (port : Z) (listened : bool) (m : manager)
    : manager + string :=
  if listened then
    let i := next_sock m in
    inl {| socks := <[i := {| sk_udp := udp; sk_port := port; sk_open := true |}]> (socks m);
           listenerMap := <[port := i]> (listenerMap m); portMap := <[port := true]> (portMap m);
           next_sock := S i |}
  else inr "listen failed".

(** The beginning of [StartServerRun]: the socket the accept loop will use.
    The TCP server asserts the type and panics when it is another one or when
    there is no entry; the UDP server checks and returns ([None]). *)
Definition run_listener (udp : bool) (port : Z) (m : manager) : go (option nat) :=
  match listenerMap m !! port with
  | Some i =>
      match socks m !! i with
      | Some sk =>
          if udp then Ret (if sk_udp sk then Some i else None)
          else if sk_udp sk then Panic "interface conversion" else Ret (Some i)
      | None => Panic "dangling listener"
      end
  | None => if udp then Ret None else Panic "interface conversion"
  end.

Definition close_sock (i : nat) (sk : sock) (port : Z) (m : manager) : manager :=
  {| socks := <[i := {| sk_udp := sk_udp sk; sk_port := sk_port sk; sk_open := false |}]> (socks m);
     listenerMap := delete port (listenerMap m); portMap := delete port (portMap m);
     next_sock := next_sock m |}.

(** [StopServer]: closing an open socket gives no error. *)
Definition StopServer (udp : bool) (port : Z) (m : manager) : go manager :=
  match listenerMap m !! port with
  | None => Ret m
  | Some i =>
      match socks m !! i with
      | Some sk =>
          if udp then Ret (if sk_udp sk then close_sock i sk port m else m)
          else if sk_udp sk then Panic "interface conversion" else Ret (close_sock i sk port m)
      | None => Panic "dangling listener"
      end
  end.

(** ** The handlers *)

(** [strconv.Atoi] *)
Definition Atoi (s : string) : option Z :=
  let digits t := if bool_decide (t = "") then None else parse_uint t 0 in
  let ranged v := if bool_decide (- 2 ^ 63 ≤ v < 2 ^ 63) then Some v else None in
  match s with
  | String "-" t => v ← digits t; ranged (- v)
  | String "+" t => v ← digits t; ranged v
  | _ => v ← digits s; ranged v
  end.

Definition response := (Z * string)%type.

Definition is_protocol (p : string) : bool := bool_decide (p = "tcp") || bool_decide (p = "udp").
Definition is_udp (p : string) : bool := bool_decide (p = "udp").

(** The checks that both handlers share. *)
Definition parse_query (portStr protocol : string) : response + Z :=
  if bool_decide (portStr = "") then inl (400, "port is required")
  else match Atoi portStr with
       | None => inl (400, "invalid port")
       | Some port => if is_protocol protocol then inr port else inl (400, "invalid protocol")
       end.

(** [/tcp/start] up to the look at [portMap], which is released before the
    server is started. *)
Definition start_request (portStr protocol : string) (m : manager) : response + Z :=
  match parse_query portStr protocol with
  | inl r => inl r
  | inr port => if default false (portMap m !! port) then inl (409, "port already started") else inr port
  end.

(** The rest of [/tcp/start]: the answer, and whether the accept loop is
    started. *)
Definition start_listen (udp : bool) (port : Z) (listened : bool) (m : manager)
    : manager * response * bool :=
  match StartServerWithMgr udp port listened m with
  | inl m => (m, (200, "tcp server started"), true)
  | inr err => (m, (500, err), false)
  end.

(** [/tcp/stop] *)
Definition stop_request (portStr protocol : string) (m : manager) : go (manager * response) :=
  match parse_query portStr protocol with
  | inl r => Ret (m, r)
  | inr port =>
      let! m := StopServer (is_udp protocol) port m in Ret (m, (200, "tcp server stopped"))
  end.

(** [/tcp/list]: the keys of the map, in the order of the range. *)
Definition list_ports (m : manager) (ports : list Z) : Prop :=
  ports ≡ₚ (map_to_list (portMap m)).*1.

(** One configured listener in [main]: the error of the start is ignored, and
    the accept loop begins by looking its socket up. *)
Definition main_listener (proto : string) (port : Z) (listened : bool) (m : manager)
    : manager * go (option nat) :=
  if is_protocol proto then
    let m := match StartServerWithMgr (is_udp proto) port listened m with inl m => m | inr _ => m end in
    (m, run_listener (is_udp proto) port m)
  else (m, Ret None).

(** ** Administration as interleaved steps

    [pending] are the start requests that have passed the look at [portMap],
    [started] the accept loops that have not yet looked their socket up,
    [running] the sockets of the others. *)
Record admin := {
  mgr : manager;
  pending : list (bool * Z);
  started : list (bool * Z);
  running : list nat;
}.

Definition admin_init : admin := {| mgr := new_manager; pending := []; started := []; running := [] |}.

(** The system gives a port to one open socket per protocol. *)
Definition port_free (udp : bool) (port : Z) (m : manager) : Prop :=
  ∀ i sk, socks m !! i = Some sk → sk_udp sk = udp → sk_port sk = port → sk_open sk = false.

Inductive admin_step : admin → go admin → Prop :=
| ad_check a portStr protocol port :
    start_request portStr protocol (mgr a) = inr port →
    admin_step a (Ret {| mgr := mgr a; pending := (is_udp protocol, port) :: pending a;
                         started := started a; running := running a |})
| ad_listen a udp port ps1 ps2 listened m r spawn :
    pending a = ps1 ++ (udp, port) :: ps2 → (listened = true → port_free udp port (mgr a)) →
    start_listen udp port listened (mgr a) = (m, r, spawn) →
    admin_step a (Ret {| mgr := m; pending := ps1 ++ ps2;
                         started := (if spawn : bool then [(udp, port)] else []) ++ started a;
                         running := running a |})
| ad_run a udp port ss1 ss2 :
    started a = ss1 ++ (udp, port) :: ss2 →
    admin_step a (let! i := run_listener udp port (mgr a) in
                  Ret {| mgr := mgr a; pending := pending a; started := ss1 ++ ss2;
                         running := option_list i ++ running a |})
| ad_stop a portStr protocol m r :
    stop_request portStr protocol (mgr a) = Ret (m, r) →
    admin_step a (Ret {| mgr := m; pending := pending a; started := started a; running := running a |}).

Definition admin_run : relation admin := λ a a', admin_step a (Ret a').

Record mgr_wf (m : manager) : Prop := {
  mw_ports port : is_Some (portMap m !! port) ↔ is_Some (listenerMap m !! port);
  mw_true port b : portMap m !! port = Some b → b = true;
  mw_sock port i : listenerMap m !! port = Some i →
    ∃ sk, socks m !! i = Some sk ∧ sk_port sk = port ∧ sk_open sk = true;
  mw_fresh i sk : socks m !! i = Some sk → (i < next_sock m)%nat;
  mw_one i j sk sk' : socks m !! i = Some sk → socks m !! j = Some sk' →
    sk_open sk = true → sk_open sk' = true → sk_udp sk = sk_udp sk' → sk_port sk = sk_port sk' → i = j;
}.

Lemma mgr_wf_new : mgr_wf new_manager.
Proof.
  split; simpl; try (intros *; by intros ?%lookup_empty_Some).
  intros port. rewrite !lookup_empty. split; by intros [? ?].
Qed.

Lemma start_wf udp port listened m m' : mgr_wf m → (listened = true → port_free udp port m) →
  StartServerWithMgr udp port listened m = inl m' → mgr_wf m'.
Proof.
  intros [A B C D E] Hf. unfold StartServerWithMgr. destruct listened; [|done]. intros [= <-].
  specialize (Hf eq_refl).
  assert (∀ i sk, socks m !! i = Some sk → next_sock m ≠ i) as Hn by (intros i sk ?%D; lia).
  split; simpl.
  - intros p. destruct (decide (p = port)) as [->|Hne]; [rewrite !lookup_insert_eq; by split; eauto|].
    by rewrite !lookup_insert_ne by done.
  - intros p b [[<- <-]|[_ Hb]]%lookup_insert_Some; eauto.
  - intros p i [[<- <-]|[_ Hi]]%lookup_insert_Some; [rewrite lookup_insert_eq; eauto|].
    destruct (C p i Hi) as (sk & Hs & ?). rewrite lookup_insert_ne by eauto. eauto.
  - intros i sk [[<- _]|[_ Hs]]%lookup_insert_Some; [lia|]. apply D in Hs. lia.
  - intros i j sk sk' [[<- <-]|[_ Hi]]%lookup_insert_Some [[<- <-]|[_ Hj]]%lookup_insert_Some; simpl; eauto.
    + intros _ Ho Eu Ep. by rewrite (Hf j sk') in Ho.
    + intros Ho _ Eu Ep. by rewrite (Hf i sk) in Ho.
Qed.

Lemma close_wf i sk port m : mgr_wf m → listenerMap m !! port = Some i → socks m !! i = Some sk →
  mgr_wf (close_sock i sk port m).
Proof.
  intros [A B C D E] Hl Hs. split; simpl.
  - intros p. destruct (decide (p = port)) as [->|Hne].
    + rewrite !lookup_delete_eq. split; by intros [? ?].
    + by rewrite !lookup_delete_ne by done.
  - intros p b [_ Hb]%lookup_delete_Some. eauto.
  - intros p j [Hne Hj]%lookup_delete_Some. destruct (C p j Hj) as (sk' & Hs' & Hp & Ho).
    rewrite lookup_insert_ne; [eauto|]. intros <-.
    destruct (C port i Hl) as (sk0 & Hs0 & Hp0 & _). simplify_eq.
  - intros j sk' [[<- _]|[_ Hj]]%lookup_insert_Some; eauto.
  - intros i1 j1 s1 s2 [[<- <-]|[_ H1]]%lookup_insert_Some [[<- <-]|[_ H2]]%lookup_insert_Some; simpl;
      [done..|by eauto].
Qed.

Lemma stop_wf udp port m m' : mgr_wf m → StopServer udp port m = Ret m' → mgr_wf m'.
Proof.
  intros Hw. unfold StopServer. destruct (listenerMap m !! port) as [i|] eqn:Hl; [|by intros [= <-]].
  destruct (socks m !! i) as [sk|] eqn:Hs; [|done].
  destruct udp, (sk_udp sk); intros [= <-]; try done; by apply close_wf.
Qed.

Lemma admin_step_wf a a' : mgr_wf (mgr a) → admin_step a (Ret a') → mgr_wf (mgr a').
Proof.
  intros Hw Hs. remember (Ret a') as g eqn:Eg.
  destruct Hs as [a ps p port Hr|a udp port ps1 ps2 listened m r spawn Hp Hf Hl|a udp port ss1 ss2 Hp|a ps p m r Hr].
  - by injection Eg as <-.
  - injection Eg as <-. simpl. unfold start_listen in Hl.
    destruct (StartServerWithMgr udp port listened (mgr a)) as [m'|err] eqn:E; simplify_eq; [|done].
    by eapply start_wf.
  - destruct (run_listener udp port (mgr a)) as [i|w]; [|done]. by injection Eg as <-.
  - injection Eg as <-. simpl. unfold stop_request in Hr. destruct (parse_query ps p) as [r'|port].
    { by simplify_eq. }
    destruct (StopServer _ port (mgr a)) as [m'|w] eqn:E; simplify_eq/=. by eapply stop_wf.
Qed.

Lemma admin_reachable_wf a : rtc admin_run admin_init a → mgr_wf (mgr a).
Proof.
  intros Hr. cut (mgr_wf (mgr admin_init)); [|apply mgr_wf_new].
  induction Hr as [a|a a1 a2 Hs _ IH]; [done|]. intros Hw. by eapply IH, admin_step_wf.
Qed.

(** C14: the types and states of the listeners.  In every reachable state of the
    administration the list of ports is exactly the set of ports with a
    listener, each entry is an open socket of that port, and no two open sockets
    share protocol and port.  A stop request for a served port closes the
    listener and removes the port when the protocol is that of the listener; it
    panics (a failed type assertion) when a TCP stop meets a UDP socket, and
    reports success without doing anything when a UDP stop meets a TCP
    listener. *)
Theorem listeners_typed a : rtc admin_run admin_init a →
  (∀ port, default false (portMap (mgr a) !! port) = true ↔ is_Some (listenerMap (mgr a) !! port)) ∧
  (∀ i j sk sk', socks (mgr a) !! i = Some sk → socks (mgr a) !! j = Some sk' →
     sk_open sk = true → sk_open sk' = true → sk_udp sk = sk_udp sk' → sk_port sk = sk_port sk' → i = j) ∧
  ∀ port i, listenerMap (mgr a) !! port = Some i →
    ∃ sk, socks (mgr a) !! i = Some sk ∧ sk_port sk = port ∧ sk_open sk = true ∧
    ∀ portStr protocol, parse_query portStr protocol = inr port →
      match stop_request portStr protocol (mgr a) with
      | Panic _ => is_udp protocol = false ∧ sk_udp sk = true
      | Ret (m, r) =>
          r = (200, "tcp server stopped") ∧
          if bool_decide (is_udp protocol = sk_udp sk)
          then portMap m !! port = None ∧ listenerMap m !! port = None ∧
               from_option sk_open true (socks m !! i) = false
          else m = mgr a ∧ is_udp protocol = true
      end.
Proof.
  intros [A B C D E]%admin_reachable_wf. split_and!; [|done|].
  - intros port. rewrite <-A. destruct (portMap (mgr a) !! port) as [b|] eqn:Hb; simpl.
    + split; [by eauto|]. intros _. by eapply B.
    + split; [done|by intros [? ?]].
  - intros port i Hi. destruct (C port i Hi) as (sk & Hs & Hp & Ho). exists sk. split_and!; [done..|].
    intros portStr protocol Hq. unfold stop_request, StopServer. rewrite Hq, Hi, Hs.
    destruct (is_udp protocol), (sk_udp sk) eqn:Hu; simpl;
      rewrite ?bool_decide_true, ?bool_decide_false by done; try done;
      by rewrite !lookup_delete_eq, lookup_insert_eq.
Qed.

(** Starting and stopping are not atomic.  A stop request that comes between
    the start of a TCP listener and the first step of its accept loop makes the
    loop's type assertion fail, outside any handler: the process dies.  The
    same happens when the process starts and the port of a configured TCP
    listener is taken. *)
Theorem start_stop_race_crashes portStr port :
  parse_query portStr "tcp" = inr port →
  (∃ a1 a2, admin_step admin_init (Ret a1) ∧ admin_run a1 a2 ∧
     ∃ a3, admin_run a2 a3 ∧ admin_step a3 (Panic "interface conversion")) ∧
  (main_listener "tcp" port false new_manager).2 = Panic "interface conversion".
Proof.
  intros Hq. split; [|done].
  eexists _, _. split; [apply (ad_check admin_init portStr "tcp" port)|split].
  - unfold start_request. rewrite Hq. simpl. by rewrite lookup_empty.
  - eapply (ad_listen _ false port [] [] true); [done| |done].
    intros _ i sk. simpl. by intros ?%lookup_empty_Some.
  - eexists. split.
    + eapply (ad_stop _ portStr "tcp"). unfold stop_request. rewrite Hq. unfold StopServer. cbn.
      rewrite lookup_insert_eq. cbn. rewrite lookup_insert_eq. reflexivity.
    + match goal with |- admin_step ?a _ => pose proof (ad_run a false port [] [] eq_refl) as H end.
      revert H. unfold run_listener. cbn. by rewrite lookup_delete_eq.
Qed.

(** Two start requests for one port, one per protocol, can both pass the look
    at the list of ports: the second overwrites the entry of the first, whose
    socket stays open and can no longer be stopped. *)
Lemma start_race_leaks portStr port :
  parse_query portStr "tcp" = inr port → parse_query portStr "udp" = inr port →
  ∃ a i sk, rtc admin_run admin_init a ∧ socks (mgr a) !! i = Some sk ∧ sk_open sk = true ∧
    ∀ p, listenerMap (mgr a) !! p ≠ Some i.
Proof.
  intros Ht Hu. eexists _, 0%nat, _. split_and!.
  - eapply rtc_l; [apply (ad_check admin_init portStr "tcp" port)|].
    { unfold start_request. rewrite Ht. simpl. by rewrite lookup_empty. }
    eapply rtc_l; [eapply (ad_check _ portStr "udp" port)|].
    { unfold start_request. rewrite Hu. simpl. by rewrite lookup_empty. }
    eapply rtc_l; [eapply (ad_listen _ false port [_] [] true); [done| |done]|].
    { intros _ i sk. simpl. by intros ?%lookup_empty_Some. }
    eapply rtc_l; [eapply (ad_listen _ true port [] [] true); [done| |done]|apply rtc_refl].
    intros _ i sk. simpl. by intros [[<- <-]|[_ ?%lookup_empty_Some]]%lookup_insert_Some.
  - simpl. rewrite lookup_insert_ne by done. apply lookup_insert_eq.
  - done.
  - simpl. intros p [[_ ?]|[Hne [[? _]|[_ ?%lookup_empty_Some]]%lookup_insert_Some]]%lookup_insert_Some; done.
Qed.

(** ** Admission

    [StartServerRun] hands an accepted TCP connection to its own goroutine when
    keep-alive is on, at most 512 of them, and to the worker pool otherwise,
    with at most 100000 waiting; when there is no room the connection is
    closed.  UDP packets wait for one of 100 slots. *)
Definition longConnLimit : nat := 512.
Definition maxPendingConns : nat := Z.to_nat 100000.
Definition tcpWorkerCount : Z := 1000.
Definition udpWorkerCount : nat := 100.

(** [InitWorkerPool]: the number of workers. *)
Definition InitWorkerPool (configured : Z) : nat :=
  Z.to_nat (if bool_decide (configured ≤ 0) then tcpWorkerCount else configured).

(** The connections in each place, by name. *)
Record admission := {
  longConnSem : list nat;
  connChan : list nat;
  working : list nat;
  udpSem : list nat;
  closed : list nat;
}.

Definition admission_init : admission :=
  {| longConnSem := []; connChan := []; working := []; udpSem := []; closed := [] |}.

Definition admit_conn (keepAlive : bool) (c : nat) (a : admission) : admission :=
  let close := {| longConnSem := longConnSem a; connChan := connChan a; working := working a;
                  udpSem := udpSem a; closed := c :: closed a |} in
  if keepAlive then
    if bool_decide (length (longConnSem a) < longConnLimit)%nat
    then {| longConnSem := c :: longConnSem a; connChan := connChan a; working := working a;
            udpSem := udpSem a; closed := closed a |}
    else close
  else
    if bool_decide (length (connChan a) < maxPendingConns)%nat
    then {| longConnSem := longConnSem a; connChan := connChan a ++ [c]; working := working a;
            udpSem := udpSem a; closed := closed a |}
    else close.

Inductive admission_step (workers : nat) : relation admission :=
| am_accept keepAlive c a : admission_step workers a (admit_conn keepAlive c a)
| am_take c rest a :
    connChan a = c :: rest → (length (working a) < workers)%nat →
    admission_step workers a
      {| longConnSem := longConnSem a; connChan := rest; working := c :: working a;
         udpSem := udpSem a; closed := closed a |}
| am_done c w1 w2 a :
    working a = w1 ++ c :: w2 →
    admission_step workers a
      {| longConnSem := longConnSem a; connChan := connChan a; working := w1 ++ w2;
         udpSem := udpSem a; closed := c :: closed a |}
| am_long_done c l1 l2 a :
    longConnSem a = l1 ++ c :: l2 →
    admission_step workers a
      {| longConnSem := l1 ++ l2; connChan := connChan a; working := working a;
         udpSem := udpSem a; closed := c :: closed a |}
| am_packet c a :
    (length (udpSem a) < udpWorkerCount)%nat →
    admission_step workers a
      {| longConnSem := longConnSem a; connChan := connChan a; working := working a;
         udpSem := c :: udpSem a; closed := closed a |}
| am_packet_done c u1 u2 a :
    udpSem a = u1 ++ c :: u2 →
    admission_step workers a
      {| longConnSem := longConnSem a; connChan := connChan a; working := working a;
         udpSem := u1 ++ u2; closed := c :: closed a |}.

(** Everything that was accepted. *)
Definition everywhere (a : admission) : list nat :=
  longConnSem a ++ connChan a ++ working a ++ udpSem a ++ closed a.

Record admission_ok (workers : nat) (a : admission) : Prop := {
  ao_long : (length (longConnSem a) ≤ longConnLimit)%nat;
  ao_queue : (length (connChan a) ≤ maxPendingConns)%nat;
  ao_work : (length (working a) ≤ workers)%nat;
  ao_udp : (length (udpSem a) ≤ udpWorkerCount)%nat;
}.

Lemma admission_step_ok workers a a' : admission_ok workers a → admission_step workers a a' →
  admission_ok workers a' ∧ (everywhere a' ≡ₚ everywhere a ∨ ∃ c, everywhere a' ≡ₚ c :: everywhere a).
Proof.
  intros [A B C D] Hs. unfold everywhere.
  destruct Hs as [ka c a|c rest a E Hw|c w1 w2 a E|c l1 l2 a E|c a Hu|c u1 u2 a E].
  - unfold admit_conn. destruct ka; case_bool_decide; (split; [split; simpl; rewrite ?length_app; simpl; lia|]);
      right; exists c; simpl; solve_Permutation.
  - rewrite E in B |- *. split; [split; simpl in *; lia|]. left. simpl. solve_Permutation.
  - rewrite E in C |- *. rewrite length_app in C. split; [split; simpl in *; rewrite ?length_app; lia|].
    left. simpl. solve_Permutation.
  - rewrite E in A |- *. rewrite length_app in A. split; [split; simpl in *; rewrite ?length_app; lia|].
    left. simpl. solve_Permutation.
  - split; [split; simpl; lia|]. right. exists c. simpl. solve_Permutation.
  - rewrite E in D |- *. rewrite length_app in D. split; [split; simpl in *; rewrite ?length_app; lia|].
    left. simpl. solve_Permutation.
Qed.

(** The admission of connections is bounded and loses nothing.  In every
    reachable state there are at most 512 long connections, 100000 waiting and
    [workers] working ones and 100 UDP packets in progress; and each step keeps
    every connection accepted so far in exactly one place (served, waiting or
    closed), adding at most the one it accepts. *)
Theorem admission_bounded workers a : rtc (admission_step workers) admission_init a →
  admission_ok workers a ∧
  ∀ a', admission_step workers a a' →
    everywhere a' ≡ₚ everywhere a ∨ ∃ c, everywhere a' ≡ₚ c :: everywhere a.
Proof.
  intros Hr. assert (admission_ok workers admission_init) as H0 by (split; simpl; lia).
  assert (admission_ok workers a) as Ha.
  { revert H0. induction Hr as [a|a a1 a2 Hs _ IH]; [done|]. intros H0. by eapply IH, admission_step_ok. }
  split; [done|]. intros a' Hs. by eapply admission_step_ok.
Qed.

(** ** Instances of the theorems *)
Definition one_listener : admin :=
  {| mgr := {| socks := {[0%nat := {| sk_udp := false; sk_port := 443; sk_open := true |}]};
               listenerMap := {[443 := 0%nat]}; portMap := {[443 := true]}; next_sock := 1 |};
     pending := []; started := [(false, 443)]; running := [] |}.

Lemma one_listener_reachable : rtc admin_run admin_init one_listener.
Proof.
  eapply rtc_l; [apply (ad_check admin_init "443" "tcp" 443); vm_compute; reflexivity|].
  eapply rtc_l; [eapply (ad_listen _ false 443 [] [] true); [reflexivity| |reflexivity]|].
  - intros _ i sk. simpl. by intros ?%lookup_empty_Some.
  - apply rtc_refl.
Qed.

Lemma listeners_typed_witness :
  ∃ m, stop_request "443" "tcp" (mgr one_listener) = Ret (m, (200, "tcp server stopped")) ∧
    portMap m !! 443 = None.
Proof.
  destruct (listeners_typed one_listener one_listener_reachable) as (_ & _ & H).
  destruct (H 443 0%nat) as (sk & Hs & _ & _ & Hq); [vm_compute; reflexivity|].
  specialize (Hq "443" "tcp" ltac:(vm_compute; reflexivity)).
  vm_compute in Hs. injection Hs as <-.
  destruct (stop_request "443" "tcp" (mgr one_listener)) as [[m r]|w].
  - destruct Hq as [-> [Hp _]]. exists m. split; [reflexivity|exact Hp].
  - destruct Hq as [_ Hq]. discriminate Hq.
Defined.

Lemma start_stop_race_crashes_witness :
  (main_listener "tcp" 443 false new_manager).2 = Panic "interface conversion" ∧
  ∃ a, admin_step a (Panic "interface conversion").
Proof.
  destruct (start_stop_race_crashes "443" 443) as [(a1 & a2 & _ & _ & a3 & _ & H) Hm];
    [vm_compute; reflexivity|]. split; [exact Hm|]. exists a3. exact H.
Defined.

Lemma admission_bounded_witness : admission_ok 1 (admit_conn false 7 admission_init).
Proof.
  apply (admission_bounded 1 (admit_conn false 7 admission_init)). eapply rtc_l; [|apply rtc_refl].
  apply am_accept.
Defined.
