(* ===== verification/RateLimit.v ===== *)
(** * The rate limiter

    [data-proxy/server/rate-limiter.go]: one token bucket per port and client
    address, made on first use and dropped when the client has been silent for
    longer than the clean interval.  The bucket itself is
    [golang.org/x/time/rate]: a parameter.  The limiters are shared objects: the
    maps hold pointers into a heap. *)
From S2P Require Import Prelude Tunnel.
Local Open Scope Z_scope.
Local Open Scope go_scope.

(** [rate.Limiter]: [NewLimiter] from the rate and the burst, and [Allow] at a
    time. *)
Class RateLib := {
  Limiter : Type;
  NewLimiter : Z → Z → Limiter;
  limiter_Allow : Z → Limiter → bool * Limiter;
}.

Record RateLimit := {
  QPS : Z;
  Burst : Z;
  CleanInterval : Z;
}.

Section RateLimiter.
Context `{RL : RateLib}.

Record IPLimiter := {
  il_limiter : nat;
  lastSeen : Z;
}.

Record PortLimiters := {
  limiters : gmap string IPLimiter;
  stopCh_closed : bool;
}.

Record GlobalRateLimiter := {
  portLimiters : gmap Z PortLimiters;
  config : RateLimit;
  lim_heap : list Limiter;
}.

Definition InitRateLimiter (cfg : RateLimit) : GlobalRateLimiter :=
  {| portLimiters := ∅; config := cfg; lim_heap := [] |}.

(** [time.Duration(CleanInterval) * time.Minute] *)
Definition clean_interval (cfg : RateLimit) : Z := int64 (CleanInterval cfg * 60000000000).

(** A new port starts its cleanup loop, whose [time.NewTicker] panics on an
    interval that is not positive. *)
Definition port_limiters (port : Z) (g : GlobalRateLimiter) : go PortLimiters :=
  match portLimiters g !! port with
  | Some pl => Ret pl
  | None =>
      if bool_decide (clean_interval (config g) ≤ 0)
      then Panic "non-positive interval for NewTicker"
      else Ret {| limiters := ∅; stopCh_closed := false |}
  end.

Definition GetLimiter (port : Z) (ip : string) (now : Z) (g : GlobalRateLimiter)
    : go (nat * GlobalRateLimiter) :=
  let! pl := port_limiters port g in
  let '(p, heap) :=
    match limiters pl !! ip with
    | Some il => (il_limiter il, lim_heap g)
    | None => (length (lim_heap g), lim_heap g ++ [NewLimiter (QPS (config g)) (Burst (config g))])
    end in
  let pl := {| limiters := <[ip := {| il_limiter := p; lastSeen := now |}]> (limiters pl);
               stopCh_closed := stopCh_closed pl |} in
  Ret (p, {| portLimiters := <[port := pl]> (portLimiters g); config := config g; lim_heap := heap |}).

(** [limiter.Allow()] on a pointer. *)
Definition heap_Allow (p : nat) (now : Z) (g : GlobalRateLimiter) : go (bool * GlobalRateLimiter) :=
  match lim_heap g !! p with
  | Some l =>
      let '(ok, l') := limiter_Allow now l in
      Ret (ok, {| portLimiters := portLimiters g; config := config g; lim_heap := <[p := l']> (lim_heap g) |})
  | None => Panic "nil pointer dereference"
  end.

Definition Allow (port : Z) (ip : string) (now : Z) (g : GlobalRateLimiter)
    : go (bool * GlobalRateLimiter) :=
  let! r := GetLimiter port ip now g in
  heap_Allow r.1 now r.2.

(** One tick of [cleanupLoop]. *)
Definition clean_port (now : Z) (cfg : RateLimit) (pl : PortLimiters) : PortLimiters :=
  {| limiters := filter (λ '(_, il), ¬ clean_interval cfg < now - lastSeen il) (limiters pl);
     stopCh_closed := stopCh_closed pl |}.

Definition cleanupLoop (port now : Z) (g : GlobalRateLimiter) : GlobalRateLimiter :=
  match portLimiters g !! port with
  | Some pl => {| portLimiters := <[port := clean_port now (config g) pl]> (portLimiters g);
                  config := config g; lim_heap := lim_heap g |}
  | None => g
  end.

(** [Stop] closes the channel of every port; closing one twice panics. *)
Definition rl_Stop (g : GlobalRateLimiter) : go GlobalRateLimiter :=
  if forallb (λ kv : Z * PortLimiters, negb (stopCh_closed kv.2)) (map_to_list (portLimiters g)) then
    Ret {| portLimiters := (λ pl, {| limiters := limiters pl; stopCh_closed := true |}) <$> portLimiters g;
           config := config g; lim_heap := lim_heap g |}
  else Panic "close of closed channel".

(** ** What it promises: independent buckets *)
Inductive rl_op :=
| OpAllow (port : Z) (ip : string) (now : Z)
| OpClean (port now : Z).

Definition rl_step (op : rl_op) (g : GlobalRateLimiter) : go (option bool * GlobalRateLimiter) :=
  match op with
  | OpAllow port ip now => let! r := Allow port ip now g in Ret (Some r.1, r.2)
  | OpClean port now => Ret (None, cleanupLoop port now g)
  end.

Fixpoint rl_run (ops : list rl_op) (g : GlobalRateLimiter) : go (list (option bool)) :=
  match ops with
  | [] => Ret []
  | op :: ops =>
      let! r := rl_step op g in
      let! rest := rl_run ops r.2 in
      Ret (r.1 :: rest)
  end.

(** The specification: a bucket and the time of its last use per port and
    address. *)
Abbreviation buckets := (gmap (Z * string) (Limiter * Z)).

Definition spec_step (cfg : RateLimit) (op : rl_op) (m : buckets) : option bool * buckets :=
  match op with
  | OpAllow port ip now =>
      let l := from_option fst (NewLimiter (QPS cfg) (Burst cfg)) (m !! (port, ip)) in
      let '(ok, l') := limiter_Allow now l in
      (Some ok, <[(port, ip) := (l', now)]> m)
  | OpClean port now =>
      (None, filter (λ '(k, b), ¬ (k.1 = port ∧ clean_interval cfg < now - b.2)) m)
  end.

Fixpoint spec_run (cfg : RateLimit) (ops : list rl_op) (m : buckets) : list (option bool) :=
  match ops with
  | [] => []
  | op :: ops => let '(r, m) := spec_step cfg op m in r :: spec_run cfg ops m
  end.

Definition entry (g : GlobalRateLimiter) (k : Z * string) : option IPLimiter :=
  pl ← portLimiters g !! k.1; limiters pl !! k.2.

(** The heap and the maps represent the buckets. *)
Record represents (g : GlobalRateLimiter) (m : buckets) : Prop := {
  rp_bucket k : m !! k = (il ← entry g k; l ← lim_heap g !! il_limiter il; Some (l, lastSeen il));
  rp_valid k il : entry g k = Some il → (il_limiter il < length (lim_heap g))%nat;
  rp_inj k1 k2 il1 il2 : entry g k1 = Some il1 → entry g k2 = Some il2 →
    il_limiter il1 = il_limiter il2 → k1 = k2;
}.

Lemma represents_None g m k : represents g m → m !! k = None ↔ entry g k = None.
Proof.
  intros Hr. rewrite (rp_bucket g m Hr). destruct (entry g k) as [il|] eqn:E; simpl; [|done].
  destruct (lookup_lt_is_Some_2 (lim_heap g) (il_limiter il)) as [l ->]; [by eapply rp_valid|]. done.
Qed.

Lemma entry_insert g port pl heap k :
  entry {| portLimiters := <[port := pl]> (portLimiters g); config := config g; lim_heap := heap |} k =
  if decide (k.1 = port) then limiters pl !! k.2 else entry g k.
Proof.
  unfold entry. simpl. destruct (decide (k.1 = port)) as [<-|Hne].
  - by rewrite lookup_insert_eq.
  - by rewrite lookup_insert_ne by done.
Qed.

Lemma port_limiters_entry port g pl ip : port_limiters port g = Ret pl →
  limiters pl !! ip = entry g (port, ip).
Proof.
  unfold port_limiters, entry. simpl. destruct (portLimiters g !! port) as [pl'|].
  - by intros [= <-].
  - case_bool_decide; [done|]. intros [= <-]. simpl. apply lookup_empty.
Qed.

(** The look-up and the use of the bucket of one key, in the heap. *)
Lemma allow_represents g m pl port ip now p heap l ok l' :
  represents g m → (∀ ip', limiters pl !! ip' = entry g (port, ip')) →
  (∀ k il, entry g k = Some il → k ≠ (port, ip) → il_limiter il ≠ p ∧ heap !! il_limiter il = lim_heap g !! il_limiter il) →
  (length (lim_heap g) ≤ length heap)%nat →
  heap !! p = Some l → limiter_Allow now l = (ok, l') →
  represents
    {| portLimiters := <[port := {| limiters := <[ip := {| il_limiter := p; lastSeen := now |}]> (limiters pl);
                                    stopCh_closed := stopCh_closed pl |}]> (portLimiters g);
       config := config g; lim_heap := <[p := l']> heap |}
    (<[(port, ip) := (l', now)]> m).
Proof.
  intros Hr Hpl Hother Hlen Hp Ha.
  assert (∀ k, entry {| portLimiters := <[port := {| limiters := <[ip := {| il_limiter := p; lastSeen := now |}]> (limiters pl);
      stopCh_closed := stopCh_closed pl |}]> (portLimiters g); config := config g; lim_heap := <[p := l']> heap |} k
    = if decide (k = (port, ip)) then Some {| il_limiter := p; lastSeen := now |} else entry g k) as He.
  { intros [q i]. rewrite entry_insert. simpl. destruct (decide (q = port)) as [->|Hq].
    - destruct (decide (i = ip)) as [->|Hi]; simpl.
      + rewrite lookup_insert_eq. by rewrite decide_True.
      + rewrite lookup_insert_ne by done. rewrite decide_False by congruence. apply Hpl.
    - rewrite decide_False by congruence. done. }
  split; intros; rewrite ?He in *; simpl.
  - case_decide as Hk.
    + subst k. rewrite lookup_insert_eq. simpl.
      by rewrite list_lookup_insert_eq by (by eapply lookup_lt_Some).
    + rewrite lookup_insert_ne by done. rewrite (rp_bucket g m Hr).
      destruct (entry g k) as [il|] eqn:E; simpl; [|done].
      destruct (Hother k il E Hk) as [Hn Hh]. by rewrite list_lookup_insert_ne, Hh by done.
  - rewrite length_insert. case_decide.
    + simplify_eq. simpl. by eapply lookup_lt_Some.
    + match goal with H : entry g _ = Some _ |- _ => apply (rp_valid g m Hr) in H end. lia.
  - repeat case_decide; subst; [done|..]; simplify_eq/=; try (by eapply (rp_inj g m Hr)); exfalso.
    + match goal with H : entry g ?k = Some _, N : ?k ≠ _ |- _ => destruct (Hother k _ H N) end. congruence.
    + match goal with H : entry g ?k = Some _, N : ?k ≠ _ |- _ => destruct (Hother k _ H N) end. congruence.
Qed.

Lemma Allow_refines g m port ip now : represents g m → 0 < clean_interval (config g) →
  ∃ ok g', Allow port ip now g = Ret (ok, g') ∧ config g' = config g ∧
    let '(r, m') := spec_step (config g) (OpAllow port ip now) m in r = Some ok ∧ represents g' m'.
Proof.
  intros Hr Hc. unfold Allow, GetLimiter.
  destruct (port_limiters port g) as [pl|w] eqn:Hp.
  2: { unfold port_limiters in Hp. destruct (portLimiters g !! port); [done|]. case_bool_decide; [lia|done]. }
  cbn [go_bind]. rewrite (port_limiters_entry port g pl ip Hp).
  pose proof (λ i, port_limiters_entry port g pl i Hp) as Hpl. simpl spec_step.
  rewrite (rp_bucket g m Hr). destruct (entry g (port, ip)) as [il|] eqn:He; simpl.
  - destruct (lookup_lt_is_Some_2 (lim_heap g) (il_limiter il)) as [l Hl]; [by eapply rp_valid|].
    unfold heap_Allow. simpl. rewrite Hl. simpl. destruct (limiter_Allow now l) as [ok l'] eqn:Ha.
    eexists _, _. split; [done|]. split; [done|]. split; [done|].
    apply (allow_represents g m pl port ip now (il_limiter il) (lim_heap g) l ok l'); try done.
    intros k il' Hk Hn. split; [|done]. intros E. by apply Hn, (rp_inj g m Hr k (port, ip) il' il).
  - unfold heap_Allow. simpl. rewrite lookup_app_r, Nat.sub_diag by lia. simpl.
    destruct (limiter_Allow now (NewLimiter _ _)) as [ok l'] eqn:Ha.
    eexists _, _. split; [done|]. split; [done|]. split; [done|].
    eapply (allow_represents g m pl port ip now); try done.
    + intros k il' Hk _. apply (rp_valid g m Hr) in Hk. split; [lia|]. by rewrite lookup_app_l.
    + rewrite length_app. lia.
    + by rewrite lookup_app_r, Nat.sub_diag by lia.
Qed.

Lemma clean_refines g m port now : represents g m →
  represents (cleanupLoop port now g) (spec_step (config g) (OpClean port now) m).2.
Proof.
  intros Hr. simpl.
  assert (∀ k, entry (cleanupLoop port now g) k =
    (il ← entry g k; if decide (k.1 = port ∧ clean_interval (config g) < now - lastSeen il) then None else Some il)) as He.
  { intros [q i]. unfold cleanupLoop. destruct (portLimiters g !! port) as [pl|] eqn:Hp.
    - rewrite entry_insert. simpl. destruct (decide (q = port)) as [->|Hq].
      + unfold entry. simpl. rewrite Hp. simpl. rewrite map_lookup_filter.
        destruct (limiters pl !! i) as [il|]; simpl; [|done].
        destruct (decide (clean_interval (config g) < now - lastSeen il)).
        * rewrite decide_True by done. by rewrite option_guard_False by (intros Hn; by apply Hn).
        * rewrite decide_False by tauto. by rewrite option_guard_True.
      + destruct (entry g (q, i)); simpl; [|done]. by rewrite decide_False by tauto.
    - unfold entry. simpl. destruct (decide (q = port)) as [->|Hq]; [by rewrite Hp|].
      destruct (portLimiters g !! q) as [pl|]; simpl; [|done].
      destruct (limiters pl !! i); simpl; [|done]. by rewrite decide_False by tauto. }
  assert (lim_heap (cleanupLoop port now g) = lim_heap g) as Hh.
  { unfold cleanupLoop. by destruct (portLimiters g !! port). }
  split.
  - intros k. rewrite He, Hh, map_lookup_filter, (rp_bucket g m Hr).
    destruct (entry g k) as [il|] eqn:E; simpl; [|done].
    destruct (lim_heap g !! il_limiter il) as [l|] eqn:El; simpl.
    + destruct (decide (k.1 = port ∧ clean_interval (config g) < now - lastSeen il)) as [Hd|Hd].
      * by rewrite option_guard_False by (intros Hn; by apply Hn).
      * rewrite option_guard_True by done. simpl. by rewrite El.
    + case_decide; simpl; [done|]. by rewrite El.
  - intros k il. rewrite He, Hh. destruct (entry g k) as [il'|] eqn:E; simpl; [|done].
    case_decide; [done|]. intros [= <-]. by eapply rp_valid.
  - intros k1 k2 il1 il2. rewrite !He. destruct (entry g k1) as [i1|] eqn:E1, (entry g k2) as [i2|] eqn:E2; simpl; try done.
    repeat case_decide; try done. intros [= <-] [= <-]. by apply (rp_inj g m Hr).
Qed.

Lemma represents_init cfg : represents (InitRateLimiter cfg) ∅.
Proof.
  split.
  - intros k. unfold entry. simpl. by rewrite !lookup_empty.
  - intros k il. unfold entry. simpl. by rewrite lookup_empty.
  - intros k1 k2 il1 il2. unfold entry. simpl. by rewrite lookup_empty.
Qed.

Lemma run_refines ops g m : represents g m → 0 < clean_interval (config g) →
  rl_run ops g = Ret (spec_run (config g) ops m).
Proof.
  revert g m. induction ops as [|op ops IH]; intros g m Hr Hc; [done|].
  cbn [rl_run spec_run]. destruct op as [port ip now|port now].
  - destruct (Allow_refines g m port ip now Hr Hc) as (ok & g' & E & Ec & H).
    destruct (spec_step (config g) (OpAllow port ip now) m) as [r m']. destruct H as [-> Hr'].
    cbn [rl_step]. rewrite E. cbn [go_bind fst snd]. rewrite (IH g' m' Hr') by (by rewrite Ec).
    by rewrite Ec.
  - pose proof (clean_refines g m port now Hr) as Hr'. cbn [rl_step go_bind fst snd].
    assert (config (cleanupLoop port now g) = config g) as Ec.
    { unfold cleanupLoop. by destruct (portLimiters g !! port). }
    destruct (spec_step (config g) (OpClean port now) m) as [r m'] eqn:E. simpl in Hr'.
    rewrite (IH _ m' Hr') by (by rewrite Ec). rewrite Ec. simpl in E. by injection E as <- _.
Qed.

(** The rate limiter implements independent buckets.  For every sequence of
    requests and cleanup ticks, the decisions are those of one bucket per port
    and client address: other clients and other ports never influence a
    decision, and a client starts with a full bucket exactly when it is new or
    was cleaned up after being silent for longer than the interval. *)
Theorem rate_limiter_refines cfg ops : 0 < clean_interval cfg →
  rl_run ops (InitRateLimiter cfg) = Ret (spec_run cfg ops ∅).
Proof.
  intros Hc. apply (run_refines ops (InitRateLimiter cfg) ∅); [apply represents_init|done].
Qed.

(** Without a clean interval in the configuration the first request of a
    port crashes the process. *)
Theorem no_interval_panics cfg port ip now : clean_interval cfg ≤ 0 →
  panics (Allow port ip now (InitRateLimiter cfg)).
Proof.
  intros Hc. unfold Allow, GetLimiter, port_limiters. simpl. rewrite lookup_empty.
  rewrite bool_decide_eq_true_2 by done. by eexists.
Qed.
End RateLimiter.

(** ** Instances of the theorems

    A bucket that only counts down. *)
#[local] Instance counting : RateLib :=
  {| Limiter := Z; NewLimiter _ burst := burst;
     limiter_Allow _ l := if bool_decide (0 < l) then (true, l - 1) else (false, l) |}.

Lemma rate_limiter_refines_witness :
  rl_run [OpAllow 53 "1.2.3.4" 0; OpAllow 53 "1.2.3.4" 1; OpAllow 53 "5.6.7.8" 2;
          OpClean 53 400000000000; OpAllow 53 "1.2.3.4" 400000000001]
    (InitRateLimiter {| QPS := 1; Burst := 1; CleanInterval := 5 |})
  = Ret [Some true; Some false; Some true; None; Some true].
Proof.
  rewrite (rate_limiter_refines {| QPS := 1; Burst := 1; CleanInterval := 5 |}); vm_compute; reflexivity.
Defined.

Lemma no_interval_panics_witness :
  panics (Allow 53 "1.2.3.4" 0 (InitRateLimiter {| QPS := 1; Burst := 1; CleanInterval := 0 |})).
Proof. apply (no_interval_panics {| QPS := 1; Burst := 1; CleanInterval := 0 |}). vm_compute. discriminate. Defined.
