(* ===== verification/UdpLimit.v ===== *)
(** * The proxy behind the rate limiter

    The beginning of [handleUDPConnection]
    ([data-proxy/server/udp-server.go]): a UDP packet enters the proxy of
    [ServerRun] when the limiter of its port and client allows it, and is
    dropped otherwise.  (The same check of the TCP handler is commented out in
    the source.)  The composition refines the proxy alone, and admits exactly
    what the bucket of the client admits. *)
From S2P Require Import Prelude GoStrings Net Packet Tunnel Aggregator Proxy Disagg Server ServerRun RateLimit.
Local Open Scope Z_scope.
Local Open Scope go_scope.

Section Limited.
Context `{IP6 : Ip6Parser} `{PJ : ProxyJson} (pcfg : proxy_config) `{RLib : RateLib}.

(** The proxy and its limiter; [ld_ops] and [ld_answers] record the use of the
    limiter, for the statements only. *)
Record limited := {
  ld_proxy : proxy;
  ld_rl : GlobalRateLimiter;
  ld_ops : list rl_op;
  ld_answers : list (option bool);
}.

Definition limited_init (cfg : RateLimit) : limited :=
  {| ld_proxy := proxy_init; ld_rl := InitRateLimiter cfg; ld_ops := []; ld_answers := [] |}.

(** The entry of [handleUDPConnection]; [globalRL] is never nil after the start. *)
Definition udp_entry (c : nat) (ip : string) (port : Z) (data : list Z) (now : Z) (s : limited) : go limited :=
  let! r := Allow port ip now (ld_rl s) in
  Ret {| ld_proxy := if r.1 : bool then accept c true ip port data (ld_proxy s) else ld_proxy s;
         ld_rl := r.2; ld_ops := ld_ops s ++ [OpAllow port ip now]; ld_answers := ld_answers s ++ [Some r.1] |}.

(** The UDP requests of a client that have entered. *)
Definition from_client (port : Z) (ip : string) (k : conn) : Prop := c_udp k = true ∧ c_port k = port ∧ c_ip k = ip.
#[local] Instance from_client_dec port ip k : Decision (from_client port ip k).
Proof. unfold from_client. apply _. Defined.

Definition entered (port : Z) (ip : string) (p : proxy) : nat :=
  size (filter (λ x, from_client port ip x.2) (p_conns p)).

Inductive limited_step : limited → go limited → Prop :=
| ls_packet s c ip port data now :
    p_conns (ld_proxy s) !! c = None →
    limited_step s (udp_entry c ip port data now s)
| ls_clean s port now :
    limited_step s (Ret {| ld_proxy := ld_proxy s; ld_rl := cleanupLoop port now (ld_rl s);
                           ld_ops := ld_ops s ++ [OpClean port now]; ld_answers := ld_answers s ++ [None] |})
| ls_other s p :     (** anything but the arrival of a UDP packet *)
    proxy_step pcfg (ld_proxy s) (Ret p) → (∀ port ip, entered port ip p = entered port ip (ld_proxy s)) →
    limited_step s (Ret {| ld_proxy := p; ld_rl := ld_rl s; ld_ops := ld_ops s; ld_answers := ld_answers s |}).

Definition limited_run : relation limited := λ s s', limited_step s (Ret s').

(** ** The specification *)
Definition spec_state (cfg : RateLimit) (ops : list rl_op) (m : gmap (Z * string) (Limiter * Z))
    : gmap (Z * string) (Limiter * Z) :=
  foldl (λ m op, (spec_step cfg op m).2) m ops.

Lemma spec_run_snoc cfg ops op m :
  spec_run cfg (ops ++ [op]) m = spec_run cfg ops m ++ [(spec_step cfg op (spec_state cfg ops m)).1].
Proof.
  revert m. induction ops as [|o ops IH]; intros m; cbn [app spec_run].
  - unfold spec_state. cbn [foldl]. by destruct (spec_step cfg op m).
  - unfold spec_state. cbn [foldl]. destruct (spec_step cfg o m) as [r m']. cbn [snd app]. f_equal. apply IH.
Qed.

Lemma spec_state_snoc cfg ops op m :
  spec_state cfg (ops ++ [op]) m = (spec_step cfg op (spec_state cfg ops m)).2.
Proof. unfold spec_state. by rewrite foldl_snoc. Qed.

(** The packets of a client that its answers let in. *)
Definition lets_in (port : Z) (ip : string) (x : rl_op * option bool) : bool :=
  match x with
  | (OpAllow q i _, Some true) => bool_decide (q = port) && bool_decide (i = ip)
  | _ => false
  end.

Definition let_in (port : Z) (ip : string) (ops : list rl_op) (answers : list (option bool)) : nat :=
  length (List.filter (lets_in port ip) (zip ops answers)).

Lemma let_in_snoc port ip ops answers op a : length answers = length ops →
  let_in port ip (ops ++ [op]) (answers ++ [a]) = (let_in port ip ops answers + Nat.b2n (lets_in port ip (op, a)))%nat.
Proof.
  intros Hl. unfold let_in. rewrite zip_with_app by done. rewrite List.filter_app, length_app. f_equal.
  cbn [zip_with List.filter]. by destruct (lets_in port ip (op, a)).
Qed.

Lemma accept_entered c ip port data p q i : p_conns p !! c = None →
  entered q i (accept c true ip port data p) =
    (entered q i p + Nat.b2n (bool_decide (port = q) && bool_decide (ip = i)))%nat.
Proof.
  intros Hc. unfold entered, accept. destruct (GenShortReqID ip (p_seq p)) as [id seq]. cbn [p_conns].
  set (k := {| c_udp := true; c_ip := ip; c_port := port; c_id := id; c_seq := seq; c_phase := _ |}).
  destruct (decide (from_client q i k)) as [Hk|Hk].
  - rewrite map_filter_insert_True by done. rewrite map_size_insert_None by (apply map_lookup_filter_None; by left).
    destruct Hk as (_ & Hp & Hi). cbn in Hp, Hi. rewrite !bool_decide_eq_true_2 by done. cbn. lia.
  - rewrite map_filter_insert_False by done. rewrite delete_id by done.
    assert (bool_decide (port = q) && bool_decide (ip = i) = false) as ->; [|cbn; lia].
    apply andb_false_iff. unfold from_client in Hk. cbn in Hk.
    destruct (decide (port = q)); [right|left]; apply bool_decide_eq_false_2; naive_solver.
Qed.

(** ** The composition *)
Record limited_inv (cfg : RateLimit) (s : limited) : Prop := {
  li_config : config (ld_rl s) = cfg;
  li_state : represents (ld_rl s) (spec_state cfg (ld_ops s) ∅);
  li_answers : ld_answers s = spec_run cfg (ld_ops s) ∅;
  li_entered port ip : entered port ip (ld_proxy s) = let_in port ip (ld_ops s) (ld_answers s);
}.

Lemma spec_run_length cfg ops m : length (spec_run cfg ops m) = length ops.
Proof.
  revert m. induction ops as [|op ops IH]; intros m; [done|]. cbn [spec_run].
  destruct (spec_step cfg op m). cbn. by rewrite IH.
Qed.

Lemma limited_inv_init cfg : limited_inv cfg (limited_init cfg).
Proof. split; [done|apply represents_init|done|done]. Qed.

Definition proxy_moves (p p' : proxy) : Prop := p' = p ∨ proxy_step pcfg p (Ret p').

Lemma udp_entry_inv cfg c ip port data now s : 0 < clean_interval cfg → limited_inv cfg s →
  p_conns (ld_proxy s) !! c = None →
  ∃ s', udp_entry c ip port data now s = Ret s' ∧ limited_inv cfg s' ∧ proxy_moves (ld_proxy s) (ld_proxy s').
Proof.
  intros Hc [A B C D] Hn. unfold udp_entry.
  destruct (Allow_refines (ld_rl s) _ port ip now B ltac:(by rewrite A)) as (ok & g' & -> & Ec & H).
  rewrite A in H. destruct (spec_step cfg (OpAllow port ip now) (spec_state cfg (ld_ops s) ∅)) as [r m'] eqn:E.
  destruct H as [-> Hr]. cbn [go_bind fst snd]. eexists. split; [reflexivity|]. split.
  - split; cbn [ld_proxy ld_rl ld_ops ld_answers].
    + congruence.
    + by rewrite spec_state_snoc, E.
    + by rewrite spec_run_snoc, E, C.
    + intros q i. rewrite let_in_snoc by (rewrite C; apply spec_run_length). rewrite <-D. destruct ok.
      * by rewrite accept_entered.
      * cbn. lia.
  - destruct ok; [right; by apply st_accept|by left].
Qed.

Lemma limited_step_inv cfg s r : 0 < clean_interval cfg → limited_inv cfg s → limited_step s r →
  ∃ s', r = Ret s' ∧ limited_inv cfg s' ∧ proxy_moves (ld_proxy s) (ld_proxy s').
Proof.
  intros Hc Hs Hst. destruct Hst as [s c ip port data now Hn|s port now|s p Hp He].
  - by apply udp_entry_inv.
  - destruct Hs as [A B C D]. eexists. split; [reflexivity|]. split; [|by left].
    pose proof (clean_refines (ld_rl s) _ port now B) as Hr. rewrite A in Hr.
    split; cbn [ld_proxy ld_rl ld_ops ld_answers].
    + unfold cleanupLoop. by destruct (portLimiters (ld_rl s) !! port).
    + by rewrite spec_state_snoc.
    + by rewrite spec_run_snoc, C.
    + intros q i. rewrite let_in_snoc by (rewrite C; apply spec_run_length). rewrite <-D. cbn. lia.
  - destruct Hs as [A B C D]. eexists. split; [reflexivity|]. split; [|by right]. split; try done.
    intros q i. cbn. by rewrite He.
Qed.

(** C16: the rate limiter in front of the proxy. For every interleaving of packets,
    cleanup ticks and steps of the proxy, with a clean interval in the
    configuration: the limiter never panics; its answers are those of one
    independent bucket per port and client; the UDP requests of a client that
    have entered the proxy are exactly as many as its bucket has let in; and the
    proxy behind it behaves as one without a limiter: each step is one of its
    steps, or leaves it as it is. *)
Theorem limiter_guards_proxy cfg s : 0 < clean_interval cfg → rtc limited_run (limited_init cfg) s →
  rtc proxy_moves proxy_init (ld_proxy s) ∧
  ld_answers s = spec_run cfg (ld_ops s) ∅ ∧
  (∀ port ip, entered port ip (ld_proxy s) = let_in port ip (ld_ops s) (spec_run cfg (ld_ops s) ∅)) ∧
  (∀ w, ¬ limited_step s (Panic w)).
Proof.
  intros Hc Hr.
  assert (∀ s0, rtc limited_run s0 s → limited_inv cfg s0 →
    rtc proxy_moves (ld_proxy s0) (ld_proxy s) ∧ limited_inv cfg s) as H.
  { clear Hr. induction 1 as [|s0 s1 s2 Hst _ IH]; [done|]. intros H0.
    destruct (limited_step_inv cfg s0 (Ret s1) Hc H0 Hst) as (s' & [= <-] & H1 & Hm).
    destruct (IH H1) as [Hx Hi]. split; [by eapply rtc_l|done]. }
  destruct (H (limited_init cfg) Hr (limited_inv_init cfg)) as [Hx Hi]. pose proof Hi as [A B C D].
  split_and!; [done|done|intros; by rewrite D, C|].
  intros w Hst. by destruct (limited_step_inv cfg s _ Hc Hi Hst) as (s' & [=] & _).
Qed.
End Limited.

(** ** Instances of the theorems

    Two packets of one client against a bucket of one. *)
Definition one_per_client : RateLimit := {| QPS := 1; Burst := 1; CleanInterval := 5 |}.

Definition step_or {A} (x : A) (r : go A) : A := match r with Ret y => y | Panic _ => x end.

Definition packet_at (c : nat) (now : Z) (s : @limited counting) : @limited counting :=
  step_or s (@udp_entry no_ip6 counting c "1.2.3.4" 53 [] now s).

Definition two_packets : @limited counting :=
  packet_at 1 5 (packet_at 0 0 (@limited_init counting one_per_client)).

Lemma packet_at_run c now s s' : p_conns (@ld_proxy counting s) !! c = None →
  @udp_entry no_ip6 counting c "1.2.3.4" 53 [] now s = Ret s' →
  @limited_run no_ip6 no_json demo_cfg counting s s'.
Proof. intros Hc E. unfold limited_run. rewrite <-E. by apply ls_packet. Qed.

Lemma limiter_guards_proxy_witness : entered 53 "1.2.3.4" (@ld_proxy counting two_packets) = 1%nat.
Proof.
  destruct (@limiter_guards_proxy no_ip6 no_json demo_cfg counting one_per_client two_packets) as (_ & _ & H & _).
  - vm_compute. reflexivity.
  - apply rtc_l with (packet_at 0 0 (@limited_init counting one_per_client)).
    { apply (packet_at_run 0 0); vm_compute; reflexivity. }
    apply rtc_l with two_packets; [|apply rtc_refl].
    apply (packet_at_run 1 5); vm_compute; reflexivity.
  - rewrite H. vm_compute. reflexivity.
Defined.
