(* ===== verification/Config.v ===== *)
(** * Configuration files

    [config/config.go] of the proxy and [util/config.go] of the control plane
    and of the data plane: the module's own [config.yaml], the shared
    [config/node.yaml] looked for in the directories above, and the tables the
    proxy derives from its configuration.  The file system and the YAML
    decoder are arguments. *)
From S2P Require Import Prelude Records Telemetry Net Packet Tunnel Aggregator Batching Proxy Server RateLimit.
Local Open Scope Z_scope.

(** An absolute clean path, outermost directory first; the root is []. *)
Abbreviation path := (list string).

(** [filepath.Dir] *)
Definition Dir (p : path) : path := removelast p.

(** [os.Stat] *)
Inductive stat_result := Found | NotExist | StatFailed.
#[export] Instance stat_result_eq_dec : EqDecision stat_result.
Proof. solve_decision. Defined.

(** What the process sees of its host. *)
Record host := {
  Executable : option path;
  Getwd : option path;
  Stat : path → stat_result;
  ReadFile : path → option string;
}.

Definition node_file (dir : path) : path := dir ++ ["config"; "node.yaml"].

(** The loop of [findNodeConfig] on the directories from the inside out: it
    ends at the root, which is its own parent. *)
Fixpoint walk_up (stat : path → stat_result) (rdir : list string) : option path :=
  match rdir with
  | [] => None
  | _ :: up =>
      let candidate := node_file (reverse rdir) in
      if bool_decide (stat candidate = Found) then Some candidate else walk_up stat up
  end.

Definition findNodeConfig (stat : path → stat_result) (startDir : path) : option path :=
  walk_up stat (reverse startDir).

Inductive config_error := NoExecutable | NoConfigFile (p : path) | Unreadable | BadYaml.

Section Load.
Context (h : host) (decode_node : string → option NodeConfig).

(** The shared node configuration, if it is found, read and parsed. *)
Definition shared_node (exeDir : path) : option NodeConfig :=
  p ← match findNodeConfig (Stat h) exeDir with
      | Some p => Some p
      | None => cwd ← Getwd h; findNodeConfig (Stat h) cwd
      end;
  content ← ReadFile h p;
  decode_node content.

(** The part the three modules have in common, over their own [Config]. *)
Definition load_config {C} (Node : C → NodeConfig) (set_Node : NodeConfig → C → C)
    (decode : string → option C) : C + config_error :=
  match Executable h with
  | None => inr NoExecutable
  | Some exePath =>
      let exeDir := Dir exePath in
      let configPath := exeDir ++ ["config.yaml"] in
      if bool_decide (Stat h configPath = NotExist) then inr (NoConfigFile configPath)
      else
        match ReadFile h configPath with
        | None => inr Unreadable
        | Some content =>
            match decode content with
            | None => inr BadYaml
            | Some config =>
                inl (if bool_decide (nc_Provider (Node config) = "")
                     then from_option (λ n, set_Node n config) config (shared_node exeDir)
                     else config)
            end
        end
  end.
End Load.

(** ** The three modules *)
Record TestPath := { tp_Port : Z; tp_Path : string }.
Record Listener := { l_Proto : string; l_Port : Z; BatchNum : Z }.

Record Config := {
  c_Port : string;
  c_ControlHost : string;
  TestRouting : list TestPath;
  c_AggWorkerNum : Z;
  c_AggWorkerCount : Z;
  c_TcpWorkerCount : Z;
  c_BackWorkerCount : Z;
  c_TunnelConcurrentLimit : Z;
  c_Listeners : list Listener;
  c_RateLimit : RateLimit;
  c_BufferSize : Z;
  c_BatchTimeoutMs : Z;
  c_Node : NodeConfig;
}.

Definition set_Node (n : NodeConfig) (c : Config) : Config :=
  {| c_Port := c_Port c; c_ControlHost := c_ControlHost c; TestRouting := TestRouting c;
     c_AggWorkerNum := c_AggWorkerNum c; c_AggWorkerCount := c_AggWorkerCount c;
     c_TcpWorkerCount := c_TcpWorkerCount c; c_BackWorkerCount := c_BackWorkerCount c;
     c_TunnelConcurrentLimit := c_TunnelConcurrentLimit c; c_Listeners := c_Listeners c;
     c_RateLimit := c_RateLimit c; c_BufferSize := c_BufferSize c;
     c_BatchTimeoutMs := c_BatchTimeoutMs c; c_Node := n |}.

Definition test_path_map (l : list TestPath) : gmap Z string :=
  foldl (λ m v, <[tp_Port v := tp_Path v]> m) ∅ l.

(** The keys are [uint16]. *)
Definition batch_num_map (l : list Listener) : gmap Z Z :=
  foldl (λ m v, <[uint16 (l_Port v) := BatchNum v]> m) ∅ l.

(** [ReadYamlConfig] of the proxy: the configuration and the two tables it
    publishes. *)
Definition ReadYamlConfig (h : host) (decode : string → option Config)
    (decode_node : string → option NodeConfig) : (Config * gmap Z string * gmap Z Z) + config_error :=
  match load_config h decode_node c_Node set_Node decode with
  | inr e => inr e
  | inl config => inl (config, test_path_map (TestRouting config), batch_num_map (c_Listeners config))
  end.

(** The configuration of the data plane. *)
Record DataConfig := { d_ControlHost : string; AccessLog : string; d_Node : NodeConfig }.

Definition ReadDataConfig (h : host) (decode : string → option DataConfig)
    (decode_node : string → option NodeConfig) : DataConfig + config_error :=
  load_config h decode_node d_Node
    (λ n c, {| d_ControlHost := d_ControlHost c; AccessLog := AccessLog c; d_Node := n |}) decode.

(** The configuration of the control plane. *)
Record ControlConfig := {
  IpLib : string; ServerList : list string; ServerIP : string; DataDir : string; k_Node : NodeConfig
}.

Definition ReadControlConfig (h : host) (decode : string → option ControlConfig)
    (decode_node : string → option NodeConfig) : ControlConfig + config_error :=
  load_config h decode_node k_Node
    (λ n c, {| IpLib := IpLib c; ServerList := ServerList c; ServerIP := ServerIP c;
               DataDir := DataDir c; k_Node := n |}) decode.

(** What the proxy's components read of the configuration. *)
Definition aggregator_config (c : Config) (batchNums : gmap Z Z) : agg_config :=
  {| BufferSize := Z.to_nat (c_BufferSize c); BatchTimeout := int64 (c_BatchTimeoutMs c * millisecond);
     BatchNumMap := batchNums |}.

Definition routing_config (c : Config) (testPaths : gmap Z string) : proxy_config :=
  {| TestPathMap := testPaths; Public := nc_Public (c_Node c); ControlHost := c_ControlHost c |}.

(** ** The search *)

(** [dir] is [start] or a directory above it, below the root. *)
Definition ancestor (dir start : path) : Prop := dir ≠ [] ∧ dir `prefix_of` start.

(** The innermost ancestor with a node configuration. *)
Record nearest (stat : path → stat_result) (start dir : path) : Prop := {
  n_above : ancestor dir start;
  n_found : stat (node_file dir) = Found;
  n_first d : ancestor d start → stat (node_file d) = Found → (length d ≤ length dir)%nat;
}.

Lemma ancestor_snoc d start x : ancestor d (start ++ [x]) ↔ d = start ++ [x] ∨ ancestor d start.
Proof.
  assert (d `prefix_of` start ++ [x] ↔ d = start ++ [x] ∨ d `prefix_of` start) as Hp.
  { split; [|intros [->|Hd]; [done|by apply prefix_app_r]]. intros [k Hk].
    destruct k as [|y k _] using rev_ind; [left; by rewrite app_nil_r in Hk|right].
    rewrite app_assoc in Hk. apply app_inj_tail in Hk as [-> _]. by eexists. }
  unfold ancestor. rewrite Hp. split; [tauto|].
  intros [->|[? ?]]; [split; [by destruct start|by left]|tauto].
Qed.

Lemma findNodeConfig_spec stat start :
  match findNodeConfig stat start with
  | Some c => ∃ dir, c = node_file dir ∧ nearest stat start dir
  | None => ∀ dir, ancestor dir start → stat (node_file dir) ≠ Found
  end.
Proof.
  induction start as [|x start IH] using rev_ind.
  { intros dir [Hne Hp]. by apply prefix_nil_inv in Hp. }
  unfold findNodeConfig in *. rewrite reverse_snoc. simpl.
  rewrite reverse_cons, reverse_involutive. case_bool_decide as Hs.
  - exists (start ++ [x]). split; [done|]. split; [apply ancestor_snoc; by left|done|].
    intros d [_ Hd] _. by apply prefix_length.
  - destruct (walk_up stat (reverse start)) as [c|].
    + destruct IH as (dir & -> & [A1 A2 A3]). exists dir. split; [done|].
      split; [apply ancestor_snoc; by right|done|].
      intros d [->|Hd]%ancestor_snoc Hf; [done|]. by apply A3.
    + intros d [->|Hd]%ancestor_snoc; [done|]. by apply IH.
Qed.

(** ** The tables: the last entry of a port counts *)
Lemma foldl_insert_last {X V} (k : X → Z) (v : X → V) (l : list X) (p : Z) :
  foldl (λ m x, <[k x := v x]> m) (∅ : gmap Z V) l !! p = v <$> last (filter (λ x, k x = p) l).
Proof.
  induction l as [|x l IH] using rev_ind; [simpl; by rewrite lookup_empty|].
  rewrite foldl_snoc, filter_app, filter_cons, filter_nil. case_decide as Hk.
  - by rewrite Hk, lookup_insert_eq, last_snoc.
  - by rewrite lookup_insert_ne, IH, app_nil_r.
Qed.

(** What a module gets: its own file, with the shared node configuration when
    its own names no provider. *)
Lemma load_config_ok {C} h decode_node (Node : C → NodeConfig) set_Node decode exe content config :
  Executable h = Some exe → let path := Dir exe ++ ["config.yaml"] in
  Stat h path ≠ NotExist → ReadFile h path = Some content → decode content = Some config →
  load_config h decode_node Node set_Node decode =
    inl (if bool_decide (nc_Provider (Node config) = "")
         then from_option (λ n, set_Node n config) config (shared_node h decode_node (Dir exe))
         else config).
Proof.
  intros He path Hs Hr Hd. unfold load_config. rewrite He. fold path.
  by rewrite bool_decide_eq_false_2, Hr, Hd.
Qed.

(** No directory at or above [start] has a node configuration. *)
Definition none_above (h : host) (start : path) : Prop :=
  ∀ dir, ancestor dir start → Stat h (node_file dir) ≠ Found.

(** The directory whose node configuration counts: the nearest at or above the
    executable's; when there is none, the nearest at or above the working
    directory. *)
Definition node_place (h : host) (exeDir dir : path) : Prop :=
  nearest (Stat h) exeDir dir ∨
  (none_above h exeDir ∧ ∃ cwd, Getwd h = Some cwd ∧ nearest (Stat h) cwd dir).

Lemma nearest_unique stat start d1 d2 : nearest stat start d1 → nearest stat start d2 → d1 = d2.
Proof.
  intros [A1 A2 A3] [B1 B2 B3]. pose proof (A3 d2 B1 B2). pose proof (B3 d1 A1 A2).
  destruct A1 as [_ [ka Ha]], B1 as [_ [kb Hb]]. rewrite Ha in Hb. apply app_inj_1 in Hb as [-> _]; [done|lia].
Qed.

Lemma found_nearest stat start dir : nearest stat start dir → findNodeConfig stat start = Some (node_file dir).
Proof.
  intros Hn. pose proof (findNodeConfig_spec stat start) as Hf. destruct (findNodeConfig stat start) as [c|].
  - destruct Hf as (d & -> & Hd). by rewrite (nearest_unique stat start d dir).
  - destruct Hn as [A1 A2 _]. by destruct (Hf dir).
Qed.

Lemma found_none h start : none_above h start → findNodeConfig (Stat h) start = None.
Proof.
  intros Hn. pose proof (findNodeConfig_spec (Stat h) start) as Hf. destruct (findNodeConfig (Stat h) start); [|done].
  destruct Hf as (d & -> & [A1 A2 _]). by destruct (Hn d).
Qed.

Lemma shared_node_placed h decode_node exeDir dir : node_place h exeDir dir →
  shared_node h decode_node exeDir = ReadFile h (node_file dir) ≫= decode_node.
Proof.
  unfold shared_node. intros [Hn|(Hnone & cwd & Hw & Hn)]; [by rewrite (found_nearest _ _ _ Hn)|].
  by rewrite (found_none h exeDir Hnone), Hw; cbn; rewrite (found_nearest _ _ _ Hn).
Qed.

Lemma shared_node_unplaced h decode_node exeDir : (∀ dir, ¬ node_place h exeDir dir) →
  shared_node h decode_node exeDir = None.
Proof.
  intros Hno. unfold shared_node. pose proof (findNodeConfig_spec (Stat h) exeDir) as Hf.
  destruct (findNodeConfig (Stat h) exeDir) as [p|].
  { destruct Hf as (dir & _ & Hn). destruct (Hno dir). by left. }
  destruct (Getwd h) as [cwd|] eqn:Hw; [|done]. simpl. pose proof (findNodeConfig_spec (Stat h) cwd) as Hg.
  destruct (findNodeConfig (Stat h) cwd) as [p|]; [|done].
  destruct Hg as (dir & _ & Hn). destruct (Hno dir). right. by eauto.
Qed.

(** C33: the configuration the proxy runs with.  A result comes from the
    [config.yaml] beside the executable and changes nothing of it but the node:
    a node with a provider stays; one without is replaced by the
    [config/node.yaml] of the nearest directory at or above the executable's, or,
    when no such directory has one, of the nearest at or above the working
    directory; it is kept when there is none in either place or when the file
    found cannot be read or parsed (then no other is tried).  The test routes and
    the batch numbers are those of the last entry of each port, the latter taken
    modulo 65536.  There is no result exactly when the [config.yaml] cannot be
    located, read and parsed. *)
Theorem ReadYamlConfig_correct h decode decode_node :
  match ReadYamlConfig h decode decode_node with
  | inl (c, tests, batchNums) =>
      ∃ exe content c0, Executable h = Some exe ∧ Stat h (Dir exe ++ ["config.yaml"]) ≠ NotExist ∧
        ReadFile h (Dir exe ++ ["config.yaml"]) = Some content ∧ decode content = Some c0 ∧
        c = set_Node (c_Node c) c0 ∧
        (nc_Provider (c_Node c0) ≠ "" → c_Node c = c_Node c0) ∧
        (nc_Provider (c_Node c0) = "" →
           (∀ dir, node_place h (Dir exe) dir →
              match ReadFile h (node_file dir) with
              | Some text => c_Node c = default (c_Node c0) (decode_node text)
              | None => c_Node c = c_Node c0
              end) ∧
           ((∀ dir, ¬ node_place h (Dir exe) dir) → c_Node c = c_Node c0)) ∧
        (∀ p, tests !! p = tp_Path <$> last (filter (λ t, tp_Port t = p) (TestRouting c0))) ∧
        (∀ p, batchNums !! p = BatchNum <$> last (filter (λ l, uint16 (l_Port l) = p) (c_Listeners c0)))
  | inr e => ∀ exe content, Executable h = Some exe → Stat h (Dir exe ++ ["config.yaml"]) ≠ NotExist →
      ReadFile h (Dir exe ++ ["config.yaml"]) = Some content → decode content = None
  end.
Proof.
  unfold ReadYamlConfig. destruct (load_config h decode_node c_Node set_Node decode) as [c|e] eqn:E.
  2: { intros exe content He Hs Hr. destruct (decode content) as [c|] eqn:Hd; [|done].
       by rewrite (load_config_ok h decode_node c_Node set_Node decode exe content c) in E. }
  unfold load_config in E. destruct (Executable h) as [exe|] eqn:He; [|done].
  case_bool_decide; [done|]. destruct (ReadFile h _) as [content|] eqn:Hr; [|done].
  destruct (decode content) as [c0|] eqn:Hd; [|done]. injection E as <-.
  set (c := if bool_decide _ then _ else _).
  assert (c = set_Node (c_Node c) c0) as Hc.
  { unfold c. case_bool_decide; [destruct (shared_node h decode_node (Dir exe)); simpl|]; by destruct c0. }
  exists exe, content, c0. do 4 (split; [done|]). split; [done|]. split.
  { intros Hp. unfold c. by rewrite bool_decide_eq_false_2. }
  split.
  - intros Hp. unfold c. rewrite bool_decide_eq_true_2 by done. split.
    + intros dir Hplace. rewrite (shared_node_placed _ _ _ _ Hplace).
      destruct (ReadFile h (node_file dir)) as [text|]; [|done]. cbn. by destruct (decode_node text).
    + intros Hno. by rewrite shared_node_unplaced.
  - rewrite Hc. split; intros p; apply foldl_insert_last.
Qed.

(** ** The batch numbers of the listeners

    [batch_num] is set for a listener's port, but the aggregator looks it up
    with the port of the message, which is the origin's: a listener on port
    8443 with four batches gets one for an origin on port 443, and four for
    an origin on its own port. *)
Definition batches_made (nums : gmap Z Z) (origin : string) : option nat :=
  match @client_message no_ip6 ["10.0.0.1"; "10.0.0.2"; origin] 7 [] with
  | Ret msg =>
      let cfg := {| BufferSize := 100; BatchTimeout := second; BatchNumMap := nums |} in
      let '(_, w) := @pick_batch no_ip6 cfg new_worker msg 100 0 in
      length <$> batches w !! routingKey msg
  | _ => None
  end.

Lemma batch_num_of_origin_port :
  let nums := batch_num_map [{| l_Proto := "tcp"; l_Port := 8443; BatchNum := 4 |}] in
  batches_made nums "10.0.0.9:443" = Some 1%nat ∧ batches_made nums "10.0.0.9:8443" = Some 4%nat.
Proof. split; vm_compute; reflexivity. Qed.
