(* ===== verification/IpService.v ===== *)
(** * The address service of a node, and its client

    [data-plane/main.go] with [util/ip-lib.go] and [util/continent.go]: the start
    of the node program, which loads the address database, the overrides and
    the table of continents and serves look-ups; and
    [control-plane/util/get-ip-info.go], which asks for the location of a client
    before the last mile is routed.  Files, the database, JSON and the router
    are parameters. *)
From Stdlib Require Import Ascii.
From S2P Require Import Prelude Float64 GoStrings Web Records Graph EdgeStats LastMile Random Routing Probing.
From S2P Require Import Telemetry EdgeReport Config.
Local Open Scope Z_scope.
Local Open Scope go_scope.

(** ** Files *)

(** A data file beside the executable, read and decoded. *)
Inductive file (A : Type) := NotThere | NotReadable | NotParsed | Content (x : A).
Arguments NotThere {A}.
Arguments NotReadable {A}.
Arguments NotParsed {A}.
Arguments Content {A} x.

Abbreviation address_db := (string → db_record + string).

Record ip_state := {
  ipDb : option address_db;
  ipOverrides : gmap string ipOverride;
  countryToContinent : gmap string string;
}.

(** Package variables before the start. *)
Definition ip_state_init : ip_state := {| ipDb := None; ipOverrides := ∅; countryToContinent := ∅ |}.

Section Node.
Context `{RO : RangeOrder}.

(** The overrides stay as they were unless the file is read and parsed. *)
Definition load_overrides (f : file (gmap string ipOverride)) (s : ip_state) : ip_state :=
  match f with
  | Content raw => {| ipDb := ipDb s; ipOverrides := loadIPOverrides raw;
                      countryToContinent := countryToContinent s |}
  | _ => s
  end.

(** [InitIPInfo]: the error of [OpenDB] is logged and not returned. *)
Definition InitIPInfo (open_db : option address_db) (overrides : file (gmap string ipOverride)) (s : ip_state)
    : ip_state * option string :=
  let s := {| ipDb := open_db; ipOverrides := ipOverrides s; countryToContinent := countryToContinent s |} in
  (load_overrides overrides s, None).

(** [LoadCountryContinent] with its errors. *)
Definition load_continents (f : file (gmap string (string * string))) (s : ip_state) : ip_state * option string :=
  match f with
  | NotThere | NotReadable => (s, Some "read file")
  | NotParsed => (s, Some "unmarshal")
  | Content raw => ({| ipDb := ipDb s; ipOverrides := ipOverrides s;
                       countryToContinent := LoadCountryContinent raw |}, None)
  end.

Definition node_GetIPInfo (s : ip_state) (ip : string) : ip_location + string :=
  EdgeReport.GetIPInfo (ipDb s) (countryToContinent s) (ipOverrides s) ip.

(** ** The handler *)
Inductive ip_body := BodyError (msg : string) | BodyInfo (l : ip_location).

Definition getIPInfoHandler (s : ip_state) (ip : string) : Z * ip_body :=
  if bool_decide (ip = "") then (400, BodyError "ip parameter is required")
  else
    match node_GetIPInfo s ip with
    | inr err => (500, BodyError err)
    | inl ipInfo => (200, BodyInfo ipInfo)
    end.

(** ** The start of the node

    What [main] sets going: the reporters of the last mile and of the machine,
    the CPU sampler, the prober with its configuration, and the service. *)
Inductive node_job :=
| LastReporter
| CPUSampler
| VMReporter
| Prober (controlHost : string) (cfg : probe_config)
| NodeServe (port : string).

Record node_up := {
  nu_config : DataConfig;
  nu_ip : ip_state;
  nu_tasks : list node_job;
}.

Definition main_probe_config : probe_config :=
  {| Concurrency := 4; Timeout := 2 * 1000000000; Interval := 5 * 1000000000; cfg_Attempts := 5 |}.

Definition node_main (h : host) (decode : string → option DataConfig)
    (decode_node : string → option NodeConfig) (open_db : option address_db)
    (overrides : file (gmap string ipOverride)) (continents : file (gmap string (string * string)))
    : option node_up :=
  match ReadDataConfig h decode decode_node with
  | inr _ => None
  | inl config =>
      let '(s, _) := InitIPInfo open_db overrides ip_state_init in
      let '(s, _) := load_continents continents s in
      Some {| nu_config := config; nu_ip := s;
              nu_tasks := [LastReporter; CPUSampler; VMReporter;
                           Prober (d_ControlHost config) (probe_defaults main_probe_config);
                           NodeServe ":7082"] |}
  end.
End Node.

(** Without a configuration the node does not start; with one it starts whatever
    the data files are, with what could be read of them. *)
Lemma node_main_starts `{RO : RangeOrder} h decode decode_node open_db overrides continents :
  match node_main h decode decode_node open_db overrides continents with
  | None => ∃ e, ReadDataConfig h decode decode_node = inr e
  | Some up => ReadDataConfig h decode decode_node = inl (nu_config up) ∧
      NodeServe ":7082" ∈ nu_tasks up ∧ ipDb (nu_ip up) = open_db ∧
      ipOverrides (nu_ip up) = match overrides with Content raw => loadIPOverrides raw | _ => ∅ end ∧
      countryToContinent (nu_ip up) = match continents with Content raw => LoadCountryContinent raw | _ => ∅ end
  end.
Proof.
  unfold node_main. destruct (ReadDataConfig h decode decode_node) as [c|e]; [|by exists e].
  unfold InitIPInfo, load_continents, load_overrides.
  destruct overrides, continents; split_and!; try done; cbn; set_solver.
Qed.

(** ** JSON

    The struct of a location goes over the wire under the same names on both
    sides; the object of an error has none of them. *)
Class IpJson := {
  encode_info : ip_location → string;
  encode_error : string → string;
  decode_info : string → option IPInfoResult;
}.

Definition ascii_text (s : string) : bool := all_chars (λ c, bool_decide (N_of_ascii c < 128)%N) s.

Definition ascii_location (l : ip_location) : bool :=
  ascii_text (il_IP l) && ascii_text (il_Country l) && ascii_text (il_Continent l) &&
  ascii_text (il_Province l) && ascii_text (il_City l).

Definition info_of (l : ip_location) : IPInfoResult :=
  {| ip_Country := il_Country l; ip_Continent := il_Continent l; ip_City := il_City l |}.

Definition zero_info : IPInfoResult := {| ip_Country := ""; ip_Continent := ""; ip_City := "" |}.

Class IpJsonLaws `{IpJson} : Prop := {
  decode_encode_info l : ascii_location l = true → decode_info (encode_info l) = Some (info_of l);
  (** Unknown names are ignored, missing ones leave the zero value. *)
  decode_encode_error e : decode_info (encode_error e) = Some zero_info;
}.

(** ** The exchange *)
Section Exchange.
Context `{RO : RangeOrder} `{IJ : IpJson} `{GN : Gin node_handler}.

(** The body that the node answers with; the client does not look at the
    status. *)
Definition node_answer (en : gin_engine) (s : ip_state) (host url : string) : string :=
  match request_to en host "GET" url with
  | Some (IPInfo_, ip) =>
      match (getIPInfoHandler s ip).2 with
      | BodyInfo l => encode_info l
      | BodyError e => encode_error e
      end
  | Some (NodeHealth, _) => "success"
  | None => "404 page not found"
  end.

(** [http.Get] and the decoding of [util.GetIPInfo]; [None]: the request
    failed. *)
Definition ip_service (ipLib : string) (get : string → option string) (ip : string) : IPInfoResult + string :=
  match get (ip_info_url ipLib ip) with
  | None => inr "request failed"
  | Some body =>
      match decode_info body with
      | None => inr "decode failed"
      | Some result => inl result
      end
  end.
End Exchange.

Section Located.
Context `{ML : MathLib} `{RO : RangeOrder} `{SS : SliceSort} `{RS : RandSource}.
Context `{IJL : IpJsonLaws} `{GN : GinLaws node_handler}.

Lemma service_answer en s ipLib ip : serves en node_table → ip ≠ "" →
  ip_service ipLib (λ url, Some (node_answer en s ipLib url)) ip =
    match decode_info (match node_GetIPInfo s ip with
                       | inl l => encode_info l | inr e => encode_error e end) with
    | None => inr "decode failed"
    | Some result => inl result
    end.
Proof.
  intros Hs Hip. unfold ip_service, node_answer.
  assert (request_to en ipLib "GET" (ip_info_url ipLib ip) = Some (IPInfo_, ip)) as ->.
  { by apply (request_routed en node_table ipLib "GET" "/ip/info" IPInfo_ ip). }
  unfold getIPInfoHandler. rewrite bool_decide_eq_false_2 by done. by destruct (node_GetIPInfo s ip).
Qed.

(** C31: a node whose configuration can be read serves, whatever becomes of its
    data files, and answers the look-ups of the control plane from what it could
    load: the control plane gets exactly the location that [GetIPInfo] of the
    node gives, for every address, when its text is ASCII (JSON may replace other
    bytes).  When a look-up fails there (no database, or an address that it refuses), its error
    is lost on the way: the control plane takes the answer for a location
    without country, continent and city, and routes the client by that instead
    of giving the empty answer it has for a failed look-up. *)
Theorem location_reaches_routing h decode decode_node open_db overrides continents config ip localIP :
  ReadDataConfig h decode decode_node = inl config → ip ≠ "" →
  ∃ up en, node_main h decode decode_node open_db overrides continents = Some up ∧
  NodeServe ":7082" ∈ nu_tasks up ∧ node_router = Ret en ∧
  ∀ ipLib,
    let service := ip_service ipLib (λ url, Some (node_answer en (nu_ip up) ipLib url)) in
    let ovs := match overrides with Content raw => loadIPOverrides raw | _ => ∅ end in
    let table := match continents with Content raw => LoadCountryContinent raw | _ => ∅ end in
    match EdgeReport.GetIPInfo open_db table ovs ip with
    | inl l => ascii_location l = true → Routing.GetIPInfo service ip = inl (info_of l)
    | inr _ => Routing.GetIPInfo service ip = inl zero_info ∧
        ∀ g a endPoints algorithm cw lw, ep_IP (Source endPoints) = ip →
          LastRouting localIP service g a endPoints algorithm cw lw =
            match last_Operate (InitLastInterface localIP g a algorithm cw lw) with
            | None => nil_interface
            | Some (LastSolver x) => Ret (routing_of (last_Computing x (located endPoints zero_info)).2)
            end
    end.
Proof.
  intros Hcf Hip. destruct node_router_serves as (en & En & Hs).
  pose proof (node_main_starts h decode decode_node open_db overrides continents) as Hst. rewrite Hcf in Hst.
  destruct (node_main h decode decode_node open_db overrides continents) as [up|]; [|by destruct Hst].
  destruct Hst as (_ & Hup & Hdb & Hov & Hct). exists up, en. split_and!; [done|done|done|].
  intros ipLib service ovs table. fold ovs in Hov. fold table in Hct. rewrite <-Hdb, <-Hov, <-Hct.
  change (EdgeReport.GetIPInfo _ _ _ ip) with (node_GetIPInfo (nu_ip up) ip).
  pose proof (service_answer en (nu_ip up) ipLib ip Hs Hip) as Hx. fold service in Hx.
  destruct (node_GetIPInfo (nu_ip up) ip) as [l|err].
  - intros Hl. unfold Routing.GetIPInfo. by rewrite bool_decide_eq_false_2, Hx, decode_encode_info.
  - rewrite decode_encode_error in Hx. split; [unfold Routing.GetIPInfo; by rewrite bool_decide_eq_false_2|].
    intros g a endPoints algorithm cw lw Hep. unfold LastRouting, Routing.GetIPInfo.
    by rewrite Hep, bool_decide_eq_false_2, Hx.
Qed.
End Located.

(** ** Instances of the theorems

    A JSON that joins the fields with a byte outside of ASCII. *)
Definition json_sep : ascii := ascii_of_N 255.

Definition joined_json : IpJson := {|
  encode_info l := String "{" (il_IP l +:+ String json_sep (il_Country l +:+ String json_sep
    (il_Continent l +:+ String json_sep (il_Province l +:+ String json_sep (il_City l)))));
  encode_error e := String "!" e;
  decode_info body :=
    match body with
    | String "!" _ => Some zero_info
    | String "{" fields =>
        match pieces json_sep fields with
        | [_; country; continent; _; city] =>
            Some {| ip_Country := country; ip_Continent := continent; ip_City := city |}
        | _ => None
        end
    | _ => None
    end;
|}.

Lemma ascii_without_sep s : ascii_text s = true → all_chars (without json_sep) s = true.
Proof.
  apply all_chars_impl. intros c Hc. bool_simp. unfold without. rewrite bool_decide_eq_false_2; [done|].
  intros ->. done.
Qed.

Lemma joined_json_laws : @IpJsonLaws joined_json.
Proof.
  split; [|done]. intros l Hl. unfold ascii_location in Hl. bool_simp. cbn [decode_info encode_info joined_json].
  rewrite !pieces_app, pieces_one by by apply ascii_without_sep. done.
Qed.

Definition node_host : host :=
  {| Executable := Some ["opt"; "node"; "data-plane"]; Getwd := None; Stat := λ _, Found; ReadFile := λ _, Some "" |}.

Definition node_config : DataConfig :=
  {| d_ControlHost := "http://10.0.0.1:7081"; AccessLog := "access.log"; d_Node := some_config |}.

Definition small_db (ip : string) : db_record + string :=
  if bool_decide (ip = "9.9.9.9") then inl {| Country_short := "FR"; db_Region := ""; db_City := "Paris" |}
  else inr "invalid address".

(** A known address, and one that the database refuses. *)
Lemma location_reaches_routing_witness :
  ∃ en, node_router = Ret en ∧
    let service := @ip_service joined_json "http://n" (λ url, Some
      (@node_answer list_order joined_json _ en
         {| ipDb := Some small_db; ipOverrides := ∅; countryToContinent := ∅ |} "http://n" url)) in
    Routing.GetIPInfo service "9.9.9.9" =
      inl {| ip_Country := "FR"; ip_Continent := "Unknown"; ip_City := "Paris" |} ∧
    Routing.GetIPInfo service "no address" = inl zero_info.
Proof.
  pose proof (λ ip, location_reaches_routing (ML := flat_math) (RO := list_order) (SS := exchange_slice_sort)
    (IJL := joined_json_laws) (GN := list_gin_laws _) node_host (λ _, Some node_config) (λ _, None)
    (Some small_db) NotThere NotParsed node_config ip "10.0.0.7" eq_refl) as Hx.
  destruct (Hx "9.9.9.9") as (up & en & Eu & _ & En & H1); [discriminate|].
  destruct (Hx "no address") as (up' & en' & Eu' & _ & En' & H2); [discriminate|].
  rewrite En in En'. injection En' as <-. apply Some_inj in Eu as <-. apply Some_inj in Eu' as <-.
  exists en. split; [exact En|]. split.
  - exact (H1 "http://n" eq_refl).
  - exact (proj1 (H2 "http://n")).
Defined.
