(* ===== verification/Startup.v ===== *)
(** * The start of the control plane

    [control-plane/main.go], [sync/etcd_server/etcd_server.go] and the loading of
    the origins in [api/probing.go]: the configuration, the embedded etcd server
    and the cluster it forms with the other control planes, the client, the
    state that is loaded, the watches and the service.  The host, the decoders,
    [url.Parse], the etcd server and its client are parameters; what they do is
    recorded as effects. *)
From Stdlib Require Import Ascii.
From S2P Require Import Prelude Float64 GoStrings Web Records Graph EdgeStats Telemetry EtcdSync Net ControlApi.
From S2P Require Import Config.
Local Open Scope Z_scope.
Local Open Scope go_scope.

(** ** The embedded etcd server *)

(** [strings.ReplaceAll(s, ".", "-")] *)
Fixpoint dots_to_dashes (s : string) : string :=
  match s with
  | EmptyString => ""
  | String c s' => String (if bool_decide (c = "."%char) then "-"%char else c) (dots_to_dashes s')
  end.

Definition etcd_name (ip : string) : string := "etcd-" +:+ dots_to_dashes ip.

Record url := { u_Scheme : string; u_Host : string }.

Record etcd_config := {
  ec_Dir : string;
  ec_Name : string;
  ListenClientUrls : list url;
  ListenPeerUrls : list url;
  AdvertiseClientUrls : list url;
  AdvertisePeerUrls : list url;
  InitialCluster : string;
  ClusterState : string;
}.

Definition cluster_entry (ip : string) : string := etcd_name ip +:+ "=http://" +:+ ip +:+ ":2380".

Section Etcd.
(** [url.Parse]; its error is ignored, and the nil result dereferenced. *)
Variable url_Parse : string → option url.

Definition parsed (s : string) : go url :=
  match url_Parse s with Some u => Ret u | None => Panic "nil pointer dereference" end.

(** [StartEmbeddedEtcd] up to [embed.StartEtcd], whose outcome is for the
    caller. *)
Definition StartEmbeddedEtcd (serverList : list string) (serverIP dataDir name : string) : go etcd_config :=
  let! clientAddr := parsed ("http://" +:+ serverIP +:+ ":2379") in
  let! peerAddr := parsed ("http://" +:+ serverIP +:+ ":2380") in
  Ret {| ec_Dir := dataDir; ec_Name := name;
         ListenClientUrls := [{| u_Scheme := "http"; u_Host := "0.0.0.0:2379" |}];
         ListenPeerUrls := [{| u_Scheme := "http"; u_Host := "0.0.0.0:2380" |}];
         AdvertiseClientUrls := [clientAddr]; AdvertisePeerUrls := [peerAddr];
         InitialCluster := Join (cluster_entry <$> serverList) ",";
         ClusterState := "new" |}.
End Etcd.

(** ** The origins *)
Definition LoadSourceTargetsFromExeDir (h : host) (decode_targets : string → option (list SourceTarget))
    (probeTargets : string) : gmap Z SourceTarget + string :=
  match Executable h with
  | None => inr "get executable path failed"
  | Some exePath =>
      match ReadFile h (Dir exePath ++ [probeTargets]) with
      | None => inr "read cloud storage targets file failed"
      | Some data =>
          match decode_targets data with
          | None => inr "unmarshal cloud storage targets failed"
          | Some targets => inl (LoadSourceTargets targets)
          end
      end
  end.

(** ** [main] *)

(** [embed.StartEtcd] and the wait for [ReadyNotify]: the server is ready, it has
    failed with an error, or it has started and never becomes ready (its cluster
    has no quorum). *)
Inductive etcd_outcome := EtcdReady | EtcdFailed | EtcdNeverReady.

(** What is outside: the directory and the file of the log ([true]: created, or
    opened), the host with the decoders, the etcd server, its client ([true]:
    connected), and the answers to the two first reads. *)
Record control_env := {
  ce_MkdirAll : string → bool;
  ce_OpenFile : string → bool;
  ce_host : host;
  ce_decode_config : string → option ControlConfig;
  ce_decode_node : string → option NodeConfig;
  ce_decode_targets : string → option (list SourceTarget);
  ce_decode_telemetry : string → option NodeTelemetry;
  ce_decode_last : string → option LastTelemetry;
  ce_url_Parse : string → option url;
  ce_start_etcd : etcd_config → etcd_outcome;
  ce_connect : list string → bool;
  ce_middle : option (list (string * string));
  ce_last : option (list (string * string));
}.

Inductive boot_effect :=
| RemoveAll (dir : string)
| StartEtcd (c : etcd_config)
| NewEtcdClient (endpoints : list string)
| Watch (prefix : string)
| Run (addr : string)
| CloseClient
| CloseEtcd (server : bool).    (** [etcdServer.Close()]; [false]: on a nil pointer *)

(** The calls that [main] has deferred, when it returns.  [Close] reads the
    configuration of the server it is called on. *)
Fixpoint run_deferred (deferred : list boot_effect) : go (list boot_effect) :=
  match deferred with
  | [] => Ret []
  | CloseEtcd false :: _ => Panic "nil pointer dereference"
  | e :: rest => let! es := run_deferred rest in Ret (e :: es)
  end.

Section Main.
Context `{ML : MathLib} `{RO : RangeOrder} `{G : Gin control_handler}.

Record control_state := {
  cs_graph : GraphManager;
  cs_stats : GlobalStats;
  cs_targets : gmap Z SourceTarget;
  cs_router : gin_engine;
  cs_deferred : list boot_effect;   (** run when [router.Run] returns *)
}.

(** Returned, with the reason in the log; waiting for the embedded server; or
    serving. *)
Inductive boot_result :=
| Returned (why : string)
| Waiting
| Serving (s : control_state).

(** The embedded server, if this host is to run one: the effects so far and the
    call that is deferred, or [None] when [main] waits for it. *)
Definition main_etcd (env : control_env) (uu : ControlConfig) :
    go (list boot_effect * option (list boot_effect)) :=
  if bool_decide (ServerIP uu = "") then Ret ([], Some [])
  else
    let nodeName := etcd_name (ServerIP uu) in
    let! cfg := StartEmbeddedEtcd (ce_url_Parse env) (ServerList uu) (ServerIP uu) (DataDir uu) nodeName in
    Ret ([RemoveAll (DataDir uu); StartEtcd cfg],
         match ce_start_etcd env cfg with
         | EtcdReady => Some [CloseEtcd true]
         | EtcdFailed => Some [CloseEtcd false]
         | EtcdNeverReady => None
         end).

(** [return] in [main], with the reason logged. *)
Definition return_main (effects deferred : list boot_effect) (why : string) : go (list boot_effect * boot_result) :=
  let! closed := run_deferred deferred in Ret (effects ++ closed, Returned why).

(** After the embedded server: the client, the origins, the first reads, the
    watches and the service. *)
Definition main_serve (env : control_env) (uu : ControlConfig) (effects deferred : list boot_effect) :
    go (list boot_effect * boot_result) :=
  match ServerList uu with
  | [] => return_main effects deferred "Failed to get serverIps"
  | _ =>
      let serverIps := (λ v, v +:+ ":2379") <$> ServerList uu in
      let effects := effects ++ [NewEtcdClient serverIps] in
      if ce_connect env serverIps then
        let deferred := CloseClient :: deferred in
        match LoadSourceTargetsFromExeDir (ce_host env) (ce_decode_targets env) "probe-targets.json" with
        | inr _ => return_main effects deferred "Failed to load cloud storage targets"
        | inl targets =>
            let r := start_graph (ce_decode_telemetry env) (ce_middle env) in
            let! globalStats := start_stats (ce_decode_last env) (ce_last env) in
            let! router := control_router in
            Ret (effects ++ [Watch "/routing-middle/"; Watch "/routing-last/"; Run ":7081"],
                 Serving {| cs_graph := r; cs_stats := globalStats; cs_targets := targets;
                            cs_router := router; cs_deferred := deferred |})
        end
      else return_main effects deferred "Failed to connect to etcd"
  end.

Definition control_main (env : control_env) : go (list boot_effect * boot_result) :=
  if negb (ce_MkdirAll env "log") then Panic "Failed to create log directory"
  else if negb (ce_OpenFile env "log/app.log") then Panic "Failed to open log file"
  else
    match ReadControlConfig (ce_host env) (ce_decode_config env) (ce_decode_node env) with
    | inr _ => return_main [] [] "Failed to read config file"
    | inl uu =>
        let! r := main_etcd env uu in
        match r with
        | (effects, None) => Ret (effects, Waiting)
        | (effects, Some deferred) => main_serve env uu effects deferred
        end
    end.
End Main.

(** ** The cluster

    etcd reads the initial cluster as a list of [name=url] separated by commas. *)
Definition parse_cluster (s : string) : list (string * string) := Cut "=" <$> pieces "," s.

Definition addr_char (c : ascii) : bool := between 48 57 c || bool_decide (c = "."%char).
Definition address (ip : string) : bool := all_chars addr_char ip.

Definition peer_url (ip : string) : string := "http://" +:+ ip +:+ ":2380".
Definition url_string (u : url) : string := u_Scheme u +:+ "://" +:+ u_Host u.

Lemma addr_without sep s : addr_char sep = false → address s = true → all_chars (without sep) s = true.
Proof.
  intros Hsep. apply all_chars_impl. intros c Hc. unfold without. rewrite bool_decide_eq_false_2; [done|].
  intros ->. congruence.
Qed.

Lemma dashes_without sep s : addr_char sep = false → sep ≠ "-"%char → address s = true →
  all_chars (without sep) (dots_to_dashes s) = true.
Proof.
  intros Hsep Hd. induction s as [|c s IH]; [done|]. unfold address. cbn [all_chars dots_to_dashes].
  intros [Hc Hs]%andb_true_iff. rewrite (IH Hs), andb_true_r. unfold without.
  rewrite bool_decide_eq_false_2; [done|]. case_bool_decide; congruence.
Qed.

Lemma dashes_inj s t : address s = true → address t = true → dots_to_dashes s = dots_to_dashes t → s = t.
Proof.
  revert t. induction s as [|c s IH]; intros [|d t]; [done..|]. unfold address. cbn [all_chars dots_to_dashes].
  intros [Hc Hs]%andb_true_iff [Hd Ht]%andb_true_iff [= Hcd Hst]. f_equal; [|by apply IH].
  do 2 case_bool_decide; subst; done.
Qed.

Lemma etcd_name_inj s t : address s = true → address t = true → etcd_name s = etcd_name t → s = t.
Proof. intros Hs Ht E. unfold etcd_name in E. by simplify_eq; apply dashes_inj. Qed.

Lemma entry_parts ip : address ip = true → Cut "=" (cluster_entry ip) = (etcd_name ip, peer_url ip).
Proof.
  intros Ha. unfold cluster_entry. change ("=http://" +:+ ip +:+ ":2380") with (String "=" (peer_url ip)).
  apply Cut_app. unfold etcd_name. rewrite all_chars_app, (dashes_without "="%char) by done. done.
Qed.

Lemma entry_no_comma ip : address ip = true → all_chars (without ","%char) (cluster_entry ip) = true.
Proof.
  intros Ha. unfold cluster_entry, etcd_name.
  by rewrite !all_chars_app, (dashes_without ","%char), (addr_without ","%char ip).
Qed.

Lemma pieces_Join sep l : l ≠ [] → Forall (λ s, all_chars (without sep) s = true) l →
  pieces sep (Join l (String sep "")) = l.
Proof.
  intros Hne Hl. induction Hl as [|s l Hs Hl IH]; [done|]. destruct l as [|t l]; [by apply pieces_one|].
  change (Join (s :: t :: l) (String sep "")) with (s +:+ String sep (Join (t :: l) (String sep ""))).
  rewrite pieces_app by done. f_equal. by apply IH.
Qed.

Lemma cluster_parsed serverList : serverList ≠ [] → Forall (λ ip, address ip = true) serverList →
  parse_cluster (Join (cluster_entry <$> serverList) ",") = (λ ip, (etcd_name ip, peer_url ip)) <$> serverList.
Proof.
  intros Hne Ha. unfold parse_cluster. rewrite pieces_Join.
  - rewrite <-list_fmap_compose. apply list_fmap_ext. intros i ip Hi. apply entry_parts.
    by apply (Forall_lookup_1 _ _ _ _ Ha Hi).
  - by intros ?%fmap_nil_inv.
  - apply Forall_fmap. eapply Forall_impl; [done|]. apply entry_no_comma.
Qed.

(** The control planes of one server list form one etcd cluster. For distinct
    addresses, with [url.Parse] as documented on them, each of the servers starts
    with a configuration whose initial cluster, read back, names every server of
    the list exactly once, with its peer address, and in which its own name
    stands for the peer address that it advertises, as etcd demands. *)
Theorem etcd_cluster_consistent url_Parse serverList serverIP dataDir :
  (∀ ip port, address ip = true → address port = true →
     url_Parse ("http://" +:+ ip +:+ ":" +:+ port) = Some {| u_Scheme := "http"; u_Host := ip +:+ ":" +:+ port |}) →
  Forall (λ ip, address ip = true) serverList → NoDup serverList → serverIP ∈ serverList →
  ∃ cfg, StartEmbeddedEtcd url_Parse serverList serverIP dataDir (etcd_name serverIP) = Ret cfg ∧
    parse_cluster (InitialCluster cfg) = (λ ip, (etcd_name ip, peer_url ip)) <$> serverList ∧
    NoDup (parse_cluster (InitialCluster cfg)).*1 ∧
    ∀ u, u ∈ AdvertisePeerUrls cfg → (ec_Name cfg, url_string u) ∈ parse_cluster (InitialCluster cfg).
Proof.
  intros Hurl Ha Hnd Hin. assert (address serverIP = true) as Hip by by eapply Forall_forall in Ha.
  assert (serverList ≠ []) as Hne by (by intros ->; apply not_elem_of_nil in Hin).
  pose proof (Hurl serverIP "2379" Hip eq_refl) as H1. pose proof (Hurl serverIP "2380" Hip eq_refl) as H2.
  change (":" +:+ "2379") with ":2379" in H1. change (":" +:+ "2380") with ":2380" in H2.
  eexists. split.
  { unfold StartEmbeddedEtcd, parsed. rewrite H1. cbn [go_bind]. rewrite H2. cbn [go_bind]. reflexivity. }
  cbn [InitialCluster AdvertisePeerUrls ec_Name]. rewrite cluster_parsed by done. split_and!; [done| |].
  - rewrite <-list_fmap_compose. apply NoDup_fmap_2_strong; [|done]. intros x y Hx Hy. apply etcd_name_inj.
    all: by eapply Forall_forall in Ha.
  - intros u ->%list_elem_of_singleton. apply list_elem_of_fmap. exists serverIP. done.
Qed.

(** ** What a start comes to *)
Section MainSpec.
Context `{ML : MathLib} `{RO : RangeOrder} `{GL : GinLaws control_handler}.

Definition stored (kvs : list (string * string)) : gmap string string :=
  foldl (λ m kv, <[kv.1 := kv.2]> m) ∅ kvs.

Definition endpoints (uu : ControlConfig) : list string := (λ v, v +:+ ":2379") <$> ServerList uu.

(** The own address, with the port, is no URL. *)
Definition bad_address (env : control_env) (uu : ControlConfig) : Prop :=
  ServerIP uu ≠ "" ∧ (ce_url_Parse env ("http://" +:+ ServerIP uu +:+ ":2379") = None ∨
                      ce_url_Parse env ("http://" +:+ ServerIP uu +:+ ":2380") = None).

(** This host is to run an embedded server, and that comes to [o]. *)
Definition etcd_came_to (env : control_env) (uu : ControlConfig) (o : etcd_outcome) : Prop :=
  ServerIP uu ≠ "" ∧ ∃ cfg, ce_start_etcd env cfg = o ∧
    StartEmbeddedEtcd (ce_url_Parse env) (ServerList uu) (ServerIP uu) (DataDir uu) (etcd_name (ServerIP uu)) = Ret cfg.

(** What is missing to serve. *)
Definition cannot_serve (env : control_env) (uu : ControlConfig) : Prop :=
  ServerList uu = [] ∨ ce_connect env (endpoints uu) = false ∨
  ∃ e, LoadSourceTargetsFromExeDir (ce_host env) (ce_decode_targets env) "probe-targets.json" = inr e.

Definition boots (uu : ControlConfig) (pre : list boot_effect) : Prop :=
  (ServerIP uu = "" ∧ pre = []) ∨ (ServerIP uu ≠ "" ∧ ∃ cfg, pre = [RemoveAll (DataDir uu); StartEtcd cfg]).

Lemma boots_no_run uu pre : boots uu pre → Run ":7081" ∉ pre.
Proof.
  intros [[_ ->]|(_ & cfg & ->)]; rewrite ?elem_of_cons, elem_of_nil; intuition discriminate.
Qed.

Lemma main_etcd_spec env uu :
  match main_etcd env uu with
  | Panic _ => bad_address env uu
  | Ret (pre, None) => boots uu pre ∧ etcd_came_to env uu EtcdNeverReady
  | Ret (pre, Some deferred) => boots uu pre ∧ ¬ etcd_came_to env uu EtcdNeverReady ∧
      ((deferred = [CloseEtcd false] ∧ etcd_came_to env uu EtcdFailed) ∨
       ((deferred = [] ∨ deferred = [CloseEtcd true]) ∧ ¬ etcd_came_to env uu EtcdFailed))
  end.
Proof.
  unfold main_etcd, etcd_came_to, bad_address, boots. case_bool_decide as Hip.
  { split_and!; [by left|by intros [? _]|]. right. split; [by left|]. by intros [? _]. }
  unfold StartEmbeddedEtcd, parsed.
  destruct (ce_url_Parse env ("http://" +:+ ServerIP uu +:+ ":2379")); cbn [go_bind]; [|auto].
  destruct (ce_url_Parse env ("http://" +:+ ServerIP uu +:+ ":2380")); cbn [go_bind]; [|auto].
  destruct (ce_start_etcd _ _) eqn:E.
  - split_and!; [by eauto| |]; [by intros (_ & cfg & Ho & [= <-]); congruence|]. right. split; [by right|].
    intros (_ & cfg & Ho & [= <-]). congruence.
  - split_and!; [by eauto| |]; [by intros (_ & cfg & Ho & [= <-]); congruence|]. left. by eauto.
  - split; [right; by eauto|]. by eauto.
Qed.

(** The deferred calls panic exactly when one of them is on a nil server. *)
Lemma run_deferred_spec deferred :
  ((CloseEtcd false ∉ deferred) ∧ run_deferred deferred = Ret deferred) ∨
  (CloseEtcd false ∈ deferred ∧ ∃ w, run_deferred deferred = Panic w).
Proof.
  induction deferred as [|e l IH]; [left; split; [apply not_elem_of_nil|done]|].
  assert (e = CloseEtcd false ∨ e ≠ CloseEtcd false) as [->|Hne] by (destruct e as [| | | | | |[]]; auto).
  { right. split; [constructor|by eexists]. }
  assert (run_deferred (e :: l) = let! es := run_deferred l in Ret (e :: es)) as -> by (by destruct e as [| | | | | |[]]).
  destruct IH as [[Hl ->]|[Hl [w ->]]]; [left|right]; cbn [go_bind].
  - split; [|done]. rewrite elem_of_cons. by intros [?|?].
  - split; [by right|by eexists].
Qed.

(** A return: the deferred calls are run, and that panics exactly when the
    server is nil. *)
Lemma return_main_spec env uu pre deferred why : (Run ":7081" ∉ pre) → (Run ":7081" ∉ deferred) →
  ((CloseEtcd false ∈ deferred ∧ etcd_came_to env uu EtcdFailed) ∨
   ((CloseEtcd false ∉ deferred) ∧ ¬ etcd_came_to env uu EtcdFailed)) →
  match return_main pre deferred why with
  | Ret (effects, Returned w) => (Run ":7081" ∉ effects) ∧ w = why ∧ ¬ etcd_came_to env uu EtcdFailed
  | Ret _ => False
  | Panic _ => etcd_came_to env uu EtcdFailed
  end.
Proof.
  intros Hp Hd H. unfold return_main.
  destruct (run_deferred_spec deferred) as [[Hn ->]|[Hin [w ->]]].
  - cbn [go_bind]. rewrite elem_of_app. destruct H as [[? _]|[_ ?]]; naive_solver.
  - cbn [go_bind]. destruct H as [[_ ?]|[? _]]; naive_solver.
Qed.

(** An own address that is no URL is the only panic there. *)
Lemma main_etcd_panics env uu : bad_address env uu → ∃ w, main_etcd env uu = Panic w.
Proof.
  intros [Hip Hu]. unfold main_etcd, StartEmbeddedEtcd, parsed. rewrite bool_decide_eq_false_2 by done.
  destruct (ce_url_Parse env ("http://" +:+ ServerIP uu +:+ ":2379")); cbn [go_bind]; [|by eexists].
  destruct Hu as [?| ->]; [done|]. by eexists.
Qed.

(** What serving means: everything was there, the state is the one of the store,
    and the deferred calls, once the service ends, panic exactly when the embedded
    server has failed to start. *)
Definition serving_state (env : control_env) (uu : ControlConfig) (effects : list boot_effect)
    (s : control_state) : Prop :=
  LoadSourceTargetsFromExeDir (ce_host env) (ce_decode_targets env) "probe-targets.json" = inl (cs_targets s) ∧
  serves (cs_router s) control_table ∧
  start_stats (ce_decode_last env) (ce_last env) = Ret (cs_stats s) ∧
  (∀ kvs, ce_middle env = Some kvs → own_store (ce_decode_telemetry env) (stored kvs) →
     tracks (ce_decode_telemetry env) (stored kvs) (cs_graph s)) ∧
  (∃ pre, boots uu pre ∧ effects =
     pre ++ [NewEtcdClient (endpoints uu); Watch "/routing-middle/"; Watch "/routing-last/"; Run ":7081"]) ∧
  ((∃ w, run_deferred (cs_deferred s) = Panic w) ↔ etcd_came_to env uu EtcdFailed).

Lemma main_serve_spec env uu pre deferred : boots uu pre →
  (deferred = [CloseEtcd false] ∧ etcd_came_to env uu EtcdFailed) ∨
  ((deferred = [] ∨ deferred = [CloseEtcd true]) ∧ ¬ etcd_came_to env uu EtcdFailed) →
  match main_serve env uu pre deferred with
  | Ret (effects, Serving s) => ¬ cannot_serve env uu ∧ serving_state env uu effects s
  | Ret (effects, Returned _) => (Run ":7081" ∉ effects) ∧ cannot_serve env uu ∧ ¬ etcd_came_to env uu EtcdFailed
  | Ret (_, Waiting) => False
  | Panic _ => (cannot_serve env uu ∧ etcd_came_to env uu EtcdFailed) ∨
      (¬ cannot_serve env uu ∧ ∃ w, start_stats (ce_decode_last env) (ce_last env) = Panic w)
  end.
Proof.
  intros Hpre Hd. pose proof (boots_no_run _ _ Hpre) as Hrun.
  assert (∀ l why, l = [] ∨ l = [CloseClient] → ∀ pre', (Run ":7081" ∉ pre') → cannot_serve env uu →
    match return_main pre' (l ++ deferred) why with
    | Ret (effects, Serving s) => ¬ cannot_serve env uu ∧ serving_state env uu effects s
    | Ret (effects, Returned _) => (Run ":7081" ∉ effects) ∧ cannot_serve env uu ∧ ¬ etcd_came_to env uu EtcdFailed
    | Ret (_, Waiting) => False
    | Panic _ => (cannot_serve env uu ∧ etcd_came_to env uu EtcdFailed) ∨
        (¬ cannot_serve env uu ∧ ∃ w, start_stats (ce_decode_last env) (ce_last env) = Panic w)
    end) as Hret.
  { intros l why Hl pre' Hp Hc. opose proof* (return_main_spec env uu pre' (l ++ deferred) why Hp) as Hr.
    - destruct Hl as [-> | ->], Hd as [[-> _]|[[-> | ->] _]]; cbn; rewrite ?elem_of_cons, ?elem_of_nil; intuition discriminate.
    - destruct Hl as [-> | ->], Hd as [[-> ?]|[[-> | ->] ?]]; cbn; rewrite ?elem_of_cons, ?elem_of_nil; intuition discriminate.
    - destruct (return_main pre' (l ++ deferred) why) as [[effects [w| |s]]|w]; naive_solver. }
  assert (Run ":7081" ∉ pre ++ [NewEtcdClient (endpoints uu)]) as Hrun'
    by (rewrite elem_of_app, list_elem_of_singleton; intuition discriminate).
  unfold main_serve. destruct (ServerList uu) as [|ip ips] eqn:Hsl.
  { apply (Hret [] _ (or_introl eq_refl) pre Hrun). by left. }
  rewrite <-Hsl. fold (endpoints uu). destruct (ce_connect env (endpoints uu)) eqn:Hcn.
  2: { apply (Hret [] _ (or_introl eq_refl) _ Hrun'). right. by left. }
  destruct (LoadSourceTargetsFromExeDir _ _ _) as [targets|e] eqn:Eo.
  2: { apply (Hret [CloseClient] _ (or_intror eq_refl) _ Hrun'). do 2 right. by exists e. }
  assert (¬ cannot_serve env uu) as Hcan.
  { unfold cannot_serve. rewrite Hsl, Hcn, Eo. intros [?|[?|[? ?]]]; discriminate. }
  destruct (start_stats (ce_decode_last env) (ce_last env)) as [stats|w] eqn:Es; cbn [go_bind].
  2: { right. by eauto. }
  destruct control_router_serves as (router & -> & Hr). cbn [go_bind]. split; [done|].
  unfold serving_state. cbn [cs_targets cs_router cs_stats cs_graph cs_deferred]. rewrite Eo, Es.
  split_and!; try done.
  - intros kvs Hk Hown. unfold start_graph. rewrite Hk. cbn [GetPrefixAll]. by apply load_tracks.
  - exists pre. split; [done|]. by rewrite <-app_assoc.
  - destruct Hd as [[-> ?]|[[-> | ->] ?]]; cbn; split; [by auto|by eauto|by intros [? ?]|done|by intros [? ?]|done].
Qed.

(** C26: the start of the control plane, for every environment and every way the
    embedded etcd server can go. [main] comes to its service exactly when the log
    could be opened, the configuration is there, an address of its own is a URL,
    an embedded server it is to run is ready or has failed at once, the list of
    servers is not empty, the client is connected, the origins are loaded and the
    stored statistics do not crash their first rebuild: then the routes are the
    ones of the interface, the two prefixes are watched, the graph knows every
    node of the store with the telemetry of its entry, a host that runs etcd has
    removed its data before anything else, and the end of the service panics
    exactly when the embedded server has failed. It waits for ever when the embedded
    server never becomes ready. It returns without serving when the configuration,
    the servers, the connection or the origins are missing and the embedded server
    has not failed. And it panics for exactly these reasons: no log directory, no
    log file, an own address that is no URL, such a return after the embedded
    server has failed (the deferred [Close] is called on nil), or a stored report
    that crashes the first rebuild. *)
Theorem control_main_correct env :
  let config := ReadControlConfig (ce_host env) (ce_decode_config env) (ce_decode_node env) in
  let logging := ce_MkdirAll env "log" = true ∧ ce_OpenFile env "log/app.log" = true in
  match control_main env with
  | Ret (effects, Serving s) => logging ∧ ∃ uu, config = inl uu ∧ ¬ bad_address env uu ∧
      ¬ etcd_came_to env uu EtcdNeverReady ∧ ¬ cannot_serve env uu ∧ serving_state env uu effects s
  | Ret (effects, Waiting) => logging ∧ ∃ uu, config = inl uu ∧ etcd_came_to env uu EtcdNeverReady ∧ boots uu effects
  | Ret (effects, Returned _) => (Run ":7081" ∉ effects) ∧ logging ∧
      ((∃ e, config = inr e) ∨
       ∃ uu, config = inl uu ∧ ¬ bad_address env uu ∧ ¬ etcd_came_to env uu EtcdNeverReady ∧
         cannot_serve env uu ∧ ¬ etcd_came_to env uu EtcdFailed)
  | Panic _ => ce_MkdirAll env "log" = false ∨ ce_OpenFile env "log/app.log" = false ∨
      ∃ uu, config = inl uu ∧
        (bad_address env uu ∨
         ¬ etcd_came_to env uu EtcdNeverReady ∧
         ((cannot_serve env uu ∧ etcd_came_to env uu EtcdFailed) ∨
          (¬ cannot_serve env uu ∧ ∃ w, start_stats (ce_decode_last env) (ce_last env) = Panic w)))
  end.
Proof.
  intros config logging. unfold control_main. subst logging. destruct (ce_MkdirAll env "log"); cbn [negb]; [|by left].
  destruct (ce_OpenFile env "log/app.log"); cbn [negb]; [|by right; left].
  fold config. destruct config as [uu|e] eqn:Ec.
  2: { split_and!; [apply not_elem_of_nil|done..|]. left. by exists e. }
  pose proof (main_etcd_spec env uu) as He. pose proof (main_etcd_panics env uu) as Hb.
  destruct (main_etcd env uu) as [[pre [deferred|]]|w]; cbn [go_bind].
  - destruct He as (Hpre & Hw & Hd). pose proof (main_serve_spec env uu pre deferred Hpre Hd) as Hs.
    destruct (main_serve env uu pre deferred) as [[effects [why| |s]]|w]; naive_solver.
  - naive_solver.
  - do 2 right. exists uu. by auto.
Qed.
End MainSpec.

(** ** Instances of the theorems

    Two servers; the embedded server does not start, and the other one answers. *)
Definition plain_url (s : string) : option url :=
  host ← after_prefix "http://" s; Some {| u_Scheme := "http"; u_Host := host |}.

Lemma etcd_cluster_consistent_witness :
  ∃ cfg, StartEmbeddedEtcd plain_url ["10.0.0.1"; "10.0.0.2"] "10.0.0.2" "/data" "etcd-10-0-0-2" = Ret cfg ∧
    parse_cluster (InitialCluster cfg) =
      [("etcd-10-0-0-1", "http://10.0.0.1:2380"); ("etcd-10-0-0-2", "http://10.0.0.2:2380")].
Proof.
  destruct (etcd_cluster_consistent plain_url ["10.0.0.1"; "10.0.0.2"] "10.0.0.2" "/data")
    as (cfg & H1 & H2 & _).
  - reflexivity.
  - repeat (constructor; [reflexivity|]). constructor.
  - apply (bool_decide_unpack _). vm_compute. exact I.
  - apply (bool_decide_unpack _). vm_compute. exact I.
  - exists cfg. split; [exact H1|]. rewrite H2. reflexivity.
Defined.

Definition two_servers : ControlConfig :=
  {| IpLib := "http://127.0.0.1:7082"; ServerList := ["10.0.0.1"; "10.0.0.2"]; ServerIP := "10.0.0.1";
     DataDir := "/data"; k_Node := some_config |}.

Definition two_servers_env (etcd : etcd_outcome) (connected : bool) : control_env :=
  {| ce_MkdirAll := λ _, true; ce_OpenFile := λ _, true;
     ce_host := {| Executable := Some ["opt"; "control-plane"]; Getwd := None; Stat := λ _, Found;
                   ReadFile := λ _, Some "" |};
     ce_decode_config := λ _, Some two_servers; ce_decode_node := λ _, None;
     ce_decode_targets := λ _, Some []; ce_decode_telemetry := λ _, None; ce_decode_last := λ _, None;
     ce_url_Parse := plain_url; ce_start_etcd := λ _, etcd; ce_connect := λ _, connected;
     ce_middle := Some []; ce_last := None |}.

#[local] Existing Instance flat_math.

(** The embedded server fails: with the other server there, the control plane
    serves; without it, [main] returns and the deferred [Close] panics. *)
Lemma control_main_correct_witness :
  (∃ effects s, control_main (G := list_gin control_handler) (two_servers_env EtcdFailed true) = Ret (effects, Serving s) ∧
     serves (cs_router s) control_table ∧ (∃ w, run_deferred (cs_deferred s) = Panic w) ∧
     ∃ rest, effects = RemoveAll "/data" :: rest) ∧
  control_main (G := list_gin control_handler) (two_servers_env EtcdFailed false) = Panic "nil pointer dereference" ∧
  ∃ effects, control_main (G := list_gin control_handler) (two_servers_env EtcdNeverReady true) = Ret (effects, Waiting).
Proof.
  split_and!; [|vm_compute; reflexivity|eexists; vm_compute; reflexivity].
  pose proof (control_main_correct (GL := list_gin_laws control_handler) (two_servers_env EtcdFailed true)) as H.
  cbv zeta in H.
  assert (∃ effects s, control_main (G := list_gin control_handler) (two_servers_env EtcdFailed true) =
    Ret (effects, Serving s)) as (effects & s & E) by (do 2 eexists; vm_compute; reflexivity).
  exists effects, s. rewrite E in H. split; [exact E|].
  destruct H as (_ & uu & Hu & _ & _ & _ & _ & Hr & _ & _ & (pre & Hpre & ->) & Hd).
  assert (uu = two_servers) as -> by (vm_compute in Hu; injection Hu as <-; reflexivity).
  split_and!; [exact Hr| |].
  - apply Hd. split; [discriminate|]. eexists. split; [|vm_compute]; reflexivity.
  - destruct Hpre as [[? _]|(_ & cfg & ->)]; [discriminate|]. by eexists.
Defined.
