(* ===== verification/TunnelMgr.v ===== *)
(** * Tunnels between the nodes

    [data-proxy/tunnel-manager]: the map of QUIC connections that packets are
    sent over, shared by all senders ([tunnel-manager.go]), and how a packet is
    read back from its stream at the other end ([tunnel-listener.go]).  The QUIC
    library is outside: whether a dial, the opening of a stream or a write
    succeeds are arguments. *)
From S2P Require Import Prelude GoStrings Net Packet Tunnel.
Local Open Scope Z_scope.

(** ** The manager

    Connections are objects: an address and whether this side has closed it. *)
Record TunnelManager := {
  tunnels : gmap string nat;
  quic_conns : gmap nat (string * bool);
  next_conn : nat;
}.

Definition NewTunnelManager : TunnelManager :=
  {| tunnels := ∅; quic_conns := ∅; next_conn := 0 |}.

(** [net.JoinHostPort(remoteIP.String(), QUIC_PORT)] *)
Definition tunnel_addr (remoteIP : Z) : string := ip_string remoteIP +:+ ":" +:+ "4433".

(** The second part of [GetOrCreateTunnel], under the write lock. *)
Definition create_tunnel (addr : string) (dialed : bool) (m : TunnelManager)
    : option nat * TunnelManager :=
  match tunnels m !! addr with
  | Some i => (Some i, m)
  | None =>
      if dialed then
        let i := next_conn m in
        (Some i, {| tunnels := <[addr := i]> (tunnels m);
                    quic_conns := <[i := (addr, true)]> (quic_conns m); next_conn := S i |})
      else (None, m)
  end.

Definition GetOrCreateTunnel (addr : string) (dialed : bool) (m : TunnelManager)
    : option nat * TunnelManager :=
  match tunnels m !! addr with
  | Some i => (Some i, m)
  | None => create_tunnel addr dialed m
  end.

Definition CloseTunnel (addr : string) (m : TunnelManager) : TunnelManager :=
  match tunnels m !! addr with
  | Some i => {| tunnels := delete addr (tunnels m);
                 quic_conns := <[i := (addr, false)]> (quic_conns m); next_conn := next_conn m |}
  | None => m
  end.

(** One call that is not interrupted: the manager, the connection and data of
    the stream that was written, and whether there was no error. *)
Definition SendPacket_ (dialed opened written : bool) (remoteIP : option Z) (data : list Z)
    (m : TunnelManager) : TunnelManager * option (nat * list Z) * bool :=
  match remoteIP with
  | None => (m, None, false)
  | Some ip =>
      let addr := tunnel_addr ip in
      match GetOrCreateTunnel addr dialed m with
      | (None, m) => (m, None, false)
      | (Some i, m) =>
          if opened then
            if written then (m, Some (i, data), true) else (CloseTunnel addr m, None, false)
          else (CloseTunnel addr m, None, false)
      end
  end.

(** ** Concurrent senders

    A sender looks the connection up, creates one if there was none, uses it
    and, when that fails, closes the tunnel of its address. *)
Inductive sender :=
| SLooking (addr : string)
| SMissed (addr : string)
| SUsing (addr : string) (i : nat)
| SFailed (addr : string) (i : nat)
| SDone (sent : bool).

Record tunnel_state := {
  t_mgr : TunnelManager;
  t_senders : gmap nat sender;
}.

Definition tunnel_init : tunnel_state := {| t_mgr := NewTunnelManager; t_senders := ∅ |}.

Definition set_sender (c : nat) (x : sender) (s : tunnel_state) : tunnel_state :=
  {| t_mgr := t_mgr s; t_senders := <[c := x]> (t_senders s) |}.

Inductive tunnel_step : relation tunnel_state :=
| ts_send s c remoteIP :
    t_senders s !! c = None → tunnel_step s (set_sender c (SLooking (tunnel_addr remoteIP)) s)
| ts_lookup s c addr :
    t_senders s !! c = Some (SLooking addr) →
    tunnel_step s (set_sender c
      (match tunnels (t_mgr s) !! addr with Some i => SUsing addr i | None => SMissed addr end) s)
| ts_create s c addr dialed r m :
    t_senders s !! c = Some (SMissed addr) → create_tunnel addr dialed (t_mgr s) = (r, m) →
    tunnel_step s {| t_mgr := m;
                     t_senders := <[c := match r with Some i => SUsing addr i | None => SDone false end]>
                                    (t_senders s) |}
| ts_written s c addr i :
    t_senders s !! c = Some (SUsing addr i) → tunnel_step s (set_sender c (SDone true) s)
| ts_failed s c addr i :
    t_senders s !! c = Some (SUsing addr i) → tunnel_step s (set_sender c (SFailed addr i) s)
| ts_close s c addr i :
    t_senders s !! c = Some (SFailed addr i) →
    tunnel_step s {| t_mgr := CloseTunnel addr (t_mgr s);
                     t_senders := <[c := SDone false]> (t_senders s) |}.

Definition uses (x : sender) : option (string * nat) :=
  match x with SUsing addr i | SFailed addr i => Some (addr, i) | _ => None end.

Record tunnel_inv (s : tunnel_state) : Prop := {
  tv_open addr i : tunnels (t_mgr s) !! addr = Some i ↔ quic_conns (t_mgr s) !! i = Some (addr, true);
  tv_fresh i x : quic_conns (t_mgr s) !! i = Some x → (i < next_conn (t_mgr s))%nat;
  tv_used c x addr i : t_senders s !! c = Some x → uses x = Some (addr, i) →
    ∃ o, quic_conns (t_mgr s) !! i = Some (addr, o);
}.

Lemma tunnel_sender_inv s c x : tunnel_inv s →
  (∀ addr i, uses x = Some (addr, i) → ∃ o, quic_conns (t_mgr s) !! i = Some (addr, o)) →
  tunnel_inv (set_sender c x s).
Proof.
  intros [A B C] Hx. split; simpl; [done..|].
  intros c' y addr i [[<- <-]|[_ Hy]]%lookup_insert_Some; eauto.
Qed.

Lemma tunnel_step_inv s s' : tunnel_inv s → tunnel_step s s' → tunnel_inv s'.
Proof.
  intros Hi Hs. pose proof Hi as [A B C].
  destruct Hs as [s c ip Hc|s c addr Hc|s c addr dialed r m Hc Hcr|s c addr i Hc|s c addr i Hc|s c addr i Hc].
  - by apply tunnel_sender_inv.
  - apply tunnel_sender_inv; [done|]. intros a i. destruct (tunnels (t_mgr s) !! addr) as [j|] eqn:E; [|done].
    intros [= <- <-]. apply A in E. eauto.
  - unfold create_tunnel in Hcr. destruct (tunnels (t_mgr s) !! addr) as [j|] eqn:E.
    { simplify_eq. apply (tunnel_sender_inv s c (SUsing addr j)); [done|]. intros a i [= <- <-]. apply A in E. eauto. }
    destruct dialed; simplify_eq; [|by apply (tunnel_sender_inv s c (SDone false))].
    assert (∀ i x, quic_conns (t_mgr s) !! i = Some x → next_conn (t_mgr s) ≠ i) as Hn by (intros ?? ?%B; lia).
    split; simpl.
    + intros a i. rewrite !lookup_insert_Some, A. split.
      * intros [[<- <-]|[Hne Hq]]; [by left|]. right. split; [by eapply Hn|done].
      * intros [[<- [= <-]]|[Hne Hq]]; [by left|]. right. split; [|done]. intros <-.
        apply A in Hq. congruence.
    + intros i x [[<- _]|[_ Hq]]%lookup_insert_Some; [lia|]. apply B in Hq. lia.
    + intros c' x a i [[<- <-]|[_ Hx]]%lookup_insert_Some Hu; simpl in Hu.
      * injection Hu as <- <-. rewrite lookup_insert_eq. eauto.
      * destruct (C c' x a i Hx Hu) as [o Ho]. rewrite lookup_insert_ne by (by eapply Hn). eauto.
  - by apply tunnel_sender_inv.
  - apply tunnel_sender_inv; [done|]. intros a j [= <- <-]. by eapply C.
  - unfold CloseTunnel. destruct (tunnels (t_mgr s) !! addr) as [j|] eqn:E.
    2: { by apply (tunnel_sender_inv s c (SDone false)). }
    pose proof (proj1 (A addr j) E) as Hj. split; simpl.
    + intros a i'. rewrite lookup_delete_Some, lookup_insert_Some, A. split.
      * intros [Hne Hq]. right. split; [|done]. intros <-. congruence.
      * intros [[_ ?]|[Hne Hq]]; [done|]. split; [|done]. intros <-. apply A in Hq. congruence.
    + intros i' x [[<- _]|[_ Hq]]%lookup_insert_Some; eauto.
    + intros c' x a i' [[<- <-]|[_ Hx]]%lookup_insert_Some Hu; [done|].
      destruct (C c' x a i' Hx Hu) as [o Ho]. destruct (decide (j = i')) as [<-|Hne].
      * rewrite lookup_insert_eq. exists false. congruence.
      * rewrite lookup_insert_ne by done. eauto.
Qed.

Lemma tunnel_reachable s : rtc tunnel_step tunnel_init s → tunnel_inv s.
Proof.
  intros Hr. assert (tunnel_inv tunnel_init) as H0.
  { split; simpl; [|by intros i x ?%lookup_empty_Some|by intros c x addr i ?%lookup_empty_Some].
    intros addr i. rewrite !lookup_empty. done. }
  revert H0. induction Hr as [s|s s1 s2 Hs _ IH]; [done|]. intros H0. by eapply IH, tunnel_step_inv.
Qed.

(** C17: the tunnels are shared and not leaked.  Whatever the interleaving of the
    senders, a connection is open exactly when it is the one of its address in
    the map: there is never more than one open connection to a node, none is
    lost while open, and a sender always works on a connection to its own
    address. *)
Theorem tunnels_one_open s : rtc tunnel_step tunnel_init s →
  (∀ addr i, tunnels (t_mgr s) !! addr = Some i ↔ quic_conns (t_mgr s) !! i = Some (addr, true)) ∧
  (∀ i j addr, quic_conns (t_mgr s) !! i = Some (addr, true) →
     quic_conns (t_mgr s) !! j = Some (addr, true) → i = j) ∧
  ∀ c x addr i, t_senders s !! c = Some x → uses x = Some (addr, i) →
    ∃ o, quic_conns (t_mgr s) !! i = Some (addr, o).
Proof.
  intros [A B C]%tunnel_reachable. split; [done|]. split; [|done].
  intros i j addr Hi%A Hj%A. congruence.
Qed.

(** A failure closes the tunnel of the address, not the connection that
    failed.  Of two senders that share a connection, the first to fail replaces
    it (the next sender dials a new one); when the second one fails it closes
    the new connection, which was healthy. *)
Theorem late_failure_closes_new_tunnel remoteIP : ∃ s1 s2 i j,
  rtc tunnel_step tunnel_init s1 ∧
  t_senders s1 !! 1%nat = Some (SFailed (tunnel_addr remoteIP) i) ∧ i ≠ j ∧
  tunnels (t_mgr s1) !! tunnel_addr remoteIP = Some j ∧
  quic_conns (t_mgr s1) !! j = Some (tunnel_addr remoteIP, true) ∧
  tunnel_step s1 s2 ∧
  quic_conns (t_mgr s2) !! j = Some (tunnel_addr remoteIP, false).
Proof.
  set (a := tunnel_addr remoteIP).
  set (m1 := {| tunnels := {[a := 0%nat]}; quic_conns := {[0%nat := (a, true)]}; next_conn := 1 |}).
  set (m2 := {| tunnels := delete a {[a := 0%nat]};
                quic_conns := <[0%nat := (a, false)]> {[0%nat := (a, true)]}; next_conn := 1 |}).
  set (m3 := {| tunnels := <[a := 1%nat]> (delete a {[a := 0%nat]});
                quic_conns := <[1%nat := (a, true)]> (<[0%nat := (a, false)]> {[0%nat := (a, true)]});
                next_conn := 2 |}).
  eexists _, _, 0%nat, 1%nat. split_and!.
  - (* sender 0 dials, sender 1 shares the connection *)
    eapply rtc_l; [apply (ts_send tunnel_init 0 remoteIP); apply lookup_empty|]. fold a.
    eapply rtc_l; [eapply (ts_lookup _ 0 a); apply lookup_insert_eq|]. cbn. rewrite lookup_empty.
    eapply rtc_l; [eapply (ts_create _ 0 a true _ m1); [apply lookup_insert_eq|]|].
    { unfold create_tunnel. cbn. by rewrite lookup_empty. }
    eapply rtc_l; [apply (ts_send _ 1 remoteIP); cbn; by rewrite !lookup_insert_ne by done|]. fold a.
    eapply rtc_l; [eapply (ts_lookup _ 1 a); apply lookup_insert_eq|]. cbn. rewrite lookup_singleton_eq.
    (* both fail; 0 closes the connection *)
    eapply rtc_l; [eapply (ts_failed _ 1 a 0); apply lookup_insert_eq|].
    eapply rtc_l; [eapply (ts_failed _ 0 a 0); cbn; rewrite !lookup_insert_ne by done; apply lookup_insert_eq|].
    eapply rtc_l; [eapply (ts_close _ 0 a 0); apply lookup_insert_eq|]. cbn.
    assert (CloseTunnel a m1 = m2) as ->.
    { unfold CloseTunnel, m1, m2. cbn. by rewrite lookup_singleton_eq. }
    (* sender 2 dials a new one *)
    eapply rtc_l; [apply (ts_send _ 2 remoteIP); cbn; by rewrite !lookup_insert_ne by done|]. fold a.
    eapply rtc_l; [eapply (ts_lookup _ 2 a); apply lookup_insert_eq|]. cbn. rewrite lookup_delete_eq.
    eapply rtc_l; [eapply (ts_create _ 2 a true _ m3); [apply lookup_insert_eq|]|apply rtc_refl].
    unfold create_tunnel. cbn. by rewrite lookup_delete_eq.
  - cbn. rewrite !lookup_insert_ne by done. apply lookup_insert_eq.
  - done.
  - cbn. apply lookup_insert_eq.
  - cbn. apply lookup_insert_eq.
  - eapply (ts_close _ 1 a 0). cbn. rewrite !lookup_insert_ne by done. apply lookup_insert_eq.
  - cbn. unfold CloseTunnel. cbn. rewrite lookup_insert_eq. cbn. apply lookup_insert_eq.
Qed.

(** ** Reading a packet from its stream: [handleConn]

    [s] are the bytes that arrive on the stream before it ends; [fin] says how
    it ends: closed by its sender, or with an error (a reset of the stream, the
    loss of the connection).  [io.ReadFull] reads nothing when nothing is asked
    for; at the end of a closed stream it fails with [io.EOF] when it has read
    nothing and with [io.ErrUnexpectedEOF] otherwise; any other error it hands
    on. *)
Inductive read_result := ReadOk | ReadEOF | ReadUnexpectedEOF | ReadError.

Definition read_full (fin : bool) (n : nat) (s : list Z) : list Z * read_result :=
  if bool_decide (n ≤ length s)%nat then (take n s, ReadOk)
  else (s, if fin then if bool_decide (s = []) then ReadEOF else ReadUnexpectedEOF else ReadError).

(** The buffer the handler is called with.  [io.ErrUnexpectedEOF] is accepted
    for the payload, whose missing bytes stay zero. *)
Definition read_ended (fin : bool) (s : list Z) : option (list Z) :=
  match read_full fin HeaderSize s with
  | (headerBuf, ReadOk) =>
      let payloadLen := Z.to_nat (get_be (slice headerBuf 17 19)) in
      let '(rest, err) := read_full fin payloadLen (drop HeaderSize s) in
      match err with
      | ReadOk | ReadUnexpectedEOF => Some (headerBuf ++ rest ++ repeat 0 (payloadLen - length rest))
      | _ => None
      end
  | _ => None
  end.

(** A stream that its sender has closed. *)
Definition read_stream (s : list Z) : option (list Z) := read_ended true s.

Lemma read_stream_eq s : read_stream s =
  if bool_decide (length s < HeaderSize)%nat then None
  else
    let headerBuf := take HeaderSize s in
    let payloadLen := Z.to_nat (get_be (slice headerBuf 17 19)) in
    let rest := drop HeaderSize s in
    if bool_decide (payloadLen ≤ length rest)%nat then Some (headerBuf ++ take payloadLen rest)
    else if bool_decide (rest = []) then None
    else Some (headerBuf ++ rest ++ repeat 0 (payloadLen - length rest)).
Proof.
  unfold read_stream, read_ended, read_full. destruct (decide (length s < HeaderSize)%nat) as [H|H].
  - rewrite (bool_decide_eq_true_2 (length s < _)%nat) by done.
    rewrite (bool_decide_eq_false_2 (HeaderSize ≤ _)%nat) by lia. by case_bool_decide.
  - rewrite (bool_decide_eq_true_2 (HeaderSize ≤ _)%nat), (bool_decide_eq_false_2 (length s < _)%nat) by lia. cbv zeta.
    set (n := Z.to_nat _). destruct (decide (n ≤ length (drop HeaderSize s))%nat) as [Hn|Hn].
    + rewrite !bool_decide_eq_true_2 by done. rewrite length_take_le, Nat.sub_diag by done. simpl.
      by rewrite app_nil_r.
    + rewrite !(bool_decide_eq_false_2 (n ≤ _)%nat) by done. by case_bool_decide.
Qed.

(** A stream that ends with an error is handled only when its packet is
    complete. *)
Lemma read_lost_eq s : read_ended false s =
  if bool_decide (length s < HeaderSize)%nat then None
  else
    let headerBuf := take HeaderSize s in
    let payloadLen := Z.to_nat (get_be (slice headerBuf 17 19)) in
    let rest := drop HeaderSize s in
    if bool_decide (payloadLen ≤ length rest)%nat then Some (headerBuf ++ take payloadLen rest) else None.
Proof.
  unfold read_ended, read_full. destruct (decide (length s < HeaderSize)%nat) as [H|H].
  - rewrite (bool_decide_eq_true_2 (length s < _)%nat) by done.
    by rewrite (bool_decide_eq_false_2 (HeaderSize ≤ _)%nat) by lia.
  - rewrite (bool_decide_eq_true_2 (HeaderSize ≤ _)%nat), (bool_decide_eq_false_2 (length s < _)%nat) by lia. cbv zeta.
    set (n := Z.to_nat _). case_bool_decide; [|done]. rewrite length_take_le, Nat.sub_diag by done. simpl.
    by rewrite app_nil_r.
Qed.

Lemma frame_payload_len raw p subs : header_ok p → frame raw p subs →
  get_be (slice (take HeaderSize raw) 17 19) = PayloadLen p.
Proof.
  intros Hok Hf. destruct (ParseHeader_frame raw p subs Hok Hf) as (h & Hh & _ & _ & <- & _).
  unfold ParseHeader in Hh. case_bool_decide; [done|]. by injection Hh as <-.
Qed.

(** What is read of the first [n] bytes of a packet. *)
Section Cut.
Context (raw : list Z) (p : Packet) (subs : list SubPacket).
Hypothesis Hraw : arriving raw p subs.

Lemma cut_length : length raw = (HeaderSize + length (encode subs))%nat ∧
  Z.to_nat (get_be (slice (take HeaderSize raw) 17 19)) = length (encode subs).
Proof.
  destruct Hraw as [Hf Hok Hs Hl]. split; [by apply (frame_length raw p subs)|].
  by rewrite (frame_payload_len raw p subs Hok Hf), Hl, Nat2Z.id.
Qed.

Lemma read_whole fin : read_ended fin raw = Some raw.
Proof.
  destruct cut_length as [Hlen Hp]. unfold read_ended, read_full.
  rewrite bool_decide_eq_true_2 by lia. cbv zeta.
  rewrite Hp, bool_decide_eq_true_2 by (rewrite length_drop; lia).
  rewrite (take_ge (drop _ raw)) by (rewrite length_drop; lia).
  rewrite length_drop, app_assoc, take_drop. replace (_ - _)%nat with 0%nat by lia. by rewrite app_nil_r.
Qed.

Lemma read_cut n : (HeaderSize < n < length raw)%nat →
  read_ended true (take n raw) = Some (take n raw ++ repeat 0 (length raw - n)) ∧
  read_ended false (take n raw) = None.
Proof.
  intros Hn. destruct cut_length as [Hlen Hp].
  change (read_ended true) with read_stream. rewrite read_stream_eq, read_lost_eq. cbv zeta.
  rewrite length_take, Nat.min_l by lia. rewrite !bool_decide_eq_false_2 by lia.
  rewrite take_take, Nat.min_l, Hp, length_drop, length_take, Nat.min_l by lia.
  rewrite !(bool_decide_eq_false_2 (length (encode subs) ≤ _)%nat) by lia. split; [|done].
  rewrite bool_decide_eq_false_2.
  2: { intros E. apply (f_equal length) in E. rewrite length_drop, length_take in E. simpl in E. lia. }
  f_equal. rewrite app_assoc. f_equal; [|f_equal; lia].
  rewrite <-(take_drop HeaderSize (take n raw)) at 2. by rewrite take_take, Nat.min_l by lia.
Qed.

Lemma read_no_payload fin n : (n ≤ HeaderSize)%nat → (n < length raw)%nat → read_ended fin (take n raw) = None.
Proof.
  intros Hn Hlt. destruct cut_length as [Hlen Hp]. unfold read_ended, read_full.
  rewrite length_take, Nat.min_l by lia. destruct (decide (n = HeaderSize)) as [->|Hne].
  - rewrite bool_decide_eq_true_2 by done. rewrite take_take, Nat.min_id, Hp, length_drop, length_take.
    rewrite bool_decide_eq_false_2 by lia.
    rewrite (drop_ge (take _ raw)) by (rewrite length_take; lia). by destruct fin.
  - rewrite bool_decide_eq_false_2 by lia. destruct fin; [|done]. by case_bool_decide.
Qed.
End Cut.

(** C18: a tunnel carries packets unchanged.  A packet that holds user packets of
    less than 64 KiB in all, with the length field that belongs to them, is
    serialized and its bytes are written to a stream.  When all of them
    arrive, whatever way the stream ends afterwards, the handler of the next
    node is called with exactly these bytes.  When the stream ends within the
    payload, the handler is called only if the stream was closed, and then with
    the missing bytes replaced by zeros; when the stream was reset or lost it is
    not called; and it is never called when the stream ends before the first
    byte of the payload. *)
Theorem stream_carries_packet p subs p' :
  holds p subs → sized p subs → Z.of_nat (length (encode subs)) < 2 ^ 16 → SerializeHead p = Ret p' →
  let raw := wire p' in
  (∀ fin, read_ended fin raw = Some raw) ∧
  (∀ n, (HeaderSize < n < length raw)%nat →
     read_ended true (take n raw) = Some (take n raw ++ repeat 0 (length raw - n)) ∧
     read_ended false (take n raw) = None) ∧
  (∀ fin n, (n ≤ HeaderSize)%nat → (n < length raw)%nat → read_ended fin (take n raw) = None).
Proof.
  intros Hh Hz Hlen E raw.
  assert (arriving raw p subs) as Ha.
  { destruct (SerializeHead_frame p subs Hh Hz Hlen) as (p1 & E1 & Hf & _).
    rewrite E in E1. injection E1 as <-. split; [exact Hf|by eapply holds_header_ok|by eapply holds_sub_ok|].
    rewrite Hz. apply Z.mod_small. lia. }
  split; [intros fin; by eapply read_whole|]. split; [intros n; by eapply read_cut|].
  intros fin n. by eapply read_no_payload.
Qed.

(** ** Instances of the theorems *)
Definition one_tunnel : tunnel_state :=
  {| t_mgr := {| tunnels := {[tunnel_addr 7 := 0%nat]}; quic_conns := {[0%nat := (tunnel_addr 7, true)]};
                 next_conn := 1 |};
     t_senders := {[0%nat := SUsing (tunnel_addr 7) 0]} |}.

Lemma one_tunnel_reachable : rtc tunnel_step tunnel_init one_tunnel.
Proof.
  eapply rtc_l; [apply (ts_send tunnel_init 0 7); apply lookup_empty|].
  eapply rtc_l; [eapply (ts_lookup _ 0 (tunnel_addr 7)); apply lookup_insert_eq|]. cbn. rewrite lookup_empty.
  assert (t_senders one_tunnel = <[0%nat := SUsing (tunnel_addr 7) 0]>
    (<[0%nat := SMissed (tunnel_addr 7)]> (<[0%nat := SLooking (tunnel_addr 7)]> ∅))) as E.
  { cbn. by rewrite !insert_insert_eq. }
  eapply rtc_l; [|apply rtc_refl]. unfold one_tunnel. cbn in E. rewrite E.
  pose proof (ts_create (set_sender 0 (SMissed (tunnel_addr 7))
    (set_sender 0 (SLooking (tunnel_addr 7)) tunnel_init)) 0 (tunnel_addr 7) true (Some 0%nat)) as H.
  apply H; [apply lookup_insert_eq|]. unfold create_tunnel. cbn. by rewrite lookup_empty.
Qed.

Lemma tunnels_one_open_witness :
  ∃ o, quic_conns (t_mgr one_tunnel) !! 0%nat = Some (tunnel_addr 7, o).
Proof.
  destruct (tunnels_one_open one_tunnel one_tunnel_reachable) as (_ & _ & H).
  apply (H 0%nat (SUsing (tunnel_addr 7) 0) (tunnel_addr 7) 0%nat); reflexivity.
Defined.

Lemma stream_carries_packet_witness : ∃ raw, length raw = 32%nat ∧ read_ended false raw = Some raw ∧
  read_ended true (take 30 raw) = Some (take 30 raw ++ [0; 0]) ∧ read_ended false (take 30 raw) = None ∧
  read_ended true (take 22 raw) = None.
Proof.
  destruct filled_packet as (p & Hh & Hz).
  destruct (SerializeHead_frame p [sample_sub] Hh Hz) as (p' & E & Hf & _); [vm_compute; reflexivity|].
  pose proof (frame_length _ _ _ (holds_header_ok _ _ Hh Hz) Hf) as Hlen.
  change (HeaderSize + length (encode [sample_sub]))%nat with 32%nat in Hlen.
  destruct (stream_carries_packet p [sample_sub] p' Hh Hz) as (H1 & H2 & H3); [vm_compute; reflexivity|exact E|].
  exists (wire p'). split; [exact Hlen|]. split; [apply H1|].
  rewrite Hlen in H2, H3. destruct (H2 30%nat) as [H4 H5]; [unfold HeaderSize; lia|].
  split; [exact H4|]. split; [exact H5|]. apply H3; [unfold HeaderSize; lia|lia].
Defined.
