(* ===== verification/QuicListen.v ===== *)
(** * The QUIC listener

    [data-proxy/tunnel-manager/tunnel-listener.go]: the goroutine that accepts
    connections ([ListenAndServeQUIC]), the one of each connection that accepts
    its streams ([handleConn]) and the one of each stream, which reads one packet
    and hands it to the handler while it holds one of the tokens of [streamSem].
    The goroutines interleave, and the bytes of a stream arrive in any pieces:
    [read_stream] of [TunnelMgr] says what becomes of all of them together, and
    this file shows that the goroutines compute it. *)
From S2P Require Import Prelude GoStrings Net Packet Tunnel TunnelMgr.
Local Open Scope Z_scope.

(** ** Tokens *)
Definition tunnelConcurrentLimit : Z := 100.

Definition NewTunnelStreamSem (configured : Z) : nat :=
  Z.to_nat (if bool_decide (configured ≤ 0) then tunnelConcurrentLimit else configured).

(** ** [io.ReadFull] on a stream

    The unread bytes, and whether more can follow: the sender closed the stream,
    or it was reset (or its connection lost). [None]: the call waits. *)
Inductive ending := Flowing | Finished | Reset.

Inductive read_error := EOF | UnexpectedEOF | StreamError.

Definition ReadFull (n : nat) (unread : list Z) (e : ending) : option (list Z * option read_error) :=
  if bool_decide (n ≤ length unread)%nat then Some (take n unread, None)
  else
    match e with
    | Flowing => None
    | Finished => Some (unread, Some (if bool_decide (unread = []) then EOF else UnexpectedEOF))
    | Reset => Some (unread, Some StreamError)
    end.

(** ** The goroutine of a stream *)
Inductive phase :=
| Waiting                      (** accepted; [handleConn] waits for a token *)
| Header                       (** reading the header *)
| Body (headerBuf : list Z)    (** reading the payload *)
| Handling (buf : list Z)      (** about to call the handler *)
| Leaving                      (** about to run the deferred function *)
| Gone.
#[export] Instance phase_eq : EqDecision phase.
Proof. solve_decision. Defined.

Record stream := {
  s_remote : string;
  s_read : list Z;             (** the bytes that were read *)
  s_unread : list Z;           (** the bytes that arrived and were not read yet *)
  s_end : ending;
  s_phase : phase;
  s_given : option (list Z);   (** what the handler was called with *)
}.

Definition new_stream (remote : string) : stream :=
  {| s_remote := remote; s_read := []; s_unread := []; s_end := Flowing; s_phase := Waiting; s_given := None |}.

Definition set_phase (p : phase) (s : stream) : stream :=
  {| s_remote := s_remote s; s_read := s_read s; s_unread := s_unread s; s_end := s_end s;
     s_phase := p; s_given := s_given s |}.

Definition consume (n : nat) (s : stream) : stream :=
  {| s_remote := s_remote s; s_read := s_read s ++ take n (s_unread s); s_unread := drop n (s_unread s);
     s_end := s_end s; s_phase := s_phase s; s_given := s_given s |}.

Definition hand_over (buf : list Z) (s : stream) : stream :=
  {| s_remote := s_remote s; s_read := s_read s; s_unread := s_unread s; s_end := s_end s;
     s_phase := Leaving; s_given := Some buf |}.

(** The two reads; [None] when the read waits. *)
Definition stream_header (s : stream) : option stream :=
  match ReadFull HeaderSize (s_unread s) (s_end s) with
  | None => None
  | Some (headerBuf, None) => Some (set_phase (Body headerBuf) (consume HeaderSize s))
  | Some (_, Some _) => Some (set_phase Leaving (consume HeaderSize s))
  end.

Definition stream_payload (headerBuf : list Z) (s : stream) : option stream :=
  let payloadLen := Z.to_nat (get_be (slice headerBuf 17 19)) in
  match ReadFull payloadLen (s_unread s) (s_end s) with
  | None => None
  | Some (b, None) => Some (set_phase (Handling (headerBuf ++ b)) (consume payloadLen s))
  | Some (b, Some UnexpectedEOF) =>
      Some (set_phase (Handling (headerBuf ++ b ++ repeat 0 (payloadLen - length b)))
              (consume payloadLen s))
  | Some (_, Some _) => Some (set_phase Leaving (consume payloadLen s))
  end.

(** What the network does to a stream. A reset may discard bytes that were not
    read yet. *)
Definition arrive (bs : list Z) (s : stream) : stream :=
  {| s_remote := s_remote s; s_read := s_read s; s_unread := s_unread s ++ bs; s_end := s_end s;
     s_phase := s_phase s; s_given := s_given s |}.

Definition finish_stream (s : stream) : stream :=
  {| s_remote := s_remote s; s_read := s_read s; s_unread := s_unread s; s_end := Finished;
     s_phase := s_phase s; s_given := s_given s |}.

Definition reset (keep : nat) (s : stream) : stream :=
  {| s_remote := s_remote s; s_read := s_read s; s_unread := take keep (s_unread s); s_end := Reset;
     s_phase := s_phase s; s_given := s_given s |}.

(** ** The listener

    A connection is a remote address and the stream that its goroutine has
    accepted and not started yet, if any.  [q_calls] records the calls of the
    handler: the stream, the address and the bytes. *)
Record listener := {
  q_conns : gmap nat (string * option nat);
  q_streams : gmap nat stream;
  streamSem : nat;
  q_calls : list (nat * (string * list Z));
}.

Definition listener_init : listener :=
  {| q_conns := ∅; q_streams := ∅; streamSem := 0; q_calls := [] |}.

(** [ListenAndServeQUIC] returns at once when the address cannot be bound. *)
Definition ListenAndServeQUIC (bound : bool) : option listener :=
  if bound then Some listener_init else None.

Definition on_stream (i : nat) (s : stream) (q : listener) : listener :=
  {| q_conns := q_conns q; q_streams := <[i := s]> (q_streams q); streamSem := streamSem q;
     q_calls := q_calls q |}.

Definition on_conn (c : nat) (x : string * option nat) (q : listener) : listener :=
  {| q_conns := <[c := x]> (q_conns q); q_streams := q_streams q; streamSem := streamSem q;
     q_calls := q_calls q |}.

Definition drop_conn (c : nat) (q : listener) : listener :=
  {| q_conns := delete c (q_conns q); q_streams := q_streams q; streamSem := streamSem q;
     q_calls := q_calls q |}.

Definition set_sem (n : nat) (q : listener) : listener :=
  {| q_conns := q_conns q; q_streams := q_streams q; streamSem := n; q_calls := q_calls q |}.

Definition log_call (x : nat * (string * list Z)) (q : listener) : listener :=
  {| q_conns := q_conns q; q_streams := q_streams q; streamSem := streamSem q; q_calls := q_calls q ++ [x] |}.

Section Listen.
Context (limit : nat) (handler : string → list Z → go unit).

(** One step of a goroutine, or of the network ([Some i]: on stream [i]). A
    panic of the handler is one of the whole program: nothing recovers from it. *)
Inductive quic_step : option nat → listener → go listener → Prop :=
| qs_accept q c remote :                                   (** [ln.Accept] *)
    q_conns q !! c = None →
    quic_step None q (Ret (on_conn c (remote, None) q))
| qs_accept_failed q :                                     (** [continue] *)
    quic_step None q (Ret q)
| qs_stream q c i remote :                                 (** [conn.AcceptUniStream] *)
    q_conns q !! c = Some (remote, None) → q_streams q !! i = None →
    quic_step None q (Ret (on_conn c (remote, Some i) (on_stream i (new_stream remote) q)))
| qs_stream_failed q c remote :                            (** [return]: [conn.CloseWithError] *)
    q_conns q !! c = Some (remote, None) →
    quic_step None q (Ret (drop_conn c q))
| qs_token q c i remote s :                                (** [streamSem <- struct{}{}; go func()] *)
    q_conns q !! c = Some (remote, Some i) → (streamSem q < limit)%nat →
    q_streams q !! i = Some s →
    quic_step None q (Ret (on_conn c (remote, None)
      (on_stream i (set_phase Header s) (set_sem (S (streamSem q)) q))))
| qs_header q i s s' :
    q_streams q !! i = Some s → s_phase s = Header → stream_header s = Some s' →
    quic_step None q (Ret (on_stream i s' q))
| qs_payload q i s headerBuf s' :
    q_streams q !! i = Some s → s_phase s = Body headerBuf → stream_payload headerBuf s = Some s' →
    quic_step None q (Ret (on_stream i s' q))
| qs_handle q i s buf :
    q_streams q !! i = Some s → s_phase s = Handling buf → handler (s_remote s) buf = Ret tt →
    quic_step None q (Ret (log_call (i, (s_remote s, buf)) (on_stream i (hand_over buf s) q)))
| qs_panic q i s buf why :
    q_streams q !! i = Some s → s_phase s = Handling buf → handler (s_remote s) buf = Panic why →
    quic_step None q (Panic why)
| qs_leave q i s :                                         (** [<-streamSem; CancelRead] *)
    q_streams q !! i = Some s → s_phase s = Leaving →
    quic_step None q (Ret (on_stream i (set_phase Gone s) (set_sem (pred (streamSem q)) q)))
| qs_arrive q i s bs :
    q_streams q !! i = Some s → s_end s = Flowing →
    quic_step (Some i) q (Ret (on_stream i (arrive bs s) q))
| qs_finish q i s :
    q_streams q !! i = Some s → s_end s = Flowing →
    quic_step (Some i) q (Ret (on_stream i (finish_stream s) q))
| qs_reset q i s keep :
    q_streams q !! i = Some s → s_end s ≠ Reset →
    quic_step (Some i) q (Ret (on_stream i (reset keep s) q)).

Definition quic_run : relation listener := λ q q', ∃ e, quic_step e q (Ret q').

(** ** The invariant of one stream *)
Ltac stream_cbn :=
  cbn [s_remote s_read s_unread s_end s_phase s_given set_phase consume hand_over arrive finish_stream reset].

Definition s_seen (s : stream) : list Z := s_read s ++ s_unread s.

(** The packet is fixed: more bytes make no difference, or none can come. *)
Definition settled (s : stream) (buf : list Z) : Prop :=
  (∀ ext, read_stream (s_read s ++ ext) = Some buf) ∨
  (read_stream (s_read s) = Some buf ∧ s_unread s = [] ∧ s_end s ≠ Flowing).

Definition failed (s : stream) : Prop :=
  s_end s ≠ Flowing ∧ (s_end s = Finished → read_stream (s_seen s) = None).

Definition stream_ok (s : stream) : Prop :=
  match s_phase s with
  | Waiting | Header => s_read s = [] ∧ s_given s = None
  | Body headerBuf => s_read s = headerBuf ∧ length headerBuf = HeaderSize ∧ s_given s = None
  | Handling buf => s_given s = None ∧ settled s buf
  | Leaving | Gone => match s_given s with Some buf => settled s buf | None => failed s end
  end.

Lemma settled_seen s buf : settled s buf → read_stream (s_seen s) = Some buf.
Proof. unfold s_seen. intros [H|(H & -> & _)]; [apply H|by rewrite app_nil_r]. Qed.

Lemma given_settled s buf : stream_ok s → s_given s = Some buf → settled s buf.
Proof.
  unfold stream_ok. intros Hs Hg. rewrite Hg in Hs. destruct (s_phase s); try exact Hs; by destruct_and? Hs.
Qed.

Lemma consume_seen n s : s_seen (consume n s) = s_seen s.
Proof. unfold s_seen, consume. stream_cbn. by rewrite <-app_assoc, take_drop. Qed.

(** [read_stream] on a header followed by what there is of the payload. *)
Lemma read_stream_full h b ext : length h = HeaderSize →
  length b = Z.to_nat (get_be (slice h 17 19)) → read_stream (h ++ b ++ ext) = Some (h ++ b).
Proof.
  intros Hh Hb. rewrite read_stream_eq. cbv zeta. rewrite bool_decide_eq_false_2 by (rewrite length_app; lia).
  rewrite take_app_length', drop_app_length' by done. rewrite <-Hb.
  rewrite bool_decide_eq_true_2 by (rewrite length_app; lia). by rewrite take_app_length.
Qed.

Lemma read_stream_short h b : length h = HeaderSize →
  (length b < Z.to_nat (get_be (slice h 17 19)))%nat →
  read_stream (h ++ b) =
    if bool_decide (b = []) then None
    else Some (h ++ b ++ repeat 0 (Z.to_nat (get_be (slice h 17 19)) - length b)).
Proof.
  intros Hh Hb. rewrite read_stream_eq. cbv zeta. rewrite bool_decide_eq_false_2 by (rewrite length_app; lia).
  rewrite take_app_length', drop_app_length' by done.
  rewrite bool_decide_eq_false_2 by lia. done.
Qed.

Lemma read_stream_no_header s : (length s < HeaderSize)%nat → read_stream s = None.
Proof. intros H. rewrite read_stream_eq. by rewrite bool_decide_eq_true_2. Qed.

Lemma stream_header_ok s s' : stream_ok s → s_phase s = Header → stream_header s = Some s' → stream_ok s'.
Proof.
  unfold stream_ok at 1. intros Hok Hp. rewrite Hp in Hok. destruct Hok as [Hr Hg].
  unfold stream_header, ReadFull. case_bool_decide as Hl.
  - intros [= <-]. unfold stream_ok. stream_cbn. rewrite Hr, length_take. split_and!; [done|lia|done].
  - intros H. assert (s' = set_phase Leaving (consume HeaderSize s)) as ->.
    { destruct (s_end s); congruence. }
    unfold stream_ok. stream_cbn. rewrite Hg. split; stream_cbn; [by destruct (s_end s)|]. intros _.
    change (s_seen _) with (s_seen (consume HeaderSize s)). rewrite consume_seen.
    apply read_stream_no_header. unfold s_seen. rewrite Hr, app_nil_l. lia.
Qed.

Lemma stream_payload_ok h s s' : stream_ok s → s_phase s = Body h → stream_payload h s = Some s' → stream_ok s'.
Proof.
  unfold stream_ok at 1. intros Hok Hp. rewrite Hp in Hok. destruct Hok as (Hr & Hh & Hg).
  unfold stream_payload, ReadFull. set (n := Z.to_nat _). case_bool_decide as Hl.
  - intros [= <-]. unfold stream_ok. stream_cbn. split; [done|]. left. stream_cbn. intros ext. rewrite Hr, <-app_assoc.
    apply read_stream_full; [done|]. rewrite length_take. fold n. lia.
  - pose proof (read_stream_short h (s_unread s) Hh ltac:(fold n; lia)) as Hs. fold n in Hs.
    assert (s_seen (consume n s) = h ++ s_unread s) as Hseen by (rewrite consume_seen; unfold s_seen; by rewrite Hr).
    destruct (s_end s) eqn:He; [done| |].
    + case_bool_decide as Hu; intros [= <-]; unfold stream_ok; stream_cbn.
      * rewrite Hg. split; stream_cbn; [by rewrite He|]. intros _.
        change (s_seen _) with (s_seen (consume n s)). by rewrite Hseen.
      * split; [done|]. right. stream_cbn. rewrite take_ge, drop_ge by lia. by rewrite Hr, He.
    + intros [= <-]. unfold stream_ok; stream_cbn. rewrite Hg. split; stream_cbn; by rewrite He.
Qed.

Lemma settled_arrive s bs buf : s_end s = Flowing → settled s buf → settled (arrive bs s) buf.
Proof. intros He [H|(_ & _ & H)]; [by left|done]. Qed.

Lemma settled_end s s' buf : s_read s' = s_read s → s_end s' ≠ Flowing → (s_unread s = [] → s_unread s' = []) →
  settled s buf → settled s' buf.
Proof. intros Hr He Hu [H|(H1 & H2 & _)]; [left|right]; rewrite Hr; auto. Qed.

(** The events of the network keep the invariant. *)
Lemma arrive_ok s bs : s_end s = Flowing → stream_ok s → stream_ok (arrive bs s).
Proof.
  intros He. unfold stream_ok, arrive. stream_cbn. destruct (s_phase s); [done|done|done| | |].
  1: intros [? ?]; split; [done|by apply settled_arrive].
  all: destruct (s_given s); [by apply settled_arrive|]; intros [? _]; done.
Qed.

Lemma end_ok s s' : s_read s' = s_read s → s_phase s' = s_phase s → s_given s' = s_given s →
  s_end s' ≠ Flowing → (s_unread s = [] → s_unread s' = []) → (s_end s ≠ Flowing → s_end s' = Reset) →
  stream_ok s → stream_ok s'.
Proof.
  intros Hr Hp Hg He Hu Hx. unfold stream_ok. rewrite Hp, Hr, Hg. destruct (s_phase s); [done|done|done| | |].
  1: intros [? ?]; split; [done|by eapply settled_end].
  all: destruct (s_given s); [by eapply settled_end|]; intros [Hf _]; split; [done|];
    intros Hfin; specialize (Hx Hf); congruence.
Qed.

(** ** The tokens *)
Definition holds (s : stream) : bool :=
  match s_phase s with Waiting | Gone => false | _ => true end.

Definition tokens (m : gmap nat stream) : nat := size (filter (λ x, holds x.2 = true) m).

Lemma tokens_fresh m i s : m !! i = None → tokens (<[i := s]> m) = (Nat.b2n (holds s) + tokens m)%nat.
Proof.
  intros Hi. unfold tokens. destruct (holds s) eqn:Hs.
  - rewrite map_filter_insert_True by done. rewrite map_size_insert_None; [done|].
    apply map_lookup_filter_None. by left.
  - rewrite map_filter_insert_False by (cbn; congruence). by rewrite delete_id.
Qed.

Lemma tokens_update m i s s' : m !! i = Some s →
  (tokens (<[i := s']> m) + Nat.b2n (holds s) = tokens m + Nat.b2n (holds s'))%nat.
Proof.
  intros Hi. rewrite <-(insert_delete_id m i s Hi) at 2. rewrite <-(insert_delete_eq m i s').
  rewrite !tokens_fresh by apply lookup_delete_eq. lia.
Qed.

Lemma tokens_pos m i s : m !! i = Some s → holds s = true → (0 < tokens m)%nat.
Proof.
  intros Hi Hs. rewrite <-(insert_delete_id m i s Hi), tokens_fresh by apply lookup_delete_eq.
  rewrite Hs. simpl. lia.
Qed.

(** ** The invariant of the listener *)
Record listener_ok (q : listener) : Prop := {
  lo_stream i s : q_streams q !! i = Some s → stream_ok s;
  lo_conn c remote i : q_conns q !! c = Some (remote, Some i) →
    ∃ s, q_streams q !! i = Some s ∧ s_phase s = Waiting ∧ s_remote s = remote;
  lo_waiting i s : q_streams q !! i = Some s → s_phase s = Waiting →
    ∃ c, q_conns q !! c = Some (s_remote s, Some i);
  lo_own c1 c2 r1 r2 i : q_conns q !! c1 = Some (r1, Some i) → q_conns q !! c2 = Some (r2, Some i) → c1 = c2;
  lo_sem : streamSem q = tokens (q_streams q);
  lo_limit : (streamSem q ≤ limit)%nat;
  lo_once : NoDup (q_calls q).*1;
  lo_calls i remote buf : (i, (remote, buf)) ∈ q_calls q ↔
    ∃ s, q_streams q !! i = Some s ∧ s_remote s = remote ∧ s_given s = Some buf;
}.

Lemma listener_ok_init : listener_ok listener_init.
Proof.
  split; cbn; try done; try lia; try (intros; by simplify_map_eq).
  - constructor.
  - intros i r b. split; [by intros ?%not_elem_of_nil|]. intros (s & H & _). by simplify_map_eq.
Qed.

Lemma calls_update (m : gmap nat stream) i s s' j remote buf : m !! i = Some s →
  s_remote s' = s_remote s → s_given s' = s_given s →
  (∃ t, m !! j = Some t ∧ s_remote t = remote ∧ s_given t = Some buf) ↔
  (∃ t, <[i := s']> m !! j = Some t ∧ s_remote t = remote ∧ s_given t = Some buf).
Proof.
  intros Hi Hr Hg. destruct (decide (i = j)) as [<-|Hne]; [|by rewrite lookup_insert_ne].
  rewrite lookup_insert_eq, Hi. split; intros (t & E & H1 & H2); apply Some_inj in E as <-;
    eexists; (split; [done|]); split; congruence.
Qed.

(** A stream that changes neither its token nor its call. *)
Lemma on_stream_ok q i s s' : listener_ok q → q_streams q !! i = Some s → stream_ok s' →
  holds s' = holds s → (s_phase s = Waiting ↔ s_phase s' = Waiting) →
  s_remote s' = s_remote s → s_given s' = s_given s → listener_ok (on_stream i s' q).
Proof.
  intros [A B W C D E F G] Hi Hs Hh Hw Hr Hg. split; cbn; [| | |done| |done|done|].
  - intros j t [[<- <-]|[? ?]]%lookup_insert_Some; [done|by eapply A].
  - intros c remote j Hc. destruct (B c remote j Hc) as (t & Hj & Hp & Ht).
    destruct (decide (i = j)) as [<-|Hne]; [|exists t; by rewrite lookup_insert_ne].
    rewrite Hi in Hj. injection Hj as <-. exists s'. rewrite lookup_insert_eq. split_and!; [done|by apply Hw|congruence].
  - intros j t [[<- <-]|[? Hj]]%lookup_insert_Some Hp; [|by eapply W]. rewrite Hr. apply W; [done|by apply Hw].
  - pose proof (tokens_update (q_streams q) i s s' Hi) as H. rewrite Hh in H. lia.
  - intros j remote buf. rewrite G. by apply calls_update with s.
Qed.

Lemma holds_not_waiting s : holds s = true → s_phase s ≠ Waiting.
Proof. unfold holds. by intros H E; rewrite E in H. Qed.

Lemma network_ok q i s s' : listener_ok q → q_streams q !! i = Some s → stream_ok s' →
  s_phase s' = s_phase s → s_remote s' = s_remote s → s_given s' = s_given s → listener_ok (on_stream i s' q).
Proof.
  intros Hq Hi Hs Hp. apply (on_stream_ok q i s); try done; [|by rewrite Hp]. unfold holds. by rewrite Hp.
Qed.

Lemma stream_header_frame s s' : stream_header s = Some s' →
  s_remote s' = s_remote s ∧ s_given s' = s_given s ∧ holds s' = true ∧ s_end s' = s_end s.
Proof. unfold stream_header. by destruct (ReadFull _ _ _) as [[? [|]]|]; intros [= <-]. Qed.

Lemma stream_payload_frame h s s' : stream_payload h s = Some s' →
  s_remote s' = s_remote s ∧ s_given s' = s_given s ∧ holds s' = true ∧ s_end s' = s_end s.
Proof. unfold stream_payload. by destruct (ReadFull _ _ _) as [[? [[]|]]|]; intros [= <-]. Qed.

Lemma accept_stream_ok q c i remote : listener_ok q → q_conns q !! c = Some (remote, None) →
  q_streams q !! i = None →
  listener_ok (on_conn c (remote, Some i) (on_stream i (new_stream remote) q)).
Proof.
  intros [A B W C D E F G] Hc Hi. split; cbn; [| | | | |done|done|].
  - intros j t [[<- <-]|[? ?]]%lookup_insert_Some; [done|by eapply A].
  - intros c' r j [[<- [= <- <-]]|[? Hc']]%lookup_insert_Some.
    + exists (new_stream remote). by rewrite lookup_insert_eq.
    + destruct (B c' r j Hc') as (t & Hj & ?). exists t. rewrite lookup_insert_ne by congruence. done.
  - intros j t [[<- <-]|[? Hj]]%lookup_insert_Some Hp; [exists c; by rewrite lookup_insert_eq|].
    destruct (W j t Hj Hp) as [c' Hc']. exists c'. rewrite lookup_insert_ne; [done|]. intros <-. congruence.
  - intros c1 c2 r1 r2 j [[<- [= <- <-]]|[? H1]]%lookup_insert_Some [[<- ?]|[? H2]]%lookup_insert_Some; try done.
    + destruct (B c2 r2 i H2) as (t & Hj & _). congruence.
    + destruct (B c1 r1 j H1) as (t & Hj & _). congruence.
    + by eapply C.
  - rewrite tokens_fresh by done. done.
  - intros j r buf. rewrite G. destruct (decide (i = j)) as [<-|Hne]; [|by rewrite lookup_insert_ne].
    rewrite lookup_insert_eq, Hi. split; intros (t & [= <-] & _ & [=]).
Qed.

Lemma take_token_ok q c i remote s : listener_ok q → q_conns q !! c = Some (remote, Some i) →
  (streamSem q < limit)%nat → q_streams q !! i = Some s →
  listener_ok (on_conn c (remote, None) (on_stream i (set_phase Header s) (set_sem (S (streamSem q)) q))).
Proof.
  intros [A B W C D E F G] Hc Hl Hi. destruct (B c remote i Hc) as (t & Hj & Hp & Hr).
  rewrite Hi in Hj. injection Hj as <-. pose proof (A i s Hi) as Hs. unfold stream_ok in Hs. rewrite Hp in Hs.
  split; cbn; [| | | | |lia|done|].
  - intros j u [[<- <-]|[? ?]]%lookup_insert_Some; [done|by eapply A].
  - intros c' r j [[<- [=]]|[Hcc Hc']]%lookup_insert_Some.
    destruct (B c' r j Hc') as (u & Hj & ?). exists u. rewrite lookup_insert_ne; [done|].
    intros <-. apply Hcc. by eapply C.
  - intros j u [[<- <-]|[? Hj]]%lookup_insert_Some Hw; [done|]. destruct (W j u Hj Hw) as [c' Hc'].
    exists c'. rewrite lookup_insert_ne; [done|]. intros <-. congruence.
  - intros c1 c2 r1 r2 j [[<- [=]]|[? H1]]%lookup_insert_Some [[<- [=]]|[? H2]]%lookup_insert_Some. by eapply C.
  - pose proof (tokens_update (q_streams q) i s (set_phase Header s) Hi) as H.
    unfold holds in H. rewrite Hp in H. cbn in H. lia.
  - intros j r buf. rewrite G. by apply calls_update with s.
Qed.

Lemma handle_ok q i s buf : listener_ok q → q_streams q !! i = Some s → s_phase s = Handling buf →
  listener_ok (log_call (i, (s_remote s, buf)) (on_stream i (hand_over buf s) q)).
Proof.
  intros [A B W C D E F G] Hi Hp. pose proof (A i s Hi) as Hs. unfold stream_ok in Hs. rewrite Hp in Hs.
  destruct Hs as [Hg Hs]. split; cbn; [| | |done| |done| |].
  - intros j u [[<- <-]|[? ?]]%lookup_insert_Some; [done|by eapply A].
  - intros c r j Hc. destruct (B c r j Hc) as (u & Hj & Hu & Hr). exists u. rewrite lookup_insert_ne; [done|].
    intros <-. rewrite Hi in Hj. injection Hj as <-. congruence.
  - intros j u [[<- <-]|[? Hj]]%lookup_insert_Some Hw; [done|by eapply W].
  - pose proof (tokens_update (q_streams q) i s (hand_over buf s) Hi) as H.
    unfold holds in H. rewrite Hp in H. cbn in H. lia.
  - rewrite fmap_app. cbn. apply NoDup_app. split; [done|]. split; [|apply NoDup_singleton].
    intros j ((j' & r & b) & Ej & Hj)%list_elem_of_fmap Hj'%list_elem_of_singleton. cbn in Ej. subst j j'.
    apply G in Hj as (u & Hu & _ & Hb). congruence.
  - intros j r b. rewrite elem_of_app, list_elem_of_singleton, G. destruct (decide (i = j)) as [<-|Hne].
    + rewrite lookup_insert_eq, Hi. split.
      * intros [(u & [= <-] & H1 & H2)|[= -> ->]]; [congruence|]. eexists. done.
      * intros (u & [= <-] & <- & [= <-]). by right.
    + rewrite lookup_insert_ne by done. split; [intros [?|[= ? _ _]]; [done|congruence]|by left].
Qed.

Lemma leave_ok q i s : listener_ok q → q_streams q !! i = Some s → s_phase s = Leaving →
  listener_ok (on_stream i (set_phase Gone s) (set_sem (pred (streamSem q)) q)).
Proof.
  intros [A B W C D E F G] Hi Hp. pose proof (A i s Hi) as Hs. unfold stream_ok in Hs. rewrite Hp in Hs.
  split; cbn; [| | |done| |lia|done|].
  - intros j u [[<- <-]|[? ?]]%lookup_insert_Some; [done|by eapply A].
  - intros c r j Hc. destruct (B c r j Hc) as (u & Hj & Hu & Hr). exists u. rewrite lookup_insert_ne; [done|].
    intros <-. rewrite Hi in Hj. injection Hj as <-. congruence.
  - intros j u [[<- <-]|[? Hj]]%lookup_insert_Some Hw; [done|by eapply W].
  - pose proof (tokens_update (q_streams q) i s (set_phase Gone s) Hi) as H.
    unfold holds in H. rewrite Hp in H. cbn in H. lia.
  - intros j r buf. rewrite G. by apply calls_update with s.
Qed.

Lemma conn_ok q c remote : listener_ok q →
  (q_conns q !! c = Some (remote, None) → listener_ok (drop_conn c q)) ∧
  (q_conns q !! c = None → listener_ok (on_conn c (remote, None) q)).
Proof.
  intros [A B W C D E F G]. split; intros Hc; split; cbn; try done.
  - intros c' r i [? Hc']%lookup_delete_Some. by eapply B.
  - intros i s Hi Hw. destruct (W i s Hi Hw) as [c' Hc']. exists c'. rewrite lookup_delete_ne; [done|].
    intros <-. congruence.
  - intros c1 c2 r1 r2 i [? H1]%lookup_delete_Some [? H2]%lookup_delete_Some. by eapply C.
  - intros c' r i [[<- [=]]|[? Hc']]%lookup_insert_Some. by eapply B.
  - intros i s Hi Hw. destruct (W i s Hi Hw) as [c' Hc']. exists c'. rewrite lookup_insert_ne; [done|].
    intros <-. congruence.
  - intros c1 c2 r1 r2 i [[<- [=]]|[? H1]]%lookup_insert_Some [[<- [=]]|[? H2]]%lookup_insert_Some. by eapply C.
Qed.

Lemma quic_step_ok e q q' : listener_ok q → quic_step e q (Ret q') → listener_ok q'.
Proof.
  intros Hq Hs. remember (Ret q') as r eqn:Er.
  destruct Hs as [q c remote Hc|q|q c i remote Hc Hi|q c remote Hc|q c i remote s Hc Hl Hi|q i s s' Hi Hp Hx
    |q i s h s' Hi Hp Hx|q i s buf Hi Hp _|q i s buf why|q i s Hi Hp|q i s bs Hi He|q i s Hi He|q i s keep Hi He];
    (discriminate Er || injection Er as <-); try pose proof (lo_stream q Hq i s Hi) as Hok.
  - by apply conn_ok.
  - done.
  - by apply accept_stream_ok.
  - by apply (conn_ok q c remote).
  - by apply take_token_ok.
  - destruct (stream_header_frame s s' Hx) as (R & G & H & _). apply (on_stream_ok q i s); try done.
    + by eapply stream_header_ok.
    + unfold holds at 2. by rewrite Hp.
    + apply holds_not_waiting in H. by rewrite Hp.
  - destruct (stream_payload_frame h s s' Hx) as (R & G & H & _). apply (on_stream_ok q i s); try done.
    + by eapply stream_payload_ok.
    + unfold holds at 2. by rewrite Hp.
    + apply holds_not_waiting in H. by rewrite Hp.
  - by apply handle_ok.
  - by apply leave_ok.
  - apply (network_ok q i s); try done. by apply arrive_ok.
  - apply (network_ok q i s); try done. by apply (end_ok s).
  - apply (network_ok q i s); try done. apply (end_ok s); try done. cbn. intros ->. by rewrite take_nil.
Qed.

Lemma quic_reachable q : rtc quic_run listener_init q → listener_ok q.
Proof.
  intros Hr. assert (∀ q0, rtc quic_run q0 q → listener_ok q0 → listener_ok q) as H.
  { induction 1 as [|q0 q1 q2 [e Hs] _ IH]; [done|]. intros H0. by eapply IH, quic_step_ok. }
  apply (H listener_init Hr), listener_ok_init.
Qed.

(** ** What the handler is called with *)
Lemma handled_packet q i s : listener_ok q → q_streams q !! i = Some s → s_phase s = Gone → s_end s ≠ Reset →
  ∀ buf, (i, (s_remote s, buf)) ∈ q_calls q ↔ read_stream (s_seen s) = Some buf.
Proof.
  intros Hq Hi Hp He buf. rewrite (lo_calls q Hq). pose proof (lo_stream q Hq i s Hi) as Hs.
  unfold stream_ok in Hs. rewrite Hp in Hs. split.
  - intros (t & Ht & _ & Hg). rewrite Hi in Ht. injection Ht as <-. rewrite Hg in Hs. by apply settled_seen.
  - intros Hb. exists s. split_and!; [done|done|]. destruct (s_given s) as [b|].
    + apply settled_seen in Hs. congruence.
    + destruct Hs as [H1 H2]. destruct (s_end s); [done| |done]. by rewrite H2 in Hb.
Qed.

Lemma no_holders_sem q : listener_ok q → (∀ i s, q_streams q !! i = Some s → holds s = false) →
  streamSem q = 0%nat.
Proof.
  intros Hq Hno. rewrite (lo_sem _ Hq). unfold tokens. rewrite map_size_empty_iff, map_empty. intros j.
  apply map_lookup_filter_None. right. intros t Hj. cbn. by rewrite (Hno j t Hj).
Qed.

Lemma quic_listener_safe q : rtc quic_run listener_init q →
  (tokens (q_streams q) ≤ limit)%nat ∧ streamSem q = tokens (q_streams q) ∧
  NoDup (q_calls q).*1 ∧
  (∀ i remote buf, (i, (remote, buf)) ∈ q_calls q → ∃ s, q_streams q !! i = Some s ∧
     s_remote s = remote ∧ read_stream (s_seen s) = Some buf) ∧
  (∀ i s, q_streams q !! i = Some s → s_phase s = Gone → s_end s ≠ Reset →
     ∀ buf, (i, (s_remote s, buf)) ∈ q_calls q ↔ read_stream (s_seen s) = Some buf).
Proof.
  intros Hq%quic_reachable. pose proof Hq as [A B W C D E F G]. split_and!; [by rewrite <-D|done|done| |].
  - intros i remote buf (s & Hi & Hr & Hg)%G. exists s. split_and!; [done|done|].
    by apply settled_seen, given_settled; [apply (A i)|].
  - intros i s. by apply handled_packet.
Qed.

(** ** Streams finish_stream *)
Definition own_step : relation listener := λ q q', quic_step None q (Ret q').

Definition ended (q : listener) : Prop := ∀ i s, q_streams q !! i = Some s → s_end s ≠ Flowing.

Lemma own_ok q q' : rtc own_step q q' → listener_ok q → listener_ok q'.
Proof. induction 1 as [|q q1 q2 Hs _ IH]; [done|]. intros H. by eapply IH, quic_step_ok. Qed.

Definition finishes (q : listener) (i : nat) : Prop :=
  ∃ q' s', rtc own_step q q' ∧ q_streams q' = <[i := s']> (q_streams q) ∧ s_phase s' = Gone ∧ s_end s' ≠ Flowing.

Lemma finishes_step q q1 i s1 : own_step q q1 → q_streams q1 = <[i := s1]> (q_streams q) →
  finishes q1 i → finishes q i.
Proof.
  intros Hs E (q' & s' & Hr & E' & Hg & He). exists q', s'. split_and!; [by eapply rtc_l| |done|done].
  by rewrite E', E, insert_insert_eq.
Qed.

Lemma ReadFull_ended n l e : e ≠ Flowing → is_Some (ReadFull n l e).
Proof. intros He. unfold ReadFull. case_bool_decide; [by eexists|]. destruct e; [done|by eexists|by eexists]. Qed.

Section Finish.
Hypothesis handler_returns : ∀ remote buf, handler remote buf = Ret tt.

Lemma leaving_finishes q i s : q_streams q !! i = Some s → s_phase s = Leaving → s_end s ≠ Flowing → finishes q i.
Proof.
  intros Hi Hp He. do 2 eexists. split; [eapply rtc_l; [by apply qs_leave with (i := i)|apply rtc_refl]|]. done.
Qed.

Lemma handling_finishes q i s buf : q_streams q !! i = Some s → s_phase s = Handling buf → s_end s ≠ Flowing →
  finishes q i.
Proof.
  intros Hi Hp He. eapply finishes_step; [by eapply qs_handle|reflexivity|].
  eapply (leaving_finishes _ i (hand_over buf s)); [apply lookup_insert_eq|done|done].
Qed.

Lemma body_finishes q i s h : q_streams q !! i = Some s → s_phase s = Body h → s_end s ≠ Flowing → finishes q i.
Proof.
  intros Hi Hp He. destruct (stream_payload h s) as [s'|] eqn:Hx.
  - destruct (stream_payload_frame h s s' Hx) as (_ & _ & _ & He').
    eapply finishes_step; [by eapply qs_payload|reflexivity|]. rewrite <-He' in He.
    unfold stream_payload in Hx. destruct (ReadFull _ _ _) as [[b [[]|]]|]; [| | | |done];
      injection Hx as <-;
      first [eapply leaving_finishes; [apply lookup_insert_eq|done|done]
            |eapply handling_finishes; [apply lookup_insert_eq|done|done]].
  - exfalso. unfold stream_payload in Hx.
    destruct (ReadFull_ended (Z.to_nat (get_be (slice h 17 19))) (s_unread s) _ He) as [[b [[]|]] Hy];
      by rewrite Hy in Hx.
Qed.

Lemma header_finishes q i s : q_streams q !! i = Some s → s_phase s = Header → s_end s ≠ Flowing → finishes q i.
Proof.
  intros Hi Hp He. destruct (stream_header s) as [s'|] eqn:Hx.
  - destruct (stream_header_frame s s' Hx) as (_ & _ & _ & He').
    eapply finishes_step; [by eapply qs_header|reflexivity|]. rewrite <-He' in He.
    unfold stream_header in Hx. destruct (ReadFull _ _ _) as [[b [|]]|]; [| |done]; injection Hx as <-;
      [eapply leaving_finishes|eapply body_finishes]; (apply lookup_insert_eq || done).
  - exfalso. unfold stream_header in Hx.
    destruct (ReadFull_ended HeaderSize (s_unread s) _ He) as [[b [|]] Hy]; by rewrite Hy in Hx.
Qed.

Lemma holder_finishes q i s : q_streams q !! i = Some s → holds s = true → s_end s ≠ Flowing → finishes q i.
Proof.
  intros Hi Hh He. destruct (s_phase s) as [| |h|buf| |] eqn:Hp; try (unfold holds in Hh; by rewrite Hp in Hh).
  - by eapply header_finishes.
  - by eapply body_finishes.
  - by eapply handling_finishes.
  - by eapply leaving_finishes.
Qed.

Lemma waiting_finishes q i s : (0 < limit)%nat → listener_ok q → q_streams q !! i = Some s → s_phase s = Waiting →
  streamSem q = 0%nat → s_end s ≠ Flowing → finishes q i.
Proof.
  intros Hl Hq Hi Hp Hz He. destruct (lo_waiting q Hq i s Hi Hp) as [c Hc].
  eapply finishes_step; [eapply qs_token; [exact Hc|lia|exact Hi]|reflexivity|].
  eapply header_finishes; [apply lookup_insert_eq|done|done].
Qed.

(** One stream done, the others as they were. *)
Lemma finishes_ok q i : listener_ok q → ended q → finishes q i →
  ∃ q' s', rtc own_step q q' ∧ listener_ok q' ∧ ended q' ∧ q_streams q' = <[i := s']> (q_streams q) ∧
    s_phase s' = Gone.
Proof.
  intros Hq Hen (q' & s' & Hr & E & Hg & He). exists q', s'. split_and!; [done|by eapply own_ok| |done|done].
  intros j t. rewrite E. intros [[<- <-]|[_ Hj]]%lookup_insert_Some; [done|by eapply Hen].
Qed.

Lemma drain_holders (l : list nat) q : listener_ok q → ended q →
  ∃ q', rtc own_step q q' ∧ listener_ok q' ∧ ended q' ∧
    (∀ i s, i ∈ l → q_streams q' !! i = Some s → holds s = false) ∧
    (∀ i s, q_streams q' !! i = Some s → q_streams q !! i = Some s ∨ holds s = false).
Proof.
  revert q. induction l as [|i l IH]; intros q Hq Hen.
  { exists q. split_and!; [done|done|done|by intros ? ? ?%not_elem_of_nil|by left]. }
  destruct (IH q Hq Hen) as (q1 & Hr & Hq1 & Hen1 & Hl & Hk).
  destruct (q_streams q1 !! i) as [s|] eqn:Hi; [destruct (holds s) eqn:Hh|].
  - destruct (finishes_ok q1 i Hq1 Hen1 (holder_finishes q1 i s Hi Hh (Hen1 i s Hi)))
      as (q2 & s' & Hr2 & Hq2 & Hen2 & E & Hg).
    assert (holds s' = false) as Hs' by (unfold holds; by rewrite Hg).
    exists q2. split_and!; [by etrans|done|done| |]; intros j t.
    + intros Hj. rewrite E. intros [[<- <-]|[Hne Hjt]]%lookup_insert_Some; [done|].
      apply elem_of_cons in Hj as [->|Hj]; [done|by eapply Hl].
    + rewrite E. intros [[<- <-]|[Hne Hjt]]%lookup_insert_Some; [by right|by apply Hk].
  - exists q1. split_and!; try done. intros j t [->|Hj]%elem_of_cons Hjt; [congruence|by eapply Hl].
  - exists q1. split_and!; try done. intros j t [->|Hj]%elem_of_cons Hjt; [congruence|by eapply Hl].
Qed.

Lemma drain_waiting (l : list nat) q : (0 < limit)%nat → listener_ok q → ended q →
  (∀ i s, q_streams q !! i = Some s → holds s = false) →
  ∃ q', rtc own_step q q' ∧ listener_ok q' ∧ dom (q_streams q') = dom (q_streams q) ∧ ended q' ∧
    (∀ i s, q_streams q' !! i = Some s → holds s = false) ∧
    (∀ i s, i ∈ l → q_streams q' !! i = Some s → s_phase s = Gone).
Proof.
  intros Hl. revert q. induction l as [|i l IH]; intros q Hq Hen Hno.
  { exists q. split_and!; [done|done|done|done|done|by intros ? ? ?%not_elem_of_nil]. }
  destruct (IH q Hq Hen Hno) as (q1 & Hr & Hq1 & Hd & Hen1 & Hno1 & Hl1).
  destruct (q_streams q1 !! i) as [s|] eqn:Hi.
  2: { exists q1. split_and!; try done. intros j t [->|Hj]%elem_of_cons Hjt; [congruence|by eapply Hl1]. }
  destruct (decide (s_phase s = Waiting)) as [Hp|Hp].
  - pose proof (no_holders_sem q1 Hq1 Hno1) as Hz.
    destruct (finishes_ok q1 i Hq1 Hen1 (waiting_finishes q1 i s Hl Hq1 Hi Hp Hz (Hen1 i s Hi)))
      as (q2 & s' & Hr2 & Hq2 & Hen2 & E & Hg).
    exists q2. split_and!; [by etrans|done| |done| |].
    + rewrite E, dom_insert_L, <-Hd. apply elem_of_dom_2 in Hi. by apply subseteq_union_1_L, singleton_subseteq_l.
    + intros j t. rewrite E. intros [[<- <-]|[_ Hj]]%lookup_insert_Some; [unfold holds; by rewrite Hg|by eapply Hno1].
    + intros j t Hj. rewrite E. intros [[<- <-]|[Hne Hjt]]%lookup_insert_Some; [done|].
      apply elem_of_cons in Hj as [->|Hj]; [done|by eapply Hl1].
  - exists q1. split_and!; try done. intros j t [->|Hj]%elem_of_cons Hjt; [|by eapply Hl1].
    rewrite Hi in Hjt. injection Hjt as <-. pose proof (Hno1 i s Hi) as Hh. unfold holds in Hh. by destruct (s_phase s).
Qed.

Lemma quic_listener_drains q : (0 < limit)%nat → rtc quic_run listener_init q → ended q →
  ∃ q', rtc own_step q q' ∧ streamSem q' = 0%nat ∧
    (∀ i s, q_streams q' !! i = Some s → s_phase s = Gone) ∧
    (∀ i s, q_streams q' !! i = Some s → s_end s ≠ Reset →
       ∀ buf, (i, (s_remote s, buf)) ∈ q_calls q' ↔ read_stream (s_seen s) = Some buf).
Proof.
  intros Hl Hr Hen. pose proof (quic_reachable q Hr) as Hq.
  destruct (drain_holders (elements (dom (q_streams q))) q Hq Hen) as (q1 & Hr1 & Hq1 & Hen1 & H1 & H1').
  assert (∀ i s, q_streams q1 !! i = Some s → holds s = false) as Hno.
  { intros i s Hi. destruct (H1' i s Hi) as [Hi'|]; [|done].
    eapply H1; [apply elem_of_elements, elem_of_dom; by exists s|done]. }
  destruct (drain_waiting (elements (dom (q_streams q1))) q1 Hl Hq1 Hen1 Hno) as (q2 & Hr2 & Hq2 & Hd & _ & Hno2 & H2).
  assert (∀ i s, q_streams q2 !! i = Some s → s_phase s = Gone) as Hgone.
  { intros i s Hi. eapply H2; [|done]. apply elem_of_elements. rewrite <-Hd. by apply elem_of_dom_2 in Hi. }
  exists q2. split_and!; [by etrans|by apply no_holders_sem|done|].
  intros i s Hi He. apply handled_packet; [done|done|by apply (Hgone i)|done].
Qed.
End Finish.

(** C19: the QUIC listener hands every packet to the handler once. In every state
    that the goroutines and the network can reach, however they interleave and
    in whatever pieces the bytes arrive: at most [limit] streams are being read
    or handled, each with one token; the handler is called at most once for each
    stream, with the address of its connection and exactly the packet that
    [read_stream] finds in the bytes of the stream; and for a stream that is done
    and was not reset the handler was called if and only if there is such a
    packet. There is no deadlock: when the senders have ended their streams
    (closed, reset or lost) and the handler returns, the goroutines of the
    listener alone can bring every accepted stream to its end, those that wait
    for a token included, and give every token back. *)
Theorem quic_listener_correct q : rtc quic_run listener_init q →
  ((tokens (q_streams q) ≤ limit)%nat ∧ streamSem q = tokens (q_streams q) ∧
   NoDup (q_calls q).*1 ∧
   (∀ i remote buf, (i, (remote, buf)) ∈ q_calls q → ∃ s, q_streams q !! i = Some s ∧
      s_remote s = remote ∧ read_stream (s_seen s) = Some buf) ∧
   (∀ i s, q_streams q !! i = Some s → s_phase s = Gone → s_end s ≠ Reset →
      ∀ buf, (i, (s_remote s, buf)) ∈ q_calls q ↔ read_stream (s_seen s) = Some buf)) ∧
  ((0 < limit)%nat → (∀ remote buf, handler remote buf = Ret tt) → ended q →
   ∃ q', rtc own_step q q' ∧ streamSem q' = 0%nat ∧
     (∀ i s, q_streams q' !! i = Some s → s_phase s = Gone) ∧
     (∀ i s, q_streams q' !! i = Some s → s_end s ≠ Reset →
        ∀ buf, (i, (s_remote s, buf)) ∈ q_calls q' ↔ read_stream (s_seen s) = Some buf)).
Proof.
  intros Hr. split; [by apply quic_listener_safe|]. intros Hl Hh Hen. by apply quic_listener_drains.
Qed.

(** ** A peer that sends nothing

    The read of the header has no deadline, and the tokens are shared by all
    connections. *)
Definition silent (s : stream) : Prop := s_phase s = Header ∧ s_end s = Flowing ∧ s_unread s = [].

Definition all_silent (q : listener) : Prop :=
  streamSem q = limit ∧ ∀ i s, q_streams q !! i = Some s → holds s = true → silent s.

(** Any step but the arrival of something on a stream that holds a token. *)
Definition other_step : relation listener := λ q q',
  ∃ e, quic_step e q (Ret q') ∧ ∀ i s, e = Some i → q_streams q !! i = Some s → holds s = false.

Lemma insert_silent (m : gmap nat stream) i s' :
  (∀ j s, m !! j = Some s → holds s = true → silent s) → (holds s' = true → silent s') →
  ∀ j s, <[i := s']> m !! j = Some s → holds s = true → silent s.
Proof. intros Hm Hs j s [[<- <-]|[_ Hj]]%lookup_insert_Some; [done|by apply (Hm j)]. Qed.

Lemma silent_step q q' : all_silent q → other_step q q' → all_silent q' ∧ q_calls q' = q_calls q.
Proof.
  intros [Hz Hq] (e & Hs & Hn). remember (Ret q') as r eqn:Er.
  assert (∀ i s p, q_streams q !! i = Some s → s_phase s = p → holds s = true → p = Header) as Hh.
  { intros i s p Hi <- H. by apply (Hq i s Hi H). }
  destruct Hs as [q c remote Hc|q|q c i remote Hc Hi|q c remote Hc|q c i remote s Hc Hl Hi|q i s s' Hi Hp Hx
    |q i s h s' Hi Hp Hx|q i s buf Hi Hp _|q i s buf why|q i s Hi Hp|q i s bs Hi He|q i s Hi He|q i s keep Hi He];
    (discriminate Er || injection Er as <-);
    try (exfalso; unfold holds in Hh; specialize (Hh i s _ Hi Hp); rewrite Hp in Hh; by specialize (Hh eq_refl));
    try (pose proof (Hn i s eq_refl Hi) as Hf); (split; [split; [try exact Hz|]|]); cbn; try done.
  - by apply insert_silent.
  - lia.
  - exfalso. lia.
  - exfalso. unfold stream_header in Hx. destruct (Hq i s Hi) as (_ & He & Hu); [unfold holds; by rewrite Hp|].
    rewrite He, Hu in Hx. discriminate Hx.
  - apply insert_silent; [done|]. unfold holds in Hf |- *. cbn. congruence.
  - apply insert_silent; [done|]. unfold holds in Hf |- *. cbn. congruence.
  - apply insert_silent; [done|]. unfold holds in Hf |- *. cbn. congruence.
Qed.

Lemma silent_steps q q' : rtc other_step q q' → all_silent q → all_silent q' ∧ q_calls q' = q_calls q.
Proof.
  induction 1 as [|q q1 q2 Hs _ IH]; [done|]. intros H. destruct (silent_step q q1 H Hs) as [H1 <-]. by apply IH.
Qed.

(** [n] streams of the one connection, all silent. *)
Lemma silent_reachable remote n : (n ≤ limit)%nat → ∃ q, rtc quic_run listener_init q ∧
  q_conns q = {[0%nat := (remote, None)]} ∧ streamSem q = n ∧ q_calls q = [] ∧
  (∀ i, (n ≤ i)%nat → q_streams q !! i = None) ∧
  (∀ i s, q_streams q !! i = Some s → silent s).
Proof.
  induction n as [|n IH]; intros Hn.
  { eexists. split; [eapply rtc_l; [exists None; by apply (qs_accept listener_init 0 remote)|apply rtc_refl]|].
    cbn. split_and!; [done|done|done|by intros; apply lookup_empty|by intros i s ?%lookup_empty_Some]. }
  destruct IH as (q & Hr & Hc & Hs & Hz & Hf & Hq); [lia|].
  eexists. split; [eapply rtc_r; [eapply rtc_r; [exact Hr|]|]|].
  - exists None. apply (qs_stream q 0 n remote); [rewrite Hc; apply lookup_singleton_eq|by apply Hf].
  - exists None. eapply (qs_token _ 0 n remote); [apply lookup_insert_eq|cbn; lia|apply lookup_insert_eq].
  - cbn. split_and!; [by rewrite Hc, !insert_singleton_eq|lia|done| |].
    + intros i Hi. rewrite !lookup_insert_ne by lia. apply Hf. lia.
    + intros i s. rewrite insert_insert_eq. intros [[<- <-]|[_ Hi]]%lookup_insert_Some; [done|by eapply Hq].
Qed.

(** One peer can stop the reception of all others. The listener reaches a state
    in which the streams of a single connection hold every token and have sent
    nothing; and from then on, whatever happens on any other connection and for
    as long as that peer stays silent, no packet is handled. (A connection may
    open 1000 streams; there are 100 tokens unless configured otherwise.) *)
Theorem silent_peer_stops_tunnels remote : ∃ q, rtc quic_run listener_init q ∧
  q_conns q = {[0%nat := (remote, None)]} ∧ q_calls q = [] ∧ streamSem q = limit ∧
  ∀ q', rtc other_step q q' → q_calls q' = [] ∧ streamSem q' = limit.
Proof.
  destruct (silent_reachable remote limit) as (q & Hr & Hc & Hs & Hz & _ & Hq); [lia|].
  exists q. split_and!; [done|done|done|done|]. intros q' Hx.
  destruct (silent_steps q q' Hx) as [[H1 _] H2]; [|by rewrite H2, Hz].
  split; [done|]. intros i s Hi _. by apply (Hq i).
Qed.
End Listen.

(** ** Instances of the theorems

    A stream of 32 bytes (a header that announces a payload of 8) that arrives in
    two pieces and is closed. *)
Definition quiet_handler (remote : string) (buf : list Z) : go unit := Ret tt.

Definition raw_header : list Z := replicate 17 1 ++ [0; 8] ++ replicate (HeaderSize - 19) 0.

Definition in_pieces : listener :=
  {| q_conns := {[0%nat := ("10.0.0.7:4433", Some 0%nat)]};
     q_streams := {[0%nat := {| s_remote := "10.0.0.7:4433"; s_read := [];
                                s_unread := ([] ++ take 20 raw_header) ++ drop 20 raw_header ++ replicate 8 9;
                                s_end := Finished; s_phase := Waiting; s_given := None |}]};
     streamSem := 0; q_calls := [] |}.

Lemma in_pieces_reachable : rtc (quic_run 2 quiet_handler) listener_init in_pieces.
Proof.
  eapply rtc_l; [exists None; by apply (qs_accept 2 quiet_handler listener_init 0 "10.0.0.7:4433")|].
  eapply rtc_l; [exists None; by apply (qs_stream 2 quiet_handler _ 0 0 "10.0.0.7:4433")|].
  eapply rtc_l; [exists (Some 0%nat); eapply (qs_arrive 2 quiet_handler _ 0 _ (take 20 raw_header)); reflexivity|].
  eapply rtc_l; [exists (Some 0%nat);
    eapply (qs_arrive 2 quiet_handler _ 0 _ (drop 20 raw_header ++ replicate 8 9)); reflexivity|].
  eapply rtc_l; [exists (Some 0%nat); eapply (qs_finish 2 quiet_handler _ 0); reflexivity|].
  apply rtc_refl.
Qed.

Lemma quic_listener_correct_witness :
  (tokens (q_streams in_pieces) ≤ 2)%nat ∧
  ∃ q', rtc (own_step 2 quiet_handler) in_pieces q' ∧ streamSem q' = 0%nat ∧
    ∀ i s, q_streams q' !! i = Some s → s_phase s = Gone.
Proof.
  destruct (quic_listener_correct 2 quiet_handler in_pieces in_pieces_reachable) as [[H _] Hd].
  split; [exact H|]. destruct Hd as (q' & H1 & H2 & H3 & _).
  - lia.
  - reflexivity.
  - intros i s Hi. unfold in_pieces in Hi. cbn [q_streams] in Hi.
    apply lookup_singleton_Some in Hi as [_ <-]. discriminate.
  - exists q'. split_and!; [exact H1|exact H2|exact H3].
Defined.
