(* ===== verification/EndToEnd.v ===== *)
(** * From the control plane to the client

    What the planes give together.  A proxy asks the control plane for a route
    over HTTP ([GetRoutingFromControlPlane] against [GetMiddleRoute]); the route
    is a path of the control plane's graph; the handler of a client sends the
    request along it, and the tunnel brings the origin's answer back. *)
From S2P Require Import Prelude Float64 FloatDiv GoStrings Records Graph EdgeStats Random LastMile Routing.
From S2P Require Import Telemetry EtcdSync ControlApi.
From S2P Require Import Net Packet Tunnel Aggregator Batching Proxy Disagg Server.
Local Open Scope Z_scope.
Local Open Scope go_scope.

(** ** The wire between the two programs *)

(** The control plane's side of the encoding; [marshal_answer] fails on numbers
    that JSON does not have. *)
Class ControlJson := {
  bind_EndPoints : string → EndPoints + string;
  marshal_answer : ApiResponse RoutingInfo → option string;
}.

(** Both sides use the same field names: what one encodes the other decodes,
    and an empty body does not decode. *)
Class JsonAgrees `{ProxyJson} `{ControlJson} : Prop := {
  request_agrees e s : marshal_EndPoints e = Some s → bind_EndPoints s = inl e;
  answer_agrees r s : marshal_answer r = Some s →
    unmarshal_RoutingResponse s =
      Some {| rr_Code := Code r; rr_Msg := Msg r; rr_Data := default no_routing (Data_ r) |};
  empty_body : unmarshal_RoutingResponse "" = None;
}.

Section EndToEnd.
Context `{ML : MathLib} `{RO : RangeOrder}.
Context `{PJ : ProxyJson} `{CJ : ControlJson} `{!JsonAgrees} `{IP6 : Ip6Parser} `{!Ip6Range}.

(** A request for a route as the control plane with the graph [g] answers it; a
    handler that panics or cannot encode its answer leaves the body empty. *)
Definition control_post (targets : gmap Z SourceTarget) (g : GraphManager) : http_post :=
  λ _ body,
    match GetMiddleRoute targets g (bind_EndPoints body) "" with
    | Some (Ret resp) => Some (Some (default "" (marshal_answer resp)))
    | Some (Panic _) => Some (Some "")
    | None => None
    end.

Lemma fetched_route cfg targets g port source :
  graph_costs_ok g → test_route cfg port = None → targets !! port = Some source →
  Forall (λ i, edge_path (GetEdges 30 g) (Public cfg) (origin_addr source) (Hops i))
    (Routing_ (GetRoutingFromControlPlane cfg (control_post targets g) port)).
Proof.
  intros Hg Ht Hs. unfold GetRoutingFromControlPlane. rewrite Ht.
  destruct (marshal_EndPoints _) as [body|] eqn:Em; [|constructor].
  unfold control_post. rewrite (request_agrees _ _ Em).
  cbn [GetMiddleRoute]. cbn [routing_request Dest ep_Port]. rewrite Hs.
  destruct (MiddleRouting_edges g (set_dest_IP (origin_addr source) (routing_request cfg port))
    (or_default "" "k_shortest") Hg) as (info & -> & _ & Hp).
  { apply or_default_algorithms. by left. }
  cbn [mbind option_bind go_bind].
  destruct (marshal_answer _) as [s|] eqn:Ea; cbn [default from_option].
  - rewrite (answer_agrees _ _ Ea). rewrite bool_decide_eq_true_2 by done. exact Hp.
  - rewrite empty_body. constructor.
Qed.

(** A path of at least one link has two hops. *)
Lemma edge_path_long es start end_ hs : edge_path es start end_ hs → start ≠ end_ → (2 ≤ length hs)%nat.
Proof.
  intros (Hh & Hl & _ & _) Hne. destruct hs as [|a [|b hs]]; simpl in *; [done| |lia].
  congruence.
Qed.

(** C11: routes of the control plane never crash the proxy.  Whatever reachable
    graph the control plane has, the route that [GetRoutingFromControlPlane]
    returns for a port with an origin consists of simple paths over links of
    that graph from this node to the origin's [ip:port]; so the TCP handler
    either has no path or sends a message, whose first relay is a neighbour of
    this node in the graph: it never panics. *)
Theorem control_routes_safe cfg targets g port source reqID dat :
  rtc graph_step NewGraphManager g → graph_costs_ok g →
  test_route cfg port = None → targets !! port = Some source → Public cfg ≠ origin_addr source →
  let r := GetRoutingFromControlPlane cfg (control_post targets g) port in
  Forall (λ i, graph_path g (Public cfg) (origin_addr source) (Hops i)) (Routing_ r) ∧
  (tcp_dispatch r reqID dat = Ret NoPath ∨
   ∃ msg hop, tcp_dispatch r reqID dat = Ret (Send msg) ∧ nextHop msg = HopIPToNet hop ∧
     is_Some (edges g !! (Public cfg +:+ "->" +:+ hop)) ∧ data msg = dat ∧ userID msg = reqID).
Proof.
  intros Hr Hg Ht Hs Hne r. pose proof (fetched_route cfg targets g port source Hg Ht Hs) as Hp. fold r in Hp.
  pose proof (steps_wf _ _ Hr graph_wf_new) as Hwf.
  assert (Forall (λ i, graph_path g (Public cfg) (origin_addr source) (Hops i)) (Routing_ r)) as Hgp.
  { eapply Forall_impl; [exact Hp|]. intros i. by apply edge_path_graph. }
  split; [done|]. unfold tcp_dispatch.
  destruct (choose_path (Hops <$> Routing_ r)) as [path|] eqn:Ec; [right|by left].
  apply choose_path_spec in Ec as [Hin _]. apply list_elem_of_fmap in Hin as (i & -> & Hi).
  rewrite Forall_forall in Hp, Hgp. specialize (Hp i Hi). specialize (Hgp i Hi).
  pose proof (edge_path_long _ _ _ _ Hp Hne) as Hlen. destruct Hgp as (Hh & _ & _ & Hlinks).
  destruct (Hops i) as [|h0 [|h1 hs]] eqn:Eh; simpl in Hlen; try lia.
  simpl in Hh. injection Hh as ->. unfold client_message, index. cbn [lookup list_lookup].
  destruct (strip_hops _) as [hops port_]. cbn [go_bind]. eexists _, h1. split; [done|]. cbn.
  split; [done|]. split; [|done]. by apply (Hlinks 0%nat).
Qed.

(** ** Paths over IPv4 nodes *)

(** The nodes of the graph are named by their IPv4 addresses. *)
Definition ipv4_nodes (g : GraphManager) : Prop :=
  ∀ ip, ip ∈ dom (nodes g) → ∃ v, addr_ok v ∧ ip = ip_string v.

Lemma route_shape es (P : string → Prop) start end_ hs : edge_path es start end_ hs → start ≠ end_ →
  (∀ e, e ∈ es → P (SourceIp e)) → ∃ rs, hs = rs ++ [end_] ∧ Forall P rs ∧ head rs = Some start.
Proof.
  intros (Hh & Hl & Hnd & Hlinks) Hne HP. destruct hs as [|x hs _] using rev_ind; [done|].
  rewrite last_snoc in Hl. injection Hl as ->. exists hs. split; [done|]. split.
  - apply Forall_lookup. intros i y Hy.
    destruct (lookup_lt_is_Some_2 (hs ++ [end_]) (S i)) as [z Hz].
    { rewrite length_app. simpl. apply lookup_lt_Some in Hy. lia. }
    destruct (Hlinks i y z) as (e & He & <- & _); [by apply lookup_app_l_Some|done|]. by apply HP.
  - destruct hs as [|h hs]; [|done]. simpl in Hh. congruence.
Qed.

Lemma ipv4_route rs : Forall (λ ip, ∃ v, addr_ok v ∧ ip = ip_string v) rs →
  ∃ vs, Forall addr_ok vs ∧ rs = ip_string <$> vs.
Proof.
  induction 1 as [|ip rs (v & Hv & ->) _ (vs & Hvs & ->)]; [by exists []|].
  exists (v :: vs). split; [by constructor|done].
Qed.

(** C1: a client is served, from the route to the answer.  The control plane has
    a reachable graph of nodes with IPv4 addresses and an origin
    [ip:port] for the port the client connected to; the proxy has fetched its
    route from the control plane (no test route is configured for the port), and
    the path that the handler chooses has three or four hops.  The request and the
    answer are not empty and shorter than 128 bytes, so that the aggregator sends
    each at once and alone.  (Longer messages are collected into batches, which
    reach every origin of a batch at the port of the batch: that path is not
    covered here, see [batch_shares_port].)  Then the handler sends the request to
    the second hop,
    the tunnel brings it to the last relay, which asks exactly the configured
    origin with exactly the client's data, and the origin's answer comes back
    through the tunnel to this node, for the id of the request. *)
Theorem client_served cfg targets g port source origin reqID dat resp path agg w1 w2 t1 t2 DoRequest :
  rtc graph_step NewGraphManager g → graph_costs_ok g → ipv4_nodes g →
  test_route cfg port = None → targets !! port = Some source →
  st_IP source = ip_string origin → addr_ok origin → 0 < st_Port source < 2 ^ 16 →
  let r := GetRoutingFromControlPlane cfg (control_post targets g) port in
  choose_path (Hops <$> Routing_ r) = Some path → (3 ≤ length path ≤ 4)%nat →
  0 ≤ reqID < 2 ^ 32 → dat ≠ [] → (length dat < 128)%nat → resp ≠ [] → (length resp < 128)%nat →
  DoRequest (origin_addr source) dat = Some resp →
  ∃ msg raw next task reply raw' next' entry exit,
    tcp_dispatch r reqID dat = Ret (Send msg) ∧
    handleMsg agg w1 msg t1 =
      Ret (w1, [{| si_p := raw; si_routingKey := routingKey msg; si_next := Some next |}]) ∧
    transit 4 next raw = Ret (Some (exit, [Submit "tcp" task])) ∧
    OriginAddr task = origin_addr source ∧ ReqData task = dat ∧
    doOriginRequest DoRequest task = Ret (Some reply) ∧
    handleMsg agg w2 reply t2 =
      Ret (w2, [{| si_p := raw'; si_routingKey := routingKey reply; si_next := Some next' |}]) ∧
    transit 4 next' raw' = Ret (Some (entry, [Tunnel.Deliver reqID resp])) ∧
    ip_string entry = Public cfg.
Proof.
  intros Hr Hg H4 Ht Hs Hip Ho Hport r Hc Hlen Hreq Hd Hdl Hrs Hrl Hask.
  pose proof (fetched_route cfg targets g port source Hg Ht Hs) as Hp. fold r in Hp.
  pose proof (steps_wf _ _ Hr graph_wf_new) as Hwf.
  destruct (choose_path_spec _ _ Hc) as [Hin _]. apply list_elem_of_fmap in Hin as (i & Hpath & Hi).
  rewrite Forall_forall in Hp. specialize (Hp i Hi). rewrite <-Hpath in Hp.
  assert (Public cfg ≠ origin_addr source) as Hne.
  { intros E. destruct Hp as (Hh & Hl & Hnd & _). rewrite E in Hh.
    destruct path as [|x [|y path]]; simpl in Hlen; try lia. simpl in Hh. injection Hh as ->.
    rewrite last_cons_cons in Hl. apply NoDup_cons in Hnd as [Hn _]. apply Hn.
    apply last_Some in Hl as [l' ->]. apply elem_of_app. right. by left. }
  destruct (route_shape _ (λ ip, ∃ v, addr_ok v ∧ ip = ip_string v) _ _ _ Hp Hne) as (rs & -> & Hrs' & Hhd).
  { intros e [k Hk]%GetEdges_elem. by apply H4, (wf_src g Hwf k). }
  apply ipv4_route in Hrs' as (vs & Hvs & ->).
  assert ((ip_string <$> vs) ++ [origin_addr source] = request_path vs origin (st_Port source)) as Hreqp.
  { unfold request_path, origin_addr. by rewrite Hip. }
  rewrite length_app, length_fmap in Hlen. simpl in Hlen.
  destruct vs as [|entry vs']; [simpl in Hlen; lia|]. set (vs := entry :: vs') in *.
  destruct (last vs) as [exit|] eqn:Hexit; [|by apply last_None in Hexit].
  assert (DoRequest (ip_string origin +:+ ":" +:+ Itoa (st_Port source)) dat = Some resp) as Hask'.
  { rewrite <-Hask. unfold origin_addr. by rewrite Hip. }
  destruct (round_trip agg w1 w2 vs entry exit origin (st_Port source) reqID dat resp t1 t2 DoRequest)
    as (msg & raw & next & task & reply & raw' & next' & E1 & E2 & E3 & Eo & Ed & E4 & E5 & E6); try done.
  { unfold vs in *. simpl in *. lia. }
  exists msg, raw, next, task, reply, raw', next', entry, exit. split_and!; try done.
  - unfold tcp_dispatch. rewrite Hc, Hreqp, E1. done.
  - rewrite Eo. unfold origin_addr. by rewrite Hip.
  - unfold vs in Hhd. simpl in Hhd. by injection Hhd.
Qed.
End EndToEnd.

(** ** Instances of the theorems

    A node, a relay and an origin.  The encoding is one that knows a single
    request and its answer. *)
#[local] Existing Instance flat_math.
#[local] Existing Instance no_ip6.
#[local] Existing Instance no_ip6_range.

#[export] Instance spec_float_eq_dec : EqDecision SpecFloat.spec_float.
Proof. solve_decision. Defined.
#[export] Instance EndPoint_eq_dec : EqDecision EndPoint.
Proof. solve_decision. Defined.
#[export] Instance EndPoints_eq_dec : EqDecision EndPoints.
Proof. solve_decision. Defined.
#[export] Instance PathInfo_eq_dec : EqDecision PathInfo.
Proof. solve_decision. Defined.
#[export] Instance RoutingInfo_eq_dec : EqDecision RoutingInfo.
Proof. solve_decision. Defined.
#[export] Instance ApiResponse_eq_dec {D} `{EqDecision D} : EqDecision (ApiResponse D).
Proof. solve_decision. Defined.

Definition relay_link : LinkCongestion :=
  {| lk_TargetIP := "9.9.9.9";
     lk_Target := {| TargetType := "source"; pt_Provider := ""; pt_IP := "9.9.9.9"; pt_Port := 80;
                     Region := ""; pt_ID := "" |};
     PacketLoss := f0; AverageLatency := f_of_Z 20 |}.

Definition relay_graph : GraphManager :=
  AddNode (node_of "1.1.1.1" {["2.2.2.2" := link_to "2.2.2.2"]})
    (AddNode (node_of "2.2.2.2" {["9.9.9.9" := relay_link]}) NewGraphManager).

Definition relay_targets : gmap Z SourceTarget := {[443 := web_origin]}.

Definition relay_cfg : proxy_config := {| TestPathMap := ∅; Public := "1.1.1.1"; ControlHost := "" |}.

Definition relay_answer : ApiResponse RoutingInfo :=
  match GetMiddleRoute relay_targets relay_graph (inl (routing_request relay_cfg 443)) "" with
  | Some (Ret r) => r
  | _ => bad_request ""
  end.

#[local] Instance relay_proxy_json : ProxyJson :=
  {| marshal_EndPoints e := if decide (e = routing_request relay_cfg 443) then Some "request" else None;
     unmarshal_RoutingResponse s :=
       if decide (s = "answer")
       then Some {| rr_Code := Code relay_answer; rr_Msg := Msg relay_answer;
                    rr_Data := default no_routing (Data_ relay_answer) |}
       else None |}.

#[local] Instance relay_control_json : ControlJson :=
  {| bind_EndPoints s := inl (routing_request relay_cfg 443);
     marshal_answer r := if decide (r = relay_answer) then Some "answer" else None |}.

#[local] Instance relay_json_agrees : JsonAgrees.
Proof.
  split.
  - intros e s. cbn. by case_decide as E; [intros [= <-]; rewrite E|].
  - intros r s. cbn [marshal_answer relay_control_json]. case_decide as E; [|done]. intros [= <-].
    cbn [unmarshal_RoutingResponse relay_proxy_json]. rewrite decide_True by done. by rewrite E.
  - cbn. by rewrite decide_False.
Qed.

Lemma relay_graph_reachable : rtc graph_step NewGraphManager relay_graph.
Proof. eapply rtc_l; [apply step_add|]. eapply rtc_l; [apply step_add|]. apply rtc_refl. Qed.

Lemma relay_graph_costs : graph_costs_ok relay_graph.
Proof.
  intros k e H. apply elem_of_map_to_list in H. revert H. vm_compute (map_to_list (edges relay_graph)).
  rewrite elem_of_cons, list_elem_of_singleton. intros [H|H]; injection H as -> ->; vm_compute; reflexivity.
Qed.

Lemma ipv4_nodes_list g vs :
  Forall addr_ok vs → (map_to_list (nodes g)).*1 = ip_string <$> vs → ipv4_nodes g.
Proof.
  intros Hvs E ip [n H]%elem_of_dom. apply elem_of_map_to_list in H.
  apply (list_elem_of_fmap_2 fst) in H. simpl in H. rewrite E in H.
  apply list_elem_of_fmap in H as (v & -> & Hv). rewrite Forall_forall in Hvs. eauto.
Qed.

Lemma relay_graph_ipv4 : ipv4_nodes relay_graph.
Proof.
  first [apply (ipv4_nodes_list _ [16843009; 33686018]); [|vm_compute; reflexivity]
        |apply (ipv4_nodes_list _ [33686018; 16843009]); [|vm_compute; reflexivity]];
    repeat constructor.
Qed.

Lemma control_routes_safe_witness :
  Forall (λ i, graph_path relay_graph "1.1.1.1" "9.9.9.9:80" (Hops i))
    (Routing_ (GetRoutingFromControlPlane relay_cfg (control_post relay_targets relay_graph) 443)) ∧
  Hops <$> Routing_ (GetRoutingFromControlPlane relay_cfg (control_post relay_targets relay_graph) 443)
    = [["1.1.1.1"; "2.2.2.2"; "9.9.9.9:80"]].
Proof.
  split; [|vm_compute; reflexivity].
  destruct (control_routes_safe relay_cfg relay_targets relay_graph 443 web_origin 7 [104; 10]) as [H _].
  - exact relay_graph_reachable.
  - exact relay_graph_costs.
  - reflexivity.
  - reflexivity.
  - vm_compute. discriminate.
  - exact H.
Defined.

Lemma client_served_witness : ∃ task raw' next' entry,
  OriginAddr task = "9.9.9.9:80" ∧ ReqData task = [104; 105; 10] ∧
  transit 4 next' raw' = Ret (Some (entry, [Tunnel.Deliver 7 [111; 107; 10]])) ∧
  ip_string entry = "1.1.1.1".
Proof.
  destruct (client_served relay_cfg relay_targets relay_graph 443 web_origin 151587081 7 [104; 105; 10]
    [111; 107; 10] ["1.1.1.1"; "2.2.2.2"; "9.9.9.9:80"] sample_cfg new_worker new_worker 0 1
    (λ _ _, Some [111; 107; 10]))
    as (msg & raw & next & task & reply & raw' & next' & entry & exit & _ & _ & _ & H1 & H2 & _ & _ & H3 & H4).
  - exact relay_graph_reachable.
  - exact relay_graph_costs.
  - exact relay_graph_ipv4.
  - reflexivity.
  - reflexivity.
  - vm_compute. reflexivity.
  - unfold addr_ok. lia.
  - simpl. lia.
  - vm_compute. reflexivity.
  - simpl. lia.
  - lia.
  - discriminate.
  - simpl. lia.
  - discriminate.
  - simpl. lia.
  - reflexivity.
  - exists task, raw', next', entry. split; [exact H1|]. split; [exact H2|]. split; [exact H3|exact H4].
Defined.
