(* ===== verification/ConnPool.v ===== *)
(** * The pool of origin connections

    [data-proxy/backsourcer/tcp_pool.go].  A connection is named by a number;
    an operation returns the new pool together with the connections it closed,
    in order.  Clock readings and the result of dialling are arguments. *)
From S2P Require Import Prelude.
Open Scope Z_scope.

Record pooledConn := {
  conn : nat;
  created : Z;
  lastUsed : Z;
}.

Record TCPConnPool := {
  pools : gmap string (list pooledConn);
  maxIdle : Z;
  maxLifetime : Z;
}.

Definition NewTCPConnPool (maxIdle maxLifetime : Z) : TCPConnPool :=
  {| pools := ∅; maxIdle := maxIdle; maxLifetime := maxLifetime |}.

Definition with_pools (m : gmap string (list pooledConn)) (p : TCPConnPool) : TCPConnPool :=
  {| pools := m; maxIdle := maxIdle p; maxLifetime := maxLifetime p |}.

(** [now.Sub(t)] saturates; times that far apart do not occur, but the
    doubled life time may wrap. *)
Definition idle_too_long (p : TCPConnPool) (now : Z) (pc : pooledConn) : bool :=
  bool_decide (maxLifetime p < now - lastUsed pc).

Definition expired (p : TCPConnPool) (now : Z) (pc : pooledConn) : bool :=
  idle_too_long p now pc || bool_decide (int64 (maxLifetime p * 2) < now - created pc).

Section Pool.
Context `{RO : RangeOrder}.

(** One pass over all lists; an empty list leaves the map. *)
Definition pool_cleanup (now : Z) (p : TCPConnPool) : TCPConnPool * list nat :=
  (with_pools (omap (λ lst,
     let kept := filter (λ pc, expired p now pc = false) lst in
     if bool_decide (length kept = 0%nat) then None else Some kept) (pools p)) p,
   (range_map 40 (pools p)) ≫= λ '(_, lst), conn <$> filter (λ pc, expired p now pc = true) lst).

(** The loop of [Get] with the [i]-th clock reading [now i]: the connection to
    reuse, the list that is left, and the connections closed on the way. *)
Fixpoint get_scan (p : TCPConnPool) (now : nat → Z) (i : nat) (lst : list pooledConn)
    : option pooledConn * list pooledConn * list nat :=
  match lst with
  | [] => (None, [], [])
  | pc :: lst =>
      if idle_too_long p (now i) pc then
        let '(found, lst, closed) := get_scan p now (S i) lst in (found, lst, conn pc :: closed)
      else (Some pc, lst, [])
  end.

(** [dialed] is the answer of [net.DialTimeout], asked for only when no idle
    connection can be reused. *)
Definition Get (addr : string) (now : nat → Z) (dialed : nat + string) (p : TCPConnPool)
    : (nat + string) * TCPConnPool * list nat :=
  let lst := default [] (pools p !! addr) in
  let '(found, lst, closed) := get_scan p now 0 lst in
  let p := with_pools (<[addr := lst]> (pools p)) p in
  match found with
  | Some pc => (inl (conn pc), p, closed)
  | None => (dialed, p, closed)
  end.

(** [conn_] is [None] for a nil connection; the two clock readings fill
    [created] and [lastUsed]. *)
Definition Put (addr : string) (conn_ : option nat) (healthy : bool) (now1 now2 : Z)
    (p : TCPConnPool) : TCPConnPool * list nat :=
  match conn_ with
  | None => (p, [])
  | Some c =>
      match pools p !! addr with
      | None => (p, [c])
      | Some lst =>
          if negb healthy || bool_decide (maxIdle p ≤ Z.of_nat (length lst)) then (p, [c])
          else (with_pools
                  (<[addr := {| conn := c; created := now1; lastUsed := now2 |} :: lst]> (pools p)) p, [])
      end
  end.

Definition pool_Close (p : TCPConnPool) : TCPConnPool * list nat :=
  (with_pools ∅ p, (range_map 41 (pools p)) ≫= λ '(_, lst), conn <$> lst).

(** [DoRequest]: what the peer does to this exchange is an argument - whether
    the write succeeds, and the line that is read. *)
Definition DoRequest (addr : string) (now : nat → Z) (dialed : nat + string) (write_err : option string)
    (read : list Z + string) (now1 now2 : Z) (p : TCPConnPool)
    : (list Z + string) * TCPConnPool * list nat :=
  let '(r, p, closed) := Get addr now dialed p in
  match r with
  | inr err => (inr err, p, closed)
  | inl c =>
      match write_err with
      | Some err => let '(p, closed') := Put addr (Some c) false now1 now2 p in (inr err, p, closed ++ closed')
      | None =>
          match read with
          | inr err => let '(p, closed') := Put addr (Some c) false now1 now2 p in (inr err, p, closed ++ closed')
          | inl line => let '(p, closed') := Put addr (Some c) true now1 now2 p in (inl line, p, closed ++ closed')
          end
      end
  end.

(** ** Conservation: what an operation does to the idle connections *)
Definition idle_in (m : gmap string (list pooledConn)) : list nat :=
  map_to_list m ≫= λ '(_, lst), conn <$> lst.

Definition idle (p : TCPConnPool) : list nat := idle_in (pools p).

Lemma idle_fresh m addr lst : m !! addr = None →
  idle_in (<[addr := lst]> m) ≡ₚ (conn <$> lst) ++ idle_in m.
Proof. intros Hm. unfold idle_in. by rewrite map_to_list_insert. Qed.

Lemma idle_insert m addr lst :
  idle_in (<[addr := lst]> m) ≡ₚ (conn <$> lst) ++ idle_in (delete addr m).
Proof. rewrite <-insert_delete_eq. apply idle_fresh, lookup_delete_eq. Qed.

Lemma idle_split m addr :
  idle_in m ≡ₚ (conn <$> default [] (m !! addr)) ++ idle_in (delete addr m).
Proof.
  destruct (m !! addr) as [lst|] eqn:E; simpl.
  - rewrite <-(insert_id m addr lst) at 1 by done. apply idle_insert.
  - by rewrite delete_id.
Qed.

Lemma get_scan_conns p now i lst found lst' closed :
  get_scan p now i lst = (found, lst', closed) →
  conn <$> lst = closed ++ (conn <$> option_list found) ++ (conn <$> lst').
Proof.
  revert i found lst' closed. induction lst as [|pc lst IH]; intros i found lst' closed; simpl.
  { by intros [= <- <- <-]. }
  destruct (idle_too_long p (now i) pc).
  - destruct (get_scan p now (S i) lst) as [[f l] cl] eqn:E. intros [= <- <- <-].
    simpl. f_equal. by eapply IH.
  - by intros [= <- <- <-].
Qed.

Lemma get_scan_fresh p now i lst pc lst' closed :
  get_scan p now i lst = (Some pc, lst', closed) →
  pc ∈ lst ∧ ∃ j, now j - lastUsed pc ≤ maxLifetime p.
Proof.
  revert i lst' closed. induction lst as [|pc0 lst IH]; intros i lst' closed; simpl; [done|].
  destruct (idle_too_long p (now i) pc0) eqn:E0.
  - destruct (get_scan p now (S i) lst) as [[f l] k] eqn:E. intros [= -> <- <-].
    destruct (IH _ _ _ E) as [Hin Hj]. split; [by right|done].
  - intros [= -> <- <-]. split; [left|]. exists i. apply bool_decide_eq_false in E0. lia.
Qed.

(** A connection of the pool that has been idle for no longer than allowed. *)
Definition reusable (p : TCPConnPool) (addr : string) (now : nat → Z) (c : nat) : Prop :=
  ∃ pc lst j, pools p !! addr = Some lst ∧ pc ∈ lst ∧ conn pc = c ∧ now j - lastUsed pc ≤ maxLifetime p.

Lemma Get_conserves addr now dialed p r p' closed :
  Get addr now dialed p = (r, p', closed) →
  (∃ c, r = inl c ∧ reusable p addr now c ∧ idle p ≡ₚ closed ++ c :: idle p') ∨
  (r = dialed ∧ idle p ≡ₚ closed ++ idle p').
Proof.
  unfold Get. destruct (get_scan _ _ _ _) as [[found lst] cl] eqn:E.
  pose proof (get_scan_conns _ _ _ _ _ _ _ E) as Hc.
  assert (idle p ≡ₚ cl ++ (conn <$> option_list found) ++
    idle (with_pools (<[addr:=lst]> (pools p)) p)) as Hp.
  { unfold idle. rewrite (idle_split (pools p) addr), Hc. cbn [pools with_pools].
    by rewrite idle_insert, <-!app_assoc. }
  destruct found as [pc|]; intros [= <- <- <-]; [left; exists (conn pc)|by right].
  destruct (get_scan_fresh _ _ _ _ _ _ _ E) as [Hin [k Hk]].
  split; [done|]. split; [|exact Hp]. destruct (pools p !! addr) as [l|] eqn:El;
    [|by apply not_elem_of_nil in Hin]. by exists pc, l, k.
Qed.

Lemma Put_conserves addr c healthy now1 now2 p p' closed :
  Put addr (Some c) healthy now1 now2 p = (p', closed) →
  c :: idle p ≡ₚ closed ++ idle p'.
Proof.
  unfold Put. destruct (pools p !! addr) as [lst|] eqn:E; [|by intros [= <- <-]].
  destruct (negb healthy || _); intros [= <- <-]; [done|]. unfold idle. cbn [pools with_pools].
  rewrite idle_insert, (idle_split (pools p) addr), E. done.
Qed.

Lemma cleanup_conserves now p p' closed :
  pool_cleanup now p = (p', closed) → idle p ≡ₚ closed ++ idle p'.
Proof.
  unfold pool_cleanup. intros [= <- <-]. unfold idle. cbn [pools with_pools].
  rewrite range_map_perm. fold (expired p now). generalize (expired p now) as e. clear. intros e.
  induction (pools p) as [|addr lst m Hm IH] using map_ind; [done|].
  rewrite idle_fresh by done. rewrite IH. clear IH.
  rewrite map_to_list_insert by done. cbn [mbind list_bind].
  set (closed := map_to_list m ≫= _). rewrite omap_insert. cbv zeta.
  set (kept := filter (λ pc, e pc = false) lst).
  assert ((conn <$> lst) ≡ₚ (conn <$> filter (λ pc, e pc = true) lst) ++ (conn <$> kept)) as ->.
  { rewrite <-fmap_app. apply fmap_Permutation. unfold kept. clear.
    induction lst as [|pc lst IH]; [done|]. rewrite !filter_cons.
    destruct (e pc); simpl; rewrite IH at 1; [done|]. by rewrite Permutation_middle. }
  assert (omap (λ l : list pooledConn, let k := filter (λ pc, e pc = false) l in
    if bool_decide (length k = 0%nat) then None else Some k) m !! addr = None) as Hn
    by (by rewrite lookup_omap, Hm).
  case_bool_decide as Hk.
  - apply nil_length_inv in Hk. rewrite Hk, delete_id by done. simpl. rewrite app_nil_r.
    by rewrite app_assoc.
  - rewrite idle_fresh by done. rewrite <-!app_assoc. apply Permutation_app_head.
    rewrite !app_assoc. apply Permutation_app_tail. apply Permutation_app_comm.
Qed.

Lemma Close_conserves p p' closed :
  pool_Close p = (p', closed) → idle p ≡ₚ closed ++ idle p'.
Proof.
  unfold pool_Close. intros [= <- <-]. unfold idle, idle_in. cbn [pools with_pools].
  rewrite range_map_perm, map_to_list_empty. simpl. by rewrite app_nil_r.
Qed.

(** ** Abstract specification: the life of a connection

    A connection is dialled for a caller, returned to the pool, taken out
    again, and closed once; a closed connection stays closed. *)
Inductive status := Out | Idle | Closed.
#[export] Instance status_eq_dec : EqDecision status.
Proof. solve_decision. Defined.

Inductive life : option status → option status → Prop :=
| life_dial : life None (Some Out)
| life_take : life (Some Idle) (Some Out)
| life_return : life (Some Out) (Some Idle)
| life_drop : life (Some Out) (Some Closed)
| life_expire : life (Some Idle) (Some Closed).

(** The pool with the connections its callers hold and those it closed. *)
Record world := {
  w_pool : TCPConnPool;
  w_out : list nat;
  w_closed : list nat;
}.

Definition held (w : world) : list nat := idle (w_pool w) ++ w_out w ++ w_closed w.

Definition status_of (w : world) (c : nat) : option status :=
  if decide (c ∈ w_out w) then Some Out
  else if decide (c ∈ idle (w_pool w)) then Some Idle
  else if decide (c ∈ w_closed w) then Some Closed else None.

(** The operations, with the callers' side of them: a dialled connection is a
    new one, and only a connection that is held is put back. *)
Inductive pool_step : relation world :=
| step_get addr now dialed r p' closed w :
    (∀ c, dialed = inl c → c ∉ held w) →
    Get addr now dialed (w_pool w) = (r, p', closed) →
    pool_step w {| w_pool := p';
                   w_out := match r with inl c => c :: w_out w | inr _ => w_out w end;
                   w_closed := closed ++ w_closed w |}
| step_put addr c healthy now1 now2 p' closed out w :
    w_out w ≡ₚ c :: out →
    Put addr (Some c) healthy now1 now2 (w_pool w) = (p', closed) →
    pool_step w {| w_pool := p'; w_out := out; w_closed := closed ++ w_closed w |}
| step_cleanup now p' closed w :
    pool_cleanup now (w_pool w) = (p', closed) →
    pool_step w {| w_pool := p'; w_out := w_out w; w_closed := closed ++ w_closed w |}
| step_close p' closed w :
    pool_Close (w_pool w) = (p', closed) →
    pool_step w {| w_pool := p'; w_out := w_out w; w_closed := closed ++ w_closed w |}.

Definition new_world (maxIdle maxLifetime : Z) : world :=
  {| w_pool := NewTCPConnPool maxIdle maxLifetime; w_out := []; w_closed := [] |}.

(** A step keeps all connections, but for a new one that goes to a caller, and
    only adds to the closed ones. *)
Lemma step_conserves w w' : pool_step w w' →
  (∃ closed, w_closed w' = closed ++ w_closed w) ∧
  (held w' ≡ₚ held w ∨ ∃ c, (c ∉ held w) ∧ c ∈ w_out w' ∧ held w' ≡ₚ c :: held w).
Proof.
  unfold held.
  intros [addr now dialed r p' closed w0 Hd E|addr c h n1 n2 p' closed out w0 Ho E
    |now p' closed w0 E|p' closed w0 E]; simpl; (split; [by eexists|]).
  - destruct (Get_conserves _ _ _ _ _ _ _ E) as [(c & -> & _ & Hi)|[-> Hi]].
    + left. rewrite Hi. solve_Permutation.
    + destruct dialed as [c|err]; [right|left; rewrite Hi; solve_Permutation].
      exists c. split; [by apply Hd|]. split; [left|]. rewrite Hi. solve_Permutation.
  - left. rewrite Ho. pose proof (Put_conserves _ _ _ _ _ _ _ _ E) as Hp. simpl.
    rewrite <-Permutation_middle, app_comm_cons, Hp. solve_Permutation.
  - left. rewrite (cleanup_conserves _ _ _ _ E). solve_Permutation.
  - left. rewrite (Close_conserves _ _ _ E). solve_Permutation.
Qed.

(** The lists never grow over the limit. *)
Definition bounded (p : TCPConnPool) : Prop :=
  ∀ addr lst, pools p !! addr = Some lst → Z.of_nat (length lst) ≤ Z.max 0 (maxIdle p).

Lemma get_scan_length p now i lst found lst' closed :
  get_scan p now i lst = (found, lst', closed) → (length lst' ≤ length lst)%nat.
Proof.
  intros E. pose proof (get_scan_conns _ _ _ _ _ _ _ E) as H. apply (f_equal length) in H.
  rewrite !length_app, !length_fmap in H. lia.
Qed.

Lemma step_bounded w w' : pool_step w w' → bounded (w_pool w) →
  bounded (w_pool w') ∧ maxIdle (w_pool w') = maxIdle (w_pool w).
Proof.
  unfold bounded.
  intros [addr now dialed r p' closed w0 Hd E|addr c h n1 n2 p' closed out w0 Ho E
    |now p' closed w0 E|p' closed w0 E] Hb; cbn [w_pool].
  - unfold Get in E. destruct (get_scan _ _ _ _) as [[found lst] cl] eqn:Es.
    apply get_scan_length in Es.
    assert (p' = with_pools (<[addr := lst]> (pools (w_pool w0))) (w_pool w0)) as ->
      by (destruct found; by simplify_eq). split; [|done]. cbn [pools with_pools maxIdle].
    intros a l [[<- <-]|[_ H]]%lookup_insert_Some; [|by eapply Hb].
    destruct (pools (w_pool w0) !! addr) as [l0|] eqn:El; simpl in Es; [|lia].
    specialize (Hb addr l0 El). lia.
  - unfold Put in E. destruct (pools (w_pool w0) !! addr) as [lst|] eqn:El; [|by simplify_eq].
    destruct h; simpl in E; [|by simplify_eq]. case_bool_decide; simplify_eq; [done|].
    split; [|done]. cbn [pools with_pools maxIdle].
    intros a l [[<- <-]|[_ H']]%lookup_insert_Some; [simpl; lia|by eapply Hb].
  - unfold pool_cleanup in E. simplify_eq. split; [|done]. cbn [pools with_pools maxIdle].
    intros a l. rewrite lookup_omap. intros (l0 & El & Hl)%bind_Some. specialize (Hb a l0 El).
    case_bool_decide; simplify_eq. etransitivity; [|exact Hb].
    apply Nat2Z.inj_le, length_filter.
  - unfold pool_Close in E. simplify_eq. split; [|done]. intros a l. cbn [pools with_pools].
    by rewrite lookup_empty.
Qed.

(** The invariant of the reachable worlds: every connection is in one place. *)
Definition pool_inv (mi : Z) (w : world) : Prop :=
  NoDup (held w) ∧ bounded (w_pool w) ∧ maxIdle (w_pool w) = mi.

Lemma step_inv mi w w' : pool_step w w' → pool_inv mi w → pool_inv mi w'.
Proof.
  intros Hs (Hnd & Hb & Hm). destruct (step_bounded w w' Hs Hb) as [Hb' Hm'].
  destruct (step_conserves w w' Hs) as [_ [Hp|(c & Hc & _ & Hp)]];
    (split; [rewrite Hp|split; [done|congruence]]); [done|]. by apply NoDup_cons.
Qed.

Lemma reachable_inv mi ml w : rtc pool_step (new_world mi ml) w → pool_inv mi w.
Proof.
  intros Hr. assert (pool_inv mi (new_world mi ml)) as Hi.
  { split; [apply NoDup_nil; done|]. split; [|done]. intros a l. simpl. by rewrite lookup_empty. }
  revert Hi. induction Hr as [|w0 w1 w2 Hs _ IH]; [done|]. intros Hi. by apply IH, (step_inv mi w0).
Qed.

Lemma status_held w c : status_of w c = None ↔ c ∉ held w.
Proof.
  unfold status_of, held. rewrite !elem_of_app. repeat case_decide; split; try done; tauto.
Qed.

Lemma status_closed w c : NoDup (held w) → c ∈ w_closed w → status_of w c = Some Closed.
Proof.
  unfold held, status_of. intros Hnd Hc.
  apply NoDup_app in Hnd as (_ & H1 & (_ & H2 & _)%NoDup_app).
  rewrite decide_False by (intros Ho; by apply (H2 c)).
  rewrite decide_False by (intros Hi; apply (H1 c Hi), elem_of_app; by right).
  by rewrite decide_True.
Qed.

(** C36: the pool implements the life of a connection.  In every reachable state
    each connection is in exactly one place - idle in one list, held by one
    caller, or closed - and no list is longer than the limit; and each
    operation moves every connection along the life cycle or leaves it alone:
    nothing is leaked, handed out twice, closed twice or used after it was
    closed. *)
Theorem pool_refines_life mi ml w w' :
  rtc pool_step (new_world mi ml) w → pool_step w w' →
  NoDup (held w') ∧ bounded (w_pool w') ∧
  ∀ c, status_of w' c = status_of w c ∨ life (status_of w c) (status_of w' c).
Proof.
  intros Hr Hs. pose proof (reachable_inv mi ml w Hr) as Hi.
  destruct (step_inv mi w w' Hs Hi) as (Hnd' & Hb' & _). split; [done|]. split; [done|].
  destruct Hi as (Hnd & _ & _). destruct (step_conserves w w' Hs) as [[cl Hcl] Hheld]. intros c.
  destruct (status_of w c) as [st|] eqn:E.
  - destruct (status_of w' c) as [st'|] eqn:E'.
    2: { apply status_held in E'. exfalso. destruct (decide (c ∈ held w)) as [Hc|Hc];
         [|apply status_held in Hc; congruence].
         destruct Hheld as [Hp|(c' & _ & _ & Hp)]; apply E'; rewrite Hp; [done|by right]. }
    destruct st, st'; auto using life; exfalso.
    all: assert (c ∈ w_closed w) as Hc by (revert E; unfold status_of; by repeat case_decide).
    all: rewrite (status_closed w' c Hnd') in E'; [done|].
    all: rewrite Hcl; apply elem_of_app; by right.
  - apply status_held in E. destruct Hheld as [Hp|(c' & Hc' & Ho & Hp)].
    + left. apply status_held. by rewrite Hp.
    + destruct (decide (c = c')) as [->|Hne].
      * right. unfold status_of. rewrite decide_True by done. constructor.
      * left. apply status_held. rewrite Hp. by apply not_elem_of_cons.
Qed.

(** A cleanup between [Get] and [Put] defeats the reuse: taking the last
    idle connection leaves an empty list, the cleanup removes the list of the
    address, and the healthy connection is closed when it is put back. *)
Theorem cleanup_defeats_reuse p addr pc now t now1 now2 dialed :
  pools p !! addr = Some [pc] → idle_too_long p (now 0%nat) pc = false →
  ∃ p1, Get addr now dialed p = (inl (conn pc), p1, []) ∧
    Put addr (Some (conn pc)) true now1 now2 (pool_cleanup t p1).1 = ((pool_cleanup t p1).1, [conn pc]).
Proof.
  intros Hp Hi. unfold Get. rewrite Hp. simpl. rewrite Hi. eexists. split; [done|].
  unfold Put. cbn [pool_cleanup fst pools with_pools]. by rewrite lookup_omap, lookup_insert_eq.
Qed.

(** [DoRequest] returns what it takes.  Unless dialling fails, it uses one
    connection, a reusable one of the pool or the new one; afterwards all
    connections are idle in the pool or closed, and the one it used is closed
    when the exchange failed. *)
Theorem DoRequest_returns_connection addr now dialed write_err read now1 now2 p r p' closed :
  DoRequest addr now dialed write_err read now1 now2 p = (r, p', closed) →
  (∃ err, dialed = inr err ∧ r = inr err ∧ idle p ≡ₚ closed ++ idle p') ∨
  ∃ c, (reusable p addr now c ∧ idle p ≡ₚ closed ++ idle p' ∨
        dialed = inl c ∧ c :: idle p ≡ₚ closed ++ idle p') ∧
    (∀ err, r = inr err → c ∈ closed).
Proof.
  unfold DoRequest. destruct (Get addr now dialed p) as [[g p1] cl] eqn:Eg.
  destruct g as [c|err].
  2: { intros [= <- <- <-].
       destruct (Get_conserves _ _ _ _ _ _ _ Eg) as [(c & [=] & _)|[<- Hi]]. left. by exists err. }
  intros E. right. exists c.
  assert (∃ h cl', Put addr (Some c) h now1 now2 p1 = (p', cl') ∧ closed = cl ++ cl' ∧
    (∀ err, r = inr err → h = false)) as (h & cl' & Ep & -> & Hr).
  { destruct write_err as [e|]; [|destruct read as [line|e]];
      (destruct (Put addr (Some c) _ now1 now2 p1) as [p2 cl'] eqn:Ep); injection E as <- <- <-;
      by eexists _, cl'. }
  pose proof (Put_conserves _ _ _ _ _ _ _ _ Ep) as Hp. split.
  - destruct (Get_conserves _ _ _ _ _ _ _ Eg) as [(c' & [= <-] & Hf & Hi)|[<- Hi]]; [left|right];
      (split; [done|]); rewrite Hi.
    + rewrite Hp. by rewrite app_assoc.
    + rewrite Permutation_middle, Hp. by rewrite app_assoc.
  - intros err Herr. rewrite (Hr err Herr) in Ep. apply elem_of_app. right.
    unfold Put in Ep. destruct (pools p1 !! addr); injection Ep as <- <-; left.
Qed.
End Pool.

(** ** Instances of the theorems *)
Definition sample_pool (lst : list pooledConn) : TCPConnPool :=
  {| pools := {["origin:80" := lst]}; maxIdle := 2; maxLifetime := 100 |}.

Definition sample_conn : pooledConn := {| conn := 7; created := 0; lastUsed := 0 |}.

(** A connection is dialled and then put back. *)
Definition dialled_world : world :=
  {| w_pool := sample_pool []; w_out := [7%nat]; w_closed := [] |}.

Definition returned_world : world :=
  {| w_pool := sample_pool [sample_conn]; w_out := []; w_closed := [] |}.

Lemma dialled_step : pool_step (new_world 2 100) dialled_world.
Proof.
  apply (step_get "origin:80" (λ _, 0) (inl 7%nat) (inl 7%nat) (sample_pool []) [] (new_world 2 100));
    [|vm_compute; reflexivity]. intros c _ H. by apply not_elem_of_nil in H.
Qed.

Lemma returned_step : pool_step dialled_world returned_world.
Proof.
  apply (step_put "origin:80" 7 true 0 0 (sample_pool [sample_conn]) [] [] dialled_world);
    [reflexivity|vm_compute; reflexivity].
Qed.

Lemma pool_refines_life_witness :
  status_of dialled_world 7 = Some Out ∧ status_of returned_world 7 = Some Idle ∧
  life (status_of dialled_world 7) (status_of returned_world 7).
Proof.
  destruct (pool_refines_life 2 100 dialled_world returned_world) as (_ & _ & H).
  - eapply rtc_l; [exact dialled_step|]. apply rtc_refl.
  - exact returned_step.
  - split; [vm_compute; reflexivity|]. split; [vm_compute; reflexivity|].
    destruct (H 7%nat) as [E|Hl]; [vm_compute in E; discriminate E|exact Hl].
Defined.

Lemma DoRequest_returns_connection_witness :
  (7%nat ∈ (DoRequest "origin:80" (λ _, 50) (inr "refused") None (inr "timeout") 51 51
     (sample_pool [sample_conn])).2) ∧
  reusable (sample_pool [sample_conn]) "origin:80" (λ _, 50) 7.
Proof.
  destruct (DoRequest_returns_connection "origin:80" (λ _, 50) (inr "refused") None (inr "timeout") 51 51
    (sample_pool [sample_conn]) (inr "timeout") (sample_pool []) [7%nat]) as [H|(c & Hc & Hr)];
    [reflexivity|destruct H as (err & E1 & E2 & _); congruence|].
  specialize (Hr "timeout" eq_refl). apply list_elem_of_singleton in Hr. subst c.
  split; [left|]. destruct Hc as [[Hc _]|[Hd _]]; [exact Hc|discriminate Hd].
Defined.
