(* ===== verification/ProxyStart.v ===== *)
(** * The start of the proxy

    [data-proxy/main.go] after the log is set up: the configuration, the servers
    and back-sourcers of both protocols, the aggregators and the rest of the
    shared objects, the QUIC listener, and the configured ports.  [main] starts
    the listeners one after the other while the accept loops it has already
    spawned look their sockets up: these steps interleave.  Whether the system
    grants a port is a parameter. *)
From S2P Require Import Prelude GoStrings Web Records Telemetry Net Packet Tunnel Aggregator AggPool Disagg Server.
From S2P Require Import BackSource Listeners RateLimit Config TunnelMgr QuicListen.
Local Open Scope Z_scope.
Local Open Scope go_scope.

(** ** The servers *)
Record TCPServer := {
  srv_protocol : string;
  srv_keepAlive : bool;
  srv_keepAliveTime : Z;
}.

Definition defaultKeepAliveTime : Z := 30 * second.

Definition NewTCPServer (keepAlive : bool) (keepAliveTime : Z) : TCPServer :=
  {| srv_protocol := "tcp"; srv_keepAlive := keepAlive;
     srv_keepAliveTime := if bool_decide (keepAliveTime = 0) then defaultKeepAliveTime else keepAliveTime |}.

(** The dynamic type of [ServerFuncs]. *)
Inductive ServerFuncs :=
| OnTCP (t : TCPServer)
| OnUDP.

(** [None] is a nil [Operate]. *)
Definition InitServerInterface (protocol : string) : option ServerFuncs :=
  if bool_decide (protocol = "tcp") then Some (OnTCP (NewTCPServer false 0))
  else if bool_decide (protocol = "udp") then Some OnUDP
  else None.

(** ** The shared objects *)
Section Objects.
Context `{RL : RateLib}.

Record proxy_objects := {
  ServerMap : gmap string (option ServerFuncs);
  BackSourcerMap : gmap string BackSourcer;
  GlobalAggRequest : pool;
  GlobalAggResponse : pool;
  GlobalDisagg : Disaggregator;
  globalRL : GlobalRateLimiter;
  tcp_workers : nat;
  TunnelMgr_ : TunnelManager;
  stream_tokens : nat;
  quic_listener : option listener;
}.

Definition protocols : list string := ["tcp"; "udp"].

Definition new_proxy (c : Config) (quic_bound : bool) : proxy_objects :=
  {| ServerMap := foldl (λ m p, <[p := InitServerInterface p]> m) ∅ protocols;
     BackSourcerMap := foldl (λ m p, <[p := NewBackSourcer p (c_BackWorkerCount c)]> m) ∅ protocols;
     GlobalAggRequest := NewAggregator (c_AggWorkerNum c);
     GlobalAggResponse := NewAggregator (c_AggWorkerNum c);
     GlobalDisagg := NewDisaggregator;
     globalRL := InitRateLimiter (c_RateLimit c);
     tcp_workers := InitWorkerPool (c_TcpWorkerCount c);
     TunnelMgr_ := NewTunnelManager;
     stream_tokens := NewTunnelStreamSem (c_TunnelConcurrentLimit c);
     quic_listener := ListenAndServeQUIC quic_bound |}.

End Objects.

(** ** The configured ports *)
Record starting := {
  to_start : list Listener;            (** of the loop in [main] *)
  sm_mgr : manager;
  spawned : list (bool * Z);           (** accept loops before their look-up *)
  accepting : list (bool * Z * nat);   (** and after it, with their socket *)
}.

Definition start_init (c : Config) : starting :=
  {| to_start := c_Listeners c; sm_mgr := new_manager; spawned := []; accepting := [] |}.

Definition kind (l : Listener) : bool * Z := (is_udp (l_Proto l), l_Port l).

(** A granted port, or the manager as it was: the error is discarded. *)
Definition start_port (granted : bool) (l : Listener) (m : manager) : manager :=
  match StartServerWithMgr (is_udp (l_Proto l)) (l_Port l) granted m with inl m => m | inr _ => m end.

Inductive start_step (grant : bool * Z → bool) : starting → go starting → Prop :=
| sp_skip s l ls :
    to_start s = l :: ls → is_protocol (l_Proto l) = false →
    start_step grant s (Ret {| to_start := ls; sm_mgr := sm_mgr s; spawned := spawned s; accepting := accepting s |})
| sp_listen s l ls :
    to_start s = l :: ls → is_protocol (l_Proto l) = true →
    start_step grant s (Ret {| to_start := ls; sm_mgr := start_port (grant (kind l)) l (sm_mgr s);
                               spawned := spawned s ++ [kind l]; accepting := accepting s |})
| sp_run s udp port s1 s2 :
    spawned s = s1 ++ (udp, port) :: s2 →
    start_step grant s
      (let! i := run_listener udp port (sm_mgr s) in
       Ret {| to_start := to_start s; sm_mgr := sm_mgr s; spawned := s1 ++ s2;
              accepting := match i with Some i => (udp, port, i) :: accepting s | None => accepting s end |}).

Definition start_run (grant : bool * Z → bool) : relation starting := λ s s', start_step grant s (Ret s').

(** [main]: [None] when the configuration cannot be read. *)
Definition proxy_main `{RL : RateLib} (h : host) (decode : string → option Config)
    (decode_node : string → option NodeConfig)
    (quic_bound : bool) : option (Config * proxy_objects * starting) :=
  match ReadYamlConfig h decode decode_node with
  | inr _ => None
  | inl (c, _, _) => Some (c, new_proxy c quic_bound, start_init c)
  end.

(** ** The ports come up *)
Definition served (ls : list Listener) : list Listener := filter (λ l, is_protocol (l_Proto l) = true) ls.

Definition listening (m : manager) (k : bool * Z) (i : nat) : Prop :=
  listenerMap m !! k.2 = Some i ∧ portMap m !! k.2 = Some true ∧
  socks m !! i = Some {| sk_udp := k.1; sk_port := k.2; sk_open := true |}.

Section Ports.
Context (grant : bool * Z → bool) (all : list Listener).
Hypothesis granted : ∀ l, l ∈ served all → grant (kind l) = true.
Hypothesis distinct : NoDup (l_Port <$> served all).

Record start_inv (s : starting) : Prop := {
  si_fresh i : (next_sock (sm_mgr s) ≤ i)%nat → socks (sm_mgr s) !! i = None;
  si_done : ∃ dn, all = dn ++ to_start s ∧
    (∀ l, l ∈ served dn → ∃ i, listening (sm_mgr s) (kind l) i ∧
       (kind l ∈ spawned s ∨ (kind l, i) ∈ accepting s)) ∧
    (∀ k, k ∈ spawned s → ∃ l, l ∈ served dn ∧ k = kind l);
}.

Lemma served_snoc ls l : served (ls ++ [l]) = served ls ++ (if is_protocol (l_Proto l) then [l] else []).
Proof. unfold served. rewrite filter_app, filter_cons, filter_nil. by destruct (is_protocol (l_Proto l)). Qed.

Lemma run_listening m k i : listening m k i → run_listener k.1 k.2 m = Ret (Some i).
Proof. intros (H1 & _ & H3). unfold run_listener. rewrite H1, H3. cbn. by destruct k as [[] ?]. Qed.

(** A new port leaves the others alone. *)
Lemma start_port_listening l m : (∀ i, (next_sock m ≤ i)%nat → socks m !! i = None) →
  listening (start_port true l m) (kind l) (next_sock m) ∧
  (∀ k i, k.2 ≠ l_Port l → listening m k i → listening (start_port true l m) k i) ∧
  (∀ i, (next_sock (start_port true l m) ≤ i)%nat → socks (start_port true l m) !! i = None).
Proof.
  intros Hf. unfold start_port, StartServerWithMgr, listening, kind. cbn. split_and!.
  - apply lookup_insert_eq.
  - apply lookup_insert_eq.
  - apply lookup_insert_eq.
  - intros k i Hk (H1 & H2 & H3). assert (next_sock m ≠ i) by (intros <-; by rewrite Hf in H3).
    by rewrite !lookup_insert_ne by done.
  - intros i Hi. rewrite lookup_insert_ne by lia. apply Hf. lia.
Qed.

Lemma start_inv_init c : c_Listeners c = all → start_inv (start_init c).
Proof.
  intros <-. split; [by intros; apply lookup_empty|]. exists []. split_and!; [done| |by intros ? ?%not_elem_of_nil].
  by intros l ?%not_elem_of_nil.
Qed.

Lemma start_step_inv s r : start_inv s → start_step grant s r → ∃ s', r = Ret s' ∧ start_inv s'.
Proof.
  intros [Hf (dn & Hall & Hup & Hsp)] Hs.
  destruct Hs as [s l ls Ht Hp|s l ls Ht Hp|s udp port s1 s2 Hsw].
  - eexists. split; [done|]. split; [done|]. exists (dn ++ [l]). cbn. rewrite served_snoc, Hp, app_nil_r.
    split_and!; [by rewrite <-app_assoc, Hall, Ht|done|done].
  - eexists. split; [done|]. rewrite granted.
    2: { rewrite Hall, Ht. unfold served. rewrite filter_app, filter_cons, Hp. cbn. set_solver. }
    destruct (start_port_listening l (sm_mgr s) Hf) as (H1 & H2 & H3).
    split; [done|]. exists (dn ++ [l]). cbn. rewrite served_snoc, Hp.
    split_and!; [by rewrite <-app_assoc, Hall, Ht| |].
    + intros x [Hx| ->%list_elem_of_singleton]%elem_of_app.
      * destruct (Hup x Hx) as (i & Hi & Hor). exists i. split; [|by destruct Hor; [left; apply elem_of_app; left|right]].
        apply H2; [|done]. cbn. intros E.
        rewrite Hall, Ht in distinct. unfold served in distinct. rewrite filter_app, filter_cons, Hp in distinct.
        cbn in distinct. rewrite fmap_app in distinct. apply NoDup_app in distinct as (_ & Hd & _).
        apply (Hd (l_Port x)); [by apply list_elem_of_fmap_2|]. rewrite E. by left.
      * exists (next_sock (sm_mgr s)). split; [done|]. left. apply elem_of_app. right. by left.
    + intros k [Hk| ->%list_elem_of_singleton]%elem_of_app.
      * destruct (Hsp k Hk) as (x & Hx & ->). exists x. split; [apply elem_of_app; by left|done].
      * exists l. split; [apply elem_of_app; right; by left|done].
  - destruct (Hsp (udp, port)) as (l & Hl & Hk); [rewrite Hsw; apply elem_of_app; right; by left|].
    destruct (Hup l Hl) as (i & Hi & _). rewrite <-Hk in Hi. pose proof (run_listening _ _ _ Hi) as Hr. cbn in Hr.
    rewrite Hr. cbn [go_bind]. eexists. split; [done|]. split; [done|]. exists dn. cbn. split_and!; [done| |].
    + intros x Hx. destruct (Hup x Hx) as (j & Hj & Hor). exists j. split; [done|].
      destruct Hor as [Hin|Hin]; [|right; by right].
      rewrite Hsw in Hin. apply elem_of_app in Hin as [Hin|[Hin|Hin]%elem_of_cons].
      * left. apply elem_of_app. by left.
      * right. rewrite Hin in Hj |- *. assert (j = i) as -> by (destruct Hi as (E1 & _), Hj as (E2 & _); congruence).
        by left.
      * left. apply elem_of_app. by right.
    + intros k Hk'. apply Hsp. rewrite Hsw. apply elem_of_app. rewrite elem_of_cons.
      apply elem_of_app in Hk' as [?|?]; auto.
Qed.

Lemma start_reachable c s : c_Listeners c = all → rtc (start_run grant) (start_init c) s → start_inv s.
Proof.
  intros Hc Hr. pose proof (start_inv_init c Hc) as H0. induction Hr as [|s0 s1 s2 Hs _ IH]; [done|].
  apply IH. destruct (start_step_inv s0 (Ret s1) H0 Hs) as (s' & [= <-] & H). done.
Qed.
End Ports.

(** Each step brings the start nearer to its end. *)
Definition start_work (s : starting) : nat := 2 * length (to_start s) + length (spawned s).

Lemma start_work_step grant s s' : start_step grant s (Ret s') → (start_work s' < start_work s)%nat.
Proof.
  intros Hs. unfold start_work. remember (Ret s') as r eqn:Er.
  destruct Hs as [s l ls Ht Hp|s l ls Ht Hp|s udp port s1 s2 Hsw].
  - injection Er as <-. cbn. rewrite Ht. cbn. lia.
  - injection Er as <-. cbn. rewrite Ht, length_app. cbn. lia.
  - destruct (run_listener udp port (sm_mgr s)); [|done]. injection Er as <-. cbn.
    rewrite Hsw, !length_app. cbn. lia.
Qed.

Lemma start_progress grant s : to_start s ≠ [] ∨ spawned s ≠ [] → ∃ r, start_step grant s r.
Proof.
  intros [Ht|Hs].
  - destruct (to_start s) as [|l ls] eqn:E; [done|]. destruct (is_protocol (l_Proto l)) eqn:Hp; eexists;
      [by eapply sp_listen|by eapply sp_skip].
  - destruct (spawned s) as [|[udp port] ks] eqn:E; [done|]. eexists. by apply (sp_run grant s udp port [] ks).
Qed.

(** C15: the proxy comes up. Once its configuration is read, both protocols have a
    server and a back-sourcer; and when the configured TCP and UDP ports are
    distinct and the system grants them, then in no interleaving of [main] with
    the accept loops that it spawns does a step panic, the start comes to an end
    after a bounded number of steps, and at the end every configured port is
    listed and has an open socket of its protocol with an accept loop on it. *)
Theorem proxy_comes_up `{RL : RateLib} h decode decode_node bound c o s0 grant :
  proxy_main h decode decode_node bound = Some (c, o, s0) →
  (∀ l, l ∈ served (c_Listeners c) → grant (kind l) = true) → NoDup (l_Port <$> served (c_Listeners c)) →
  (∀ p, p ∈ protocols → is_Some (BackSourcerMap o !! p) ∧ ∃ f, ServerMap o !! p = Some (Some f)) ∧
  ∀ n s, nsteps (start_run grant) n s0 s →
    (n ≤ 2 * length (c_Listeners c))%nat ∧
    (∀ w, ¬ start_step grant s (Panic w)) ∧
    ((∀ r, ¬ start_step grant s r) →
       ∀ l, l ∈ served (c_Listeners c) → ∃ i, listening (sm_mgr s) (kind l) i ∧ (kind l, i) ∈ accepting s).
Proof.
  unfold proxy_main. destruct (ReadYamlConfig h decode decode_node) as [[[c' ?] ?]|e]; [|done].
  intros [= <- <- <-] Hg Hnd. split.
  { intros p Hp. unfold new_proxy, protocols. cbn [ServerMap BackSourcerMap foldl].
    apply elem_of_cons in Hp as [->|Hp]; [|apply list_elem_of_singleton in Hp as ->];
      rewrite ?lookup_insert_eq, ?(lookup_insert_ne _ "udp" "tcp"), ?lookup_insert_eq by done; (split; [done|]);
      eexists; reflexivity. }
  intros n s Hn.
  assert (start_inv (c_Listeners c') s) as Hinv.
  { eapply start_reachable; [done|done|reflexivity|]. by eapply rtc_nsteps_2. }
  split_and!.
  - assert (n + start_work s ≤ start_work (start_init c'))%nat as Hw.
    { clear Hinv. induction Hn as [|n x y z Hxy _ IH]; [lia|]. apply start_work_step in Hxy. lia. }
    unfold start_work in Hw at 2. cbn in Hw. lia.
  - intros w Hs. destruct (start_step_inv grant _ Hg Hnd s _ Hinv Hs) as (s' & ? & _). done.
  - intros Hend l Hl. destruct Hinv as [_ (dn & Hall & Hup & _)].
    assert (to_start s = [] ∧ spawned s = []) as [Ht Hs].
    { split; apply dec_stable; intros Hne; destruct (start_progress grant s) as [r Hr]; auto; by apply (Hend r). }
    rewrite Ht, app_nil_r in Hall. rewrite Hall in Hl. destruct (Hup l Hl) as (i & Hi & [Hin|Hin]).
    + rewrite Hs in Hin. by apply not_elem_of_nil in Hin.
    + by exists i.
Qed.

Lemma run_panics grant s udp port s1 s2 w : spawned s = s1 ++ (udp, port) :: s2 →
  run_listener udp port (sm_mgr s) = Panic w → start_step grant s (Panic w).
Proof. intros Hs Hr. pose proof (sp_run grant s udp port s1 s2 Hs) as H. by rewrite Hr in H. Qed.

(** With TCP and UDP on one port, as for HTTPS and HTTP/3, the start can crash:
    the UDP socket takes the entry of the port before the TCP accept loop looks
    it up. *)
Theorem shared_port_crashes grant c port :
  c_Listeners c = [{| l_Proto := "tcp"; l_Port := port; BatchNum := 0 |};
                   {| l_Proto := "udp"; l_Port := port; BatchNum := 0 |}] →
  grant (false, port) = true → grant (true, port) = true →
  ∃ s, rtc (start_run grant) (start_init c) s ∧ start_step grant s (Panic "interface conversion").
Proof.
  intros Hc H1 H2. eexists. split.
  - eapply rtc_l; [by eapply (sp_listen grant (start_init c) {| l_Proto := "tcp"; l_Port := port; BatchNum := 0 |})|].
    eapply rtc_l; [by eapply (sp_listen grant _ {| l_Proto := "udp"; l_Port := port; BatchNum := 0 |})|].
    apply rtc_refl.
  - apply (run_panics grant _ false port [] [(true, port)]); [done|]. unfold kind. cbn [l_Proto l_Port sm_mgr].
    change (is_udp "tcp") with false. change (is_udp "udp") with true. rewrite H1, H2.
    unfold start_port, run_listener. cbn. by rewrite !lookup_insert_eq.
Qed.

(** ** Instances of the theorems *)
Definition two_ports : Config :=
  {| c_Port := "7083"; c_ControlHost := "http://127.0.0.1:7081"; TestRouting := []; c_AggWorkerNum := 4;
     c_AggWorkerCount := 4; c_TcpWorkerCount := 100; c_BackWorkerCount := 20; c_TunnelConcurrentLimit := 20;
     c_Listeners := [{| l_Proto := "tcp"; l_Port := 8081; BatchNum := 10 |};
                     {| l_Proto := "udp"; l_Port := 8002; BatchNum := 0 |};
                     {| l_Proto := "sctp"; l_Port := 8003; BatchNum := 0 |}];
     c_RateLimit := {| QPS := 1000; Burst := 2000; CleanInterval := 5 |};
     c_BufferSize := 5120; c_BatchTimeoutMs := 50; c_Node := some_config |}.

Definition proxy_host : host :=
  {| Executable := Some ["opt"; "data-proxy"]; Getwd := None; Stat := λ _, Found; ReadFile := λ _, Some "" |}.

Lemma proxy_comes_up_witness : ∃ c o s0,
  proxy_main (RL := counting) proxy_host (λ _, Some two_ports) (λ _, None) true = Some (c, o, s0) ∧
  ∀ n s, nsteps (start_run (λ _, true)) n s0 s → (n ≤ 6)%nat ∧ ∀ w, ¬ start_step (λ _, true) s (Panic w).
Proof.
  destruct (proxy_main (RL := counting) proxy_host (λ _, Some two_ports) (λ _, None) true)
    as [[[c o] s0]|] eqn:E; [|discriminate E].
  exists c, o, s0. split; [reflexivity|].
  assert (c = two_ports) as -> by (apply Some_inj in E; apply (f_equal (λ x, x.1.1)) in E; symmetry; exact E).
  destruct (proxy_comes_up (RL := counting) proxy_host (λ _, Some two_ports) (λ _, None) true two_ports o s0
    (λ _, true) E) as [_ H].
  - reflexivity.
  - apply (bool_decide_unpack _). vm_compute. exact I.
  - intros n s Hn. destruct (H n s Hn) as (H1 & H2 & _). split; [exact H1|exact H2].
Defined.

Definition https_ports : Config :=
  {| c_Port := "7083"; c_ControlHost := ""; TestRouting := []; c_AggWorkerNum := 4;
     c_AggWorkerCount := 4; c_TcpWorkerCount := 100; c_BackWorkerCount := 20; c_TunnelConcurrentLimit := 20;
     c_Listeners := [{| l_Proto := "tcp"; l_Port := 443; BatchNum := 0 |};
                     {| l_Proto := "udp"; l_Port := 443; BatchNum := 0 |}];
     c_RateLimit := {| QPS := 1000; Burst := 2000; CleanInterval := 5 |};
     c_BufferSize := 5120; c_BatchTimeoutMs := 50; c_Node := some_config |}.

Lemma shared_port_crashes_witness :
  ∃ s, rtc (start_run (λ _, true)) (start_init https_ports) s ∧
    start_step (λ _, true) s (Panic "interface conversion").
Proof. apply (shared_port_crashes (λ _, true) https_ports 443); reflexivity. Defined.
