(* ===== verification/Util.v ===== *)
(** * Utilities

    [util/util.go] of the three programs (the random names of log lines),
    [control-plane/util/safe-map.go] (a map under a lock, that no other code uses
    so far) and [data-proxy/server/tcp_rtt_linux.go], [tcp_rtt_stub.go] (the round
    trip time of a client connection). *)
From Stdlib Require Import Ascii SpecFloat.
From S2P Require Import Prelude Float64 FloatDiv GoStrings GoHeap Random Web.
Local Open Scope Z_scope.
Local Open Scope go_scope.

(** ** [GenerateRandomLetters] *)
Definition letters : string := "abcdefghijklmnopqrstuvwxyzABCDEFGHIJKLMNOPQRSTUVWXYZ".

Definition is_letter (c : ascii) : bool := between 97 122 c || between 65 90 c.

Section Letters.
Context `{RS : RandSource}.

(** One turn of the loop: indexing the string panics outside of it. *)
Definition add_letter (acc : go (nat * string)) (_ : nat) : go (nat * string) :=
  let! r := acc in
  let '(pos, result) := r in
  match String.get (rand_Intn pos (String.length letters)) letters with
  | None => Panic "index out of range"
  | Some c => Ret (S pos, result +:+ String c "")
  end.

(** With the number of draws made before and after. *)
Definition GenerateRandomLetters (pos : nat) (length : Z) : go (nat * string) :=
  foldl add_letter (Ret (pos, "")) (seq 0 (Z.to_nat length)).

Lemma letters_get n : (n < String.length letters)%nat →
  ∃ c, String.get n letters = Some c ∧ is_letter c = true.
Proof.
  intros Hn. assert (forallb (λ n, match String.get n letters with Some c => is_letter c | None => false end)
    (seq 0 (String.length letters)) = true) as H by (vm_compute; reflexivity).
  rewrite forallb_forall in H. specialize (H n). rewrite in_seq in H. specialize (H ltac:(lia)).
  destruct (String.get n letters) as [c|]; [|done]. by exists c.
Qed.

Lemma string_length_app (a b : string) : String.length (a +:+ b) = (String.length a + String.length b)%nat.
Proof. induction a as [|c a IH]; [done|]. exact (f_equal S IH). Qed.

(** The name has the length that was asked for, of letters only, and the loop
    never leaves the alphabet, whatever is drawn. *)
Lemma GenerateRandomLetters_correct pos n : 0 ≤ n →
  ∃ s, GenerateRandomLetters pos n = Ret ((pos + Z.to_nat n)%nat, s) ∧
    Z.of_nat (String.length s) = n ∧ all_chars is_letter s = true.
Proof.
  intros Hn. assert (∀ k, ∃ s, foldl add_letter (Ret (pos, "")) (seq 0 k) = Ret ((pos + k)%nat, s) ∧
    String.length s = k ∧ all_chars is_letter s = true) as H.
  { induction k as [|k IH]; [exists ""; by rewrite Nat.add_0_r|]. destruct IH as (s & E & Hl & Ha).
    rewrite seq_S, foldl_snoc, E. cbn [add_letter go_bind].
    destruct (letters_get (rand_Intn (pos + k) (String.length letters))) as (c & -> & Hc).
    { apply rand_Intn_lt. vm_compute. lia. }
    exists (s +:+ String c ""). split_and!.
    - do 2 f_equal. lia.
    - rewrite string_length_app. cbn. lia.
    - rewrite all_chars_app, Ha. cbn [all_chars]. by rewrite Hc. }
  destruct (H (Z.to_nat n)) as (s & E & Hl & Ha). exists s. split_and!; [done|lia|done].
Qed.
End Letters.

(** ** [SafeMap]

    The values are objects: the map holds references into a heap, which callers
    share with it.  Each method runs under the lock, so it is one step. *)
Section SafeMap.
Context {V : Type}.

Record SafeMap := {
  sm_m : gmap string nat;
  sm_heap : gmap nat V;
}.

Definition NewSafeMap (heap : gmap nat V) : SafeMap := {| sm_m := ∅; sm_heap := heap |}.

Definition sm_Get (key : string) (s : SafeMap) : option nat := sm_m s !! key.
Definition sm_Set (key : string) (value : nat) (s : SafeMap) : SafeMap :=
  {| sm_m := <[key := value]> (sm_m s); sm_heap := sm_heap s |}.
Definition sm_Delete (key : string) (s : SafeMap) : SafeMap :=
  {| sm_m := delete key (sm_m s); sm_heap := sm_heap s |}.
Definition sm_Len (s : SafeMap) : nat := size (sm_m s).

(** The loop of [Range] on the entries in some order, with the state of the
    callback. *)
Fixpoint range_while {S} (fn : string → nat → S → S * bool) (l : list (string * nat)) (st : S) : S :=
  match l with
  | [] => st
  | (k, v) :: l => let '(st, go_on) := fn k v st in if go_on : bool then range_while fn l st else st
  end.

Definition sm_Range `{RO : RangeOrder} {S} (fn : string → nat → S → S * bool) (s : SafeMap) (st : S) : S :=
  range_while fn (range_map 71 (sm_m s)) st.

Definition sm_GetAll `{RO : RangeOrder} (s : SafeMap) : gmap string nat :=
  foldl (λ m e, <[e.1 := e.2]> m) ∅ (range_map 72 (sm_m s)).

(** The callback works on the stored object, in place. *)
Definition sm_Update (key : string) (fn : V → V * option string) (s : SafeMap) : SafeMap * option string :=
  match sm_m s !! key with
  | None => (s, Some "key not found")
  | Some r =>
      match sm_heap s !! r with
      | None => (s, Some "nil value")
      | Some v => let '(v, err) := fn v in ({| sm_m := sm_m s; sm_heap := <[r := v]> (sm_heap s) |}, err)
      end
  end.

(** [Range] without an early end visits every entry once, in some order; the
    callback that stops is called for a prefix of them. *)
Lemma sm_Range_visits `{RO : RangeOrder} (stop : string → bool) (s : SafeMap) :
  ∃ rest, sm_Range (λ k v l, (l ++ [(k, v)], negb (stop k))) s [] ++ rest ≡ₚ map_to_list (sm_m s) ∧
    ((∀ k, is_Some (sm_m s !! k) → stop k = false) → rest = []).
Proof.
  unfold sm_Range.
  assert (∀ l acc, ∃ rest, range_while (λ k v l, (l ++ [(k, v)], negb (stop k))) l acc ++ rest = acc ++ l ∧
    ((∀ e, e ∈ l → stop e.1 = false) → rest = [])) as H.
  { induction l as [|[k v] l IH]; intros acc; cbn [range_while]; [exists []; by rewrite !app_nil_r|].
    destruct (stop k) eqn:Hk; cbn [negb].
    - exists l. split; [by rewrite <-app_assoc|]. intros Ha. specialize (Ha (k, v) ltac:(by left)). cbn in Ha. congruence.
    - destruct (IH (acc ++ [(k, v)])) as (rest & E & Hr). exists rest. split; [rewrite E, <-app_assoc; done|].
      intros Ha. apply Hr. intros e He. apply Ha. by right. }
  destruct (H (range_map 71 (sm_m s)) []) as (rest & E & Hr). exists rest.
  split; [rewrite E; apply range_map_perm|].
  intros Hs. apply Hr. intros [k v] He%range_map_elem. apply Hs. by exists v.
Qed.

(** [GetAll] is a copy of the map and shares the objects: an update made through
    the map is seen through a copy taken before, while later insertions and
    deletions are not. *)
Lemma sm_GetAll_shares `{RO : RangeOrder} key fn s r v :
  sm_GetAll s = sm_m s ∧
  (sm_GetAll s !! key = Some r → sm_heap s !! r = Some v →
     sm_heap (sm_Update key fn s).1 !! r = Some (fn v).1 ∧
     sm_GetAll s !! key = sm_GetAll (sm_Update key fn s).1 !! key).
Proof.
  assert (∀ t, sm_GetAll t = sm_m t) as Hall.
  { intros t. unfold sm_GetAll. apply map_eq. intros k. destruct (sm_m t !! k) as [x|] eqn:Hk.
    - apply insert_all_lookup; [apply range_map_NoDup|by apply range_map_elem].
    - rewrite insert_all_outside; [apply lookup_empty|]. intros ([k' x] & -> & He%range_map_elem)%list_elem_of_fmap.
      cbn in Hk. congruence. }
  split; [apply Hall|]. rewrite !Hall. intros Hk Hr. unfold sm_Update. rewrite Hk, Hr.
  destruct (fn v) as [v' err]. cbn. by rewrite lookup_insert_eq, Hk.
Qed.
End SafeMap.
Arguments SafeMap : clear implicits.

(** ** [getTCPRTT]

    [rtt_us] is the field of [TCP_INFO], 32 bits of microseconds, if the
    connection is one of TCP and the socket option can be read. *)
Definition getTCPRTT (linux : bool) (rtt_us : option Z) : float64 :=
  if linux then
    match rtt_us with
    | None => f_of_Z (-1)
    | Some rtt => fdiv (f_of_Z rtt) (f_of_Z 1000)
    end
  else f_of_Z (-1).

(** A measured time is not negative, so -1 only stands for a failure. *)
Lemma getTCPRTT_measured rtt : 0 ≤ rtt < 2 ^ 32 →
  fle f0 (getTCPRTT true (Some rtt)) = true ∧ fle f0 (getTCPRTT true None) = false ∧
  ∀ info, fle f0 (getTCPRTT false info) = false.
Proof.
  intros Hr. split_and!; [|vm_compute; reflexivity|intros; vm_compute; reflexivity].
  apply f_nonneg_ge0. unfold getTCPRTT. apply fdiv_nonneg.
  - apply f_nonneg_ge0, f_fin_nonneg, f_of_Z_fin. lia.
  - by apply f_of_Z_positive.
  - intros _. vm_compute. discriminate.
Qed.
